(* ===== verification/_CoqProject ===== *)
-Q . S2P
Prelude.v
StateLogic.v
Async.v
Rely.v
Keys.v
Errors.v
Internal.v
Header.v
Kid.v
PeerMap.v
Replay.v
Durable.v
DurableAsync.v
DurableRules.v
DurableTabs.v
DurableGenuine.v
DurableSession.v
DurableShared.v
DurableAlone.v
WebCrypto.v
Toy.v
Crypto.v
Codec.v
SFrame.v
Fips.v
Sas.v
Kex.v
Room.v
RoomLogic.v
RoomE2E.v
RoomInv.v
RoomLife.v
ChatCache.v
ChatKeys.v
ChatCtr.v
ChatReplay.v
Chat.v
ChatRace.v
ChatMls.v
ChatMlsRace.v
WorkerTypes.v
WorkerState.v
WorkerFrame.v
Worker.v
WorkerLogic.v
Demo.v
WorkerRatchet.v
WorkerEvents.v
WorkerSend.v
WorkerGates.v
WorkerE2E.v
WorkerEpochs.v
WorkerFailures.v
WorkerQueue.v
WorkerKeys.v
WorkerReplay.v
WorkerDrain.v
WorkerStream.v
WorkerAsync.v
WorkerPieces.v
WorkerSerial.v
WorkerRace.v
WorkerInterleave.v
WorkerGuard.v
WorkerIntegrity.v
WorkerNonces.v
WorkerAlone.v
WorkerProgress.v
WorkerOverlap.v
Cryptor.v
CryptorProtocol.v
CryptorDrive.v
CryptorE2E.v
MlsEpoch.v
MeshDemo.v
