(* ===== verification/Prelude.v ===== *)
(** * sframe-ratchet: a verification

    The repository is a TypeScript library for end-to-end encryption of WebRTC media (SFrame,
    RFC 9605) and of chat messages, with keys from an epoch ratchet, an MLS group or a password.
    This development models all of it but the package's export lists. Paths below are relative to
    src/src/.

    ** How the program fits together

    Keys. A room ratchet (ratchet.ts) numbers epochs, gives every member the chain key of an epoch
    wrapped under an X25519 secret, and shows short authentication strings (sas.ts). MLS groups
    export their chain keys instead (mls/index.ts), a [SimpleKex] derives them from a password
    (kex-simple.ts). From a chain key the sender keys of an epoch are derived (ratchet-crypto.ts)
    and numbered by KIDs (ratchet-ids.ts, kid-format.ts). A process-wide gate can insist on FIPS
    primitives (strict-fips.ts).

    Media. A frame cryptor on the main thread (frame-cryptor.ts) starts an encoded-frame worker,
    attaches the browser's transforms to it and posts it each epoch's key table. The worker
    (worker.ts) takes messages (worker-state.ts) and frames from the streams (worker-frame.ts). A
    frame that is sent is sealed by AES-GCM behind a header (sframe.ts, sframe-header.ts), its first
    bytes left clear for the SFU (codec-partial.ts), with an optional trailer (sif-trailer.ts). A
    frame that is received goes through the gates of decodeFrame: format resolution, stale epoch,
    pre-epoch queue, sliding replay window (internal/replay.ts), durable replay guard
    (chat/durable-replay.ts), key invalidation; then it is opened with the cached key or with one up
    to [ratchetWindowSize] derivations ahead.

    Chat. A provider (chat/index.ts, chat/mls.ts) seals messages with keys that it derives per room
    and sender and caches (chat/derive.ts), counters from an allocator that tabs share
    (chat/ctr-allocator.ts) and replay windows per sender (chat/shared.ts).

    ** Files and what they model

    Foundations.
    - [Prelude]: bytes, JavaScript numbers and 32-bit operators, results and the state monad [M]
      with exceptions, record updates, big-endian numbers, lists. [Keys]: composite string keys.
    - [StateLogic]: [keeps R m], a relation between the states before and after a computation, and
      [returns m] for computations that never throw. [Async]: computations that wait, [alone] when
      nobody comes in between, [keepsP] and the Hoare triples [hoare] when others do. [Rely]:
      rely/guarantee triples [rg] for computations that overlap with others.
    - [Errors]: errors.ts. [Internal]: internal/buffer.ts, constant-time.ts, collections.ts, with
      the interface [JSMap] for maps and its two implementations (gmap, insertion-ordered [OMap]).
    - [WebCrypto]: the browser's crypto as a class of operations, and its documented laws
      ([WebCryptoLaws]: AES-GCM opens exactly what it sealed and adds 16 bytes, HKDF gives the
      length asked for, X25519 agrees). [Toy]: an instance of both, for the witnesses.

    Formats and primitives.
    - [Header]: sframe-header.ts. [Kid]: KIDs of ratchet-ids.ts and kid-format.ts, with the
      interface [KidCodecLaws] that the pipeline relies on. [PeerMap]: the peer index map of
      ratchet-ids.ts. [Codec]: codec-partial.ts and sif-trailer.ts.
    - [Crypto]: ratchet-crypto.ts and the wrapping half of ratchet-ids.ts. [SFrame]: sframe.ts.
    - [Replay]: internal/replay.ts. [Durable]: chat/durable-replay.ts over an environment of
      IndexedDB requests that may fail, one operation at a time.

    The durable guard with its awaits.
    - [DurableAsync]: the operations of chat/durable-replay.ts split at their waits, window objects
      and promises by identity; a [Browser] is the tabs, what they share (the database, the locks)
      and the calls in flight; any order of calls, resumptions, tabs that open and close and
      failures of the storage is a run.
    - [DurableAlone]: a call that does not overlap with another is the operation of [Durable].
      [DurableRules]: [rg] rules for the operations; [DurableTabs]: the class [Discipline] of an
      invariant with the rely and the guarantee of every call, and that runs keep it.
      [DurableGenuine], [DurableSession], [DurableShared]: three disciplines and their theorems.

    Key agreement.
    - [Fips]: strict-fips.ts. [Sas]: sas.ts. [Kex]: kex-simple.ts over the class [NobleHashes].
    - [Room]: ratchet.ts over a heap of key buffers, timers and a clock; [RoomLogic] runs its
      methods, [RoomE2E], [RoomInv] and [RoomLife] are its theorems.
    - [MlsEpoch]: mls/index.ts over the class [TsMls] and its documented laws [TsMlsLaws].

    Chat.
    - [ChatCache], [ChatKeys]: chat/derive.ts. [ChatCtr]: chat/ctr-allocator.ts. [ChatReplay]:
      chat/shared.ts. [Chat]: chat/index.ts; [ChatRace]: [seal] and [unseal] split at their awaits.
      [ChatMls]: chat/mls.ts; [ChatMlsRace]: its calls split at the awaits.

    The worker, one event at a time.
    - [WorkerTypes], [WorkerState], [WorkerFrame], [Worker]: worker-types.ts, worker-state.ts,
      worker-frame.ts, worker.ts. [World] is the worker's state with what it reaches: frame
      objects by identity, the clock, IndexedDB, posted messages, enqueued frames. [step] is one
      event (message, frame, timer, tick), [run] a sequence of them.
    - [WorkerLogic], [WorkerEvents]: the classes [Frame_rel], [Receive_rel] and [Event_rel] that say
      which writes a relation must tolerate to hold along the receive path and along runs. [Demo]:
      concrete worlds.
    - [WorkerRatchet], [WorkerSend], [WorkerGates], [WorkerE2E], [WorkerEpochs], [WorkerFailures],
      [WorkerQueue], [WorkerKeys], [WorkerReplay], [WorkerDrain], [WorkerStream]: its theorems.

    The worker as an event loop.
    - [WorkerAsync]: the same operations with their awaits, and the identity of what a suspended call
      holds (an epoch entry, a replay window, the promise of a retry). [WorkerRace]: a [Config] is
      the worker and its calls in flight; any order of arrivals, messages, timers and resumptions
      is a run.
    - [WorkerPieces]: relations that every uninterrupted piece keeps ([Async_rel]). [WorkerSerial],
      [WorkerAlone]: without overlap the event loop is [Worker]. [WorkerInterleave], [WorkerGuard],
      [WorkerIntegrity], [WorkerNonces], [WorkerProgress]: theorems on all interleavings.
      [WorkerOverlap]: schedules that show what overlapping calls can do to each other.

    The main thread.
    - [Cryptor]: frame-cryptor.ts. [CryptorProtocol]: what it sends along any run.
      [CryptorDrive], [CryptorE2E]: with a worker, and two of them from end to end.

    An application.
    - [MeshDemo]: the browser example, examples/02-mesh-browser/src/main.js of the repository.

    ** What is proved

    - End to end: two cryptors, and members of an MLS group, restore each other's frames, in any
      order of arrival ([CryptorE2E], [MlsEpoch], on [WorkerE2E]); the cryptor drives its worker
      through its protocol ([CryptorProtocol], [CryptorDrive]).
    - The pipeline, event by event: every branch of encodeFrame ([WorkerSend]); the gates of
      decodeFrame in order with their notices, what a delivered frame has passed, that a throw
      changes no frame, which key of the retry window opens a frame, that a replay is refused, that
      the drain agrees with decodeFrame ([WorkerGates], [WorkerRatchet], [WorkerReplay],
      [WorkerDrain]); life and death of an epoch, the key table, the bounded queue, failure
      tolerance, the format cache ([WorkerEpochs], [WorkerKeys], [WorkerQueue], [WorkerFailures],
      [WorkerStream]).
    - The pipeline under every interleaving: frames only hold what arrived, was opened with genuine
      keys for their sender or was sealed with them ([WorkerIntegrity]); without a teardown no two
      frames that leave the encode pipes are sealed under one epoch and counter ([WorkerNonces], on
      the bytes that are put out); the drain's guard is released, no call waits for ever; a run
      without overlap is a run of [Worker]. Two schedules show what is not true: a retry that
      returns another frame's contents, and a copy that is delivered twice ([WorkerOverlap]).
    - Keys: a room's members agree on epoch keys, tables and SAS, the epochs they need are there and
      superseded ones are overwritten in time ([RoomE2E], [RoomLife]); derived keys are well formed
      and labels separate ([Crypto]); equal SAS displays mean what they should ([Sas]); the chain
      keys that an MLS group exports are zeroed ([MlsEpoch]).
    - Chat: what unseal delivers was sealed for that room and sender and is new, and a stream of
      messages is delivered as a window of the last n counters says ([Chat]); whatever calls
      interleave, what a provider delivers is authentic, though a message may come twice, and what
      it seals is sealed under a key of the room ([ChatRace], [ChatMlsRace]); the cache, the counters and the windows meet their abstract
      specifications ([ChatCache], [ChatCtr], [ChatReplay]).
    - The durable guard, whatever calls overlap and tabs close: it refuses only replays, a tab goes on
      refusing what it accepted, and a tab that loads a key later refuses what others accepted while
      the storage works ([DurableGenuine], [DurableSession], [DurableShared]); the latter two need
      that the key is not cleared and that its CTRs fit in the window, the last one that all the
      accepts of the CTR in the tab have settled, and schedules in [DurableShared] show why.
    - The browser example: what the receiver shows was sealed by the sender, and its counters are
      consecutive unless ticks overlap ([MeshDemo]).
    - The parts: header and KID codecs round-trip and match declarative references; the windows
      refine "the last n accepted counters", across reloads too; sealing is authentic and in-place
      sealing equivalent; peer maps are canonical; comparisons decide.

    ** Bounds and fuel

    Recursions are structural except: [le_loop] (header integers) with fuel from [Z.log2], shown
    enough; [trim_cache_loop] and [evict_rooms_loop] with the size of the map, shown enough;
    [drain_loop], with two passes, shown enough: a drain that is alone runs one pass, and a second
    one if it finds that another drain had been asked for; [retry_stepsP], which reads its bound again before every step and waits for ever when
    its fuel is gone, with a fuel above every retry window that is set ([WorkerProgress] shows that
    it then never is). Safety theorems on the event loop hold for every fuel. [run_task] takes six
    pieces to finish an [unseal] and four for a [seal]; [finish_call] resumes a call of the guard twenty times in the
    examples, while [DurableAlone] shows for every call that some number is enough and that more do
    no harm. Counters and KIDs are [Z] with the ranges the code tests; 32-bit
    operators wrap as in ECMAScript. A character of a string stands for one code unit below 256, so
    that [textEncode] gives one or two bytes for it and sorting compares characters.

    ** What is not modelled

    The re-exports of index.ts, the types that only TypeScript sees, the other examples (a script and
    a text), the DOM, console output and the texts of human-readable messages. Outside the worker,
    the durable guard, [ChatRace] and [ChatMlsRace] a call runs to its end before the next, except
    [Cryptor.setEpoch], which is split at its derivation. For the worker and the chat, an await
    inside the durable guard or inside a key derivation is one wait, and calls of the guard are
    served in the order they are made; the guard with its own awaits is modelled apart, in
    [DurableAsync], where an IndexedDB request is executed at some moment and answered at a later
    one, a transaction takes effect when it is executed, and a free lock may go to any call that
    waits for it. Callbacks that the application registers return without throwing and do not call
    back. Names that every JavaScript object inherits ([__proto__], [constructor]) are not used as
    peer ids, room ids or metric names. The chain key that [Cryptor.setEpoch] is given is read when
    the call starts. *)
From stdpp Require Export base list gmap strings pretty.
From Stdlib Require Export ZArith Lia.
From Stdlib Require Import Strings.Byte.
#[global] Open Scope Z_scope.

Create HintDb sframe.

(** ** Bytes *)

(** A [Uint8Array] is a list of bytes; storing a number into a slot keeps its low eight bits. *)
Abbreviation bytes := (list Byte.byte).

#[export] Instance byte_eq_dec : EqDecision Byte.byte := Byte.byte_eq_dec.

Definition b2z (b : Byte.byte) : Z := Z.of_N (Byte.to_N b).

Definition z2b (z : Z) : Byte.byte :=
  match Byte.of_N (Z.to_N (z mod 256)) with
  | Some b => b
  | None => Byte.x00
  end.

Lemma b2z_range b : 0 <= b2z b < 256.
Proof. destruct b; vm_compute; split; congruence. Qed.

Lemma z2b_b2z b : z2b (b2z b) = b.
Proof. by destruct b. Qed.

Lemma b2z_z2b z : b2z (z2b z) = z mod 256.
Proof.
  unfold z2b. assert (0 <= z mod 256 < 256) as Hr by (apply Z.mod_pos_bound; lia).
  destruct (Byte.of_N (Z.to_N (z mod 256))) as [b|] eqn:E.
  - apply Byte.to_of_N in E. unfold b2z. rewrite E. lia.
  - apply Byte.of_N_None_iff in E. lia.
Qed.

Lemma b2z_inj a b : b2z a = b2z b -> a = b.
Proof. intros H. by rewrite <- (z2b_b2z a), <- (z2b_b2z b), H. Qed.

Lemma z2b_mod z : z2b (z mod 256) = z2b z.
Proof. unfold z2b. by rewrite Z.mod_mod by lia. Qed.

#[export] Hint Resolve b2z_range : sframe.
#[export] Hint Rewrite z2b_b2z b2z_z2b z2b_mod : sframe.

(** ** Numbers *)

(** A JavaScript [number] that is finite: an integer, or a fraction known by its floor. The two
    infinities and NaN behave as [JsFrac] wherever the code only asks [Number.isInteger]. *)
Inductive jsnum : Type :=
| JsInt (z : Z)
| JsFrac (floor : Z).

Definition js_floor (n : jsnum) : Z :=
  match n with JsInt z => z | JsFrac f => f end.

(** [n > 0] *)
Definition js_positive (n : jsnum) : bool :=
  match n with JsInt z => 0 <? z | JsFrac f => 0 <=? f end.

(** ECMAScript ToUint32 and ToInt32, and the 32-bit operators built on them. *)
Definition to_uint32 (z : Z) : Z := z mod 2 ^ 32.

Definition to_int32 (z : Z) : Z :=
  let u := to_uint32 z in if u <? 2 ^ 31 then u else u - 2 ^ 32.

Definition js_and (a b : Z) : Z := to_int32 (Z.land (to_int32 a) (to_int32 b)).
Definition js_or (a b : Z) : Z := to_int32 (Z.lor (to_int32 a) (to_int32 b)).
Definition js_shl (a n : Z) : Z := to_int32 (Z.shiftl (to_int32 a) (n mod 32)).
Definition js_shr (a n : Z) : Z := Z.shiftr (to_int32 a) (n mod 32).
Definition js_ushr (a n : Z) : Z := Z.shiftr (to_uint32 a) (n mod 32).

Lemma to_uint32_range z : 0 <= to_uint32 z < 2 ^ 32.
Proof. apply Z.mod_pos_bound; lia. Qed.

Lemma to_uint32_small z : 0 <= z < 2 ^ 32 -> to_uint32 z = z.
Proof. apply Z.mod_small. Qed.

Lemma to_int32_small z : 0 <= z < 2 ^ 31 -> to_int32 z = z.
Proof.
  intros H. unfold to_int32. rewrite to_uint32_small by lia.
  by rewrite (proj2 (Z.ltb_lt _ _)) by lia.
Qed.

Lemma to_uint32_to_int32 z : to_uint32 (to_int32 z) = to_uint32 z.
Proof.
  unfold to_int32, to_uint32. case_match; [by rewrite Z.mod_mod|].
  rewrite Zminus_mod, Z.mod_mod, Z.mod_same, Z.sub_0_r, Z.mod_mod; lia.
Qed.

(** Bounds of bitwise operations, through [Z.log2]. *)
Lemma lt_pow2_log2 n x : 0 < n -> 0 <= x -> x < 2 ^ n <-> Z.log2 x < n.
Proof.
  intros Hn Hx. destruct (Z.eq_dec x 0) as [->|].
  - change (Z.log2 0) with 0. pose proof (Z.pow_pos_nonneg 2 n). lia.
  - apply Z.log2_lt_pow2. lia.
Qed.

Lemma lor_bound n a b : 0 < n -> 0 <= a < 2 ^ n -> 0 <= b < 2 ^ n -> 0 <= Z.lor a b < 2 ^ n.
Proof.
  intros Hn [? Ha%lt_pow2_log2] [? Hb%lt_pow2_log2]; [|done..].
  assert (0 <= Z.lor a b) by (by apply Z.lor_nonneg). split; [done|].
  apply lt_pow2_log2; [done|done|]. rewrite Z.log2_lor by done. lia.
Qed.

Lemma lxor_bound n a b : 0 < n -> 0 <= a < 2 ^ n -> 0 <= b < 2 ^ n -> 0 <= Z.lxor a b < 2 ^ n.
Proof.
  intros Hn [? Ha%lt_pow2_log2] [? Hb%lt_pow2_log2]; [|done..].
  assert (0 <= Z.lxor a b) by (apply Z.lxor_nonneg; tauto). split; [done|].
  apply lt_pow2_log2; [done|done|]. pose proof (Z.log2_lxor a b). lia.
Qed.

(** Setting the low [n] bits of a number shifted left by [n] is an addition. *)
Lemma lor_shiftl_add a b n : 0 <= n -> 0 <= b < 2 ^ n -> Z.lor (Z.shiftl a n) b = a * 2 ^ n + b.
Proof.
  intros Hn Hb. rewrite Z.shiftl_mul_pow2 by done.
  assert (Z.land (a * 2 ^ n) b = 0) as Hd.
  { apply Z.bits_inj'; intros i Hi. rewrite Z.land_spec, Z.testbit_0_l.
    destruct (Z.lt_ge_cases i n); [by rewrite Z.mul_pow2_bits_low|].
    rewrite <- (Z.mod_small b (2 ^ n)), Z.mod_pow2_bits_high by lia. by rewrite andb_false_r. }
  rewrite <- Z.lxor_lor, <- Z.add_nocarry_lxor by done. done.
Qed.

Lemma land_ones_mod a n : 0 <= n -> Z.land a (Z.shiftl 1 n - 1) = a mod 2 ^ n.
Proof.
  intros Hn. rewrite Z.shiftl_1_l. replace (2 ^ n - 1) with (Z.ones n); [by apply Z.land_ones|].
  rewrite Z.ones_equiv. lia.
Qed.

Lemma js_or_small a b : 0 <= a < 2 ^ 31 -> 0 <= b < 2 ^ 31 -> js_or a b = Z.lor a b.
Proof.
  intros Ha Hb. unfold js_or. rewrite (to_int32_small a), (to_int32_small b) by done.
  by apply to_int32_small, lor_bound.
Qed.

(** Round-to-nearest-even of a non-negative integer to an IEEE double (53-bit significand). *)
Definition f64_round (n : Z) : Z :=
  if n <? 2 ^ 53 then n else
  let e := Z.log2 n - 52 in
  let q := Z.shiftr n e in
  let r := n mod 2 ^ e in
  let half := 2 ^ (e - 1) in
  let q' := if r <? half then q else if half <? r then q + 1
            else if Z.even q then q else q + 1 in
  Z.shiftl q' e.

Definition MAX_SAFE_INTEGER : Z := 2 ^ 53 - 1.

Definition is_safe_integer (n : Z) : bool :=
  (- MAX_SAFE_INTEGER <=? n) && (n <=? MAX_SAFE_INTEGER).

Lemma f64_round_small n : n < 2 ^ 53 -> f64_round n = n.
Proof. intros H. unfold f64_round. by rewrite (proj2 (Z.ltb_lt _ _)). Qed.

Lemma f64_round_nonneg n : 0 <= n -> 0 <= f64_round n.
Proof.
  intros H. unfold f64_round. case_match; [done|]. cbv zeta.
  apply Z.shiftl_nonneg. assert (0 <= Z.shiftr n (Z.log2 n - 52)) by (by apply Z.shiftr_nonneg).
  repeat case_match; lia.
Qed.

(** Rounding never brings a number from outside the safe range back into it. *)
Lemma f64_round_large n : 2 ^ 53 <= n -> 2 ^ 53 <= f64_round n.
Proof.
  intros H. unfold f64_round. rewrite (proj2 (Z.ltb_ge _ _)) by lia.
  set (e := Z.log2 n - 52).
  assert (53 <= Z.log2 n) as Hl by (apply Z.log2_le_pow2; lia).
  assert (2 ^ 52 * 2 ^ e <= n) as Hn.
  { rewrite <- Z.pow_add_r by lia. replace (52 + e) with (Z.log2 n) by lia.
    apply Z.log2_spec; lia. }
  assert (2 ^ 52 <= Z.shiftr n e) as Hq.
  { rewrite Z.shiftr_div_pow2 by lia. apply Z.div_le_lower_bound; lia. }
  assert (2 * 1 <= 2 ^ e) as He.
  { replace e with (1 + (e - 1)) by lia. rewrite Z.pow_add_r by lia.
    pose proof (Z.pow_pos_nonneg 2 (e - 1)). lia. }
  rewrite Z.shiftl_mul_pow2 by lia. cbv zeta.
  repeat case_match; nia.
Qed.

(** ** Results and stateful computations *)

(** What a call gives back: a value, or the value it throws. *)
Inductive result (E A : Type) : Type :=
| Ok (a : A)
| Throw (e : E).
Arguments Ok {E A} a.
Arguments Throw {E A} e.

#[export] Instance result_ret E : MRet (result E) := fun _ a => Ok a.
#[export] Instance result_bind E : MBind (result E) := fun _ _ f m =>
  match m with Ok a => f a | Throw e => Throw e end.

Lemma Ok_inj {E A} (a b : A) : @Ok E A a = Ok b -> a = b.
Proof. by intros [= ->]. Qed.

Definition is_ok {E A} (r : result E A) : bool :=
  match r with Ok _ => true | Throw _ => false end.

Lemma is_ok_ex {E A} (r : result E A) : is_ok r = true -> exists a, r = Ok a.
Proof. destruct r; [by eexists|done]. Qed.

Definition result_option {E A} (r : result E A) : option A :=
  match r with Ok a => Some a | Throw _ => None end.

(** A computation over a state [S] that may throw an [E]; a throw keeps the state changes made
    before it, as in the source. *)
Definition M (S E A : Type) : Type := S -> result E A * S.

#[export] Instance M_ret S E : MRet (M S E) := fun _ a s => (Ok a, s).
#[export] Instance M_bind S E : MBind (M S E) := fun _ _ f m s =>
  match m s with
  | (Ok a, s') => f a s'
  | (Throw e, s') => (Throw e, s')
  end.

Definition gets {S E A} (f : S -> A) : M S E A := fun s => (Ok (f s), s).
Definition modify {S E} (f : S -> S) : M S E unit := fun s => (Ok tt, f s).
Definition throw {S E A} (e : E) : M S E A := fun s => (Throw e, s).
Definition lift {S E A} (r : result E A) : M S E A := fun s => (r, s).

(** [try { m } catch (e) { h e }] *)
Definition catch {S E F A} (m : M S E A) (h : E -> M S F A) : M S F A := fun s =>
  match m s with
  | (Ok a, s') => (Ok a, s')
  | (Throw e, s') => h e s'
  end.

(** Run a computation and keep its outcome as a value. *)
Definition attempt {S E F A} (m : M S E A) : M S F (result E A) := fun s =>
  let '(r, s') := m s in (Ok r, s').

(** ** Record updates *)

(** [eta r] rebuilds a record from its projections; [set proj f r] changes one field. *)
Class Eta (R : Type) := eta : R -> R.
Class Setter {R E : Type} (proj : R -> E) := set_field : (E -> E) -> R -> R.
Arguments set_field {R E} proj {_} f r : simpl nomatch.

Ltac derive_setter proj :=
  let e := eval hnf in (eta (R := ltac:(match type of proj with ?R -> _ => exact R end))) in
  match eval pattern proj in e with
  | ?s _ => exact (fun f => s (fun r => f (proj r)))
  end.
#[export] Hint Extern 1 (Setter ?proj) => derive_setter proj : typeclass_instances.

Declare Scope record_scope.
Delimit Scope record_scope with rec.
Notation "r <| p := v |>" := (set_field p (fun _ => v) r)
  (at level 1, left associativity, p at level 8, v at level 200) : record_scope.
Notation "r <| p ::= f |>" := (set_field p f r)
  (at level 1, left associativity, p at level 8, f at level 200) : record_scope.
#[global] Open Scope record_scope.

(** ** Byte strings *)

Definition zeros (n : nat) : bytes := replicate n Byte.x00.

(** [buf[i]] where the code has established that the index is in range. *)
Definition byte_at (buf : bytes) (i : nat) : Z := b2z (default Byte.x00 (buf !! i)).

(** [buf.subarray(s, e)], as a value. *)
Definition subarray (s e : nat) (buf : bytes) : bytes := drop s (take e buf).

(** Big-endian value of a byte string, and the big-endian encoding on [n] bytes. *)
Fixpoint be_bytes (n : nat) (v : Z) : bytes :=
  match n with
  | O => []
  | S n => be_bytes n (v / 256) ++ [z2b v]
  end.

Definition be_value (bs : bytes) : Z := foldl (fun acc b => acc * 256 + b2z b) 0 bs.

Lemma be_value_snoc bs b : be_value (bs ++ [b]) = be_value bs * 256 + b2z b.
Proof. unfold be_value. by rewrite foldl_app. Qed.

Lemma length_be_bytes n v : length (be_bytes n v) = n.
Proof.
  revert v; induction n as [|n IH]; intros v; simpl; [done|].
  rewrite length_app, IH. simpl. lia.
Qed.

Lemma be_value_nonneg bs : 0 <= be_value bs.
Proof.
  induction bs as [|b bs IH] using rev_ind; [done|].
  rewrite be_value_snoc. pose proof (b2z_range b). lia.
Qed.

Lemma be_value_bound bs : be_value bs < 256 ^ Z.of_nat (length bs).
Proof.
  induction bs as [|b bs IH] using rev_ind; [done|].
  rewrite be_value_snoc, length_app. simpl length.
  rewrite Nat2Z.inj_add, Z.pow_add_r by lia. pose proof (b2z_range b). lia.
Qed.

Lemma be_value_be_bytes n v : 0 <= v -> be_value (be_bytes n v) = v mod 256 ^ Z.of_nat n.
Proof.
  revert v; induction n as [|n IH]; intros v Hv; simpl be_bytes.
  - simpl. by rewrite Z.mod_1_r.
  - rewrite be_value_snoc, IH, b2z_z2b by (apply Z.div_pos; lia).
    rewrite Nat2Z.inj_succ, Z.pow_succ_r by lia.
    rewrite Z.rem_mul_r by (try apply Z.pow_nonzero; lia). lia.
Qed.

Lemma be_bytes_be_value bs : be_bytes (length bs) (be_value bs) = bs.
Proof.
  induction bs as [|b bs IH] using rev_ind; [done|].
  rewrite length_app, Nat.add_comm. simpl. rewrite be_value_snoc.
  pose proof (b2z_range b).
  rewrite Z.div_add_l, (Z.div_small (b2z b)), Z.add_0_r, IH by lia.
  do 2 f_equal. rewrite <- z2b_mod, Z.add_comm, Z.mod_add, Z.mod_small by lia.
  apply z2b_b2z.
Qed.

Lemma be_value_inj bs1 bs2 :
  length bs1 = length bs2 -> be_value bs1 = be_value bs2 -> bs1 = bs2.
Proof.
  intros Hl Hv. by rewrite <- (be_bytes_be_value bs1), <- (be_bytes_be_value bs2), Hl, Hv.
Qed.

#[export] Hint Rewrite length_be_bytes : sframe.

(** ** Lists *)

Lemma take_app_exact {A} (l k : list A) n : n = length l -> take n (l ++ k) = l.
Proof. intros ->. by rewrite take_app_length. Qed.

Lemma drop_app_exact {A} (l k : list A) n : n = length l -> drop n (l ++ k) = k.
Proof. intros ->. by rewrite drop_app_length. Qed.

Lemma drop_suffix {A} (l k : list A) : drop (length (l ++ k) - length k) (l ++ k) = k.
Proof. apply drop_app_exact. rewrite length_app. lia. Qed.

Lemma app_inj_length {A} (a b c d : list A) :
  length a = length c -> a ++ b = c ++ d -> a = c /\ b = d.
Proof. apply app_inj_1. Qed.

Lemma NoDup_fmap_inj_in {A B} (f : A -> B) (l : list A) x y :
  NoDup (f <$> l) -> x ∈ l -> y ∈ l -> f x = f y -> x = y.
Proof.
  induction l as [|a l IH]; csimpl; [set_solver|]. intros [Ha Hnd]%NoDup_cons.
  intros [->|Hx]%elem_of_cons [->|Hy]%elem_of_cons E; [done| | |by apply IH].
  - destruct Ha. rewrite E. by apply list_elem_of_fmap_2.
  - destruct Ha. rewrite <- E. by apply list_elem_of_fmap_2.
Qed.

(** A list of [n] distinct integers of [0, n) enumerates all of [0, n). *)
Lemma NoDup_bounded_Permutation (l : list Z) :
  NoDup l -> (forall x, x ∈ l -> 0 <= x < Z.of_nat (length l)) ->
  l ≡ₚ seqZ 0 (Z.of_nat (length l)).
Proof.
  intros Hnd Hb.
  apply submseteq_length_Permutation; [|by rewrite length_seqZ; lia].
  apply NoDup_submseteq; [done|]. intros x Hx. apply elem_of_seqZ.
  specialize (Hb x Hx). lia.
Qed.

Lemma filter_ne_head `{EqDecision A} (x : A) l :
  x ∉ l -> filter (fun s => s <> x) (x :: l) = l.
Proof.
  intros Hx. rewrite filter_cons_False by naive_solver.
  induction l as [|y l IH]; [done|].
  rewrite filter_cons_True by set_solver. f_equal. apply IH. set_solver.
Qed.
