(* ===== verification/StateLogic.v ===== *)
(** * StateLogic: reasoning about stateful computations that may throw

    [keeps R m]: running [m] relates the state before to the state after by the preorder [R],
    whether it returns or throws. An invariant [I] is the preorder [I s -> I s']; an unchanged
    field [f] is [f s' = f s]. [returns m]: [m] never throws. The equations [bind_*] run a
    computation step by step. *)
From S2P Require Import Prelude.

Create HintDb keeps.

Definition keeps {S E A} (R : relation S) (m : M S E A) : Prop := forall s, R s (m s).2.

Section Keeps.
Context {S E : Type} (R : relation S) `{!PreOrder R}.

Lemma keeps_ret {A} (a : A) : keeps R (mret a : M S E A).
Proof. intros s. reflexivity. Qed.
Lemma keeps_gets {A} (f : S -> A) : keeps R (gets f : M S E A).
Proof. intros s. reflexivity. Qed.
Lemma keeps_throw {A} (e : E) : keeps R (throw e : M S E A).
Proof. intros s. reflexivity. Qed.
Lemma keeps_lift {A} (r : result E A) : keeps R (lift r : M S E A).
Proof. intros s. reflexivity. Qed.
Lemma keeps_modify (f : S -> S) : (forall s, R s (f s)) -> keeps R (modify f : M S E unit).
Proof. intros H s. apply H. Qed.

Lemma keeps_bind {A B} (m : M S E A) (k : A -> M S E B) :
  keeps R m -> (forall a, keeps R (k a)) -> keeps R (m ≫= k).
Proof.
  intros Hm Hk s. specialize (Hm s). unfold mbind, M_bind.
  destruct (m s) as [[a|e] s']; simpl in *; [|done]. transitivity s'; [done|apply Hk].
Qed.

Lemma keeps_catch {F A} (m : M S E A) (h : E -> M S F A) :
  keeps R m -> (forall e, keeps R (h e)) -> keeps R (catch m h).
Proof.
  intros Hm Hh s. specialize (Hm s). unfold catch.
  destruct (m s) as [[a|e] s']; simpl in *; [done|]. transitivity s'; [done|apply Hh].
Qed.

Lemma keeps_attempt {F A} (m : M S E A) : keeps R m -> keeps R (attempt m : M S F _).
Proof. intros Hm s. specialize (Hm s). unfold attempt. by destruct (m s). Qed.

End Keeps.

Lemma keeps_sub {S E A} (R1 R2 : relation S) (m : M S E A) :
  (forall s s', R1 s s' -> R2 s s') -> keeps R1 m -> keeps R2 m.
Proof. intros Hsub Hm s. apply Hsub, Hm. Qed.

(** A relation that only looks at a projection. *)
Definition same {S T} (f : S -> T) : relation S := fun s s' => f s' = f s.
#[export] Instance same_preorder {S T} (f : S -> T) : PreOrder (same f).
Proof. split; [done|]. intros s1 s2 s3 H1 H2. unfold same in *. congruence. Qed.

Definition preserved {S} (I : S -> Prop) : relation S := fun s s' => I s -> I s'.
#[export] Instance preserved_preorder {S} (I : S -> Prop) : PreOrder (preserved I).
Proof. split; [by intros s H|]. intros s1 s2 s3 H1 H2 H. auto. Qed.

(** Both at once. *)
Definition both {S} (R1 R2 : relation S) : relation S := fun s s' => R1 s s' /\ R2 s s'.
#[export] Instance both_preorder {S} (R1 R2 : relation S) `{!PreOrder R1, !PreOrder R2} :
  PreOrder (both R1 R2).
Proof.
  split; [split; reflexivity|]. intros s1 s2 s3 [? ?] [? ?]. split; etransitivity; eassumption.
Qed.

(** ** Computations that never throw *)

Definition returns {S E A} (m : M S E A) : Prop := forall s, is_ok (m s).1 = true.

Section Returns.
Context {S E : Type}.

Lemma returns_ret {A} (a : A) : returns (mret a : M S E A).
Proof. done. Qed.
Lemma returns_gets {A} (f : S -> A) : returns (gets f : M S E A).
Proof. done. Qed.
Lemma returns_modify (f : S -> S) : returns (modify f : M S E unit).
Proof. done. Qed.

Lemma returns_bind {A B} (m : M S E A) (k : A -> M S E B) :
  returns m -> (forall a, returns (k a)) -> returns (m ≫= k).
Proof.
  intros Hm Hk s. specialize (Hm s). unfold mbind, M_bind.
  destruct (m s) as [[a|e] s']; [apply Hk|done].
Qed.

Lemma returns_attempt {F A} (m : M S E A) : returns (attempt m : M S F _).
Proof. intros s. unfold attempt. by destruct (m s). Qed.

Lemma returns_catch {F A} (m : M S E A) (h : E -> M S F A) :
  (forall e, returns (h e)) -> returns (catch m h).
Proof. intros Hh s. unfold catch. destruct (m s) as [[a|e] s']; [done|apply Hh]. Qed.

(** A computation that returns, as an equation. *)
Lemma returns_run (m : M S E unit) s : returns m -> m s = (Ok tt, (m s).2).
Proof. intros Hm. specialize (Hm s). by destruct (m s) as [[[]|e] s']. Qed.

End Returns.

Create HintDb returns.

(** ** Running a computation *)

Section Run.
Context {S E : Type}.

Lemma bind_Ok {A B} (m : M S E A) (k : A -> M S E B) s a s' :
  m s = (Ok a, s') -> (m ≫= k) s = k a s'.
Proof. unfold mbind, M_bind. by intros ->. Qed.

Lemma bind_Throw {A B} (m : M S E A) (k : A -> M S E B) s e s' :
  m s = (Throw e, s') -> (m ≫= k) s = (Throw e, s').
Proof. unfold mbind, M_bind. by intros ->. Qed.

(** A bind that returns, from its end. *)
Lemma bind_inv {A B} (m : M S E A) (k : A -> M S E B) s b s' :
  (m ≫= k) s = (Ok b, s') -> exists a s1, m s = (Ok a, s1) /\ k a s1 = (Ok b, s').
Proof. unfold mbind, M_bind. destruct (m s) as [[a|e] s1] eqn:Em; [|done]. eauto. Qed.

Lemma bind_ext {A B} (m : M S E A) (k k' : A -> M S E B) s :
  (forall a s', k a s' = k' a s') -> (m ≫= k) s = (m ≫= k') s.
Proof. intros Hk. unfold mbind, M_bind. by destruct (m s) as [[a|e] s']. Qed.

Lemma bind_assoc {A B C} (m : M S E A) (k : A -> M S E B) (k' : B -> M S E C) s :
  ((m ≫= k) ≫= k') s = (m ≫= fun a => k a ≫= k') s.
Proof. unfold mbind, M_bind. by destruct (m s) as [[a|e] s']. Qed.

Lemma bind_modify {B} (f : S -> S) (k : unit -> M S E B) s : (modify f ≫= k) s = k tt (f s).
Proof. done. Qed.

Lemma bind_gets {A B} (f : S -> A) (k : A -> M S E B) s : (gets f ≫= k) s = k (f s) s.
Proof. done. Qed.

Lemma bind_lift {A B} (r : result E A) (k : A -> M S E B) s :
  (lift r ≫= k) s = match r with Ok a => k a s | Throw e => (Throw e, s) end.
Proof. by destruct r. Qed.

End Run.

(** The relation on the worlds of computations that also have local variables. *)
Definition on_world {L W} (R : relation W) : relation (L * W) := fun x y => R x.2 y.2.
#[export] Instance on_world_preorder {L W} (R : relation W) `{!PreOrder R} :
  PreOrder (@on_world L W R).
Proof.
  split; [intros [? ?]; unfold on_world; reflexivity|]. intros x y z. unfold on_world. etransitivity; eassumption.
Qed.

#[export] Hint Resolve keeps_ret keeps_gets keeps_throw keeps_lift : keeps.

(** Decompose a computation; the leaves are hints, or writes. *)
Ltac keeps_step :=
  lazymatch goal with
  | |- PreOrder _ => apply _
  | |- keeps _ (mbind _ _) => apply keeps_bind; [apply _| |intros ?]
  | |- keeps _ (catch _ _) => apply keeps_catch; [apply _| |intros ?]
  | |- keeps _ (attempt _) => apply keeps_attempt
  | |- keeps _ (let _ := _ in _) => cbv zeta
  | |- keeps _ (match ?x with _ => _ end) => destruct x
  | |- keeps _ (gets _) => apply keeps_gets; apply _
  | |- keeps _ (mret _) => apply keeps_ret; apply _
  | |- keeps _ (throw _) => apply keeps_throw; apply _
  | |- keeps _ (lift _) => apply keeps_lift; apply _
  end.

Ltac keeps_auto := repeat (first [keeps_step | solve [eauto with keeps typeclass_instances]]).

Ltac returns_step :=
  lazymatch goal with
  | |- returns (mbind _ _) => apply returns_bind; [|intros ?]
  | |- returns (catch _ _) => apply returns_catch; intros ?
  | |- returns (attempt _) => apply returns_attempt
  | |- returns (let _ := _ in _) => cbv zeta
  | |- returns (match ?x with _ => _ end) => destruct x
  | |- returns (gets _) => apply returns_gets
  | |- returns (modify _) => apply returns_modify
  | |- returns (mret _) => apply returns_ret
  end.

Ltac returns_auto := repeat first [returns_step | solve [eauto with returns]].

(** ** Computations over a part of the state *)

(** Run [m] on the part of the state that [get] selects and [put] writes back. *)
Definition zoom {S T E A} (get : S -> T) (put : T -> S -> S) (m : M T E A) : M S E A := fun s =>
  let '(r, t) := m (get s) in (r, put t s).

Lemma zoom_run {S T E A} (get : S -> T) (put : T -> S -> S) (m : M T E A) s r t :
  m (get s) = (r, t) -> zoom get put m s = (r, put t s).
Proof. unfold zoom. by intros ->. Qed.

(** What the write-back does not touch is kept. *)
Lemma keeps_zoom {S T E A U} (f : S -> U) (get : S -> T) (put : T -> S -> S) (m : M T E A) :
  (forall t s, f (put t s) = f s) -> keeps (same f) (zoom get put m).
Proof. intros Hp s. unfold zoom, same. destruct (m (get s)). apply Hp. Qed.

Lemma returns_zoom {S T E A} (get : S -> T) (put : T -> S -> S) (m : M T E A) :
  returns m -> returns (zoom get put m).
Proof. intros Hm s. specialize (Hm (get s)). unfold zoom. by destruct (m (get s)). Qed.

Lemma zoom_bind {S T E A B} (get : S -> T) (put : T -> S -> S) (m : M T E A) (k : A -> M T E B) s :
  (forall t s, get (put t s) = t) -> (forall t t' s, put t (put t' s) = put t s) ->
  zoom get put (m ≫= k) s = (zoom get put m ≫= fun a => zoom get put (k a)) s.
Proof.
  intros Hgp Hpp. unfold mbind, M_bind, zoom. destruct (m (get s)) as [[a|e] t]; [|done].
  rewrite Hgp. destruct (k a t) as [r t']. by rewrite Hpp.
Qed.
