(* ===== verification/Async.v ===== *)
(** * Async: computations that await

    A [Run] is what an async function has left to do: it has finished, or it waits and will go on in
    one uninterrupted piece up to its next wait. [P S E A] runs its first piece at once. Between two
    pieces the state may be changed by others; [alone] is the run in which nobody does. *)
From S2P Require Import Prelude StateLogic.

Section Run.
Context {S E : Type}.

(** A wait goes on only in a state that is [ready]. *)
Inductive Run (A : Type) : Type :=
| Finished (r : result E A)
| Waiting (ready : S -> bool) (k : S -> Run A * S).

End Run.

Arguments Run : clear implicits.
Arguments Finished {S E A} _.
Arguments Waiting {S E A} _ _.

Definition run_ind {S E A} (T : Run S E A -> Prop) (Hf : forall r, T (Finished r))
    (Hw : forall ready c, (forall s, T (c s).1) -> T (Waiting ready c)) : forall x, T x :=
  fix go x := match x with Finished r => Hf r | Waiting ready c => Hw ready c (fun s => go (c s).1) end.

Definition P (S E A : Type) : Type := S -> Run S E A * S.

Section Programs.
Context {S E : Type}.

(** One uninterrupted piece. *)
Definition piece {A} (m : M S E A) : P S E A := fun s => let '(r, s) := m s in (Finished r, s).

Fixpoint run_bind {A B} (x : Run S E A) (k : A -> P S E B) (s : S) {struct x} : Run S E B * S :=
  match x with
  | Finished (Ok a) => k a s
  | Finished (Throw e) => (Finished (Throw e), s)
  | Waiting ready c => (Waiting ready (fun s => let '(x, s) := c s in run_bind x k s), s)
  end.

#[export] Instance P_ret : MRet (P S E) := fun A a s => (Finished (Ok a), s).
#[export] Instance P_bind : MBind (P S E) := fun A B k m s => let '(x, s) := m s in run_bind x k s.

(** Wait until [ready], then read. *)
Definition wait_for {A} (ready : S -> bool) (m : M S E A) : P S E A :=
  fun s => (Waiting ready (piece m), s).

(** Wait for something that takes a while. *)
Definition pause : P S E unit := wait_for (fun _ => true) (mret tt).

(** [try]: how the computation settles. *)
Fixpoint run_attempt {F A} (x : Run S E A) : Run S F (result E A) :=
  match x with
  | Finished r => Finished (Ok r)
  | Waiting ready c => Waiting ready (fun s => let '(x, s) := c s in (run_attempt x, s))
  end.
Definition attemptP {F A} (m : P S E A) : P S F (result E A) :=
  fun s => let '(x, s) := m s in (run_attempt x, s).

(** [try ... catch] *)
Definition catchP {A} (m : P S E A) (h : E -> P S E A) : P S E A :=
  r ← attemptP m;
  match r with Ok a => mret a | Throw e => h e end.

(** To the end, with nobody in between. *)
Fixpoint finish {A} (x : Run S E A) (s : S) : result E A * S :=
  match x with
  | Finished r => (r, s)
  | Waiting _ c => let '(x, s) := c s in finish x s
  end.
Definition alone {A} (m : P S E A) : M S E A := fun s => let '(x, s) := m s in finish x s.

(** ** Lemmas: alone *)

Lemma alone_piece {A} (m : M S E A) s : alone (piece m) s = m s.
Proof. unfold alone, piece. by destruct (m s). Qed.

Lemma finish_bind {A B} (x : Run S E A) (k : A -> P S E B) s :
  (let '(y, s') := run_bind x k s in finish y s') =
  match finish x s with (Ok a, s') => alone (k a) s' | (Throw e, s') => (Throw e, s') end.
Proof.
  revert s. induction x as [[a|e]|ready c IH] using run_ind; intros s; [done|done|]. cbn [run_bind finish].
  destruct (c s) as [x' s'] eqn:E'. specialize (IH s). rewrite E' in IH. exact (IH s').
Qed.

Lemma alone_bind {A B} (m : P S E A) (k : A -> P S E B) s :
  alone (m ≫= k) s = (alone m ≫= fun a => alone (k a)) s.
Proof.
  unfold alone at 1, mbind, P_bind, M_bind. unfold alone at 1. destruct (m s) as [x s'].
  rewrite finish_bind. by destruct (finish x s') as [[a|e] s''].
Qed.

Lemma alone_wait {A} ready (m : M S E A) s : alone (wait_for ready m) s = m s.
Proof. unfold alone, wait_for. cbn. unfold piece. by destruct (m s). Qed.

Lemma alone_pause s : alone pause s = (Ok tt, s).
Proof. done. Qed.

End Programs.

Lemma finish_attempt {S E F A} (x : Run S E A) s :
  finish (run_attempt x : Run S F _) s = let '(r, s) := finish x s in (Ok r, s).
Proof.
  revert s. induction x as [r|ready c IH] using run_ind; intros s; [done|]. cbn [run_attempt finish].
  destruct (c s) as [x' s'] eqn:E'. specialize (IH s). rewrite E' in IH. exact (IH s').
Qed.

Lemma alone_attempt {S E F A} (m : P S E A) s : alone (attemptP m : P S F _) s = attempt (alone m) s.
Proof.
  unfold alone, attemptP, attempt. destruct (m s) as [x s']. rewrite finish_attempt.
  by destruct (finish x s').
Qed.

Lemma alone_catch {S E A} (m : P S E A) (h : E -> P S E A) s :
  alone (catchP m h) s = catch (alone m) (fun e => alone (h e)) s.
Proof.
  unfold catchP. rewrite alone_bind. unfold mbind, M_bind. rewrite alone_attempt. unfold attempt, catch.
  by destruct (alone m s) as [[a|e] s'].
Qed.

(** ** What every piece of a computation keeps *)

Section Pieces.
Context {S E : Type} (R : relation S) `{!PreOrder R}.

Fixpoint rest_keeps {A} (x : Run S E A) : Prop :=
  match x with
  | Finished _ => True
  | Waiting ready c => forall s, R s (c s).2 /\ rest_keeps (c s).1
  end.

Definition keepsP {A} (m : P S E A) : Prop := forall s, R s (m s).2 /\ rest_keeps (m s).1.

Lemma keepsP_piece {A} (m : M S E A) : keeps R m -> keepsP (piece m).
Proof. intros Hm s. specialize (Hm s). unfold piece. by destruct (m s). Qed.

Lemma keepsP_ret {A} (a : A) : keepsP (mret a).
Proof. intros s. split; [reflexivity|done]. Qed.

Lemma rest_keeps_bind {A B} (x : Run S E A) (k : A -> P S E B) s :
  rest_keeps x -> (forall a, keepsP (k a)) -> R s (run_bind x k s).2 /\ rest_keeps (run_bind x k s).1.
Proof.
  intros Hx Hk. revert s Hx. induction x as [[a|e]|ready c IH] using run_ind; intros s Hx; cbn [run_bind].
  - apply Hk.
  - split; [reflexivity|done].
  - split; [reflexivity|]. intros s'. destruct (Hx s') as [H1 H2]. specialize (IH s').
    destruct (c s') as [x' s2]. destruct (IH s2 H2) as [H3 H4]. split; [by transitivity s2|done].
Qed.

Lemma keepsP_bind {A B} (m : P S E A) (k : A -> P S E B) :
  keepsP m -> (forall a, keepsP (k a)) -> keepsP (m ≫= k).
Proof.
  intros Hm Hk s. unfold mbind, P_bind. destruct (Hm s) as [H1 H2]. destruct (m s) as [x s1].
  destruct (rest_keeps_bind x k s1 H2 Hk) as [H3 H4]. split; [by transitivity s1|done].
Qed.

Lemma keepsP_wait {A} ready (m : M S E A) : keeps R m -> keepsP (wait_for ready m).
Proof. intros Hm s. split; [reflexivity|]. intros s'. by apply keepsP_piece. Qed.

Lemma keepsP_pause : keepsP pause.
Proof. apply keepsP_wait, keeps_ret, _. Qed.

End Pieces.

Lemma rest_keeps_attempt {S E F A} (R : relation S) (x : Run S E A) :
  rest_keeps R x -> rest_keeps R (run_attempt x : Run S F _).
Proof.
  induction x as [r|ready c IH] using run_ind; [done|]. intros Hx s. cbn [run_attempt]. destruct (Hx s) as [H1 H2].
  specialize (IH s). destruct (c s) as [x' s']. split; [done|by apply IH].
Qed.

Lemma keepsP_attempt {S E F A} (R : relation S) (m : P S E A) : keepsP R m -> keepsP R (attemptP m : P S F _).
Proof.
  intros Hm s. destruct (Hm s) as [H1 H2]. unfold attemptP. destruct (m s) as [x s'].
  split; [done|by apply rest_keeps_attempt].
Qed.

Lemma keepsP_catch {S E A} (R : relation S) `{!PreOrder R} (m : P S E A) (h : E -> P S E A) :
  keepsP R m -> (forall e, keepsP R (h e)) -> keepsP R (catchP m h).
Proof.
  intros Hm Hh. apply keepsP_bind; [apply _|by apply keepsP_attempt|]. intros [a|e]; [by apply keepsP_ret|done].
Qed.

(** Decompose a computation into its pieces; the leaves are hints. *)
Create HintDb pieces.

Ltac pieces_step :=
  lazymatch goal with
  | |- keepsP _ (mbind _ _) => apply keepsP_bind; [apply _| |intros ?]
  | |- keepsP _ (catchP _ _) => apply keepsP_catch; [apply _| |intros ?]
  | |- keepsP _ (attemptP _) => apply keepsP_attempt
  | |- keepsP _ (let _ := _ in _) => cbv zeta
  | |- keepsP _ (match ?x with _ => _ end) => destruct x
  | |- keepsP _ (mret _) => apply keepsP_ret; apply _
  | |- keepsP _ pause => apply keepsP_pause; apply _
  | |- keepsP _ (wait_for _ _) => apply keepsP_wait; [apply _|]
  end.
Ltac pieces_auto := repeat (first [pieces_step | solve [eauto with pieces typeclass_instances]]).

(** ** Hoare logic, while others keep an invariant *)

Section Hoare.
Context {S E : Type} (I : S -> Prop).

(** What is left after a piece that ended in [s]: it has finished within [Q], or it waits with [I]
    and every later piece that starts in [I] is as good. *)
Fixpoint run_post {A} (Q : result E A -> S -> Prop) (x : Run S E A) (s : S) : Prop :=
  match x with
  | Finished r => Q r s
  | Waiting ready c => I s /\ forall s', ready s' = true -> I s' -> run_post Q (c s').1 (c s').2
  end.

Definition hoare {A} (pre : S -> Prop) (Q : result E A -> S -> Prop) (m : P S E A) : Prop :=
  forall s, pre s -> run_post Q (m s).1 (m s).2.

Lemma run_post_weaken {A} (Q Q' : result E A -> S -> Prop) x s :
  (forall r s, Q r s -> Q' r s) -> run_post Q x s -> run_post Q' x s.
Proof.
  intros HQ. revert s. induction x as [r|ready c IH] using run_ind; intros s; [apply HQ|]. cbn [run_post].
  intros [Hs Hc]. split; [done|]. intros s' Hr Hs'. apply IH. by apply Hc.
Qed.

Lemma hoare_weaken {A} (pre pre' : S -> Prop) (Q Q' : result E A -> S -> Prop) m :
  (forall s, pre s -> pre' s) -> (forall r s, Q r s -> Q' r s) -> hoare pre' Q m -> hoare pre Q' m.
Proof. intros Hpre HQ Hm s Hs. eapply run_post_weaken; [exact HQ|]. by apply Hm, Hpre. Qed.

Lemma hoare_piece {A} pre (Q : result E A -> S -> Prop) (m : M S E A) :
  (forall s, pre s -> Q (m s).1 (m s).2) -> hoare pre Q (piece m).
Proof. intros Hm s Hs. specialize (Hm s Hs). unfold piece. by destruct (m s). Qed.

Lemma hoare_ret {A} (pre : S -> Prop) (Q : result E A -> S -> Prop) a :
  (forall s, pre s -> Q (Ok a) s) -> hoare pre Q (mret a).
Proof. intros HQ s Hs. by apply HQ. Qed.

Lemma run_post_bind {A B} (Q : A -> S -> Prop) (Q' : result E B -> S -> Prop) x (k : A -> P S E B) s :
  run_post (fun r s => match r with Ok a => Q a s | Throw e => Q' (Throw e) s end) x s ->
  (forall a, hoare (Q a) Q' (k a)) -> run_post Q' (run_bind x k s).1 (run_bind x k s).2.
Proof.
  intros Hx Hk. revert s Hx. induction x as [[a|e]|ready c IH] using run_ind; intros s Hx; cbn [run_bind run_post] in *.
  - by apply Hk.
  - exact Hx.
  - destruct Hx as [Hs Hx]. split; [done|]. intros s' Hr Hs'. specialize (Hx s' Hr Hs'). specialize (IH s').
    destruct (c s') as [x' s2]. by apply IH.
Qed.

Lemma hoare_bind {A B} (pre : S -> Prop) (Q : A -> S -> Prop) (Q' : result E B -> S -> Prop) (m : P S E A)
    (k : A -> P S E B) :
  hoare pre (fun r s => match r with Ok a => Q a s | Throw e => Q' (Throw e) s end) m ->
  (forall a, hoare (Q a) Q' (k a)) -> hoare pre Q' (m ≫= k).
Proof.
  intros Hm Hk s Hs. unfold mbind, P_bind. specialize (Hm s Hs). destruct (m s) as [x s1].
  by apply (run_post_bind Q).
Qed.

Lemma hoare_wait {A} pre (Q : result E A -> S -> Prop) ready (m : M S E A) :
  (forall s, pre s -> I s) -> (forall s, ready s = true -> I s -> Q (m s).1 (m s).2) ->
  hoare pre Q (wait_for ready m).
Proof.
  intros Hpre Hm s Hs. split; [by apply Hpre|]. intros s' Hr Hs'. specialize (Hm s' Hr Hs'). unfold piece. by destruct (m s').
Qed.

Lemma hoare_pause (pre : S -> Prop) (Q : result E unit -> S -> Prop) :
  (forall s, pre s -> I s) -> (forall s, I s -> Q (Ok tt) s) -> hoare pre Q pause.
Proof. intros Hpre HQ. apply hoare_wait; [done|]. intros s _. apply HQ. Qed.

(** A program whose every piece keeps [I]. *)
Lemma run_post_keeps {A} (R : relation S) (x : Run S E A) s :
  (forall s s', R s s' -> I s -> I s') -> I s -> rest_keeps R x -> run_post (fun _ => I) x s.
Proof.
  intros HR. revert s. induction x as [r|ready c IH] using run_ind; intros s Hs Hx; [done|].
  split; [done|]. intros s' _ Hs'. destruct (Hx s') as [H1 H2]. apply IH; [by eapply HR|done].
Qed.

Lemma hoare_keeps {A} (R : relation S) (m : P S E A) :
  (forall s s', R s s' -> I s -> I s') -> keepsP R m -> hoare I (fun _ => I) m.
Proof. intros HR Hm s Hs. destruct (Hm s) as [H1 H2]. apply (run_post_keeps R); [done|by eapply HR|done]. Qed.

End Hoare.

Lemma run_post_attempt {S E F A} (I : S -> Prop) (Q : result E A -> S -> Prop) (x : Run S E A) s :
  run_post I Q x s ->
  run_post I (fun (r : result F _) s => match r with Ok r => Q r s | Throw _ => False end) (run_attempt x) s.
Proof.
  revert s. induction x as [r|ready c IH] using run_ind; intros s; [done|]. cbn [run_post run_attempt].
  intros [Hs Hx]. split; [done|]. intros s' Hr Hs'. specialize (Hx s' Hr Hs'). specialize (IH s').
  destruct (c s') as [x' s2]. by apply IH.
Qed.

Lemma hoare_attempt {S E F A} (I pre : S -> Prop) (Q : result E A -> S -> Prop) (m : P S E A) :
  hoare I pre Q m ->
  hoare I pre (fun (r : result F _) s => match r with Ok r => Q r s | Throw _ => False end) (attemptP m).
Proof.
  intros Hm s Hs. specialize (Hm s Hs). unfold attemptP. destruct (m s) as [x s']. by apply run_post_attempt.
Qed.

Lemma hoare_catch {S E A} (I pre : S -> Prop) (Q : result E A -> S -> Prop) (m : P S E A) (h : E -> P S E A) :
  hoare I pre (fun r s => match r with Ok _ => Q r s | Throw e => run_post I Q (h e s).1 (h e s).2 end) m ->
  hoare I pre Q (catchP m h).
Proof.
  intros Hm. unfold catchP.
  eapply (hoare_bind _ _ (fun r s => match r with Ok a => Q (Ok a) s | Throw e => run_post I Q (h e s).1 (h e s).2 end)).
  - eapply hoare_weaken; [done| |by eapply hoare_attempt]. by intros [[a|e]|e] s.
  - by intros [a|e] s Hs.
Qed.
