(* ===== verification/Rely.v ===== *)
(** * Rely: computations that await while others write

    [keepsP] and [hoare] of [Async] know of the others only an invariant. Here the others are bounded
    by a relation [Rl], the rely, and every piece of the computation itself by another, the guarantee
    [G]: what a call owns, nobody else writes. *)
From S2P Require Import Prelude StateLogic Async.

Section Rely.
Context {S E : Type} (Rl G : relation S) `{!PreOrder G}.

(** What is left of a computation that last wrote the state [s]. *)
Fixpoint rest_rg {A} (Q : result E A -> S -> Prop) (x : Run S E A) (s : S) : Prop :=
  match x with
  | Finished r => Q r s
  | Waiting ready c =>
      forall s', Rl s s' -> ready s' = true -> G s' (c s').2 /\ rest_rg Q (c s').1 (c s').2
  end.

Definition rg {A} (pre : S -> Prop) (Q : result E A -> S -> Prop) (m : P S E A) : Prop :=
  forall s, pre s -> G s (m s).2 /\ rest_rg Q (m s).1 (m s).2.

(** Others may write between two pieces. *)
Lemma rest_rg_stable {A} (Q : result E A -> S -> Prop) x s s' :
  Transitive Rl -> (forall r s s', Rl s s' -> Q r s -> Q r s') -> Rl s s' -> rest_rg Q x s -> rest_rg Q x s'.
Proof.
  intros Ht HQ Hs Hx. destruct x as [r|ready c]; [by eapply HQ|]. cbn [rest_rg] in *. intros s2 Hs2 Hr.
  apply Hx; [by etransitivity|done].
Qed.

Lemma rest_rg_weaken {A} (Q Q' : result E A -> S -> Prop) x s :
  (forall r s, Q r s -> Q' r s) -> rest_rg Q x s -> rest_rg Q' x s.
Proof.
  intros HQ. revert s. induction x as [r|ready c IH] using run_ind; intros s; [apply HQ|]. cbn [rest_rg].
  intros Hx s' Hs' Hr. destruct (Hx s' Hs' Hr). split; [done|by apply IH].
Qed.

Lemma rg_weaken {A} (pre pre' : S -> Prop) (Q Q' : result E A -> S -> Prop) m :
  (forall s, pre s -> pre' s) -> (forall r s, Q r s -> Q' r s) -> rg pre' Q m -> rg pre Q' m.
Proof.
  intros Hpre HQ Hm s Hs. destruct (Hm s (Hpre s Hs)). split; [done|by eapply rest_rg_weaken].
Qed.

Lemma rg_ret {A} (pre : S -> Prop) (Q : result E A -> S -> Prop) a :
  (forall s, pre s -> Q (Ok a) s) -> rg pre Q (mret a).
Proof. intros HQ s Hs. split; [reflexivity|by apply HQ]. Qed.

Lemma rg_piece {A} (pre : S -> Prop) (Q : result E A -> S -> Prop) (m : M S E A) :
  (forall s, pre s -> G s (m s).2 /\ Q (m s).1 (m s).2) -> rg pre Q (piece m).
Proof. intros Hm s Hs. specialize (Hm s Hs). unfold piece. by destruct (m s). Qed.

Lemma rg_gets {A} (pre : S -> Prop) (Q : result E A -> S -> Prop) (f : S -> A) :
  (forall s, pre s -> Q (Ok (f s)) s) -> rg pre Q (piece (gets f)).
Proof. intros HQ. apply rg_piece. intros s Hs. split; [reflexivity|by apply HQ]. Qed.

Lemma rg_wait {A} (pre : S -> Prop) (Q : result E A -> S -> Prop) ready (m : M S E A) :
  (forall s s', pre s -> Rl s s' -> ready s' = true -> G s' (m s').2 /\ Q (m s').1 (m s').2) ->
  rg pre Q (wait_for ready m).
Proof.
  intros Hm s Hs. split; [reflexivity|]. intros s' Hs' Hr. specialize (Hm s s' Hs Hs' Hr). cbn [wait_for fst].
  unfold piece. by destruct (m s').
Qed.

Lemma rg_pause (pre : S -> Prop) (Q : result E unit -> S -> Prop) :
  (forall s s', pre s -> Rl s s' -> Q (Ok tt) s') -> rg pre Q pause.
Proof. intros HQ. apply rg_wait. intros s s' Hs Hs' _. split; [reflexivity|by eapply HQ]. Qed.

Lemma rest_rg_bind {A B} (Q : A -> S -> Prop) (Q' : result E B -> S -> Prop) x (k : A -> P S E B) s :
  rest_rg (fun r s => match r with Ok a => Q a s | Throw e => Q' (Throw e) s end) x s ->
  (forall a, rg (Q a) Q' (k a)) -> G s (run_bind x k s).2 /\ rest_rg Q' (run_bind x k s).1 (run_bind x k s).2.
Proof.
  intros Hx Hk. revert s Hx. induction x as [[a|e]|ready c IH] using run_ind; intros s Hx; cbn [run_bind rest_rg] in *.
  - by apply Hk.
  - split; [reflexivity|exact Hx].
  - split; [reflexivity|]. intros s' Hs' Hr. destruct (Hx s' Hs' Hr) as [H1 H2]. specialize (IH s').
    destruct (c s') as [x' s2]. destruct (IH s2 H2) as [H3 H4]. split; [by transitivity s2|done].
Qed.

Lemma rg_bind {A B} (pre : S -> Prop) (Q : A -> S -> Prop) (Q' : result E B -> S -> Prop) (m : P S E A)
    (k : A -> P S E B) :
  rg pre (fun r s => match r with Ok a => Q a s | Throw e => Q' (Throw e) s end) m ->
  (forall a, rg (Q a) Q' (k a)) -> rg pre Q' (m ≫= k).
Proof.
  intros Hm Hk s Hs. unfold mbind, P_bind. destruct (Hm s Hs) as [H1 H2]. destruct (m s) as [x s1].
  destruct (rest_rg_bind Q Q' x k s1 H2 Hk) as [H3 H4]. split; [by transitivity s1|done].
Qed.

(** A computation whose result is of no interest. *)
Lemma rg_seq {A B} (pre mid : S -> Prop) (Q' : result E B -> S -> Prop) (m : P S E A) (k : A -> P S E B) :
  (forall e s, mid s -> Q' (Throw e) s) -> rg pre (fun _ => mid) m -> (forall a, rg mid Q' (k a)) -> rg pre Q' (m ≫= k).
Proof.
  intros He Hm Hk. apply (rg_bind _ (fun _ => mid)); [|done]. eapply rg_weaken; [done| |exact Hm].
  intros [a|e] s Hs; [done|by apply He].
Qed.

(** A computation that only keeps the guarantee. *)
Lemma rg_keeps {A} (pre : S -> Prop) (m : P S E A) :
  (forall s s', pre s -> G s s' -> pre s') -> (forall s s', pre s -> Rl s s' -> pre s') ->
  keepsP G m -> rg pre (fun _ => pre) m.
Proof.
  intros HG HR Hm s Hs. destruct (Hm s) as [H1 H2]. split; [done|]. assert (pre (m s).2) as Hs1 by eauto.
  clear Hm H1 Hs. destruct (m s) as [x s1]. cbn [fst snd] in *. revert s1 Hs1.
  induction x as [r|ready c IH] using run_ind; intros s1 Hs1; [done|]. cbn [rest_rg rest_keeps] in *. intros s2 Hs2 _.
  destruct (H2 s2) as [H3 H4]. split; [done|]. apply IH; [done|]. eauto.
Qed.

End Rely.

(** A weaker rely, and two triples of the same computation at once. *)
Section Both.
Context {S E : Type}.

Lemma rest_rg_mono {A} (R1 R2 G1 G2 : relation S) (Q : result E A -> S -> Prop) x s :
  (forall s s', R2 s s' -> R1 s s') -> (forall s s', G1 s s' -> G2 s s') ->
  rest_rg R1 G1 Q x s -> rest_rg R2 G2 Q x s.
Proof.
  intros HR HG. revert s. induction x as [r|ready c IH] using run_ind; intros s; [done|]. cbn [rest_rg].
  intros Hx s' Hs' Hr. destruct (Hx s' (HR _ _ Hs') Hr). split; [by apply HG|by apply IH].
Qed.

Lemma rg_mono {A} (R1 R2 G1 G2 : relation S) (pre : S -> Prop) (Q : result E A -> S -> Prop) m :
  (forall s s', R2 s s' -> R1 s s') -> (forall s s', G1 s s' -> G2 s s') ->
  rg R1 G1 pre Q m -> rg R2 G2 pre Q m.
Proof. intros HR HG Hm s Hs. destruct (Hm s Hs). split; [by apply HG|by eapply rest_rg_mono]. Qed.

Lemma rest_rg_and {A} (R G1 G2 : relation S) (Q1 Q2 : result E A -> S -> Prop) x s :
  rest_rg R G1 Q1 x s -> rest_rg R G2 Q2 x s -> rest_rg R G2 (fun r s => Q1 r s /\ Q2 r s) x s.
Proof.
  revert s. induction x as [r|ready c IH] using run_ind; intros s; [done|]. cbn [rest_rg].
  intros H1 H2 s' Hs' Hr. destruct (H1 s' Hs' Hr), (H2 s' Hs' Hr). split; [done|by apply IH].
Qed.

Lemma rg_and {A} (R1 R2 G1 G2 : relation S) (pre1 pre2 : S -> Prop) (Q1 Q2 : result E A -> S -> Prop) m :
  (forall s s', R2 s s' -> R1 s s') ->
  rg R1 G1 pre1 Q1 m -> rg R2 G2 pre2 Q2 m -> rg R2 G2 (fun s => pre1 s /\ pre2 s) (fun r s => Q1 r s /\ Q2 r s) m.
Proof.
  intros HR H1 H2 s [Hs1 Hs2]. destruct (H1 s Hs1) as [_ H1']. destruct (H2 s Hs2) as [HG H2'].
  split; [done|]. apply (rest_rg_and R2 G1 G2); [|done]. by eapply rest_rg_mono; [exact HR| |exact H1'].
Qed.

End Both.

Section Attempt.
Context {S E : Type} (Rl G : relation S) `{!PreOrder G}.

Lemma rest_rg_attempt {F A} (Q : result E A -> S -> Prop) (x : Run S E A) s :
  rest_rg Rl G Q x s ->
  rest_rg Rl G (fun (r : result F _) s => match r with Ok r => Q r s | Throw _ => False end) (run_attempt x) s.
Proof.
  revert s. induction x as [r|ready c IH] using run_ind; intros s; [done|]. cbn [rest_rg run_attempt].
  intros Hx s' Hs' Hr. destruct (Hx s' Hs' Hr) as [H1 H2]. specialize (IH s'). destruct (c s') as [x' s2].
  split; [done|by apply IH].
Qed.

Lemma rg_attempt {F A} (pre : S -> Prop) (Q : result E A -> S -> Prop) (m : P S E A) :
  rg Rl G pre Q m ->
  rg Rl G pre (fun (r : result F _) s => match r with Ok r => Q r s | Throw _ => False end) (attemptP m).
Proof.
  intros Hm s Hs. destruct (Hm s Hs) as [H1 H2]. unfold attemptP. destruct (m s) as [x s'].
  split; [done|by apply rest_rg_attempt].
Qed.

Lemma rg_catch {A} (pre : S -> Prop) (Q : result E A -> S -> Prop) (thrown : E -> S -> Prop) (m : P S E A) (h : E -> P S E A) :
  rg Rl G pre (fun r s => match r with Ok _ => Q r s | Throw e => thrown e s end) m ->
  (forall e, rg Rl G (thrown e) Q (h e)) -> rg Rl G pre Q (catchP m h).
Proof.
  intros Hm Hh. unfold catchP.
  apply (rg_bind _ _ _ (fun r s => match r with Ok a => Q (Ok a) s | Throw e => thrown e s end)).
  - eapply rg_weaken; [done| |by eapply rg_attempt]. by intros [[a|e]|e] s.
  - intros [a|e]; [by apply rg_ret|apply Hh].
Qed.

End Attempt.
