(* ===== verification/Keys.v ===== *)
(** * Keys: composite string keys

    The code keys its maps by strings that join numbers with a separator, such as
    [`${epoch}:${peerIndex}`]. A decimal numeral holds no separator, so these keys are injective. *)
From S2P Require Import Prelude.
From Stdlib Require Import Ascii.

(** The character [c] does not occur in [s]. *)
Fixpoint free_of (c : ascii) (s : string) : Prop :=
  match s with
  | EmptyString => True
  | String a s => a <> c /\ free_of c s
  end.

(** Not a digit, not the minus sign. *)
Definition is_separator (c : ascii) : Prop :=
  c <> "-"%char /\ forall n, pretty_N_char n <> c.

Lemma colon_separator : is_separator ":".
Proof. split; [done|]. intros n. unfold pretty_N_char. repeat case_match; done. Qed.

Lemma bar_separator : is_separator "|".
Proof. split; [done|]. intros n. unfold pretty_N_char. repeat case_match; done. Qed.

Lemma pretty_N_go_free c x s : is_separator c -> free_of c s -> free_of c (pretty_N_go x s).
Proof.
  intros [_ Hc]. revert s. induction (N.lt_wf_0 x) as [x _ IH]; intros s Hs.
  destruct (decide (x = 0)%N) as [->|]; [done|].
  rewrite pretty_N_go_step by lia. apply IH; [apply N.div_lt; lia|]. split; [apply Hc|done].
Qed.

Lemma pretty_N_free c (n : N) : is_separator c -> free_of c (pretty n).
Proof.
  intros Hc. unfold pretty, pretty_N. case_decide.
  - split; [apply (proj2 Hc 0%N)|done].
  - by apply pretty_N_go_free.
Qed.

Lemma pretty_Z_free c (z : Z) : is_separator c -> free_of c (pretty z).
Proof.
  intros Hc. unfold pretty, pretty_Z. destruct z; [split; [apply (proj2 Hc 0%N)|done]| |].
  - by apply pretty_N_free.
  - split; [intros E; by apply (proj1 Hc)|]. by apply pretty_N_free.
Qed.

(** A separator splits a string in one way. *)
Lemma sep_inj c a b x y :
  free_of c a -> free_of c b -> a +:+ String c x = b +:+ String c y -> a = b /\ x = y.
Proof.
  revert b. induction a as [|a0 a IH]; intros [|b0 b] Ha Hb E; simpl in *.
  - by injection E.
  - injection E as -> _. by destruct Hb.
  - injection E as -> _. by destruct Ha.
  - injection E as -> E. destruct (IH b (proj2 Ha) (proj2 Hb) E) as [-> ->]. done.
Qed.

(** Two numbers joined by a separator. *)
Lemma join_inj c (a b a' b' : Z) :
  is_separator c ->
  pretty a +:+ String c (pretty b) = pretty a' +:+ String c (pretty b') -> a = a' /\ b = b'.
Proof.
  intros Hc [Ea Eb]%sep_inj; [|by apply pretty_Z_free..]. split; by apply (inj pretty).
Qed.
