(* ===== verification/Errors.v ===== *)
(** * Errors: the typed error hierarchy (src/errors.ts)

    A value that the code throws is a [js_error]. The classes of errors.ts are constructors
    with the fields of their [context]; the message text of those classes is only shown to
    humans and is left out. Plain [Error], [RangeError] and [TypeError] keep the fixed part of
    their message, which [pipe] compares with a string. [DomException] is a rejection of a
    WebCrypto promise. *)
From S2P Require Import Prelude.

(** The optional fields of the contexts of [KeyNotFoundError] and [AEADAuthError]. *)
Record ErrorContext := mkErrorContext {
  ctx_kid : option Z;
  ctx_epoch : option Z;
  ctx_peerIndex : option Z;
  ctx_ctr : option Z
}.

Inductive js_error : Type :=
| GenericError (msg : string)
| RangeError (msg : string)
| TypeError (msg : string)
| DomException
| KeyNotFoundError (context : ErrorContext)
| StaleEpochError (frameEpoch minValidEpoch : Z) (kid : option Z)
| AEADAuthError (context : ErrorContext)
| RatchetWindowExhaustedError (epoch peerIndex attempts : Z)
| HeaderParseError (msg : string) (bufferLength : nat)
| QueueFullError
| FipsModeViolationError (msg : string)
| ReplayError (epoch peerIndex ctr : Z)
| KeyInvalidError (epoch peerIndex failures : Z)
| ChatReplayError (roomId senderUid : string) (ctr : Z).

(** [err.code], for the classes that extend [SFrameError]. *)
Definition code (e : js_error) : option string :=
  match e with
  | GenericError _ | RangeError _ | TypeError _ | DomException => None
  | KeyNotFoundError _ => Some "KEY_NOT_FOUND"
  | StaleEpochError _ _ _ => Some "STALE_EPOCH"
  | AEADAuthError _ => Some "AEAD_AUTH_FAIL"
  | RatchetWindowExhaustedError _ _ _ => Some "RATCHET_WINDOW_EXHAUSTED"
  | HeaderParseError _ _ => Some "HEADER_PARSE"
  | QueueFullError => Some "QUEUE_FULL"
  | FipsModeViolationError _ => Some "FIPS_VIOLATION"
  | ReplayError _ _ _ | ChatReplayError _ _ _ => Some "REPLAY"
  | KeyInvalidError _ _ _ => Some "KEY_INVALID"
  end%string.

(** ['code' in err ? String(err.code) : 'UNKNOWN']. The WebCrypto rejections that get here
    (OperationError, DataError) are DOMExceptions, whose legacy [code] is 0. *)
Definition errCode (e : js_error) : string :=
  match e with
  | DomException => "0"%string
  | _ => default "UNKNOWN"%string (code e)
  end.

(** [err instanceof C], for the classes the frame pipeline tests. *)
Definition is_StaleEpochError (e : js_error) : bool :=
  match e with StaleEpochError _ _ _ => true | _ => false end.
Definition is_ReplayError (e : js_error) : bool :=
  match e with ReplayError _ _ _ => true | _ => false end.
Definition is_KeyInvalidError (e : js_error) : bool :=
  match e with KeyInvalidError _ _ _ => true | _ => false end.

(** [err instanceof AEADAuthError || err instanceof RatchetWindowExhaustedError] *)
Definition is_aead_failure (e : js_error) : bool :=
  match e with
  | AEADAuthError _ | RatchetWindowExhaustedError _ _ _ => true
  | _ => false
  end.

(** [err.context.epoch] and [err.context.peerIndex] of those two classes, when both are numbers. *)
Definition failure_context (e : js_error) : option (Z * Z) :=
  match e with
  | AEADAuthError c =>
      match ctx_epoch c, ctx_peerIndex c with
      | Some ep, Some pi => Some (ep, pi)
      | _, _ => None
      end
  | RatchetWindowExhaustedError ep pi _ => Some (ep, pi)
  | _ => None
  end.

Abbreviation res := (result js_error).
