(* ===== verification/Internal.v ===== *)
(** * Internal: the helpers of src/internal (buffer.ts, constant-time.ts, collections.ts)

    Byte helpers are functions on byte strings; a [Uint8Array] that may be a view into a larger
    or shared buffer is a [View]. A JavaScript [Map] is used through the interface [JSMap]: the
    worker's integer-keyed maps are stdpp's [gmap] (nothing depends on their order), the maps
    whose insertion order decides evictions are [OMap]. *)
From S2P Require Import Prelude Errors.
From Stdlib Require Import Strings.Byte.

(** ** buffer.ts *)

(** A typed-array view: the underlying buffer, the window, and whether the buffer is shared. *)
Record View := mkView {
  buffer : bytes;
  byteOffset : nat;
  byteLength : nat;
  shared : bool
}.

Definition view_bytes (u8 : View) : bytes :=
  subarray (byteOffset u8) (byteOffset u8 + byteLength u8) (buffer u8).

(** A fresh buffer of [u8.byteLength] bytes into which the view is copied. *)
Definition toArrayBuffer (u8 : View) : bytes := view_bytes u8.

Definition bufferSourceOf (u8 : View) : bytes :=
  if (byteOffset u8 =? 0)%nat && (byteLength u8 =? length (buffer u8))%nat && negb (shared u8)
  then buffer u8
  else view_bytes u8.

Definition zeroize (u8 : bytes) : bytes := zeros (length u8).

(** [out.set(src, off)]: copies, or throws when the source does not fit. *)
Definition u8_set (out : bytes) (off : nat) (src : bytes) : res bytes :=
  if (length out <? off + length src)%nat then Throw (RangeError "offset is out of bounds")
  else Ok (take off out ++ src ++ drop (off + length src) out).

Definition concat2 (a b : bytes) : res bytes :=
  out ← u8_set (zeros (length a + length b)) 0 a;
  u8_set out (length a) b.

(** [TextEncoder.encode] on strings of code units below 256: UTF-8 with one or two bytes each. *)
Fixpoint textEncode (s : string) : bytes :=
  match s with
  | EmptyString => []
  | String a s =>
      let c := Z.of_nat (Ascii.nat_of_ascii a) in
      (if c <? 0x80 then [z2b c]
       else [z2b (Z.lor 0xC0 (Z.shiftr c 6)); z2b (Z.lor 0x80 (Z.land c 0x3F))]) ++ textEncode s
  end.

(** ** constant-time.ts *)

(** [acc |= a[i] ^ b[i]] over every index of [a]. *)
Fixpoint ct_acc (a b : bytes) (acc : Z) : Z :=
  match a, b with
  | x :: a, y :: b => ct_acc a b (js_or acc (Z.lxor (b2z x) (b2z y)))
  | _, _ => acc
  end.

Definition ctEqual (a b : bytes) : bool :=
  if negb (length a =? length b)%nat then false else ct_acc a b 0 =? 0.

Definition ctEndsWith (frame trailer : bytes) : bool :=
  if (length frame <? length trailer)%nat then false
  else ctEqual (drop (length frame - length trailer) frame) trailer.

(** Eight iterations, least significant byte first. *)
Fixpoint bytes64_loop (n : nat) (x : Z) : bytes :=
  match n with
  | O => []
  | S n => z2b (Z.land x 0xff) :: bytes64_loop n (Z.shiftr x 8)
  end.

Definition bigintToBytes64 (v : Z) : bytes := bytes64_loop 8 v.

Definition ctBigintEqual (a b : Z) : bool := ctEqual (bigintToBytes64 a) (bigintToBytes64 b).

(** ** collections.ts *)

(** What the code relies on of a [Map]. *)
Class JSMap (K V Mp : Type) `{Lookup K V Mp, Insert K V Mp, Delete K Mp, Empty Mp} := {
  jm_lookup_empty (k : K) : (∅ : Mp) !! k = None;
  jm_lookup_insert_eq (m : Mp) (k : K) (v : V) : <[k := v]> m !! k = Some v;
  jm_lookup_insert_ne (m : Mp) (k k' : K) (v : V) : k <> k' -> <[k := v]> m !! k' = m !! k';
  jm_lookup_delete_eq (m : Mp) (k : K) : delete k m !! k = None;
  jm_lookup_delete_ne (m : Mp) (k k' : K) : k <> k' -> delete k m !! k' = m !! k'
}.

#[export] Instance gmap_jsmap `{Countable K} V : JSMap K V (gmap K V).
Proof.
  split; intros.
  - apply lookup_empty.
  - apply lookup_insert_eq.
  - by apply lookup_insert_ne.
  - apply lookup_delete_eq.
  - by apply lookup_delete_ne.
Qed.

(** A [Map] with its insertion order. *)
Record OMap (K V : Type) := mkOMap { entries : list (K * V) }.
Arguments mkOMap {K V} entries.
Arguments entries {K V} o.

Section OMapOps.
Context {K V : Type} `{EqDecision K}.

Fixpoint assoc_lookup (k : K) (l : list (K * V)) : option V :=
  match l with
  | [] => None
  | (k', v) :: l => if decide (k = k') then Some v else assoc_lookup k l
  end.

(** [map.set]: an existing key keeps its place, a new one goes last. *)
Fixpoint assoc_insert (k : K) (v : V) (l : list (K * V)) : list (K * V) :=
  match l with
  | [] => [(k, v)]
  | (k', v') :: l => if decide (k = k') then (k, v) :: l else (k', v') :: assoc_insert k v l
  end.

Fixpoint assoc_delete (k : K) (l : list (K * V)) : list (K * V) :=
  match l with
  | [] => []
  | (k', v') :: l => if decide (k = k') then assoc_delete k l else (k', v') :: assoc_delete k l
  end.

#[export] Instance omap_lookup : Lookup K V (OMap K V) := fun k m => assoc_lookup k (entries m).
#[export] Instance omap_insert : Insert K V (OMap K V) := fun k v m =>
  mkOMap (assoc_insert k v (entries m)).
#[export] Instance omap_delete : Delete K (OMap K V) := fun k m =>
  mkOMap (assoc_delete k (entries m)).
#[export] Instance omap_empty : Empty (OMap K V) := mkOMap [].

Definition omap_keys (m : OMap K V) : list K := (entries m).*1.
Definition omap_size (m : OMap K V) : nat := length (entries m).
Definition omap_wf (m : OMap K V) : Prop := NoDup (omap_keys m).

End OMapOps.

(** [getOrCreateNested(outer, k1, k2, factory)]: the value, and the outer map afterwards. *)
Definition getOrCreateNested {K1 K2 V Inner Outer : Type}
    `{Lookup K1 Inner Outer, Insert K1 Inner Outer, Lookup K2 V Inner, Insert K2 V Inner,
      Empty Inner} (outer : Outer) (key1 : K1) (key2 : K2) (factory : V) : V * Outer :=
  let '(inner, outer) :=
    match outer !! key1 with
    | Some inner => (inner, outer)
    | None => (∅, <[key1 := ∅]> outer)
    end in
  match inner !! key2 with
  | Some value => (value, outer)
  | None => (factory, <[key1 := <[key2 := factory]> inner]> outer)
  end.

(** ** Lemmas: buffers *)

(** Skipping the copy never changes the bytes handed to WebCrypto. *)
Lemma bufferSourceOf_bytes u8 : bufferSourceOf u8 = toArrayBuffer u8.
Proof.
  unfold bufferSourceOf, toArrayBuffer, view_bytes, subarray.
  destruct (Nat.eqb_spec (byteOffset u8) 0) as [->|]; [|done].
  destruct (Nat.eqb_spec (byteLength u8) (length (buffer u8))) as [->|]; [|done].
  destruct (shared u8); [done|]. simpl. by rewrite firstn_all.
Qed.

Lemma u8_set_ok out off src :
  (off + length src <= length out)%nat ->
  u8_set out off src = Ok (take off out ++ src ++ drop (off + length src) out).
Proof. intros H. unfold u8_set. by rewrite (proj2 (Nat.ltb_ge _ _)). Qed.

Lemma u8_set_length out off src out' : u8_set out off src = Ok out' -> length out' = length out.
Proof.
  unfold u8_set. destruct (Nat.ltb_spec (length out) (off + length src)); [done|].
  intros <-%Ok_inj. rewrite !length_app, length_take, length_drop. lia.
Qed.

(** Writing [src] between [pre] and [post]. *)
Lemma u8_set_mid pre mid post off src :
  off = length pre -> length src = length mid ->
  u8_set (pre ++ mid ++ post) off src = Ok (pre ++ src ++ post).
Proof.
  intros -> Hl. rewrite u8_set_ok by (rewrite !length_app; lia).
  rewrite take_app_exact by done. do 3 f_equal.
  rewrite app_assoc. apply drop_app_exact. rewrite length_app. lia.
Qed.

Lemma zeros_app n m : zeros (n + m) = zeros n ++ zeros m.
Proof. apply replicate_add. Qed.

Lemma length_zeros n : length (zeros n) = n.
Proof. apply length_replicate. Qed.

Lemma concat2_spec a b : concat2 a b = Ok (a ++ b).
Proof.
  unfold concat2. rewrite zeros_app.
  pose proof (u8_set_mid [] (zeros (length a)) (zeros (length b)) 0 a) as H1.
  simpl app in H1. rewrite H1; [|done|by rewrite length_zeros].
  cbn [mbind result_bind].
  pose proof (u8_set_mid a (zeros (length b)) [] (length a) b) as H2.
  rewrite !app_nil_r in H2. rewrite H2; [done|done|by rewrite length_zeros].
Qed.

(** ** Lemmas: UTF-8 *)

(** The first character of an encoding, and the rest. *)
Definition utf8_head (bs : bytes) : option (Ascii.ascii * bytes) :=
  match bs with
  | b :: rest =>
      if b2z b <? 0x80 then Some (Ascii.ascii_of_N (Z.to_N (b2z b)), rest)
      else match rest with
           | b2 :: rest =>
               let c := Z.lor (Z.shiftl (Z.land (b2z b) 0x1F) 6) (Z.land (b2z b2) 0x3F) in
               Some (Ascii.ascii_of_N (Z.to_N c), rest)
           | [] => None
           end
  | [] => None
  end.

Lemma utf8_head_cons a s : utf8_head (textEncode (String a s)) = Some (a, textEncode s).
Proof. by destruct a as [[] [] [] [] [] [] [] []]. Qed.

Lemma textEncode_inj s1 s2 : textEncode s1 = textEncode s2 -> s1 = s2.
Proof.
  revert s2. induction s1 as [|a s1 IH]; intros [|b s2] E; [done| | |].
  - apply (f_equal utf8_head) in E. rewrite utf8_head_cons in E. discriminate E.
  - apply (f_equal utf8_head) in E. rewrite utf8_head_cons in E. discriminate E.
  - apply (f_equal utf8_head) in E. rewrite !utf8_head_cons in E. injection E as -> E. f_equal. by apply IH.
Qed.

(** ** Lemmas: constant-time comparison *)

Lemma ct_acc_zero a b acc :
  length a = length b -> 0 <= acc < 256 -> ct_acc a b acc = 0 <-> acc = 0 /\ a = b.
Proof.
  revert b acc; induction a as [|x a IH]; intros [|y b] acc Hl Hacc; simplify_eq/=.
  { naive_solver. }
  pose proof (lxor_bound 8 (b2z x) (b2z y) eq_refl (b2z_range x) (b2z_range y)).
  rewrite js_or_small by lia. rewrite IH by (try done; apply (lor_bound 8); lia).
  rewrite Z.lor_eq_0_iff, Z.lxor_eq_0_iff. split.
  - intros [[-> ->%b2z_inj] ->]. done.
  - intros [-> [= -> ->]]. done.
Qed.

Lemma ctEqual_spec a b : ctEqual a b = true <-> a = b.
Proof.
  unfold ctEqual. destruct (Nat.eqb_spec (length a) (length b)) as [Hl|Hl]; simpl.
  - rewrite Z.eqb_eq, ct_acc_zero by (done || lia). naive_solver.
  - split; [done|]. by intros ->.
Qed.

Lemma ctEndsWith_spec frame trailer :
  ctEndsWith frame trailer = true <-> exists p, frame = p ++ trailer.
Proof.
  unfold ctEndsWith. destruct (Nat.ltb_spec (length frame) (length trailer)) as [Hl|Hl].
  - split; [done|]. intros [p ->]. rewrite length_app in Hl. lia.
  - rewrite ctEqual_spec. split.
    + intros E. exists (take (length frame - length trailer) frame).
      rewrite <- (take_drop (length frame - length trailer) frame) at 1. by rewrite E.
    + intros [p ->]. apply drop_suffix.
Qed.

Lemma bytes64_loop_be n x : bytes64_loop n x = reverse (be_bytes n x).
Proof.
  revert x; induction n as [|n IH]; intros x; [done|]. simpl.
  rewrite reverse_app, IH, Z.shiftr_div_pow2 by lia. simpl. f_equal.
  change 0xff with (Z.ones 8). rewrite Z.land_ones by lia. apply z2b_mod.
Qed.

Lemma be_bytes_mod n v : be_bytes n (v mod 256 ^ Z.of_nat n) = be_bytes n v.
Proof.
  revert v; induction n as [|n IH]; intros v; [done|]. cbn [be_bytes].
  rewrite Nat2Z.inj_succ, Z.pow_succ_r by lia.
  rewrite Z.rem_mul_r by (try apply Z.pow_nonzero; lia).
  rewrite (Z.mul_comm 256 (_ mod _)), Z.div_add, Z.div_small, Z.add_0_l, IH
    by (try apply Z.mod_pos_bound; lia).
  do 2 f_equal. rewrite <- z2b_mod, Z.mod_add, Z.mod_mod by lia. apply z2b_mod.
Qed.

Lemma ctBigintEqual_spec a b : ctBigintEqual a b = true <-> a mod 2 ^ 64 = b mod 2 ^ 64.
Proof.
  unfold ctBigintEqual, bigintToBytes64. rewrite ctEqual_spec, !bytes64_loop_be.
  rewrite (inj_iff reverse). change (2 ^ 64) with (256 ^ Z.of_nat 8). split; intros E.
  - apply (f_equal be_value) in E.
    rewrite <- (be_bytes_mod 8 a), <- (be_bytes_mod 8 b) in E.
    rewrite !be_value_be_bytes, !Z.mod_mod in E by (try apply Z.mod_pos_bound; lia). done.
  - by rewrite <- (be_bytes_mod 8 a), E, be_bytes_mod.
Qed.

Lemma ctBigintEqual_small a b :
  0 <= a < 2 ^ 64 -> 0 <= b < 2 ^ 64 -> ctBigintEqual a b = bool_decide (a = b).
Proof.
  intros Ha Hb. apply eq_bool_prop_intro. rewrite bool_decide_spec.
  rewrite Is_true_true, ctBigintEqual_spec, !Z.mod_small by done. done.
Qed.

(** ** Lemmas: ordered maps *)

Section OMapLemmas.
Context {K V : Type} `{EqDecision K}.
Implicit Types (l : list (K * V)) (k : K) (v : V).

Lemma assoc_insert_keys k v l :
  (assoc_insert k v l).*1 = if decide (k ∈ l.*1) then l.*1 else l.*1 ++ [k].
Proof.
  induction l as [|[k' v'] l IH]; [done|]. csimpl.
  destruct (decide (k = k')) as [->|Hne]; csimpl.
  - by rewrite decide_True by set_solver.
  - rewrite IH. destruct (decide (k ∈ l.*1)).
    + by rewrite decide_True by set_solver.
    + by rewrite decide_False by set_solver.
Qed.

Lemma assoc_delete_keys k l : (assoc_delete k l).*1 = filter (fun k' => k <> k') l.*1.
Proof.
  induction l as [|[k' v'] l IH]; [done|]. csimpl.
  destruct (decide (k = k')) as [->|Hne]; csimpl.
  - by rewrite IH, filter_cons_False by naive_solver.
  - by rewrite IH, filter_cons_True.
Qed.

Lemma assoc_lookup_None k l : assoc_lookup k l = None <-> k ∉ l.*1.
Proof.
  induction l as [|[k' v'] l IH]; csimpl; [set_solver|]. case_decide; set_solver.
Qed.

#[export] Instance omap_jsmap : JSMap K V (OMap K V).
Proof.
  split; unfold lookup, insert, delete, empty, omap_lookup, omap_insert, omap_delete, omap_empty;
    simpl.
  - done.
  - intros [m] k v; simpl. induction m as [|[k' v'] m IH]; simpl; [by rewrite decide_True|].
    destruct (decide (k = k')); simpl; [by rewrite decide_True|by rewrite decide_False].
  - intros [m] k k2 v Hne; simpl. induction m as [|[k' v'] m IH]; simpl; [by rewrite decide_False|].
    destruct (decide (k = k')) as [<-|]; simpl; [by rewrite !decide_False|by rewrite IH].
  - intros [m] k; simpl. apply assoc_lookup_None. rewrite assoc_delete_keys.
    rewrite list_elem_of_filter. naive_solver.
  - intros [m] k k2 Hne; simpl. induction m as [|[k' v'] m IH]; simpl; [done|].
    destruct (decide (k = k')) as [<-|]; simpl; [by rewrite IH, decide_False|by rewrite IH].
Qed.

Lemma omap_insert_wf (m : OMap K V) k v : omap_wf m -> omap_wf (<[k := v]> m).
Proof.
  unfold omap_wf, omap_keys, insert, omap_insert; simpl. intros Hnd.
  rewrite assoc_insert_keys. case_decide; [done|].
  apply NoDup_app. split; [done|]. split; [set_solver|apply NoDup_singleton].
Qed.

Lemma omap_delete_wf (m : OMap K V) k : omap_wf m -> omap_wf (delete k m).
Proof.
  unfold omap_wf, omap_keys, delete, omap_delete; simpl. intros Hnd.
  rewrite assoc_delete_keys. by apply NoDup_filter.
Qed.

Lemma omap_size_insert (m : OMap K V) k v :
  omap_size (<[k := v]> m) = if decide (k ∈ omap_keys m) then omap_size m else S (omap_size m).
Proof.
  unfold omap_size, omap_keys, insert, omap_insert; simpl.
  rewrite <- !(length_fmap fst), assoc_insert_keys. case_decide; [done|].
  rewrite length_app; simpl; lia.
Qed.

End OMapLemmas.

(** ** Lemmas: nested maps *)

Section Nested.
Context {K1 K2 V Inner Outer : Type} `{EqDecision K1, EqDecision K2}
  `{Lookup K1 Inner Outer, Insert K1 Inner Outer, Delete K1 Outer, Empty Outer}
  `{Lookup K2 V Inner, Insert K2 V Inner, Delete K2 Inner, Empty Inner}
  `{!JSMap K1 Inner Outer, !JSMap K2 V Inner}.

Definition nested_lookup (m : Outer) (k1 : K1) (k2 : K2) : option V :=
  m !! k1 ≫= fun inner => inner !! k2.

Lemma getOrCreateNested_spec (m : Outer) k1 k2 (f : V) :
  let '(v, m') := getOrCreateNested m k1 k2 f in
  v = default f (nested_lookup m k1 k2) /\
  forall k1' k2', nested_lookup m' k1' k2' =
    if decide (k1' = k1 /\ k2' = k2) then Some v else nested_lookup m k1' k2'.
Proof.
  unfold getOrCreateNested, nested_lookup.
  destruct (m !! k1) as [inner|] eqn:E1; simpl.
  - destruct (inner !! k2) as [v|] eqn:E2; simpl; (split; [done|]); intros k1' k2'.
    + case_decide as Hd; [|done]. destruct Hd as [-> ->]. by rewrite E1.
    + case_decide as Hd; [destruct Hd as [-> ->]; rewrite jm_lookup_insert_eq; simpl;
        apply jm_lookup_insert_eq|].
      destruct (decide (k1 = k1')) as [<-|Hne]; [|by rewrite jm_lookup_insert_ne].
      rewrite jm_lookup_insert_eq, E1. simpl. apply jm_lookup_insert_ne. naive_solver.
  - rewrite jm_lookup_empty. simpl. split; [done|]. intros k1' k2'.
    case_decide as Hd; [destruct Hd as [-> ->]; rewrite jm_lookup_insert_eq; simpl;
        apply jm_lookup_insert_eq|].
    destruct (decide (k1 = k1')) as [<-|Hne]; [|by rewrite !jm_lookup_insert_ne].
    rewrite jm_lookup_insert_eq, E1. simpl.
    rewrite jm_lookup_insert_ne by naive_solver. apply jm_lookup_empty.
Qed.

End Nested.

(** ** Properties *)

(** The branch-free comparisons decide what they are meant to decide: [ctEqual] equality of
    byte strings, [ctEndsWith] the suffix relation (an empty trailer always matches). *)
Theorem ct_compare_correct (a b : bytes) :
  (ctEqual a b = true <-> a = b) /\
  (ctEndsWith a b = true <-> exists p, a = p ++ b).
Proof. split; [apply ctEqual_spec|apply ctEndsWith_spec]. Qed.

(** [ctBigintEqual] compares modulo 2^64: exact on the 64-bit counters a header can carry,
    but not the equality of arbitrary bigints (2^64 and 0 compare equal). *)
Theorem ctBigintEqual_mod64 (a b : Z) :
  (ctBigintEqual a b = true <-> a mod 2 ^ 64 = b mod 2 ^ 64) /\
  ctBigintEqual (2 ^ 64) 0 = true /\
  (0 <= a < 2 ^ 64 -> 0 <= b < 2 ^ 64 -> ctBigintEqual a b = bool_decide (a = b)).
Proof.
  split; [apply ctBigintEqual_spec|]. split; [done|apply ctBigintEqual_small].
Qed.
