(* ===== verification/Header.v ===== *)
(** * Header: the SFrame header codec (src/sframe-header.ts)

    [serializeHeader] writes the extended-KID form with a fixed four-byte KID and the minimal
    big-endian counter; [parseHeader] reads every form of RFC 9605 section 4.3. The KID is
    accumulated in doubles ([f64_round] after each addition), the counter in bigints. *)
From S2P Require Import Prelude Errors.
From Stdlib Require Import Strings.Byte.

Record SFrameHeader := mkSFrameHeader {
  kid : Z;
  ctr : Z;
  bodyOffset : nat
}.

Definition SFRAME_KID_WIDTH : nat := 4.

(** The [while (x > 0n)] loop, least significant byte first; [fuel] bounds the iterations. *)
Fixpoint le_loop (fuel : nat) (x : Z) : bytes :=
  match fuel with
  | O => []
  | S fuel => if 0 <? x then z2b (Z.land x 0xff) :: le_loop fuel (Z.shiftr x 8) else []
  end.

(** One iteration per started byte: [log2 v / 8 + 1] of them when [v > 0]. *)
Definition le_fuel (v : Z) : nat := S (Z.to_nat (Z.log2 v / 8)).

Definition minimalBigEndian (v : Z) : res bytes :=
  if v =? 0 then Ok [z2b 0] else
  let bs := reverse (le_loop (le_fuel v) v) in
  if (8 <? length bs)%nat then Throw (RangeError "sframe: field exceeds 8 bytes") else Ok bs.

(** The [for (i = width - 1; i >= 0; i--)] loop: the bytes written and what is left of [x]. *)
Fixpoint fixed_loop (width : nat) (x : Z) (out : bytes) : bytes * Z :=
  match width with
  | O => (out, x)
  | S width => fixed_loop width (Z.shiftr x 8) (z2b (Z.land x 0xff) :: out)
  end.

Definition fixedBigEndian (v : Z) (width : nat) : res bytes :=
  let '(out, x) := fixed_loop width v [] in
  if x =? 0 then Ok out else Throw (RangeError "sframe: value exceeds width").

Definition serializeHeader (kid : jsnum) (ctr : Z) : res bytes :=
  match kid with
  | JsFrac _ => Throw (RangeError "sframe: kid out of range")
  | JsInt kid =>
      if (kid <? 0) || (0xffffffff <? kid)
      then Throw (RangeError "sframe: kid out of range")
      else if (ctr <? 0) || (0xffffffffffffffff <? ctr)
      then Throw (RangeError "sframe: ctr out of range")
      else
        kidBytes ← fixedBigEndian kid SFRAME_KID_WIDTH;
        ctrBytes ← minimalBigEndian ctr;
        let klen := Z.of_nat SFRAME_KID_WIDTH - 1 in
        let clen := Z.of_nat (length ctrBytes) - 1 in
        let cfg := js_or (js_or 0x88 (js_shl (js_and klen 7) 4)) (js_and clen 7) in
        mret (z2b cfg :: kidBytes ++ ctrBytes)
  end.

Definition readBigEndianNumber (buf : bytes) (off len : nat) : res Z :=
  let out := foldl (fun out b => f64_round (out * 256 + b2z b)) 0 (subarray off (off + len) buf) in
  if is_safe_integer out then Ok out
  else Throw (HeaderParseError "sframe: extended KID exceeds safe integer range" (length buf)).

Definition readBigEndianBigInt (buf : bytes) (off len : nat) : Z :=
  foldl (fun out b => Z.lor (Z.shiftl out 8) (b2z b)) 0 (subarray off (off + len) buf).

Definition parseHeader (buf : bytes) : res SFrameHeader :=
  if (length buf <? 1)%nat then Throw (HeaderParseError "sframe: empty buffer" 0) else
  let cfg := byte_at buf 0 in
  let kExt := negb (Z.land cfg 0x80 =? 0) in
  let klen := Z.land (Z.shiftr cfg 4) 7 in
  let cExt := negb (Z.land cfg 0x08 =? 0) in
  let clen := Z.land cfg 7 in
  '(kid, offset) ←
    (if kExt then
       let need := Z.to_nat (klen + 1) in
       if (length buf <? 1 + need)%nat
       then Throw (HeaderParseError "sframe: short kid" (length buf))
       else (v ← readBigEndianNumber buf 1 need; mret (v, (1 + need)%nat))
     else Ok (klen, 1%nat));
  if cExt then
    let need := Z.to_nat (clen + 1) in
    if (length buf <? offset + need)%nat
    then Throw (HeaderParseError "sframe: short ctr" (length buf))
    else Ok {| kid := kid; ctr := readBigEndianBigInt buf offset need;
               bodyOffset := offset + need |}
  else Ok {| kid := kid; ctr := clen; bodyOffset := offset |}.


(** ** The loops against the reference encodings *)

Lemma land_ff x : Z.land x 0xff = x mod 256.
Proof. change 0xff with (Z.ones 8). by rewrite Z.land_ones. Qed.

Lemma shiftr_8 x : Z.shiftr x 8 = x / 256.
Proof. by rewrite Z.shiftr_div_pow2. Qed.

Lemma le_loop_spec fuel x :
  0 <= x < 256 ^ Z.of_nat fuel ->
  be_value (reverse (le_loop fuel x)) = x /\
  (length (le_loop fuel x) <= fuel)%nat /\
  (0 < x -> (0 < length (le_loop fuel x))%nat /\
            256 ^ (Z.of_nat (length (le_loop fuel x)) - 1) <= x).
Proof.
  revert x; induction fuel as [|fuel IH]; intros x Hx; simpl le_loop.
  { assert (x = 0) as -> by (simpl in Hx; lia). repeat split; simpl; lia. }
  destruct (Z.ltb_spec 0 x) as [Hpos|Hle]; [|assert (x = 0) as -> by lia; repeat split; simpl; lia].
  rewrite land_ff, shiftr_8, z2b_mod, reverse_cons, be_value_snoc, b2z_z2b.
  rewrite Nat2Z.inj_succ, Z.pow_succ_r in Hx by lia.
  assert (0 <= x / 256 < 256 ^ Z.of_nat fuel) as Hq.
  { split; [apply Z.div_pos; lia|apply Z.div_lt_upper_bound; lia]. }
  destruct (IH _ Hq) as (Hv & Hl & Hm). rewrite Hv.
  pose proof (Z.div_mod x 256). simpl length.
  split; [lia|]. split; [lia|]. intros _. split; [lia|].
  destruct (Z.eq_dec (x / 256) 0) as [E|E].
  - rewrite E. replace (le_loop fuel 0) with (@nil Byte.byte) by (by destruct fuel).
    change (Z.of_nat (S (length (@nil Byte.byte))) - 1) with 0. rewrite Z.pow_0_r. lia.
  - destruct Hm as [? Hm]; [lia|].
    replace (Z.of_nat (S (length (le_loop fuel (x / 256)))) - 1)
      with (Z.succ (Z.of_nat (length (le_loop fuel (x / 256))) - 1)) by lia.
    rewrite Z.pow_succ_r by lia. etrans; [|apply (Z.mul_div_le x 256); lia]. by apply Z.mul_le_mono_nonneg_l.
Qed.

Lemma le_fuel_enough v : 0 < v -> v < 256 ^ Z.of_nat (le_fuel v).
Proof.
  intros Hv. unfold le_fuel. pose proof (Z.log2_nonneg v).
  rewrite Nat2Z.inj_succ, Z2Nat.id by (apply Z.div_pos; lia).
  change 256 with (2 ^ 8). rewrite <- Z.pow_mul_r by (pose proof (Z.div_pos (Z.log2 v) 8); lia).
  apply Z.lt_le_trans with (2 ^ Z.succ (Z.log2 v)); [apply Z.log2_spec; lia|].
  apply Z.pow_le_mono_r; [lia|]. pose proof (Z.div_mod (Z.log2 v) 8).
  pose proof (Z.mod_pos_bound (Z.log2 v) 8). lia.
Qed.

(** More fuel changes nothing: the loop ends on its own. *)
Lemma le_loop_fuel fuel k x :
  0 <= x < 256 ^ Z.of_nat fuel -> le_loop (fuel + k) x = le_loop fuel x.
Proof.
  revert x; induction fuel as [|fuel IH]; intros x Hx; simpl.
  - simpl in Hx. assert (x = 0) as -> by lia. by destruct k.
  - destruct (Z.ltb_spec 0 x); [|done]. f_equal. rewrite shiftr_8. apply IH.
    rewrite Nat2Z.inj_succ, Z.pow_succ_r in Hx by lia.
    split; [apply Z.div_pos; lia|apply Z.div_lt_upper_bound; lia].
Qed.

Lemma minimalBigEndian_spec v :
  0 <= v < 2 ^ 64 ->
  exists bs, minimalBigEndian v = Ok bs /\ be_value bs = v /\ (1 <= length bs <= 8)%nat.
Proof.
  intros Hv. unfold minimalBigEndian.
  destruct (Z.eqb_spec v 0) as [->|Hne]; [exists [z2b 0]; repeat split; simpl; lia|].
  destruct (le_loop_spec (le_fuel v) v) as (Hval & _ & Hmin).
  { split; [lia|]. apply le_fuel_enough; lia. }
  destruct Hmin as [Hpos Hmin]; [lia|].
  rewrite length_reverse.
  assert (length (le_loop (le_fuel v) v) <= 8)%nat as H8.
  { destruct (le_lt_dec (length (le_loop (le_fuel v) v)) 8) as [?|Hlt]; [done|].
    assert (256 ^ 8 <= 256 ^ (Z.of_nat (length (le_loop (le_fuel v) v)) - 1))
      by (apply Z.pow_le_mono_r; lia). lia. }
  rewrite (proj2 (Nat.ltb_ge _ _)) by lia.
  eexists. split; [done|]. split; [done|]. rewrite length_reverse. lia.
Qed.

Lemma fixed_loop_spec w x out :
  fixed_loop w x out = (be_bytes w x ++ out, x / 256 ^ Z.of_nat w).
Proof.
  revert x out; induction w as [|w IH]; intros x out; simpl fixed_loop.
  - by rewrite Z.div_1_r.
  - rewrite IH, land_ff, shiftr_8, z2b_mod. simpl be_bytes. rewrite <- app_assoc. f_equal.
    rewrite Nat2Z.inj_succ, Z.pow_succ_r by lia. rewrite Z.div_div; lia.
Qed.

Lemma fixedBigEndian_spec v w :
  0 <= v < 256 ^ Z.of_nat w -> fixedBigEndian v w = Ok (be_bytes w v).
Proof.
  intros Hv. unfold fixedBigEndian. rewrite fixed_loop_spec, Z.div_small by done.
  by rewrite app_nil_r.
Qed.

Lemma readBigEndianBigInt_spec buf off len :
  readBigEndianBigInt buf off len = be_value (subarray off (off + len) buf).
Proof.
  unfold readBigEndianBigInt. generalize (subarray off (off + len) buf). intros bs.
  induction bs as [|b bs IH] using rev_ind; [done|].
  rewrite be_value_snoc, foldl_app, IH. apply (lor_shiftl_add _ _ 8); [lia|apply b2z_range].
Qed.

(** Accumulating the KID in doubles is exact up to 2^53, and detected beyond. *)
Lemma f64_fold_spec bs :
  let r := foldl (fun out b => f64_round (out * 256 + b2z b)) 0 bs in
  (be_value bs < 2 ^ 53 /\ r = be_value bs) \/ (2 ^ 53 <= be_value bs /\ 2 ^ 53 <= r).
Proof.
  induction bs as [|b bs IH] using rev_ind; [left; done|].
  cbv zeta in *. rewrite be_value_snoc, foldl_app. cbn [foldl].
  pose proof (b2z_range b). pose proof (be_value_nonneg bs).
  destruct IH as [[Hlt ->]|[Hge Hr]].
  - destruct (Z.lt_ge_cases (be_value bs * 256 + b2z b) (2 ^ 53)).
    + left. by rewrite f64_round_small.
    + right. split; [done|]. by apply f64_round_large.
  - right. split; [lia|]. apply f64_round_large. lia.
Qed.

Lemma readBigEndianNumber_spec buf off len :
  readBigEndianNumber buf off len =
    let v := be_value (subarray off (off + len) buf) in
    if v <? 2 ^ 53 then Ok v
    else Throw (HeaderParseError "sframe: extended KID exceeds safe integer range" (length buf)).
Proof.
  unfold readBigEndianNumber, is_safe_integer, MAX_SAFE_INTEGER. cbv zeta.
  pose proof (be_value_nonneg (subarray off (off + len) buf)).
  destruct (f64_fold_spec (subarray off (off + len) buf)) as [[Hlt ->]|[Hge Hr]].
  - rewrite (proj2 (Z.ltb_lt _ _)) by done.
    by rewrite !(proj2 (Z.leb_le _ _)) by lia.
  - rewrite (proj2 (Z.ltb_ge _ _)) by done.
    by rewrite (proj2 (Z.leb_gt _ (2 ^ 53 - 1))), andb_false_r by lia.
Qed.

(** ** The config byte *)

Definition serial_cfg (clen : Z) : Z :=
  js_or (js_or 0x88 (js_shl (js_and 3 7) 4)) (js_and clen 7).

Lemma small_cases (P : Z -> Prop) n :
  (forall k, (k < n)%nat -> P (Z.of_nat k)) -> forall z, 0 <= z < Z.of_nat n -> P z.
Proof. intros H z Hz. rewrite <- (Z2Nat.id z) by lia. apply H. lia. Qed.

Lemma serial_cfg_fields clen :
  0 <= clen < 8 ->
  let cfg := b2z (z2b (serial_cfg clen)) in
  Z.land cfg 0x80 =? 0 = false /\ Z.land (Z.shiftr cfg 4) 7 = 3 /\
  Z.land cfg 0x08 =? 0 = false /\ Z.land cfg 7 = clen.
Proof.
  intros H. pattern clen. revert clen H. apply (small_cases _ 8). intros k Hk.
  do 8 (destruct k as [|k]; [by vm_compute|]). lia.
Qed.

Lemma subarray_app_mid (a b c : bytes) :
  subarray (length a) (length a + length b) (a ++ b ++ c) = b.
Proof.
  unfold subarray. rewrite app_assoc, take_app_exact by (by rewrite length_app).
  by apply drop_app_exact.
Qed.

(** What [serializeHeader] writes, and when. *)
Lemma serializeHeader_ok kid ctr :
  0 <= kid < 2 ^ 32 -> 0 <= ctr < 2 ^ 64 ->
  exists cs, serializeHeader (JsInt kid) ctr =
               Ok (z2b (serial_cfg (Z.of_nat (length cs) - 1)) :: be_bytes 4 kid ++ cs) /\
             be_value cs = ctr /\ (1 <= length cs <= 8)%nat.
Proof.
  intros Hk Hc. unfold serializeHeader.
  destruct (Z.ltb_spec kid 0); [lia|]. destruct (Z.ltb_spec 0xffffffff kid); [lia|].
  destruct (Z.ltb_spec ctr 0); [lia|]. destruct (Z.ltb_spec 0xffffffffffffffff ctr); [lia|].
  cbn [orb]. rewrite fixedBigEndian_spec by (unfold SFRAME_KID_WIDTH; lia).
  destruct (minimalBigEndian_spec ctr Hc) as (cs & -> & Hv & Hl).
  exists cs. split; [done|]. done.
Qed.

Lemma parseHeader_serialized kid ctr cs rest :
  0 <= kid < 2 ^ 32 -> be_value cs = ctr -> (1 <= length cs <= 8)%nat ->
  parseHeader ((z2b (serial_cfg (Z.of_nat (length cs) - 1)) :: be_bytes 4 kid ++ cs) ++ rest) =
  Ok {| kid := kid; ctr := ctr; bodyOffset := (5 + length cs)%nat |}.
Proof.
  intros Hk Hc Hl. set (c0 := z2b (serial_cfg (Z.of_nat (length cs) - 1))).
  destruct (serial_cfg_fields (Z.of_nat (length cs) - 1)) as (H1 & H2 & H3 & H4); [lia|].
  fold c0 in H1, H2, H3, H4.
  assert (length ((c0 :: be_bytes 4 kid ++ cs) ++ rest) = (5 + length cs + length rest)%nat) as Hlen.
  { rewrite length_app. cbn [length]. rewrite length_app, length_be_bytes. lia. }
  unfold parseHeader. rewrite Hlen. change (byte_at ((c0 :: _) ++ rest) 0) with (b2z c0).
  rewrite (proj2 (Nat.ltb_ge _ _)) by lia. cbv zeta.
  rewrite H1, H2, H3, H4. cbn [negb].
  rewrite (proj2 (Nat.ltb_ge _ (1 + Z.to_nat (3 + 1)))) by lia.
  rewrite readBigEndianNumber_spec. cbv zeta.
  replace (subarray 1 _ _) with (be_bytes 4 kid).
  2:{ symmetry. pose proof (subarray_app_mid [c0] (be_bytes 4 kid) (cs ++ rest)) as Hs.
      rewrite length_be_bytes in Hs. rewrite app_assoc in Hs. exact Hs. }
  rewrite be_value_be_bytes, Z.mod_small by lia.
  rewrite (proj2 (Z.ltb_lt _ _)) by lia. cbn [mbind result_bind mret result_ret].
  replace (Z.to_nat (Z.of_nat (length cs) - 1 + 1)) with (length cs) by lia.
  rewrite (proj2 (Nat.ltb_ge _ _)) by lia. do 2 f_equal.
  rewrite readBigEndianBigInt_spec, <- Hc. f_equal.
  pose proof (subarray_app_mid (c0 :: be_bytes 4 kid) cs rest) as Hs.
  cbn [length] in Hs. rewrite length_be_bytes in Hs.
  replace ((c0 :: be_bytes 4 kid ++ cs) ++ rest) with ((c0 :: be_bytes 4 kid) ++ cs ++ rest);
    [done|]. by rewrite !app_comm_cons, <- !app_assoc.
Qed.

Lemma serializeHeader_inv kid ctr h :
  serializeHeader kid ctr = Ok h ->
  exists k, kid = JsInt k /\ 0 <= k < 2 ^ 32 /\ 0 <= ctr < 2 ^ 64.
Proof.
  unfold serializeHeader. destruct kid as [k|k]; [|done].
  destruct (Z.ltb_spec k 0); [done|]. destruct (Z.ltb_spec 0xffffffff k); [done|].
  destruct (Z.ltb_spec ctr 0); [done|]. destruct (Z.ltb_spec 0xffffffffffffffff ctr); [done|].
  intros _. exists k. split; [done|]. lia.
Qed.

(** Parsing what was serialized, whatever follows it. *)
Lemma parse_serialize kid ctr h rest :
  serializeHeader kid ctr = Ok h ->
  exists k, kid = JsInt k /\
    parseHeader (h ++ rest) = Ok {| kid := k; ctr := ctr; bodyOffset := length h |} /\
    (6 <= length h <= 13)%nat.
Proof.
  intros H. destruct (serializeHeader_inv _ _ _ H) as (k & -> & Hk & Hc).
  destruct (serializeHeader_ok k ctr Hk Hc) as (cs & Hs & Hv & Hl).
  rewrite Hs in H. apply Ok_inj in H as <-. exists k. split; [done|].
  rewrite length_cons, length_app, length_be_bytes. split; [|lia].
  by apply parseHeader_serialized.
Qed.

(** ** Reference decoder: the layout of RFC 9605 section 4.3 *)

(** A field is either inline (its 3-bit code is the value) or extended (its 3-bit code is the
    number of big-endian bytes minus one). *)
Definition field_spec (ext : bool) (n : Z) (rest : bytes) : option (Z * bytes) :=
  if ext then
    let w := Z.to_nat (n + 1) in
    if (length rest <? w)%nat then None else Some (be_value (take w rest), drop w rest)
  else Some (n, rest).

Definition parse_spec (buf : bytes) : option SFrameHeader :=
  match buf with
  | [] => None
  | c :: rest =>
      let cfg := b2z c in
      '(kid, rest1) ← field_spec (128 <=? cfg) (cfg / 16 mod 8) rest;
      if kid <? 2 ^ 53 then
        '(ctr, rest2) ← field_spec (8 <=? cfg mod 16) (cfg mod 8) rest1;
        Some {| kid := kid; ctr := ctr; bodyOffset := (length buf - length rest2)%nat |}
      else None
  end.

Lemma cfg_bits c :
  let cfg := b2z c in
  negb (Z.land cfg 0x80 =? 0) = (128 <=? cfg) /\
  Z.land (Z.shiftr cfg 4) 7 = cfg / 16 mod 8 /\
  negb (Z.land cfg 0x08 =? 0) = (8 <=? cfg mod 16) /\
  Z.land cfg 7 = cfg mod 8.
Proof. destruct c; by vm_compute. Qed.

Lemma subarray_take s w (buf : bytes) : subarray s (s + w) buf = take w (drop s buf).
Proof. unfold subarray. by rewrite skipn_firstn_comm, Nat.add_comm, Nat.add_sub. Qed.

Lemma parseHeader_spec buf : result_option (parseHeader buf) = parse_spec buf.
Proof.
  destruct buf as [|c rest]; [done|]. unfold parseHeader, parse_spec.
  destruct (cfg_bits c) as (H1 & H2 & H3 & H4).
  change (byte_at (c :: rest) 0) with (b2z c). cbv zeta in *.
  rewrite H1, H2, H3, H4. clear H1 H2 H3 H4. rewrite length_cons.
  change (S (length rest) <? 1)%nat with false. cbv iota.
  set (K := 128 <=? b2z c). set (n := b2z c / 16 mod 8).
  set (C := 8 <=? b2z c mod 16). set (m := b2z c mod 8). unfold field_spec.
  assert (0 <= n < 8) as Hn by (apply Z.mod_pos_bound; lia).
  destruct K.
  - change (S (length rest) <? 1 + Z.to_nat (n + 1))%nat with (length rest <? Z.to_nat (n + 1))%nat.
    destruct (Nat.ltb_spec (length rest) (Z.to_nat (n + 1))); [done|].
    rewrite readBigEndianNumber_spec, subarray_take. cbv zeta.
    change (drop 1 (c :: rest)) with rest.
    cbn [mbind option_bind result_bind mret result_ret result_option].
    destruct (Z.ltb_spec (be_value (take (Z.to_nat (n + 1)) rest)) (2 ^ 53)); [|done].
    cbn [mbind option_bind result_bind mret result_ret result_option]. destruct C.
    + rewrite length_drop.
      replace (S (length rest) <? _)%nat with (length rest - Z.to_nat (n + 1) <? Z.to_nat (m + 1))%nat
        by (apply eq_true_iff_eq; rewrite !Nat.ltb_lt; lia).
      destruct (Nat.ltb_spec (length rest - Z.to_nat (n + 1)) (Z.to_nat (m + 1))); [done|].
      cbn [option_bind mbind result_option]. rewrite readBigEndianBigInt_spec, subarray_take.
      cbn [drop Nat.add]. do 2 f_equal. rewrite !length_drop. lia.
    + cbn [option_bind mbind result_option]. rewrite length_drop. do 2 f_equal. lia.
  - cbn [mbind option_bind result_bind mret result_ret result_option].
    rewrite (proj2 (Z.ltb_lt n _)) by lia. destruct C.
    + change (S (length rest) <? 1 + Z.to_nat (m + 1))%nat with (length rest <? Z.to_nat (m + 1))%nat.
      destruct (Nat.ltb_spec (length rest) (Z.to_nat (m + 1))); [done|].
      cbn [option_bind mbind result_option]. rewrite readBigEndianBigInt_spec, subarray_take.
      change (drop 1 (c :: rest)) with rest. do 2 f_equal. rewrite length_drop. lia.
    + cbn [option_bind mbind result_option]. do 2 f_equal. lia.
Qed.

Lemma field_spec_bounds ext n rest v rest' :
  0 <= n < 8 -> field_spec ext n rest = Some (v, rest') ->
  0 <= v < 2 ^ 64 /\ (length rest' <= length rest)%nat.
Proof.
  intros Hn. unfold field_spec. destruct ext; [case_match; [done|]|]; intros [= <- <-].
  - split; [|rewrite length_drop; lia].
    split; [apply be_value_nonneg|].
    eapply Z.lt_le_trans; [apply be_value_bound|].
    change (2 ^ 64) with (256 ^ 8). apply Z.pow_le_mono_r; [lia|]. rewrite length_take. lia.
  - lia.
Qed.

Lemma parseHeader_bounds buf h :
  parseHeader buf = Ok h ->
  0 <= kid h < 2 ^ 53 /\ 0 <= ctr h < 2 ^ 64 /\ (1 <= bodyOffset h <= length buf)%nat.
Proof.
  intros H. pose proof (parseHeader_spec buf) as Hs. rewrite H in Hs. symmetry in Hs.
  unfold parse_spec in Hs. destruct buf as [|c rest]; [done|]. cbv zeta in Hs.
  assert (0 <= b2z c / 16 mod 8 < 8) by (apply Z.mod_pos_bound; lia).
  assert (0 <= b2z c mod 8 < 8) by (apply Z.mod_pos_bound; lia).
  apply bind_Some in Hs as ([k r1] & Hk & Hs). apply field_spec_bounds in Hk; [|done].
  destruct (Z.ltb_spec k (2 ^ 53)); [|done].
  apply bind_Some in Hs as ([c0 r2] & Hc & [= <-]). apply field_spec_bounds in Hc; [|done].
  cbn [kid ctr bodyOffset]. rewrite length_cons in *. lia.
Qed.

Lemma parseHeader_throws buf e :
  parseHeader buf = Throw e -> exists m n, e = HeaderParseError m n.
Proof.
  unfold parseHeader. rewrite readBigEndianNumber_spec. cbv zeta.
  repeat (case_match; simplify_eq/=); intros; simplify_eq; eauto.
Qed.

Lemma header_tail_inj k1 c1 k2 c2 h1 h2 r1 r2 :
  serializeHeader k1 c1 = Ok h1 -> serializeHeader k2 c2 = Ok h2 -> h1 ++ r1 = h2 ++ r2 ->
  k1 = k2 /\ c1 = c2 /\ h1 = h2 /\ r1 = r2.
Proof.
  intros H1 H2 Heq.
  destruct (parse_serialize _ _ _ r1 H1) as (n1 & -> & P1 & _).
  destruct (parse_serialize _ _ _ r2 H2) as (n2 & -> & P2 & _).
  rewrite Heq, P2 in P1. apply Ok_inj in P1. injection P1 as -> -> Hl.
  apply app_inj_length in Heq as [-> ->]; [done|done].
Qed.

(** ** Properties *)

(** C37. Round trip: every in-range KID and counter serializes to a header of 6 to 13 bytes, and
    parsing that header gives both back and consumes exactly its bytes, whatever follows. *)
Theorem header_roundtrip (k c : Z) :
  0 <= k < 2 ^ 32 -> 0 <= c < 2 ^ 64 ->
  exists h, serializeHeader (JsInt k) c = Ok h /\ (6 <= length h <= 13)%nat /\
    forall rest, parseHeader (h ++ rest) = Ok {| kid := k; ctr := c; bodyOffset := length h |}.
Proof.
  intros Hk Hc. destruct (serializeHeader_ok k c Hk Hc) as (cs & Hs & Hv & Hl).
  eexists. split; [exact Hs|].
  destruct (parse_serialize _ _ _ [] Hs) as (k' & [= <-] & _ & Hlen). split; [done|].
  intros rest. by destruct (parse_serialize _ _ _ rest Hs) as (k' & [= <-] & -> & _).
Qed.

Theorem header_roundtrip_witness :
  0 <= 65538 < 2 ^ 32 /\ 0 <= 300 < 2 ^ 64 /\
  exists h, serializeHeader (JsInt 65538) 300 = Ok h /\ (6 <= length h <= 13)%nat /\
    forall rest, parseHeader (h ++ rest) =
                 Ok {| kid := 65538; ctr := 300; bodyOffset := length h |}.
Proof. split; [lia|]. split; [lia|]. apply (header_roundtrip 65538 300); lia. Defined.

(** The wire format is prefix-free: two frames that start with serialized headers and have the
    same bytes have the same KID, the same counter, the same header and the same body. *)
Theorem header_prefix_free k1 c1 k2 c2 h1 h2 r1 r2 :
  serializeHeader k1 c1 = Ok h1 -> serializeHeader k2 c2 = Ok h2 -> h1 ++ r1 = h2 ++ r2 ->
  k1 = k2 /\ c1 = c2 /\ h1 = h2 /\ r1 = r2.
Proof. apply header_tail_inj. Qed.

Theorem header_prefix_free_witness :
  let h := match serializeHeader (JsInt 7) 9 with Ok h => h | Throw _ => [] end in
  JsInt 7 = JsInt 7 /\ 9 = 9 /\ h = h /\ [x01] = [x01].
Proof.
  intros h. apply (header_prefix_free (JsInt 7) 9 (JsInt 7) 9 h h [x01] [x01]); reflexivity.
Defined.

(** C38. [parseHeader] computes the layout of RFC 9605 section 4.3 on every byte string: it agrees
    with the reference decoder [parse_spec] (which, as the source means to, admits KIDs below 2^53
    only), in spite of the KID being accumulated in doubles,
    every failure is a [HeaderParseError], and a success stays inside the buffer with a safe
    integer KID and a 64-bit counter. *)
Theorem parseHeader_reference (buf : bytes) :
  result_option (parseHeader buf) = parse_spec buf /\
  match parseHeader buf with
  | Ok h => 0 <= kid h < 2 ^ 53 /\ 0 <= ctr h < 2 ^ 64 /\ (1 <= bodyOffset h <= length buf)%nat
  | Throw e => exists m n, e = HeaderParseError m n
  end.
Proof.
  split; [apply parseHeader_spec|]. destruct (parseHeader buf) eqn:E.
  - by apply parseHeader_bounds in E.
  - by apply parseHeader_throws in E.
Qed.
