(* ===== verification/Kid.v ===== *)
(** * Kid: key identifiers (src/ratchet-ids.ts, lines 21-80, and src/kid-format.ts)

    [makeKid] and [splitKid] are the fixed 32-bit layout, computed with JavaScript's 32-bit
    operators; [encodeMlsKid] and [decodeMlsKid] are the RFC 9605 section 5.2 layout on bigints.
    A [KidCodec] is the interface the frame pipeline uses; [KidCodecLaws] is what it promises to
    the pipeline, and both codecs of [makeKidCodec] satisfy it. *)
From S2P Require Import Prelude Errors Internal Header.

(** ** ratchet-ids.ts *)

Definition makeKid (epoch peerIndex : jsnum) : res Z :=
  match epoch with
  | JsFrac _ => Throw (RangeError "epoch out of range [0, 0xffff]")
  | JsInt e =>
      if (e <? 0) || (0xffff <? e) then Throw (RangeError "epoch out of range [0, 0xffff]") else
      match peerIndex with
      | JsFrac _ => Throw (RangeError "peerIndex out of range [0, 0xffff]")
      | JsInt p =>
          if (p <? 0) || (0xffff <? p)
          then Throw (RangeError "peerIndex out of range [0, 0xffff]")
          else Ok (js_ushr (js_or (js_shl (js_and e 0xffff) 16) (js_and p 0xffff)) 0)
      end
  end.

Definition splitKid (kid : Z) : Z * Z :=
  (js_ushr (js_ushr kid 16) 0, js_and kid 0xffff).

Definition joinKid (parts : jsnum * jsnum) : res Z := makeKid parts.1 parts.2.

Definition SFRAME_INFO_KEY : bytes := textEncode "sframe/v1/key".
Definition SFRAME_INFO_SALT : bytes := textEncode "sframe/v1/salt".

Definition peerIndexBe16 (peerIndex : jsnum) : res bytes :=
  match peerIndex with
  | JsFrac _ => Throw (RangeError "peerIndex out of range [0, 0xffff]")
  | JsInt p =>
      if (p <? 0) || (0xffff <? p) then Throw (RangeError "peerIndex out of range [0, 0xffff]")
      else Ok [z2b (js_and (js_ushr p 8) 0xff); z2b (js_and p 0xff)]
  end.

Definition hkdfInfo (base : bytes) (peerIndex : jsnum) : res bytes :=
  be16 ← peerIndexBe16 peerIndex;
  concat2 base be16.

(** ** kid-format.ts *)

Inductive KidFormat := fixed | mls.

#[export] Instance KidFormat_eq_dec : EqDecision KidFormat.
Proof. solve_decision. Defined.

Record MlsKidConfig := mkMlsKidConfig {
  nEpochBits : jsnum;
  nIndexBits : jsnum;
  contextId : Z
}.

Definition validateMlsBitRange (nEpochBits nIndexBits : jsnum) : res unit :=
  match nEpochBits with
  | JsFrac _ => Throw (RangeError "mls-kid: nEpochBits must be an integer >= 1")
  | JsInt E =>
      if E <? 1 then Throw (RangeError "mls-kid: nEpochBits must be an integer >= 1") else
      match nIndexBits with
      | JsFrac _ => Throw (RangeError "mls-kid: nIndexBits must be an integer >= 1")
      | JsInt S' =>
          if S' <? 1 then Throw (RangeError "mls-kid: nIndexBits must be an integer >= 1")
          else if 63 <=? E then Throw (RangeError "mls-kid: nEpochBits must be < 63")
          else if 64 - E <=? S' then Throw (RangeError "mls-kid: nIndexBits must be < 64 - nEpochBits")
          else if 64 <=? E + S' then Throw (RangeError "mls-kid: nEpochBits + nIndexBits must be < 64")
          else Ok tt
      end
  end.

(** A JavaScript integer in [0, max]. *)
Definition js_in_range (n : jsnum) (max : Z) : option Z :=
  match n with
  | JsInt z => if (z <? 0) || (max <? z) then None else Some z
  | JsFrac _ => None
  end.

Definition encodeMlsKid (epoch index : jsnum) (config : MlsKidConfig) : res Z :=
  validateMlsBitRange (nEpochBits config) (nIndexBits config);;
  let E := js_floor (nEpochBits config) in
  let S' := js_floor (nIndexBits config) in
  let epochMax := Z.shiftl 1 E - 1 in
  match js_in_range epoch epochMax with
  | None => Throw (RangeError "mls-kid: epoch out of range")
  | Some epoch =>
      let indexMax := Z.shiftl 1 S' - 1 in
      match js_in_range index indexMax with
      | None => Throw (RangeError "mls-kid: index out of range")
      | Some index =>
          let contextBits := 64 - E - S' in
          let contextMax := Z.shiftl 1 contextBits - 1 in
          if (contextId config <? 0) || (contextMax <? contextId config)
          then Throw (RangeError "mls-kid: contextId out of range")
          else Ok (Z.lor (Z.lor (Z.shiftl (contextId config) (E + S')) (Z.shiftl index E)) epoch)
      end
  end.

Definition decodeMlsKid (kid : Z) (config : MlsKidConfig) : res (Z * Z * Z) :=
  validateMlsBitRange (nEpochBits config) (nIndexBits config);;
  let E := js_floor (nEpochBits config) in
  let S' := js_floor (nIndexBits config) in
  if (kid <? 0) || (0xffffffffffffffff <? kid)
  then Throw (RangeError "mls-kid: kid out of range [0, 2^64 - 1]")
  else
    let epochMask := Z.shiftl 1 E - 1 in
    let indexMask := Z.shiftl 1 S' - 1 in
    let epoch := f64_round (Z.land kid epochMask) in
    let index := f64_round (Z.land (Z.shiftr kid E) indexMask) in
    let contextId := Z.shiftr kid (E + S') in
    Ok (epoch, index, contextId).

(** Epochs, peer indices and KIDs inside the library are integers. *)
Record KidCodec := mkKidCodec {
  format : KidFormat;
  encode : Z -> Z -> res Z;
  decode : Z -> res (Z * Z)
}.

Definition FIXED_KID_CODEC : KidCodec := {|
  format := fixed;
  encode := fun epoch peerIndex => makeKid (JsInt epoch) (JsInt peerIndex);
  decode := fun kid => Ok (splitKid kid)
|}.

Definition mls_codec (config : MlsKidConfig) : KidCodec := {|
  format := mls;
  encode := fun epoch peerIndex =>
    big ← encodeMlsKid (JsInt epoch) (JsInt peerIndex) config;
    if 0xffffffff <? big
    then Throw (RangeError "kid-format: MLS KID exceeds 32-bit wire width")
    else mret (f64_round big);
  decode := fun kid =>
    '(epoch, index, _) ← decodeMlsKid kid config;
    mret (epoch, index)
|}.

Definition makeKidCodec (format : option KidFormat) (mlsConfig : option MlsKidConfig)
    : res KidCodec :=
  match default fixed format with
  | fixed => Ok FIXED_KID_CODEC
  | mls =>
      match mlsConfig with
      | None => Throw (GenericError "kid-format: mlsConfig is required when kidFormat is mls")
      | Some mlsConfig =>
          validateMlsBitRange (nEpochBits mlsConfig) (nIndexBits mlsConfig);;
          Ok (mls_codec {| nEpochBits := nEpochBits mlsConfig; nIndexBits := nIndexBits mlsConfig;
                           contextId := contextId mlsConfig |})
      end
  end.

(** ** What a codec promises to the frame pipeline *)

Class KidCodecLaws (c : KidCodec) : Prop := {
  codec_range epoch peerIndex kid :
    encode c epoch peerIndex = Ok kid -> 0 <= kid < 2 ^ 32 /\ 0 <= epoch /\ 0 <= peerIndex;
  codec_roundtrip epoch peerIndex kid :
    encode c epoch peerIndex = Ok kid -> decode c kid = Ok (epoch, peerIndex);
  codec_decode_nonneg kid epoch peerIndex :
    decode c kid = Ok (epoch, peerIndex) -> 0 <= epoch /\ 0 <= peerIndex
}.

(** A codec that decodes what it encodes maps distinct senders to distinct KIDs. *)
Lemma codec_inj c `{!KidCodecLaws c} e1 p1 e2 p2 kid :
  encode c e1 p1 = Ok kid -> encode c e2 p2 = Ok kid -> e1 = e2 /\ p1 = p2.
Proof.
  intros H1%codec_roundtrip H2%codec_roundtrip; [|done..].
  rewrite H1 in H2. by apply Ok_inj in H2 as [= -> ->].
Qed.

(** ** The fixed layout *)

Lemma to_int32_split z :
  exists q, to_int32 z = z + 2 ^ 32 * q.
Proof.
  unfold to_int32, to_uint32. cbv zeta. pose proof (Z.div_mod z (2 ^ 32)).
  case_match; [exists (- (z / 2 ^ 32))|exists (- (z / 2 ^ 32) - 1)]; lia.
Qed.

Lemma makeKid_value e p :
  0 <= e <= 0xffff -> 0 <= p <= 0xffff ->
  makeKid (JsInt e) (JsInt p) = Ok (e * 2 ^ 16 + p).
Proof.
  intros He Hp. unfold makeKid.
  destruct (Z.ltb_spec e 0); [lia|]. destruct (Z.ltb_spec 0xffff e); [lia|].
  destruct (Z.ltb_spec p 0); [lia|]. destruct (Z.ltb_spec 0xffff p); [lia|]. cbn [orb].
  f_equal. unfold js_and. change 0xffff with (Z.ones 16). change (to_int32 (Z.ones 16)) with (Z.ones 16).
  rewrite (to_int32_small e), (to_int32_small p) by lia.
  rewrite !Z.land_ones, (Z.mod_small e), (Z.mod_small p) by lia.
  rewrite (to_int32_small e), (to_int32_small p) by lia.
  unfold js_shl, js_or, js_ushr. rewrite (to_int32_small e) by lia.
  change (16 mod 32) with 16. change (0 mod 32) with 0.
  rewrite Z.shiftr_0_r, to_uint32_to_int32, (to_int32_small p) by lia.
  unfold to_int32 at 1. cbv zeta. rewrite Z.shiftl_mul_pow2 by lia.
  rewrite to_uint32_to_int32, (to_uint32_small (e * 2 ^ 16)) by lia.
  destruct (Z.ltb_spec (e * 2 ^ 16) (2 ^ 31)).
  - rewrite <- (Z.shiftl_mul_pow2 e 16), lor_shiftl_add, Z.shiftl_mul_pow2 by lia.
    apply to_uint32_small. lia.
  - replace (e * 2 ^ 16 - 2 ^ 32) with (Z.shiftl (e - 2 ^ 16) 16)
      by (rewrite Z.shiftl_mul_pow2; lia).
    rewrite lor_shiftl_add by lia. unfold to_uint32.
    replace ((e - 2 ^ 16) * 2 ^ 16 + p) with (e * 2 ^ 16 + p + (-1) * 2 ^ 32) by lia.
    rewrite Z.mod_add, Z.mod_small; lia.
Qed.

Lemma makeKid_inv e p kid :
  makeKid e p = Ok kid ->
  exists e' p', e = JsInt e' /\ p = JsInt p' /\ 0 <= e' <= 0xffff /\ 0 <= p' <= 0xffff.
Proof.
  unfold makeKid. destruct e as [e|]; [|done].
  destruct (Z.ltb_spec e 0); [done|]. destruct (Z.ltb_spec 0xffff e); [done|]. cbn [orb].
  destruct p as [p|]; [|done].
  destruct (Z.ltb_spec p 0); [done|]. destruct (Z.ltb_spec 0xffff p); [done|]. intros _.
  eauto 10.
Qed.

(** [splitKid] reads the low 32 bits of its argument. *)
Lemma splitKid_value kid :
  splitKid kid = (kid mod 2 ^ 32 / 2 ^ 16, kid mod 2 ^ 16).
Proof.
  unfold splitKid, js_ushr, js_and. change (16 mod 32) with 16. change (0 mod 32) with 0.
  rewrite Z.shiftr_0_r, Z.shiftr_div_pow2 by lia.
  pose proof (to_uint32_range kid) as Hr. unfold to_uint32 in Hr.
  f_equal.
  - apply to_uint32_small. split; [apply Z.div_pos; lia|].
    apply Z.div_lt_upper_bound; lia.
  - change (to_int32 0xffff) with (Z.ones 16). rewrite Z.land_ones by lia.
    destruct (to_int32_split kid) as [q ->].
    replace (kid + 2 ^ 32 * q) with (kid + (2 ^ 16 * q) * 2 ^ 16) by lia.
    rewrite Z.mod_add by lia. apply to_int32_small.
    pose proof (Z.mod_pos_bound kid (2 ^ 16)). lia.
Qed.

#[export] Instance FIXED_KID_CODEC_laws : KidCodecLaws FIXED_KID_CODEC.
Proof.
  split; cbn [encode decode FIXED_KID_CODEC].
  - intros e p kid H. destruct (makeKid_inv _ _ _ H) as (e' & p' & [= ->] & [= ->] & He & Hp).
    rewrite makeKid_value in H by done. apply Ok_inj in H. lia.
  - intros e p kid H. destruct (makeKid_inv _ _ _ H) as (e' & p' & [= ->] & [= ->] & He & Hp).
    rewrite makeKid_value in H by done. apply Ok_inj in H. subst kid.
    rewrite splitKid_value, Z.mod_small, Z.div_add_l, (Z.div_small p') by lia.
    rewrite (Z.add_comm _ p'), Z.mod_add, Z.mod_small by lia. do 2 f_equal. lia.
  - intros kid e p. rewrite splitKid_value. intros [= <- <-].
    split; [apply Z.div_pos; [apply Z.mod_pos_bound|]; lia|apply Z.mod_pos_bound; lia].
Qed.

(** ** The MLS layout *)

Lemma validateMlsBitRange_spec nE nI :
  validateMlsBitRange nE nI = Ok tt <->
  exists E S', nE = JsInt E /\ nI = JsInt S' /\ 1 <= E < 63 /\ 1 <= S' < 64 - E.
Proof.
  unfold validateMlsBitRange. destruct nE as [E|]; [|naive_solver].
  destruct (Z.ltb_spec E 1); [naive_solver lia|].
  destruct nI as [S'|]; [|naive_solver].
  destruct (Z.ltb_spec S' 1); [naive_solver lia|].
  destruct (Z.leb_spec 63 E); [naive_solver lia|].
  destruct (Z.leb_spec (64 - E) S'); [naive_solver lia|].
  destruct (Z.leb_spec 64 (E + S')); [naive_solver lia|].
  split; [|done]. intros _. exists E, S'. repeat split; lia.
Qed.

Lemma js_in_range_spec n max z :
  js_in_range n max = Some z <-> n = JsInt z /\ 0 <= z <= max.
Proof.
  unfold js_in_range. destruct n as [x|x]; [|naive_solver].
  destruct (Z.ltb_spec x 0); [naive_solver lia|].
  destruct (Z.ltb_spec max x); [naive_solver lia|]. naive_solver lia.
Qed.

(** The KID as a sum of fields, and the exact domain of the encoder. *)
Lemma encodeMlsKid_spec epoch index c kid :
  encodeMlsKid epoch index c = Ok kid <->
  exists E S' e i, nEpochBits c = JsInt E /\ nIndexBits c = JsInt S' /\
    1 <= E < 63 /\ 1 <= S' < 64 - E /\
    epoch = JsInt e /\ index = JsInt i /\ 0 <= e < 2 ^ E /\ 0 <= i < 2 ^ S' /\
    0 <= contextId c < 2 ^ (64 - E - S') /\
    kid = contextId c * 2 ^ (E + S') + i * 2 ^ E + e.
Proof.
  unfold encodeMlsKid. destruct (validateMlsBitRange _ _) as [[]|] eqn:HV.
  2:{ split; [done|]. intros (E & S' & _ & _ & HE & HS & ? & ? & _).
      assert (validateMlsBitRange (nEpochBits c) (nIndexBits c) = Ok tt)
        by (apply validateMlsBitRange_spec; by exists E, S'). congruence. }
  apply validateMlsBitRange_spec in HV as (E & S' & HE & HS & HEr & HSr).
  cbn [mbind result_bind]. rewrite HE, HS. cbn [js_floor]. rewrite !Z.shiftl_1_l.
  destruct (js_in_range epoch _) as [e|] eqn:He.
  2:{ split; [done|]. intros (E2 & S2 & e & i & [= <-] & [= <-] & _ & _ & -> & _ & Hr & _).
      rewrite (proj2 (js_in_range_spec (JsInt e) (2 ^ E - 1) e)) in He by (split; [done|lia]).
      done. }
  apply js_in_range_spec in He as [-> He].
  destruct (js_in_range index _) as [i|] eqn:Hi.
  2:{ split; [done|]. intros (E2 & S2 & e2 & i & [= <-] & [= <-] & _ & _ & _ & -> & _ & Hr & _).
      rewrite (proj2 (js_in_range_spec (JsInt i) (2 ^ S' - 1) i)) in Hi by (split; [done|lia]).
      done. }
  apply js_in_range_spec in Hi as [-> Hi].
  assert (Z.lor (Z.lor (Z.shiftl (contextId c) (E + S')) (Z.shiftl i E)) e =
          contextId c * 2 ^ (E + S') + i * 2 ^ E + e) as Hk.
  { replace (Z.shiftl (contextId c) (E + S')) with (Z.shiftl (Z.shiftl (contextId c) S') E)
      by (rewrite Z.shiftl_shiftl by lia; f_equal; lia).
    rewrite <- Z.shiftl_lor, (lor_shiftl_add (contextId c) i), lor_shiftl_add by lia.
    rewrite Z.pow_add_r by lia. lia. }
  rewrite Hk. destruct (Z.ltb_spec (contextId c) 0); cbn [orb].
  { split; [done|]. intros (?&?&?&?&[= <-]&[= <-]&?). lia. }
  destruct (Z.ltb_spec (2 ^ (64 - E - S') - 1) (contextId c)).
  { split; [done|]. intros (?&?&?&?&[= <-]&[= <-]&?). lia. }
  split.
  - intros <-%Ok_inj. exists E, S', e, i. repeat split; try done; lia.
  - intros (E2 & S2 & e2 & i2 & [= <-] & [= <-] & _ & _ & [= <-] & [= <-] & _ & _ & _ & ->).
    done.
Qed.

(** Reading the fields back, up to the rounding of [Number(bigint)]. *)
Lemma decodeMlsKid_fields c E S' e i :
  nEpochBits c = JsInt E -> nIndexBits c = JsInt S' -> 1 <= E < 63 -> 1 <= S' < 64 - E ->
  0 <= e < 2 ^ E -> 0 <= i < 2 ^ S' -> 0 <= contextId c < 2 ^ (64 - E - S') ->
  decodeMlsKid (contextId c * 2 ^ (E + S') + i * 2 ^ E + e) c =
    Ok (f64_round e, f64_round i, contextId c).
Proof.
  intros HE HS HEr HSr He Hi Hc. unfold decodeMlsKid.
  rewrite (proj2 (validateMlsBitRange_spec _ _)) by (exists E, S'; done).
  cbn [mbind result_bind]. rewrite HE, HS. cbn [js_floor].
  set (x := contextId c) in *. set (k := x * 2 ^ (E + S') + i * 2 ^ E + e).
  assert (0 < 2 ^ E) by (apply Z.pow_pos_nonneg; lia).
  assert (0 < 2 ^ S') by (apply Z.pow_pos_nonneg; lia).
  assert (2 ^ (E + S') = 2 ^ S' * 2 ^ E) as Hp by (rewrite <- Z.pow_add_r by lia; f_equal; lia).
  assert (k = (x * 2 ^ S' + i) * 2 ^ E + e) as Hk by (unfold k; rewrite Hp; lia).
  assert (0 <= k < 2 ^ 64) as Hr.
  { split; [unfold k; nia|]. replace (2 ^ 64) with (2 ^ (64 - E - S') * 2 ^ S' * 2 ^ E)
      by (rewrite <- !Z.pow_add_r by lia; f_equal; lia).
    assert (x * 2 ^ S' + i + 1 <= 2 ^ (64 - E - S') * 2 ^ S') by nia. rewrite Hk. nia. }
  destruct (Z.ltb_spec k 0); [lia|]. destruct (Z.ltb_spec 0xffffffffffffffff k); [lia|].
  cbn [orb]. rewrite !land_ones_mod, !Z.shiftr_div_pow2 by lia.
  assert (k / 2 ^ E = x * 2 ^ S' + i) as Hd
    by (rewrite Hk, Z.div_add_l, Z.div_small by lia; lia).
  assert (k / 2 ^ (E + S') = x) as Hx.
  { rewrite Hp, (Z.mul_comm (2 ^ S')), <- Z.div_div, Hd, Z.div_add_l, Z.div_small by lia. lia. }
  assert (k mod 2 ^ E = e) as Hm
    by (rewrite Hk, Z.add_comm, Z.mod_add, Z.mod_small by lia; done).
  rewrite Hx, Hm, Hd, Z.add_comm, Z.mod_add, Z.mod_small by lia. done.
Qed.

#[export] Instance mls_codec_laws c : KidCodecLaws (mls_codec c).
Proof.
  split; cbn [encode decode mls_codec].
  - intros e p kid H. destruct (encodeMlsKid _ _ _) as [big|] eqn:HE; [|done].
    cbn [mbind result_bind] in H. destruct (Z.ltb_spec 0xffffffff big); [done|].
    apply Ok_inj in H. subst kid.
    apply encodeMlsKid_spec in HE as
      (E & S' & e' & i' & _ & _ & ? & ? & [= ->] & [= ->] & He & Hi & Hc & ->).
    assert (0 < 2 ^ E) by (apply Z.pow_pos_nonneg; lia).
    assert (0 < 2 ^ (E + S')) by (apply Z.pow_pos_nonneg; lia).
    rewrite f64_round_small by lia. split; [|lia]. split; [nia|lia].
  - intros e p kid H. destruct (encodeMlsKid _ _ _) as [big|] eqn:HE; [|done].
    cbn [mbind result_bind] in H. destruct (Z.ltb_spec 0xffffffff big); [done|].
    apply Ok_inj in H. subst kid.
    apply encodeMlsKid_spec in HE as
      (E & S' & e' & i' & HE & HS & HEr & HSr & [= ->] & [= ->] & He & Hi & Hc & ->).
    assert (0 < 2 ^ E) by (apply Z.pow_pos_nonneg; lia).
    assert (0 < 2 ^ (E + S')) by (apply Z.pow_pos_nonneg; lia).
    rewrite (f64_round_small (_ + _)) by lia.
    rewrite (decodeMlsKid_fields _ E S') by done. cbn [mbind result_bind mret result_ret].
    rewrite !f64_round_small; [done|nia|nia].
  - intros kid e p H. unfold decodeMlsKid in H.
    destruct (validateMlsBitRange _ _) as [[]|] eqn:HV; [|done].
    apply validateMlsBitRange_spec in HV as (E & S' & HE & HS & HEr & HSr).
    cbn [mbind result_bind] in H. rewrite HE, HS in H. cbn [js_floor] in H.
    case_match; [done|]. cbn [mbind result_bind mret result_ret] in H.
    injection H as <- <-. rewrite !land_ones_mod by lia.
    split; apply f64_round_nonneg, Z.mod_pos_bound, Z.pow_pos_nonneg; lia.
Qed.

Lemma mls_kid_bound E S' x i e :
  1 <= E < 63 -> 1 <= S' < 64 - E -> 0 <= e < 2 ^ E -> 0 <= i < 2 ^ S' ->
  0 <= x < 2 ^ (64 - E - S') ->
  0 <= x * 2 ^ (E + S') + i * 2 ^ E + e < 2 ^ 64.
Proof.
  intros HE HS He Hi Hx.
  assert (0 < 2 ^ E) by (apply Z.pow_pos_nonneg; lia).
  assert (0 < 2 ^ S') by (apply Z.pow_pos_nonneg; lia).
  assert (2 ^ (E + S') = 2 ^ S' * 2 ^ E) as Hp by (rewrite <- Z.pow_add_r by lia; f_equal; lia).
  replace (2 ^ 64) with (2 ^ (64 - E - S') * 2 ^ S' * 2 ^ E)
    by (rewrite <- !Z.pow_add_r by lia; f_equal; lia).
  rewrite Hp. assert (x * 2 ^ S' + i + 1 <= 2 ^ (64 - E - S') * 2 ^ S') by nia. nia.
Qed.

Lemma makeKidCodec_laws fmt cfg c : makeKidCodec fmt cfg = Ok c -> KidCodecLaws c.
Proof.
  unfold makeKidCodec. destruct (default fixed fmt).
  - intros <-%Ok_inj. apply _.
  - destruct cfg as [cfg|]; [|done]. destruct (validateMlsBitRange _ _) as [[]|]; [|done].
    intros <-%Ok_inj. apply _.
Qed.

(** ** Properties *)

(** Fixed KIDs: on 16-bit inputs [makeKid] is [epoch * 2^16 + peerIndex] in spite of the signed
    32-bit operators, [splitKid] inverts it, and every other input throws a [RangeError]. *)
Theorem fixed_kid_roundtrip (epoch peerIndex : jsnum) :
  match makeKid epoch peerIndex with
  | Ok kid => exists e p, epoch = JsInt e /\ peerIndex = JsInt p /\ 0 <= e <= 0xffff /\
      0 <= p <= 0xffff /\ kid = e * 2 ^ 16 + p /\ 0 <= kid < 2 ^ 32 /\ splitKid kid = (e, p)
  | Throw err => (exists m, err = RangeError m) /\
      forall e p, epoch = JsInt e -> peerIndex = JsInt p -> ~ (0 <= e <= 0xffff /\ 0 <= p <= 0xffff)
  end.
Proof.
  destruct (makeKid epoch peerIndex) as [kid|err] eqn:H.
  - destruct (makeKid_inv _ _ _ H) as (e & p & -> & -> & He & Hp). exists e, p.
    rewrite makeKid_value in H by done. apply Ok_inj in H. subst kid.
    repeat split; try lia. rewrite splitKid_value, Z.mod_small, Z.div_add_l by lia.
    rewrite (Z.div_small p), (Z.add_comm _ p), Z.mod_add, Z.mod_small by lia. f_equal. lia.
  - split.
    + unfold makeKid in H. repeat case_match; naive_solver.
    + intros e p -> -> [He Hp]. by rewrite makeKid_value in H.
Qed.

(** [splitKid] only sees the low 32 bits of a KID, while [parseHeader] accepts KIDs up to
    2^53: a received header with a five-byte KID is not rejected but taken for the sender whose
    32-bit KID it ends with. *)
Theorem splitKid_aliases (kid j : Z) :
  splitKid (kid + j * 2 ^ 32) = splitKid kid /\
  exists buf h, parseHeader buf = Ok h /\ 2 ^ 32 <= Header.kid h /\
    splitKid (Header.kid h) = splitKid 65539.
Proof.
  split.
  - rewrite !splitKid_value, Z.mod_add by lia.
    replace (kid + j * 2 ^ 32) with (kid + (j * 2 ^ 16) * 2 ^ 16) by lia.
    by rewrite Z.mod_add by lia.
  - exists (map z2b [0xC8; 1; 0; 1; 0; 3; 0]). eexists. split; [vm_compute; reflexivity|].
    by vm_compute.
Qed.

(** MLS Key IDs: for a valid configuration, exactly the in-range (epoch, index, contextId)
    encode, the KID is their fields side by side within 64 bits, and decoding gives them back
    (epoch and index as doubles, so exactly when the double holds them). *)
Theorem mls_kid_roundtrip (e i : Z) (c : MlsKidConfig) (kid : Z) :
  encodeMlsKid (JsInt e) (JsInt i) c = Ok kid ->
  0 <= kid < 2 ^ 64 /\
  decodeMlsKid kid c = Ok (f64_round e, f64_round i, contextId c) /\
  (e < 2 ^ 53 -> i < 2 ^ 53 -> decodeMlsKid kid c = Ok (e, i, contextId c)).
Proof.
  intros (E & S' & e' & i' & HE & HS & HEr & HSr & [= <-] & [= <-] & He & Hi & Hc & ->)
    %encodeMlsKid_spec.
  rewrite (decodeMlsKid_fields _ E S') by done. split; [by apply mls_kid_bound|].
  split; [done|]. intros. by rewrite !f64_round_small.
Qed.

Definition demo_mls_config : MlsKidConfig := mkMlsKidConfig (JsInt 8) (JsInt 6) 1.

Theorem mls_kid_roundtrip_witness :
  encodeMlsKid (JsInt 5) (JsInt 3) demo_mls_config = Ok 17157 /\
  decodeMlsKid 17157 demo_mls_config = Ok (5, 3, 1).
Proof.
  split; [reflexivity|].
  apply (mls_kid_roundtrip 5 3 demo_mls_config 17157); [reflexivity|lia|lia].
Defined.

(** Every codec that [makeKidCodec] builds keeps the promise the frame pipeline relies on:
    encoded KIDs fit 32 bits and decode to the epoch and peer index they were made from, and what
    it decodes is non-negative. *)
Theorem makeKidCodec_sound fmt cfg c :
  makeKidCodec fmt cfg = Ok c ->
  (forall e p kid, encode c e p = Ok kid ->
     0 <= kid < 2 ^ 32 /\ 0 <= e /\ 0 <= p /\ decode c kid = Ok (e, p)) /\
  (forall kid e p, decode c kid = Ok (e, p) -> 0 <= e /\ 0 <= p).
Proof.
  intros Hl%makeKidCodec_laws. split; [|apply codec_decode_nonneg].
  intros e p kid H. destruct (codec_range _ _ _ H) as (? & ? & ?).
  eauto using codec_roundtrip.
Qed.

Theorem makeKidCodec_sound_witness :
  makeKidCodec (Some mls) (Some demo_mls_config) = Ok (mls_codec demo_mls_config) /\
  0 <= 17157 < 2 ^ 32 /\ decode (mls_codec demo_mls_config) 17157 = Ok (5, 3).
Proof.
  split; [reflexivity|].
  pose proof (proj1 (makeKidCodec_sound (Some mls) (Some demo_mls_config) _ eq_refl) 5 3 17157
                eq_refl) as H. tauto.
Defined.
