(* ===== verification/PeerMap.v ===== *)
(** * PeerMap: the peer_index_map of an epoch announcement (src/ratchet-ids.ts, lines 82-121 and
    181-190)

    The object [Record<string, PeerIndex>] is the list of its own enumerable entries.
    [validatePeerIndexMap] takes them in the order of [Object.keys]; its verdict does not depend
    on that order, so the properties speak of every permutation of the entries. *)
From Stdlib Require Strings.String.
From stdpp Require Import sorting.
From S2P Require Import Prelude Errors Internal.
#[local] Open Scope Z_scope.

Inductive PeerIndexMapValidation : Type :=
| valid
| invalid (reason : string).

(** The loop over the keys: the set of values seen, or the early return. *)
Fixpoint validate_loop (n : Z) (seen : list Z) (values : list jsnum)
    : PeerIndexMapValidation + list Z :=
  match values with
  | [] => inr seen
  | v :: values =>
      match v with
      | JsFrac _ => inl (invalid "bad_value")
      | JsInt v =>
          if (v <? 0) || (n <=? v) then inl (invalid "bad_value")
          else if bool_decide (v ∈ seen) then inl (invalid "duplicate_index")
          else validate_loop n (seen ++ [v]) values
      end
  end.

Definition validatePeerIndexMap (map : list (string * jsnum)) : PeerIndexMapValidation :=
  if (length map =? 0)%nat then invalid "empty" else
  let n := Z.of_nat (length map) in
  match validate_loop n [] map.*2 with
  | inl early => early
  | inr seen => if Z.of_nat (length seen) =? n then valid else invalid "gap_or_out_of_range"
  end.

(** [Array.prototype.sort] without a comparator orders strings by code unit. As for [textEncode] (Internal),
    a character of a string stands for one code unit below 256, so the two orders are the same. *)
Definition string_le (a b : string) : Prop := Is_true (String.leb a b).

#[export] Instance string_le_dec a b : Decision (string_le a b).
Proof. unfold string_le. apply _. Defined.

(** [out[k] = i]. A number assigned to [__proto__] of an ordinary object is ignored. *)
Definition record_set (out : OMap string jsnum) (k : string) (i : Z) : OMap string jsnum :=
  if decide (k = "__proto__"%string) then out else <[k := JsInt i]> out.

Fixpoint enumerate_loop (i : Z) (sorted : list string) (out : OMap string jsnum)
    : OMap string jsnum :=
  match sorted with
  | [] => out
  | k :: sorted => enumerate_loop (i + 1) sorted (record_set out k i)
  end.

Definition buildPeerIndexMap (peerIds : list string) : list (string * jsnum) :=
  entries (enumerate_loop 0 (merge_sort string_le peerIds) ∅).

(** ** Lemmas: validation *)

Lemma validate_loop_inr n seen values seen' :
  validate_loop n seen values = inr seen' <->
  exists zs, values = JsInt <$> zs /\ seen' = seen ++ zs /\
    (forall z, z ∈ zs -> 0 <= z < n) /\ NoDup zs /\ (forall z, z ∈ zs -> z ∉ seen).
Proof.
  revert seen; induction values as [|v values IH]; intros seen; simpl.
  - split.
    + intros [= <-]. exists []. rewrite app_nil_r. repeat split; try constructor; set_solver.
    + intros ([|] & ? & -> & _); simplify_eq/=. by rewrite app_nil_r.
  - destruct v as [v|f]; [|split; [done|]; intros ([|] & ? & _); simplify_eq/=].
    destruct (Z.ltb_spec v 0); cbn [orb].
    { split; [done|]. intros ([|z zs] & ? & _ & Hr & _); simplify_eq/=.
      specialize (Hr z). set_solver by lia. }
    destruct (Z.leb_spec n v).
    { split; [done|]. intros ([|z zs] & ? & _ & Hr & _); simplify_eq/=.
      specialize (Hr z). set_solver by lia. }
    case_bool_decide as Hin.
    { split; [done|]. intros ([|z zs] & ? & _ & _ & _ & Hs); simplify_eq/=.
      destruct (Hs z); set_solver. }
    rewrite IH. split.
    + intros (zs & -> & -> & Hr & Hnd & Hs). exists (v :: zs).
      rewrite <- app_assoc. split_and!; [done|done|set_solver by lia| |].
      * constructor; [|done]. intros Hv. destruct (Hs v Hv). set_solver.
      * intros z [->|Hz]%elem_of_cons; [done|]. specialize (Hs z Hz). set_solver.
    + intros ([|z zs] & ? & -> & Hr & Hnd & Hs); simplify_eq/=. inversion_clear Hnd.
      exists zs. rewrite <- app_assoc. split_and!; try done; set_solver.
Qed.

Lemma validate_loop_reason n seen values e :
  validate_loop n seen values = inl e -> e = invalid "bad_value" \/ e = invalid "duplicate_index".
Proof.
  revert seen; induction values as [|[v|f] values IH]; intros seen; simpl; [done| |naive_solver].
  repeat case_match; naive_solver.
Qed.

Lemma validate_valid_iff map :
  validatePeerIndexMap map = valid <->
  map <> [] /\ map.*2 ≡ₚ JsInt <$> seqZ 0 (Z.of_nat (length map)).
Proof.
  unfold validatePeerIndexMap. destruct map as [|e map]; [by simpl; naive_solver|].
  set (m := e :: map). assert (length m <> 0)%nat as Hl by done.
  rewrite (proj2 (Nat.eqb_neq _ _)) by done.
  assert (m <> []) as Hm by done. clearbody m. clear e map.
  destruct (validate_loop _ _ _) as [r|seen] eqn:E.
  - split.
    + intros ->. by apply validate_loop_reason in E as [|].
    + intros [_ HP]. exfalso.
      apply Permutation_map_inv in HP as (zs & Hz & HP).
      assert (validate_loop (Z.of_nat (length m)) [] m.*2 = inr ([] ++ zs)) as E'; [|congruence].
      apply validate_loop_inr. exists zs. split_and!; try done.
      * intros z Hin. rewrite <- HP in Hin. apply elem_of_seqZ in Hin. lia.
      * rewrite <- HP. apply NoDup_seqZ.
      * set_solver.
  - apply validate_loop_inr in E as (zs & Hz & -> & Hr & Hnd & _). simpl.
    assert (length zs = length m) as Hlz.
    { rewrite <- (length_fmap JsInt zs), <- Hz. by rewrite length_fmap. }
    rewrite Hlz, Z.eqb_refl. split; [|done]. intros _. split; [done|].
    rewrite Hz, <- Hlz. apply Permutation_map, NoDup_bounded_Permutation; [done|].
    intros x Hx. rewrite Hlz. auto.
Qed.

(** ** Lemmas: the canonical assignment *)

#[export] Instance string_le_total : Total string_le.
Proof.
  intros a b. unfold string_le. rewrite !Is_true_true. apply String.leb_total.
Qed.

#[export] Instance string_le_antisymm : AntiSymm (=) string_le.
Proof. intros a b. unfold string_le. rewrite !Is_true_true. apply String.leb_antisym. Qed.

Lemma ascii_compare_spec a b :
  Ascii.compare a b = (Ascii.N_of_ascii a ?= Ascii.N_of_ascii b)%N.
Proof. reflexivity. Qed.

#[export] Instance string_le_trans : Transitive string_le.
Proof.
  intros a b c. unfold string_le, String.leb. revert b c.
  induction a as [|x a IH]; intros [|y b] [|z c]; simpl; try done.
  rewrite !ascii_compare_spec. intros H1 H2.
  destruct (N.compare_spec (Ascii.N_of_ascii x) (Ascii.N_of_ascii y)) as [Exy|Lxy|];
    [| |done]; destruct (N.compare_spec (Ascii.N_of_ascii y) (Ascii.N_of_ascii z)) as [Eyz|Lyz|];
    try done.
  - rewrite Exy, Eyz, N.compare_refl. eauto.
  - by rewrite (proj2 (N.compare_lt_iff _ _)) by lia.
  - by rewrite (proj2 (N.compare_lt_iff _ _)) by lia.
  - by rewrite (proj2 (N.compare_lt_iff _ _)) by lia.
Qed.

(** Sorting forgets the order in which the peers are listed. *)
Lemma sort_Permutation ids ids' :
  ids ≡ₚ ids' -> merge_sort string_le ids = merge_sort string_le ids'.
Proof.
  intros HP. apply (StronglySorted_unique string_le).
  - apply StronglySorted_merge_sort; apply _.
  - apply StronglySorted_merge_sort; apply _.
  - by rewrite !merge_sort_Permutation.
Qed.

Lemma enumerate_loop_snoc i l k out :
  enumerate_loop i (l ++ [k]) out = record_set (enumerate_loop i l out) k (i + Z.of_nat (length l)).
Proof.
  revert i out; induction l as [|k' l IH]; intros i out; simpl.
  - by rewrite Z.add_0_r.
  - rewrite IH. f_equal. lia.
Qed.

Lemma record_set_keys out k i :
  omap_wf out ->
  omap_wf (record_set out k i) /\ omap_keys (record_set out k i) ⊆ omap_keys out ++ [k].
Proof.
  intros Hwf. unfold record_set. case_decide; [set_solver|].
  split; [by apply omap_insert_wf|].
  unfold omap_keys, insert, omap_insert; simpl. rewrite assoc_insert_keys.
  case_decide; set_solver.
Qed.

Lemma assoc_insert_fresh {V} (k : string) (v : V) l :
  k ∉ l.*1 -> assoc_insert k v l = l ++ [(k, v)].
Proof.
  induction l as [|[k' v'] l IH]; csimpl; intros Hk; [done|].
  rewrite decide_False by set_solver. by rewrite IH by set_solver.
Qed.

Lemma enumerate_loop_keys l :
  omap_wf (enumerate_loop 0 l ∅) /\ omap_keys (enumerate_loop 0 l ∅) ⊆ l.
Proof.
  induction l as [|k l IH] using rev_ind.
  { split; [constructor|set_solver]. }
  destruct IH as [Hwf Hk]. rewrite enumerate_loop_snoc.
  destruct (record_set_keys _ k (0 + Z.of_nat (length l)) Hwf) as [? ?].
  split; [done|set_solver].
Qed.

Lemma enumerate_loop_NoDup l :
  NoDup l -> "__proto__"%string ∉ l ->
  entries (enumerate_loop 0 l ∅) = zip l (JsInt <$> seqZ 0 (Z.of_nat (length l))).
Proof.
  induction l as [|k l IH] using rev_ind; [done|].
  intros (Hnd & Hd & _)%NoDup_app Hp. rewrite enumerate_loop_snoc. unfold record_set.
  rewrite decide_False by set_solver.
  unfold insert, omap_insert; simpl. rewrite IH by set_solver.
  assert (k ∉ l) as Hk by set_solver. clear IH.
  rewrite assoc_insert_fresh.
  - rewrite length_app, Nat2Z.inj_add, seqZ_app by lia.
    rewrite fmap_app, zip_with_app by (by rewrite length_fmap, length_seqZ; lia). done.
  - rewrite fst_zip by (rewrite length_fmap, length_seqZ; lia). done.
Qed.

Lemma assoc_lookup_elem {V} (k : string) (l : list (string * V)) v :
  assoc_lookup k l = Some v -> (k, v) ∈ l.
Proof.
  induction l as [|[k' v'] l IH]; simpl; [done|]. case_decide; set_solver.
Qed.

(** With a repeated identifier the last index handed out exceeds the number of keys. *)
Lemma enumerate_loop_dup l :
  l <> [] -> "__proto__"%string ∉ l ->
  (entries (enumerate_loop 0 l ∅)).*2
    ≡ₚ JsInt <$> seqZ 0 (Z.of_nat (length (entries (enumerate_loop 0 l ∅)))) ->
  NoDup l.
Proof.
  intros Hne Hp HP. set (out := enumerate_loop 0 l ∅) in *.
  destruct (enumerate_loop_keys l) as [Hwf Hk]. fold out in Hwf, Hk.
  assert (Z.of_nat (length l) - 1 < Z.of_nat (length (entries out))) as Hlast.
  { destruct l as [|k l _] using rev_ind; [done|]. subst out.
    rewrite enumerate_loop_snoc in HP |- *. unfold record_set in HP |- *.
    rewrite decide_False in HP |- * by set_solver.
    set (m := <[k := _]> _) in *.
    assert (m !! k = Some (JsInt (0 + Z.of_nat (length l)))) as Hm by apply jm_lookup_insert_eq.
    apply assoc_lookup_elem, (list_elem_of_fmap_2 snd) in Hm. cbn [snd] in Hm.
    assert (JsInt (0 + Z.of_nat (length l)) ∈ JsInt <$> seqZ 0 (Z.of_nat (length (entries m))))
      as Hm2 by (rewrite <- HP; exact Hm). clear Hm; rename Hm2 into Hm.
    apply list_elem_of_fmap in Hm as (z & [= <-] & Hz%elem_of_seqZ).
    rewrite length_app. change (length [k]) with 1%nat. lia. }
  assert (omap_keys out ≡ₚ l) as <-.
  { apply submseteq_length_Permutation; [apply NoDup_submseteq; set_solver|].
    unfold omap_keys. rewrite length_fmap. lia. }
  done.
Qed.

Lemma buildPeerIndexMap_NoDup ids :
  NoDup ids -> "__proto__"%string ∉ ids ->
  buildPeerIndexMap ids = zip (merge_sort string_le ids) (JsInt <$> seqZ 0 (Z.of_nat (length ids))).
Proof.
  intros Hnd Hp. unfold buildPeerIndexMap.
  pose proof (merge_sort_Permutation string_le ids) as HP.
  rewrite enumerate_loop_NoDup by (rewrite HP; done).
  by rewrite (Permutation_length HP).
Qed.

Lemma buildPeerIndexMap_keys ids :
  NoDup ids -> "__proto__"%string ∉ ids -> (buildPeerIndexMap ids).*1 ≡ₚ ids.
Proof.
  intros Hnd Hp. rewrite buildPeerIndexMap_NoDup by done.
  rewrite fst_zip, merge_sort_Permutation; [done|].
  rewrite length_fmap, length_seqZ, (Permutation_length (merge_sort_Permutation string_le ids)). lia.
Qed.

Lemma buildPeerIndexMap_valid ids :
  ids <> [] -> NoDup ids -> "__proto__"%string ∉ ids ->
  validatePeerIndexMap (buildPeerIndexMap ids) = valid.
Proof.
  intros Hne Hnd Hp. pose proof (merge_sort_Permutation string_le ids) as HP.
  rewrite validate_valid_iff, buildPeerIndexMap_NoDup by done. split.
  - intros E. apply (f_equal length) in E.
    rewrite length_zip, (Permutation_length HP), length_fmap, length_seqZ in E.
    rewrite Nat2Z.id, Nat.min_id in E. by apply nil_length_inv in E.
  - rewrite snd_zip, length_zip by (rewrite length_fmap, length_seqZ, (Permutation_length HP); lia).
    rewrite length_fmap, length_seqZ, (Permutation_length HP). by rewrite Nat2Z.id, Nat.min_id.
Qed.

Lemma valid_NoDup ids :
  "__proto__"%string ∉ ids -> validatePeerIndexMap (buildPeerIndexMap ids) = valid ->
  ids <> [] /\ NoDup ids.
Proof.
  intros Hp [Hne Hval]%validate_valid_iff. pose proof (merge_sort_Permutation string_le ids) as HP.
  assert (ids <> []) by (by intros ->). split; [done|].
  rewrite <- HP. apply enumerate_loop_dup; [|by rewrite HP|done].
  intros E. rewrite E in HP. by apply Permutation_nil in HP.
Qed.

(** ** Properties *)

(** [validatePeerIndexMap] accepts exactly the non-empty maps whose values enumerate
    0..N-1, whatever the key order; the reason 'gap_or_out_of_range' is never given. *)
Theorem validatePeerIndexMap_spec (m : list (string * jsnum)) :
  (forall m', m' ≡ₚ m ->
    (validatePeerIndexMap m' = valid <->
     m <> [] /\ m.*2 ≡ₚ JsInt <$> seqZ 0 (Z.of_nat (length m)))) /\
  validatePeerIndexMap m <> invalid "gap_or_out_of_range".
Proof.
  split.
  - intros m' HP. rewrite validate_valid_iff, (Permutation_length HP).
    rewrite (Permutation_map snd HP : m'.*2 ≡ₚ m.*2).
    assert (m' <> [] <-> m <> []) as ->; [|done].
    split; intros Hm ->; apply Hm; [by apply Permutation_nil|by apply Permutation_nil_r].
  - intros E. unfold validatePeerIndexMap in E.
    destruct (Nat.eqb_spec (length m) 0); [done|].
    destruct (validate_loop _ _ _) as [r|seen] eqn:El.
    + subst. by apply validate_loop_reason in El as [|].
    + apply validate_loop_inr in El as (zs & Hz & -> & _). simpl in E.
      assert (length zs = length m) as Hlz.
      { rewrite <- (length_fmap JsInt zs), <- Hz. by rewrite length_fmap. }
      by rewrite Hlz, Z.eqb_refl in E.
Qed.

(** [buildPeerIndexMap] depends only on the set of peers and numbers them in sorted order,
    and its result passes [validatePeerIndexMap] exactly when there is at least one peer and no
    identifier is listed twice. *)
Theorem buildPeerIndexMap_canonical (ids : list string) (Hp : "__proto__"%string ∉ ids) :
  (forall ids', ids' ≡ₚ ids -> buildPeerIndexMap ids' = buildPeerIndexMap ids) /\
  (NoDup ids ->
   buildPeerIndexMap ids =
     zip (merge_sort string_le ids) (JsInt <$> seqZ 0 (Z.of_nat (length ids)))) /\
  (validatePeerIndexMap (buildPeerIndexMap ids) = valid <-> ids <> [] /\ NoDup ids).
Proof.
  split_and!.
  - intros ids' HP. unfold buildPeerIndexMap. by rewrite (sort_Permutation _ _ HP).
  - intros Hnd. by apply buildPeerIndexMap_NoDup.
  - split; [by apply valid_NoDup|]. intros [Hne Hnd]. by apply buildPeerIndexMap_valid.
Qed.

Lemma buildPeerIndexMap_canonical_witness :
  validatePeerIndexMap (buildPeerIndexMap ["bob"; "alice"; "bob"]) <> valid.
Proof.
  assert ("__proto__"%string ∉ ["bob"; "alice"; "bob"]%string) as Hp by (vm_compute; set_solver).
  rewrite (proj2 (proj2 (buildPeerIndexMap_canonical _ Hp))).
  intros [_ Hnd]. inversion_clear Hnd. set_solver.
Defined.
