(* ===== verification/Replay.v ===== *)
(** * Replay: the in-memory sliding replay window (src/internal/replay.ts)

    [SlidingReplayWindow] keeps a [Set] and a FIFO queue of CTR values. The set is a list in
    insertion order, scanned with [ctBigintEqual] as in the source; [Set.add] and [Set.delete]
    compare exactly. A window size is an integer; 0 disables the window.

    The abstract window is the list of the last [windowSize] accepted CTRs: [receive_all] runs
    the check-then-accept protocol of the callers over a stream of frames, and
    [replay_stream_sound] shows that the two agree. *)
From S2P Require Import Prelude Errors Internal.

Record SlidingReplayWindow := mkReplay {
  seen : list Z;
  queue : list Z;
  windowSize : Z
}.

#[export] Instance eta_replay : Eta SlidingReplayWindow :=
  fun r => mkReplay (seen r) (queue r) (windowSize r).

Definition newReplayWindow (windowSize : Z) : SlidingReplayWindow :=
  {| seen := []; queue := []; windowSize := windowSize |}.

(** [for (const seen of this.seen) if (ctBigintEqual(seen, ctr)) ...] *)
Fixpoint seen_scan (l : list Z) (ctr : Z) : bool :=
  match l with
  | [] => false
  | s :: l => if ctBigintEqual s ctr then true else seen_scan l ctr
  end.

Definition set_add (ctr : Z) (l : list Z) : list Z :=
  if bool_decide (ctr ∈ l) then l else l ++ [ctr].

Definition set_delete (ctr : Z) (l : list Z) : list Z := filter (fun s => s <> ctr) l.

Definition check (w : SlidingReplayWindow) (ctr : Z) : bool :=
  if windowSize w =? 0 then true
  else negb (seen_scan (seen w) ctr).

Definition accept (w : SlidingReplayWindow) (ctr : Z) : SlidingReplayWindow :=
  if windowSize w =? 0 then w else
  if seen_scan (seen w) ctr then w else
  let w :=
    if windowSize w <=? Z.of_nat (length (queue w)) then
      match queue w with
      | oldest :: queue' => w <| queue := queue' |> <| seen ::= set_delete oldest |>
      | [] => w
      end
    else w in
  w <| seen ::= set_add ctr |> <| queue ::= fun q => q ++ [ctr] |>.

Definition clear (w : SlidingReplayWindow) : SlidingReplayWindow :=
  w <| seen := [] |> <| queue := [] |>.

(** ** The protocol of the callers *)

Definition is_ctr (c : Z) : Prop := 0 <= c < 2 ^ 64.

(** A frame whose CTR passes the check (and whose AEAD tag verifies) is accepted. *)
Definition receive (w : SlidingReplayWindow) (ctr : Z) : bool * SlidingReplayWindow :=
  if check w ctr then (true, accept w ctr) else (false, w).

(** The CTRs accepted from a stream, in order, and the window afterwards. *)
Fixpoint receive_all (w : SlidingReplayWindow) (cs : list Z) : list Z * SlidingReplayWindow :=
  match cs with
  | [] => ([], w)
  | c :: cs =>
      let '(ok, w) := receive w c in
      let '(acc, w) := receive_all w cs in
      (if ok then c :: acc else acc, w)
  end.

Definition lastn {A} (n : nat) (l : list A) : list A := drop (length l - n) l.

(** States the operations can reach from a new window. *)
Inductive reachable (size : Z) : SlidingReplayWindow -> Prop :=
| reach_new : reachable size (newReplayWindow size)
| reach_accept w c : reachable size w -> is_ctr c -> reachable size (accept w c)
| reach_clear w : reachable size w -> reachable size (clear w).

(** ** Lemmas *)

Lemma lastn_all {A} n (l : list A) : (length l <= n)%nat -> lastn n l = l.
Proof. intros H. unfold lastn. by replace (length l - n)%nat with 0%nat by lia. Qed.

Lemma length_lastn {A} n (l : list A) : length (lastn n l) = Nat.min n (length l).
Proof. unfold lastn. rewrite length_drop. lia. Qed.

Lemma tail_drop {A} k (l : list A) : tail (drop k l) = drop (S k) l.
Proof. revert k. induction l as [|x l IH]; intros [|k]; simpl; done || apply IH. Qed.

(** Appending one element to a window of size [n]. *)
Lemma lastn_snoc {A} n (l : list A) c :
  lastn (S n) (l ++ [c]) =
    (if (S n <=? length (lastn (S n) l))%nat then tail (lastn (S n) l) else lastn (S n) l) ++ [c].
Proof.
  rewrite length_lastn. unfold lastn. rewrite length_app. simpl length.
  destruct (Nat.leb_spec (S n) (Nat.min (S n) (length l))).
  - rewrite drop_app_le by lia. f_equal.
    rewrite tail_drop. f_equal. lia.
  - rewrite drop_app_le by lia. do 2 f_equal. lia.
Qed.

Lemma ctBigintEqual_ctr a b : is_ctr a -> is_ctr b -> ctBigintEqual a b = bool_decide (a = b).
Proof. apply ctBigintEqual_small. Qed.

Lemma is_ctr_b c : (0 <=? c) && (c <? 2 ^ 64) = true -> is_ctr c.
Proof. intros [?%Z.leb_le ?%Z.ltb_lt]%andb_true_iff. done. Qed.

#[local] Opaque is_ctr ctBigintEqual.

Lemma seen_scan_spec l c :
  Forall is_ctr l -> is_ctr c -> seen_scan l c = bool_decide (c ∈ l).
Proof.
  intros Hl Hc. induction Hl as [|x l Hx Hl IH]; cbn [seen_scan].
  { symmetry. apply bool_decide_eq_false_2, not_elem_of_nil. }
  rewrite IH, ctBigintEqual_ctr by done. clear.
  repeat case_bool_decide; set_solver.
Qed.

(** The invariant: the set and the queue hold the same CTRs, at most [windowSize] of them. *)
Record wf (w : SlidingReplayWindow) : Prop := mk_wf {
  wf_seen : seen w = queue w;
  wf_nodup : NoDup (queue w);
  wf_ctrs : Forall is_ctr (queue w);
  wf_length : Z.of_nat (length (queue w)) <= Z.max 0 (windowSize w)
}.

Lemma wf_new size : wf (newReplayWindow size).
Proof. split; simpl; [done|constructor|constructor|lia]. Qed.

Lemma wf_clear w : wf (clear w).
Proof. split; simpl; [done|constructor|constructor|lia]. Qed.

Lemma check_wf w c : wf w -> is_ctr c -> windowSize w <> 0 -> check w c = bool_decide (c ∉ queue w).
Proof.
  intros Hw Hc Hn. unfold check. rewrite (proj2 (Z.eqb_neq _ _)) by done.
  rewrite (wf_seen w Hw), seen_scan_spec by (done || apply Hw).
  repeat case_bool_decide; done.
Qed.

Lemma set_delete_head x l : x ∉ l -> set_delete x (x :: l) = l.
Proof. apply filter_ne_head. Qed.

Lemma set_add_fresh c l : c ∉ l -> set_add c l = l ++ [c].
Proof. intros H. unfold set_add. by rewrite bool_decide_eq_false_2. Qed.

(** What [accept] does to a well-formed window of positive size. *)
Lemma accept_queue w c :
  wf w -> is_ctr c -> 0 < windowSize w ->
  seen (accept w c) = queue (accept w c) /\ windowSize (accept w c) = windowSize w /\
  queue (accept w c) =
    if bool_decide (c ∈ queue w) then queue w
    else (if (Z.to_nat (windowSize w) <=? length (queue w))%nat then tail (queue w)
          else queue w) ++ [c].
Proof.
  intros [Hs Hnd Hc Hl] Hic Hn. destruct w as [s q n]; simpl in *; subst s.
  unfold accept; simpl. rewrite (proj2 (Z.eqb_neq _ _)) by lia.
  rewrite seen_scan_spec by done. case_bool_decide as Hin; [done|].
  destruct (Z.leb_spec n (Z.of_nat (length q))) as [Hle|Hle].
  - rewrite (proj2 (Nat.leb_le _ _)) by lia.
    destruct q as [|oldest q]; [simpl in Hle; lia|]; simpl.
    apply NoDup_cons in Hnd as [Ho Hnd].
    rewrite set_delete_head, set_add_fresh by set_solver. done.
  - rewrite (proj2 (Nat.leb_gt _ _)) by lia. simpl. by rewrite set_add_fresh.
Qed.

Lemma accept_wf w c : wf w -> is_ctr c -> 0 <= windowSize w -> wf (accept w c).
Proof.
  intros Hw Hc Hn. destruct (Z.eq_dec (windowSize w) 0) as [E|].
  { unfold accept. by rewrite E. }
  destruct (accept_queue w c) as (Hs & Hz & Hq); [done..|lia|].
  destruct Hw as [_ Hnd Hcs Hl].
  set (q := if (Z.to_nat (windowSize w) <=? length (queue w))%nat
            then tail (queue w) else queue w) in *.
  assert (q `sublist_of` queue w /\ Z.of_nat (length q) < windowSize w) as [Hsub Hlq].
  { subst q. destruct (Nat.leb_spec (Z.to_nat (windowSize w)) (length (queue w))).
    - destruct (queue w); simpl in *; [lia|]. split; [by constructor|lia].
    - split; [done|lia]. }
  split; [done|..]; rewrite ?Hz, Hq; case_bool_decide as Hin; try done.
  - apply NoDup_app. split_and!; [by eapply sublist_NoDup| |apply NoDup_singleton].
    intros x Hx ->%list_elem_of_singleton. by apply Hin, (elem_of_submseteq _ _ _ Hx), sublist_submseteq.
  - apply Forall_app. split; [|by constructor].
    apply Forall_forall. intros x Hx. rewrite Forall_forall in Hcs.
    apply Hcs, (elem_of_submseteq _ _ _ Hx), sublist_submseteq, Hsub.
  - rewrite length_app. simpl length. lia.
Qed.

Lemma reachable_wf size w :
  0 <= size -> reachable size w -> wf w /\ windowSize w = size.
Proof.
  intros Hs. induction 1 as [|w c Hr [Hw Hz] Hc|w Hr [Hw Hz]].
  - split; [apply wf_new|done].
  - split; [apply accept_wf; [done|done|lia]|].
    unfold accept. repeat case_match; done.
  - split; [apply wf_clear|done].
Qed.

(** One frame through the protocol, on a window that holds the last [S n] accepted CTRs. *)
Lemma receive_step n w acc c :
  wf w -> is_ctr c -> windowSize w = Z.of_nat (S n) -> queue w = lastn (S n) acc ->
  let '(ok, w') := receive w c in
  wf w' /\ windowSize w' = Z.of_nat (S n) /\ ok = bool_decide (c ∉ lastn (S n) acc) /\
  queue w' = lastn (S n) (if ok then acc ++ [c] else acc).
Proof.
  intros Hw Hc Hn Hq. unfold receive. rewrite check_wf, Hq by (done || lia).
  case_bool_decide as Hin; [|done].
  destruct (accept_queue w c) as (_ & Hz & Hq'); [done..|lia|].
  split_and!; [apply accept_wf; [done..|lia]|lia|done|].
  rewrite Hq', Hq, bool_decide_eq_false_2, Hn, Nat2Z.id, lastn_snoc by done. done.
Qed.

(** No two equal CTRs among any [n] consecutive elements. *)
Definition fresh_within (n : nat) (acc : list Z) : Prop :=
  forall i j c, acc !! i = Some c -> acc !! j = Some c -> (i < j)%nat -> (i + n < j)%nat.

Lemma fresh_within_snoc n acc c :
  fresh_within n acc -> c ∉ lastn n acc -> fresh_within n (acc ++ [c]).
Proof.
  intros Hf Hc i j c' Hi Hj Hij.
  apply lookup_app_Some in Hj as [Hj|[Hjl Hj]].
  - apply (Hf i j c'); [|done..]. rewrite lookup_app_l in Hi; [done|].
    apply lookup_lt_Some in Hj. lia.
  - apply list_lookup_singleton_Some in Hj as [Hj ->].
    rewrite lookup_app_l in Hi by lia.
    destruct (Nat.lt_ge_cases (i + n) j) as [|Hge]; [done|]. destruct Hc.
    apply list_elem_of_lookup. exists (i - (length acc - n))%nat.
    unfold lastn. rewrite lookup_drop. rewrite <- Hi. f_equal. lia.
Qed.

Lemma receive_all_lastn n cs w acc :
  wf w -> windowSize w = Z.of_nat (S n) -> queue w = lastn (S n) acc -> Forall is_ctr cs ->
  fresh_within (S n) acc ->
  let '(more, w') := receive_all w cs in
  wf w' /\ windowSize w' = Z.of_nat (S n) /\ queue w' = lastn (S n) (acc ++ more) /\
  fresh_within (S n) (acc ++ more).
Proof.
  intros Hw Hn Hq Hcs. revert w acc Hw Hn Hq.
  induction Hcs as [|c cs Hc Hcs IH]; intros w acc Hw Hn Hq Hf; simpl.
  { rewrite app_nil_r. done. }
  pose proof (receive_step n w acc c Hw Hc Hn Hq) as Hstep.
  destruct (receive w c) as [ok w1]. destruct Hstep as (Hw1 & Hn1 & Hok & Hq1).
  specialize (IH w1 _ Hw1 Hn1 Hq1). destruct (receive_all w1 cs) as [more w2].
  destruct ok.
  - symmetry in Hok. apply bool_decide_eq_true in Hok.
    rewrite <- app_assoc in IH. apply IH. by apply fresh_within_snoc.
  - apply IH. done.
Qed.

(** Every CTR of the stream is accepted once, or was in the window before. *)
Lemma receive_all_complete n cs w acc :
  wf w -> windowSize w = Z.of_nat (S n) -> queue w = lastn (S n) acc -> Forall is_ctr cs ->
  forall c, c ∈ cs -> c ∈ acc \/ c ∈ (receive_all w cs).1.
Proof.
  intros Hw Hn Hq Hcs. revert w acc Hw Hn Hq.
  induction Hcs as [|c cs Hc Hcs IH]; intros w acc Hw Hn Hq c' Hin; [by apply not_elem_of_nil in Hin|].
  cbn [receive_all]. pose proof (receive_step n w acc c Hw Hc Hn Hq) as Hstep.
  destruct (receive w c) as [ok w1]. destruct Hstep as (Hw1 & Hn1 & Hok & Hq1).
  specialize (IH w1 _ Hw1 Hn1 Hq1). destruct (receive_all w1 cs) as [more w2]. cbn [fst] in *.
  apply elem_of_cons in Hin as [->|Hin].
  - destruct ok; [right; by left|]. left. symmetry in Hok. apply bool_decide_eq_false in Hok.
    apply dec_stable in Hok. unfold lastn in Hok. by apply subseteq_drop in Hok.
  - destruct (IH c' Hin) as [Hacc|Hm]; [|destruct ok; [right; by right|by right]].
    destruct ok; [|by left]. apply elem_of_app in Hacc as [|Hc1]; [by left|].
    apply list_elem_of_singleton in Hc1 as ->. right. by left.
Qed.

(** ** Properties *)

(** Whatever accepts and clears it has seen, a window of size [size >= 0] holds each CTR
    once, in the set and in the queue alike, and never more than [size] of them; a window of
    size 0 lets every frame through. *)
Theorem replay_window_invariant (size : Z) (w : SlidingReplayWindow)
    (Hsize : 0 <= size) (Hw : reachable size w) :
  seen w = queue w /\ NoDup (queue w) /\ Z.of_nat (length (queue w)) <= size /\
  (size = 0 -> forall c, check w c = true) /\
  (0 < size -> forall c, is_ctr c -> check w c = bool_decide (c ∉ queue w)).
Proof.
  destruct (reachable_wf _ _ Hsize Hw) as [Hwf Hz].
  split_and!; [apply Hwf|apply Hwf| | |].
  - pose proof (wf_length w Hwf). lia.
  - intros -> c. unfold check. by rewrite Hz.
  - intros H c Hc. apply check_wf; [done..|lia].
Qed.

Lemma replay_window_invariant_witness :
  check (accept (accept (accept (newReplayWindow 2) 1) 2) 3) 1 = true /\
  check (accept (accept (accept (newReplayWindow 2) 1) 2) 3) 2 = false.
Proof.
  assert (reachable 2 (accept (accept (accept (newReplayWindow 2) 1) 2) 3)) as Hr.
  { repeat (apply reach_accept; [|by apply is_ctr_b]). apply reach_new. }
  destruct (replay_window_invariant 2 _ (Zle_bool_imp_le 0 2 eq_refl) Hr) as (_ & _ & _ & _ & Hc).
  rewrite !Hc by (done || by apply is_ctr_b). split; vm_compute; reflexivity.
Defined.

(** Over a stream of frames, the check-then-accept protocol refines the window of the last
    [n] accepted CTRs: a CTR is let through exactly when it is not among them, so no CTR is
    accepted twice within [n] acceptances; once evicted it is accepted again. *)
Theorem replay_stream_sound (n : nat) (cs : list Z) (c : Z)
    (Hcs : Forall is_ctr cs) (Hc : is_ctr c) :
  let '(acc, w) := receive_all (newReplayWindow (Z.of_nat (S n))) cs in
  fresh_within (S n) acc /\
  queue w = lastn (S n) acc /\
  (receive w c).1 = bool_decide (c ∉ lastn (S n) acc).
Proof.
  pose proof (receive_all_lastn n cs (newReplayWindow (Z.of_nat (S n))) []) as H.
  destruct (receive_all _ cs) as [acc w].
  destruct H as (Hw & Hz & Hq & Hf); [apply wf_new|done|done|done| |].
  { intros i j x Hi. by rewrite lookup_nil in Hi. }
  split_and!; [done|done|]. pose proof (receive_step n w acc c Hw Hc Hz Hq) as Hstep.
  destruct (receive w c) as [ok w']. apply Hstep.
Qed.

Lemma replay_stream_sound_witness :
  (receive_all (newReplayWindow 2) [7; 7; 8; 9; 7]).1 = [7; 8; 9; 7] /\
  fresh_within 2 [7; 8; 9; 7].
Proof.
  assert (Forall is_ctr [7; 7; 8; 9; 7]) as Hcs by (repeat constructor; by apply is_ctr_b).
  pose proof (replay_stream_sound 1 [7; 7; 8; 9; 7] 7 Hcs (is_ctr_b 7 eq_refl)) as H.
  replace (receive_all (newReplayWindow (Z.of_nat 2)) [7; 7; 8; 9; 7])
    with ([7; 8; 9; 7], mkReplay [9; 7] [9; 7] 2) in H by (vm_compute; reflexivity).
  split; [vm_compute; reflexivity|apply H].
Defined.
