(* ===== verification/Durable.v ===== *)
(** * Durable: the persisted replay guard (src/chat/durable-replay.ts)

    A [DurableReplayGuard] mirrors a per-key window of accepted CTRs, as decimal strings, in
    IndexedDB. [Idb] is the environment: which capabilities exist, which requests succeed at the
    moment, and what the databases hold. An operation runs until its last [await] has settled, so
    no other operation of the same realm interleaves with it; writes of another tab are changes of
    [store] between operations. Without interleaving a key is never in [hydrating] when another
    operation looks, so that map is left out; [persisting] is kept. Warnings are their one-time
    flags. [DurableAsync] has the same operations with their awaits, and [DurableAlone] shows that
    without overlap they are these. *)
From S2P Require Import Prelude StateLogic Errors Internal Replay.

Definition KEY_PREFIX : string := "sframe-replay".
Definition DEFAULT_WINDOW : Z := 1024.
Definition REPLAY_MEM_CACHE_CAP : nat := 256.

(** The value stored under a key; [pw_seen] is [None] when it is not an array. *)
Record PersistedWindow := mkPersisted {
  pw_v : Z;
  pw_seen : option (list string)
}.

Record MemWindow := mkMem {
  mem_set : list string;
  mem_order : list string
}.

Record Idb := mkIdb {
  idbAvailable : bool;
  locksAvailable : bool;
  opens : bool;
  reads : bool;
  writes : bool;
  deletes : bool;
  locks_granted : bool;
  store : gmap (string * string) PersistedWindow
}.

Record DurableReplayGuard := mkGuard {
  available : bool;
  namespace : string;
  window : Z;
  mem : OMap string MemWindow;
  persisting : gmap string Z;
  warnedPersistFail : bool;
  warnedReadFail : bool;
  dbPromise : option bool
}.

#[export] Instance eta_idb : Eta Idb := fun r =>
  mkIdb (idbAvailable r) (locksAvailable r) (opens r) (reads r) (writes r) (deletes r)
    (locks_granted r) (store r).
#[export] Instance eta_guard : Eta DurableReplayGuard := fun r =>
  mkGuard (available r) (namespace r) (window r) (mem r) (persisting r) (warnedPersistFail r)
    (warnedReadFail r) (dbPromise r).

(** Scan from the end, keeping values not yet seen; the accumulator is [out] already reversed. *)
Fixpoint dedup_loop (rev_arr : list string) (out : list string) : list string :=
  match rev_arr with
  | [] => out
  | v :: rest => if bool_decide (v ∈ out) then dedup_loop rest out else dedup_loop rest (v :: out)
  end.

Definition dedupKeepLast (arr : list string) : list string := dedup_loop (reverse arr) [].

(** [undefined] or a negative number: the default. Otherwise [Math.trunc]. *)
Definition resolveWindow (window : option jsnum) : Z :=
  match window with
  | None => DEFAULT_WINDOW
  | Some w => if js_floor w <? 0 then DEFAULT_WINDOW else js_floor w
  end.

(** [new DurableReplayGuard(opts)] *)
Definition newGuard (env : Idb) (namespace : string) (window : option jsnum)
    (requireAvailable : bool) : res DurableReplayGuard :=
  if bool_decide (namespace = ""%string)
  then Throw (GenericError "DurableReplayGuard: namespace is required") else
  let hasIdb := idbAvailable env in
  let hasLocks := locksAvailable env in
  let available := hasIdb && hasLocks in
  if negb available && requireAvailable
  then Throw (GenericError "DurableReplayGuard: unavailable")
  else Ok {| available := available; namespace := namespace; window := resolveWindow window;
             mem := ∅; persisting := ∅; warnedPersistFail := false; warnedReadFail := false;
             dbPromise := None |}.

(** Operations run over the guard and its environment. *)
Abbreviation DM := (M (DurableReplayGuard * Idb) js_error).
Definition gget {A} (f : DurableReplayGuard -> A) : DM A := gets (fun s => f s.1).
Definition eget {A} (f : Idb -> A) : DM A := gets (fun s => f s.2).
Definition gmodify (f : DurableReplayGuard -> DurableReplayGuard) : DM unit :=
  modify (fun s => (f s.1, s.2)).
Definition emodify (f : Idb -> Idb) : DM unit := modify (fun s => (s.1, f s.2)).

(** The first use opens the database; the promise, rejected or not, is kept. *)
Definition db : DM unit :=
  p ← gget dbPromise;
  ok ← match p with
       | Some ok => mret ok
       | None => ok ← eget opens; gmodify (fun g => g <| dbPromise := Some ok |>);; mret ok
       end;
  if ok : bool then mret tt else throw DomException.

Definition storeKey (g : DurableReplayGuard) (key : string) : string :=
  KEY_PREFIX +:+ "|" +:+ namespace g +:+ "|" +:+ key.

Definition idbRead (fullKey : string) : DM (option PersistedWindow) :=
  ok ← eget reads;
  if ok : bool then ns ← gget namespace; eget (fun e => store e !! (ns, fullKey))
  else throw DomException.

Definition idbWrite (fullKey : string) (value : PersistedWindow) : DM unit :=
  ok ← eget writes;
  if ok : bool then ns ← gget namespace; emodify (fun e => e <| store ::= <[(ns, fullKey) := value]> |>)
  else throw DomException.

Definition idbDeleteKey (fullKey : string) : DM unit :=
  ok ← eget deletes;
  if ok : bool then ns ← gget namespace; emodify (fun e => e <| store ::= delete (ns, fullKey) |>)
  else throw DomException.

(** [cur && cur.v === 1 && Array.isArray(cur.seen)] *)
Definition persisted_seen (cur : option PersistedWindow) : option (list string) :=
  match cur with
  | Some p => if pw_v p =? 1 then pw_seen p else None
  | None => None
  end.

(** The oldest evictable key of the cache. *)
Fixpoint evictable (just : string) (persisting : gmap string Z) (keys : list string)
    : option string :=
  match keys with
  | [] => None
  | key :: keys =>
      if decide (key = just) then evictable just persisting keys
      else match persisting !! key with
           | Some _ => evictable just persisting keys
           | None => Some key
           end
  end.

(** Each pass deletes an entry or stops, so the size of the cache bounds the passes. *)
Fixpoint trim_cache_loop (fuel : nat) (just : string) (persisting : gmap string Z)
    (m : OMap string MemWindow) : OMap string MemWindow :=
  match fuel with
  | O => m
  | S fuel =>
      if (omap_size m <=? REPLAY_MEM_CACHE_CAP)%nat then m else
      match evictable just persisting (omap_keys m) with
      | None => m
      | Some key => trim_cache_loop fuel just persisting (delete key m)
      end
  end.

Definition trimMemCache (justHydratedKey : string) : DM unit :=
  gmodify (fun g =>
    g <| mem ::= fun m => trim_cache_loop (omap_size m) justHydratedKey (persisting g) m |>).

Definition hydrate (key : string) : DM MemWindow :=
  fullKey ← gget (fun g => storeKey g key);
  cached ← gget (fun g => mem g !! fullKey);
  match cached with
  | Some win => mret win
  | None =>
      n ← gget window;
      order ← catch
        (db;; persisted ← idbRead fullKey;
         mret (match persisted_seen persisted with
               | Some seen => lastn (Z.to_nat n) seen
               | None => []
               end))
        (fun _ => gmodify (fun g => g <| warnedReadFail := true |>);; mret []);
      let win := {| mem_set := order; mem_order := order |} in
      gmodify (fun g => g <| mem ::= <[fullKey := win]> |>);;
      trimMemCache fullKey;;
      mret win
  end.

Definition check (key : string) (ctr : Z) : DM bool :=
  off ← gget (fun g => negb (available g) || (window g =? 0));
  if off : bool then mret true else
  win ← hydrate key;
  mret (negb (bool_decide (pretty ctr ∈ mem_set win))).

(** Drop the oldest CTRs until the window is within bound. *)
Fixpoint trim_loop (over : nat) (win : MemWindow) : MemWindow :=
  match over with
  | O => win
  | S over =>
      match mem_order win with
      | evicted :: order =>
          trim_loop over {| mem_set := filter (fun s => s <> evicted) (mem_set win);
                            mem_order := order |}
      | [] => win
      end
  end.

Definition trim (n : Z) (win : MemWindow) : MemWindow :=
  trim_loop (length (mem_order win) - Z.to_nat n) win.

Definition persistMerged (fullKey : string) : DM unit :=
  granted ← eget locks_granted;
  if negb granted then throw DomException else
  db;;
  persistedSeen ← catch
    (cur ← idbRead fullKey; mret (default [] (persisted_seen cur)))
    (fun _ => mret []);
  n ← gget window;
  win ← gget (fun g => default (mkMem [] []) (mem g !! fullKey));
  let merged := lastn (Z.to_nat n) (dedupKeepLast (persistedSeen ++ mem_order win)) in
  gmodify (fun g => g <| mem ::= <[fullKey := {| mem_set := merged; mem_order := merged |}]> |>);;
  idbWrite fullKey {| pw_v := 1; pw_seen := Some merged |}.

Definition warnPersistFail : DM unit := gmodify (fun g => g <| warnedPersistFail := true |>).

Definition releasePersisting (key : string) : DM unit :=
  gmodify (fun g =>
    let next := default 0 (persisting g !! key) - 1 in
    if next <=? 0 then g <| persisting ::= delete key |>
    else g <| persisting ::= <[key := next]> |>).

Definition accept (key : string) (ctr : Z) : DM unit :=
  off ← gget (fun g => negb (available g) || (window g =? 0));
  if off : bool then mret tt else
  fullKey ← gget (fun g => storeKey g key);
  win ← hydrate key;
  let ctrStr := pretty ctr in
  if bool_decide (ctrStr ∈ mem_set win) then mret tt else
  gmodify (fun g => g <| persisting ::= fun p => <[fullKey := default 0 (p !! fullKey) + 1]> p |>);;
  n ← gget window;
  let win := trim n {| mem_set := mem_set win ++ [ctrStr]; mem_order := mem_order win ++ [ctrStr] |} in
  gmodify (fun g => g <| mem ::= <[fullKey := win]> |>);;
  catch (persistMerged fullKey) (fun _ => warnPersistFail);;
  releasePersisting fullKey.

Definition clear (key : string) : DM unit :=
  off ← gget (fun g => negb (available g) || (window g =? 0));
  if off : bool then mret tt else
  fullKey ← gget (fun g => storeKey g key);
  catch (db;; idbDeleteKey fullKey) (fun _ => mret tt);;
  gmodify (fun g => g <| mem ::= delete fullKey |> <| persisting ::= delete fullKey |>).

(** ** Lemmas: merging windows *)

(** ** No operation of the guard throws *)

Lemma returns_gmodify f : returns (gmodify f).
Proof. apply returns_modify. Qed.
#[export] Hint Resolve returns_gmodify : returns.

Lemma returns_hydrate k : returns (hydrate k).
Proof. unfold hydrate, gget, trimMemCache. returns_auto. Qed.
#[export] Hint Resolve returns_hydrate : returns.

Lemma returns_durable_check k c : returns (check k c).
Proof. unfold check, gget. returns_auto. Qed.

Lemma returns_durable_accept k c : returns (accept k c).
Proof. unfold accept, gget, releasePersisting, warnPersistFail. returns_auto. Qed.

Lemma returns_durable_clear k : returns (clear k).
Proof. unfold clear, gget. returns_auto. Qed.
#[export] Hint Resolve returns_durable_check returns_durable_accept returns_durable_clear : returns.

Lemma dedup_loop_elem r out x : x ∈ dedup_loop r out <-> x ∈ r \/ x ∈ out.
Proof.
  revert out; induction r as [|v r IH]; intros out; simpl; [set_solver|].
  case_bool_decide; rewrite IH; set_solver.
Qed.

Lemma dedup_loop_NoDup r out : NoDup out -> NoDup (dedup_loop r out).
Proof.
  revert out; induction r as [|v r IH]; intros out Hnd; simpl; [done|].
  case_bool_decide; apply IH; [done|by constructor].
Qed.

Lemma dedup_loop_fresh r out : NoDup (r ++ out) -> dedup_loop r out = reverse r ++ out.
Proof.
  revert out; induction r as [|v r IH]; intros out Hnd; simpl; [done|].
  simpl in Hnd. apply NoDup_cons in Hnd as [Hv Hnd].
  rewrite bool_decide_eq_false_2 by set_solver. rewrite IH.
  - by rewrite reverse_cons, <- app_assoc.
  - apply NoDup_app in Hnd as (? & ? & ?). apply NoDup_app. split_and!; [done| |].
    + intros x Hx [->|]%elem_of_cons; set_solver.
    + constructor; set_solver.
Qed.

Lemma dedup_loop_suffix r out : exists pre,
  dedup_loop r out = pre ++ out /\ (forall x, x ∈ pre -> x ∈ r /\ x ∉ out).
Proof.
  revert out; induction r as [|v r IH]; intros out; simpl.
  { exists []. set_solver. }
  case_bool_decide as Hv.
  - destruct (IH out) as (pre & -> & Hp). exists pre. set_solver.
  - destruct (IH (v :: out)) as (pre & -> & Hp). exists (pre ++ [v]).
    rewrite <- app_assoc. split; [done|]. set_solver.
Qed.

Lemma dedup_loop_app r1 r2 out : dedup_loop (r1 ++ r2) out = dedup_loop r2 (dedup_loop r1 out).
Proof.
  revert out; induction r1 as [|v r1 IH]; intros out; simpl; [done|]. by case_bool_decide.
Qed.

Lemma dedupKeepLast_elem l x : x ∈ dedupKeepLast l <-> x ∈ l.
Proof. unfold dedupKeepLast. rewrite dedup_loop_elem, elem_of_reverse. set_solver. Qed.

Lemma dedupKeepLast_NoDup l : NoDup (dedupKeepLast l).
Proof. apply dedup_loop_NoDup. constructor. Qed.

(** A duplicate-free suffix survives as the suffix. *)
Lemma dedupKeepLast_app p w : NoDup w -> exists pre,
  dedupKeepLast (p ++ w) = pre ++ w /\ (forall x, x ∈ pre -> x ∈ p /\ x ∉ w).
Proof.
  intros Hw. unfold dedupKeepLast. rewrite reverse_app, dedup_loop_app.
  rewrite (dedup_loop_fresh (reverse w)) by (by rewrite app_nil_r, reverse_Permutation).
  rewrite reverse_involutive, app_nil_r.
  destruct (dedup_loop_suffix (reverse p) w) as (pre & -> & Hp).
  exists pre. split; [done|]. intros x Hx. apply Hp in Hx. by rewrite elem_of_reverse in Hx.
Qed.

Lemma dedupKeepLast_snoc p c : exists pre, dedupKeepLast (p ++ [c]) = pre ++ [c].
Proof.
  destruct (dedupKeepLast_app p [c] (NoDup_singleton c)) as (pre & -> & _). by exists pre.
Qed.

Lemma lastn_app_short {A} n (pre w : list A) :
  (length w <= n)%nat -> exists pre', lastn n (pre ++ w) = pre' ++ w /\ pre' ⊆ pre.
Proof.
  intros Hl. unfold lastn. rewrite length_app.
  exists (drop (length pre + length w - n) pre). rewrite drop_app_le by lia.
  split; [done|apply subseteq_drop].
Qed.

Lemma lastn_app_exact {A} n (pre w : list A) : length w = n -> lastn n (pre ++ w) = w.
Proof.
  intros <-. unfold lastn. rewrite length_app. apply drop_app_exact. lia.
Qed.

Lemma NoDup_lastn {A} n (l : list A) : NoDup l -> NoDup (lastn n l).
Proof. unfold lastn. intros H. eapply sublist_NoDup; [done|]. apply sublist_drop. Qed.

(** [win] mirrors [l] when its set and its order are both [l]. *)
Definition mirrors (win : MemWindow) (l : list string) : Prop := win = mkMem l l.

Lemma trim_loop_mirror k l :
  NoDup l -> trim_loop k (mkMem l l) = mkMem (drop k l) (drop k l).
Proof.
  revert l; induction k as [|k IH]; intros l Hnd; [done|]. simpl.
  destruct l as [|x l]; [done|]. apply NoDup_cons in Hnd as [Hx Hnd]. simpl.
  rewrite filter_ne_head by done. by apply IH.
Qed.

Lemma trim_mirror n l : NoDup l -> trim n (mkMem l l) = mkMem (lastn (Z.to_nat n) l) (lastn (Z.to_nat n) l).
Proof. intros H. unfold trim. simpl. by rewrite trim_loop_mirror. Qed.

(** What a window of size [n] becomes when it accepts [c]. *)
Definition window_push `{EqDecision A} (n : nat) (l : list A) (c : A) : list A :=
  if bool_decide (c ∈ l) then l else lastn n (l ++ [c]).

(** Merging the persisted window with this tab's copy of it, one CTR ahead, adds that CTR. *)
Lemma merge_push n l c :
  NoDup l -> c ∉ l -> (length l <= n)%nat -> (0 < n)%nat ->
  lastn n (dedupKeepLast (l ++ lastn n (l ++ [c]))) = lastn n (l ++ [c]).
Proof.
  intros Hnd Hc Hl Hn. set (w := lastn n (l ++ [c])).
  assert (NoDup w) as Hw.
  { apply NoDup_lastn, NoDup_app. split_and!; [done|set_solver|apply NoDup_singleton]. }
  assert (length w = Nat.min n (S (length l))) as Hlw.
  { unfold w. rewrite length_lastn, length_app. simpl. lia. }
  destruct (dedupKeepLast_app l w Hw) as (pre & -> & Hp).
  destruct (Nat.le_gt_cases n (length l)); [apply lastn_app_exact; lia|].
  assert (w = l ++ [c]) as Hwl by (apply lastn_all; rewrite length_app; simpl; lia).
  destruct pre as [|x pre]; [apply lastn_all; simpl; lia|].
  destruct (Hp x) as [? []]; [set_solver|]. rewrite Hwl. set_solver.
Qed.

(** ** Lemmas: running the operations *)

Ltac run_M :=
  unfold gget, eget, gmodify, emodify, gets, modify, throw, catch, mbind, M_bind, mret, M_ret;
  cbn [fst snd].

(** Whether the database opens, now or when it was first used. *)
Definition db_ok (g : DurableReplayGuard) (e : Idb) : bool := default (opens e) (dbPromise g).

Lemma db_run g e :
  db (g, e) = (if db_ok g e then Ok tt else Throw DomException,
               (g <| dbPromise := Some (db_ok g e) |>, e)).
Proof.
  unfold db, db_ok. run_M. destruct g as [? ? ? ? ? ? ? [ok|]]; simpl.
  - by destruct ok.
  - by destruct (opens e).
Qed.

Definition loaded (g : DurableReplayGuard) (e : Idb) (fullKey : string) : list string :=
  if db_ok g e && reads e then
    match persisted_seen (store e !! (namespace g, fullKey)) with
    | Some seen => lastn (Z.to_nat (window g)) seen
    | None => []
    end
  else [].

(** Every cached window mirrors a duplicate-free list within bound; the databases hold
    duplicate-free lists. *)
Definition window_ok (n : Z) (l : list string) : Prop := NoDup l /\ (length l <= Z.to_nat n)%nat.

Definition mem_wf (g : DurableReplayGuard) : Prop :=
  forall fk w, mem g !! fk = Some w -> exists l, mirrors w l /\ window_ok (window g) l.

Definition idb_wf (e : Idb) : Prop :=
  forall key l, persisted_seen (store e !! key) = Some l -> NoDup l.

(** Operations keep the identity of the guard. *)
Definition same_guard (g g' : DurableReplayGuard) : Prop :=
  available g' = available g /\ namespace g' = namespace g /\ window g' = window g.

Lemma same_guard_trans g1 g2 g3 : same_guard g1 g2 -> same_guard g2 g3 -> same_guard g1 g3.
Proof. intros (?&?&?) (?&?&?). unfold same_guard. split_and!; congruence. Qed.

Lemma evictable_spec just p keys key :
  evictable just p keys = Some key -> key <> just /\ p !! key = None.
Proof.
  induction keys as [|k keys IH]; simpl; [done|].
  case_decide; [done|]. destruct (p !! k) eqn:E; [done|]. intros [= <-]. done.
Qed.

Lemma trim_cache_lookup fuel just p m :
  trim_cache_loop fuel just p m !! just = m !! just /\
  forall k w, trim_cache_loop fuel just p m !! k = Some w -> m !! k = Some w.
Proof.
  revert m; induction fuel as [|fuel IH]; intros m; simpl; [done|].
  case_match; [done|]. destruct (evictable _ _ _) as [key|] eqn:E; [|done].
  apply evictable_spec in E as [Hne _]. destruct (IH (delete key m)) as [IH1 IH2]. split.
  - rewrite IH1. by apply jm_lookup_delete_ne.
  - intros k w Hk%IH2. destruct (decide (key = k)) as [->|Hk'].
    + by rewrite jm_lookup_delete_eq in Hk.
    + by rewrite jm_lookup_delete_ne in Hk.
Qed.

(** A key with a persist in flight is never evicted. *)
Lemma trim_cache_persisting fuel just p m k :
  is_Some (p !! k) -> trim_cache_loop fuel just p m !! k = m !! k.
Proof.
  intros [n Hp]. revert m; induction fuel as [|fuel IH]; intros m; simpl; [done|].
  case_match; [done|]. destruct (evictable _ _ _) as [key|] eqn:E; [|done].
  apply evictable_spec in E as [_ Hn]. rewrite IH. apply jm_lookup_delete_ne. congruence.
Qed.

Lemma hydrate_run k g e :
  let fk := storeKey g k in
  let win := match mem g !! fk with
             | Some w => w
             | None => mkMem (loaded g e fk) (loaded g e fk)
             end in
  exists g', hydrate k (g, e) = (Ok win, (g', e)) /\ same_guard g g' /\
    persisting g' = persisting g /\ mem g' !! fk = Some win /\
    (db_ok g' e = db_ok g e) /\
    (forall fk' w, mem g' !! fk' = Some w -> fk' = fk \/ mem g !! fk' = Some w).
Proof.
  cbv zeta. set (fk := storeKey g k). unfold hydrate. run_M. fold fk.
  destruct (mem g !! fk) as [w|] eqn:E.
  { exists g. split_and!; try done. auto. }
  rewrite db_run.
  assert (forall g1,
    same_guard g g1 -> mem g1 = <[fk := mkMem (loaded g e fk) (loaded g e fk)]> (mem g) ->
    persisting g1 = persisting g -> db_ok g1 e = db_ok g e ->
    exists g', trimMemCache fk (g1, e) = (Ok tt, (g', e)) /\
      same_guard g g' /\ persisting g' = persisting g /\
      mem g' !! fk = Some (mkMem (loaded g e fk) (loaded g e fk)) /\ db_ok g' e = db_ok g e /\
      (forall fk' w, mem g' !! fk' = Some w -> fk' = fk \/ mem g !! fk' = Some w)) as Htrim.
  { intros g1 Hs Hm Hp Hd. unfold trimMemCache. run_M.
    eexists. split; [reflexivity|]. split; [done|]. split; [done|]. simpl. rewrite Hm.
    set (m := <[_ := _]> (mem g)).
    destruct (trim_cache_lookup (omap_size m) fk (persisting g1) m) as [Hj Hsub].
    split; [rewrite Hj; apply jm_lookup_insert_eq|]. split; [done|].
    intros fk' w' Hw%Hsub. destruct (decide (fk = fk')) as [->|Hne]; [by left|right].
    unfold m in Hw. by rewrite jm_lookup_insert_ne in Hw. }
  unfold loaded in *. unfold idbRead. run_M.
  destruct (db_ok g e) eqn:Ed; [destruct (reads e)|]; cbn -[trimMemCache];
    match goal with |- context [trimMemCache fk (?g1, e)] =>
      destruct (Htrim g1) as (g' & Hrun & Hrest); try done
    end;
    exists g'; rewrite Hrun; split; try reflexivity; exact Hrest.
Qed.

(** Everything a persist needs works. *)
Definition healthy (g : DurableReplayGuard) (e : Idb) : Prop :=
  db_ok g e = true /\ opens e = true /\ reads e = true /\ writes e = true /\
  locks_granted e = true.

Definition stored (g : DurableReplayGuard) (e : Idb) (fk : string) : list string :=
  default [] (persisted_seen (store e !! (namespace g, fk))).

(** A persist that succeeds stores the merge and reflects it in the cache. *)
Lemma persist_healthy fk g e w :
  healthy g e -> mem g !! fk = Some (mkMem w w) ->
  let merged := lastn (Z.to_nat (window g)) (dedupKeepLast (stored g e fk ++ w)) in
  exists g', persistMerged fk (g, e) =
      (Ok tt, (g', e <| store ::= <[(namespace g, fk) := mkPersisted 1 (Some merged)]> |>)) /\
    same_guard g g' /\ persisting g' = persisting g /\ dbPromise g' = Some true /\
    mem g' = <[fk := mkMem merged merged]> (mem g).
Proof.
  intros (Hd & Ho & Hr & Hw & Hl) Hm. unfold persistMerged. run_M. rewrite Hl. cbn [negb].
  rewrite db_run, Hd. unfold idbRead, idbWrite. run_M. rewrite Hr. cbn. rewrite Hw. cbn.
  rewrite Hm. eexists. split; [reflexivity|]. done.
Qed.

(** Whatever fails, the cached window still ends with what it ended with before. *)
Lemma persist_any fk g e w :
  mem g !! fk = Some (mkMem w w) ->
  exists r g' e' l, persistMerged fk (g, e) = (r, (g', e')) /\ same_guard g g' /\
    persisting g' = persisting g /\ mem g' !! fk = Some (mkMem l l) /\
    (l = w \/ exists p, l = lastn (Z.to_nat (window g)) (dedupKeepLast (p ++ w))).
Proof.
  intros Hm. unfold persistMerged. run_M. destruct (locks_granted e); cbn [negb].
  2: { do 4 eexists. split; [reflexivity|]. split_and!; eauto. done. }
  rewrite db_run. destruct (db_ok g e) eqn:Ed.
  2: { do 4 eexists. split; [reflexivity|]. split_and!; simpl; eauto. done. }
  unfold idbRead, idbWrite. run_M.
  destruct (reads e); cbn -[dedupKeepLast app lastn]; destruct (writes e);
    cbn -[dedupKeepLast app lastn]; rewrite Hm;
    (do 4 eexists; split; [reflexivity|]; split; [done|]; split; [done|];
     split; [apply jm_lookup_insert_eq|right; eexists; reflexivity]).
Qed.

Lemma release_run fk g e :
  exists g', releasePersisting fk (g, e) = (Ok tt, (g', e)) /\ same_guard g g' /\
    mem g' = mem g /\ dbPromise g' = dbPromise g.
Proof.
  unfold releasePersisting. run_M. eexists. split; [reflexivity|]. by case_match.
Qed.

(** The guard and the database agree that [l] is the window of key [k]. *)
Record synced (g : DurableReplayGuard) (e : Idb) (k : string) (l : list string) : Prop := {
  sy_available : available g = true;
  sy_window : 0 < window g;
  sy_ok : window_ok (window g) l;
  sy_stored : stored g e (storeKey g k) = l;
  sy_mem : mem g !! storeKey g k = None \/ mem g !! storeKey g k = Some (mkMem l l)
}.

Lemma storeKey_same g g' k : same_guard g g' -> storeKey g' k = storeKey g k.
Proof. intros (_ & H & _). unfold storeKey. by rewrite H. Qed.

Lemma hydrate_synced g e k l :
  synced g e k l -> healthy g e ->
  exists g', hydrate k (g, e) = (Ok (mkMem l l), (g', e)) /\ same_guard g g' /\
    mem g' !! storeKey g k = Some (mkMem l l) /\ db_ok g' e = true.
Proof.
  intros [Ha Hw [Hnd Hlen] Hst Hm] (Hd & Ho & Hr & _).
  destruct (hydrate_run k g e) as (g' & Hrun & Hs & _ & Hl & Hdb & _).
  assert (match mem g !! storeKey g k with
          | Some w => w
          | None => mkMem (loaded g e (storeKey g k)) (loaded g e (storeKey g k))
          end = mkMem l l) as E.
  { destruct Hm as [->| ->]; [|done]. unfold loaded. rewrite Hd, Hr. cbn [andb].
    unfold stored in Hst. destruct (persisted_seen _); simpl in Hst; [|by subst].
    subst. by rewrite lastn_all. }
  rewrite E in Hrun, Hl. exists g'. split_and!; [done|done|done|congruence].
Qed.

Lemma off_run g :
  available g = true -> 0 < window g -> negb (available g) || (window g =? 0) = false.
Proof. intros -> H. by rewrite (proj2 (Z.eqb_neq _ _)) by lia. Qed.

Lemma check_synced g e k l c :
  synced g e k l -> healthy g e ->
  exists g', check k c (g, e) = (Ok (bool_decide (pretty c ∉ l)), (g', e)).
Proof.
  intros Hs Hh. destruct (hydrate_synced _ _ _ _ Hs Hh) as (g' & Hrun & _).
  unfold check. run_M. rewrite off_run by apply Hs. rewrite Hrun. exists g'.
  do 2 f_equal. simpl. repeat case_bool_decide; naive_solver.
Qed.

Lemma window_push_ok n l c :
  0 < n -> window_ok n l -> window_ok n (window_push (Z.to_nat n) l c).
Proof.
  intros Hn [Hnd Hl]. unfold window_push. case_bool_decide; [done|]. split.
  - apply NoDup_lastn, NoDup_app. split_and!; [done|set_solver|apply NoDup_singleton].
  - rewrite length_lastn. lia.
Qed.

Lemma accept_synced g e k l c :
  synced g e k l -> healthy g e ->
  exists g' e', accept k c (g, e) = (Ok tt, (g', e')) /\ same_guard g g' /\
    synced g' e' k (window_push (Z.to_nat (window g)) l (pretty c)) /\ healthy g' e' /\
    idbAvailable e' = idbAvailable e /\ locksAvailable e' = locksAvailable e.
Proof.
  intros Hs Hh. destruct (hydrate_synced _ _ _ _ Hs Hh) as (g1 & Hrun & Hsame & Hm1 & Hd1).
  pose proof Hs as [Ha Hw Hok Hst _]. pose proof Hh as (_ & Ho & Hr & Hwr & Hlk).
  pose proof Hsame as (Ha1 & Hns1 & Hw1).
  pose proof (window_push_ok _ _ (pretty c) Hw Hok) as Hok'.
  unfold accept. run_M. rewrite off_run by done. rewrite Hrun. cbn [fst snd mem_set mem_order].
  unfold window_push in *. case_bool_decide as Hin.
  { exists g1, e. split_and!; try done. split; rewrite ?(storeKey_same _ _ _ Hsame), ?Ha1, ?Hw1; auto.
    unfold stored. by rewrite Hns1. }
  destruct Hok as [Hnd Hlen].
  rewrite trim_mirror by (apply NoDup_app; split_and!; [done|set_solver|apply NoDup_singleton]).
  set (fk := storeKey g k) in *. set (w := lastn (Z.to_nat _) (l ++ [pretty c])).
  change ((g1, e).2) with e.
  match goal with |- context [persistMerged fk (?gs, e)] => set (g2 := gs) end.
  assert (same_guard g g2) as Hsame2 by done. pose proof Hsame2 as (_ & Hns2 & Hw2).
  destruct (persist_healthy fk g2 e w) as (g3 & Hp & Hsame3 & _ & Hdb3 & Hm3);
    [done|apply jm_lookup_insert_eq|].
  rewrite Hp. destruct (release_run fk g3
    (e <| store ::= <[(namespace g2, fk) := mkPersisted 1
       (Some (lastn (Z.to_nat (window g2)) (dedupKeepLast (stored g2 e fk ++ w))))]> |>))
    as (g4 & Hrel & Hsame4 & Hm4 & Hdb4).
  rewrite Hrel. do 2 eexists. split; [reflexivity|].
  assert (same_guard g g4) as Hsame'.
  { by repeat (eapply same_guard_trans; [eassumption|]). }
  pose proof Hsame' as (Ha4 & Hns4 & Hw4).
  assert (lastn (Z.to_nat (window g2)) (dedupKeepLast (stored g2 e fk ++ w))
          = lastn (Z.to_nat (window g)) (l ++ [pretty c])) as Hmerge.
  { assert (w = lastn (Z.to_nat (window g)) (l ++ [pretty c])) as -> by (rewrite <- Hw1; reflexivity).
    rewrite Hw2. assert (stored g2 e fk = l) as ->.
    { unfold stored in *. by rewrite Hns2. }
    apply merge_push; [done|done|done|lia]. }
  split; [done|]. split; [|split; [|done]].
  2: { unfold healthy, db_ok. rewrite Hdb4, Hdb3. done. }
  split; rewrite ?(storeKey_same _ _ _ Hsame'), ?Ha4, ?Hw4; [done|done|done| |].
  - unfold stored. rewrite Hns4, <- Hns2. fold fk. set (p := mkPersisted _ _).
    change (store _) with (<[(namespace g2, fk) := p]> (store e)).
    rewrite lookup_insert_eq. exact Hmerge.
  - right. rewrite Hm4, Hm3, <- Hmerge. apply jm_lookup_insert_eq.
Qed.

Fixpoint accept_all (k : string) (cs : list Z) : DM unit :=
  match cs with
  | [] => mret tt
  | c :: cs => accept k c;; accept_all k cs
  end.

Lemma accept_all_synced k cs g e l :
  synced g e k l -> healthy g e ->
  exists g' e', accept_all k cs (g, e) = (Ok tt, (g', e')) /\ same_guard g g' /\
    synced g' e' k (foldl (window_push (Z.to_nat (window g))) l (pretty <$> cs)) /\
    healthy g' e' /\ idbAvailable e' = idbAvailable e /\ locksAvailable e' = locksAvailable e.
Proof.
  revert g e l. induction cs as [|c cs IH]; intros g e l Hs Hh.
  { by exists g, e. }
  destruct (accept_synced g e k l c Hs Hh) as (g1 & e1 & Hrun & Hsame & Hs1 & Hh1 & Hi & Hl).
  destruct (IH _ _ _ Hs1 Hh1) as (g2 & e2 & Hrun2 & Hsame2 & Hs2 & Hh2 & Hi2 & Hl2).
  exists g2, e2. cbn [accept_all]. run_M. rewrite Hrun, Hrun2. split; [done|].
  split; [by eapply same_guard_trans|]. destruct Hsame as (_ & _ & Hw). rewrite Hw in Hs2.
  split; [exact Hs2|]. split; [done|]. split; congruence.
Qed.

Lemma window_push_fmap `{EqDecision A, EqDecision B} (f : A -> B) `{!Inj (=) (=) f} n l cs :
  foldl (window_push n) (f <$> l) (f <$> cs) = f <$> foldl (window_push n) l cs.
Proof.
  revert l. induction cs as [|c cs IH]; intros l; [done|]. simpl. rewrite <- IH. f_equal.
  unfold window_push. rewrite (bool_decide_ext (f c ∈ f <$> l) (c ∈ l)) by set_solver.
  case_bool_decide; [done|]. unfold lastn. rewrite fmap_drop, fmap_app, !length_app, length_fmap.
  done.
Qed.

(** A browser in which every request succeeds. *)
Definition working (e : Idb) : bool :=
  idbAvailable e && locksAvailable e && opens e && reads e && writes e && locks_granted e.

Lemma newGuard_working e ns n :
  working e = true -> ns <> ""%string -> 0 < n ->
  exists g, newGuard e ns (Some (JsInt n)) false = Ok g /\ available g = true /\
    window g = n /\ namespace g = ns /\ mem g = ∅ /\ healthy g e.
Proof.
  intros Hw Hns Hn. unfold newGuard. rewrite bool_decide_eq_false_2 by done.
  unfold working in Hw. rewrite !andb_true_iff in Hw.
  destruct Hw as [[[[[Hi Hl] Ho] Hr] Hwr] Hlk].
  rewrite Hi, Hl. cbn. eexists. split; [reflexivity|].
  destruct (Z.ltb_spec n 0); [lia|]. done.
Qed.

Lemma healthy_working g e :
  healthy g e -> idbAvailable e = true -> locksAvailable e = true -> working e = true.
Proof. unfold working. by intros (_ & -> & -> & -> & ->) -> ->. Qed.

(** Bookkeeping that survives every failure of the environment. *)
Lemma accept_any k c g e :
  available g = true -> 0 < window g -> mem_wf g -> idb_wf e ->
  exists g' e' w, accept k c (g, e) = (Ok tt, (g', e')) /\ same_guard g g' /\
    mem g' !! storeKey g k = Some w /\ pretty c ∈ mem_set w.
Proof.
  intros Ha Hw Hmem Hidb. destruct (hydrate_run k g e) as (g1 & Hrun & Hsame & _ & Hm & _).
  unfold accept. run_M. rewrite off_run by done. rewrite Hrun. cbn [fst snd].
  assert (exists l, match mem g !! storeKey g k with
          | Some w => w
          | None => mkMem (loaded g e (storeKey g k)) (loaded g e (storeKey g k))
          end = mkMem l l /\ NoDup l) as (l & E & Hnd).
  { destruct (mem g !! storeKey g k) as [w|] eqn:E.
    - destruct (Hmem _ _ E) as (l & -> & [? _]). by exists l.
    - eexists. split; [done|]. unfold loaded. case_match; [|constructor].
      case_match eqn:Ep; [|constructor]. by eapply NoDup_lastn, Hidb. }
  rewrite E in Hm |- *. cbn [mem_set mem_order]. case_bool_decide as Hin.
  { exists g1, e. eexists. split_and!; eauto. }
  rewrite trim_mirror by (apply NoDup_app; split_and!; [done|set_solver|apply NoDup_singleton]).
  set (fk := storeKey g k) in *.
  set (w := lastn (Z.to_nat _) (l ++ [pretty c])). change ((g1, e).2) with e.
  match goal with |- context [persistMerged fk (?gs, e)] => set (g2 := gs) end.
  assert (same_guard g g2) as Hsame2 by done.
  destruct (persist_any fk g2 e w) as (r & g3 & e3 & l3 & Hp & Hsame3 & _ & Hm3 & Hl3);
    [apply jm_lookup_insert_eq|].
  assert (w = lastn (Z.to_nat (window g)) (l ++ [pretty c])) as Hw'.
  { destruct Hsame as (_ & _ & <-). reflexivity. }
  assert (0 < Z.to_nat (window g))%nat as Hn by lia.
  assert (NoDup w) as Hndw.
  { rewrite Hw'. apply NoDup_lastn, NoDup_app. split_and!; [done|set_solver|apply NoDup_singleton]. }
  assert (pretty c ∈ w /\ pretty c ∈ l3) as [_ Hc3].
  { rewrite Hw' in Hl3 |- *. clear -Hl3 Hn Hsame Hsame2.
    destruct Hsame2 as (_ & _ & Hw2). rewrite Hw2 in Hl3.
    destruct (lastn_app_short (Z.to_nat (window g)) l [pretty c]) as (p & Hq & _); [simpl; lia|].
    rewrite Hq in *. split; [set_solver|]. destruct Hl3 as [->|[q ->]]; [set_solver|].
    destruct (dedupKeepLast_snoc (q ++ p) (pretty c)) as [q' Hq']. rewrite app_assoc, Hq'.
    destruct (lastn_app_short (Z.to_nat (window g)) q' [pretty c]) as (? & -> & _); [simpl; lia|].
    set_solver. }
  rewrite Hp. clearbody g2. destruct r as [[]|]; [|unfold warnPersistFail; run_M];
    match goal with |- context [releasePersisting fk (?gs, e3)] =>
      destruct (release_run fk gs e3) as (g4 & Hrel & Hsame4 & Hm4 & _) end;
    rewrite Hrel; exists g4, e3, (mkMem l3 l3); (split; [done|]); rewrite Hm4; (split; [|done]);
    by repeat (eapply same_guard_trans; [eassumption|]).
Qed.

(** ** Properties *)

(** Cross-reload replay defence: when the browser's storage works, the frames accepted in
    one session are exactly what a fresh guard on the same namespace and key rejects in the next
    one, as a window over the last [n] distinct accepted CTRs. *)
Theorem durable_window_survives_reload (e : Idb) (ns k : string) (n : Z) (cs : list Z)
    (He : working e = true) (Hns : ns <> ""%string) (Hn : 0 < n)
    (Hempty : store e !! (ns, KEY_PREFIX +:+ "|" +:+ ns +:+ "|" +:+ k) = None) :
  exists g g1 e1 g2,
    newGuard e ns (Some (JsInt n)) false = Ok g /\
    accept_all k cs (g, e) = (Ok tt, (g1, e1)) /\
    newGuard e1 ns (Some (JsInt n)) false = Ok g2 /\
    forall c, exists s,
      check k c (g2, e1) =
        (Ok (bool_decide (c ∉ foldl (window_push (Z.to_nat n)) [] cs)), s).
Proof.
  destruct (newGuard_working e ns n) as (g & Hg & Ha & Hw & Hnsg & Hm & Hh); [done..|].
  assert (synced g e k []) as Hs.
  { split; [done|lia|split; [constructor|simpl; lia]| |left; by rewrite Hm].
    unfold stored, storeKey. by rewrite Hnsg, Hempty. }
  destruct (accept_all_synced k cs g e [] Hs Hh) as (g1 & e1 & Hrun & Hsame & Hs1 & Hh1 & Hi & Hl).
  pose proof He as He'. unfold working in He'. rewrite !andb_true_iff in He'.
  destruct (newGuard_working e1 ns n) as (g2 & Hg2 & Ha2 & Hw2 & Hns2 & Hm2 & Hh2); [|done..|].
  { eapply healthy_working; [done|rewrite Hi|rewrite Hl]; apply He'. }
  exists g, g1, e1, g2. split_and!; [done..|]. intros c.
  assert (synced g2 e1 k (pretty <$> foldl (window_push (Z.to_nat n)) [] cs)) as Hs2.
  { rewrite <- (window_push_fmap pretty _ [] cs). rewrite Hw in Hs1.
    destruct Hs1 as [_ _ Hok Hst _]. destruct Hsame as (_ & Hns1 & Hw1).
    split; [done|lia|rewrite Hw2; rewrite Hw1, Hw in Hok; exact Hok| |left; by rewrite Hm2].
    unfold stored, storeKey in *. rewrite Hns1, Hnsg in Hst. rewrite Hns2. exact Hst. }
  destruct (check_synced _ _ _ _ c Hs2 Hh2) as [s Hc]. exists (s, e1). rewrite Hc.
  do 2 f_equal. apply bool_decide_ext. set_solver.
Qed.

Definition example_env : Idb := mkIdb true true true true true true true ∅.

Lemma durable_window_survives_reload_witness :
  exists g g1 e1 g2,
    newGuard example_env "app" (Some (JsInt 2)) false = Ok g /\
    accept_all "3|1" [5; 6; 7] (g, example_env) = (Ok tt, (g1, e1)) /\
    newGuard e1 "app" (Some (JsInt 2)) false = Ok g2 /\
    forall c, exists s, check "3|1" c (g2, e1) = (Ok (bool_decide (c ∉ [6; 7])), s).
Proof.
  apply (durable_window_survives_reload example_env "app" "3|1" 2 [5; 6; 7]);
    [vm_compute; reflexivity|discriminate|reflexivity|vm_compute; reflexivity].
Defined.

(** Storage failures never break the frame path nor the protection of the current session:
    whatever fails, [accept] returns normally and the same guard rejects the CTR afterwards. *)
Theorem durable_accept_never_fails (g : DurableReplayGuard) (e : Idb) (k : string) (c : Z)
    (Ha : available g = true) (Hw : 0 < window g) (Hmem : mem_wf g) (Hidb : idb_wf e) :
  exists s, accept k c (g, e) = (Ok tt, s) /\ exists s', check k c s = (Ok false, s').
Proof.
  destruct (accept_any k c g e) as (g' & e' & w & Hrun & (Ha' & Hn' & Hw') & Hm & Hc); [done..|].
  exists (g', e'). split; [done|]. unfold check, hydrate. run_M.
  rewrite off_run by (congruence || lia).
  assert (storeKey g' k = storeKey g k) as E by (apply storeKey_same; done).
  cbn [fst]. rewrite E, Hm. cbn. rewrite bool_decide_eq_true_2 by done. eauto.
Qed.

Lemma durable_accept_never_fails_witness :
  exists s, accept "3|1" 5
      (mkGuard true "app" 64 ∅ ∅ false false None, mkIdb true true false false false false false ∅)
    = (Ok tt, s) /\ exists s', check "3|1" 5 s = (Ok false, s').
Proof.
  apply (durable_accept_never_fails
    (mkGuard true "app" 64 ∅ ∅ false false None) (mkIdb true true false false false false false ∅));
    [reflexivity|reflexivity|intros fk w H; discriminate H|].
  intros key l H. simpl in H. by rewrite lookup_empty in H.
Defined.

(** A persist merges instead of overwriting: whatever another tab stored meanwhile, the
    stored window has no duplicates and at most [window] CTRs, all of them from the two windows;
    this tab's CTRs are kept, and nothing at all is lost while the union fits. *)
Theorem persist_merges (g : DurableReplayGuard) (e : Idb) (fk : string) (w : list string)
    (Hh : healthy g e) (Hm : mem g !! fk = Some (mkMem w w)) (Hw : window_ok (window g) w) :
  exists g' e' l, persistMerged fk (g, e) = (Ok tt, (g', e')) /\
    stored g' e' fk = l /\ mem g' !! fk = Some (mkMem l l) /\
    NoDup l /\ (length l <= Z.to_nat (window g))%nat /\
    (forall x, x ∈ l -> x ∈ stored g e fk \/ x ∈ w) /\ w `suffix_of` l /\
    ((length (dedupKeepLast (stored g e fk ++ w)) <= Z.to_nat (window g))%nat ->
     forall x, x ∈ stored g e fk \/ x ∈ w -> x ∈ l).
Proof.
  destruct Hw as [Hnd Hlen].
  destruct (persist_healthy fk g e w Hh Hm) as (g' & Hrun & (_ & Hns & _) & _ & _ & Hm').
  set (l := lastn _ _) in *. do 3 eexists. split; [exact Hrun|]. split; [reflexivity|].
  assert (stored g' (e <| store ::= <[(namespace g, fk) := mkPersisted 1 (Some l)]> |>) fk = l) as ->.
  { unfold stored. rewrite Hns.
    change (store _) with (<[(namespace g, fk) := mkPersisted 1 (Some l)]> (store e)).
    by rewrite lookup_insert_eq. }
  split_and!.
  - rewrite Hm'. apply jm_lookup_insert_eq.
  - apply NoDup_lastn, dedupKeepLast_NoDup.
  - unfold l. rewrite length_lastn. lia.
  - intros x Hx. apply subseteq_drop in Hx. rewrite dedupKeepLast_elem in Hx. set_solver.
  - destruct (dedupKeepLast_app (stored g e fk) w Hnd) as (pre & E & _). unfold l. rewrite E.
    destruct (lastn_app_short (Z.to_nat (window g)) pre w Hlen) as (pre' & -> & _).
    by exists pre'.
  - intros Hfit x Hx. unfold l. rewrite lastn_all by done. rewrite dedupKeepLast_elem. set_solver.
Qed.

Lemma persist_merges_witness :
  let g := mkGuard true "app" 3 (mkOMap [("k", mkMem ["4"; "5"] ["4"; "5"])]) ∅ false false None in
  let e := mkIdb true true true true true true true
             {[ ("app", "k") := mkPersisted 1 (Some ["4"; "9"]) ]} in
  exists g' e' l, persistMerged "k" (g, e) = (Ok tt, (g', e')) /\ stored g' e' "k" = l.
Proof.
  intros g e.
  destruct (persist_merges g e "k" ["4"; "5"]) as (g' & e' & l & H1 & H2 & _).
  - by split_and!.
  - reflexivity.
  - split; [by repeat (constructor; [set_solver|]); constructor|simpl; lia].
  - exists g', e', l. done.
Defined.
