(* ===== verification/DurableAsync.v ===== *)
(** * DurableAsync: the persisted replay guard with its awaits (src/chat/durable-replay.ts)

    The operations of [Durable] again, with the points where they wait. A [Tab] is a guard in its
    realm: window objects and promises have an identity, which is the number of the call that made
    them (a call makes at most one of each), and calls that overlap may hold the same object. An
    [Origin] is what the tabs share: IndexedDB and the locks. An IndexedDB request waits twice:
    until it is executed, and until its event is dispatched; whether the database opens is settled
    when it is asked for. Other calls, of this tab or another, go on in between. *)
From S2P Require Import Prelude StateLogic Async Errors Internal Replay Durable.

(** What a call waits for when it waits for a promise: [hydrating] holds promises by number,
    [hydrated] what the settled ones resolved to; [tails] are the promises of [persistTail]. *)
Record Tab := mkTab {
  tab_available : bool;
  tab_namespace : string;
  tab_window : Z;
  windows : gmap (string * nat) MemWindow;
  tab_mem : OMap string nat;
  hydrating : gmap string nat;
  hydrated : gmap (string * nat) nat;
  tab_persisting : gmap string Z;
  persistTail : option nat;
  tails : gmap nat bool;
  tab_db : option bool;
  tab_warnedPersist : bool;
  tab_warnedRead : bool
}.

Record Origin := mkOrigin {
  idb : Idb;
  locks : gmap string nat
}.

#[export] Instance eta_tab : Eta Tab := fun r =>
  mkTab (tab_available r) (tab_namespace r) (tab_window r) (windows r) (tab_mem r) (hydrating r)
    (hydrated r) (tab_persisting r) (persistTail r) (tails r) (tab_db r) (tab_warnedPersist r)
    (tab_warnedRead r).
#[export] Instance eta_origin : Eta Origin := fun r => mkOrigin (idb r) (locks r).

Abbreviation DS := (Tab * Origin)%type.
Abbreviation DP := (P DS js_error).

Definition tget {A} (f : Tab -> A) : DP A := piece (gets (fun s => f s.1)).
Definition oget {A} (f : Idb -> A) : DP A := piece (gets (fun s => f (idb s.2))).
Definition tmod (f : Tab -> Tab) : DP unit := piece (modify (fun s => (f s.1, s.2))).
Definition omod (f : Idb -> Idb) : DP unit := piece (modify (fun s => (s.1, s.2 <| idb ::= f |>))).
Definition failD {A} : DP A := piece (throw DomException).

Definition newTab (env : Idb) (namespace : string) (window : option jsnum)
    (requireAvailable : bool) : res Tab :=
  match newGuard env namespace window requireAvailable with
  | Ok g => Ok (mkTab (available g) (Durable.namespace g) (Durable.window g) ∅ ∅ ∅ ∅ ∅ None ∅ None false false)
  | Throw e => Throw e
  end.

(** ** IndexedDB *)

Definition dbP : DP unit :=
  p ← tget tab_db;
  ok ← match p with
       | Some ok => mret ok
       | None => ok ← oget opens; tmod (fun t => t <| tab_db := Some ok |>);; mret ok
       end;
  pause;;
  if ok : bool then mret tt else failD.

Definition store_key (ns key : string) : string := KEY_PREFIX +:+ "|" +:+ ns +:+ "|" +:+ key.

Definition storeKeyP (key : string) : DP string := tget (fun t => store_key (tab_namespace t) key).

Definition idbReadP (fullKey : string) : DP (option PersistedWindow) :=
  pause;;
  ok ← oget reads;
  ns ← tget tab_namespace;
  cur ← oget (fun e => store e !! (ns, fullKey));
  pause;;
  if ok : bool then mret cur else failD.

Definition idbWriteP (fullKey : string) (value : PersistedWindow) : DP unit :=
  pause;;
  ok ← oget writes;
  ns ← tget tab_namespace;
  (if ok : bool then omod (fun e => e <| store ::= <[(ns, fullKey) := value]> |>) else mret tt);;
  pause;;
  if ok : bool then mret tt else failD.

Definition idbDeleteKeyP (fullKey : string) : DP unit :=
  pause;;
  ok ← oget deletes;
  ns ← tget tab_namespace;
  (if ok : bool then omod (fun e => e <| store ::= delete (ns, fullKey) |>) else mret tt);;
  pause;;
  if ok : bool then mret tt else failD.

(** ** The cache *)

(** The oldest evictable key: neither the fresh one, nor hydrating, nor with a persist in flight. *)
Fixpoint evictableP (just : string) (hydrating : gmap string nat) (persisting : gmap string Z)
    (keys : list string) : option string :=
  match keys with
  | [] => None
  | key :: keys =>
      if decide (key = just) then evictableP just hydrating persisting keys
      else match hydrating !! key, persisting !! key with
           | None, None => Some key
           | _, _ => evictableP just hydrating persisting keys
           end
  end.

Fixpoint trim_mem (fuel : nat) (just : string) (hydrating : gmap string nat)
    (persisting : gmap string Z) (m : OMap string nat) : OMap string nat :=
  match fuel with
  | O => m
  | S fuel =>
      if (omap_size m <=? REPLAY_MEM_CACHE_CAP)%nat then m else
      match evictableP just hydrating persisting (omap_keys m) with
      | None => m
      | Some key => trim_mem fuel just hydrating persisting (delete key m)
      end
  end.

Definition trimMemCacheP (just : string) (t : Tab) : Tab :=
  t <| tab_mem ::= fun m => trim_mem (omap_size m) just (hydrating t) (tab_persisting t) m |>.

Definition lookup_window (fullKey : string) (w : nat) (t : Tab) : MemWindow :=
  default (mkMem [] []) (windows t !! (fullKey, w)).

Definition put_window (fullKey : string) (w : nat) (win : MemWindow) (t : Tab) : Tab :=
  t <| windows ::= <[(fullKey, w) := win]> |>.

(** [await p] for a promise of [hydrating]. *)
Definition await_hydrate (fullKey : string) (p : nat) : DP nat :=
  wait_for (fun s => bool_decide (is_Some (hydrated s.1 !! (fullKey, p))))
    (gets (fun s => default p (hydrated s.1 !! (fullKey, p)))).

(** The last piece of that promise's body: the window goes into the cache, and the promise resolves. *)
Definition install (self : nat) (fullKey : string) (order : list string) (t : Tab) : Tab :=
  trimMemCacheP fullKey
    (put_window fullKey self {| mem_set := order; mem_order := order |} t
       <| tab_mem ::= <[fullKey := self]> |> <| hydrating ::= delete fullKey |>)
    <| hydrated ::= <[(fullKey, self) := self]> |>.

(** The window that a stored value gives, [n] long. *)
Definition stored_order (n : Z) (persisted : option PersistedWindow) : list string :=
  match persisted_seen persisted with
  | Some seen => lastn (Z.to_nat n) seen
  | None => []
  end.

(** The body of the promise that [hydrate] makes. *)
Definition loadP (self : nat) (fullKey : string) : DP unit :=
  n ← tget tab_window;
  order ← catchP
    (dbP;; persisted ← idbReadP fullKey; mret (stored_order n persisted))
    (fun _ => tmod (fun t => t <| tab_warnedRead := true |>);; mret []);
  tmod (install self fullKey order).

(** [await this.hydrate(key)] *)
Definition hydrateP (self : nat) (fullKey : string) : DP nat :=
  cached ← tget (fun t => tab_mem t !! fullKey);
  match cached with
  | Some w => pause;; mret w
  | None =>
      inflight ← tget (fun t => hydrating t !! fullKey);
      match inflight with
      | Some p => await_hydrate fullKey p
      | None =>
          tmod (fun t => t <| hydrating ::= <[fullKey := self]> |>);;
          loadP self fullKey;;
          await_hydrate fullKey self
      end
  end.

(** ** check *)

Definition offP : DP bool := tget (fun t => negb (tab_available t) || (tab_window t =? 0)).

Definition checkP (self : nat) (key : string) (ctr : Z) : DP bool :=
  off ← offP;
  if off : bool then mret true else
  fullKey ← storeKeyP key;
  w ← hydrateP self fullKey;
  tget (fun t => negb (bool_decide (pretty ctr ∈ mem_set (lookup_window fullKey w t)))).

(** ** accept *)

Definition merged_order (persistedSeen : list string) (fullKey : string) (w : nat) (t : Tab) : list string :=
  lastn (Z.to_nat (tab_window t)) (dedupKeepLast (persistedSeen ++ mem_order (lookup_window fullKey w t))).

(** The union of the stored window and the one in memory, under the lock. *)
Definition mergeP (fullKey : string) (w : nat) : DP unit :=
  dbP;;
  persistedSeen ← catchP
    (cur ← idbReadP fullKey; mret (default [] (persisted_seen cur)))
    (fun _ => mret []);
  merged ← tget (merged_order persistedSeen fullKey w);
  tmod (put_window fullKey w {| mem_set := merged; mem_order := merged |});;
  idbWriteP fullKey {| pw_v := 1; pw_seen := Some merged |}.

Definition lock_name (fullKey : string) : string := KEY_PREFIX +:+ "-lock|" +:+ fullKey.

(** [navigator.locks.request(name, { mode: 'exclusive' }, write)] *)
Definition with_lock (self : nat) (name : string) (write : DP unit) : DP unit :=
  granted ← oget locks_granted;
  if negb granted then pause;; failD else
  wait_for (fun s => bool_decide (locks s.2 !! name = None))
    (modify (fun s => (s.1, s.2 <| locks ::= <[name := self]> |>)));;
  r ← attemptP write;
  piece (modify (fun s => (s.1, s.2 <| locks ::= delete name |>)));;
  pause;;
  piece (lift r).

Definition persistMergedP (self : nat) (fullKey : string) (w : nat) : DP unit :=
  with_lock self (lock_name fullKey) (mergeP fullKey w).

Definition warnPersistFailP : DP unit := tmod (fun t => t <| tab_warnedPersist := true |>).

Definition releasePersistingP (key : string) (t : Tab) : Tab :=
  let next := default 0 (tab_persisting t !! key) - 1 in
  if next <=? 0 then t <| tab_persisting ::= delete key |>
  else t <| tab_persisting ::= <[key := next]> |>.

(** Record the CTR in the window object, count the persist and append it to the chain. *)
Definition record (self : nat) (fullKey : string) (w : nat) (ctrStr : string) (t : Tab) : Tab :=
  let win := lookup_window fullKey w t in
  put_window fullKey w
    (trim (tab_window t) {| mem_set := mem_set win ++ [ctrStr]; mem_order := mem_order win ++ [ctrStr] |})
    (t <| tab_persisting ::= fun p => <[fullKey := default 0 (p !! fullKey) + 1]> p |>)
    <| persistTail := Some self |> <| tails ::= <[self := false]> |>.

(** The link of [persistTail] that this call makes: after the previous one, persist. *)
Definition persist_link (self : nat) (fullKey : string) (w : nat) (prev : option nat) : DP unit :=
  match prev with
  | Some p => wait_for (fun s => bool_decide (tails s.1 !! p = Some true)) (mret tt)
  | None => pause
  end;;
  catchP (persistMergedP self fullKey w) (fun _ => warnPersistFailP);;
  tmod (fun t => releasePersistingP fullKey t <| tails ::= <[self := true]> |>).

Definition acceptP (self : nat) (key : string) (ctr : Z) : DP unit :=
  off ← offP;
  if off : bool then mret tt else
  fullKey ← storeKeyP key;
  w ← hydrateP self fullKey;
  let ctrStr := pretty ctr in
  seen ← tget (fun t => bool_decide (ctrStr ∈ mem_set (lookup_window fullKey w t)));
  if seen : bool then mret tt else
  prev ← tget persistTail;
  tmod (record self fullKey w ctrStr);;
  persist_link self fullKey w prev;;
  pause.

(** ** clear *)

Definition clearP (key : string) : DP unit :=
  off ← offP;
  if off : bool then mret tt else
  fullKey ← storeKeyP key;
  catchP (dbP;; idbDeleteKeyP fullKey) (fun _ => mret tt);;
  tmod (fun t => t <| tab_mem ::= delete fullKey |> <| hydrating ::= delete fullKey |>
                   <| tab_persisting ::= delete fullKey |>).

(** ** Tabs and calls that overlap *)

Inductive GuardCall :=
| CallCheck (key : string) (ctr : Z)
| CallAccept (key : string) (ctr : Z)
| CallClear (key : string).

(** What a call resolves to. *)
Definition callP (self : nat) (call : GuardCall) : DP (option bool) :=
  match call with
  | CallCheck key ctr => b ← checkP self key ctr; mret (Some b)
  | CallAccept key ctr => acceptP self key ctr;; mret None
  | CallClear key => clearP key;; mret None
  end.

Record Job := mkJob { job_tab : nat; job_ns : string; job_call : GuardCall }.
Record Flight := mkFlight { fl_tab : nat; fl_run : Run DS js_error (option bool) }.

(** [journal] are the calls made so far, with the namespace of their guard; the number of a call is
    its place there. *)
Record Browser := mkBrowser {
  origin : Origin;
  open_tabs : gmap nat Tab;
  flights : gmap nat Flight;
  journal : list Job
}.

(** [Faults] says which requests succeed from now on. *)
Inductive BrowserEvent :=
| OpenTab (t : nat) (namespace : string) (window : option jsnum) (requireAvailable : bool)
| CloseTab (t : nat)
| Begin (t : nat) (call : GuardCall)
| Resume (n : nat)
| Faults (opens reads writes deletes locks_granted : bool).

Definition settle_piece (b : Browser) (t n : nat) (x : Run DS js_error (option bool) * DS) : Browser :=
  mkBrowser x.2.2 (<[t := x.2.1]> (open_tabs b)) (<[n := mkFlight t x.1]> (flights b)) (journal b).

(** A realm that ends takes its calls with it and gives up their locks. *)
Definition close_tab (t : nat) (b : Browser) : Browser :=
  mkBrowser
    ((origin b) <| locks ::= filter (fun kv => job_tab <$> journal b !! kv.2 <> Some t) |>)
    (delete t (open_tabs b)) (filter (fun kv => fl_tab kv.2 <> t) (flights b)) (journal b).

Definition browser_step (b : Browser) (ev : BrowserEvent) : Browser :=
  match ev with
  | OpenTab t ns n require =>
      match open_tabs b !! t, newTab (idb (origin b)) ns n require with
      | None, Ok tab => mkBrowser (origin b) (<[t := tab]> (open_tabs b)) (flights b) (journal b)
      | _, _ => b
      end
  | CloseTab t => close_tab t b
  | Begin t call =>
      match open_tabs b !! t with
      | Some tab =>
          let n := length (journal b) in
          settle_piece (mkBrowser (origin b) (open_tabs b) (flights b) (journal b ++ [mkJob t (tab_namespace tab) call]))
            t n (callP n call (tab, origin b))
      | None => b
      end
  | Resume n =>
      match flights b !! n with
      | Some (mkFlight t (Waiting ready k)) =>
          match open_tabs b !! t with
          | Some tab => if ready (tab, origin b) then settle_piece b t n (k (tab, origin b)) else b
          | None => b
          end
      | _ => b
      end
  | Faults o r w d l =>
      mkBrowser ((origin b) <| idb ::= fun e => mkIdb (idbAvailable e) (locksAvailable e) o r w d l (store e) |>)
        (open_tabs b) (flights b) (journal b)
  end.

Definition run_browser (b : Browser) (evs : list BrowserEvent) : Browser := foldl browser_step b evs.

(** A browser in which no tab is open. *)
Definition idle_browser (e : Idb) : Browser := mkBrowser (mkOrigin e ∅) ∅ ∅ [].

(** Let call [n] go on, long enough for any call that nothing blocks. *)
Definition finish_call (n : nat) : list BrowserEvent := replicate 20 (Resume n).
