(* ===== verification/DurableRules.v ===== *)
(** * DurableRules: proof rules for the operations of the guard with awaits

    For a rely [R] and a guarantee [G], what a caller has to show about the pieces of each operation
    to know what holds when it is over. An assertion is a [frame] when the others cannot falsify it,
    and when the writes that only concern the database handle and the warning flags are harmless. *)
From S2P Require Import Prelude StateLogic Async Rely Errors Internal Replay Durable DurableAsync.
#[local] Open Scope Z_scope.

(** Writes that no property looks at. *)
Inductive quiet : relation DS :=
| quiet_db s : quiet s (s.1 <| tab_db := Some (default (opens (idb s.2)) (tab_db s.1)) |>, s.2)
| quiet_read s : quiet s (s.1 <| tab_warnedRead := true |>, s.2)
| quiet_persist s : quiet s (s.1 <| tab_warnedPersist := true |>, s.2).

Tactic Notation "rg_apply" uconstr(lem) := apply lem; try lazymatch goal with |- PreOrder _ => apply _ end.

Section Rules.
Context (R G : relation DS) `{!PreOrder G}.
Implicit Types (p q : DS -> Prop).

Definition stable p : Prop := forall s s', R s s' -> p s -> p s'.
Definition frame p : Prop := stable p /\ forall s s', quiet s s' -> p s -> G s s' /\ p s'.

(** ** IndexedDB *)

Lemma rg_tget {A} p (Q : A -> DS -> Prop) (f : Tab -> A) :
  (forall s, p s -> Q (f s.1) s) ->
  rg R G p (fun r s => match r with Ok a => Q a s | Throw _ => False end) (tget f).
Proof. intros HQ. by rg_apply rg_gets. Qed.

Lemma rg_oget {A} p (Q : A -> DS -> Prop) (f : Idb -> A) :
  (forall s, p s -> Q (f (idb s.2)) s) ->
  rg R G p (fun r s => match r with Ok a => Q a s | Throw _ => False end) (oget f).
Proof. intros HQ. by rg_apply rg_gets. Qed.

Lemma rg_tmod p q f :
  (forall s, p s -> G s (f s.1, s.2) /\ q (f s.1, s.2)) ->
  rg R G p (fun r s => match r with Ok _ => q s | Throw _ => False end) (tmod f).
Proof. intros Hf. rg_apply rg_piece. apply Hf. Qed.

(** Like [rg_bind] where the first computation never throws. *)
Lemma rg_then {A B} p (Q : A -> DS -> Prop) (Q' : res B -> DS -> Prop) (m : DP A) (k : A -> DP B) :
  rg R G p (fun r s => match r with Ok a => Q a s | Throw _ => False end) m ->
  (forall a, rg R G (Q a) Q' (k a)) -> rg R G p Q' (m ≫= k).
Proof.
  intros Hm Hk. rg_apply (rg_bind _ _ _ Q); [|done]. eapply rg_weaken; [done| |exact Hm]. by intros [a|e] s.
Qed.

Lemma rg_wait_stable p : stable p ->
  rg R G p (fun (r : res unit) s => match r with Ok _ => p s | Throw _ => False end) pause.
Proof.
  intros Hp. rg_apply rg_pause.
  intros s s' Hs HR. by eapply Hp.
Qed.

Lemma rg_post {A} p (Q Q' : res A -> DS -> Prop) (m : DP A) :
  (forall r s, Q r s -> Q' r s) -> rg R G p Q m -> rg R G p Q' m.
Proof. by apply rg_weaken. Qed.

(** A fact that does not depend on the state. *)
Lemma rg_pure {A} p (P0 : Prop) (Q : res A -> DS -> Prop) m :
  (P0 -> rg R G p Q m) -> rg R G (fun s => p s /\ P0) Q m.
Proof. intros Hm s [Hs HP]. by apply Hm. Qed.

Lemma rg_fail {A} p (Q : res A -> DS -> Prop) :
  (forall s, p s -> Q (Throw DomException) s) -> rg R G p Q failD.
Proof. intros HT. rg_apply rg_piece. intros s Hs. split; [reflexivity|by apply HT]. Qed.

Lemma rg_outcome (ok : bool) p (T : DS -> Prop) :
  rg R G (fun s => p s /\ (ok = false -> T s))
    (fun r s => match r with Ok _ => p s | Throw _ => T s end) (if ok then mret tt else failD).
Proof.
  destruct ok; [rg_apply rg_ret; by intros s [? _]|]. apply rg_fail. intros s [_ HT]. by apply HT.
Qed.

Lemma stable_and p q : stable p -> stable q -> stable (fun s => p s /\ q s).
Proof. intros Hp Hq s s' HR [? ?]. split; [by eapply Hp|by eapply Hq]. Qed.

Lemma stable_impl (P0 : Prop) p : stable p -> stable (fun s => P0 -> p s).
Proof. intros Hp s s' HR H HP. eapply Hp; [exact HR|]. by apply H. Qed.

Lemma rg_db p (T : DS -> Prop) :
  frame p -> stable T -> (forall s, p s -> tab_db s.1 = Some false -> T s) ->
  rg R G p (fun r s => match r with Ok _ => p s | Throw _ => T s end) dbP.
Proof.
  intros [Hs Hq] HsT HT. unfold dbP.
  apply (rg_then _ (fun o s => p s /\ o = tab_db s.1)); [by apply rg_tget|]. intros o.
  apply (rg_then _ (fun ok s => p s /\ (ok = false -> T s))).
  - destruct o as [ok|].
    + rg_apply rg_ret. intros s [Hp Ho]. split; [done|]. intros ->. by apply HT.
    + apply (rg_then _ (fun ok s => p s /\ None = tab_db s.1 /\ ok = opens (idb s.2))).
      { apply rg_oget. by intros s [? ?]. }
      intros ok. apply (rg_then _ (fun _ s => p s /\ (ok = false -> T s))); [|intros _; by rg_apply rg_ret].
      rg_apply rg_piece. intros s (Hp & Hdb & ->). pose proof (quiet_db s) as Hqs. rewrite <- Hdb in Hqs.
      destruct (Hq _ _ Hqs Hp) as [HG Hp']. split; [exact HG|]. split; [exact Hp'|]. intros Ho.
      apply (HT _ Hp'). cbn. by rewrite Ho.
  - intros ok. apply (rg_then _ (fun _ s => p s /\ (ok = false -> T s))).
    + by apply rg_wait_stable, stable_and, stable_impl.
    + intros _. apply rg_outcome.
Qed.

(** [T]: what holds when the read fails. *)
Lemma rg_read p (Q : option PersistedWindow -> DS -> Prop) (T : DS -> Prop) fk :
  stable p -> (forall cur, stable (Q cur)) -> stable T ->
  (forall s, p s -> Q (store (idb s.2) !! (tab_namespace s.1, fk)) s) ->
  (forall s, p s -> reads (idb s.2) = false -> T s) ->
  rg R G p (fun r s => match r with Ok cur => Q cur s | Throw _ => T s end) (idbReadP fk).
Proof.
  intros Hs HsQ HsT HQ HT. unfold idbReadP.
  apply (rg_then _ (fun _ => p)); [by apply rg_wait_stable|]. intros _.
  apply (rg_then _ (fun ok s => p s /\ (ok = false -> T s))); [apply rg_oget; eauto|]. intros ok.
  apply (rg_then _ (fun ns s => (p s /\ (ok = false -> T s)) /\ ns = tab_namespace s.1)); [by apply rg_tget|].
  intros ns. apply (rg_then _ (fun cur s => Q cur s /\ (ok = false -> T s))).
  { apply rg_oget. intros s [[Hp Hok] ->]. eauto. }
  intros cur. apply (rg_then _ (fun _ s => Q cur s /\ (ok = false -> T s))).
  { by apply rg_wait_stable, stable_and, stable_impl. }
  intros _. destruct ok; [rg_apply rg_ret; by intros s [? _]|]. apply rg_fail. intros s [_ H]. by apply H.
Qed.

Definition written (fk : string) (v : PersistedWindow) (s : DS) : DS :=
  (s.1, s.2 <| idb ::= fun e => e <| store ::= <[(tab_namespace s.1, fk) := v]> |> |>).

Lemma rg_write p q (T : DS -> Prop) fk v :
  stable p -> stable q -> stable T ->
  (forall s, p s -> G s (written fk v s) /\ q (written fk v s)) ->
  (forall s, p s -> writes (idb s.2) = false -> T s) ->
  rg R G p (fun r s => match r with Ok _ => q s | Throw _ => T s end) (idbWriteP fk v).
Proof.
  intros Hs Hsq HsT Hw HT. unfold idbWriteP.
  apply (rg_then _ (fun _ => p)); [by apply rg_wait_stable|]. intros _.
  apply (rg_then _ (fun ok s => p s /\ (ok = false -> T s))); [apply rg_oget; eauto|]. intros ok.
  apply (rg_then _ (fun ns s => (p s /\ (ok = false -> T s)) /\ ns = tab_namespace s.1)); [by apply rg_tget|].
  intros ns. destruct ok; cbn [negb].
  - apply (rg_then _ (fun _ => q)).
    { rg_apply rg_piece. intros s [[Hp _] ->]. by apply Hw. }
    intros _. apply (rg_then _ (fun _ => q)); [by apply rg_wait_stable|]. intros _. by rg_apply rg_ret.
  - apply (rg_then _ (fun _ => T)).
    { rg_apply rg_ret. intros s [[Hp HT'] _]. by apply HT'. }
    intros _. apply (rg_then _ (fun _ => T)); [by apply rg_wait_stable|]. intros _. by apply rg_fail.
Qed.

Definition erased (fk : string) (s : DS) : DS :=
  (s.1, s.2 <| idb ::= fun e => e <| store ::= delete (tab_namespace s.1, fk) |> |>).

Lemma rg_erase p fk :
  stable p -> (forall s, p s -> G s (erased fk s) /\ p (erased fk s)) ->
  rg R G p (fun _ => p) (idbDeleteKeyP fk).
Proof.
  intros Hs He. unfold idbDeleteKeyP. apply (rg_then _ (fun _ => p)); [by apply rg_wait_stable|].
  intros _. apply (rg_then _ (fun _ => p)); [by apply rg_oget|]. intros ok.
  apply (rg_then _ (fun ns s => p s /\ ns = tab_namespace s.1)); [by apply rg_tget|]. intros ns.
  apply (rg_then _ (fun _ => p)).
  { destruct ok; [|rg_apply rg_ret; by intros s [? _]]. rg_apply rg_piece. intros s [Hp ->]. by apply He. }
  intros _. apply (rg_then _ (fun _ => p)); [by apply rg_wait_stable|]. intros _.
  destruct ok; [by rg_apply rg_ret|]. rg_apply rg_piece. intros s Hp. split; [reflexivity|done].
Qed.

(** ** hydrate *)

(** [own]: this call loads the window; [lost]: a request failed; [loaded_ok o]: it is about to install
    [o]; [wait_on i]: promise [i] is awaited; [got w]: window object [w] is at hand. *)
Section Hydrate.
Context (self : nat) (fk : string) (n : Z) (p own lost : DS -> Prop) (loaded_ok : list string -> DS -> Prop)
  (wait_on got : nat -> DS -> Prop).
Hypothesis (Hown : frame own) (Hlost : frame lost) (Hload : forall o, stable (loaded_ok o))
  (Hwait : forall i, stable (wait_on i)) (Hgot : forall w, stable (got w)).
Hypothesis (Hcached : forall s w, p s -> tab_mem s.1 !! fk = Some w -> got w s).
Hypothesis (Hinflight : forall s i, p s -> tab_mem s.1 !! fk = None -> hydrating s.1 !! fk = Some i -> wait_on i s).
Hypothesis (Hstart : forall s, p s -> tab_mem s.1 !! fk = None -> hydrating s.1 !! fk = None ->
  G s (s.1 <| hydrating ::= <[fk := self]> |>, s.2) /\ own (s.1 <| hydrating ::= <[fk := self]> |>, s.2)).
Hypothesis (Hn : forall s, own s -> tab_window s.1 = n).
Hypothesis (Hlost_db : forall s, own s -> tab_db s.1 = Some false -> lost s).
Hypothesis (Hlost_read : forall s, own s -> reads (idb s.2) = false -> lost s).
Hypothesis (Hempty : forall s, lost s -> loaded_ok [] s).
Hypothesis (Hread : forall s, own s ->
  loaded_ok (stored_order n (store (idb s.2) !! (tab_namespace s.1, fk))) s).
Hypothesis (Hinstall : forall s o, loaded_ok o s ->
  G s (install self fk o s.1, s.2) /\ wait_on self (install self fk o s.1, s.2)).
Hypothesis (Hresolved : forall s i w, wait_on i s -> hydrated s.1 !! (fk, i) = Some w -> got w s).

Lemma rg_await i :
  rg R G (wait_on i) (fun r s => match r with Ok w => got w s | Throw _ => False end) (await_hydrate fk i).
Proof using All.
  rg_apply rg_wait. intros s s' Hs HR Hr. apply bool_decide_eq_true in Hr as [w Hw]. split; [reflexivity|].
  cbn. rewrite Hw. eapply Hresolved; [|exact Hw]. by eapply Hwait.
Qed.

Lemma rg_load :
  rg R G own (fun (r : res unit) s => match r with Ok _ => wait_on self s | Throw _ => False end) (loadP self fk).
Proof using All.
  unfold loadP. apply (rg_then _ (fun m s => own s /\ m = n)); [apply rg_tget; intros s Hs; by rewrite (Hn s)|].
  intros m. apply rg_pure. intros ->. apply (rg_then _ loaded_ok); [|intros o; apply rg_tmod; intros s; apply Hinstall].
  apply (rg_catch _ _ _ _ (fun _ => lost)).
  - apply (rg_bind _ _ _ (fun _ => own)).
    + eapply rg_post; [|apply (rg_db own lost); [done|apply Hlost|done]]. by intros [[]|e] s.
    + intros _. apply (rg_bind _ _ _ (fun cur => loaded_ok (stored_order n cur))).
      * eapply rg_post; [|apply (rg_read own (fun cur => loaded_ok (stored_order n cur)) lost)];
          [by intros [|] s|apply Hown|intros cur; apply Hload|apply Hlost|apply Hread|done].
      * intros cur. by rg_apply rg_ret.
  - intros e. apply (rg_then _ (fun _ => lost)).
    + apply rg_tmod. intros s Hs. by destruct (proj2 Hlost _ _ (quiet_read s) Hs).
    + intros _. rg_apply rg_ret. apply Hempty.
Qed.

Lemma rg_hydrate :
  rg R G p (fun r s => match r with Ok w => got w s | Throw _ => False end) (hydrateP self fk).
Proof using All.
  unfold hydrateP. apply (rg_then _ (fun o s => p s /\ o = tab_mem s.1 !! fk)); [by apply rg_tget|]. intros [w|].
  { apply (rg_then _ (fun _ => got w)); [|intros _; by rg_apply rg_ret].
    eapply rg_weaken; [| |apply rg_wait_stable, (Hgot w)]; [|done]. intros s [Hs Hm]. by eapply Hcached. }
  apply (rg_then _ (fun o s => (p s /\ None = tab_mem s.1 !! fk) /\ o = hydrating s.1 !! fk)); [by apply rg_tget|].
  intros [i|].
  { eapply rg_weaken; [|intros r s HQ; exact HQ|apply rg_await]. intros s [[Hs Hm] Hh]. by apply Hinflight. }
  apply (rg_then _ (fun _ => own)).
  { apply rg_tmod. intros s [[Hs Hm] Hh]. by apply Hstart. }
  intros _. apply (rg_then _ (fun _ => wait_on self)); [apply rg_load|]. intros _. apply rg_await.
Qed.

End Hydrate.

(** ** The persist under the lock *)

Definition acquired (self : nat) (name : string) (s : DS) : DS :=
  (s.1, s.2 <| locks ::= <[name := self]> |>).
Definition released (name : string) (s : DS) : DS := (s.1, s.2 <| locks ::= delete name |>).
Definition merged_in (fk : string) (w : nat) (l : list string) (s : DS) : DS :=
  (put_window fk w {| mem_set := l; mem_order := l |} s.1, s.2).

(** [link]: the persist is due; [held]: the lock is held; [seen_ok l]: [l] was read under the lock;
    [merged l]: the window in memory is [l]; [done_]: [l] is stored; [bad]: a request failed. *)
Section Persist.
Context (self : nat) (fk : string) (w : nat) (link held : DS -> Prop)
  (seen_ok merged : list string -> DS -> Prop) (done_ bad okf badf : DS -> Prop).
Hypothesis (Hlink : stable link) (Hheld : frame held) (Hseen : forall l, stable (seen_ok l))
  (Hmerged : forall l, stable (merged l)) (Hdone : stable done_) (Hbad : stable bad)
  (Hokf : stable okf) (Hbadf : stable badf).
Hypothesis (Hdenied : forall s, link s -> locks_granted (idb s.2) = false -> badf s).
Hypothesis (Hacquire : forall s, link s -> locks s.2 !! lock_name fk = None ->
  G s (acquired self (lock_name fk) s) /\ held (acquired self (lock_name fk) s)).
Hypothesis (Hdb : forall s, held s -> tab_db s.1 = Some false -> bad s).
Hypothesis (Hread : forall s, held s ->
  seen_ok (default [] (persisted_seen (store (idb s.2) !! (tab_namespace s.1, fk)))) s).
Hypothesis (Hunread : forall s, held s -> reads (idb s.2) = false -> seen_ok [] s).
Hypothesis (Hmerge : forall l s, seen_ok l s ->
  G s (merged_in fk w (merged_order l fk w s.1) s) /\
  merged (merged_order l fk w s.1) (merged_in fk w (merged_order l fk w s.1) s)).
Hypothesis (Hwrite : forall l s, merged l s ->
  G s (written fk (mkPersisted 1 (Some l)) s) /\ done_ (written fk (mkPersisted 1 (Some l)) s)).
Hypothesis (Hunwritten : forall l s, merged l s -> writes (idb s.2) = false -> bad s).
Hypothesis (Hrelease : forall s, done_ s -> G s (released (lock_name fk) s) /\ okf (released (lock_name fk) s)).
Hypothesis (Hgiveup : forall s, bad s -> G s (released (lock_name fk) s) /\ badf (released (lock_name fk) s)).

Lemma rg_merge :
  rg R G held (fun r s => match r with Ok _ => done_ s | Throw _ => bad s end) (mergeP fk w).
Proof using All.
  unfold mergeP. apply (rg_bind _ _ _ (fun _ => held)).
  { eapply rg_post; [|by apply (rg_db held bad)]. by intros [[]|e] s. }
  intros _. apply (rg_then _ seen_ok).
  { apply (rg_catch _ _ _ _ (fun _ => seen_ok [])); [|intros e; by rg_apply rg_ret].
    apply (rg_bind _ _ _ (fun cur => seen_ok (default [] (persisted_seen cur)))).
    - eapply rg_post; [|apply (rg_read held (fun cur => seen_ok (default [] (persisted_seen cur))) (seen_ok []))];
        [by intros [|] s|apply Hheld|intros cur; apply Hseen|apply Hseen|done|done].
    - intros cur. by rg_apply rg_ret. }
  intros seen. apply (rg_then _ (fun m s => seen_ok seen s /\ m = merged_order seen fk w s.1)); [by apply rg_tget|].
  intros m. apply (rg_then _ (fun _ => merged m)).
  { apply rg_piece. intros s [Hs ->]. by apply Hmerge. }
  intros _. apply (rg_write (merged m) done_ bad); try done; eauto.
Qed.

Lemma rg_persist :
  rg R G link (fun r s => match r with Ok _ => okf s | Throw _ => badf s end) (persistMergedP self fk w).
Proof using All.
  unfold persistMergedP, with_lock.
  apply (rg_then _ (fun ok s => link s /\ (ok = false -> badf s))); [apply rg_oget; eauto|]. intros granted.
  destruct granted; cbn [negb].
  2: { apply (rg_then _ (fun _ => badf)); [|intros _; by apply rg_fail].
       eapply rg_weaken; [|intros r s HQ; exact HQ|by apply (rg_wait_stable badf)]. intros s [_ Hs]. by apply Hs. }
  apply (rg_then _ (fun _ => held)).
  { rg_apply rg_wait. intros s s' [Hs _] HR Hf. apply bool_decide_eq_true in Hf. apply Hacquire; [|done]. by eapply Hlink. }
  intros _. apply (rg_then _ (fun r s => match r with Ok _ => done_ s | Throw _ => bad s end)).
  { apply rg_attempt, rg_merge. }
  intros r. apply (rg_then _ (fun _ s => match r with Ok _ => okf s | Throw _ => badf s end)).
  { apply rg_piece. intros s Hs. destruct r; [by apply Hrelease|by apply Hgiveup]. }
  intros _. apply (rg_then _ (fun _ s => match r with Ok _ => okf s | Throw _ => badf s end)).
  { apply rg_wait_stable. by destruct r. }
  intros _. apply rg_piece. intros s Hs. split; [reflexivity|]. by destruct r.
Qed.

End Persist.

(** ** accept *)

Section Accept.
Context (self : nat) (fk : string) (w : nat) (link okf badf post : DS -> Prop).
Hypothesis (Hlink : stable link) (Hokf : stable okf) (Hbadf : frame badf).
Hypothesis (Hpersist :
  rg R G link (fun r s => match r with Ok _ => okf s | Throw _ => badf s end) (persistMergedP self fk w)).
Definition link_done (s : DS) : DS :=
  (releasePersistingP fk s.1 <| tails ::= <[self := true]> |>, s.2).
Hypothesis (Hsettle : forall s, okf s \/ badf s -> G s (link_done s) /\ post (link_done s)).

Lemma rg_link prev :
  rg R G link (fun r s => match r with Ok _ => post s | Throw _ => False end) (persist_link self fk w prev).
Proof using All.
  unfold persist_link. apply (rg_then _ (fun _ => link)).
  { destruct prev as [i|]; [|by apply rg_wait_stable]. rg_apply rg_wait. intros s s' Hs HR _.
    split; [reflexivity|]. by eapply Hlink. }
  intros _. apply (rg_then _ (fun _ s => okf s \/ badf s)).
  { apply (rg_catch _ _ _ _ (fun _ => badf)).
    - eapply rg_post; [|exact Hpersist]. intros [[]|e] s Hs; [by left|done].
    - intros e. unfold warnPersistFailP. apply rg_piece. intros s Hs.
      destruct (proj2 Hbadf _ _ (quiet_persist s) Hs). split; [done|by right]. }
  intros _. apply rg_tmod. apply Hsettle.
Qed.

End Accept.

End Rules.
