(* ===== verification/DurableTabs.v ===== *)
(** * DurableTabs: calls of the guard that overlap, in several tabs

    A [Discipline] says what holds of every open tab ([inv]), what a call may do ([guar]) and what it
    may assume of the others ([rely]); [discipline_run] is its soundness: along any run every tab is
    in its invariant and every call in flight is as its triple says. The instances, for the
    properties of the guard, are in [DurableSafe]. *)
From S2P Require Import Prelude StateLogic Async Rely Errors Internal Replay Durable DurableAsync.
#[local] Open Scope Z_scope.

(** ** The journal only grows *)

Lemma journal_step b ev : journal b `prefix_of` journal (browser_step b ev).
Proof.
  destruct ev as [t ns n require|t|t call|n|o r w d l]; cbn [browser_step]; try done.
  - repeat case_match; done.
  - case_match; [|done]. by apply prefix_app_r.
  - by repeat case_match.
Qed.

Lemma journal_run b evs : journal b `prefix_of` journal (run_browser b evs).
Proof.
  revert b. induction evs as [|ev evs IH]; intros b; [done|]. cbn [run_browser foldl].
  etransitivity; [apply journal_step|]. apply IH.
Qed.

Lemma run_browser_app b evs evs' : run_browser b (evs ++ evs') = run_browser (run_browser b evs) evs'.
Proof. apply foldl_app. Qed.

Section Tabs.
(** The calls of the whole run. *)
Context (jobs : list Job).

Definition tab_of (n : nat) : option nat := job_tab <$> jobs !! n.

(** What closing tab [t] and a change of the faults may do to the origin. *)
Definition locks_of_others (t : nat) (o o' : Origin) : Prop :=
  idb o' = idb o /\
  forall name n, tab_of n <> Some t -> locks o !! name = Some n -> locks o' !! name = Some n.

Definition same_store (o1 r w d l : bool) (o o' : Origin) : Prop :=
  locks o' = locks o /\ store (idb o') = store (idb o) /\
  idbAvailable (idb o') = idbAvailable (idb o) /\ locksAvailable (idb o') = locksAvailable (idb o) /\
  opens (idb o') = o1 /\ reads (idb o') = r /\ writes (idb o') = w /\ deletes (idb o') = d /\
  locks_granted (idb o') = l.

Class Discipline (allowed : BrowserEvent -> Prop) (org : Origin -> Prop) (inv : nat -> DS -> Prop) (rely guar : nat -> relation DS)
    (unused : nat -> Tab -> Prop) (pre : nat -> DS -> Prop)
    (post : nat -> result js_error (option bool) -> DS -> Prop) := {
  guar_preorder n :: PreOrder (guar n);
  rely_trans n :: Transitive (rely n);
  rely_refl n t s : tab_of n = Some t -> inv t s -> rely n s s;
  org_piece n t s s' : tab_of n = Some t -> guar n s s' -> inv t s -> org s.2 -> org s'.2;
  org_close t o o' : locks_of_others t o o' -> org o -> org o';
  org_faults o1 r w d l o o' : allowed (Faults o1 r w d l) -> same_store o1 r w d l o o' -> org o -> org o';
  inv_open t ns n require tab o : allowed (OpenTab t ns n require) -> org o ->
    newTab (idb o) ns n require = Ok tab -> inv t (tab, o);
  unused_open n e ns w require tab : newTab e ns w require = Ok tab -> unused n tab;
  unused_guar n m t s s' : tab_of m = Some t -> n <> m -> guar m s s' -> inv t s -> unused n s.1 -> unused n s'.1;
  inv_own n t s s' : tab_of n = Some t -> guar n s s' -> inv t s -> inv t s';
  inv_other n t t' s s' tab : tab_of n = Some t -> t' <> t -> guar n s s' -> inv t s ->
    inv t' (tab, s.2) -> inv t' (tab, s'.2);
  rely_own n m t s s' : tab_of n = Some t -> tab_of m = Some t -> n <> m -> guar n s s' -> inv t s ->
    rely m s s';
  rely_other n m t t' s s' tab : tab_of n = Some t -> tab_of m = Some t' -> t <> t' -> guar n s s' ->
    inv t s -> inv t' (tab, s.2) -> rely m (tab, s.2) (tab, s'.2);
  inv_close t t' tab o o' : t' <> t -> locks_of_others t o o' -> inv t' (tab, o) -> inv t' (tab, o');
  rely_close t t' m tab o o' : t' <> t -> tab_of m = Some t' -> locks_of_others t o o' ->
    inv t' (tab, o) -> rely m (tab, o) (tab, o');
  inv_faults o1 r w d l t tab o o' : allowed (Faults o1 r w d l) -> same_store o1 r w d l o o' ->
    inv t (tab, o) -> inv t (tab, o');
  rely_faults o1 r w d l m t tab o o' : allowed (Faults o1 r w d l) -> tab_of m = Some t ->
    same_store o1 r w d l o o' -> inv t (tab, o) -> rely m (tab, o) (tab, o');
  post_stable n r s s' : rely n s s' -> post n r s -> post n r s';
  call_rg n j : jobs !! n = Some j ->
    rg (rely n) (guar n) (fun s => tab_namespace s.1 = job_ns j /\ inv (job_tab j) s /\ unused n s.1 /\ pre n s) (post n)
      (callP n (job_call j))
}.

Section Sound.
Context `{HD : Discipline allowed org inv rely guar unused pre post}.

Record in_order (b : Browser) : Prop := {
  io_jobs : journal b `prefix_of` jobs;
  io_origin : org (origin b);
  io_inv t tab : open_tabs b !! t = Some tab -> inv t (tab, origin b);
  io_unused t tab n : open_tabs b !! t = Some tab -> (length (journal b) <= n)%nat -> unused n tab;
  io_flights n fl : flights b !! n = Some fl -> exists tab,
    tab_of n = Some (fl_tab fl) /\ open_tabs b !! fl_tab fl = Some tab /\
    (n < length (journal b))%nat /\ rest_rg (rely n) (guar n) (post n) (fl_run fl) (tab, origin b)
}.

Lemma rest_rely n x s s' :
  rely n s s' -> rest_rg (rely n) (guar n) (post n) x s -> rest_rg (rely n) (guar n) (post n) x s'.
Proof.
  intros Hs. apply rest_rg_stable; [apply _| |done]. intros r s1 s2 H12. by apply post_stable.
Qed.

(** A piece of call [n] of tab [t], which ends in [s'], with [x] left of it. *)
Lemma in_order_piece b t n tab x s' :
  in_order b -> open_tabs b !! t = Some tab -> tab_of n = Some t -> (n < length (journal b))%nat ->
  guar n (tab, origin b) s' -> rest_rg (rely n) (guar n) (post n) x s' ->
  in_order (settle_piece b t n (x, s')).
Proof.
  intros [Hj Ho Hi Hu Hf] Ht Hn Hlen HG Hx. pose proof (Hi _ _ Ht) as Hinv. split.
  - done.
  - by eapply org_piece in HG.
  - intros t' tab'. cbn [settle_piece open_tabs origin snd]. rewrite lookup_insert_Some.
    intros [[<- <-]|[Hne Ht']].
    + destruct s' as [tab' o']. by eapply inv_own.
    + eapply inv_other; [exact Hn|congruence|exact HG|done|]. by apply Hi.
  - intros t' tab' m. cbn [settle_piece open_tabs journal fst snd]. rewrite lookup_insert_Some.
    intros [[<- <-]|[Hne Ht']] Hm; [|by eapply Hu].
    eapply (unused_guar m n t); [done|lia|exact HG|done|]. by eapply Hu.
  - intros m fl. cbn [settle_piece flights origin open_tabs journal fst snd]. rewrite lookup_insert_Some.
    intros [[<- <-]|[Hne Hm]].
    + exists s'.1. cbn [fl_tab fl_run]. rewrite lookup_insert_eq. by destruct s'.
    + destruct (Hf _ _ Hm) as (tab' & Htm & Ht' & Hl & Hrest). destruct (decide (fl_tab fl = t)) as [E|E].
      * exists s'.1. rewrite E, lookup_insert_eq. split_and!; [congruence|done|done|].
        rewrite E in Ht'. assert (tab' = tab) as -> by congruence. destruct s' as [tab2 o2].
        eapply rest_rely; [|exact Hrest]. eapply (rely_own n m t); eauto. congruence.
      * exists tab'. rewrite lookup_insert_ne by done. split_and!; [done|done|done|].
        eapply rest_rely; [|exact Hrest].
        eapply (rely_other n m t (fl_tab fl) (tab, origin b) s' tab'); eauto.
Qed.

Lemma in_order_close b t : in_order b -> in_order (close_tab t b).
Proof.
  intros [Hj Ho Hi Hu Hf].
  assert (locks_of_others t (origin b) (origin (close_tab t b))) as Hlk.
  { split; [done|]. intros name n Hn Hl. apply map_lookup_filter_Some. split; [done|]. cbn [snd].
    intros Hjn. apply Hn. unfold tab_of. destruct (journal b !! n) as [j|] eqn:E; [|done].
    eapply prefix_lookup_Some in E; [|exact Hj]. by rewrite E. }
  split; [done|by eapply org_close| | |].
  - intros t' tab. cbn [close_tab open_tabs]. rewrite lookup_delete_Some. intros [Hne Ht'].
    eapply (inv_close t t' tab (origin b)); [congruence|exact Hlk|by apply Hi].
  - intros t' tab n. cbn [close_tab open_tabs journal]. rewrite lookup_delete_Some. intros [_ Ht']. by eapply Hu.
  - intros n fl. cbn [close_tab flights]. rewrite map_lookup_filter_Some. cbn [snd]. intros [Hn Hne].
    destruct (Hf _ _ Hn) as (tab & Htn & Ht & Hl & Hrest). exists tab. cbn [close_tab open_tabs].
    rewrite lookup_delete_ne by done. split_and!; [done|done|done|]. eapply rest_rely; [|exact Hrest].
    eapply (rely_close t (fl_tab fl) n tab (origin b)); [done|done|exact Hlk|by apply Hi].
Qed.

(** What an event needs: to be allowed, and that its call meets its precondition. *)
Definition event_ok (b : Browser) (ev : BrowserEvent) : Prop :=
  allowed ev /\
  match ev with
  | Begin t call => forall tab, open_tabs b !! t = Some tab -> pre (length (journal b)) (tab, origin b)
  | _ => True
  end.

Lemma in_order_step b ev :
  in_order b -> event_ok b ev -> journal (browser_step b ev) `prefix_of` jobs ->
  in_order (browser_step b ev).
Proof.
  intros Hb [Hall Hev] Hpre. destruct ev as [t ns n require|t|t call|n|o r w d l]; cbn [browser_step event_ok] in *.
  - destruct (open_tabs b !! t) eqn:Et; [done|].
    destruct (newTab _ _ _ _) as [tab|] eqn:En; [|done]. destruct Hb as [Hj Ho Hi Hu Hf]. split; [done|done| | |].
    + intros t' tab'. cbn. rewrite lookup_insert_Some.
      intros [[<- <-]|[_ ?]]; [by eapply inv_open|by apply Hi].
    + intros t' tab' m. cbn. rewrite lookup_insert_Some.
      intros [[<- <-]|[_ ?]] Hm; [by eapply unused_open|by eapply Hu].
    + intros m fl Hm. destruct (Hf _ _ Hm) as (tab' & ? & ? & ? & ?). exists tab'. cbn [open_tabs].
      rewrite lookup_insert_ne by congruence. done.
  - by apply in_order_close.
  - destruct (open_tabs b !! t) as [tab|] eqn:Et; [|done].
    assert (jobs !! length (journal b) = Some (mkJob t (tab_namespace tab) call)) as Hjob.
    { eapply prefix_lookup_Some; [|exact Hpre]. cbn [journal settle_piece].
      rewrite lookup_app_r, Nat.sub_diag by done. done. }
    specialize (Hev _ eq_refl).
    destruct (call_rg (length (journal b)) _ Hjob (tab, origin b)) as [HG Hx].
    { split_and!; [done|by apply (io_inv _ Hb)|by eapply (io_unused _ Hb)|done]. }
    cbn [job_call] in *. set (n := length (journal b)) in *.
    set (b' := mkBrowser (origin b) (open_tabs b) (flights b) (journal b ++ [mkJob t (tab_namespace tab) call])).
    assert (in_order b') as Hb'.
    { destruct Hb as [Hj Ho Hi Hu Hf]. split; [done..| |].
      { intros t' tab' m Ht' Hm. eapply Hu; [exact Ht'|]. cbn [journal b'] in Hm. rewrite length_app in Hm. lia. }
      intros m fl Hm. destruct (Hf _ _ Hm) as (tab' & ? & ? & ? & ?).
      exists tab'. cbn [journal b']. rewrite length_app. split_and!; [done|done|lia|done]. }
    destruct (callP n call (tab, origin b)) as [x s']. apply (in_order_piece b' t n tab x s'); try done.
    + unfold tab_of. by rewrite Hjob.
    + cbn [journal b']. rewrite length_app. cbn. unfold n. lia.
  - destruct (flights b !! n) as [[t [r|ready k]]|] eqn:En; [done| |done].
    destruct (open_tabs b !! t) as [tab|] eqn:Et; [|done].
    destruct (ready (tab, origin b)) eqn:Er; [|done].
    destruct (io_flights _ Hb _ _ En) as (tab' & Htn & Ht & Hl & Hrest). cbn [fl_tab fl_run rest_rg] in *.
    assert (tab' = tab) as -> by congruence.
    assert (rest_rg (rely n) (guar n) (post n) (Waiting ready k) (tab, origin b)) as Hrest' by done.
    destruct (Hrest (tab, origin b)) as [HG Hx]; [|done|].
    { eapply rely_refl; [exact Htn|]. by apply (io_inv _ Hb). }
    destruct (k (tab, origin b)) as [x s']. by apply (in_order_piece b t n tab x s').
  - set (o' := _ <| idb ::= _ |>).
    assert (same_store o r w d l (origin b) o') as Hs by done.
    destruct Hb as [Hj Ho Hi Hu Hf]. split; [done|by eapply org_faults| |done|].
    + intros t tab Ht. eapply inv_faults; [exact Hall|exact Hs|by apply Hi].
    + intros n fl Hn. destruct (Hf _ _ Hn) as (tab & Htn & Ht & Hl & Hrest). exists tab.
      split_and!; [done|done|done|]. eapply rest_rely; [|exact Hrest].
      eapply rely_faults; eauto.
Qed.

(** Along a run whose new calls meet their preconditions. *)
Lemma discipline_run b evs :
  in_order b -> (forall ev, ev ∈ evs -> allowed ev) ->
  (forall n s, (length (journal b) <= n)%nat -> (n < length (journal (run_browser b evs)))%nat -> pre n s) ->
  journal (run_browser b evs) `prefix_of` jobs -> in_order (run_browser b evs).
Proof.
  revert b. induction evs as [|ev evs IH]; intros b Hb Hall Hpre Hj; [done|]. cbn [run_browser foldl] in *.
  fold (run_browser (browser_step b ev) evs) in *.
  pose proof (journal_run (browser_step b ev) evs) as Hgrow. pose proof (journal_step b ev) as Hstep.
  apply IH.
  - apply in_order_step; [done| |by etransitivity].
    split; [apply Hall; set_solver|]. destruct ev as [| |t call| |]; try done. intros tab Ht. apply Hpre; [done|].
    apply prefix_length in Hgrow. cbn [browser_step] in Hgrow. rewrite Ht in Hgrow.
    cbn [journal settle_piece] in Hgrow. rewrite length_app in Hgrow. cbn [browser_step]. rewrite Ht. cbn in *. lia.
  - intros ev' Hev'. apply Hall. set_solver.
  - intros n s Hn. apply Hpre. apply prefix_length in Hstep. lia.
  - done.
Qed.

Lemma in_order_idle e : org (mkOrigin e ∅) -> in_order (idle_browser e).
Proof. intros Ho. split; [apply prefix_nil|done..]. Qed.

End Sound.
End Tabs.
