(* ===== verification/DurableGenuine.v ===== *)
(** * DurableGenuine: the guard refuses nothing but replays (src/chat/durable-replay.ts)

    Under every interleaving of calls, in any number of tabs that open and close, and with every
    request of the storage failing or not: the windows hold nothing that was not accepted, and calls
    never reject. [Genuine] is the discipline; the other theorems on overlapping calls build on its
    invariant. *)
From S2P Require Import Prelude StateLogic Async Rely Errors Internal Replay Durable DurableAsync DurableRules DurableTabs.
#[local] Open Scope Z_scope.

Section Genuine.
(** The calls of the run, and what was stored before it. *)
Context (jobs : list Job) (init : gmap (string * string) PersistedWindow).

(** CTRs that may be in a window: stored before the run, or passed to [accept]. *)
Definition known (ns fk ctrStr : string) : Prop :=
  (exists l, persisted_seen (init !! (ns, fk)) = Some l /\ ctrStr ∈ l) \/
  exists n t key ctr, jobs !! n = Some (mkJob t ns (CallAccept key ctr)) /\
    fk = store_key ns key /\ ctrStr = pretty ctr.

Definition genuine_order (ns fk : string) (l : list string) : Prop :=
  NoDup l /\ forall x, x ∈ l -> known ns fk x.

Definition genuine_store (o : Origin) : Prop :=
  forall ns fk l, persisted_seen (store (idb o) !! (ns, fk)) = Some l -> genuine_order ns fk l.

Definition genuine_window (n : Z) (ns fk : string) (win : MemWindow) : Prop :=
  exists l, mirrors win l /\ genuine_order ns fk l /\ (length l <= Z.to_nat n)%nat.

Definition genuine (s : DS) : Prop :=
  genuine_store s.2 /\
  forall fk w, genuine_window (tab_window s.1) (tab_namespace s.1) fk (lookup_window fk w s.1).

(** The options of a guard. *)
Definition conf (s : DS) : bool * string * Z := (tab_available s.1, tab_namespace s.1, tab_window s.1).

(** What the browser offers, which never changes. *)
Definition capable (o : Origin) : bool * bool := (idbAvailable (idb o), locksAvailable (idb o)).

Definition genuine_rely (_ : nat) : relation DS := fun s s' => genuine s' /\ conf s' = conf s.
Definition genuine_guar (_ : nat) : relation DS := fun s s' =>
  (genuine s -> genuine s') /\ conf s' = conf s /\ capable s'.2 = capable s.2.

Definition genuine_post (n : nat) (r : res (option bool)) (_ : DS) : Prop :=
  is_ok r = true /\
  match jobs !! n with
  | Some (mkJob _ ns (CallCheck key ctr)) =>
      r = Ok (Some false) -> known ns (store_key ns key) (pretty ctr)
  | _ => True
  end.

(** ** Lemmas *)

#[export] Instance genuine_guar_preorder n : PreOrder (genuine_guar n).
Proof.
  split; [by split|]. intros s1 s2 s3 (H1 & E1 & C1) (H2 & E2 & C2). split; [auto|split; congruence].
Qed.

Lemma genuine_order_nil ns fk : genuine_order ns fk [].
Proof. split; [constructor|set_solver]. Qed.

Lemma genuine_order_lastn ns fk n l : genuine_order ns fk l -> genuine_order ns fk (lastn n l).
Proof. intros [Hnd Hk]. split; [by apply NoDup_lastn|]. intros x Hx. apply Hk. by apply subseteq_drop in Hx. Qed.

Lemma genuine_order_window n ns fk l :
  genuine_order ns fk l -> (length l <= Z.to_nat n)%nat -> genuine_window n ns fk (mkMem l l).
Proof. intros Hl Hn. by exists l. Qed.

Lemma genuine_put s fk w l :
  genuine s -> genuine_order (tab_namespace s.1) fk l -> (length l <= Z.to_nat (tab_window s.1))%nat ->
  genuine (put_window fk w (mkMem l l) s.1, s.2).
Proof.
  intros [Ho Hw] Hl Hn. split; [done|]. intros fk' w'. unfold lookup_window, put_window. cbn.
  destruct (decide ((fk, w) = (fk', w'))) as [[= <- <-]|Hne].
  - rewrite lookup_insert_eq. by apply genuine_order_window.
  - rewrite lookup_insert_ne by done. apply Hw.
Qed.

(** Writes to the fields that [genuine] does not look at. *)
Lemma genuine_same s s' :
  genuine s -> windows s'.1 = windows s.1 -> conf s' = conf s -> store (idb s'.2) = store (idb s.2) -> genuine s'.
Proof.
  intros [Ho Hw] Ew [= _ En Ec] Es. split.
  - unfold genuine_store. by rewrite Es.
  - intros fk w. unfold lookup_window. rewrite Ew, En, Ec. apply Hw.
Qed.

(** The assertion that is kept all along: [genuine], with the options [c]. *)
Definition at_conf (c : bool * string * Z) (s : DS) : Prop := genuine s /\ conf s = c.

Section Calls.
Context (self : nat).
#[local] Notation R := (genuine_rely self).
#[local] Notation G := (genuine_guar self).

Lemma at_conf_stable c : stable R (at_conf c).
Proof. intros s s' [Hg E] [_ <-]. done. Qed.

Lemma genuine_same_guar c s s' :
  windows s'.1 = windows s.1 -> conf s' = conf s -> store (idb s'.2) = store (idb s.2) ->
  capable s'.2 = capable s.2 -> at_conf c s ->
  G s s' /\ at_conf c s'.
Proof.
  intros Ew Ec Es Ecap [Hg <-]. split; [|split; [by eapply genuine_same|done]].
  split; [|done]. intros _. by eapply genuine_same.
Qed.

Lemma at_conf_frame c : frame R G (at_conf c).
Proof.
  split; [apply at_conf_stable|]. intros s s' Hq Hs. by destruct Hq; apply (genuine_same_guar c).
Qed.

Lemma genuine_put_guar c s fk w l :
  at_conf c s -> genuine_order (tab_namespace s.1) fk l -> (length l <= Z.to_nat (tab_window s.1))%nat ->
  G s (put_window fk w (mkMem l l) s.1, s.2) /\ at_conf c (put_window fk w (mkMem l l) s.1, s.2).
Proof.
  intros [Hg <-] Hl Hn. pose proof (genuine_put s fk w l Hg Hl Hn). split; by split.
Qed.

(** A window that is about to be put. *)
Definition puttable (c : bool * string * Z) (fk : string) (l : list string) (s : DS) : Prop :=
  at_conf c s /\ genuine_order c.1.2 fk l /\ (length l <= Z.to_nat c.2)%nat.

Lemma puttable_stable c fk l : stable R (puttable c fk l).
Proof. intros s s' HR [Hs Hl]. split; [by eapply at_conf_stable|done]. Qed.

Lemma stored_genuine s ns fk l :
  genuine s -> persisted_seen (store (idb s.2) !! (ns, fk)) = Some l -> genuine_order ns fk l.
Proof. intros [Ho _]. apply Ho. Qed.

Lemma genuine_hydrate c fk :
  rg R G (at_conf c) (fun r s => match r with Ok _ => at_conf c s | Throw _ => False end) (hydrateP self fk).
Proof.
  rg_apply (rg_hydrate R G self fk c.2 (at_conf c) (at_conf c) (at_conf c) (puttable c fk) (fun _ => at_conf c) (fun _ => at_conf c));
    eauto using at_conf_stable, at_conf_frame, puttable_stable.
  - intros s Hs _ _. by apply genuine_same_guar.
  - by intros s [_ <-].
  - intros s Hs. split; [done|]. split; [apply genuine_order_nil|simpl; lia].
  - intros s Hs. split; [done|]. destruct Hs as [Hg <-]. unfold stored_order.
    destruct (persisted_seen _) as [l|] eqn:E; [|split; [apply genuine_order_nil|simpl; lia]].
    eapply stored_genuine in E; [|done]. split; [by apply genuine_order_lastn|].
    rewrite length_lastn. cbn. lia.
  - intros s o (Hs & Ho & Hn). pose proof Hs as [_ Hc].
    destruct (genuine_put_guar c s fk self o Hs) as [HG Hs']; [by subst c..|].
    destruct (genuine_same_guar c (put_window fk self (mkMem o o) s.1, s.2) (install self fk o s.1, s.2))
      as [HG' Hs'']; [done..|]. split; [by etransitivity|done].
Qed.

Lemma genuine_merge c s fk w seen :
  at_conf c s -> genuine_order c.1.2 fk seen ->
  puttable c fk (merged_order seen fk w s.1) s.
Proof.
  intros Hs [_ Hk]. split; [done|]. destruct Hs as [[_ Hw] <-]. cbn. destruct (Hw fk w) as (l & Hm & [_ Hl] & _).
  unfold merged_order. rewrite Hm. cbn [mem_order]. split.
  - apply genuine_order_lastn. split; [apply dedupKeepLast_NoDup|]. intros x. rewrite dedupKeepLast_elem, elem_of_app.
    intros [Hx|Hx]; auto.
  - rewrite length_lastn. lia.
Qed.

Lemma genuine_written c s fk l :
  puttable c fk l s ->
  G s (written fk (mkPersisted 1 (Some l)) s) /\ at_conf c (written fk (mkPersisted 1 (Some l)) s).
Proof.
  intros (Hs & Hl & Hn). assert (at_conf c (written fk (mkPersisted 1 (Some l)) s)) as Hs'.
  { destruct Hs as [[Ho Hw] Hc]. split; [|done]. split; [|done]. intros ns fk' l' E. cbn in E.
    destruct (decide ((tab_namespace s.1, fk) = (ns, fk'))) as [[= <- <-]|Hne].
    - rewrite lookup_insert_eq in E. cbn in E. injection E as <-. by subst c.
    - rewrite lookup_insert_ne in E by done. by eapply Ho. }
  split; [|done]. split; [intros _; apply Hs'|]. split; [|done]. destruct Hs as [_ ->]. apply Hs'.
Qed.

Lemma genuine_persist c fk w :
  rg R G (at_conf c) (fun r s => match r with Ok _ => at_conf c s | Throw _ => at_conf c s end)
    (persistMergedP self fk w).
Proof.
  rg_apply (rg_persist R G self fk w (at_conf c) (at_conf c) (fun l s => at_conf c s /\ genuine_order c.1.2 fk l)
    (puttable c fk) (at_conf c) (at_conf c) (at_conf c) (at_conf c));
    eauto using at_conf_stable, at_conf_frame, puttable_stable.
  - intros l. apply stable_and; [apply at_conf_stable|by intros s s'].
  - intros s Hs _. by apply genuine_same_guar.
  - intros s Hs. split; [done|]. destruct Hs as [Hg <-]. destruct (persisted_seen _) as [l|] eqn:E.
    + by eapply stored_genuine in E.
    + apply genuine_order_nil.
  - intros s Hs _. split; [done|apply genuine_order_nil].
  - intros l s [Hs Hl]. destruct (genuine_merge c s fk w l Hs Hl) as (_ & Ho & Hn).
    pose proof Hs as [_ Hc].
    destruct (genuine_put_guar c s fk w (merged_order l fk w s.1) Hs) as [HG Hs']; [by subst c..|].
    split; [done|]. split; [done|]. by split.
  - intros l s Hs. by apply genuine_written.
  - by intros l s [? _].
  - intros s Hs. by apply genuine_same_guar.
  - intros s Hs. by apply genuine_same_guar.
Qed.

(** While all the CTRs of a key fit in the window, a merge loses nothing. *)
Lemma merge_keeps U s fk w seen x :
  genuine s -> (forall y, known (tab_namespace s.1) fk y -> y ∈ U) -> (length U <= Z.to_nat (tab_window s.1))%nat ->
  genuine_order (tab_namespace s.1) fk seen -> x ∈ seen \/ x ∈ mem_set (lookup_window fk w s.1) ->
  x ∈ merged_order seen fk w s.1.
Proof.
  intros [_ Hw] HU Hlen [_ Ho] Hx. destruct (Hw fk w) as (l & Hm & [_ Hl] & _).
  unfold merged_order. rewrite Hm in Hx |- *. cbn [mem_set mem_order] in *. rewrite lastn_all.
  - rewrite dedupKeepLast_elem. set_solver.
  - etransitivity; [|exact Hlen]. apply submseteq_length, NoDup_submseteq; [apply dedupKeepLast_NoDup|].
    intros y. rewrite dedupKeepLast_elem, elem_of_app. intros [Hy|Hy]; apply HU; [by apply Ho|by apply Hl].
Qed.

(** ** The calls *)

(** [record] puts the window with one CTR more; the rest of it is bookkeeping. *)
Lemma record_put c s fk w x :
  at_conf c s -> x ∉ mem_set (lookup_window fk w s.1) ->
  exists l, lookup_window fk w s.1 = mkMem l l /\ genuine_order (tab_namespace s.1) fk l /\ NoDup (l ++ [x]) /\
    let o := lastn (Z.to_nat (tab_window s.1)) (l ++ [x]) in
    record self fk w x s.1 =
      put_window fk w (mkMem o o) (s.1 <| tab_persisting ::= fun p => <[fk := default 0 (p !! fk) + 1]> p |>)
        <| persistTail := Some self |> <| tails ::= <[self := false]> |>.
Proof.
  intros [[_ Hw] Hc] Hnot. destruct (Hw fk w) as (l & Hm & [Hnd Hl] & _). rewrite Hm in Hnot. cbn [mem_set] in Hnot.
  assert (NoDup (l ++ [x])) as Hnd'.
  { apply NoDup_app. split_and!; [done|set_solver|apply NoDup_singleton]. }
  exists l. split_and!; [done|done|done|]. intros o. unfold o. rewrite <- (trim_mirror _ _ Hnd').
  unfold record. by rewrite Hm.
Qed.

Lemma genuine_snoc ns fk l x :
  genuine_order ns fk l -> NoDup (l ++ [x]) -> known ns fk x -> genuine_order ns fk (l ++ [x]).
Proof.
  intros [_ Hl] Hnd Hx. split; [done|]. intros y. rewrite elem_of_app, list_elem_of_singleton.
  intros [Hy| ->]; [by apply Hl|done].
Qed.

Lemma genuine_record c s fk w x :
  at_conf c s -> known c.1.2 fk x -> x ∉ mem_set (lookup_window fk w s.1) ->
  G s (record self fk w x s.1, s.2) /\ at_conf c (record self fk w x s.1, s.2).
Proof.
  intros Hs Hx Hnot. destruct (record_put c s fk w x Hs Hnot) as (l & _ & Hl & Hnd & ->).
  set (o := lastn (Z.to_nat (tab_window s.1)) (l ++ [x])).
  destruct (genuine_put_guar c s fk w o Hs) as [HG Hs'].
  { apply genuine_order_lastn, genuine_snoc; [done..|]. by destruct Hs as [_ <-]. }
  { unfold o. rewrite length_lastn. lia. }
  edestruct (genuine_same_guar c (put_window fk w (mkMem o o) s.1, s.2)) as [HG' Hs'']; [..|exact Hs'|];
    [| | | |split; [etransitivity; [exact HG|exact HG']|exact Hs'']]; done.
Qed.

Lemma genuine_accept c key ctr :
  known c.1.2 (store_key c.1.2 key) (pretty ctr) ->
  rg R G (at_conf c) (fun r s => match r with Ok _ => at_conf c s | Throw _ => False end) (acceptP self key ctr).
Proof.
  intros Hx. unfold acceptP, offP. rg_apply (rg_then _ _ _ (fun _ => at_conf c)); [by rg_apply rg_tget|].
  intros [|]; [by rg_apply rg_ret|].
  rg_apply (rg_then _ _ _ (fun fk s => at_conf c s /\ fk = store_key c.1.2 key)).
  { rg_apply rg_tget. intros s Hs. split; [done|]. by destruct Hs as [_ <-]. }
  intros fk. apply rg_pure. intros ->. set (fk := store_key c.1.2 key) in *.
  rg_apply (rg_then _ _ _ (fun _ => at_conf c)); [apply genuine_hydrate|]. intros w.
  rg_apply (rg_then _ _ _ (fun b s => at_conf c s /\ b = bool_decide (pretty ctr ∈ mem_set (lookup_window fk w s.1)))).
  { by rg_apply rg_tget. }
  intros [|]; [rg_apply rg_ret; by intros s [? _]|].
  rg_apply (rg_then _ _ _ (fun _ s => at_conf c s /\ pretty ctr ∉ mem_set (lookup_window fk w s.1))).
  { rg_apply rg_tget. intros s [Hs E]. split; [done|].
    by apply (bool_decide_eq_false (pretty ctr ∈ mem_set (lookup_window fk w s.1))). }
  intros prev. rg_apply (rg_then _ _ _ (fun _ => at_conf c)).
  { rg_apply rg_tmod. intros s [Hs Hnot]. by apply genuine_record. }
  intros _. rg_apply (rg_then _ _ _ (fun _ => at_conf c)); [|intros _; rg_apply rg_wait_stable; apply at_conf_stable].
  rg_apply (rg_link R G self fk w (at_conf c) (at_conf c) (at_conf c)); eauto using at_conf_stable, at_conf_frame, genuine_persist.
  intros s Hs. apply genuine_same_guar; try done; [| |by destruct Hs].
  - unfold link_done, releasePersistingP. cbn. by case_match.
  - unfold link_done, releasePersistingP, conf. cbn. by case_match.
Qed.

Lemma genuine_check c key ctr :
  rg R G (at_conf c) (fun r s => is_ok r = true /\ (r = Ok false -> known c.1.2 (store_key c.1.2 key) (pretty ctr)))
    (checkP self key ctr).
Proof.
  unfold checkP, offP. rg_apply (rg_then _ _ _ (fun _ => at_conf c)); [by rg_apply rg_tget|].
  intros [|]; [by rg_apply rg_ret|].
  rg_apply (rg_then _ _ _ (fun fk s => at_conf c s /\ fk = store_key c.1.2 key)).
  { rg_apply rg_tget. intros s Hs. split; [done|]. by destruct Hs as [_ <-]. }
  intros fk. apply rg_pure. intros ->. set (fk := store_key c.1.2 key) in *.
  rg_apply (rg_then _ _ _ (fun _ => at_conf c)); [apply genuine_hydrate|]. intros w.
  rg_apply rg_gets. intros s [[_ Hw] <-]. split; [done|]. intros [= E%negb_false_iff%bool_decide_eq_true].
  destruct (Hw fk w) as (l & Hm & [_ Hl] & _). apply Hl. by rewrite Hm in E.
Qed.

Lemma genuine_erased c s fk : at_conf c s -> G s (erased fk s) /\ at_conf c (erased fk s).
Proof.
  intros Hs. assert (at_conf c (erased fk s)) as Hs'.
  { destruct Hs as [[Ho Hw] Hc]. split; [|done]. split; [|done]. intros ns fk' l E. cbn in E.
    destruct (decide ((tab_namespace s.1, fk) = (ns, fk'))) as [[= <- <-]|Hne].
    - by rewrite lookup_delete_eq in E.
    - rewrite lookup_delete_ne in E by done. by eapply Ho. }
  split; [|done]. split; [intros _; apply Hs'|]. split; [|done]. destruct Hs as [_ ->]. apply Hs'.
Qed.

Lemma genuine_clear c key :
  rg R G (at_conf c) (fun r s => match r with Ok _ => at_conf c s | Throw _ => False end) (clearP key).
Proof.
  unfold clearP, offP. rg_apply (rg_then _ _ _ (fun _ => at_conf c)); [by rg_apply rg_tget|].
  intros [|]; [by rg_apply rg_ret|]. rg_apply (rg_then _ _ _ (fun _ => at_conf c)); [by rg_apply rg_tget|]. intros fk.
  rg_apply (rg_then _ _ _ (fun _ => at_conf c)); [|intros _; rg_apply rg_tmod; intros s Hs; by apply genuine_same_guar].
  rg_apply (rg_catch _ _ _ _ (fun _ => at_conf c)); [|intros e; by rg_apply rg_ret].
  rg_apply (rg_bind _ _ _ (fun _ => at_conf c)).
  - eapply rg_post; [|rg_apply (rg_db R G (at_conf c) (at_conf c)); eauto using at_conf_stable, at_conf_frame].
    by intros [[]|e] s.
  - intros _. eapply rg_post; [|rg_apply (rg_erase R G (at_conf c)); [apply at_conf_stable|]]; [by intros [[]|e] s|].
    intros s Hs. by apply genuine_erased.
Qed.

End Calls.

Lemma genuine_call n j :
  jobs !! n = Some j ->
  rg (genuine_rely n) (genuine_guar n) (fun s => tab_namespace s.1 = job_ns j /\ genuine s) (genuine_post n)
    (callP n (job_call j)).
Proof.
  intros Hj s [Hns Hs]. assert (at_conf (conf s) s) as Hc by done. revert s Hns Hs Hc.
  assert (forall c, c.1.2 = job_ns j ->
    rg (genuine_rely n) (genuine_guar n) (at_conf c) (genuine_post n) (callP n (job_call j))) as Hall.
  2: { intros s Hns Hs Hc. by apply (Hall (conf s)). }
  intros c Hns. unfold genuine_post. rewrite Hj. destruct j as [t ns [key ctr|key ctr|key]]; cbn [job_call job_ns callP] in *.
  - rg_apply (rg_bind _ _ _ (fun b _ => b = false -> known c.1.2 (store_key c.1.2 key) (pretty ctr))).
    + eapply rg_post; [|apply genuine_check]. intros [b|e] s [Hok H]; [intros ->; by apply H|done].
    + intros b. rg_apply rg_ret. intros s H. split; [done|]. intros [= ->]. rewrite <- Hns. by apply H.
  - rg_apply (rg_then _ _ _ (fun _ => at_conf c)); [|intros _; by rg_apply rg_ret]. apply genuine_accept.
    right. rewrite Hns. by exists n, t, key, ctr.
  - rg_apply (rg_then _ _ _ (fun _ => at_conf c)); [apply genuine_clear|intros _; by rg_apply rg_ret].
Qed.

Lemma genuine_fresh e ns n require tab o :
  newTab e ns n require = Ok tab -> genuine_store o -> genuine (tab, o).
Proof.
  unfold newTab. destruct (newGuard _ _ _ _) as [g|] eqn:E; [|done]. intros [= <-] Ho. split; [done|].
  intros fk w. exists []. unfold lookup_window. cbn. rewrite lookup_empty.
  split; [done|]. split; [apply genuine_order_nil|simpl; lia].
Qed.

#[export] Instance genuine_discipline :
  Discipline jobs (fun _ => True) genuine_store (fun _ => genuine) genuine_rely genuine_guar (fun _ _ => True) (fun _ _ => True)
    genuine_post.
Proof.
  split; try done.
  - apply _.
  - intros n s1 s2 s3 [_ E1] [H2 E2]. split; [done|congruence].
  - intros n t s s' _ [HG _] Hs _. by apply HG.
  - intros t o o' [E _]. unfold genuine_store. by rewrite E.
  - intros o1 r w d l o o' _ (_ & E & _). unfold genuine_store. by rewrite E.
  - intros t ns n require tab o _ Ho Ht. by eapply genuine_fresh.
  - intros n t s s' _ [HG _]. apply HG.
  - intros n t t' s s' tab _ _ [HG _] Hs [_ Hw]. split; [by apply HG|done].
  - intros n m t s s' _ _ _ (HG & E & _) Hs. split; [by apply HG|done].
  - intros n m t t' s s' tab _ _ _ [HG _] Hs [_ Hw]. split; [|done]. split; [by apply HG|done].
  - intros t t' tab o o' _ [E _] [Ho Hw]. split; [|done]. unfold genuine_store. cbn. by rewrite E.
  - intros t t' m tab o o' _ _ [E _] [Ho Hw]. split; [|done]. split; [|done]. unfold genuine_store. cbn. by rewrite E.
  - intros o1 r w d l t tab o o' _ (_ & E & _) [Ho Hw]. split; [|done]. unfold genuine_store. cbn. by rewrite E.
  - intros o1 r w d l m t tab o o' _ _ (_ & E & _) [Ho Hw]. split; [|done]. split; [|done].
    unfold genuine_store. cbn. by rewrite E.
  - intros n j Hj. eapply rg_weaken; [|done|by apply genuine_call]. by intros s (? & ? & _).
Qed.

Lemma genuine_run b evs :
  in_order jobs (unused := fun _ _ => True) (org := genuine_store) (inv := fun _ => genuine) (rely := genuine_rely) (guar := genuine_guar)
    (post := genuine_post) b ->
  journal (run_browser b evs) `prefix_of` jobs ->
  in_order jobs (unused := fun _ _ => True) (org := genuine_store) (inv := fun _ => genuine) (rely := genuine_rely) (guar := genuine_guar)
    (post := genuine_post) (run_browser b evs).
Proof. intros Hb Hj. by apply (discipline_run jobs (allowed := fun _ => True) (unused := fun _ _ => True) (pre := fun _ _ => True)). Qed.

End Genuine.

(** ** The property *)

Lemma store_key_inj ns key key' : store_key ns key = store_key ns key' -> key = key'.
Proof.
  unfold store_key. intros H. by repeat (apply (inj (String.append _)) in H).
Qed.

(** The distinct CTRs that a window of the key may hold: those stored before, and those accepted. *)
Definition key_ctrs (init : gmap (string * string) PersistedWindow) (jobs : list Job) (ns key : string) : list string :=
  remove_dups (default [] (persisted_seen (init !! (ns, store_key ns key))) ++
    omap (fun j => match j with
                   | mkJob _ ns' (CallAccept key' ctr) =>
                       if decide (ns' = ns /\ key' = key) then Some (pretty ctr) else None
                   | _ => None
                   end) jobs).

Lemma key_ctrs_known init jobs ns key x :
  known jobs init ns (store_key ns key) x -> x ∈ key_ctrs init jobs ns key.
Proof.
  unfold key_ctrs. rewrite elem_of_remove_dups, elem_of_app. intros [(l & Hl & Hx)|(n & t & key' & ctr & Hj & Hk & ->)].
  - left. by rewrite Hl.
  - right. apply list_elem_of_omap. eexists. split; [by eapply list_elem_of_lookup_2|]. cbn.
    apply store_key_inj in Hk as ->. by rewrite decide_True.
Qed.

Lemma genuine_idle e jobs : idb_wf e ->
  in_order jobs (unused := fun _ _ => True) (org := genuine_store jobs (store e)) (inv := fun _ => genuine jobs (store e))
    (rely := genuine_rely jobs (store e)) (guar := genuine_guar jobs (store e))
    (post := genuine_post jobs (store e)) (idle_browser e).
Proof.
  intros He. apply in_order_idle. intros ns fk l Hl. split; [by eapply He|]. intros x Hx. left. by exists l.
Qed.

(** What a settled call of a run resolved to. *)
Lemma genuine_settled e evs n fl r :
  idb_wf e -> flights (run_browser (idle_browser e) evs) !! n = Some fl -> fl_run fl = Finished r ->
  exists s, genuine_post (journal (run_browser (idle_browser e) evs)) (store e) n r s.
Proof.
  intros He Hn Hr. set (b := run_browser _ _) in *.
  assert (in_order (journal b) (unused := fun _ _ => True) (org := genuine_store (journal b) (store e)) (inv := fun _ => genuine (journal b) (store e))
    (rely := genuine_rely (journal b) (store e)) (guar := genuine_guar (journal b) (store e))
    (post := genuine_post (journal b) (store e)) b) as Hb.
  { apply genuine_run; [by apply genuine_idle|done]. }
  destruct (io_flights _ _ Hb _ _ Hn) as (tab & _ & _ & _ & Hrest). rewrite Hr in Hrest. exists (tab, origin b). exact Hrest.
Qed.

(** C19. Whatever calls overlap, in whatever tabs, and whatever requests of the storage fail: no call of
    the guard rejects, and [check] answers [false] only for a CTR that was stored for the key before,
    or that a tab of the same namespace passed to [accept] for the same key. *)
Theorem guard_refuses_only_replays (e : Idb) (evs : list BrowserEvent) (n : nat) (t : nat) (r : res (option bool))
    (He : idb_wf e)
    (Hn : flights (run_browser (idle_browser e) evs) !! n = Some (mkFlight t (Finished r))) :
  exists v, r = Ok v /\
    forall t' ns key ctr,
      journal (run_browser (idle_browser e) evs) !! n = Some (mkJob t' ns (CallCheck key ctr)) ->
      v = Some false ->
      (exists l, persisted_seen (store e !! (ns, store_key ns key)) = Some l /\ pretty ctr ∈ l) \/
      exists m t2, journal (run_browser (idle_browser e) evs) !! m = Some (mkJob t2 ns (CallAccept key ctr)).
Proof.
  destruct (genuine_settled _ _ _ _ _ He Hn eq_refl) as (s & Hok & Hpost). apply is_ok_ex in Hok as [v ->].
  exists v. split; [done|]. intros t' ns key ctr Hj ->. rewrite Hj in Hpost.
  destruct (Hpost eq_refl) as [H|(m & t2 & key' & ctr' & Hm & Hk%store_key_inj & Hc)]; [by left|].
  right. exists m, t2. assert (ctr = ctr') as -> by (by apply (inj pretty)). by subst key'.
Qed.

Definition quiet_origin : Idb := mkIdb true true true true true true true ∅.

Lemma quiet_origin_wf : idb_wf quiet_origin.
Proof. intros key l H. simpl in H. by rewrite lookup_empty in H. Qed.

(** Two tabs accept at the same time, one closes while it persists, the storage fails for a while. *)
Definition overlapping_events : list BrowserEvent :=
  [OpenTab 0 "app" None false; OpenTab 1 "app" None false; Begin 0 (CallAccept "k" 5); Begin 1 (CallAccept "k" 6);
   Resume 0; Resume 1; Resume 0; Resume 1; Faults true false true true true; Resume 0; Resume 1] ++
  finish_call 0 ++ [CloseTab 1; Faults true true true true true; Begin 0 (CallCheck "k" 5); Begin 0 (CallCheck "k" 6)] ++
  finish_call 2 ++ finish_call 3.

Lemma guard_refuses_only_replays_witness :
  exists v, (Ok (Some false) : res (option bool)) = Ok v /\
    forall t' ns key ctr,
      journal (run_browser (idle_browser quiet_origin) overlapping_events) !! 2%nat = Some (mkJob t' ns (CallCheck key ctr)) ->
      v = Some false ->
      (exists l, persisted_seen (store quiet_origin !! (ns, store_key ns key)) = Some l /\ pretty ctr ∈ l) \/
      exists m t2, journal (run_browser (idle_browser quiet_origin) overlapping_events) !! m
        = Some (mkJob t2 ns (CallAccept key ctr)).
Proof.
  apply (guard_refuses_only_replays quiet_origin overlapping_events 2 0 (Ok (Some false)) quiet_origin_wf).
  vm_compute. reflexivity.
Defined.
