(* ===== verification/DurableSession.v ===== *)
(** * DurableSession: what a tab accepted, it refuses (src/chat/durable-replay.ts)

    Within a session, whatever calls overlap and whatever requests of the storage fail: as long as the
    cache does not overflow and the key is not cleared, a key has one window object, its contents only grow, and so a CTR whose
    [accept] has settled is refused by every later [check]. *)
From S2P Require Import Prelude StateLogic Async Rely Errors Internal Replay Durable DurableAsync DurableRules DurableTabs DurableGenuine.
#[local] Open Scope Z_scope.

Section Session.
Context (jobs : list Job) (init : gmap (string * string) PersistedWindow).
(** The tab, its namespace, the key and the CTR; the store keys that the tab uses; the CTRs that may
    be in a window of the key; the check that comes later. *)
Context (t0 : nat) (ns key0 x0 : string) (keys : list string) (U : list string) (later : nat).
#[local] Notation fk0 := (store_key ns key0).
Hypothesis (Hkeys : (length keys <= REPLAY_MEM_CACHE_CAP)%nat).
Hypothesis (HU : forall x, known jobs init ns fk0 x -> x ∈ U).

Definition call_key (call : GuardCall) : string :=
  match call with CallCheck key _ | CallAccept key _ | CallClear key => key end.

Record session (tab : Tab) : Prop := {
  se_available : tab_available tab = true;
  se_namespace : tab_namespace tab = ns;
  se_window : Z.of_nat (length U) <= tab_window tab /\ 0 < tab_window tab;
  se_one w : is_Some (windows tab !! (fk0, w)) -> tab_mem tab !! fk0 = Some w;
  se_hydrating p : hydrating tab !! fk0 = Some p -> tab_mem tab !! fk0 = None;
  se_hydrated p w : hydrated tab !! (fk0, p) = Some w -> tab_mem tab !! fk0 = Some w;
  se_keys : omap_keys (tab_mem tab) ⊆ keys;
  se_nodup : omap_wf (tab_mem tab)
}.

(** Contents only grow, and the window object stays. *)
Definition grows : relation Tab := fun tab tab' =>
  (forall w x, x ∈ mem_set (lookup_window fk0 w tab) -> x ∈ mem_set (lookup_window fk0 w tab')) /\
  forall w, tab_mem tab !! fk0 = Some w -> tab_mem tab' !! fk0 = Some w.

#[export] Instance grows_preorder : PreOrder grows.
Proof. split; [by split|]. intros t1 t2 t3 [H1 H2] [H3 H4]. split; auto. Qed.

Definition has (x : string) (s : DS) : Prop :=
  exists w, tab_mem s.1 !! fk0 = Some w /\ x ∈ mem_set (lookup_window fk0 w s.1).

Lemma has_grows x s s' : grows s.1 s'.1 -> has x s -> has x s'.
Proof. intros [Hc Hm] (w & Hw & Hx). exists w. auto. Qed.

Definition session_inv (t : nat) (s : DS) : Prop := genuine jobs init s /\ (t = t0 -> session s.1).

Definition session_rely (n : nat) : relation DS := fun s s' =>
  genuine_rely jobs init n s s' /\
  (tab_of jobs n = Some t0 ->
   session s'.1 /\ grows s.1 s'.1 /\ (hydrating s.1 !! fk0 = Some n -> hydrating s'.1 !! fk0 = Some n)).

Definition session_guar (n : nat) : relation DS := fun s s' =>
  genuine_guar jobs init n s s' /\
  (tab_of jobs n = Some t0 -> genuine jobs init s -> session s.1 ->
   session s'.1 /\ grows s.1 s'.1 /\
   forall m, m <> n -> hydrating s.1 !! fk0 = Some m -> hydrating s'.1 !! fk0 = Some m).

Definition session_pre (n : nat) (s : DS) : Prop := n = later -> has x0 s.

Definition session_post (n : nat) (r : res (option bool)) (s : DS) : Prop :=
  genuine_post jobs init n r s /\
  match jobs !! n with
  | Some (mkJob t _ (CallAccept key ctr)) => t = t0 -> key = key0 -> pretty ctr = x0 -> has x0 s
  | Some (mkJob t _ (CallCheck key ctr)) =>
      n = later -> t = t0 -> key = key0 -> pretty ctr = x0 -> r = Ok (Some false)
  | _ => True
  end.

#[export] Instance session_guar_preorder n : PreOrder (session_guar n).
Proof.
  split.
  - intros s. split; [reflexivity|]. intros _ _ Hs. split; [done|]. split; [reflexivity|done].
  - intros s1 s2 s3 [G1 H1] [G2 H2]. split; [by etransitivity|]. intros Ht Hg Hs.
    destruct (H1 Ht Hg Hs) as (Hs2 & Hg1 & Hm1). destruct (H2 Ht (proj1 G1 Hg) Hs2) as (Hs3 & Hg2 & Hm2).
    split; [done|]. split; [by etransitivity|]. auto.
Qed.

Lemma session_rely_trans n : Transitive (session_rely n).
Proof.
  intros s1 s2 s3 [[G1 E1] H1] [[G2 E2] H2]. split; [split; [done|congruence]|]. intros Ht.
  destruct (H1 Ht) as (_ & Hg1 & Hh1). destruct (H2 Ht) as (Hs & Hg2 & Hh2).
  split; [done|]. split; [by etransitivity|]. auto.
Qed.

(** ** What the pieces do *)

(** The cache never overflows. *)
Lemma trim_mem_id just h p (m : OMap string nat) :
  omap_keys m ⊆ keys -> omap_wf m -> trim_mem (omap_size m) just h p m = m.
Proof.
  intros Hk Hnd. destruct (omap_size m) as [|k] eqn:E; [done|]. cbn [trim_mem].
  assert (omap_size m <= length keys)%nat as Hle.
  { unfold omap_size. rewrite <- (length_fmap (fst : string * nat -> string)). apply submseteq_length, NoDup_submseteq; done. }
  by rewrite (proj2 (Nat.leb_le _ _)) by lia.
Qed.

Lemma trimMemCacheP_id fk tab :
  omap_keys (tab_mem tab) ⊆ keys -> omap_wf (tab_mem tab) -> trimMemCacheP fk tab = tab.
Proof.
  intros Hk Hwf. unfold trimMemCacheP. pose proof (trim_mem_id fk (hydrating tab) (tab_persisting tab) _ Hk Hwf) as E.
  destruct tab. cbn in *. unfold set_field. cbn. by rewrite E.
Qed.

(** A tab in which [session] looks at the same things. *)
Definition view (tab : Tab) := (tab_available tab, tab_namespace tab, tab_window tab, windows tab, tab_mem tab,
  hydrating tab, hydrated tab).

(** One piece of a call of the tab: it keeps the session, lets the key grow, and touches no promise
    of another call. *)
Definition fine (self : nat) (tab tab' : Tab) : Prop :=
  session tab' /\ grows tab tab' /\
  forall m, m <> self -> hydrating tab !! fk0 = Some m -> hydrating tab' !! fk0 = Some m.

Lemma fine_trans self t1 t2 t3 : fine self t1 t2 -> fine self t2 t3 -> fine self t1 t3.
Proof. intros (H1 & G1 & M1) (H2 & G2 & M2). split; [done|]. split; [by etransitivity|auto]. Qed.

Lemma fine_view self tab tab' : view tab' = view tab -> session tab -> fine self tab tab'.
Proof.
  intros [= Ea En Ew Eo Em Eh Ed] [H1 H2 H3 H4 H5 H6 H7 H8]. split.
  - split; rewrite ?Ea, ?En, ?Ew, ?Eo, ?Em, ?Eh, ?Ed; done.
  - split; [|by rewrite Eh]. unfold grows, lookup_window. by rewrite Eo, Em.
Qed.

Lemma fine_start self fk tab :
  session tab -> tab_mem tab !! fk = None -> hydrating tab !! fk = None ->
  fine self tab (tab <| hydrating ::= <[fk := self]> |>).
Proof.
  intros [H1 H2 H3 H4 H5 H6 H7 H8] Hm Hh. split; [|split; [by split|]].
  - split; try done. cbn. intros i. destruct (decide (fk = fk0)) as [->|Hne]; [done|].
    rewrite lookup_insert_ne by done. apply H5.
  - cbn. intros m _ Hm'. rewrite lookup_insert_ne; [done|]. intros ->. congruence.
Qed.

Lemma fine_put self fk w l tab :
  session tab ->
  (fk = fk0 -> tab_mem tab !! fk0 = Some w /\ forall x, x ∈ mem_set (lookup_window fk0 w tab) -> x ∈ l) ->
  fine self tab (put_window fk w (mkMem l l) tab).
Proof.
  intros [H1 H2 H3 H4 H5 H6 H7 H8] Hfk. split; [|split; [|done]].
  - split; try done. cbn. intros w'. destruct (decide ((fk, w) = (fk0, w'))) as [[= -> ->]|Hne].
    + intros _. by apply Hfk.
    + rewrite lookup_insert_ne by done. apply H4.
  - split; [|done]. intros w' x. unfold lookup_window, put_window. cbn.
    destruct (decide ((fk, w) = (fk0, w'))) as [[= -> ->]|Hne].
    + rewrite lookup_insert_eq. cbn. by apply Hfk.
    + by rewrite lookup_insert_ne.
Qed.

Lemma fine_install self fk o tab :
  session tab -> fk ∈ keys -> (fk = fk0 -> hydrating tab !! fk0 = Some self) ->
  fine self tab (install self fk o tab).
Proof.
  intros [H1 H2 H3 H4 H5 H6 H7 H8] Hk Hown.
  assert (omap_keys (<[fk := self]> (tab_mem tab)) ⊆ keys) as Hkeys'.
  { intros k. unfold omap_keys, insert, omap_insert. cbn. rewrite assoc_insert_keys.
    case_decide; [apply H7|]. rewrite elem_of_app, list_elem_of_singleton. intros [?| ->]; [by apply H7|done]. }
  pose proof (omap_insert_wf _ fk self H8) as Hwf.
  assert (install self fk o tab =
    put_window fk self (mkMem o o) tab <| tab_mem ::= <[fk := self]> |> <| hydrating ::= delete fk |>
      <| hydrated ::= <[(fk, self) := self]> |>) as ->.
  { unfold install. by rewrite trimMemCacheP_id. }
  destruct (decide (fk = fk0)) as [->|Hne].
  - specialize (Hown eq_refl). pose proof (H5 _ Hown) as Hm.
    assert (forall w, windows tab !! (fk0, w) = None) as Hw.
    { intros w. apply eq_None_not_Some. intros ?%H4. congruence. }
    split; [|split; [split|]].
    + split; try done; cbn.
      * intros w. destruct (decide (self = w)) as [<-|Hw']; [intros _; apply jm_lookup_insert_eq|].
        rewrite lookup_insert_ne by congruence. rewrite Hw. by intros [? [=]].
      * intros i. by rewrite lookup_delete_eq.
      * intros i w. destruct (decide (self = i)) as [<-|Hi].
        { rewrite lookup_insert_eq. intros [= <-]. apply jm_lookup_insert_eq. }
        rewrite lookup_insert_ne by congruence. intros ?%H6. congruence.
    + intros w x. unfold lookup_window at 1. rewrite Hw. cbn. set_solver.
    + intros w. congruence.
    + intros m Hm' Hh. congruence.
  - split; [|split; [split|]].
    + split; try done; cbn.
      * intros w. rewrite lookup_insert_ne by congruence. rewrite jm_lookup_insert_ne by done. apply H4.
      * intros i. rewrite lookup_delete_ne by done. rewrite jm_lookup_insert_ne by done. apply H5.
      * intros i w. rewrite lookup_insert_ne by congruence. rewrite jm_lookup_insert_ne by done. apply H6.
    + intros w x. unfold lookup_window. cbn. by rewrite lookup_insert_ne by congruence.
    + intros w. cbn. by rewrite jm_lookup_insert_ne by done.
    + intros m _. cbn. by rewrite lookup_delete_ne by done.
Qed.

Lemma fine_clear self fk tab :
  session tab -> fk <> fk0 ->
  fine self tab (tab <| tab_mem ::= delete fk |> <| hydrating ::= delete fk |> <| tab_persisting ::= delete fk |>).
Proof.
  intros [H1 H2 H3 H4 H5 H6 H7 H8] Hne. split; [|split; [split; [done|]|]]; cbn.
  - split; try done; cbn.
    + intros w. rewrite jm_lookup_delete_ne by done. apply H4.
    + intros i. rewrite lookup_delete_ne by done. rewrite jm_lookup_delete_ne by done. apply H5.
    + intros i w. rewrite jm_lookup_delete_ne by done. apply H6.
    + intros k. unfold omap_keys, delete, omap_delete. cbn. rewrite assoc_delete_keys.
      intros [_ Hk]%list_elem_of_filter. by apply H7.
    + by apply omap_delete_wf.
  - intros w. by rewrite jm_lookup_delete_ne by done.
  - intros m _. by rewrite lookup_delete_ne by done.
Qed.

(** ** The calls of the tab *)

Section Calls.
Context (self : nat) (Hself : tab_of jobs self = Some t0) (c : bool * string * Z) (marked : Prop).
#[local] Notation R := (session_rely self).
#[local] Notation G := (session_guar self).

(** [marked]: the CTR is known to be in the window of the key. *)
Definition at_session (s : DS) : Prop :=
  at_conf jobs init c s /\ session s.1 /\ (marked -> has x0 s).

Definition at_window (fk : string) (w : nat) (s : DS) : Prop :=
  at_session s /\ (fk = fk0 -> tab_mem s.1 !! fk0 = Some w).

Lemma at_session_stable : stable R at_session.
Proof.
  intros s s' [[Hg E] HR] (Hc & Hs & Hm). destruct (HR Hself) as (Hs' & Hgr & _).
  split; [split; [done|destruct Hc as [_ <-]; done]|]. split; [done|]. intros HP. eapply has_grows; [done|by apply Hm].
Qed.

Lemma at_window_stable fk w : stable R (at_window fk w).
Proof.
  intros s s' HR [Hs Hw]. split; [by eapply at_session_stable|]. destruct HR as [_ HR].
  destruct (HR Hself) as (_ & [_ Hgr] & _). auto.
Qed.

Lemma session_piece s s' :
  at_session s -> genuine_guar jobs init self s s' -> at_conf jobs init c s' -> fine self s.1 s'.1 ->
  G s s' /\ at_session s'.
Proof.
  intros (Hc & Hs & Hm) HG Hc' (Hs' & Hgr & Hh). split; [split; [done|]; by intros _ _ _|].
  split; [done|]. split; [done|]. intros HP. eapply has_grows; [done|by apply Hm].
Qed.

Lemma window_piece fk w s s' :
  at_window fk w s -> genuine_guar jobs init self s s' -> at_conf jobs init c s' -> fine self s.1 s'.1 ->
  G s s' /\ at_window fk w s'.
Proof.
  intros [Hs Hw] HG Hc' Hf. destruct (session_piece s s') as [HG' Hs']; [done..|]. split; [done|]. split; [done|].
  destruct Hf as (_ & [_ Hgr] & _). auto.
Qed.

(** A piece that writes nothing the properties look at. *)
Lemma window_same fk w s s' :
  at_window fk w s -> view s'.1 = view s.1 -> store (idb s'.2) = store (idb s.2) -> capable s'.2 = capable s.2 ->
  G s s' /\ at_window fk w s'.
Proof.
  intros Hs Ev Es Ecap. destruct (genuine_same_guar jobs init self c s s') as [HG Hc].
  - by injection Ev.
  - by injection Ev as E1 E2 E3 _ _ _ _; unfold conf; rewrite E1, E2, E3.
  - done.
  - done.
  - apply Hs.
  - apply window_piece; [done..|]. apply fine_view; [done|apply Hs].
Qed.

Lemma session_same s s' :
  at_session s -> view s'.1 = view s.1 -> store (idb s'.2) = store (idb s.2) -> capable s'.2 = capable s.2 ->
  G s s' /\ at_session s'.
Proof.
  intros Hs Ev Es Ecap. destruct (window_same "" 0 s s') as [HG [Hs' _]]; [|done..].
  split; [done|]. by intros [=].
Qed.

Lemma at_session_frame : frame R G at_session.
Proof. split; [apply at_session_stable|]. intros s s' Hq Hs. by destruct Hq; apply session_same. Qed.

Lemma at_window_frame fk w : frame R G (at_window fk w).
Proof. split; [apply at_window_stable|]. intros s s' Hq Hs. by destruct Hq; apply window_same. Qed.

(** This call loads the window of [fk]. *)
Definition loading (fk : string) (s : DS) : Prop :=
  at_session s /\ (fk = fk0 -> hydrating s.1 !! fk0 = Some self).

Lemma loading_frame fk : frame R G (loading fk).
Proof.
  split.
  - intros s s' HR [Hs Hh]. split; [by eapply at_session_stable|]. destruct HR as [_ HR].
    destruct (HR Hself) as (_ & _ & Hh'). auto.
  - intros s s' Hq [Hs Hh]. destruct Hq; (edestruct session_same as [HG Hs']; [exact Hs|..|split; [exact HG|split; [exact Hs'|done]]]); done.
Qed.

Definition loadable (fk : string) (o : list string) (s : DS) : Prop :=
  loading fk s /\ genuine_order jobs init c.1.2 fk o /\ (length o <= Z.to_nat c.2)%nat.

Lemma session_hydrate fk :
  fk ∈ keys ->
  rg R G at_session (fun r s => match r with Ok w => at_window fk w s | Throw _ => False end) (hydrateP self fk).
Proof.
  intros Hk. apply (rg_hydrate R G self fk c.2 at_session (loading fk) (loading fk) (loadable fk) (fun _ => at_session) (at_window fk));
    eauto using at_session_stable, at_window_stable, loading_frame.
  - intros o s s' HR [Hs Ho]. split; [by eapply (proj1 (loading_frame fk))|done].
  - intros s w Hs Hm. split; [done|]. by intros ->.
  - intros s Hs Hm Hh. edestruct (genuine_same_guar jobs init self c s) as [HG Hc]; [| | | |apply Hs|
      destruct (session_piece s (s.1 <| hydrating ::= <[fk := self]> |>, s.2)) as [HG' Hs']; [done|exact HG|exact Hc|..]]; try done.
    + apply fine_start; [apply Hs|done|done].
    + split; [done|]. split; [done|]. intros ->. apply lookup_insert_eq.
  - by intros s [[[_ <-] _] _].
  - intros s Hs. split; [done|]. split; [apply genuine_order_nil|simpl; lia].
  - intros s Hs. split; [done|]. destruct Hs as [[[Hg <-] _] _]. unfold stored_order.
    destruct (persisted_seen _) as [l|] eqn:E; [|split; [apply genuine_order_nil|simpl; lia]].
    eapply stored_genuine in E; [|done]. split; [by apply genuine_order_lastn|]. rewrite length_lastn. cbn. lia.
  - intros s o ([Hs Hh] & Ho & Hn). pose proof (proj1 Hs) as Hc. destruct (genuine_put_guar jobs init self c s fk self o Hc) as [HG Hc'].
    { by destruct Hc as [_ <-]. }
    { by destruct Hc as [_ <-]. }
    destruct (genuine_same_guar jobs init self c (put_window fk self (mkMem o o) s.1, s.2) (install self fk o s.1, s.2))
      as [HG' Hc'']; [done..|].
    apply session_piece; [done|by etransitivity|done|]. apply fine_install; [apply Hs|done|done].
  - intros s i w Hs Hw. split; [done|]. intros ->. eapply se_hydrated; [apply Hs|done].
Qed.

Lemma order_fits l : genuine_order jobs init ns fk0 l -> (length l <= length U)%nat.
Proof. intros [Hnd Hk]. apply submseteq_length, NoDup_submseteq; [done|]. intros x Hx. by apply HU, Hk. Qed.

Lemma at_session_conf s : at_session s -> c.1.2 = ns /\ c.2 = tab_window s.1 /\ (length U <= Z.to_nat (tab_window s.1))%nat.
Proof. intros ([_ <-] & Hs & _). split; [apply Hs|]. split; [done|]. pose proof (se_window _ Hs). lia. Qed.

(** A merge loses nothing of the key. *)
Lemma merge_grows fk w seen s x :
  at_window fk w s -> genuine_order jobs init c.1.2 fk seen -> fk = fk0 ->
  x ∈ mem_set (lookup_window fk0 w s.1) -> x ∈ merged_order seen fk w s.1.
Proof.
  intros [Hs _] Ho -> Hx. destruct (at_session_conf s Hs) as (Ec & _ & Hlen). destruct Hs as [[Hg Hc] [Hse _]].
  eapply merge_keeps; [done| |exact Hlen| |by right]; rewrite (se_namespace _ Hse); [done|]. by rewrite Ec in Ho.
Qed.

Lemma session_persist fk w :
  rg R G (at_window fk w) (fun r s => match r with Ok _ => at_window fk w s | Throw _ => at_window fk w s end)
    (persistMergedP self fk w).
Proof.
  apply (rg_persist R G self fk w (at_window fk w) (at_window fk w)
    (fun l s => at_window fk w s /\ genuine_order jobs init c.1.2 fk l)
    (fun l s => at_window fk w s /\ puttable jobs init c fk l s)
    (at_window fk w) (at_window fk w) (at_window fk w) (at_window fk w));
    eauto using at_window_stable, at_window_frame.
  - intros l. apply stable_and; [apply at_window_stable|by intros s s'].
  - intros l s s' HR [Hs (Hc & Ho)]. split; [by eapply at_window_stable|]. destruct HR as [HR _].
    by eapply puttable_stable.
  - intros s Hs _. by apply window_same.
  - intros s Hs. split; [done|]. destruct Hs as [[[Hg <-] _] _]. destruct (persisted_seen _) as [l|] eqn:E.
    + by eapply stored_genuine in E.
    + apply genuine_order_nil.
  - intros s Hs _. split; [done|apply genuine_order_nil].
  - intros l s [Hs Hl]. pose proof (proj1 (proj1 Hs)) as Hc.
    destruct (genuine_merge jobs init c s fk w l Hc Hl) as (_ & Ho & Hn). pose proof Hc as [_ Ec].
    destruct (genuine_put_guar jobs init self c s fk w (merged_order l fk w s.1) Hc) as [HG Hc'];
      [by rewrite <- Ec in Ho|by rewrite <- Ec in Hn|].
    destruct (window_piece fk w s (merged_in fk w (merged_order l fk w s.1) s)) as [HG' Hs']; [done|exact HG|exact Hc'| |].
    + apply fine_put; [apply Hs|]. intros E. split; [by apply Hs|]. intros x Hx. by apply merge_grows.
    + split; [done|]. split; [done|]. by split.
  - intros l s (Hs & Hp). destruct (genuine_written jobs init self c s fk l Hp) as [HG Hc].
    apply window_piece; [done..|]. by apply fine_view; [|apply Hs].
  - by intros l s [? _].
  - intros s Hs. by apply window_same.
  - intros s Hs. by apply window_same.
Qed.

Lemma session_record fk w x s :
  at_window fk w s -> known jobs init c.1.2 fk x -> x ∉ mem_set (lookup_window fk w s.1) ->
  G s (record self fk w x s.1, s.2) /\ at_window fk w (record self fk w x s.1, s.2) /\
  (fk = fk0 -> has x (record self fk w x s.1, s.2)).
Proof.
  intros Hs Hx Hnot. pose proof (proj1 (proj1 Hs)) as Hc.
  destruct (genuine_record jobs init self c s fk w x Hc Hx Hnot) as [HG Hc'].
  destruct (record_put jobs init self c s fk w x Hc Hnot) as (l & Hm & Hl & Hnd & Er).
  set (o := lastn (Z.to_nat (tab_window s.1)) (l ++ [x])) in *.
  assert (fk = fk0 -> o = l ++ [x]) as Ho.
  { intros ->. destruct (at_session_conf s (proj1 Hs)) as (Ec & _ & Hlen). apply lastn_all.
    etransitivity; [|exact Hlen]. apply order_fits, genuine_snoc; [|done|by rewrite Ec in Hx].
    by rewrite (se_namespace s.1) in Hl by apply Hs. }
  assert (fine self s.1 (put_window fk w (mkMem o o) s.1)) as Hput.
  { apply fine_put; [apply Hs|]. intros E. split; [by apply Hs|]. intros y. rewrite Ho by done. subst fk.
    rewrite Hm. cbn. set_solver. }
  destruct (window_piece fk w s (record self fk w x s.1, s.2)) as [HG' Hs']; [done..| |].
  { eapply fine_trans; [exact Hput|]. apply fine_view; [by rewrite Er|apply Hput]. }
  split; [done|]. split; [done|]. intros E. exists w. split; [by apply Hs'|]. rewrite Er. subst fk.
  unfold lookup_window. cbn. rewrite lookup_insert_eq. cbn. rewrite Ho by done. set_solver.
Qed.

End Calls.

Section TabCalls.
Context (self : nat) (Hself : tab_of jobs self = Some t0) (c : bool * string * Z).
#[local] Notation R := (session_rely self).
#[local] Notation G := (session_guar self).

Lemma session_on (marked : Prop) :
  rg R G (at_session c marked) (fun r s => match r with Ok off => at_session c marked s /\ off = false | Throw _ => False end) offP.
Proof.
  rg_apply rg_tget. intros s Hs. split; [done|]. destruct Hs as (_ & [Ha _ [_ Hw] _ _ _ _ _] & _). rewrite Ha. cbn.
  by apply Z.eqb_neq; lia.
Qed.

Lemma session_key (marked : Prop) key :
  rg R G (at_session c marked)
    (fun r s => match r with Ok fk => at_session c marked s /\ fk = store_key ns key | Throw _ => False end) (storeKeyP key).
Proof. rg_apply rg_tget. intros s Hs. split; [done|]. by rewrite (se_namespace s.1) by apply Hs. Qed.

Lemma session_accept key ctr :
  store_key ns key ∈ keys -> known jobs init ns (store_key ns key) (pretty ctr) ->
  rg R G (at_session c False) (fun r s => match r with Ok _ => key = key0 -> pretty ctr = x0 -> has x0 s | Throw _ => False end)
    (acceptP self key ctr).
Proof.
  intros Hk Hx. unfold acceptP.
  rg_apply (rg_then _ _ _ (fun off s => at_session c False s /\ off = false)); [apply session_on|].
  intros off. apply rg_pure. intros ->.
  rg_apply (rg_then _ _ _ (fun fk s => at_session c False s /\ fk = store_key ns key)); [apply session_key|].
  intros fk. apply rg_pure. intros Efk. rewrite <- Efk in *.
  rg_apply (rg_then _ _ _ (at_window c False fk)); [by apply session_hydrate|]. intros w. set (x := pretty ctr) in *.
  set (found := key = key0 /\ x = x0).
  assert (found -> fk = fk0) as Hfound by (intros [-> _]; done).
  rg_apply (rg_then _ _ _ (fun b s => at_window c False fk w s /\ b = bool_decide (x ∈ mem_set (lookup_window fk w s.1)))).
  { by rg_apply rg_tget. }
  intros [|].
  { rg_apply rg_ret. intros s [[_ Hw] E] -> E0. symmetry in E. apply bool_decide_eq_true in E.
    exists w. split; [by apply Hw|]. by rewrite <- E0, <- Efk. }
  rg_apply (rg_then _ _ _ (fun _ s => at_window c False fk w s /\ x ∉ mem_set (lookup_window fk w s.1))).
  { rg_apply rg_tget. intros s [Hs E]. split; [done|]. by apply (bool_decide_eq_false (x ∈ _)). }
  intros prev. rg_apply (rg_then _ _ _ (fun _ => at_window c found fk w)).
  { rg_apply rg_tmod. intros s [Hs Hnot]. destruct (session_record self Hself c False fk w x s Hs) as (HG & [(Hc & Hs' & _) Hw] & Hh).
    - destruct (at_session_conf c False s (proj1 Hs)) as (-> & _). done.
    - done.
    - split; [done|]. split; [|done]. split; [done|]. split; [done|]. intros [Hkey <-]. by apply Hh, Hfound. }
  intros _. rg_apply (rg_then _ _ _ (fun _ => at_window c found fk w)).
  - rg_apply (rg_link R G self fk w (at_window c found fk w) (at_window c found fk w) (at_window c found fk w));
      eauto using at_window_stable, at_window_frame, session_persist.
    intros s Hs. apply (window_same self c found fk w s); [by destruct Hs| |done|done].
    unfold link_done, releasePersistingP. cbn. by case_match.
  - intros _. eapply rg_post; [|rg_apply rg_wait_stable; apply (at_window_stable self Hself c found fk w)].
    intros [u|e] s; [|done]. intros [(_ & _ & Hm) _] Hkey Hx0. by apply Hm.
Qed.

Lemma session_check (marked : Prop) key ctr :
  store_key ns key ∈ keys ->
  rg R G (at_session c marked)
    (fun r s => match r with Ok b => marked -> key = key0 -> pretty ctr = x0 -> b = false | Throw _ => False end) (checkP self key ctr).
Proof.
  intros Hk. unfold checkP.
  rg_apply (rg_then _ _ _ (fun off s => at_session c marked s /\ off = false)); [apply session_on|].
  intros off. apply rg_pure. intros ->.
  rg_apply (rg_then _ _ _ (fun fk s => at_session c marked s /\ fk = store_key ns key)); [apply session_key|].
  intros fk. apply rg_pure. intros Efk. rewrite <- Efk in *.
  rg_apply (rg_then _ _ _ (at_window c marked fk)); [by apply session_hydrate|]. intros w.
  rg_apply rg_tget. intros s [(_ & _ & Hm) Hw] HP Hkey Hx. subst key. rewrite Efk in *.
  destruct (Hm HP) as (w' & Hw' & Hx'). rewrite (Hw eq_refl) in Hw'. injection Hw' as <-.
  rewrite Hx. by rewrite bool_decide_eq_true_2.
Qed.

Lemma session_clear key :
  store_key ns key <> fk0 ->
  rg R G (at_session c False) (fun r _ => is_ok r = true) (clearP key).
Proof.
  intros Hne. unfold clearP.
  rg_apply (rg_then _ _ _ (fun off s => at_session c False s /\ off = false)); [apply session_on|].
  intros off. apply rg_pure. intros ->.
  rg_apply (rg_then _ _ _ (fun fk s => at_session c False s /\ fk = store_key ns key)); [apply session_key|].
  intros fk. apply rg_pure. intros ->.
  rg_apply (rg_then _ _ _ (fun _ => at_session c False)).
  - rg_apply (rg_catch _ _ _ _ (fun _ => at_session c False)); [|intros e; by rg_apply rg_ret].
    rg_apply (rg_bind _ _ _ (fun _ => at_session c False)).
    + eapply rg_post; [|rg_apply (rg_db R G (at_session c False) (at_session c False)); eauto using at_session_stable, at_session_frame].
      by intros [[]|e] s.
    + intros _. eapply rg_post; [|rg_apply (rg_erase R G (at_session c False)); [by apply at_session_stable|]];
        [by intros [[]|e] s|].
      intros s Hs. destruct (genuine_erased jobs init self c s (store_key ns key) (proj1 Hs)) as [HG Hc].
      apply session_piece; [done..|]. by apply fine_view; [|apply Hs].
  - intros _. rg_apply rg_piece. intros s Hs. split; [|done].
    edestruct (genuine_same_guar jobs init self c s) as [HG Hc]; [| | | |apply Hs|
      eapply (session_piece self c False s); [done|exact HG|exact Hc|]]; [done..|].
    apply fine_clear; [apply Hs|done].
Qed.

End TabCalls.

(** ** The discipline *)

Hypothesis (Hcalls : forall n j, jobs !! n = Some j -> job_tab j = t0 -> store_key ns (call_key (job_call j)) ∈ keys).
Hypothesis (Hclear : forall n j, jobs !! n = Some j -> job_tab j = t0 -> job_call j <> CallClear key0).

(** The tab is opened with the namespace, and with a window that all the CTRs fit in. *)
Definition session_event (ev : BrowserEvent) : Prop :=
  match ev with
  | OpenTab t ns' w _ => t = t0 -> ns' = ns /\ Z.of_nat (length U) <= resolveWindow w /\ 0 < resolveWindow w
  | _ => True
  end.

Definition session_org (o : Origin) : Prop := genuine_store jobs init o /\ capable o = (true, true).

Lemma session_fresh o ns' w require tab :
  newTab (idb o) ns' w require = Ok tab -> capable o = (true, true) -> ns' = ns ->
  Z.of_nat (length U) <= resolveWindow w -> 0 < resolveWindow w -> session tab.
Proof.
  unfold newTab, newGuard, capable. intros Ht [= Ei El] -> HU' Hw. rewrite Ei, El in Ht.
  case_bool_decide; [done|]. cbn in Ht. injection Ht as <-. split; try done; cbn.
  - intros w'. by intros [? ?%lookup_empty_Some].
  - by intros k ?%not_elem_of_nil.
  - constructor.
Qed.

(** A call of the tab, apart from what every call does. *)
Lemma session_call n j c :
  jobs !! n = Some j -> job_tab j = t0 -> job_ns j = ns ->
  rg (session_rely n) (session_guar n) (at_session c (n = later))
    (fun r s => match jobs !! n with
                | Some (mkJob t _ (CallAccept key ctr)) => t = t0 -> key = key0 -> pretty ctr = x0 -> has x0 s
                | Some (mkJob t _ (CallCheck key ctr)) =>
                    n = later -> t = t0 -> key = key0 -> pretty ctr = x0 -> r = Ok (Some false)
                | _ => True
                end) (callP n (job_call j)).
Proof.
  intros Hj Ht Hns. assert (tab_of jobs n = Some t0) as Hself by (unfold tab_of; rewrite Hj; cbn; by rewrite Ht).
  pose proof (Hcalls _ _ Hj Ht) as Hk. pose proof (Hclear _ _ Hj Ht) as Hcl. rewrite Hj.
  assert (forall s, at_session c (n = later) s -> at_session c False s) as Hweak.
  { intros s (Hc & Hs & _). by split_and!. }
  destruct j as [t ns' [key ctr|key ctr|key]]; cbn [job_tab job_ns job_call callP call_key] in *; subst t ns'.
  - rg_apply (rg_then _ _ _ (fun b _ => n = later -> key = key0 -> pretty ctr = x0 -> b = false)).
    { by apply session_check. }
    intros b. rg_apply rg_ret. intros s Hb Hn _ Hkey Hx. by rewrite Hb.
  - rg_apply (rg_then _ _ _ (fun _ s => key = key0 -> pretty ctr = x0 -> has x0 s)); [|intros _; by rg_apply rg_ret].
    eapply rg_weaken; [exact Hweak|intros r s HQ; exact HQ|]. apply session_accept; [done|done|].
    right. by exists n, t0, key, ctr.
  - eapply rg_weaken; [exact Hweak|intros r s HQ; exact I|].
    rg_apply (rg_bind _ _ _ (fun _ _ => True) (fun _ _ => True)); [|intros _; by rg_apply rg_ret].
    eapply rg_post; [|apply session_clear; [done|]]; [by intros [|]|].
    intros Hkey%store_key_inj. by subst key.
Qed.

Lemma session_elsewhere n j :
  jobs !! n = Some j -> job_tab j <> t0 ->
  rg (session_rely n) (session_guar n) (fun s => tab_namespace s.1 = job_ns j /\ genuine jobs init s)
    (session_post n) (callP n (job_call j)).
Proof.
  intros Hj Ht. assert (tab_of jobs n <> Some t0) as Hn by (unfold tab_of; rewrite Hj; cbn; congruence).
  apply (rg_mono (genuine_rely jobs init n) _ (genuine_guar jobs init n)); [by intros s s' [? _]|done|].
  eapply rg_weaken; [intros s Hs; exact Hs| |by apply genuine_call]. intros r s Hr. split; [done|]. rewrite Hj.
  by destruct j as [t ns' [key ctr|key ctr|key]].
Qed.

Lemma session_post_stable n r s s' : session_rely n s s' -> session_post n r s -> session_post n r s'.
Proof.
  intros [_ HR] [Hg Hp]. split; [exact Hg|]. destruct (jobs !! n) as [[t ns' [key ctr|key ctr|key]]|] eqn:Hj; [done| |done|done].
  intros -> Hkey Hx. eapply has_grows; [|by apply Hp]. apply HR. unfold tab_of. by rewrite Hj.
Qed.

Lemma session_inv_guar n t s s' : tab_of jobs n = Some t -> session_guar n s s' -> session_inv t s -> session_inv t s'.
Proof.
  intros Hn [[HG _] HS] [Hg Hs]. split; [by apply HG|]. intros ->. by apply HS; [..|apply Hs].
Qed.

(** An origin whose database holds the same. *)
Lemma session_inv_origin t tab o o' :
  store (idb o') = store (idb o) -> session_inv t (tab, o) -> session_inv t (tab, o').
Proof. intros E [Hg Hs]. split; [|done]. by eapply genuine_same; [exact Hg|..]. Qed.

Lemma session_rely_origin n t tab o o' :
  tab_of jobs n = Some t -> session_inv t (tab, o') -> session_inv t (tab, o) -> session_rely n (tab, o) (tab, o').
Proof.
  intros Hn [Hg' Hs'] [Hg Hs]. split; [by split|]. intros Hn'. rewrite Hn in Hn'. injection Hn' as ->.
  split; [by apply Hs|]. split; [reflexivity|done].
Qed.

#[export] Instance session_discipline :
  Discipline jobs session_event session_org session_inv session_rely session_guar (fun _ _ => True)
    session_pre session_post.
Proof.
  split.
  - apply _.
  - apply session_rely_trans.
  - intros n t [tab o] Hn Hs. by eapply session_rely_origin.
  - intros n t s s' Hn [(HG & _ & Hcap) _] [Hg _] [_ Hc]. split; [apply HG, Hg|congruence].
  - intros t o o' [E _] [Ho Hc]. unfold session_org, genuine_store, capable. by rewrite E.
  - intros o1 r w d l o o' _ (_ & E & Ei & El & _) [Ho Hc]. unfold session_org, genuine_store, capable. by rewrite E, Ei, El.
  - intros t ns' w require tab o Hev [Ho Hc] Ht. split; [by eapply genuine_fresh|]. intros Et.
    destruct (Hev Et) as (? & ? & ?). by eapply session_fresh.
  - done.
  - done.
  - apply session_inv_guar.
  - intros n t t' s s' tab Hn Hne HG Hs [Hg' Hs']. split; [|done].
    destruct (session_inv_guar n t s s' Hn HG Hs) as [[Ho _] _]. split; [done|]. apply Hg'.
  - intros n m t s s' Hn Hm Hne [HG HS] [Hg Hs]. split; [split; [by apply HG|apply HG]|]. intros Hm'.
    rewrite Hm in Hm'. injection Hm' as ->. destruct (HS Hn Hg (Hs eq_refl)) as (? & ? & ?). auto.
  - intros n m t t' s s' tab Hn Hm Hne HG Hs Hs'. eapply session_rely_origin; [done| |done].
    destruct (session_inv_guar n t s s' Hn HG Hs) as [[Ho _] _]. destruct Hs' as [[_ Hw] Hs'].
    split; [|exact Hs']. split; [exact Ho|exact Hw].
  - intros t t' tab o o' _ [E _]. apply session_inv_origin. by rewrite E.
  - intros t t' m tab o o' _ Hm [E _] Hs. eapply session_rely_origin; [done| |done].
    eapply session_inv_origin; [|done]. by rewrite E.
  - intros o1 r w d l t tab o o' _ (_ & E & _). by apply session_inv_origin.
  - intros o1 r w d l m t tab o o' _ Hm (_ & E & _) Hs. eapply session_rely_origin; [done| |done].
    by eapply session_inv_origin.
  - intros n r s s'. apply session_post_stable.
  - intros n j Hj. destruct (decide (job_tab j = t0)) as [Ht|Ht].
    2: { eapply rg_weaken; [|done|by apply session_elsewhere]. by intros s (Hns & [Hg _] & _). }
    intros s (Hns & [Hg Hs] & _ & Hpre). specialize (Hs Ht).
    assert (job_ns j = ns) as Hns' by (rewrite <- Hns; apply Hs).
    pose proof (session_call n j (conf s) Hj Ht Hns') as Hcall.
    pose proof (rg_and _ _ _ _ _ _ _ _ _ (fun s s' (H : session_rely n s s') => proj1 H)
      (genuine_call jobs init n j Hj) Hcall) as Hboth.
    apply Hboth. split; [done|]. split; [done|]. split; [done|]. exact Hpre.
Qed.

(** A run to a configuration in which the [accept] has settled, and on from the [check]. *)
Lemma session_run e evs1 evs2 m r v ns' ctr
    (b1 := run_browser (idle_browser e) evs1)
    (b1' := browser_step b1 (Begin t0 (CallCheck key0 ctr))) (b2 := run_browser b1' evs2) :
  session_org (mkOrigin e ∅) -> (forall ev, ev ∈ evs1 ++ evs2 -> session_event ev) -> later = length (journal b1) ->
  journal b2 = jobs -> journal b1 !! m = Some (mkJob t0 ns' (CallAccept key0 ctr)) -> pretty ctr = x0 ->
  flights b1 !! m = Some (mkFlight t0 (Finished r)) -> flights b2 !! later = Some (mkFlight t0 (Finished v)) ->
  v = Ok (Some false).
Proof.
  intros Horg Hev El Ej Hm Ex Hr Hv.
  assert (journal b1' `prefix_of` jobs) as Hpre' by (rewrite <- Ej; apply journal_run).
  assert (journal b1 `prefix_of` jobs) as Hpre by (etransitivity; [apply journal_step|exact Hpre']).
  set (ok := in_order jobs (unused := fun _ _ => True) (org := session_org) (inv := session_inv) (rely := session_rely) (guar := session_guar)
    (post := session_post)).
  assert (ok b1) as Hb1.
  { apply (discipline_run jobs (allowed := session_event) (unused := fun _ _ => True) (pre := session_pre)); [by apply in_order_idle| |..|done].
    - intros ev Hin. apply Hev. set_solver.
    - intros i s _ Hi ->. fold b1 in Hi. lia. }
  destruct (io_flights _ _ Hb1 _ _ Hr) as (tab & _ & Hopen1 & _ & [_ Hhas]). cbn [fl_tab fl_run] in *.
  rewrite (prefix_lookup_Some _ _ _ _ Hm Hpre) in Hhas. specialize (Hhas eq_refl eq_refl Ex).
  assert (journal b1' = journal b1 ++ [mkJob t0 (tab_namespace tab) (CallCheck key0 ctr)]) as Ej1.
  { unfold b1'. cbn [browser_step]. by rewrite Hopen1. }
  assert (ok b1') as Hb1'.
  { apply (in_order_step jobs (allowed := session_event) (unused := fun _ _ => True) (pre := session_pre)); [done| |done]. split; [done|].
    intros tab' Ht'. rewrite Ht' in Hopen1. injection Hopen1 as ->. intros _. exact Hhas. }
  assert (ok b2) as Hb2.
  { apply (discipline_run jobs (allowed := session_event) (unused := fun _ _ => True) (pre := session_pre)); [done| | |by rewrite <- Ej].
    - intros ev Hin. apply Hev. set_solver.
    - intros i s Hi _ ->. rewrite Ej1, length_app in Hi. cbn in Hi. lia. }
  destruct (io_flights _ _ Hb2 _ _ Hv) as (tab' & _ & _ & _ & [_ Hpost]). cbn [fl_run] in Hpost.
  assert (jobs !! later = Some (mkJob t0 (tab_namespace tab) (CallCheck key0 ctr))) as Hl.
  { eapply prefix_lookup_Some; [|exact Hpre']. by rewrite Ej1, lookup_app_r, El, Nat.sub_diag by lia. }
  rewrite Hl in Hpost. by apply Hpost.
Qed.

End Session.

(** ** The property *)

(** The distinct keys that the calls of a tab are about. *)
Definition tab_keys (jobs : list Job) (t : nat) : list string :=
  remove_dups (omap (fun j => if decide (job_tab j = t) then Some (call_key (job_call j)) else None) jobs).

Lemma tab_keys_call jobs n j : jobs !! n = Some j -> call_key (job_call j) ∈ tab_keys jobs (job_tab j).
Proof.
  intros Hj. apply elem_of_remove_dups, list_elem_of_omap. eexists. split; [by eapply list_elem_of_lookup_2|]. cbn.
  by rewrite decide_True.
Qed.

(** C18. What a tab accepted it refuses until its window of the key is cleared, whatever calls overlap,
    whatever other tabs do and whatever requests fail: once [accept] has settled, a [check] of the same
    CTR that is called afterwards in that tab and settles, resolves to [false]. Three conditions: no call
    of the tab clears the key (after a [clear] the CTR is new again), the tab's calls are about at most
    as many keys as the cache holds, and the CTRs of the key fit in the window. *)
Theorem accepted_ctr_stays_refused (e : Idb) (evs1 evs2 : list BrowserEvent) (m t : nat) (ns key : string) (ctr : Z)
    (r v : res (option bool))
    (b1 := run_browser (idle_browser e) evs1)
    (b2 := run_browser b1 (Begin t (CallCheck key ctr) :: evs2))
    (He : idb_wf e) (Hidb : idbAvailable e = true) (Hlocks : locksAvailable e = true)
    (Hopen : forall ns' w q, OpenTab t ns' w q ∈ evs1 ++ evs2 ->
       ns' = ns /\ Z.of_nat (length (key_ctrs (store e) (journal b2) ns key)) <= resolveWindow w)
    (Hkeys : (length (tab_keys (journal b2) t) <= REPLAY_MEM_CACHE_CAP)%nat)
    (Hclear : forall i ns', journal b2 !! i <> Some (mkJob t ns' (CallClear key)))
    (Haccept : journal b1 !! m = Some (mkJob t ns (CallAccept key ctr)))
    (Hsettled : flights b1 !! m = Some (mkFlight t (Finished r)))
    (Hcheck : flights b2 !! length (journal b1) = Some (mkFlight t (Finished v))) :
  v = Ok (Some false).
Proof.
  set (U := key_ctrs (store e) (journal b2) ns key) in *.
  assert (0 < Z.of_nat (length U)) as HU0.
  { assert (pretty ctr ∈ U) as [i Hi%lookup_lt_Some]%list_elem_of_lookup_1; [|lia].
    apply key_ctrs_known. right. exists m, t, key, ctr. split; [|done]. eapply prefix_lookup_Some; [exact Haccept|].
    apply (journal_run b1 (Begin t (CallCheck key ctr) :: evs2)). }
  apply (session_run (journal b2) (store e) t ns key (pretty ctr) (store_key ns <$> tab_keys (journal b2) t) U
    (length (journal b1))) with (e := e) (evs1 := evs1) (evs2 := evs2) (m := m) (r := r) (ns' := ns) (ctr := ctr); try done.
  - by rewrite length_fmap.
  - apply key_ctrs_known.
  - intros i j Hj Ht. apply list_elem_of_fmap_2. rewrite <- Ht. by eapply tab_keys_call.
  - intros i [t' ns' call] Hj Ht Hc. cbn in *. subst t' call. by eapply Hclear.
  - split; [|unfold capable; cbn; by rewrite Hidb, Hlocks].
    intros ns' fk l Hl. split; [by eapply He|]. intros x Hx. left. by exists l.
  - intros [t' ns' w q| | | |] Hin; try done. intros ->. destruct (Hopen _ _ _ Hin). split_and!; [done|done|lia].
Qed.

(** Two calls of [accept] that overlap while the writes fail, then a [check]. *)
Definition session_events1 : list BrowserEvent :=
  [OpenTab 0 "app" (Some (JsInt 4)) false; Faults true true false true true;
   Begin 0 (CallAccept "k" 5); Begin 0 (CallAccept "k" 6); Begin 0 (CallCheck "other" 6);
   Resume 1; Resume 0; Resume 2; Resume 1; Resume 0] ++ finish_call 0 ++ finish_call 1 ++ finish_call 2.

Definition session_events2 : list BrowserEvent := Begin 0 (CallCheck "k" 5) :: finish_call 3.

Lemma accepted_ctr_stays_refused_witness :
  flights (run_browser (run_browser (idle_browser quiet_origin) session_events1) session_events2) !! 3%nat =
    Some (mkFlight 0 (Finished (Ok (Some false)))).
Proof.
  assert (exists v, flights (run_browser (run_browser (idle_browser quiet_origin) session_events1) session_events2) !! 3%nat =
    Some (mkFlight 0 (Finished v))) as [v Hv] by (eexists; vm_compute; reflexivity).
  rewrite Hv. do 3 f_equal.
  apply (accepted_ctr_stays_refused quiet_origin session_events1 (finish_call 3) 0 0 "app" "k" 5 (Ok None) v
    quiet_origin_wf); try reflexivity; [| | |exact Hv]; clear Hv.
  - intros ns w q Hin. unfold session_events1, finish_call in Hin.
    repeat (apply elem_of_app in Hin as [Hin|Hin]); try (by apply elem_of_replicate in Hin as [? ?]).
    repeat (apply elem_of_cons in Hin as [Hin|Hin]; [try discriminate|]); [|by apply not_elem_of_nil in Hin].
    injection Hin as -> -> ->. split; [reflexivity|]. vm_compute. discriminate.
  - apply Nat.leb_le. vm_compute. reflexivity.
  - intros i ns. destruct i as [|[|[|[|i]]]]; vm_compute; discriminate.
Defined.
