(* ===== verification/DurableShared.v ===== *)
(** * DurableShared: what one tab accepted, the others find (src/chat/durable-replay.ts)

    While the storage works: the read-merge-write of a persist runs under the lock of its key, so no
    CTR that is stored is lost to another tab's write, and a CTR whose calls of [accept] have settled
    is stored. Every tab that loads the key later, after a reload for instance, refuses it, as long as
    nobody clears the key. *)
From S2P Require Import Prelude StateLogic Async Rely Errors Internal Replay Durable DurableAsync DurableRules DurableTabs DurableGenuine.
#[local] Open Scope Z_scope.

Section Shared.
Context (jobs : list Job) (init : gmap (string * string) PersistedWindow).
(** The namespace, the key and the CTR; the CTRs that may be in a window of the key; the check that
    comes later. *)
Context (ns key0 x0 : string) (U : list string) (later : nat).
#[local] Notation fk0 := (store_key ns key0).
#[local] Notation lock0 := (lock_name fk0).
Hypothesis (HU : forall x, known jobs init ns fk0 x -> x ∈ U).

Definition stored_ctrs (o : Origin) : list string := default [] (persisted_seen (store (idb o) !! (ns, fk0))).

(** Call [n] of tab [t] accepts the CTR. *)
Definition accepts (t n : nat) : Prop :=
  exists ctr, jobs !! n = Some (mkJob t ns (CallAccept key0 ctr)) /\ pretty ctr = x0.

Definition works (o : Origin) : Prop :=
  opens (idb o) = true /\ reads (idb o) = true /\ writes (idb o) = true /\ locks_granted (idb o) = true.

(** The windows of the key in a tab hold the CTR only if it is stored, or a persist of it is due. *)
Record shared (t : nat) (s : DS) : Prop := {
  sh_works : works s.2;
  sh_db : tab_db s.1 <> Some false;
  sh_available : tab_available s.1 = true;
  sh_window : tab_namespace s.1 = ns -> Z.of_nat (length U) <= tab_window s.1 /\ 0 < tab_window s.1;
  sh_mem w : tab_mem s.1 !! fk0 = Some w -> is_Some (windows s.1 !! (fk0, w));
  sh_hydrated i w : hydrated s.1 !! (fk0, i) = Some w -> is_Some (windows s.1 !! (fk0, w));
  sh_pending w : tab_namespace s.1 = ns -> x0 ∈ mem_set (lookup_window fk0 w s.1) ->
    x0 ∈ stored_ctrs s.2 \/ exists n, tails s.1 !! n = Some false /\ accepts t n
}.

(** What only grows, and what belongs to call [n]: its lock, its promises, its window. *)
Definition grows_all : relation DS := fun s s' =>
  (forall x, x ∈ stored_ctrs s.2 -> x ∈ stored_ctrs s'.2) /\
  (tab_namespace s.1 = ns -> forall w x, x ∈ mem_set (lookup_window fk0 w s.1) -> x ∈ mem_set (lookup_window fk0 w s'.1)) /\
  (forall w, is_Some (windows s.1 !! (fk0, w)) -> is_Some (windows s'.1 !! (fk0, w))).

Definition leaves (n : nat) : relation DS := fun s s' =>
  (locks s.2 !! lock0 = Some n -> locks s'.2 !! lock0 = Some n /\ stored_ctrs s'.2 = stored_ctrs s.2) /\
  tails s'.1 !! n = tails s.1 !! n /\ hydrated s'.1 !! (fk0, n) = hydrated s.1 !! (fk0, n) /\
  (windows s.1 !! (fk0, n) = None -> windows s'.1 !! (fk0, n) = None).

Definition calm (n : nat) : relation DS := fun s s' => grows_all s s' /\ forall m, m <> n -> leaves m s s'.

Definition shared_rely (n : nat) : relation DS := fun s s' =>
  genuine_rely jobs init n s s' /\ (forall t, tab_of jobs n = Some t -> shared t s') /\ grows_all s s' /\ leaves n s s'.

Definition shared_guar (n : nat) : relation DS := fun s s' =>
  genuine_guar jobs init n s s' /\
  forall t, tab_of jobs n = Some t -> genuine jobs init s -> shared t s -> shared t s' /\ calm n s s'.

Lemma grows_all_refl s : grows_all s s.
Proof. by split_and!. Qed.

Lemma grows_all_trans s1 s2 s3 :
  tab_namespace s2.1 = tab_namespace s1.1 -> grows_all s1 s2 -> grows_all s2 s3 -> grows_all s1 s3.
Proof.
  intros E (H1 & H2 & H3) (H4 & H5 & H6). split_and!; [by auto| |by auto].
  intros Hns w x Hx. apply H5; [congruence|]. by apply H2.
Qed.

#[export] Instance leaves_preorder n : PreOrder (leaves n).
Proof.
  split; [by intros s; unfold leaves|]. intros s1 s2 s3 (H1 & H2 & H3 & H4) (H5 & H6 & H7 & H8). split_and!; [|congruence..|auto].
  intros Hl. destruct (H1 Hl) as [Hl2 E2]. destruct (H5 Hl2) as [Hl3 E3]. split; [done|congruence].
Qed.

#[export] Instance shared_guar_preorder n : PreOrder (shared_guar n).
Proof.
  split.
  - intros s. split; [reflexivity|]. intros t _ _ Hs. split; [done|]. split; [apply grows_all_refl|reflexivity].
  - intros s1 s2 s3 [G1 H1] [G2 H2]. split; [by etransitivity|]. intros t Ht Hg Hs.
    destruct (H1 t Ht Hg Hs) as (Hs2 & C1 & L1). destruct (H2 t Ht (proj1 G1 Hg) Hs2) as (Hs3 & C2 & L2).
    split; [done|]. split.
    + apply (grows_all_trans s1 s2); [|done..]. destruct G1 as (_ & E & _). by injection E.
    + intros m Hm. etransitivity; [by apply L1|by apply L2].
Qed.

Lemma shared_rely_trans n : Transitive (shared_rely n).
Proof.
  intros s1 s2 s3 ([G1 E1] & S1 & C1 & L1) ([G2 E2] & S2 & C2 & L2).
  split; [split; [done|congruence]|]. split; [done|]. split; [|by etransitivity].
  apply (grows_all_trans s1 s2); [|done..]. by injection E1.
Qed.

(** ** The pieces of a call *)

Section Calls.
Context (self t : nat) (Hself : tab_of jobs self = Some t) (c : bool * string * Z).
#[local] Notation R := (shared_rely self).
#[local] Notation G := (shared_guar self).

Definition at_shared (s : DS) : Prop := at_conf jobs init c s /\ shared t s.

(** The window and the key that the properties are about. *)
Definition mine (fk : string) : Prop := c.1.2 = ns /\ fk = fk0.

Lemma at_shared_stable : stable R at_shared.
Proof.
  intros s s' ([Hg E] & HS & _) [[_ Hc] _]. split; [split; [done|congruence]|]. by apply HS.
Qed.

Lemma shared_piece s s' :
  at_shared s -> genuine_guar jobs init self s s' -> at_conf jobs init c s' -> shared t s' -> calm self s s' ->
  G s s' /\ at_shared s'.
Proof.
  intros Hs HG Hc Hs' Hcalm. split; [|by split]. split; [done|]. intros t' Ht'.
  rewrite Hself in Ht'. by injection Ht' as <-.
Qed.

(** What [shared] and [calm] look at in a tab. *)
Definition sight (tab : Tab) := (tab_available tab, tab_namespace tab, tab_window tab, windows tab, hydrated tab, tails tab).

(** Writes that nothing looks at. *)
Lemma shared_same s s' :
  at_shared s -> sight s'.1 = sight s.1 -> tab_db s'.1 <> Some false ->
  (forall w, tab_mem s'.1 !! fk0 = Some w -> tab_mem s.1 !! fk0 = Some w) ->
  s'.2 = s.2 -> G s s' /\ at_shared s'.
Proof.
  intros [Hc [H1 H2 H3 H4 H5 H6 H7]] [= Ea En Ew Eo Eh Et] Hdb Hmem Es.
  destruct (genuine_same_guar jobs init self c s s') as [HG Hc']; try (by rewrite Es); [done| |done|].
  { unfold conf. by rewrite Ea, En, Ew. }
  apply shared_piece; [by split|done|done| |].
  - split; rewrite ?Ea, ?En, ?Ew, ?Eo, ?Eh, ?Et, ?Es; try done; [by eauto|].
    intros w. unfold lookup_window. rewrite Eo. apply H7.
  - split; [split_and!|intros m _; split_and!]; unfold lookup_window; by rewrite ?Es, ?Eo, ?Et, ?Eh.
Qed.

Lemma at_shared_frame : frame R G at_shared.
Proof.
  split; [apply at_shared_stable|]. intros s s' Hq Hs. destruct Hq; apply shared_same; try done; cbn; try apply Hs.
  destruct Hs as [_ [[Ho _] Hdb _ _ _ _ _]]. rewrite Ho. by destruct (tab_db s.1) as [[]|].
Qed.

Lemma at_shared_conf s : at_shared s -> tab_namespace s.1 = c.1.2 /\ tab_window s.1 = c.2.
Proof. by intros [[_ <-] _]. Qed.

Lemma trim_mem_lookup fuel just h p (m : OMap string nat) k w :
  trim_mem fuel just h p m !! k = Some w -> m !! k = Some w.
Proof.
  revert m; induction fuel as [|fuel IH]; intros m; simpl; [done|]. case_match; [done|].
  destruct (evictableP _ _ _ _) as [key|]; [|done]. intros Hk%IH. destruct (decide (key = k)) as [->|Hne].
  - by rewrite jm_lookup_delete_eq in Hk.
  - by rewrite jm_lookup_delete_ne in Hk.
Qed.

(** A window object of this tab gets new contents, which are stored or were there. *)
Lemma shared_put fk w l s :
  at_shared s -> genuine_order jobs init c.1.2 fk l -> (length l <= Z.to_nat c.2)%nat ->
  (fk = fk0 -> is_Some (windows s.1 !! (fk0, w)) \/ w = self) ->
  (mine fk -> forall x, x ∈ mem_set (lookup_window fk0 w s.1) -> x ∈ l) ->
  (mine fk -> x0 ∈ l -> x0 ∈ stored_ctrs s.2 \/ x0 ∈ mem_set (lookup_window fk0 w s.1) \/
     exists n, tails s.1 !! n = Some false /\ accepts t n) ->
  G s (put_window fk w (mkMem l l) s.1, s.2) /\ at_shared (put_window fk w (mkMem l l) s.1, s.2).
Proof.
  intros Hs Ho Hn Hex Hgrow Hnew. pose proof Hs as [Hc [H1 H2 H3 H4 H5 H6 H7]]. destruct (at_shared_conf s Hs) as [En Ew].
  destruct (genuine_put_guar jobs init self c s fk w l Hc) as [HG Hc']; [by rewrite En|by rewrite Ew|].
  assert (forall w', lookup_window fk0 w' (put_window fk w (mkMem l l) s.1) =
    if decide ((fk, w) = (fk0, w')) then mkMem l l else lookup_window fk0 w' s.1) as Elook.
  { intros w'. unfold lookup_window, put_window. cbn. destruct (decide ((fk, w) = (fk0, w'))) as [->|Hne].
    - by rewrite lookup_insert_eq.
    - by rewrite lookup_insert_ne. }
  assert (forall w', is_Some (windows s.1 !! (fk0, w')) -> is_Some (windows (put_window fk w (mkMem l l) s.1) !! (fk0, w'))) as Hkeep.
  { intros w' Hw. cbn. destruct (decide ((fk, w) = (fk0, w'))) as [->|Hne];
      [rewrite lookup_insert_eq; eauto|by rewrite lookup_insert_ne]. }
  apply shared_piece; [done..| |].
  - split; try done.
    + intros w' Hw. by apply Hkeep, H5.
    + intros i w' Hw. by eapply Hkeep, H6.
    + intros w'. cbn [fst snd]. rewrite Elook. intros Hns. change (tab_namespace s.1 = ns) in Hns.
      destruct (decide _) as [[= -> ->]|_]; [|by apply H7]. cbn. intros Hx.
      destruct (Hnew (conj (eq_trans (eq_sym En) Hns) eq_refl) Hx) as [?|[?|?]]; [by left|by eapply H7|by right].
  - split; [split_and!|]; try done.
    + intros Hns w' x Hx. cbn [fst]. rewrite Elook. destruct (decide _) as [[= -> ->]|_]; [|done].
      apply Hgrow; [|done]. split; [congruence|done].
    + intros m Hm. split_and!; try done. cbn. intros Hnone. rewrite lookup_insert_ne; [done|].
      intros [= -> ->]. destruct (Hex eq_refl) as [[? Hw]|Hw]; congruence.
Qed.

Lemma shared_install fk o s :
  at_shared s -> genuine_order jobs init c.1.2 fk o -> (length o <= Z.to_nat c.2)%nat ->
  windows s.1 !! (fk0, self) = None -> (mine fk -> forall x, x ∈ o -> x ∈ stored_ctrs s.2) ->
  G s (install self fk o s.1, s.2) /\ at_shared (install self fk o s.1, s.2).
Proof.
  intros Hs Ho Hn Hnone Hstored.
  destruct (shared_put fk self o s Hs Ho Hn) as [HG Hs'].
  { by right. }
  { intros _ x. unfold lookup_window. rewrite Hnone. cbn. set_solver. }
  { intros Hmine Hx. left. by apply Hstored. }
  set (s1 := (put_window fk self (mkMem o o) s.1, s.2)) in *. set (s2 := (install self fk o s.1, s.2)).
  assert (genuine_guar jobs init self s1 s2 /\ at_conf jobs init c s2) as [HG2 Hc2].
  { apply genuine_same_guar; try done. apply Hs'. }
  destruct Hs' as [Hc' [H1 H2 H3 H4 H5 H6 H7]].
  assert (fk = fk0 -> is_Some (windows s1.1 !! (fk0, self))) as Hown.
  { intros ->. cbn. rewrite lookup_insert_eq. eauto. }
  assert (G s1 s2 /\ at_shared s2) as [HG' Hs2].
  2: { split; [by etransitivity|done]. }
  apply shared_piece; [by split|done|done| |].
  - split; try done.
    + intros w. cbn. intros Hw%trim_mem_lookup. destruct (decide (fk = fk0)) as [->|Hne].
      * rewrite jm_lookup_insert_eq in Hw. injection Hw as <-. by apply Hown.
      * rewrite jm_lookup_insert_ne in Hw by done. by apply H5.
    + intros i w. cbn. destruct (decide ((fk, self) = (fk0, i))) as [[= -> ->]|Hne].
      * rewrite lookup_insert_eq. intros [= <-]. by apply Hown.
      * rewrite lookup_insert_ne by done. apply H6.
  - split; [by split_and!|]. intros m Hm. split_and!; try done. cbn. by rewrite lookup_insert_ne by congruence.
Qed.

(** ** The lock and the store *)

Definition holds (fk : string) (s : DS) : Prop := fk = fk0 -> locks s.2 !! lock0 = Some self.

Lemma lock_name_inj fk : lock_name fk = lock0 -> fk = fk0.
Proof. unfold lock_name. intros H. by repeat (apply (inj (String.append _)) in H). Qed.

Lemma shared_locks s f :
  at_shared s ->
  (forall m, m <> self -> locks s.2 !! lock0 = Some m -> f (locks s.2) !! lock0 = Some m) ->
  G s (s.1, s.2 <| locks ::= f |>) /\ at_shared (s.1, s.2 <| locks ::= f |>).
Proof.
  intros Hs Hf. pose proof Hs as [Hc [H1 H2 H3 H4 H5 H6 H7]].
  destruct (genuine_same_guar jobs init self c s (s.1, s.2 <| locks ::= f |>)) as [HG Hc']; [done..|].
  apply shared_piece; [done..| |].
  - by split.
  - split; [by split_and!|]. intros m Hm. split_and!; try done. intros Hl. split; [by apply Hf|done].
Qed.

Lemma shared_acquire fk s :
  at_shared s -> locks s.2 !! lock_name fk = None ->
  G s (acquired self (lock_name fk) s) /\ at_shared (acquired self (lock_name fk) s) /\
  holds fk (acquired self (lock_name fk) s).
Proof.
  intros Hs Hfree. destruct (shared_locks s (<[lock_name fk := self]>) Hs) as [HG Hs'].
  - intros m Hm Hl. rewrite lookup_insert_ne; [done|]. intros E. rewrite E in Hfree. congruence.
  - split; [done|]. split; [done|]. intros ->. cbn. apply lookup_insert_eq.
Qed.

Lemma shared_release fk s :
  at_shared s -> holds fk s ->
  G s (released (lock_name fk) s) /\ at_shared (released (lock_name fk) s).
Proof.
  intros Hs Hh. apply (shared_locks s (delete (lock_name fk)) Hs).
  intros m Hm Hl. rewrite lookup_delete_ne; [done|]. intros E%lock_name_inj. specialize (Hh E). congruence.
Qed.

Lemma stored_written fk l s :
  stored_ctrs (written fk (mkPersisted 1 (Some l)) s).2 =
    if decide ((tab_namespace s.1, fk) = (ns, fk0)) then l else stored_ctrs s.2.
Proof.
  unfold stored_ctrs, written. cbn. case_decide as E.
  - rewrite E. by rewrite lookup_insert_eq.
  - by rewrite lookup_insert_ne.
Qed.

Lemma shared_write fk l s :
  at_shared s -> puttable jobs init c fk l s -> holds fk s ->
  (mine fk -> forall x, x ∈ stored_ctrs s.2 -> x ∈ l) ->
  G s (written fk (mkPersisted 1 (Some l)) s) /\ at_shared (written fk (mkPersisted 1 (Some l)) s).
Proof.
  intros Hs Hp Hh Hkeep. pose proof Hs as [Hc [H1 H2 H3 H4 H5 H6 H7]]. destruct (at_shared_conf s Hs) as [En _].
  destruct (genuine_written jobs init self c s fk l Hp) as [HG Hc'].
  assert (forall x, x ∈ stored_ctrs s.2 -> x ∈ stored_ctrs (written fk (mkPersisted 1 (Some l)) s).2) as Hgrow.
  { intros x. rewrite stored_written. case_decide as E; [|done]. injection E as E1 E2. apply Hkeep.
    split; [congruence|done]. }
  apply shared_piece; [done..| |].
  - split; try done. intros w Hns Hx. destruct (H7 w Hns Hx); [left; by apply Hgrow|by right].
  - split; [by split_and!|]. intros m Hm. split_and!; try done. intros Hl. split; [done|].
    rewrite stored_written. case_decide as E; [|done]. injection E as E1 E2. specialize (Hh E2). congruence.
Qed.

Lemma shared_erase fk s :
  at_shared s -> ~ mine fk -> G s (erased fk s) /\ at_shared (erased fk s).
Proof.
  intros Hs Hne. pose proof Hs as [Hc [H1 H2 H3 H4 H5 H6 H7]]. destruct (at_shared_conf s Hs) as [En _].
  destruct (genuine_erased jobs init self c s fk Hc) as [HG Hc'].
  assert (stored_ctrs (erased fk s).2 = stored_ctrs s.2) as E.
  { unfold stored_ctrs, erased. cbn. rewrite lookup_delete_ne; [done|]. intros [= E1 E2]. apply Hne.
    split; [congruence|done]. }
  apply shared_piece; [done..| |].
  - split; try done. rewrite E. exact H7.
  - split; [split_and!; rewrite ?E; try done|]. intros m Hm. split_and!; try done.
Qed.

(** ** The persist chain *)

Lemma shared_record fk w x s :
  at_shared s -> known jobs init c.1.2 fk x -> x ∉ mem_set (lookup_window fk w s.1) ->
  (fk = fk0 -> is_Some (windows s.1 !! (fk0, w))) ->
  (mine fk -> x = x0 -> accepts t self) ->
  G s (record self fk w x s.1, s.2) /\ at_shared (record self fk w x s.1, s.2) /\
  (mine fk -> x ∈ mem_set (lookup_window fk0 w (record self fk w x s.1))) /\
  tails (record self fk w x s.1) !! self = Some false.
Proof.
  intros Hs Hx Hnot Hex Hacc. destruct (at_shared_conf s Hs) as [En Ew].
  destruct (record_put jobs init self c s fk w x (proj1 Hs) Hnot) as (l & Hm & Hl & Hnd & Er).
  set (o := lastn (Z.to_nat (tab_window s.1)) (l ++ [x])) in *. rewrite En in Hl.
  pose proof (genuine_snoc _ _ _ _ _ _ Hl Hnd Hx) as Ho.
  assert (mine fk -> o = l ++ [x]) as Eo.
  { intros [Ens ->]. apply lastn_all. rewrite Ens in Ho. destruct Ho as [_ Ho].
    assert (length (l ++ [x]) <= length U)%nat by (apply submseteq_length, NoDup_submseteq; auto).
    destruct (sh_window _ _ (proj2 Hs)); [congruence|lia]. }
  set (s1 := (s.1 <| tab_persisting ::= fun p => <[fk := default 0 (p !! fk) + 1]> p |>
                <| persistTail := Some self |> <| tails ::= <[self := false]> |>, s.2)).
  assert (G s s1 /\ at_shared s1) as [HG1 Hs1].
  { pose proof Hs as [Hc [H1 H2 H3 H4 H5 H6 H7]].
    destruct (genuine_same_guar jobs init self c s s1) as [HG Hc']; [done..|]. apply shared_piece; [done..| |].
    - split; try done. intros w' Hns Hx'. destruct (H7 w' Hns Hx') as [?|(n & Hn & Ha)]; [by left|]. right.
      destruct (decide (self = n)) as [<-|Hne]; [exists self|exists n]; cbn;
        [by rewrite lookup_insert_eq|by rewrite lookup_insert_ne].
    - split; [by split_and!|]. intros m Hm'. split_and!; try done. cbn. by rewrite lookup_insert_ne by congruence. }
  assert ((record self fk w x s.1, s.2) = (put_window fk w (mkMem o o) s1.1, s1.2)) as E by (by rewrite Er).
  rewrite E. destruct (shared_put fk w o s1 Hs1) as [HG2 Hs2].
  - by apply genuine_order_lastn.
  - unfold o. rewrite length_lastn, Ew. lia.
  - intros Hfk. left. by apply Hex.
  - intros Hmine y. rewrite Eo by done. destruct Hmine as [_ ->]. change (lookup_window fk0 w s1.1) with (lookup_window fk0 w s.1).
    rewrite Hm. cbn. set_solver.
  - intros Hmine. rewrite Eo by done. pose proof Hmine as [_ ->].
    change (lookup_window fk0 w s1.1) with (lookup_window fk0 w s.1). rewrite Hm. cbn [mem_set].
    rewrite elem_of_app, list_elem_of_singleton. intros [Hin|Hin]; [by right; left|]. right. right. exists self.
    split; [apply lookup_insert_eq|]. by apply Hacc.
  - split; [by etransitivity|]. split; [done|]. rewrite Er. split; [|apply lookup_insert_eq].
    intros Hmine. rewrite Eo by done. destruct Hmine as [_ ->]. unfold lookup_window. cbn. rewrite lookup_insert_eq. cbn. set_solver.
Qed.

Lemma shared_link_done fk s :
  at_shared s -> (accepts t self -> x0 ∈ stored_ctrs s.2) ->
  G s (link_done self fk s) /\ at_shared (link_done self fk s) /\ tails (link_done self fk s).1 !! self = Some true.
Proof.
  intros Hs Hst. pose proof Hs as [Hc [H1 H2 H3 H4 H5 H6 H7]].
  assert (exists p, (link_done self fk s).1 = s.1 <| tab_persisting := p |> <| tails ::= <[self := true]> |>) as [p Ep].
  { unfold link_done, releasePersistingP. cbn. case_match; eexists; reflexivity. }
  set (s' := link_done self fk s) in *.
  assert (tails s'.1 !! self = Some true) as Ht by (rewrite Ep; apply lookup_insert_eq).
  destruct (genuine_same_guar jobs init self c s s') as [HG Hc']; try done; [by rewrite Ep|by unfold conf; rewrite Ep|].
  assert (G s s' /\ at_shared s') as [HG' Hs']; [|by split_and!]. apply shared_piece; [done..| |].
  - split; rewrite ?Ep; try done. intros w Hns Hx. destruct (H7 w Hns Hx) as [?|(n & Hn & Ha)]; [by left|].
    destruct (decide (n = self)) as [->|Hne]; [left; by apply Hst|]. right. exists n. split; [|done]. cbn.
    by rewrite lookup_insert_ne.
  - split; [split_and!; rewrite ?Ep; done|]. intros m Hm. split_and!; rewrite ?Ep; try done. cbn.
    by rewrite lookup_insert_ne.
Qed.

(** ** Loading a window *)

(** [sought]: the CTR is stored and the tab has no window of the key, so that this call loads it. *)
Section Load.
Context (fk : string) (sought : Prop).

Definition fresh (s : DS) : Prop := windows s.1 !! (fk0, self) = None.

Definition may_load (s : DS) : Prop :=
  at_shared s /\ fresh s /\
  (sought -> x0 ∈ stored_ctrs s.2 /\ (mine fk -> tab_mem s.1 !! fk0 = None /\ hydrating s.1 !! fk0 = None)).
Definition loading_ctr (s : DS) : Prop := at_shared s /\ fresh s /\ (sought -> x0 ∈ stored_ctrs s.2).
Definition loadable_ctr (o : list string) (s : DS) : Prop :=
  loading_ctr s /\ genuine_order jobs init c.1.2 fk o /\ (length o <= Z.to_nat c.2)%nat /\
  (mine fk -> (forall x, x ∈ o -> x ∈ stored_ctrs s.2) /\ (sought -> x0 ∈ o)).
Definition awaits (i : nat) (s : DS) : Prop :=
  at_shared s /\
  (mine fk -> sought -> i = self /\ hydrated s.1 !! (fk0, self) = Some self /\ x0 ∈ mem_set (lookup_window fk0 self s.1)).
Definition has_window (w : nat) (s : DS) : Prop :=
  at_shared s /\ (fk = fk0 -> is_Some (windows s.1 !! (fk0, w))) /\
  (mine fk -> sought -> x0 ∈ mem_set (lookup_window fk0 w s.1)).

Lemma contents_grow s s' w :
  R s s' -> at_shared s -> mine fk -> x0 ∈ mem_set (lookup_window fk0 w s.1) -> x0 ∈ mem_set (lookup_window fk0 w s'.1).
Proof.
  intros (_ & _ & (_ & Hg & _) & _) Hs [Hns _]. destruct (at_shared_conf s Hs) as [En _]. apply Hg. congruence.
Qed.

Lemma loading_ctr_stable : stable R loading_ctr.
Proof.
  intros s s' HR (Hs & Hf & Hx). split; [by eapply at_shared_stable|]. destruct HR as (_ & _ & (Hg & _) & (_ & _ & _ & Hw)).
  split; [by apply Hw|]. auto.
Qed.

Lemma loading_ctr_frame : frame R G loading_ctr.
Proof.
  split; [apply loading_ctr_stable|]. intros s s' Hq (Hs & Hf & Hx).
  destruct (proj2 at_shared_frame _ _ Hq Hs) as [HG Hs']. split; [done|]. split; [done|]. by destruct Hq.
Qed.

Lemma loadable_ctr_stable o : stable R (loadable_ctr o).
Proof.
  intros s s' HR (Hl & Ho & Hn & Hm). split; [by eapply loading_ctr_stable|]. split; [done|]. split; [done|].
  intros Hmine. destruct (Hm Hmine) as [Hst Hx]. split; [|done]. destruct HR as (_ & _ & (Hg & _) & _). auto.
Qed.

Lemma awaits_stable i : stable R (awaits i).
Proof.
  intros s s' HR [Hs Hm]. split; [by eapply at_shared_stable|]. intros Hmine Hq. destruct (Hm Hmine Hq) as (-> & Hh & Hx).
  split; [done|]. split; [|by eapply contents_grow]. destruct HR as (_ & _ & _ & (_ & _ & -> & _)). done.
Qed.

Lemma has_window_stable w : stable R (has_window w).
Proof.
  intros s s' HR (Hs & Hw & Hm). split; [by eapply at_shared_stable|]. split.
  - destruct HR as (_ & _ & (_ & _ & Hg) & _). auto.
  - intros Hmine Hq. eapply contents_grow; eauto.
Qed.

Lemma false_frame : frame R G (fun _ => False).
Proof. by split; [intros s s'|]. Qed.

Lemma shared_hydrate :
  rg R G may_load (fun r s => match r with Ok w => has_window w s | Throw _ => False end) (hydrateP self fk).
Proof.
  apply (rg_hydrate R G self fk c.2 may_load loading_ctr (fun _ => False) loadable_ctr awaits has_window);
    eauto using loading_ctr_frame, false_frame, loadable_ctr_stable, awaits_stable, has_window_stable.
  - intros s w (Hs & Hf & Hq) Hm. split; [done|]. split.
    + intros ->. by eapply sh_mem; [apply Hs|].
    + intros [Hns ->] Hso. destruct (Hq Hso) as [_ Hnone]. destruct Hnone as [Hnone _]; [done|]. congruence.
  - intros s i (Hs & Hf & Hq) Hm Hh. split; [done|]. intros [Hns ->] Hso. destruct (Hq Hso) as [_ Hnone].
    destruct Hnone as [_ Hnone]; [done|]. congruence.
  - intros s (Hs & Hf & Hq) Hm Hh.
    destruct (shared_same s (s.1 <| hydrating ::= <[fk := self]> |>, s.2)) as [HG Hs']; try done; [apply Hs|].
    split; [done|]. split; [done|]. split; [done|]. intros Hso. by apply Hq.
  - intros s [Hs _]. apply (at_shared_conf s Hs).
  - intros s [Hs _] Hdb. by destruct (sh_db _ _ (proj2 Hs)).
  - intros s [Hs _] Hr. destruct (sh_works _ _ (proj2 Hs)) as (_ & Hr' & _). congruence.
  - done.
  - intros s Hl. pose proof Hl as (Hs & _ & Hx). split; [done|]. destruct (at_shared_conf s Hs) as [En Ew].
    unfold stored_order. destruct (persisted_seen _) as [l|] eqn:E.
    + pose proof (stored_genuine _ _ _ _ _ _ (proj1 (proj1 Hs)) E) as Ho. rewrite En in Ho, E.
      split; [by apply genuine_order_lastn|]. split; [rewrite length_lastn; lia|]. intros [Hns ->].
      rewrite Hns in E, Ho. assert (stored_ctrs s.2 = l) as El by (unfold stored_ctrs; by rewrite E).
      rewrite El in Hx |- *. split; [intros x; apply subseteq_drop|]. intros Hso. rewrite lastn_all; [by apply Hx|].
      destruct Ho as [Hnd Ho].
      assert (length l <= length U)%nat by (apply submseteq_length, NoDup_submseteq; auto).
      destruct (sh_window _ _ (proj2 Hs)); [congruence|lia].
    + split; [apply genuine_order_nil|]. split; [simpl; lia|]. intros [Hns ->]. split; [set_solver|].
      intros Hso. specialize (Hx Hso). unfold stored_ctrs in Hx. rewrite En, Hns in E. by rewrite E in Hx.
  - intros s o ((Hs & Hf & Hx) & Ho & Hn & Hm).
    destruct (shared_install fk o s Hs Ho Hn Hf) as [HG Hs']; [intros Hmine; by apply Hm|].
    split; [done|]. split; [done|]. intros Hmine Hso. split; [done|]. cbn. pose proof Hmine as [_ ->].
    split; [apply lookup_insert_eq|]. unfold lookup_window. cbn. rewrite lookup_insert_eq. cbn. by apply Hm.
  - intros s i w [Hs Hm] Hw. split; [done|]. split; [intros ->; by eapply sh_hydrated; [apply Hs|]|].
    intros Hmine Hso. destruct (Hm Hmine Hso) as (-> & Hh & Hx). destruct Hmine as [_ ->].
    rewrite Hh in Hw. by injection Hw as <-.
Qed.

End Load.

(** ** Persisting *)

(** [due]: the call accepts the CTR, which is in its window. *)
Section Persist.
Context (fk : string) (w : nat) (due : Prop).

Definition linked (s : DS) : Prop := has_window fk (due) w s.
Definition held (s : DS) : Prop := has_window fk due w s /\ holds fk s.
Definition seen_ctrs (l : list string) (s : DS) : Prop :=
  held s /\ genuine_order jobs init c.1.2 fk l /\ (mine fk -> l = stored_ctrs s.2).
Definition merged_ctrs (l : list string) (s : DS) : Prop :=
  held s /\ puttable jobs init c fk l s /\ (mine fk -> (forall x, x ∈ stored_ctrs s.2 -> x ∈ l) /\ (due -> x0 ∈ l)).
Definition saved (s : DS) : Prop := at_shared s /\ (mine fk -> due -> x0 ∈ stored_ctrs s.2).
Definition saving (s : DS) : Prop := saved s /\ holds fk s.

Lemma holds_stable : stable R (holds fk).
Proof. intros s s' (_ & _ & _ & (Hl & _)) Hh E. by apply Hl, Hh. Qed.

(** While the lock is held, the store of the key stands still. *)
Lemma held_store s s' : R s s' -> holds fk s -> mine fk -> stored_ctrs s'.2 = stored_ctrs s.2.
Proof. intros (_ & _ & _ & (Hl & _)) Hh [_ E]. by apply Hl, Hh. Qed.

Lemma held_stable : stable R held.
Proof. apply stable_and; [apply has_window_stable|apply holds_stable]. Qed.

Lemma held_framed : frame R G held.
Proof.
  split; [apply held_stable|]. intros s s' Hq [(Hs & Hw & Hm) Hh].
  destruct (proj2 at_shared_frame _ _ Hq Hs) as [HG Hs']. split; [done|]. by destruct Hq.
Qed.

Lemma seen_ctrs_stable l : stable R (seen_ctrs l).
Proof.
  intros s s' HR (Hh & Ho & Hm). split; [by eapply held_stable|]. split; [done|]. intros Hmine.
  rewrite (held_store s s'); [by apply Hm|done|apply Hh|done].
Qed.

Lemma merged_ctrs_stable l : stable R (merged_ctrs l).
Proof.
  intros s s' HR (Hh & Hp & Hm). split; [by eapply held_stable|]. split.
  - destruct HR as [HR _]. by eapply puttable_stable.
  - intros Hmine. rewrite (held_store s s'); [by apply Hm|done|apply Hh|done].
Qed.

Lemma saved_stable : stable R saved.
Proof.
  intros s s' HR [Hs Hx]. split; [by eapply at_shared_stable|]. destruct HR as (_ & _ & (Hg & _) & _). auto.
Qed.

Lemma mine_fits s : at_shared s -> mine fk -> (length U <= Z.to_nat (tab_window s.1))%nat.
Proof.
  intros Hs [Hns _]. destruct (at_shared_conf s Hs) as [En _]. destruct (sh_window _ _ (proj2 Hs)); [congruence|lia].
Qed.

Lemma shared_merge l s :
  seen_ctrs l s ->
  G s (merged_in fk w (merged_order l fk w s.1) s) /\
  merged_ctrs (merged_order l fk w s.1) (merged_in fk w (merged_order l fk w s.1) s).
Proof.
  intros (((Hs & Hw & Hx) & Hh) & Hl & Hst). set (m := merged_order l fk w s.1).
  destruct (genuine_merge jobs init c s fk w l (proj1 Hs) Hl) as (_ & Ho & Hn). fold m in Ho, Hn.
  destruct (at_shared_conf s Hs) as [En Ew].
  assert (mine fk -> forall x, x ∈ l \/ x ∈ mem_set (lookup_window fk0 w s.1) -> x ∈ m) as Hkeep.
  { intros Hmine x. pose proof (mine_fits s Hs Hmine). destruct Hmine as [Hns ->].
    apply (merge_keeps jobs init U); [apply Hs|by rewrite En, Hns|done|by rewrite En]. }
  destruct (shared_put fk w m s Hs Ho Hn) as [HG Hs']; [auto..| |].
  { intros Hmine Hin. unfold m, merged_order in Hin. apply subseteq_drop in Hin.
    rewrite dedupKeepLast_elem, elem_of_app in Hin. rewrite (Hst Hmine) in Hin. destruct Hin as [Hin|Hin]; [by left|].
    right; left. destruct Hmine as [_ ->]. destruct Hs as [[[_ Hwin] _] _]. destruct (Hwin fk0 w) as (l' & Hm' & _).
    by rewrite Hm' in Hin |- *. }
  split; [done|]. assert (has_window fk due w (merged_in fk w m s)) as Hwin'.
  { split; [done|]. split; intros Hfk.
    - subst fk. cbn. rewrite lookup_insert_eq. eauto.
    - intros Hd. pose proof Hfk as [_ ->]. unfold lookup_window. cbn. rewrite lookup_insert_eq. cbn. apply Hkeep; auto. }
  split; [done|]. split; [by split; [apply Hs'|]|]. intros Hmine. split.
  - intros x Hin. apply Hkeep; [done|]. left. by rewrite (Hst Hmine).
  - intros Hd. apply Hkeep; auto.
Qed.

Lemma shared_persist :
  rg R G linked (fun r s => match r with Ok _ => saved s | Throw _ => False end) (persistMergedP self fk w).
Proof.
  apply (rg_persist R G self fk w linked held seen_ctrs merged_ctrs saving (fun _ => False) saved (fun _ => False));
    eauto using has_window_stable, held_framed, seen_ctrs_stable, merged_ctrs_stable, saved_stable, shared_merge, false_frame.
  - apply stable_and; [apply saved_stable|apply holds_stable].
  - by intros s s'.
  - by intros s s'.
  - intros s (Hs & _) Hd. destruct (sh_works _ _ (proj2 Hs)) as (_ & _ & _ & Hg). congruence.
  - intros s (Hs & Hw & Hx) Hfree. destruct (shared_acquire fk s Hs Hfree) as (HG & Hs' & Hh).
    split; [done|]. split; [|done]. by split.
  - intros s [(Hs & _) _] Hdb. by destruct (sh_db _ _ (proj2 Hs)).
  - intros s Hh. split; [done|]. destruct Hh as [(Hs & _) _]. destruct (at_shared_conf s Hs) as [En Ew]. split.
    + destruct (persisted_seen _) as [l|] eqn:E; [|apply genuine_order_nil]. rewrite <- En.
      by eapply stored_genuine; [apply Hs|].
    + intros [Hns ->]. unfold stored_ctrs. by rewrite En, Hns.
  - intros s [(Hs & _) _] Hr. destruct (sh_works _ _ (proj2 Hs)) as (_ & Hr' & _). congruence.
  - intros l s (((Hs & Hw & Hx) & Hh) & Hp & Hm).
    destruct (shared_write fk l s Hs Hp Hh) as [HG Hs']; [intros Hmine; by apply Hm|].
    split; [done|]. split; [|done]. split; [done|]. intros Hmine Hd. rewrite stored_written.
    destruct (at_shared_conf s Hs) as [En _]. destruct Hmine as [Hns ->] eqn:Em. rewrite decide_True by congruence.
    by apply Hm.
  - intros l s (((Hs & _) & _) & _) Hw. destruct (sh_works _ _ (proj2 Hs)) as (_ & _ & Hw' & _). congruence.
  - intros s [[Hs Hx] Hh]. destruct (shared_release fk s Hs Hh) as [HG Hs']. split; [done|]. by split.
  - by intros s [].
Qed.

End Persist.

(** ** The calls *)

(** Loading a window makes no link of the persist chain. *)
Definition no_link (s : DS) : Prop := tails s.1 !! self = None.

Lemma hydrate_tails fk : keepsP (same (fun s : DS => tails s.1)) (hydrateP self fk).
Proof.
  unfold hydrateP, loadP, await_hydrate, dbP, idbReadP, tget, oget, tmod, failD.
  pieces_auto; try (apply keepsP_piece); keeps_auto; apply keeps_modify; intros s; reflexivity.
Qed.

Lemma no_link_stable : stable R no_link.
Proof. intros s s' (_ & _ & _ & (_ & E & _)) Hs. unfold no_link. congruence. Qed.

(** No call changes the options of its guard. *)
Lemma conf_accept key ctr : keepsP (same conf) (acceptP self key ctr).
Proof.
  unfold acceptP, offP, storeKeyP, hydrateP, loadP, await_hydrate, persist_link, persistMergedP, with_lock, mergeP,
    warnPersistFailP, dbP, idbReadP, idbWriteP, tget, oget, tmod, omod, failD.
  pieces_auto; try (apply keepsP_piece); keeps_auto; apply keeps_modify; intros s; try reflexivity.
  unfold same, conf, releasePersistingP. cbn. by case_match.
Qed.

Lemma shared_hydrate_unlinked fk sought :
  rg R G (fun s => no_link s /\ may_load fk sought s)
    (fun r s => match r with Ok w => has_window fk sought w s /\ no_link s | Throw _ => False end) (hydrateP self fk).
Proof.
  eapply rg_post; [|apply (rg_and R R (same (fun s : DS => tails s.1)) G no_link (may_load fk sought) (fun _ => no_link));
    [done| |apply shared_hydrate]].
  - by intros [w|e] s [? ?].
  - apply rg_keeps; [|intros s s' Hs HR; by eapply no_link_stable|apply hydrate_tails].
    intros s s' Hs E. unfold no_link, same in *. congruence.
Qed.

Lemma shared_key key :
  forall p, (forall s, p s -> at_shared s) ->
  rg R G p (fun r s => match r with Ok fk => p s /\ fk = store_key c.1.2 key | Throw _ => False end) (storeKeyP key).
Proof.
  intros p Hp. rg_apply rg_tget. intros s Hs. split; [done|]. destruct (at_shared_conf s (Hp s Hs)) as [-> _]. done.
Qed.

Lemma shared_on p :
  (forall s, p s -> at_shared s) ->
  rg R G p (fun r s => match r with Ok off => p s /\ (c.1.2 = ns -> off = false) | Throw _ => False end) offP.
Proof.
  intros Hp. rg_apply rg_tget. intros s Hs. split; [done|]. intros Hns. destruct (Hp s Hs) as [Hc Hsh].
  destruct (at_shared_conf s (Hp s Hs)) as [En _]. rewrite (sh_available _ _ Hsh). cbn.
  destruct (sh_window _ _ Hsh); [congruence|]. apply Z.eqb_neq. lia.
Qed.

Definition accepted (key : string) (ctr : Z) (s : DS) : Prop :=
  tails s.1 !! self <> Some false /\
  (c.1.2 = ns -> key = key0 -> pretty ctr = x0 ->
     x0 ∈ stored_ctrs s.2 \/ exists w, x0 ∈ mem_set (lookup_window fk0 w s.1)).

Lemma shared_accept key ctr :
  jobs !! self = Some (mkJob t c.1.2 (CallAccept key ctr)) ->
  rg R G (fun s => no_link s /\ may_load (store_key c.1.2 key) False s)
    (fun r s => match r with Ok _ => accepted key ctr s | Throw _ => False end) (acceptP self key ctr).
Proof.
  intros Hj. unfold acceptP. set (due := pretty ctr = x0).
  rg_apply (rg_then _ _ _ (fun off s => (no_link s /\ may_load (store_key c.1.2 key) False s) /\ (c.1.2 = ns -> off = false))).
  { apply shared_on. by intros s [_ [? _]]. }
  intros off. apply rg_pure. intros Hoff. destruct off.
  { rg_apply rg_ret. intros s [Hl _]. split; [by rewrite Hl|]. intros Hns. by specialize (Hoff Hns). }
  rg_apply (rg_then _ _ _ (fun fk s => (no_link s /\ may_load (store_key c.1.2 key) False s) /\ fk = store_key c.1.2 key)).
  { apply shared_key. by intros s [_ [? _]]. }
  intros fk. apply rg_pure. intros Efk. rewrite <- Efk.
  rg_apply (rg_then _ _ _ (fun w s => has_window fk False w s /\ no_link s)); [apply shared_hydrate_unlinked|].
  intros w. set (x := pretty ctr) in *.
  assert (c.1.2 = ns -> key = key0 -> mine fk) as Hmine by (intros E ->; split; [done|by rewrite Efk, E]).
  rg_apply (rg_then _ _ _ (fun b s => (has_window fk False w s /\ no_link s) /\
    b = bool_decide (x ∈ mem_set (lookup_window fk w s.1)))); [by rg_apply rg_tget|].
  intros [|].
  { rg_apply rg_ret. intros s [[_ Hl] E]. symmetry in E. apply bool_decide_eq_true in E. split; [by rewrite Hl|].
    intros Hns Hkey Hd. right. exists w. destruct (Hmine Hns Hkey) as [_ ->]. by rewrite <- Hd. }
  rg_apply (rg_then _ _ _ (fun _ s => has_window fk False w s /\ x ∉ mem_set (lookup_window fk w s.1))).
  { rg_apply rg_tget. intros s [[Hs _] E]. split; [done|]. by apply (bool_decide_eq_false (x ∈ _)). }
  intros prev. rg_apply (rg_then _ _ _ (fun _ => linked fk w due)).
  { rg_apply rg_tmod. intros s [(Hs & Hw & _) Hnot].
    destruct (shared_record fk w x s Hs) as (HG & Hs' & Hin & _); [|done|done|..].
    - right. by exists self, t, key, ctr.
    - intros [Hns Efk'] Hx. exists ctr. rewrite Hj, Hns. split; [|done]. rewrite Efk, Hns in Efk'.
      by apply store_key_inj in Efk' as ->.
    - split; [done|]. split; [done|]. split.
      + intros ->. cbn. rewrite lookup_insert_eq. eauto.
      + intros Hmi Hd. unfold due in Hd. rewrite <- Hd. by apply Hin. }
  intros _. rg_apply (rg_then _ _ _ (fun _ s => saved fk due s /\ tails s.1 !! self = Some true)).
  - rg_apply (rg_link R G self fk w (linked fk w due) (saved fk due) (fun _ => False));
      eauto using has_window_stable, saved_stable, shared_persist, false_frame.
    intros s [[Hs Hx]|[]]. destruct (shared_link_done fk s Hs) as (HG & Hs' & Ht).
    + intros (ctr' & Hj' & Hx'). rewrite Hj in Hj'. injection Hj' as Ens -> ->. apply Hx; [|done]. apply Hmine; [done|done].
    + split; [done|]. split; [|done]. split; [done|]. intros Hmi Hd.
      assert (stored_ctrs (link_done self fk s).2 = stored_ctrs s.2) as -> by done. by apply Hx.
  - intros _. eapply rg_post; [|rg_apply rg_wait_stable; apply (stable_and _ (saved fk due) (fun s => tails s.1 !! self = Some true))].
    + intros [u|e] s; [|done]. intros [[_ Hx] Ht]. split; [by rewrite Ht|]. intros Hns Hkey Hd. left.
      apply Hx; [|done]. by apply Hmine.
    + apply saved_stable.
    + intros s s' (_ & _ & _ & (_ & E & _)) Ht. congruence.
Qed.

Lemma shared_accept_conf key ctr :
  jobs !! self = Some (mkJob t c.1.2 (CallAccept key ctr)) ->
  rg R G (fun s => at_shared s /\ no_link s /\ windows s.1 !! (fk0, self) = None)
    (fun r s => match r with Ok _ => conf s = c /\ accepted key ctr s | Throw _ => False end) (acceptP self key ctr).
Proof.
  intros Hj. pose proof (shared_accept key ctr Hj) as Hacc.
  assert (rg R (same conf) (fun s => conf s = c) (fun _ s => conf s = c) (acceptP self key ctr)) as Hconf.
  { apply rg_keeps; [|by intros s s' Hs [[_ ->] _]|apply conf_accept]. intros s s' Hs E. unfold same in E. congruence. }
  pose proof (rg_and _ _ _ _ _ _ _ _ _ (fun s s' H => H) Hconf Hacc) as Hboth.
  eapply rg_weaken; [| |exact Hboth].
  - intros s (Hs & Hl & Hw). split; [apply Hs|]. split; [done|]. by split.
  - by intros [u|e] s [? ?].
Qed.

Lemma shared_check key ctr sought :
  rg R G (may_load (store_key c.1.2 key) sought)
    (fun r s => match r with
                | Ok b => sought -> c.1.2 = ns -> key = key0 -> pretty ctr = x0 -> b = false
                | Throw _ => False
                end) (checkP self key ctr).
Proof.
  unfold checkP.
  rg_apply (rg_then _ _ _ (fun off s => may_load (store_key c.1.2 key) sought s /\ (c.1.2 = ns -> off = false))).
  { apply shared_on. by intros s [? _]. }
  intros off. apply rg_pure. intros Hoff. destruct off.
  { rg_apply rg_ret. intros s _ _ Hns. by specialize (Hoff Hns). }
  rg_apply (rg_then _ _ _ (fun fk s => may_load (store_key c.1.2 key) sought s /\ fk = store_key c.1.2 key)).
  { apply shared_key. by intros s [? _]. }
  intros fk. apply rg_pure. intros Efk. rewrite <- Efk.
  rg_apply (rg_then _ _ _ (has_window fk sought)); [apply shared_hydrate|]. intros w.
  rg_apply rg_tget. intros s (_ & _ & Hx) Hso Hns -> Hd. rewrite Hns in Efk.
  specialize (Hx (conj Hns Efk) Hso). rewrite Efk, Hd. by rewrite bool_decide_eq_true_2.
Qed.

Lemma shared_clear key :
  (c.1.2 = ns -> key <> key0) -> rg R G at_shared (fun r _ => is_ok r = true) (clearP key).
Proof.
  intros Hne. unfold clearP.
  rg_apply (rg_then _ _ _ (fun off s => at_shared s /\ (c.1.2 = ns -> off = false))); [by apply shared_on|].
  intros off. apply rg_pure. intros _. destruct off; [by rg_apply rg_ret|].
  rg_apply (rg_then _ _ _ (fun fk s => at_shared s /\ fk = store_key c.1.2 key)); [by apply shared_key|].
  intros fk. apply rg_pure. intros Efk.
  assert (~ mine fk) as Hmine.
  { intros [Hns E]. rewrite Efk, Hns in E. apply store_key_inj in E. by apply Hne. }
  rg_apply (rg_then _ _ _ (fun _ => at_shared)).
  - rg_apply (rg_catch _ _ _ _ (fun _ => at_shared)); [|intros e; by rg_apply rg_ret].
    rg_apply (rg_bind _ _ _ (fun _ => at_shared)).
    + eapply rg_post; [|rg_apply (rg_db R G at_shared at_shared); eauto using at_shared_stable, at_shared_frame].
      by intros [[]|e] s.
    + intros _. eapply rg_post; [|rg_apply (rg_erase R G at_shared); [apply at_shared_stable|]]; [by intros [[]|e] s|].
      intros s Hs. by apply shared_erase.
  - intros _. rg_apply rg_piece. intros s Hs. split; [|done].
    eapply (shared_same s); [done|done|apply Hs| |done]. intros w. cbn.
    destruct (decide (fk = fk0)) as [->|Hne']; [by rewrite jm_lookup_delete_eq|by rewrite jm_lookup_delete_ne].
Qed.

End Calls.
(** ** The discipline *)

Hypothesis (Hclear : forall n t, jobs !! n <> Some (mkJob t ns (CallClear key0))).

(** Requests succeed, and all the CTRs of the key fit in every window of the namespace. *)
Definition shared_event (ev : BrowserEvent) : Prop :=
  match ev with
  | OpenTab t ns' w _ => ns' = ns -> Z.of_nat (length U) <= resolveWindow w /\ 0 < resolveWindow w
  | Faults o r w d l => o = true /\ r = true /\ w = true /\ l = true
  | _ => True
  end.

(** [kept]: CTRs that are stored for good. *)
Definition shared_org (kept : list string) (o : Origin) : Prop :=
  genuine_store jobs init o /\ capable o = (true, true) /\ works o /\ forall x, x ∈ kept -> x ∈ stored_ctrs o.

Definition shared_inv (kept : list string) (t : nat) (s : DS) : Prop :=
  genuine jobs init s /\ shared t s /\ forall x, x ∈ kept -> x ∈ stored_ctrs s.2.

Definition shared_unused (n : nat) (tab : Tab) : Prop := windows tab !! (fk0, n) = None /\ tails tab !! n = None.

Definition shared_pre (n : nat) (s : DS) : Prop :=
  n = later -> x0 ∈ stored_ctrs s.2 /\ tab_mem s.1 !! fk0 = None /\ hydrating s.1 !! fk0 = None.

Definition shared_post (n : nat) (r : res (option bool)) (s : DS) : Prop :=
  match jobs !! n with
  | Some (mkJob t ns' (CallAccept key ctr)) =>
      tails s.1 !! n <> Some false /\
      (ns' = ns -> key = key0 -> pretty ctr = x0 ->
         x0 ∈ stored_ctrs s.2 \/ (tab_namespace s.1 = ns /\ exists w, x0 ∈ mem_set (lookup_window fk0 w s.1)))
  | Some (mkJob t ns' (CallCheck key ctr)) =>
      n = later -> ns' = ns -> key = key0 -> pretty ctr = x0 -> r = Ok (Some false)
  | _ => True
  end.

Lemma shared_call n j t c :
  jobs !! n = Some j -> job_tab j = t -> job_ns j = c.1.2 ->
  rg (shared_rely n) (shared_guar n)
    (fun s => at_shared t c s /\ shared_unused n s.1 /\ shared_pre n s) (shared_post n) (callP n (job_call j)).
Proof.
  intros Hj Ht Hns. assert (tab_of jobs n = Some t) as Hself by (unfold tab_of; rewrite Hj; cbn; by rewrite Ht).
  unfold shared_post. rewrite Hj. destruct j as [t' ns' [key ctr|key ctr|key]]; cbn [job_tab job_ns job_call callP] in *; subst t' ns'.
  - rg_apply (rg_then _ _ _ (fun b _ => n = later -> c.1.2 = ns -> key = key0 -> pretty ctr = x0 -> b = false)).
    + eapply rg_weaken; [|intros r s HQ; exact HQ|by apply (shared_check n t Hself c key ctr (n = later))].
      intros s (Hs & [Hw _] & Hpre). split; [done|]. split; [done|]. intros Hn. destruct (Hpre Hn) as (? & ? & ?). done.
    + intros b. rg_apply rg_ret. intros s Hb Hn E Hkey Hx. by rewrite Hb.
  - rg_apply (rg_then _ _ _ (fun _ s => tab_namespace s.1 = c.1.2 /\ accepted n c key ctr s)).
    + eapply rg_weaken; [|intros r s HQ; exact HQ|].
      2: { eapply rg_post; [|by apply (shared_accept_conf n t Hself c key ctr)]. intros [u|e] s; [|done].
           intros [E Hacc]. split; [by rewrite <- E|done]. }
      intros s (Hs & [Hw Htl] & _). by split_and!.
    + intros _. rg_apply rg_ret. intros s (Ens & Htl & Hacc). split; [done|]. intros E Hkey Hx.
      destruct (Hacc E Hkey Hx); [by left|]. right. split; [congruence|done].
  - rg_apply (rg_bind _ _ _ (fun _ _ => True) (fun _ _ => True)); [|intros _; by rg_apply rg_ret].
    eapply rg_weaken; [intros s Hs; exact (proj1 Hs)| |apply (shared_clear n t Hself c key)]; [by intros [|]|].
    intros E ->. apply (Hclear n t). by rewrite Hj, E.
Qed.

Lemma shared_post_stable n r s s' : shared_rely n s s' -> shared_post n r s -> shared_post n r s'.
Proof.
  intros ([_ E] & _ & (Hg & Hc & _) & (_ & Et & _)). unfold shared_post.
  destruct (jobs !! n) as [[t ns' [key ctr|key ctr|key]]|]; try done. injection E as Ea En Ew. rewrite Et, En.
  intros [Ht Hx]. split; [done|]. intros Hns Hkey Hc0. destruct (Hx Hns Hkey Hc0) as [?|[Hns' (w & Hw)]]; [left; auto|].
  right. split; [done|]. exists w. by apply Hc.
Qed.

(** What an origin must keep for the tabs that look at it. *)
Lemma shared_origin t tab o o' :
  works o' -> (forall x, x ∈ stored_ctrs o -> x ∈ stored_ctrs o') -> shared t (tab, o) -> shared t (tab, o').
Proof.
  intros Hw Hg [H1 H2 H3 H4 H5 H6 H7]. split; try done. intros w Hns Hx.
  destruct (H7 w Hns Hx); [left; by apply Hg|by right].
Qed.

Lemma shared_inv_origin kept t tab o o' :
  genuine_store jobs init o' -> works o' -> (forall x, x ∈ stored_ctrs o -> x ∈ stored_ctrs o') ->
  shared_inv kept t (tab, o) -> shared_inv kept t (tab, o').
Proof.
  intros Ho Hw Hg (Hgen & Hs & Hst). split; [split; [done|apply Hgen]|]. split; [by eapply shared_origin|].
  intros x Hx. by apply Hg, Hst.
Qed.

Lemma shared_rely_origin kept n t tab o o' :
  tab_of jobs n = Some t -> shared_inv kept t (tab, o') -> (forall x, x ∈ stored_ctrs o -> x ∈ stored_ctrs o') ->
  (locks o !! lock0 = Some n -> locks o' !! lock0 = Some n /\ stored_ctrs o' = stored_ctrs o) ->
  shared_rely n (tab, o) (tab, o').
Proof.
  intros Hn (Hgen & Hs & _) Hg Hl. split; [by split|]. split.
  { intros t' Ht'. rewrite Hn in Ht'. by injection Ht' as <-. }
  by split_and!.
Qed.

Lemma shared_fresh kept o ns' w require tab t :
  shared_org kept o -> newTab (idb o) ns' w require = Ok tab -> (ns' = ns -> Z.of_nat (length U) <= resolveWindow w /\ 0 < resolveWindow w) ->
  shared_inv kept t (tab, o).
Proof.
  intros (Ho & Hcap & Hw & Hst) Ht HU'. split; [by eapply genuine_fresh|]. split; [|done].
  unfold newTab, newGuard, capable in *. injection Hcap as Ei El. rewrite Ei, El in Ht. case_bool_decide; [done|].
  cbn in Ht. injection Ht as <-. split; try done; cbn.
  intros w' _. unfold lookup_window. cbn. rewrite lookup_empty. cbn. set_solver.
Qed.

#[export] Instance shared_discipline kept :
  Discipline jobs shared_event (shared_org kept) (shared_inv kept) shared_rely shared_guar shared_unused shared_pre shared_post.
Proof.
  split.
  - apply _.
  - apply shared_rely_trans.
  - intros n t [tab o] Hn Hs. by apply (shared_rely_origin kept n t).
  - intros n t s s' Hn [(HG & _ & Hcap) HS] (Hg & Hs & _) (_ & Hc & _ & Hst).
    destruct (HS t Hn Hg Hs) as (Hs' & [(Hgr & _) _]). split; [apply HG, Hg|]. split; [congruence|].
    split; [apply Hs'|]. auto.
  - intros t o o' [E _]. unfold shared_org, genuine_store, capable, works, stored_ctrs. by rewrite E.
  - intros o1 r w d l o o' (-> & -> & -> & ->) (_ & E & Ei & El & Eo & Er & Ew & _ & Egr).
    unfold shared_org, genuine_store, capable, works, stored_ctrs. rewrite E, Ei, El, Eo, Er, Ew, Egr.
    intros (? & ? & _ & ?). done.
  - intros t ns' w require tab o Hev Ho Ht. by eapply shared_fresh.
  - intros n e ns' w require tab Ht. unfold newTab in Ht. destruct (newGuard _ _ _ _); [|done].
    by injection Ht as <-.
  - intros n m t s s' Hm Hne [_ HS] (Hg & Hs & _) [Hw Ht]. destruct (HS t Hm Hg Hs) as (_ & [_ Hl]).
    destruct (Hl n Hne) as (_ & E & _ & Hw'). split; [by apply Hw'|congruence].
  - intros n t s s' Hn [(HG & _) HS] (Hg & Hs & Hst). destruct (HS t Hn Hg Hs) as (Hs' & [(Hgr & _) _]).
    split; [by apply HG|]. split; [done|]. auto.
  - intros n t t' s s' tab Hn Hne [(HG & _) HS] (Hg & Hs & _) Hinv. destruct (HS t Hn Hg Hs) as (Hs' & [(Hgr & _) _]).
    apply (shared_inv_origin kept t' tab s.2); [apply HG, Hg|apply Hs'|done|done].
  - intros n m t s s' Hn Hm Hne [(HG & E & _) HS] (Hg & Hs & _). destruct (HS t Hn Hg Hs) as (Hs' & [Hgr Hl]).
    split; [split; [by apply HG|done]|]. split; [|split; [done|by apply Hl]].
    intros t' Ht'. rewrite Hm in Ht'. by injection Ht' as <-.
  - intros n m t t' s s' tab Hn Hm Hne [(HG & _) HS] (Hg & Hs & _) Hinv. destruct (HS t Hn Hg Hs) as (Hs' & [(Hgr & _) Hl]).
    apply (shared_rely_origin kept m t'); [done| |done|].
    + apply (shared_inv_origin kept t' tab s.2); [apply HG, Hg|apply Hs'|done|done].
    + apply Hl. intros ->. congruence.
  - intros t t' tab o o' _ [E _] Hinv. eapply shared_inv_origin; [..|exact Hinv];
      unfold genuine_store, works, stored_ctrs; rewrite E; [apply Hinv|apply Hinv|done].
  - intros t t' m tab o o' Hne Hm [E Hl] Hinv. apply (shared_rely_origin kept m t'); [done| |unfold stored_ctrs; by rewrite E|].
    + eapply shared_inv_origin; [..|exact Hinv];
        unfold genuine_store, works, stored_ctrs; rewrite E; [apply Hinv|apply Hinv|done].
    + intros Hlock. split; [|unfold stored_ctrs; by rewrite E]. apply Hl; [congruence|done].
  - intros o1 r w d l t tab o o' (-> & -> & -> & ->) (_ & E & _ & _ & Eo & Er & Ew & _ & Egr) Hinv.
    eapply shared_inv_origin; [..|exact Hinv]; unfold genuine_store, works, stored_ctrs; rewrite ?E, ?Eo, ?Er, ?Ew, ?Egr;
      [apply Hinv|done|done].
  - intros o1 r w d l m t tab o o' (-> & -> & -> & ->) Hm (El & E & _ & _ & Eo & Er & Ew & _ & Egr) Hinv.
    apply (shared_rely_origin kept m t); [done| |unfold stored_ctrs; by rewrite E|unfold stored_ctrs; by rewrite E, El].
    eapply shared_inv_origin; [..|exact Hinv]; unfold genuine_store, works, stored_ctrs; rewrite ?E, ?Eo, ?Er, ?Ew, ?Egr;
      [apply Hinv|done|done].
  - intros n r s s'. apply shared_post_stable.
  - intros n j Hj s (Hns & (Hg & Hs & _) & Hun & Hpre).
    apply (shared_call n j (job_tab j) (conf s) Hj eq_refl); [done|]. split; [by split|]. by split.
Qed.

#[local] Notation ok kept := (in_order jobs (org := shared_org kept) (inv := shared_inv kept) (unused := shared_unused)
  (rely := shared_rely) (guar := shared_guar) (post := shared_post)).

(** Once every [accept] of the CTR in a tab has settled, and there was one, the CTR is stored. *)
Lemma accepted_stored b m t r ns' ctr :
  ok [] b -> journal b !! m = Some (mkJob t ns' (CallAccept key0 ctr)) -> ns' = ns -> pretty ctr = x0 ->
  flights b !! m = Some (mkFlight t (Finished r)) ->
  (forall i, journal b !! i = Some (mkJob t ns (CallAccept key0 ctr)) -> exists r, flights b !! i = Some (mkFlight t (Finished r))) ->
  x0 ∈ stored_ctrs (origin b).
Proof.
  intros Hb Hm -> Hx Hr Hall. destruct (io_flights _ _ Hb _ _ Hr) as (tab & _ & Ht & _ & Hpost). cbn [fl_tab fl_run rest_rg] in *.
  pose proof (prefix_lookup_Some _ _ _ _ Hm (io_jobs _ _ Hb)) as Hmj. unfold shared_post in Hpost. rewrite Hmj in Hpost.
  destruct Hpost as [_ Hpost]. destruct (Hpost eq_refl eq_refl Hx) as [?|[Hns (w & Hw)]]; [done|].
  destruct (io_inv _ _ Hb _ _ Ht) as (_ & Hs & _). destruct (sh_pending _ _ Hs w Hns Hw) as [?|(n & Hn & ctr' & Hj & Hx')]; [done|].
  assert (ctr' = ctr) as -> by (apply (inj pretty); congruence).
  destruct (decide (n < length (journal b))%nat) as [Hl|Hl].
  - apply lookup_lt_is_Some in Hl as [j Hj']. pose proof (prefix_lookup_Some _ _ _ _ Hj' (io_jobs _ _ Hb)) as Hj2.
    rewrite Hj in Hj2. injection Hj2 as <-. destruct (Hall n Hj') as [rn Hrn].
    destruct (io_flights _ _ Hb _ _ Hrn) as (tab' & _ & Ht' & _ & Hpost'). cbn [fl_tab fl_run rest_rg] in *.
    unfold shared_post in Hpost'. rewrite Hj in Hpost'. destruct Hpost' as [Hnot _].
    rewrite Ht in Ht'. by injection Ht' as <-.
  - destruct (io_unused _ _ Hb t tab n Ht) as [_ Hnone]; [lia|]. cbn in Hn. congruence.
Qed.

Lemma ok_kept b : ok [] b -> x0 ∈ stored_ctrs (origin b) -> ok [x0] b.
Proof.
  intros [Hj Ho Hi Hu Hf] Hx. assert (forall x, x ∈ [x0] -> x ∈ stored_ctrs (origin b)) as Hk by set_solver.
  split; [done| | |done|done].
  - destruct Ho as (? & ? & ? & _). done.
  - intros t tab Ht. destruct (Hi t tab Ht) as (? & ? & _). done.
Qed.

Lemma shared_run e evs1 evs2 evs3 m t t' ctr r v tab
    (b1 := run_browser (idle_browser e) evs1) (b2 := run_browser b1 evs2)
    (b2' := browser_step b2 (Begin t' (CallCheck key0 ctr))) (b3 := run_browser b2' evs3) :
  shared_org [] (mkOrigin e ∅) -> (forall ev, ev ∈ evs1 ++ evs2 ++ evs3 -> shared_event ev) -> later = length (journal b2) ->
  journal b3 = jobs -> pretty ctr = x0 -> journal b1 !! m = Some (mkJob t ns (CallAccept key0 ctr)) ->
  flights b1 !! m = Some (mkFlight t (Finished r)) ->
  (forall i, journal b1 !! i = Some (mkJob t ns (CallAccept key0 ctr)) -> exists r, flights b1 !! i = Some (mkFlight t (Finished r))) ->
  open_tabs b2 !! t' = Some tab -> tab_namespace tab = ns -> tab_mem tab !! fk0 = None -> hydrating tab !! fk0 = None ->
  flights b3 !! later = Some (mkFlight t' (Finished v)) -> v = Ok (Some false).
Proof.
  intros Horg Hev El Ej Hx Hm Hr Hall Ht Hns Hmem Hhyd Hv.
  assert (journal b2' `prefix_of` jobs) as Hpre2' by (rewrite <- Ej; apply journal_run).
  assert (journal b2 `prefix_of` jobs) as Hpre2 by (etransitivity; [apply journal_step|exact Hpre2']).
  assert (journal b1 `prefix_of` jobs) as Hpre1 by (etransitivity; [apply journal_run|exact Hpre2]).
  assert (journal b2' = journal b2 ++ [mkJob t' ns (CallCheck key0 ctr)]) as Ej2.
  { unfold b2'. cbn [browser_step]. rewrite Ht. cbn. by rewrite Hns. }
  pose proof (prefix_length _ _ (journal_run b1 evs2)) as Hlen. fold b2 in Hlen.
  assert (ok [] b1) as Hb1.
  { apply (discipline_run jobs (allowed := shared_event) (pre := shared_pre)); [by apply in_order_idle| |..|done].
    - intros ev Hin. apply Hev. set_solver.
    - intros i s _ Hi E. fold b1 in Hi. lia. }
  assert (x0 ∈ stored_ctrs (origin b1)) as Hst by (by eapply accepted_stored).
  assert (ok [x0] b2) as Hb2.
  { apply (discipline_run jobs (allowed := shared_event) (pre := shared_pre)); [by apply ok_kept| |..|done].
    - intros ev Hin. apply Hev. set_solver.
    - intros i s _ Hi E. fold b2 in Hi. lia. }
  assert (ok [x0] b2') as Hb2'.
  { apply (in_order_step jobs (allowed := shared_event) (pre := shared_pre)); [done| |done]. split; [done|].
    intros tab' Ht' _. rewrite Ht in Ht'. injection Ht' as <-. split; [|done].
    destruct (io_origin _ _ Hb2) as (_ & _ & _ & Hk). apply Hk. set_solver. }
  assert (ok [x0] b3) as Hb3.
  { apply (discipline_run jobs (allowed := shared_event) (pre := shared_pre)); [done| | |by rewrite <- Ej].
    - intros ev Hin. apply Hev. set_solver.
    - intros i s Hi _ E. rewrite Ej2, length_app in Hi. cbn in Hi. lia. }
  destruct (io_flights _ _ Hb3 _ _ Hv) as (tab3 & _ & _ & _ & Hpost). cbn [fl_run rest_rg] in Hpost.
  assert (jobs !! later = Some (mkJob t' ns (CallCheck key0 ctr))) as Hl.
  { eapply prefix_lookup_Some; [|exact Hpre2']. by rewrite Ej2, lookup_app_r, El, Nat.sub_diag by lia. }
  unfold shared_post in Hpost. rewrite Hl in Hpost. by apply Hpost.
Qed.

End Shared.

(** ** The property *)

(** C17. What one tab accepted, every tab that loads the key later refuses: while the storage works, once
    all the calls of [accept] of a CTR that a tab has made have settled (a second one that overlaps the
    first settles before the CTR is stored, [second_accept_settles_early]), a [check] of it in any tab of
    the namespace that has no window of the key yet - a tab opened later, or the same one after a
    reload - resolves to [false] if it settles, whatever calls and persists of other tabs overlap and
    whichever tabs close meanwhile. Two more conditions: nobody clears the key, and the CTRs of the
    key fit in the windows. *)
Theorem accepted_ctr_is_shared (e : Idb) (evs1 evs2 evs3 : list BrowserEvent) (m t t' : nat) (ns key : string) (ctr : Z)
    (r v : res (option bool)) (tab : Tab)
    (b1 := run_browser (idle_browser e) evs1) (b2 := run_browser b1 evs2)
    (b3 := run_browser b2 (Begin t' (CallCheck key ctr) :: evs3))
    (He : idb_wf e) (Hworks : working e = true)
    (Hfaults : forall o r w d l, Faults o r w d l ∈ evs1 ++ evs2 ++ evs3 -> o = true /\ r = true /\ w = true /\ l = true)
    (Hopen : forall i w q, OpenTab i ns w q ∈ evs1 ++ evs2 ++ evs3 ->
       Z.of_nat (length (key_ctrs (store e) (journal b3) ns key)) <= resolveWindow w)
    (Hclear : forall i i', journal b3 !! i <> Some (mkJob i' ns (CallClear key)))
    (Haccept : journal b1 !! m = Some (mkJob t ns (CallAccept key ctr)))
    (Hsettled : flights b1 !! m = Some (mkFlight t (Finished r)))
    (Hall : forall i, journal b1 !! i = Some (mkJob t ns (CallAccept key ctr)) ->
       exists r, flights b1 !! i = Some (mkFlight t (Finished r)))
    (Htab : open_tabs b2 !! t' = Some tab) (Hns : tab_namespace tab = ns)
    (Hmem : tab_mem tab !! store_key ns key = None) (Hhyd : hydrating tab !! store_key ns key = None)
    (Hcheck : flights b3 !! length (journal b2) = Some (mkFlight t' (Finished v))) :
  v = Ok (Some false).
Proof.
  set (U := key_ctrs (store e) (journal b3) ns key) in *.
  assert (0 < Z.of_nat (length U)) as HU0.
  { assert (pretty ctr ∈ U) as [i Hi%lookup_lt_Some]%list_elem_of_lookup_1; [|lia].
    apply key_ctrs_known. right. exists m, t, key, ctr. split; [|done]. eapply prefix_lookup_Some; [exact Haccept|].
    etransitivity; [apply (journal_run b1 evs2)|apply (journal_run b2 (Begin t' (CallCheck key ctr) :: evs3))]. }
  unfold working in Hworks. rewrite !andb_true_iff in Hworks. destruct Hworks as [[[[[Hi Hl] Ho] Hr] Hw] Hg].
  apply (shared_run (journal b3) (store e) ns key (pretty ctr) U (length (journal b2)))
    with (e := e) (evs1 := evs1) (evs2 := evs2) (evs3 := evs3) (m := m) (t := t) (t' := t') (ctr := ctr) (r := r) (tab := tab);
    try done.
  - apply key_ctrs_known.
  - split; [|split; [unfold capable; cbn; by rewrite Hi, Hl|]; split; [done|by intros x ?%not_elem_of_nil]].
    intros ns' fk l Hl'. split; [by eapply He|]. intros x Hx. left. by exists l.
  - intros [i ns' w q| | | |] Hin; try done.
    + intros ->. specialize (Hopen _ _ _ Hin). fold U in Hopen. split; [done|lia].
    + by apply Hfaults in Hin.
Qed.

(** Two tabs accept at once, wait for the lock in turn, close; a third one checks. *)
Definition shared_events1 : list BrowserEvent :=
  [OpenTab 0 "app" (Some (JsInt 4)) false; OpenTab 1 "app" (Some (JsInt 4)) false;
   Begin 0 (CallAccept "k" 5); Begin 1 (CallAccept "k" 6); Resume 0; Resume 1; Resume 0; Resume 1; Resume 0; Resume 1] ++
  finish_call 0 ++ finish_call 1.
Definition shared_events2 : list BrowserEvent := [CloseTab 0; OpenTab 2 "app" (Some (JsInt 4)) false].

Ltac in_events H :=
  repeat (apply elem_of_app in H as [H|H]); try (by apply elem_of_replicate in H as [? ?]);
  repeat (apply elem_of_cons in H as [H|H]; [try discriminate|]); try (by apply not_elem_of_nil in H).

#[local] Notation shared_demo2 := (run_browser (run_browser (idle_browser quiet_origin) shared_events1) shared_events2).
#[local] Notation shared_demo3 := (run_browser shared_demo2 (Begin 2 (CallCheck "k" 5) :: finish_call 2)).

Lemma accepted_ctr_is_shared_witness : flights shared_demo3 !! 2%nat = Some (mkFlight 2 (Finished (Ok (Some false)))).
Proof.
  assert (length (journal shared_demo2) = 2%nat) as Hn by (vm_compute; reflexivity).
  assert (exists v, flights shared_demo3 !! 2%nat = Some (mkFlight 2 (Finished v))) as [v Hv2]
    by (eexists; vm_compute; reflexivity).
  assert (flights shared_demo3 !! length (journal shared_demo2) = Some (mkFlight 2 (Finished v))) as Hv
    by (rewrite Hn; exact Hv2).
  rewrite Hv2. do 3 f_equal. clear Hv2 Hn.
  apply (accepted_ctr_is_shared quiet_origin shared_events1 shared_events2 (finish_call 2) 0 0 2 "app" "k" 5 (Ok None)
    v (mkTab true "app" 4 ∅ ∅ ∅ ∅ ∅ None ∅ None false false) quiet_origin_wf); [..|exact Hv]; clear Hv; try reflexivity.
  - intros o r w d l Hin. unfold shared_events1, shared_events2, finish_call in Hin. in_events Hin.
  - intros i w q Hin. assert (w = Some (JsInt 4)) as ->.
    { unfold shared_events1, shared_events2, finish_call in Hin. in_events Hin; by injection Hin as _ -> _. }
    vm_compute. discriminate.
  - intros i i'. destruct i as [|[|[|i]]]; vm_compute; discriminate.
  - intros [|[|i]] Hi; vm_compute in Hi; try discriminate. eexists. vm_compute. reflexivity.
Defined.

(** ** What tabs do to each other *)

(** The same CTR is accepted twice in a tab: the second call finds it in the window and settles while
    the first one has yet to store it. A tab that is opened then takes the CTR for new. *)
Definition twice_events : list BrowserEvent :=
  [OpenTab 0 "app" (Some (JsInt 4)) false; Begin 0 (CallAccept "k" 5); Begin 0 (CallAccept "k" 5);
   Resume 0; Resume 0; Resume 0; Resume 0; Resume 1; Resume 1] ++
  [OpenTab 1 "app" (Some (JsInt 4)) false; Begin 1 (CallCheck "k" 5)] ++ finish_call 2.

Theorem second_accept_settles_early :
  let b := run_browser (idle_browser quiet_origin) twice_events in
  flights b !! 1%nat = Some (mkFlight 0 (Finished (Ok None))) /\
  store (idb (origin b)) !! ("app", store_key "app" "k") = None /\
  flights b !! 2%nat = Some (mkFlight 1 (Finished (Ok (Some true)))).
Proof. vm_compute. done. Qed.

(** A tab whose own window is older merges the CTRs of the others as if they were older than its own:
    with windows of three, a tab accepts 1 and 2, another one accepts 3, the first one accepts 4. The
    CTRs accepted last are 2, 3 and 4, but 1, 2 and 4 are stored, and a tab opened later takes 3 for
    new. And a tab that has the key in its cache does not learn what the others accept: the second one
    still takes 4 for new. *)
Definition two_tabs_events : list BrowserEvent :=
  [OpenTab 0 "app" (Some (JsInt 3)) false; Begin 0 (CallAccept "k" 1)] ++ finish_call 0 ++
  [Begin 0 (CallAccept "k" 2)] ++ finish_call 1 ++
  [OpenTab 1 "app" (Some (JsInt 3)) false; Begin 1 (CallAccept "k" 3)] ++ finish_call 2 ++
  [Begin 0 (CallAccept "k" 4)] ++ finish_call 3 ++
  [OpenTab 2 "app" (Some (JsInt 3)) false; Begin 2 (CallCheck "k" 3)] ++ finish_call 4 ++
  [Begin 1 (CallCheck "k" 4)] ++ finish_call 5.

(** No two calls overlap here, and every request succeeds: a window over several tabs is not the
    window of the last accepted CTRs. *)
Theorem tabs_lose_recent_ctrs :
  let b := run_browser (idle_browser quiet_origin) two_tabs_events in
  store (idb (origin b)) !! ("app", store_key "app" "k") = Some (mkPersisted 1 (Some ["1"; "2"; "4"])) /\
  flights b !! 4%nat = Some (mkFlight 2 (Finished (Ok (Some true)))) /\
  flights b !! 5%nat = Some (mkFlight 1 (Finished (Ok (Some true)))).
Proof. vm_compute. done. Qed.

(** A persist in flight brings a cleared window back: [clear] drops the entries of the key but not the
    window object that the persist holds, which is written to the store after the deletion. *)
Definition overtaken_events : list BrowserEvent :=
  [OpenTab 0 "app" (Some (JsInt 3)) false; Begin 0 (CallAccept "k" 1)] ++ replicate 8 (Resume 0) ++
  [Begin 0 (CallClear "k")] ++ finish_call 1 ++ finish_call 0 ++ [Begin 0 (CallCheck "k" 1)] ++ finish_call 2.

Theorem clear_overtaken_by_persist :
  let b := run_browser (idle_browser quiet_origin) overtaken_events in
  flights b !! 0%nat = Some (mkFlight 0 (Finished (Ok None))) /\
  flights b !! 1%nat = Some (mkFlight 0 (Finished (Ok None))) /\
  store (idb (origin b)) !! ("app", store_key "app" "k") = Some (mkPersisted 1 (Some ["1"])) /\
  flights b !! 2%nat = Some (mkFlight 0 (Finished (Ok (Some false)))).
Proof. vm_compute. done. Qed.
