(* ===== verification/DurableAlone.v ===== *)
(** * DurableAlone: calls that do not overlap are the operations of [Durable] (src/chat/durable-replay.ts)

    In a tab where nothing is in flight and no lock is held, a call goes on whenever it is resumed,
    ends, and has done what the operation of [Durable] does in one step. *)
From S2P Require Import Prelude StateLogic Async Errors Internal Replay Durable DurableAsync.
#[local] Open Scope Z_scope.

(** ** Runs in which nobody else moves *)

(** The end of a computation whose waits are all ready when it comes to them. *)
Fixpoint solo_run {S E A} (x : Run S E A) (s : S) : option (result E A * S) :=
  match x with
  | Finished r => Some (r, s)
  | Waiting ready c => if ready s then solo_run (c s).1 (c s).2 else None
  end.

Definition solo {S E A} (m : P S E A) (s : S) : option (result E A * S) := solo_run (m s).1 (m s).2.

Section Solo.
Context {S E : Type}.

Lemma solo_piece {A} (m : M S E A) s : solo (piece m) s = Some (m s).
Proof. unfold solo, piece. by destruct (m s). Qed.

Lemma solo_ret {A} (a : A) (s : S) : solo (mret a : P S E A) s = Some (Ok a, s).
Proof. done. Qed.

Lemma solo_pause s : solo (pause : P S E unit) s = Some (Ok tt, s).
Proof. done. Qed.

Lemma solo_wait {A} ready (m : M S E A) s : ready s = true -> solo (wait_for ready m) s = Some (m s).
Proof. intros Hr. unfold solo. cbn. rewrite Hr. unfold piece. by destruct (m s). Qed.

Lemma solo_run_bind {A B} (x : Run S E A) (k : A -> P S E B) s :
  solo_run (run_bind x k s).1 (run_bind x k s).2 =
  match solo_run x s with
  | Some (Ok a, s') => solo (k a) s'
  | Some (Throw e, s') => Some (Throw e, s')
  | None => None
  end.
Proof.
  revert s. induction x as [[a|e]|ready c IH] using run_ind; intros s; [done|done|]. cbn [run_bind solo_run fst snd].
  destruct (ready s); [|done]. specialize (IH s). by destruct (c s).
Qed.

Lemma solo_bind {A B} (m : P S E A) (k : A -> P S E B) s :
  solo (m ≫= k) s =
  match solo m s with
  | Some (Ok a, s') => solo (k a) s'
  | Some (Throw e, s') => Some (Throw e, s')
  | None => None
  end.
Proof.
  unfold solo at 1 2, mbind, P_bind. destruct (m s) as [x s']. apply solo_run_bind.
Qed.

Lemma solo_run_attempt {F A} (x : Run S E A) s :
  solo_run (run_attempt x : Run S F _) s =
  match solo_run x s with Some (r, s') => Some (Ok r, s') | None => None end.
Proof.
  revert s. induction x as [r|ready c IH] using run_ind; intros s; [done|]. cbn [run_attempt solo_run].
  destruct (ready s); [|done]. specialize (IH s). by destruct (c s).
Qed.

Lemma solo_attempt {F A} (m : P S E A) s :
  solo (attemptP m : P S F _) s = match solo m s with Some (r, s') => Some (Ok r, s') | None => None end.
Proof. unfold solo, attemptP. destruct (m s) as [x s']. apply solo_run_attempt. Qed.

Lemma solo_catch {A} (m : P S E A) (h : E -> P S E A) s :
  solo (catchP m h) s =
  match solo m s with
  | Some (Ok a, s') => Some (Ok a, s')
  | Some (Throw e, s') => solo (h e) s'
  | None => None
  end.
Proof.
  unfold catchP. rewrite solo_bind, solo_attempt. by destruct (solo m s) as [[[a|e] s']|].
Qed.

End Solo.

(** ** The guard of a tab *)

(** The cache of a tab, with the contents of the windows. *)
Definition by_value (t : Tab) (m : OMap string nat) : OMap string MemWindow :=
  mkOMap ((fun kv => (kv.1, lookup_window kv.1 kv.2 t)) <$> entries m).

Definition guard_of (t : Tab) : DurableReplayGuard :=
  mkGuard (tab_available t) (tab_namespace t) (tab_window t) (by_value t (tab_mem t)) (tab_persisting t)
    (tab_warnedPersist t) (tab_warnedRead t) (tab_db t).

Definition guard_view (s : DS) : DurableReplayGuard * Idb := (guard_of s.1, idb s.2).

(** Nothing is in flight in the tab, no lock is held, and [self] is a new number. *)
Definition settled (self : nat) (t : Tab) (l : gmap string nat) : Prop :=
  l = ∅ /\ omap_wf (tab_mem t) /\ forall i, persistTail t = Some i -> (i < self)%nat /\ tails t !! i = Some true.
Definition idle (self : nat) (t : Tab) (l : gmap string nat) : Prop := hydrating t = ∅ /\ settled self t l.

Lemma by_value_lookup t m k : by_value t m !! k = (fun w => lookup_window k w t) <$> m !! k.
Proof.
  unfold lookup, omap_lookup, by_value. cbn. induction (entries m) as [|[k' w] l IH]; [done|]. cbn.
  destruct (decide (k = k')) as [->|]; [done|]. exact IH.
Qed.

Lemma by_value_keys t m : omap_keys (by_value t m) = omap_keys m.
Proof. unfold omap_keys, by_value. cbn. by rewrite <- list_fmap_compose. Qed.

Lemma by_value_size t m : omap_size (by_value t m) = omap_size m.
Proof. unfold omap_size, by_value. cbn. by rewrite length_fmap. Qed.

Lemma by_value_delete t m k : by_value t (delete k m) = delete k (by_value t m).
Proof.
  unfold by_value, delete, omap_delete. cbn. f_equal. induction (entries m) as [|[k' w] l IH]; [done|]. cbn.
  destruct (decide (k = k')); [done|]. cbn. by rewrite IH.
Qed.

(** The cache after a window object got new contents. *)
Lemma by_value_put t m fk w win :
  omap_wf m -> m !! fk = Some w -> by_value (put_window fk w win t) m = <[fk := win]> (by_value t m).
Proof.
  unfold omap_wf, omap_keys, lookup, omap_lookup, by_value, insert, omap_insert. cbn. intros Hnd Hm. f_equal.
  assert (forall k w', (k, w') <> (fk, w) -> lookup_window k w' (put_window fk w win t) = lookup_window k w' t) as Hother.
  { intros k w' Hne. unfold lookup_window, put_window. cbn. by rewrite lookup_insert_ne. }
  induction (entries m) as [|[k w'] l IH]; [done|]. cbn in *. apply NoDup_cons in Hnd as [Hk Hnd].
  destruct (decide (fk = k)) as [<-|Hne].
  - injection Hm as ->. f_equal; [unfold lookup_window, put_window; cbn; by rewrite lookup_insert_eq|].
    apply list_fmap_ext. intros i [k w'] Hi. f_equal. apply Hother. intros [= -> ->]. apply Hk.
    apply list_elem_of_fmap. exists (fk, w). split; [done|]. by eapply list_elem_of_lookup_2.
  - rewrite (Hother k w') by congruence. f_equal. by apply IH.
Qed.

(** The cache after a window was installed. *)
Lemma by_value_install t m fk n win :
  m !! fk = None -> by_value (put_window fk n win t) (<[fk := n]> m) = <[fk := win]> (by_value t m).
Proof.
  unfold lookup, omap_lookup, by_value, insert, omap_insert. cbn. intros Hm. f_equal.
  induction (entries m) as [|[k w'] l IH]; cbn in *.
  - f_equal. unfold lookup_window, put_window. cbn. by rewrite lookup_insert_eq.
  - destruct (decide (fk = k)) as [<-|Hne]; [done|]. cbn. rewrite IH by done. f_equal. f_equal.
    unfold lookup_window, put_window. cbn. by rewrite lookup_insert_ne by congruence.
Qed.

Lemma evictable_idle just p keys : evictableP just ∅ p keys = evictable just p keys.
Proof.
  induction keys as [|k keys IH]; [done|]. cbn. rewrite lookup_empty. destruct (decide (k = just)); [done|].
  by destruct (p !! k).
Qed.

Lemma by_value_trim t fuel just p m :
  by_value t (trim_mem fuel just ∅ p m) = trim_cache_loop fuel just p (by_value t m).
Proof.
  revert m. induction fuel as [|fuel IH]; intros m; [done|]. cbn [trim_mem trim_cache_loop].
  rewrite by_value_size, by_value_keys, evictable_idle. destruct (_ <=? _)%nat; [done|].
  destruct (evictable _ _ _) as [k|]; [|done]. by rewrite IH, by_value_delete.
Qed.

(** ** A run alone follows an operation of [Durable] *)

(** From a state of [I], both return, with [Q], or both throw the same error, with [X]. *)
Definition alike {A B} (I : DS -> Prop) (m : DP A) (d : DM B) (Q : A -> B -> DS -> Prop) (X : DS -> Prop) : Prop :=
  forall s, I s -> exists s',
    (exists a b, solo m s = Some (Ok a, s') /\ d (guard_view s) = (Ok b, guard_view s') /\ Q a b s') \/
    (exists e, solo m s = Some (Throw e, s') /\ d (guard_view s) = (Throw e, guard_view s') /\ X s').

Section Alike.
Context {A B : Type}.
Implicit Types (I X : DS -> Prop) (Q : A -> B -> DS -> Prop).

Lemma alike_ret I Q X (a : A) (b : B) : (forall s, I s -> Q a b s) -> alike I (mret a) (mret b) Q X.
Proof. intros H s Hs. exists s. left. exists a, b. split; [done|]. split; [done|]. by apply H. Qed.

Lemma alike_bind {A' B'} I (m : DP A) (d : DM B) (k : A -> DP A') (h : B -> DM B') Q
    (Q' : A' -> B' -> DS -> Prop) X :
  alike I m d Q X -> (forall a b, alike (Q a b) (k a) (h b) Q' X) -> alike I (m ≫= k) (d ≫= h) Q' X.
Proof.
  intros Hm Hk s Hs. rewrite solo_bind. unfold mbind, M_bind.
  destruct (Hm s Hs) as (s' & [(a & b & -> & -> & HQ)|(e & -> & -> & HX)]); [by apply Hk|]. exists s'. right. eauto.
Qed.

Lemma alike_catch I (m : DP A) (d : DM B) h h' Q X X' :
  alike I m d Q X -> (forall e, alike X (h e) (h' e) Q X') -> alike I (catchP m h) (catch d h') Q X'.
Proof.
  intros Hm Hh s Hs. rewrite solo_catch. unfold catch.
  destruct (Hm s Hs) as (s' & [(a & b & -> & -> & HQ)|(e & -> & -> & HX)]); [|by apply Hh]. exists s'. left. eauto 6.
Qed.

(** Reads and waits of one side only. *)
Lemma alike_gets_l {T} I v f (k : T -> DP A) (d : DM B) Q X :
  (forall s, I s -> f s = v) -> alike I (k v) d Q X -> alike I (piece (gets f) ≫= k) d Q X.
Proof. intros Hf Hk s Hs. rewrite solo_bind, solo_piece. cbn. rewrite (Hf s Hs). by apply Hk. Qed.

Lemma alike_gets_r {T} I v (m : DP A) f (h : T -> DM B) Q X :
  (forall s, I s -> f (guard_view s) = v) -> alike I m (h v) Q X -> alike I m (gets f ≫= h) Q X.
Proof. intros Hf Hk s Hs. destruct (Hk s Hs) as (s' & H'). exists s'. unfold mbind, M_bind, gets in *. by rewrite Hf. Qed.

Lemma alike_assoc {T U} I (m : DP T) (k : T -> DP U) (h : U -> DP A) (d : DM B) Q X :
  alike I (m ≫= fun v => k v ≫= h) d Q X -> alike I ((m ≫= k) ≫= h) d Q X.
Proof.
  intros H s Hs. destruct (H s Hs) as (s' & H'). exists s'. rewrite !solo_bind in *.
  destruct (solo m s) as [[[v|e] s1]|]; try done. by rewrite solo_bind in H'.
Qed.

(** Both sides read the same. *)
Lemma alike_gets {T} I f g (k : T -> DP A) (h : T -> DM B) Q X :
  (forall s, I s -> f s = g (guard_view s)) ->
  (forall v, alike (fun s => I s /\ v = f s) (k v) (h v) Q X) -> alike I (piece (gets f) ≫= k) (gets g ≫= h) Q X.
Proof.
  intros Hfg Hk s Hs. rewrite solo_bind, solo_piece. destruct (Hk (f s) s) as (s' & H'); [done|].
  exists s'. unfold mbind, M_bind, gets in *. by rewrite <- Hfg.
Qed.

Lemma alike_pause I (k : unit -> DP A) (d : DM B) Q X : alike I (k tt) d Q X -> alike I (pause ≫= k) d Q X.
Proof. intros Hk s Hs. rewrite solo_bind, solo_pause. by apply Hk. Qed.

Lemma alike_wait {T} I ready (m : M DS js_error T) (k : T -> DP A) (d : DM B) Q X :
  (forall s, I s -> ready s = true) -> alike I (piece m ≫= k) d Q X -> alike I (wait_for ready m ≫= k) d Q X.
Proof.
  intros Hr Hk s Hs. specialize (Hk s Hs). rewrite solo_bind, solo_piece in Hk. rewrite solo_bind, solo_wait by auto. done.
Qed.

Lemma alike_pre I I' (m : DP A) (d : DM B) Q X : (forall s, I s -> I' s) -> alike I' m d Q X -> alike I m d Q X.
Proof. intros HI H s Hs. by apply H, HI. Qed.

Lemma alike_post I (m : DP A) (d : DM B) Q Q' X :
  (forall a b s, Q a b s -> Q' a b s) -> alike I m d Q X -> alike I m d Q' X.
Proof.
  intros HQ H s Hs. destruct (H s Hs) as (s' & [(a & b & ? & ? & ?)|?]); exists s'; [left; eauto 6|by right].
Qed.

End Alike.

Lemma alike_modify I f g (Q : unit -> unit -> DS -> Prop) X :
  (forall s, I s -> guard_view (f s) = g (guard_view s) /\ Q tt tt (f s)) ->
  alike I (piece (modify f)) (modify g) Q X.
Proof.
  intros H s Hs. exists (f s). left. exists tt, tt. destruct (H s Hs) as [Hg HQ]. split; [done|].
  unfold modify. by rewrite Hg.
Qed.

Lemma alike_fail {A B} I (Q : A -> B -> DS -> Prop) : alike I failD (throw DomException) Q I.
Proof. intros s Hs. exists s. right. by exists DomException. Qed.

(** A write that the guard does not see. *)
Lemma alike_modify_l {A B} I J f (k : unit -> DP A) (d : DM B) Q X :
  (forall s, I s -> guard_view (f s) = guard_view s /\ J (f s)) -> alike J (k tt) d Q X ->
  alike I (piece (modify f) ≫= k) d Q X.
Proof.
  intros Hf Hk s Hs. rewrite solo_bind, solo_piece. destruct (Hf s Hs) as [<- HJ]. by apply (Hk (f s)).
Qed.

(** ** Requests *)

(** Without what requests touch. *)
Definition core (s : DS) : Tab * gmap string nat :=
  (s.1 <| tab_db := None |> <| tab_warnedPersist := false |> <| tab_warnedRead := false |>, locks s.2).
Definition at_core c (s : DS) : Prop := core s = c.

Lemma alike_core {A B} I (m : DP A) (d : DM B) Q X :
  (forall s0, I s0 -> alike (at_core (core s0)) m d Q X) -> alike I m d Q X.
Proof. intros H s Hs. by apply (H s Hs). Qed.

Lemma alike_db c : alike (at_core c) dbP db (fun _ _ => at_core c) (at_core c).
Proof.
  apply alike_gets; [done|]. intros p.
  apply (alike_bind _ _ _ _ _ (fun ok ok' s => at_core c s /\ ok = ok')).
  - destruct p as [ok|]; intros s [Hs _]; [exists s; left; by exists ok, ok|].
    eexists. left. exists (opens (idb s.2)), (opens (idb s.2)). done.
  - intros ok ok' s [Hs <-]. revert s Hs. apply alike_pause.
    destruct ok; [by apply alike_ret|apply alike_fail].
Qed.

Lemma alike_read c fk :
  alike (at_core c) (idbReadP fk) (idbRead fk) (fun v v' s => at_core c s /\ v = v') (at_core c).
Proof.
  apply alike_pause, alike_gets; [done|]. intros ok s [Hs _]. exists s.
  destruct ok; [left; by eexists _, _|right; by exists DomException].
Qed.

(** A request that writes if it succeeds. *)
Ltac alike_request :=
  apply alike_pause, alike_gets; [done|]; intros [] s [Hs _];
  [eexists; left; exists tt, tt; split; [done|]; split; [done|exact Hs]
  |exists s; right; by exists DomException].

Lemma alike_write c fk v : alike (at_core c) (idbWriteP fk v) (idbWrite fk v) (fun _ _ => at_core c) (at_core c).
Proof. alike_request. Qed.

Lemma alike_erase c fk :
  alike (at_core c) (idbDeleteKeyP fk) (idbDeleteKey fk) (fun _ _ => at_core c) (at_core c).
Proof. alike_request. Qed.

Lemma core_eq {T} (f : Tab * gmap string nat -> T) s0 s : at_core (core s0) s -> f (core s) = f (core s0).
Proof. by intros ->. Qed.

Lemma core_elim (J : Tab * gmap string nat -> Prop) s0 s : J (core s0) -> at_core (core s0) s -> J (core s).
Proof. by intros ? ->. Qed.

(** An assertion that requests do not touch. *)
Definition of_core (J : DS -> Prop) : Prop := forall s0 s, J s0 -> at_core (core s0) s -> J s.

Lemma alike_over {A B} J (m : DP A) (d : DM B) :
  of_core J -> (forall c, alike (at_core c) m d (fun _ _ => at_core c) (at_core c)) -> alike J m d (fun _ _ => J) J.
Proof.
  intros HJ H s Hs. destruct (H (core s) s eq_refl) as (s' & [(a & b & ? & ? & ?)|(e & ? & ? & ?)]); exists s';
    [left; exists a, b|right; exists e]; eauto.
Qed.

(** ** hydrate *)

Lemma alike_load c fk :
  alike (at_core c)
    (catchP (dbP;; persisted ← idbReadP fk; mret (stored_order (tab_window c.1) persisted))
       (fun _ => tmod (fun t => t <| tab_warnedRead := true |>);; mret []))
    (catch (db;; persisted ← idbRead fk;
            mret (match persisted_seen persisted with
                  | Some seen => lastn (Z.to_nat (tab_window c.1)) seen
                  | None => []
                  end))
       (fun _ => gmodify (fun g => g <| warnedReadFail := true |>);; mret []))
    (fun order order' s => at_core c s /\ order = order') (fun _ => False).
Proof.
  apply (alike_catch _ _ _ _ _ _ (at_core c)).
  - apply (alike_bind _ _ _ _ _ (fun _ _ => at_core c)); [apply alike_db|]. intros _ _.
    apply (alike_bind _ _ _ _ _ (fun v v' s => at_core c s /\ v = v')); [apply alike_read|]. intros v v'.
    apply alike_ret. by intros s [Hs <-].
  - intros e. apply (alike_bind _ _ _ _ _ (fun _ _ => at_core c)); [|by intros _ _; apply alike_ret].
    apply alike_modify. by intros s Hs.
Qed.

Lemma trim_mem_just fuel just h p m : trim_mem fuel just h p m !! just = m !! just.
Proof.
  revert m. induction fuel as [|fuel IH]; intros m; [done|]. cbn [trim_mem]. destruct (_ <=? _)%nat; [done|].
  destruct (evictableP _ _ _ _) as [k|] eqn:Ek; [|done]. rewrite IH. apply jm_lookup_delete_ne.
  intros <-. clear - Ek. induction (omap_keys m) as [|k' l IHl]; [done|]. cbn in Ek.
  destruct (decide (k' = k)) as [->|]; [by apply IHl|]. destruct (h !! k'), (p !! k'); (congruence || by apply IHl).
Qed.

Lemma trim_mem_wf fuel just h p m : omap_wf m -> omap_wf (trim_mem fuel just h p m).
Proof.
  revert m. induction fuel as [|fuel IH]; intros m Hm; [done|]. cbn [trim_mem]. destruct (_ <=? _)%nat; [done|].
  destruct (evictableP _ _ _ _); [|done]. by apply IH, omap_delete_wf.
Qed.

Lemma by_value_windows t t' m : windows t = windows t' -> by_value t m = by_value t' m.
Proof. intros E. unfold by_value, lookup_window. by rewrite E. Qed.

(** What installing a window does to the guard. *)
Lemma install_view self fk order t :
  tab_mem t !! fk = None -> hydrating t = {[fk := self]} ->
  guard_of (install self fk order t) =
  (let g := (guard_of t) <| mem ::= <[fk := {| mem_set := order; mem_order := order |}]> |> in
   g <| mem ::= fun m => trim_cache_loop (omap_size m) fk (persisting g) m |>).
Proof.
  intros Hm Hh. unfold guard_of. cbn. f_equal.
  rewrite (by_value_windows _ (put_window fk self (mkMem order order) t)) by done.
  rewrite Hh, delete_singleton_eq, by_value_trim.
  rewrite <- (by_value_size (put_window fk self (mkMem order order) t) (<[fk := self]> _)).
  by rewrite by_value_install.
Qed.

(** [w] is the window of the key, with contents [win]. *)
Definition cached self fk w win (t : Tab) (l : gmap string nat) : Prop :=
  idle self t l /\ tab_mem t !! fk = Some w /\ lookup_window fk w t = win.

Lemma install_cached self fk order t l :
  settled self t l -> hydrating t = {[fk := self]} ->
  cached self fk self (mkMem order order) (install self fk order t) l.
Proof.
  intros (Hl & Hm & Ht) Hh. unfold cached, install, trimMemCacheP. split; [|split].
  - split; [cbn; by rewrite Hh, delete_singleton_eq|]. split_and!; [done| |exact Ht].
    by apply trim_mem_wf, omap_insert_wf.
  - cbn. rewrite trim_mem_just. apply jm_lookup_insert_eq.
  - unfold lookup_window. cbn. by rewrite lookup_insert_eq.
Qed.

Lemma solo_install self fk order s :
  solo (tmod (install self fk order);; await_hydrate fk self) s = Some (Ok self, (install self fk order s.1, s.2)).
Proof.
  rewrite solo_bind. unfold tmod, await_hydrate. rewrite solo_piece. unfold modify.
  assert (hydrated (install self fk order s.1) !! (fk, self) = Some self) as Hr by (cbn; by rewrite lookup_insert_eq).
  rewrite solo_wait; unfold gets; simpl fst; rewrite Hr; [done|]. by apply bool_decide_eq_true_2.
Qed.

Lemma alike_hydrate self key s0 :
  idle self s0.1 (locks s0.2) ->
  alike (at_core (core s0)) (hydrateP self (store_key (tab_namespace s0.1) key)) (hydrate key)
    (fun w win s => cached self (store_key (tab_namespace s0.1) key) w win s.1 (locks s.2)) (fun _ => False).
Proof.
  intros Hi. set (fk := store_key _ key). unfold hydrateP, hydrate.
  apply (alike_gets_r _ fk); [exact (core_eq (fun c => store_key (tab_namespace c.1) key) s0)|].
  apply (alike_gets_l _ (tab_mem s0.1 !! fk)); [exact (core_eq (fun c => tab_mem c.1 !! fk) s0)|].
  apply (alike_gets_r _ ((fun w => lookup_window fk w s0.1) <$> tab_mem s0.1 !! fk)).
  { rewrite <- by_value_lookup. exact (core_eq (fun c => by_value c.1 (tab_mem c.1) !! fk) s0). }
  destruct (tab_mem s0.1 !! fk) as [w|] eqn:Em.
  - apply alike_pause, alike_ret. intros s. by refine (core_elim (fun c => cached self fk w _ c.1 c.2) s0 s _).
  - destruct Hi as (Hh & Hi).
    apply (alike_gets_l _ None).
    { intros s. refine (core_elim (fun c => hydrating c.1 !! fk = None) s0 s _). cbn. by rewrite Hh. }
    set (s1 := (s0.1 <| hydrating ::= <[fk := self]> |>, s0.2) : DS).
    apply (alike_modify_l _ (at_core (core s1))).
    { intros s Hs. split; [done|]. exact (core_eq (fun c => (c.1 <| hydrating ::= <[fk := self]> |>, c.2)) s0 s Hs). }
    unfold loadP. apply alike_assoc.
    apply (alike_gets_l _ (tab_window s0.1)); [exact (core_eq (fun c => tab_window c.1) s1)|].
    apply (alike_gets_r _ (tab_window s0.1)); [exact (core_eq (fun c => tab_window c.1) s1)|].
    apply alike_assoc. apply (alike_bind _ _ _ _ _ _ _ _ (alike_load (core s1) fk)).
    intros order order' s [Hs <-]. exists (install self fk order s.1, s.2). left.
    exists self, (mkMem order order). rewrite solo_install. split; [done|].
    assert (tab_mem s.1 !! fk = None) as Em' by exact (core_elim (fun c => tab_mem c.1 !! fk = None) s1 s Em Hs).
    assert (hydrating s.1 = {[fk := self]}) as Eh.
    { refine (core_elim (fun c => hydrating c.1 = _) s1 s _ Hs). cbn. by rewrite Hh. }
    split; [|apply install_cached; [|done]].
    + unfold guard_view. cbn [fst snd]. by rewrite install_view.
    + exact (core_elim (fun c => settled self c.1 c.2) s1 s Hi Hs).
Qed.

(** ** The merge under the lock *)

(** While a persist is in flight: its window [w] is cached, and [l] are the locks. *)
Definition busy self fk w (l : gmap string nat) (s : DS) : Prop :=
  hydrating s.1 = ∅ /\ locks s.2 = l /\ omap_wf (tab_mem s.1) /\ persistTail s.1 = Some self /\ tab_mem s.1 !! fk = Some w.

Lemma busy_core self fk w l : of_core (busy self fk w l).
Proof.
  intros s0 s. exact (core_elim (fun c => hydrating c.1 = ∅ /\ c.2 = l /\ omap_wf (tab_mem c.1) /\ persistTail c.1 = Some self /\
    tab_mem c.1 !! fk = Some w) s0 s).
Qed.

Lemma put_view s fk w win :
  omap_wf (tab_mem s.1) -> tab_mem s.1 !! fk = Some w ->
  guard_view (put_window fk w win s.1, s.2) = ((guard_of s.1) <| mem ::= <[fk := win]> |>, idb s.2).
Proof.
  intros Hwf Hm.
  exact (f_equal (fun m => ((guard_of s.1) <| mem := m |>, idb s.2)) (by_value_put s.1 _ fk w win Hwf Hm)).
Qed.

Lemma alike_merge self fk w l :
  alike (busy self fk w l) (mergeP fk w)
    (db;;
     persistedSeen ← catch (cur ← idbRead fk; mret (default [] (persisted_seen cur))) (fun _ => mret []);
     n ← gget window;
     win ← gget (fun g => default (mkMem [] []) (mem g !! fk));
     let merged := lastn (Z.to_nat n) (dedupKeepLast (persistedSeen ++ mem_order win)) in
     gmodify (fun g => g <| mem ::= <[fk := {| mem_set := merged; mem_order := merged |}]> |>);;
     idbWrite fk {| pw_v := 1; pw_seen := Some merged |})
    (fun _ _ => busy self fk w l) (busy self fk w l).
Proof.
  apply (alike_bind _ _ _ _ _ _ _ _ (alike_over _ _ _ (busy_core self fk w l) alike_db)).
  intros _ _. apply alike_core. intros s0 Hb.
  apply (alike_bind _ _ _ _ _ (fun v v' s => at_core (core s0) s /\ v = v')).
  { apply (alike_catch _ _ _ _ _ _ (at_core (core s0))); [|by intros _; apply alike_ret].
    apply (alike_bind _ _ _ _ _ _ _ _ (alike_read _ _)). intros v v'. apply alike_ret. by intros s [Hs <-]. }
  intros seen seen' s [Hs <-]. revert s Hs.
  set (merged := merged_order seen fk w s0.1).
  apply (alike_gets_l _ merged); [exact (core_eq (fun c => merged_order seen fk w c.1) s0)|].
  apply (alike_gets_r _ (tab_window s0.1)); [exact (core_eq (fun c => tab_window c.1) s0)|].
  destruct Hb as (Hh & Hl & Hwf & Ht & Hm).
  apply (alike_gets_r _ (lookup_window fk w s0.1)).
  { intros s. refine (core_elim (fun c => default (mkMem [] []) (by_value c.1 (tab_mem c.1) !! fk) = _) s0 s _).
    rewrite by_value_lookup. cbn. by rewrite Hm. }
  apply (alike_bind _ _ _ _ _ (fun _ _ => busy self fk w l)).
  - apply alike_modify. intros s Hs. 
    destruct (busy_core self fk w l s0 s) as (Hh' & Hl' & Hwf' & Ht' & Hm'); [by split_and!|done|]. split; [by apply put_view|by split_and!].
  - intros _ _. apply alike_over; [apply busy_core|]. intros c. apply alike_write.
Qed.

(** Run to the end, then write what the guard does not see, and settle the same. *)
Lemma alike_finally {A B} I (m : DP A) (d : DM B) f Q Q' X X' :
  alike I m d Q X ->
  (forall a b s, Q a b s -> guard_view (f s) = guard_view s /\ Q' a b (f s)) ->
  (forall s, X s -> guard_view (f s) = guard_view s /\ X' (f s)) ->
  alike I (r ← attemptP m; piece (modify f);; pause;; piece (lift r)) d Q' X'.
Proof.
  intros Hm HQ HX s Hs. rewrite solo_bind, solo_attempt.
  destruct (Hm s Hs) as (s' & [(a & b & -> & -> & H)|(e & -> & -> & H)]); exists (f s').
  - destruct (HQ _ _ _ H) as [-> H']. left. by exists a, b.
  - destruct (HX _ H) as [-> H']. right. by exists e.
Qed.

Lemma alike_persist self fk w :
  alike (busy self fk w ∅) (persistMergedP self fk w) (persistMerged fk)
    (fun _ _ => busy self fk w ∅) (busy self fk w ∅).
Proof.
  unfold persistMergedP, with_lock, persistMerged. apply alike_gets; [done|]. intros [].
  - cbn [negb]. apply (alike_pre _ (busy self fk w ∅)); [by intros s []|].
    apply alike_wait; [by intros s (_ & -> & _)|].
    apply (alike_modify_l _ (busy self fk w {[lock_name fk := self]})).
    { intros s (Hh & Hl & Hr). split; [done|]. split; [done|]. cbn. by rewrite Hl. }
    assert (forall s, busy self fk w {[lock_name fk := self]} s ->
      busy self fk w ∅ (s.1, s.2 <| locks ::= delete (lock_name fk) |>)) as Hfree.
    { intros s (Hh & Hl & Hr). split; [done|]. cbn. by rewrite Hl, delete_singleton_eq. }
    apply (alike_finally _ _ _ _ _ _ _ _ (alike_merge self fk w _)); eauto.
  - cbn [negb]. apply alike_pause. apply (alike_pre _ (busy self fk w ∅)); [by intros s []|]. apply alike_fail.
Qed.

(** ** check, accept and clear *)

Lemma alike_off {A B} s0 (k : bool -> DP A) (h : bool -> DM B) Q X :
  alike (at_core (core s0)) (k (negb (tab_available s0.1) || (tab_window s0.1 =? 0)))
    (h (negb (tab_available s0.1) || (tab_window s0.1 =? 0))) Q X ->
  alike (at_core (core s0)) (offP ≫= k) (gget (fun g => negb (available g) || (window g =? 0)) ≫= h) Q X.
Proof.
  intros H. apply (alike_gets_l _ (negb (tab_available s0.1) || (tab_window s0.1 =? 0)));
    [exact (core_eq (fun c => negb (tab_available c.1) || (tab_window c.1 =? 0)) s0)|].
  eapply alike_gets_r; [|exact H]. exact (core_eq (fun c => negb (tab_available c.1) || (tab_window c.1 =? 0)) s0).
Qed.

Definition idle_at self (s : DS) : Prop := idle self s.1 (locks s.2).

Lemma alike_check self key ctr s0 :
  idle_at self s0 ->
  alike (at_core (core s0)) (checkP self key ctr) (check key ctr) (fun b b' s => idle_at self s /\ b = b') (fun _ => False).
Proof.
  intros Hi. apply alike_off. destruct (_ || _).
  { apply alike_ret. intros s Hs. split; [|done]. exact (core_elim (fun c => idle self c.1 c.2) s0 s Hi Hs). }
  apply (alike_gets_l _ (store_key (tab_namespace s0.1) key)); [exact (core_eq (fun c => store_key (tab_namespace c.1) key) s0)|].
  apply (alike_bind _ _ _ _ _ _ _ _ (alike_hydrate self key s0 Hi)). intros w win s (Hs & Hw & <-).
  exists s. left. by eexists _, _.
Qed.

Lemma record_view self fk w ctrStr s :
  omap_wf (tab_mem s.1) -> tab_mem s.1 !! fk = Some w ->
  let win := lookup_window fk w s.1 in
  guard_view (record self fk w ctrStr s.1, s.2) =
  ((guard_of s.1) <| persisting ::= fun p => <[fk := default 0 (p !! fk) + 1]> p |>
     <| mem ::= <[fk := trim (tab_window s.1)
          {| mem_set := mem_set win ++ [ctrStr]; mem_order := mem_order win ++ [ctrStr] |}]> |>, idb s.2).
Proof.
  intros Hwf Hm win.
  set (win' := trim (tab_window s.1) (mkMem (mem_set win ++ [ctrStr]) (mem_order win ++ [ctrStr]))).
  exact (f_equal (fun m => ((guard_of s.1) <| persisting ::= fun p => <[fk := default 0 (p !! fk) + 1]> p |> <| mem := m |>, idb s.2))
    (by_value_put s.1 _ fk w win' Hwf Hm)).
Qed.

Lemma release_view fk f s :
  guard_view (releasePersistingP fk (s.1 <| tails ::= f |>), s.2) =
  ((let g := guard_of s.1 in
    let next := default 0 (persisting g !! fk) - 1 in
    if next <=? 0 then g <| persisting ::= delete fk |> else g <| persisting ::= <[fk := next]> |>), idb s.2).
Proof. unfold releasePersistingP. cbn. by destruct (_ <=? 0). Qed.

Lemma idle_le self self' s : (self <= self')%nat -> idle_at self s -> idle_at self' s.
Proof.
  intros Hle (Hh & Hl & Hm & Ht). split; [done|]. split_and!; [done..|]. intros i Hi. destruct (Ht i Hi). split; [lia|done].
Qed.

Lemma alike_link self fk w prev :
  alike (fun s => busy self fk w ∅ s /\ forall i, prev = Some i -> tails s.1 !! i = Some true)
    (persist_link self fk w prev)
    (catch (persistMerged fk) (fun _ => warnPersistFail);; releasePersisting fk)
    (fun _ _ => idle_at (S self)) (fun _ => False).
Proof.
  assert (alike (busy self fk w ∅)
    (catchP (persistMergedP self fk w) (fun _ => warnPersistFailP);;
     tmod (fun t => releasePersistingP fk t <| tails ::= <[self := true]> |>))
    (catch (persistMerged fk) (fun _ => warnPersistFail);; releasePersisting fk)
    (fun _ _ => idle_at (S self)) (fun _ => False)) as H.
  { apply (alike_bind _ _ _ _ _ (fun _ _ => busy self fk w ∅)).
    - apply (alike_catch _ _ _ _ _ _ (busy self fk w ∅)); [apply alike_persist|]. intros _.
      by apply alike_modify.
    - intros _ _. apply alike_modify. intros s (Hh & Hl & Hm & Ht & _).
      split; [apply release_view|]. unfold idle_at, releasePersistingP. destruct (_ <=? 0); cbn;
        (split; [done|]); (split_and!; [done..|]); cbn; rewrite Ht; intros i [= <-]; (split; [lia|apply lookup_insert_eq]). }
  unfold persist_link. destruct prev as [p|].
  - apply alike_wait; [intros s [_ Hp]; cbn; by rewrite bool_decide_true by auto|].
    intros s [Hs _]. rewrite solo_bind, solo_piece. by apply H.
  - apply alike_pause. eapply alike_pre, H. by intros s [].
Qed.

(** The rest of [accept] from the window on. *)
Lemma alike_record self fk w ctrStr s :
  cached self fk w (lookup_window fk w s.1) s.1 (locks s.2) ->
  alike (fun s' => s' = s)
    (tmod (record self fk w ctrStr);; persist_link self fk w (persistTail s.1);; pause)
    (let win := lookup_window fk w s.1 in
     gmodify (fun g => g <| persisting ::= fun p => <[fk := default 0 (p !! fk) + 1]> p |>);;
     n ← gget window;
     let win := trim n {| mem_set := mem_set win ++ [ctrStr]; mem_order := mem_order win ++ [ctrStr] |} in
     gmodify (fun g => g <| mem ::= <[fk := win]> |>);;
     catch (persistMerged fk) (fun _ => warnPersistFail);;
     releasePersisting fk)
    (fun _ _ => idle_at (S self)) (fun _ => False).
Proof.
  intros ((Hh & Hl & Hwf & Ht) & Hm & _) _ ->. set (s1 := (record self fk w ctrStr s.1, s.2) : DS).
  destruct (alike_link self fk w (persistTail s.1) s1) as (s2 & [([] & [] & E1 & E2 & Hi)|(e & _ & _ & [])]).
  { split; [by split_and!|]. intros i Hi. destruct (Ht i Hi) as [Hlt Hd]. cbn. rewrite lookup_insert_ne by lia. done. }
  exists s2. left. exists tt, tt. split_and!; [|clear E1|done].
  - unfold tmod. rewrite solo_bind, solo_piece. unfold modify. rewrite solo_bind. fold s1. by rewrite E1.
  - rewrite <- E2. unfold s1. by rewrite record_view.
Qed.

Lemma alike_accept self key ctr s0 :
  idle_at self s0 ->
  alike (at_core (core s0)) (acceptP self key ctr) (accept key ctr) (fun _ _ => idle_at (S self)) (fun _ => False).
Proof.
  intros Hi. apply alike_off. destruct (_ || _).
  { apply alike_ret. intros s Hs. apply (idle_le self); [lia|]. exact (core_elim (fun c => idle self c.1 c.2) s0 s Hi Hs). }
  set (fk := store_key (tab_namespace s0.1) key).
  apply (alike_gets_l _ fk); [exact (core_eq (fun c => store_key (tab_namespace c.1) key) s0)|].
  apply (alike_gets_r _ fk); [exact (core_eq (fun c => store_key (tab_namespace c.1) key) s0)|].
  apply (alike_bind _ _ _ _ _ _ _ _ (alike_hydrate self key s0 Hi)). fold fk. intros w win. apply alike_core.
  intros s1 (Hi1 & Hw & <-).
  apply (alike_gets_l _ (bool_decide (pretty ctr ∈ mem_set (lookup_window fk w s1.1))));
    [exact (core_eq (fun c => bool_decide (pretty ctr ∈ mem_set (lookup_window fk w c.1))) s1)|].
  cbn zeta. destruct (bool_decide _).
  { apply alike_ret. intros s Hs. apply (idle_le self); [lia|]. exact (core_elim (fun c => idle self c.1 c.2) s1 s Hi1 Hs). }
  apply (alike_gets_l _ (persistTail s1.1)); [exact (core_eq (fun c => persistTail c.1) s1)|].
  intros s Hs.
  assert (cached self fk w (lookup_window fk w s.1) s.1 (locks s.2)) as Hc.
  { refine (core_elim (fun c => cached self fk w (lookup_window fk w c.1) c.1 c.2) s1 s _ Hs). by split. }
  assert (lookup_window fk w s.1 = lookup_window fk w s1.1) as <- by exact (core_eq (fun c => lookup_window fk w c.1) s1 s Hs).
  assert (persistTail s.1 = persistTail s1.1) as <- by exact (core_eq (fun c => persistTail c.1) s1 s Hs).
  by apply alike_record.
Qed.

Lemma alike_clear self key s0 :
  idle_at self s0 ->
  alike (at_core (core s0)) (clearP key) (clear key) (fun _ _ => idle_at self) (fun _ => False).
Proof.
  intros Hi. apply alike_off. destruct (_ || _).
  { apply alike_ret. intros s. exact (core_elim (fun c => idle self c.1 c.2) s0 s Hi). }
  set (fk := store_key (tab_namespace s0.1) key).
  apply (alike_gets_l _ fk); [exact (core_eq (fun c => store_key (tab_namespace c.1) key) s0)|].
  apply (alike_gets_r _ fk); [exact (core_eq (fun c => store_key (tab_namespace c.1) key) s0)|].
  apply (alike_bind _ _ _ _ _ (fun _ _ => at_core (core s0))).
  - apply (alike_catch _ _ _ _ _ _ (at_core (core s0))); [|by intros _; apply alike_ret].
    apply (alike_bind _ _ _ _ _ _ _ _ (alike_db _)). intros _ _. apply alike_erase.
  - intros _ _. apply alike_modify. intros s Hs.
    pose proof (core_elim (fun c => idle self c.1 c.2) s0 s Hi Hs) as (Hh & Hl & Hwf & Ht). split.
    + exact (f_equal (fun m => ((guard_of s.1) <| mem := m |> <| persisting ::= delete fk |>, idb s.2))
        (by_value_delete s.1 (tab_mem s.1) fk)).
    + split; [cbn in *; by rewrite Hh, delete_empty|]. split_and!; [done| |done]. by apply omap_delete_wf.
Qed.

(** The operation of [Durable] for a call. *)
Definition seq_call (call : GuardCall) : DM (option bool) :=
  match call with
  | CallCheck key ctr => b ← check key ctr; mret (Some b)
  | CallAccept key ctr => accept key ctr;; mret None
  | CallClear key => clear key;; mret None
  end.

Lemma alike_call self call s0 :
  idle_at self s0 ->
  alike (at_core (core s0)) (callP self call) (seq_call call) (fun r r' s => idle_at (S self) s /\ r = r') (fun _ => False).
Proof.
  intros Hi. destruct call as [key ctr|key ctr|key]; cbn [callP seq_call].
  - apply (alike_bind _ _ _ _ _ _ _ _ (alike_check self key ctr s0 Hi)). intros v v'. apply alike_ret.
    intros s [Hs <-]. split; [|done]. apply (idle_le self); [lia|done].
  - apply (alike_bind _ _ _ _ _ _ _ _ (alike_accept self key ctr s0 Hi)). intros _ _. by apply alike_ret.
  - apply (alike_bind _ _ _ _ _ _ _ _ (alike_clear self key s0 Hi)). intros _ _. apply alike_ret.
    intros s Hs. split; [|done]. apply (idle_le self); [lia|done].
Qed.

(** ** In the browser *)

(** No call is in flight in any tab. *)
Definition quiet_browser (b : Browser) : Prop :=
  locks (origin b) = ∅ /\
  forall t tab, open_tabs b !! t = Some tab -> idle (length (journal b)) tab (locks (origin b)).

Lemma quiet_idle e : quiet_browser (idle_browser e).
Proof. split; [done|]. intros t tab. cbn. by rewrite lookup_empty. Qed.

Lemma quiet_open b t ns w require : quiet_browser b -> quiet_browser (browser_step b (OpenTab t ns w require)).
Proof.
  intros [Hl Hi]. cbn. destruct (open_tabs b !! t); [by split|]. destruct (newTab _ _ _ _) as [tab|] eqn:E; [|by split].
  split; [done|]. intros t' tab'. cbn. intros [[<- <-]|[_ Ht]]%lookup_insert_Some; [|by apply (Hi t')].
  unfold newTab in E. destruct (newGuard _ _ _ _); [|done]. injection E as <-.
  split; [done|]. split_and!; [done|apply NoDup_nil_2|done].
Qed.

Lemma quiet_faults b o r w d l : quiet_browser b -> quiet_browser (browser_step b (Faults o r w d l)).
Proof. by intros [Hl Hi]. Qed.

Lemma settle_twice b t n x y : settle_piece (settle_piece b t n x) t n y = settle_piece b t n y.
Proof. unfold settle_piece. cbn. by rewrite !insert_insert_eq. Qed.

Lemma solo_resumes b t n x s r s' :
  solo_run x s = Some (r, s') ->
  exists k0, forall k, (k0 <= k)%nat ->
    run_browser (settle_piece b t n (x, s)) (replicate k (Resume n)) = settle_piece b t n (Finished r, s').
Proof.
  revert s. induction x as [r'|ready c IH] using run_ind; intros s E; cbn in E.
  - injection E as <- <-. exists 0%nat. intros k _. induction k as [|k IH]; [done|].
    cbn [replicate run_browser foldl]. rewrite <- IH at 2. unfold run_browser. f_equal. cbn. by rewrite lookup_insert_eq.
  - destruct (ready s) eqn:Hr; [|done]. destruct (IH s _ E) as [k0 Hk]. exists (S k0). intros [|k] Hle; [lia|].
    cbn [replicate run_browser foldl]. rewrite <- (Hk k) by lia. unfold run_browser. f_equal.
    destruct s as [tab o]. cbn. rewrite !lookup_insert_eq. cbn. rewrite Hr, settle_twice. by destruct (c (tab, o)).
Qed.

(** C20. A call made while nothing is in flight ends, however long it is resumed, and it has done
    to its tab's guard and to the stored windows what the operation of [Durable] does in one step;
    it resolves to the same, and nothing is in flight again. *)
Theorem guard_calls_alone b t tab call :
  quiet_browser b -> open_tabs b !! t = Some tab ->
  exists k0 r tab' o,
    seq_call call (guard_of tab, idb (origin b)) = (Ok r, (guard_of tab', idb o)) /\
    (forall k, (k0 <= k)%nat ->
      let b' := run_browser b (Begin t call :: replicate k (Resume (length (journal b)))) in
      origin b' = o /\ open_tabs b' = <[t := tab']> (open_tabs b) /\
      flights b' !! length (journal b) = Some (mkFlight t (Finished (Ok r))) /\ quiet_browser b').
Proof.
  intros [Hl Hi] Ht. set (n := length (journal b)). set (s := (tab, origin b) : DS).
  destruct (alike_call n call s (Hi t tab Ht) s eq_refl) as (s' & [(r & r' & E1 & E2 & Hi' & <-)|(e & _ & _ & [])]).
  set (b1 := mkBrowser (origin b) (open_tabs b) (flights b) (journal b ++ [mkJob t (tab_namespace tab) call])).
  destruct (solo_resumes b1 t n _ _ _ _ E1) as [k0 Hk]. exists k0, r, s'.1, s'.2. split; [exact E2|]. intros k Hle b'.
  assert (b' = settle_piece b1 t n (Finished (Ok r), s')) as ->.
  { rewrite <- (Hk k Hle). unfold b'. cbn [run_browser foldl]. unfold run_browser. f_equal. cbn. rewrite Ht. fold n s b1.
    by destruct (callP n call s). }
  destruct Hi' as (Hh' & Hl' & Hwf' & Ht'). split_and!; [done|done|apply lookup_insert_eq|].
  split; [done|]. intros t' tab'. cbn. rewrite length_app. cbn. fold n. replace (n + 1)%nat with (S n) by lia.
  intros [[<- <-]|[_ Hn]]%lookup_insert_Some; [by split|].
  apply (idle_le n (S n) (tab', s'.2)); [lia|]. destruct (Hi _ _ Hn) as (Hh2 & _ & H2). by split.
Qed.

Definition one_tab : Browser :=
  browser_step (idle_browser (mkIdb true true true false true true true ∅)) (OpenTab 0 "chat" None false).

Theorem guard_calls_alone_witness :
  exists k0 r tab' o,
    seq_call (CallAccept "room" 5) (guard_of (default (mkTab true "" 0 ∅ ∅ ∅ ∅ ∅ None ∅ None false false) (open_tabs one_tab !! 0%nat)), idb (origin one_tab))
      = (Ok r, (guard_of tab', idb o)) /\
    origin (run_browser one_tab (Begin 0 (CallAccept "room" 5) :: replicate k0 (Resume 0))) = o.
Proof.
  destruct (guard_calls_alone one_tab 0 (default (mkTab true "" 0 ∅ ∅ ∅ ∅ ∅ None ∅ None false false) (open_tabs one_tab !! 0%nat))
    (CallAccept "room" 5)) as (k0 & r & tab' & o & E & H).
  - apply quiet_open, quiet_idle.
  - reflexivity.
  - exists k0, r, tab', o. split; [exact E|]. destruct (H k0) as [Ho _]; [lia|exact Ho].
Defined.
