(* ===== verification/WebCrypto.v ===== *)
(** * WebCrypto: the interface of the code that is not in the repository

    The browser's WebCrypto and the @noble/curves package are the class [WebCrypto]: an operation
    gives [None] where the promise rejects or the call throws. [WebCryptoLaws] is what their
    documentation promises: AES-GCM is deterministic, appends a 16-byte tag, and decryption
    succeeds exactly on the outputs of encryption under the same key, nonce and additional data;
    encryption with a 12-byte nonce succeeds up to 2^39 - 256 bits of plaintext; keys of 16 and 32
    bytes import; HKDF gives up to 255 hash lengths, as many bits as it is asked for; X25519 shared secrets agree. *)
From S2P Require Import Prelude Errors.

Inductive Hash := SHA_256 | SHA_512.

Class WebCrypto := {
  CryptoKey : Type;
  (** [importKey('raw', raw, 'AES-GCM', ...)] *)
  import_aes : bytes -> option CryptoKey;
  (** [encrypt] and [decrypt] with a 128-bit tag: key, iv, additional data, data *)
  aes_gcm_encrypt : CryptoKey -> bytes -> bytes -> bytes -> option bytes;
  aes_gcm_decrypt : CryptoKey -> bytes -> bytes -> bytes -> option bytes;
  (** HKDF [deriveBits]: hash, input key, salt, info, number of bits *)
  hkdf_bits : Hash -> bytes -> bytes -> bytes -> Z -> option bytes;
  (** whether [generateKey] knows X25519; the WebCrypto exchange; the one of @noble/curves *)
  subtle_has_x25519 : bool;
  subtle_x25519 : bytes -> bytes -> option bytes;
  noble_public : bytes -> bytes;
  noble_shared : bytes -> bytes -> option bytes
}.

Class WebCryptoLaws `{WebCrypto} : Prop := {
  gcm_length k iv aad pt ct :
    aes_gcm_encrypt k iv aad pt = Some ct -> length ct = (length pt + 16)%nat;
  gcm_encrypt_total k iv aad pt :
    length iv = 12%nat -> Z.of_nat (length pt) < 2 ^ 36 - 32 ->
    is_Some (aes_gcm_encrypt k iv aad pt);
  gcm_decrypt_encrypt k iv aad pt ct :
    aes_gcm_encrypt k iv aad pt = Some ct -> aes_gcm_decrypt k iv aad ct = Some pt;
  gcm_encrypt_decrypt k iv aad pt ct :
    aes_gcm_decrypt k iv aad ct = Some pt -> aes_gcm_encrypt k iv aad pt = Some ct;
  import_aes_total raw : length raw = 16%nat \/ length raw = 32%nat -> is_Some (import_aes raw);
  hkdf_total h ikm salt info n :
    0 <= n <= 255 * 32 -> is_Some (hkdf_bits h ikm salt info (n * 8));
  hkdf_length h ikm salt info n out :
    0 <= n -> hkdf_bits h ikm salt info (n * 8) = Some out -> length out = Z.to_nat n;
  x25519_shared a b s :
    noble_shared a (noble_public b) = Some s -> noble_shared b (noble_public a) = Some s;
  x25519_same a p s :
    subtle_x25519 a p = Some s -> noble_shared a p = Some s
}.

(** A rejected promise of WebCrypto. *)
Definition settle {A} (o : option A) : res A :=
  match o with Some a => Ok a | None => Throw DomException end.
