(* ===== verification/Toy.v ===== *)
(** * Toy: a concrete instance of the WebCrypto interface

    An executable stand-in with no cryptographic strength, on which the witnesses evaluate: the
    cipher is the identity followed by a 16-byte polynomial checksum of key, nonce, additional
    data and plaintext; key derivation is the checksum of its arguments; the exchange is
    multiplication modulo 2^255 - 19. It satisfies [WebCryptoLaws]. *)
From S2P Require Import Prelude Errors WebCrypto.
From Stdlib Require Import Strings.Byte.

Definition checksum (parts : list bytes) : Z :=
  foldl (fun acc part =>
    foldl (fun acc b => (acc * 257 + b2z b + 1) mod 2 ^ 128) ((acc * 263 + 7) mod 2 ^ 128) part)
    1 parts.

Definition toy_tag (k iv aad pt : bytes) : bytes := be_bytes 16 (checksum [k; iv; aad; pt]).

Definition toy_encrypt (k iv aad pt : bytes) : option bytes := Some (pt ++ toy_tag k iv aad pt).

Definition toy_decrypt (k iv aad ct : bytes) : option bytes :=
  let n := (length ct - 16)%nat in
  let pt := take n ct in
  if bool_decide (drop n ct = toy_tag k iv aad pt) then Some pt else None.

Definition toy_prime : Z := 2 ^ 255 - 19.

Definition toy_public (a : bytes) : bytes := be_bytes 32 (9 * be_value a mod toy_prime).

Definition toy_shared (a p : bytes) : option bytes :=
  Some (be_bytes 32 (be_value a * be_value p mod toy_prime)).

Definition toy_import (raw : bytes) : option bytes :=
  if bool_decide (length raw ∈ [16; 24; 32]%nat) then Some raw else None.

Definition toy_hkdf (h : Hash) (ikm salt info : bytes) (bits : Z) : option bytes :=
  let hb := match h with SHA_256 => [x00] | SHA_512 => [x01] end in
  Some (be_bytes (Z.to_nat (bits / 8)) (checksum [hb; ikm; salt; info])).

#[export] Instance toy : WebCrypto := {|
  CryptoKey := bytes;
  import_aes := toy_import;
  aes_gcm_encrypt := toy_encrypt;
  aes_gcm_decrypt := toy_decrypt;
  hkdf_bits := toy_hkdf;
  subtle_has_x25519 := false;
  subtle_x25519 := fun _ _ => None;
  noble_public := toy_public;
  noble_shared := toy_shared
|}.

Lemma toy_tag_length k iv aad pt : length (toy_tag k iv aad pt) = 16%nat.
Proof. apply length_be_bytes. Qed.

Lemma toy_public_value b : be_value (toy_public b) = 9 * be_value b mod toy_prime.
Proof.
  assert (0 <= 9 * be_value b mod toy_prime < toy_prime) as Hr by (by apply Z.mod_pos_bound).
  unfold toy_public. rewrite be_value_be_bytes by apply Hr. apply Z.mod_small.
  split; [apply Hr|]. eapply Z.lt_trans; [apply Hr|done].
Qed.

#[export] Instance toy_laws : WebCryptoLaws.
Proof.
  split; cbn [import_aes aes_gcm_encrypt aes_gcm_decrypt hkdf_bits noble_shared noble_public subtle_x25519 toy].
  - intros k iv aad pt ct [= <-]. by rewrite length_app, toy_tag_length.
  - intros k iv aad pt _ _. by eexists.
  - intros k iv aad pt ct [= <-]. unfold toy_decrypt.
    rewrite length_app, toy_tag_length, Nat.add_sub, take_app_exact, drop_app_exact by done.
    by rewrite bool_decide_eq_true_2.
  - intros k iv aad pt ct. unfold toy_decrypt, toy_encrypt. case_bool_decide as Hd; [|done].
    intros [= <-]. rewrite <- Hd. by rewrite take_drop.
  - intros raw Hl. unfold toy_import. rewrite bool_decide_eq_true_2; [by eexists|].
    destruct Hl as [->| ->]; set_solver.
  - intros h ikm salt info n _. by eexists.
  - intros h ikm salt info n out Hn [= <-]. rewrite length_be_bytes.
    by rewrite Z.div_mul.
  - intros a b s [= <-]. unfold toy_shared. rewrite !toy_public_value.
    rewrite !Z.mul_mod_idemp_r by done.
    by replace (be_value a * (9 * be_value b)) with (be_value b * (9 * be_value a)) by lia.
  - done.
Qed.

(** A byte string for examples. *)
Definition demo_bytes (n : nat) (seed : Z) : bytes := be_bytes n (seed * 2 ^ 70 + 12345).
