(* ===== verification/Crypto.v ===== *)
(** * Crypto: the key schedule (src/ratchet-crypto.ts, and newIdentity and wrapChainKeyForPeer of
    src/ratchet-ids.ts)

    The definitions are over the interface [WebCrypto]. Random bytes ([crypto.getRandomValues],
    key generation) are arguments. *)
From S2P Require Import Prelude Errors Internal Header Kid WebCrypto Toy.

(** ** Cipher suites *)

Inductive CipherSuite := AES_128_GCM_SHA256 | AES_256_GCM_SHA512.

Definition DEFAULT_CIPHER_SUITE : CipherSuite := AES_128_GCM_SHA256.

Record SuiteParams := mkSuiteParams {
  hash : Hash;
  aeadKeyBytes : Z;
  chainKeyBytes : Z
}.

Definition suiteParams (suite : CipherSuite) : SuiteParams :=
  match suite with
  | AES_128_GCM_SHA256 => {| hash := SHA_256; aeadKeyBytes := 16; chainKeyBytes := 32 |}
  | AES_256_GCM_SHA512 => {| hash := SHA_512; aeadKeyBytes := 32; chainKeyBytes := 64 |}
  end.

Definition SFRAME_SALT_BYTES : Z := 12.

Definition INFO_WRAP (version : Z) : bytes :=
  textEncode ("oxpulse/sframe/v1/epoch-wrap/" +:+ pretty version).

Definition SFRAME_INFO_RATCHET_STEP : bytes := textEncode "sframe/v1/ratchet-step".

(** The members of [EpochAnnouncement] (src/types.ts). *)
Record EpochAnnouncement := mkAnnouncement {
  version : Z;
  from : string;
  forPeer : string;
  keyWrapped : bytes;
  wrap_iv : bytes;
  ephemeralPub : bytes;
  peerIndexMap : list (string * jsnum)
}.

Record PeerIdentity := mkPeerIdentity {
  peerId : string;
  publicKey : bytes
}.

Record IdentityKeyPair := mkIdentity {
  id_peerId : string;
  id_publicKey : bytes;
  id_privateKey : bytes
}.

Section Crypto.
Context `{WebCrypto}.

(** [SFrameKey] of src/types.ts. *)
Record SFrameKey := mkSFrameKey {
  key_kid : Z;
  key_epoch : Z;
  key_peerIndex : Z;
  cryptoKey : CryptoKey;
  salt : bytes
}.

(** [SFrameKey & { rawKey: Uint8Array }] *)
Record SenderKey := mkSenderKey {
  sframe_key :> SFrameKey;
  rawKey : bytes
}.

(** ** X25519 *)

(** The module variable [webCryptoX25519] caches the probe. *)
Definition hasWebCryptoX25519 (webCryptoX25519 : option bool) : bool * option bool :=
  match webCryptoX25519 with
  | Some b => (b, webCryptoX25519)
  | None => (subtle_has_x25519, Some subtle_has_x25519)
  end.

(** A keypair from the secret that the generator drew. *)
Definition generateX25519Keypair (secret : bytes) : bytes * bytes := (noble_public secret, secret).

Definition x25519Dh (webCryptoX25519 : option bool) (privateKey peerPublicKey : bytes) : res bytes :=
  let fallback :=
    match noble_shared privateKey peerPublicKey with
    | Some s => Ok s
    | None => Throw (GenericError "x25519Dh: WebCrypto X25519 unavailable and @noble/curves fallback failed")
    end in
  if (hasWebCryptoX25519 webCryptoX25519).1 then
    match subtle_x25519 privateKey peerPublicKey with
    | Some s => Ok s
    | None => fallback
    end
  else fallback.

(** ** HKDF and key wrap *)

Definition importAesKey (raw : bytes) : res CryptoKey := settle (import_aes raw).

Definition hkdfExtractExpand (ikm info : bytes) (length : Z) (hash : Hash) : res bytes :=
  settle (hkdf_bits hash ikm [] info (length * 8)).

Definition deriveWrapKey (shared : bytes) (version : Z) : res CryptoKey :=
  raw ← hkdfExtractExpand shared (INFO_WRAP version) 32 SHA_256;
  importAesKey raw.

(** [iv] is the fresh random nonce. *)
Definition wrapChainKey (iv chainKey : bytes) (wrapKey : CryptoKey) : res (bytes * bytes) :=
  ct ← settle (aes_gcm_encrypt wrapKey iv [] chainKey);
  mret (ct, iv).

Definition unwrapChainKey (ciphertext iv : bytes) (wrapKey : CryptoKey) : res bytes :=
  settle (aes_gcm_decrypt wrapKey iv [] ciphertext).

Definition newIdentity (secret : bytes) (peerId : string) : IdentityKeyPair :=
  let kp := generateX25519Keypair secret in
  {| id_peerId := peerId; id_publicKey := kp.1; id_privateKey := kp.2 |}.

(** The announcement and the DH secret, from the ephemeral secret and the nonce drawn. *)
Definition wrapChainKeyForPeer (webCryptoX25519 : option bool) (secret iv : bytes)
    (fromPeerId : string) (peer : PeerIdentity) (chainKey : bytes) (version : Z)
    (peerIndexMap : list (string * jsnum)) : res (EpochAnnouncement * bytes) :=
  let ephemeral := generateX25519Keypair secret in
  shared ← x25519Dh webCryptoX25519 ephemeral.2 (publicKey peer);
  wrapKey ← deriveWrapKey shared version;
  '(ciphertext, iv) ← wrapChainKey iv chainKey wrapKey;
  mret ({| version := version; from := fromPeerId; forPeer := peerId peer;
           keyWrapped := ciphertext; wrap_iv := iv; ephemeralPub := ephemeral.1;
           peerIndexMap := peerIndexMap |}, shared).

(** ** Per-sender keys *)

Definition deriveSenderKeys (chainKey : bytes) (epoch peerIndex : Z) (suite : CipherSuite)
    (kidCodec : KidCodec) : res SenderKey :=
  let params := suiteParams suite in
  if negb (Z.of_nat (length chainKey) =? chainKeyBytes params)
  then Throw (GenericError "ratchet: chain key has the wrong length for the suite") else
  keyInfo ← hkdfInfo SFRAME_INFO_KEY (JsInt peerIndex);
  saltInfo ← hkdfInfo SFRAME_INFO_SALT (JsInt peerIndex);
  keyRaw ← hkdfExtractExpand chainKey keyInfo (aeadKeyBytes params) (hash params);
  salt ← hkdfExtractExpand chainKey saltInfo SFRAME_SALT_BYTES (hash params);
  cryptoKey ← importAesKey keyRaw;
  kid ← encode kidCodec epoch peerIndex;
  mret (mkSenderKey (mkSFrameKey kid epoch peerIndex cryptoKey salt) keyRaw).

(** The values of the index map in order; a later entry of the [Map] replaces an earlier one. *)
Fixpoint deriveEntries (chainKey : bytes) (epoch : Z) (values : list Z) (suite : CipherSuite)
    (kidCodec : KidCodec) : res (list (Z * SenderKey)) :=
  match values with
  | [] => Ok []
  | idx :: values =>
      key ← deriveSenderKeys chainKey epoch idx suite kidCodec;
      rest ← deriveEntries chainKey epoch values suite kidCodec;
      mret ((idx, key) :: rest)
  end.

Definition map_of_entries {V} (l : list (Z * V)) : gmap Z V :=
  foldl (fun m e => <[e.1 := e.2]> m) ∅ l.

Definition deriveEpochKeyTable (chainKey : bytes) (epoch : Z) (peerIndexMap : list (string * Z))
    (suite : CipherSuite) (kidCodec : KidCodec) : res (gmap Z SenderKey) :=
  entries ← deriveEntries chainKey epoch peerIndexMap.*2 suite kidCodec;
  mret (map_of_entries entries).

(** The chain key is the [chainKeyBytes] random bytes drawn. *)
Definition randomChainKey (random : nat -> bytes) (suite : CipherSuite) : bytes :=
  random (Z.to_nat (chainKeyBytes (suiteParams suite))).

Definition deriveNextSenderKey (rawKey salt : bytes) (epoch peerIndex : Z) (suite : CipherSuite)
    (kidCodec : KidCodec) : res SenderKey :=
  let params := suiteParams suite in
  info ← hkdfInfo SFRAME_INFO_RATCHET_STEP (JsInt peerIndex);
  nextRaw ← hkdfExtractExpand rawKey info (aeadKeyBytes params) (hash params);
  cryptoKey ← importAesKey nextRaw;
  kid ← encode kidCodec epoch peerIndex;
  mret (mkSenderKey (mkSFrameKey kid epoch peerIndex cryptoKey salt) nextRaw).

End Crypto.

(** ** Lemmas: HKDF info strings *)

Lemma js_and_ff a : 0 <= a < 2 ^ 31 -> js_and a 0xff = a mod 256.
Proof.
  intros Ha. unfold js_and. change (to_int32 0xff) with (Z.ones 8).
  rewrite (to_int32_small a), Z.land_ones by lia. apply to_int32_small.
  pose proof (Z.mod_pos_bound a 256). change (2 ^ 8) with 256. lia.
Qed.

Lemma peerIndexBe16_ok p : 0 <= p <= 0xffff -> peerIndexBe16 (JsInt p) = Ok (be_bytes 2 p).
Proof.
  intros Hp. unfold peerIndexBe16.
  destruct (Z.ltb_spec p 0); [lia|]. destruct (Z.ltb_spec 0xffff p); [lia|]. cbn [orb].
  assert (js_ushr p 8 = p / 256) as ->.
  { unfold js_ushr. rewrite to_uint32_small by lia. change (8 mod 32) with 8.
    by rewrite Z.shiftr_div_pow2. }
  assert (0 <= p / 256 < 256) by (split; [apply Z.div_pos|apply Z.div_lt_upper_bound]; lia).
  rewrite !js_and_ff by lia. cbn [be_bytes app]. by rewrite !z2b_mod.
Qed.

Lemma peerIndexBe16_inv p bs :
  peerIndexBe16 p = Ok bs -> exists z, p = JsInt z /\ 0 <= z <= 0xffff.
Proof.
  unfold peerIndexBe16. destruct p as [z|]; [|done].
  destruct (Z.ltb_spec z 0); [done|]. destruct (Z.ltb_spec 0xffff z); [done|]. eauto.
Qed.

Lemma hkdfInfo_ok base p : 0 <= p <= 0xffff -> hkdfInfo base (JsInt p) = Ok (base ++ be_bytes 2 p).
Proof.
  intros Hp. unfold hkdfInfo. rewrite peerIndexBe16_ok by done. apply concat2_spec.
Qed.

Lemma hkdfInfo_inv base p info :
  hkdfInfo base p = Ok info ->
  exists z, p = JsInt z /\ 0 <= z <= 0xffff /\ info = base ++ be_bytes 2 z.
Proof.
  intros Hi. pose proof Hi as Hi'. unfold hkdfInfo in Hi'.
  destruct (peerIndexBe16 p) as [be|] eqn:E; [|done].
  apply peerIndexBe16_inv in E as (z & -> & Hz). exists z.
  rewrite hkdfInfo_ok in Hi by done. by apply Ok_inj in Hi as <-.
Qed.

Lemma be_bytes_2_inj p q : 0 <= p <= 0xffff -> 0 <= q <= 0xffff -> be_bytes 2 p = be_bytes 2 q -> p = q.
Proof.
  intros Hp Hq E%(f_equal be_value). rewrite !be_value_be_bytes in E by lia.
  change (256 ^ Z.of_nat 2) with 65536 in E. rewrite !Z.mod_small in E; lia.
Qed.

(** The labels of the per-sender key schedule. *)
Definition sender_labels : list bytes :=
  [SFRAME_INFO_KEY; SFRAME_INFO_SALT; SFRAME_INFO_RATCHET_STEP].

(** ** Lemmas: announcements *)

(** What [wrapChainKeyForPeer] produces. *)
Lemma wrap_fields `{WebCrypto} cache secret iv fromId peer ck v m ann dh :
  wrapChainKeyForPeer cache secret iv fromId peer ck v m = Ok (ann, dh) ->
  version ann = v /\ from ann = fromId /\ forPeer ann = peerId peer /\ peerIndexMap ann = m.
Proof.
  unfold wrapChainKeyForPeer. destruct (x25519Dh _ _ _) as [s|]; [|done]. cbn.
  destruct (deriveWrapKey _ _) as [key|]; [|done]. cbn.
  destruct (wrapChainKey _ _ _) as [[ct iv']|]; [|done]. cbn.
  intros E%Ok_inj. by injection E as <- _.
Qed.

(** ** Lemmas: derived keys *)

Section Derived.
Context `{WebCryptoLaws}.

(** What every sender key of the library satisfies. *)
Record key_wf (c : KidCodec) (suite : CipherSuite) (epoch peerIndex : Z) (k : SenderKey) : Prop := {
  kw_kid : encode c epoch peerIndex = Ok (key_kid k);
  kw_epoch : key_epoch k = epoch;
  kw_peerIndex : key_peerIndex k = peerIndex;
  kw_key : import_aes (rawKey k) = Some (cryptoKey k);
  kw_raw : Z.of_nat (length (rawKey k)) = aeadKeyBytes (suiteParams suite);
  kw_salt : length (salt k) = 12%nat
}.

Lemma settle_inv {A} (o : option A) a : settle o = Ok a -> o = Some a.
Proof. destruct o; simpl; [by intros <-%Ok_inj|done]. Qed.

Lemma suite_bytes suite : 0 <= aeadKeyBytes (suiteParams suite).
Proof. by destruct suite. Qed.

Lemma hkdf_len ikm info n h out :
  0 <= n -> hkdfExtractExpand ikm info n h = Ok out -> length out = Z.to_nat n.
Proof. intros Hn Hh%settle_inv. by eapply hkdf_length. Qed.

Lemma deriveSenderKeys_wf chainKey epoch pi suite c k :
  deriveSenderKeys chainKey epoch pi suite c = Ok k ->
  key_wf c suite epoch pi k /\ 0 <= pi <= 0xffff /\
  Z.of_nat (length chainKey) = chainKeyBytes (suiteParams suite).
Proof.
  unfold deriveSenderKeys.
  destruct (Z.eqb_spec (Z.of_nat (length chainKey)) (chainKeyBytes (suiteParams suite))) as [Hl|];
    [|done]. cbn [negb].
  destruct (hkdfInfo SFRAME_INFO_KEY _) as [ki|] eqn:E1; [|done]. cbn [mbind result_bind].
  destruct (hkdfInfo SFRAME_INFO_SALT _) as [si|] eqn:E2; [|done]. cbn [mbind result_bind].
  destruct (hkdfExtractExpand chainKey ki _ _) as [raw|] eqn:E3; [|done]. cbn [mbind result_bind].
  destruct (hkdfExtractExpand chainKey si _ _) as [sa|] eqn:E4; [|done]. cbn [mbind result_bind].
  destruct (importAesKey raw) as [ck|] eqn:E5; [|done]. cbn [mbind result_bind].
  destruct (encode c epoch pi) as [kid|] eqn:E6; [|done]. cbn [mbind result_bind mret result_ret].
  intros <-%Ok_inj. apply hkdfInfo_inv in E1 as (z & [= <-] & Hz & _).
  apply hkdf_len in E3; [|apply suite_bytes]. apply hkdf_len in E4; [|done].
  split; [|done]. split; simpl; try done.
  - by apply settle_inv.
  - rewrite E3. pose proof (suite_bytes suite). lia.
Qed.


Lemma deriveSenderKeys_total ck epoch pi suite c kid :
  Z.of_nat (length ck) = chainKeyBytes (suiteParams suite) -> 0 <= pi <= 0xffff ->
  encode c epoch pi = Ok kid -> exists k, deriveSenderKeys ck epoch pi suite c = Ok k.
Proof.
  intros Hl Hp Hk. unfold deriveSenderKeys. rewrite Hl, Z.eqb_refl. cbn [negb].
  rewrite !hkdfInfo_ok by done. cbn [mbind result_bind].
  assert (forall info n h, 0 <= n <= 64 -> exists out,
    hkdfExtractExpand ck info n h = Ok out /\ length out = Z.to_nat n) as Hh.
  { intros info n h Hn. destruct (hkdf_total h ck [] info n) as [out E]; [lia|].
    exists out. unfold hkdfExtractExpand. rewrite E. split; [done|].
    eapply hkdf_length; [|done]. lia. }
  destruct (Hh (SFRAME_INFO_KEY ++ be_bytes 2 pi) (aeadKeyBytes (suiteParams suite))
    (hash (suiteParams suite))) as (raw & -> & Hr); [destruct suite; done|].
  destruct (Hh (SFRAME_INFO_SALT ++ be_bytes 2 pi) SFRAME_SALT_BYTES
    (hash (suiteParams suite))) as (sa & -> & _); [done|]. cbn [mbind result_bind].
  destruct (import_aes_total raw) as [k Ek]; [rewrite Hr; destruct suite; simpl; auto|].
  unfold importAesKey. rewrite Ek. cbn [settle mbind result_bind].
  rewrite Hk. by eexists.
Qed.

Lemma deriveNextSenderKey_wf raw sa epoch pi suite c k :
  length sa = 12%nat ->
  deriveNextSenderKey raw sa epoch pi suite c = Ok k ->
  key_wf c suite epoch pi k /\ salt k = sa.
Proof.
  unfold deriveNextSenderKey. intros Hs.
  destruct (hkdfInfo _ _) as [ki|] eqn:E1; [|done]. cbn [mbind result_bind].
  destruct (hkdfExtractExpand raw ki _ _) as [nr|] eqn:E3; [|done]. cbn [mbind result_bind].
  destruct (importAesKey nr) as [ck|] eqn:E5; [|done]. cbn [mbind result_bind].
  destruct (encode c epoch pi) as [kid|] eqn:E6; [|done]. cbn [mbind result_bind mret result_ret].
  intros <-%Ok_inj. apply hkdf_len in E3; [|apply suite_bytes].
  split; [|done]. split; simpl; try done.
  - by apply settle_inv.
  - rewrite E3. pose proof (suite_bytes suite). lia.
Qed.

Lemma map_of_entries_snoc {V} (l : list (Z * V)) e :
  map_of_entries (l ++ [e]) = <[e.1 := e.2]> (map_of_entries l).
Proof. unfold map_of_entries. by rewrite foldl_app. Qed.

Lemma map_of_entries_lookup {V} (l : list (Z * V)) k v :
  map_of_entries l !! k = Some v -> (k, v) ∈ l.
Proof.
  induction l as [|[k' v'] l IH] using rev_ind.
  { change (map_of_entries []) with (∅ : gmap Z V). by rewrite lookup_empty. }
  rewrite map_of_entries_snoc. simpl. intros [[-> ->]|[Hne Hk]]%lookup_insert_Some; set_solver.
Qed.

Lemma map_of_entries_is_Some {V} (l : list (Z * V)) k :
  is_Some (map_of_entries l !! k) <-> k ∈ l.*1.
Proof.
  induction l as [|[k' v'] l IH] using rev_ind.
  { change (map_of_entries []) with (∅ : gmap Z V). rewrite lookup_empty.
    split; [by intros [? ?]|set_solver]. }
  rewrite map_of_entries_snoc, fmap_app. simpl.
  rewrite lookup_insert_is_Some, IH. set_unfold. destruct (decide (k' = k)); naive_solver.
Qed.

Lemma deriveEntries_inv chainKey epoch values suite c l :
  deriveEntries chainKey epoch values suite c = Ok l ->
  l.*1 = values /\ forall i k, (i, k) ∈ l -> deriveSenderKeys chainKey epoch i suite c = Ok k.
Proof.
  revert l. induction values as [|v values IH]; intros l; simpl.
  { intros <-%Ok_inj. split; [done|set_solver]. }
  destruct (deriveSenderKeys _ _ v _ _) as [k|] eqn:E; [|done]. cbn [mbind result_bind].
  destruct (deriveEntries _ _ _ _ _) as [rest|]; [|done]. cbn [mbind result_bind mret result_ret].
  intros <-%Ok_inj. destruct (IH rest eq_refl) as [Hv Hr]. csimpl. rewrite Hv. split; [done|].
  intros i k' [[= -> ->]|Hin]%elem_of_cons; [done|by apply Hr].
Qed.

Lemma deriveEpochKeyTable_lookup chainKey epoch m suite c table :
  deriveEpochKeyTable chainKey epoch m suite c = Ok table ->
  (forall i, is_Some (table !! i) <-> i ∈ m.*2) /\
  (forall i k, table !! i = Some k -> deriveSenderKeys chainKey epoch i suite c = Ok k).
Proof.
  unfold deriveEpochKeyTable. destruct (deriveEntries _ _ _ _ _) as [l|] eqn:E; [|done].
  intros <-%Ok_inj. apply deriveEntries_inv in E as [Hv Hl]. split.
  - intros i. by rewrite map_of_entries_is_Some, Hv.
  - intros i k Hk%map_of_entries_lookup. by apply Hl.
Qed.

(** Both ends of an exchange compute the same secret, whichever backend each uses. *)
Lemma x25519Dh_agree cache1 cache2 a b s :
  x25519Dh cache1 a (noble_public b) = Ok s ->
  x25519Dh cache2 b (noble_public a) = Ok s.
Proof.
  unfold x25519Dh. intros H1.
  assert (noble_shared a (noble_public b) = Some s) as Ha.
  { destruct (hasWebCryptoX25519 cache1).1; [destruct (subtle_x25519 _ _) eqn:E|].
    - apply Ok_inj in H1 as <-. by apply x25519_same.
    - destruct (noble_shared _ _); [by apply Ok_inj in H1 as <-|done].
    - destruct (noble_shared _ _); [by apply Ok_inj in H1 as <-|done]. }
  apply x25519_shared in Ha. rewrite Ha.
  destruct (hasWebCryptoX25519 cache2).1; [|done].
  destruct (subtle_x25519 b _) eqn:E.
  - apply x25519_same in E. congruence.
  - done.
Qed.

Lemma wrap_unwrap iv ck k ct iv' :
  wrapChainKey iv ck k = Ok (ct, iv') -> unwrapChainKey ct iv' k = Ok ck.
Proof.
  unfold wrapChainKey, unwrapChainKey.
  destruct (aes_gcm_encrypt _ _ _ _) eqn:E; [|done]. cbn.
  intros [= <- <-]%Ok_inj. by rewrite (gcm_decrypt_encrypt _ _ _ _ _ E).
Qed.

(** How the holder of the peer's secret opens an announcement. *)
Lemma wrap_opens cache1 cache2 secret iv mySecret fromId peer ck v m ann dh :
  publicKey peer = noble_public mySecret ->
  wrapChainKeyForPeer cache1 secret iv fromId peer ck v m = Ok (ann, dh) ->
  x25519Dh cache2 mySecret (ephemeralPub ann) = Ok dh /\
  exists key, deriveWrapKey dh v = Ok key /\
    unwrapChainKey (keyWrapped ann) (wrap_iv ann) key = Ok ck.
Proof.
  intros Hpub. unfold wrapChainKeyForPeer, generateX25519Keypair. rewrite Hpub. cbn.
  destruct (x25519Dh _ _ _) as [s|] eqn:Edh; [|done]. cbn.
  destruct (deriveWrapKey _ _) as [key|] eqn:Ek; [|done]. cbn.
  destruct (wrapChainKey _ _ _) as [[ct iv']|] eqn:Ew; [|done]. cbn.
  intros E%Ok_inj. injection E as <- <-. cbn.
  split; [by eapply x25519Dh_agree|]. exists key. split; [done|]. by eapply wrap_unwrap.
Qed.

End Derived.

(** ** Properties *)

(** Domain separation of the HKDF inputs: two info strings of the per-sender schedule are
    equal only for the same label (key, salt or ratchet step) and the same peer index, and none
    of them is the info string of an epoch-wrap key. *)
Theorem hkdf_info_separated (l1 l2 : bytes) (p1 p2 : jsnum) (i1 i2 : bytes)
    (Hl1 : l1 ∈ sender_labels) (Hl2 : l2 ∈ sender_labels)
    (H1 : hkdfInfo l1 p1 = Ok i1) (H2 : hkdfInfo l2 p2 = Ok i2) :
  (i1 = i2 -> l1 = l2 /\ p1 = p2) /\ (forall v, i1 <> INFO_WRAP v).
Proof.
  apply hkdfInfo_inv in H1 as (z1 & -> & Hz1 & ->). apply hkdfInfo_inv in H2 as (z2 & -> & Hz2 & ->).
  split.
  - intros E. assert (length l1 = length l2) as Hl.
    { apply (f_equal length) in E. rewrite !length_app, !length_be_bytes in E. lia. }
    apply app_inj_length in E as [-> E]; [|done].
    split; [done|]. by rewrite (be_bytes_2_inj _ _ Hz1 Hz2 E).
  - intros v E. apply (f_equal (take 1)) in E.
    change (take 1 (INFO_WRAP v)) with (textEncode "o") in E.
    unfold sender_labels in Hl1. rewrite list_elem_of_In in Hl1. simpl In in Hl1.
    destruct Hl1 as [<-|[<-|[<-|[]]]]; vm_compute in E; discriminate E.
Qed.

Lemma hkdf_info_separated_witness :
  match hkdfInfo SFRAME_INFO_KEY (JsInt 1), hkdfInfo SFRAME_INFO_KEY (JsInt 256) with
  | Ok i1, Ok i2 => i1 <> i2
  | _, _ => False
  end.
Proof.
  destruct (hkdfInfo SFRAME_INFO_KEY (JsInt 1)) as [i1|] eqn:E1; [|vm_compute in E1; discriminate E1].
  destruct (hkdfInfo SFRAME_INFO_KEY (JsInt 256)) as [i2|] eqn:E2; [|vm_compute in E2; discriminate E2].
  intros E. assert (SFRAME_INFO_KEY ∈ sender_labels) as Hk by (apply elem_of_cons; by left).
  destruct (proj1 (hkdf_info_separated _ _ _ _ _ _ Hk Hk E1 E2) E) as [_ Hp]. discriminate Hp.
Defined.


Definition demo_chain : bytes := demo_bytes 32 5.
Definition demo_key (epoch peerIndex : Z) : res (SenderKey (H := toy)) :=
  deriveSenderKeys demo_chain epoch peerIndex AES_128_GCM_SHA256 FIXED_KID_CODEC.


(** The epoch key table has exactly the peer indices of the announcement, each with the key
    that sender derives for itself; if any derivation fails no table is built. *)
Theorem epoch_key_table_spec `{WebCryptoLaws} (chainKey : bytes) (epoch : Z)
    (m : list (string * Z)) (suite : CipherSuite) (c : KidCodec) (table : gmap Z SenderKey)
    (Ht : deriveEpochKeyTable chainKey epoch m suite c = Ok table) (idx : Z) :
  table !! idx = if bool_decide (idx ∈ m.*2)
                 then result_option (deriveSenderKeys chainKey epoch idx suite c) else None.
Proof.
  apply deriveEpochKeyTable_lookup in Ht as [Hdom Hk]. case_bool_decide as Hin.
  - apply Hdom in Hin as [k Ek]. by rewrite Ek, (Hk _ _ Ek).
  - apply eq_None_not_Some. by rewrite Hdom.
Qed.

Lemma epoch_key_table_spec_witness :
  match deriveEpochKeyTable (H := toy) demo_chain 3 [("alice", 0); ("bob", 1)]%string
          AES_128_GCM_SHA256 FIXED_KID_CODEC with
  | Ok t => t !! 1 = result_option (demo_key 3 1) /\ t !! 2 = None
  | Throw _ => False
  end.
Proof.
  destruct (is_ok_ex (deriveEpochKeyTable (H := toy) demo_chain 3 [("alice", 0); ("bob", 1)]%string
    AES_128_GCM_SHA256 FIXED_KID_CODEC)) as [t E]; [vm_compute; reflexivity|]. rewrite E.
  rewrite !(epoch_key_table_spec _ _ _ _ _ _ E). split; reflexivity.
Defined.

(** Key wrap: the chain key that [wrapChainKeyForPeer] wraps for the holder of an X25519
    secret is what that peer unwraps from the announcement, with the same DH secret on both
    sides (the one the SAS is derived from), whichever X25519 backend each side uses. *)
Theorem wrap_unwrap_roundtrip `{WebCryptoLaws} (cache1 cache2 : option bool)
    (secret iv mySecret : bytes) (fromId myId : string) (chainKey : bytes) (v : Z)
    (m : list (string * jsnum)) (ann : EpochAnnouncement) (dh : bytes)
    (Hw : wrapChainKeyForPeer cache1 secret iv fromId
            (mkPeerIdentity myId (id_publicKey (newIdentity mySecret myId))) chainKey v m
          = Ok (ann, dh)) :
  version ann = v /\ forPeer ann = myId /\ peerIndexMap ann = m /\
  (shared ← x25519Dh cache2 (id_privateKey (newIdentity mySecret myId)) (ephemeralPub ann);
   key ← deriveWrapKey shared (version ann);
   ck ← unwrapChainKey (keyWrapped ann) (wrap_iv ann) key;
   mret (shared, ck)) = Ok (dh, chainKey).
Proof.
  destruct (wrap_fields _ _ _ _ _ _ _ _ _ _ Hw) as (Hv & _ & Hf & Hm).
  edestruct (wrap_opens cache1 cache2) as (Hdh & key & Hk & Hu); [|exact Hw|]; [reflexivity|].
  split_and!; [done..|]. cbn. rewrite Hdh. cbn. rewrite Hv, Hk. cbn. by rewrite Hu.
Qed.

Lemma wrap_unwrap_roundtrip_witness :
  match wrapChainKeyForPeer (H := toy) None (demo_bytes 32 3) (demo_bytes 12 1) "alice"
          (mkPeerIdentity "bob" (id_publicKey (newIdentity (demo_bytes 32 4) "bob")))
          demo_chain 3 [("alice", JsInt 0); ("bob", JsInt 1)]%string with
  | Ok (ann, dh) => version ann = 3 /\ forPeer ann = "bob"%string
  | Throw _ => False
  end.
Proof.
  destruct (is_ok_ex (wrapChainKeyForPeer (H := toy) None (demo_bytes 32 3) (demo_bytes 12 1) "alice"
    (mkPeerIdentity "bob" (id_publicKey (newIdentity (demo_bytes 32 4) "bob")))
    demo_chain 3 [("alice", JsInt 0); ("bob", JsInt 1)]%string)) as [[ann dh] E]; [vm_compute; reflexivity|].
  rewrite E.
  destruct (wrap_unwrap_roundtrip _ (Some true) _ _ _ _ _ _ _ _ _ _ E) as (H1 & H2 & _).
  by split.
Defined.
