(* ===== verification/Codec.v ===== *)
(** * Codec: codec-aware partial encryption and the SIF trailer (src/codec-partial.ts,
    src/sif-trailer.ts, and the two enumerations of src/worker-types.ts) *)
From S2P Require Import Prelude Errors.
From Stdlib Require Import Strings.Byte.

(** The values of [Codec]; the [default] branch of the source is the absent codec. *)
Inductive Codec := vp8 | vp9 | h264 | av1 | opus.
(** 'key' and 'inter' *)
Inductive FrameKind := kind_key | kind_inter.

#[export] Instance Codec_eq_dec : EqDecision Codec.
Proof. solve_decision. Defined.
#[export] Instance FrameKind_eq_dec : EqDecision FrameKind.
Proof. solve_decision. Defined.

Definition getUnencryptedBytes (codec : option Codec) (frameKind : option FrameKind) : nat :=
  match codec with
  | Some vp8 => if bool_decide (frameKind = Some kind_key) then 10 else 3
  | Some h264 => 1
  | Some opus => 1
  | Some vp9 => 0
  | Some av1 => 0
  | None => 0
  end%nat.

(** [RTCEncodedVideoFrame.type]: 'key', 'delta', or absent or another value. *)
Definition frameKindOf (rawType : option string) : option FrameKind :=
  if bool_decide (rawType = Some "key"%string) then Some kind_key
  else if bool_decide (rawType = Some "delta"%string) then Some kind_inter
  else None.

(** S I F T R A I L R *)
Definition DEFAULT_SIF_TRAILER : bytes :=
  [x53; x49; x46; x54; x52; x41; x49; x4c; x52].

Definition getDefaultSifTrailer : bytes := DEFAULT_SIF_TRAILER.
