(* ===== verification/SFrame.v ===== *)
(** * SFrame: sealing and opening one frame (src/sframe.ts)

    The AES-GCM call is the interface [WebCrypto]; everything around it (nonce, additional data,
    header, key lookup, error mapping) is the source's. *)
From S2P Require Import Prelude Errors Internal Header Kid WebCrypto Toy Crypto.
From Stdlib Require Import Strings.Byte.

Definition AEAD_TAG_BYTES : nat := 16.
Definition IV_BYTES : nat := 12.

(** 'header', 'prefix', 'canonical' *)
Inductive AadForm := aad_header | aad_prefix | aad_canonical.

#[export] Instance AadForm_eq_dec : EqDecision AadForm.
Proof. solve_decision. Defined.

Definition buildAad (aadPrefix : option bytes) (header : bytes) (form : AadForm) : res bytes :=
  let plen := match aadPrefix with Some p => length p | None => 0%nat end in
  match form with
  | aad_header => Ok header
  | aad_prefix =>
      match aadPrefix with
      | Some p =>
          if (plen =? 0)%nat then Ok header else
          aad ← u8_set (zeros (plen + length header)) 0 p;
          u8_set aad plen header
      | None => Ok header
      end
  | aad_canonical =>
      let aad := <[1%nat := z2b (js_and (Z.of_nat plen) 0xff)]>
                 (<[0%nat := z2b (js_and (js_shr (Z.of_nat plen) 8) 0xff)]>
                  (zeros (2 + plen + length header))) in
      aad ← match aadPrefix with
            | Some p => if (0 <? plen)%nat then u8_set aad 2 p else Ok aad
            | None => Ok aad
            end;
      u8_set aad (2 + plen) header
  end.

(** [for (i = 11; i >= 0 && v > 0n; i--) iv[i] = v & 0xff] over a zeroed array of [n] bytes. *)
Fixpoint iv_loop (n : nat) (v : Z) (out : bytes) : bytes :=
  match n with
  | O => out
  | S n =>
      if 0 <? v then iv_loop n (Z.shiftr v 8) (z2b (Z.land v 0xff) :: out)
      else zeros (S n) ++ out
  end.

Definition xor_bytes (a b : bytes) : bytes := zip_with (fun x y => z2b (Z.lxor (b2z x) (b2z y))) a b.

Definition deriveIv (salt : bytes) (ctr : Z) : res bytes :=
  if negb (length salt =? IV_BYTES)%nat
  then Throw (GenericError "sframe: salt must be 12 bytes")
  else Ok (xor_bytes (iv_loop IV_BYTES ctr []) salt).

(** [SFrameKeyLookup] of src/types.ts. *)
Record SFrameKeyLookup := mkLookup {
  lk_kid : Z;
  lk_epoch : Z;
  lk_peerIndex : Z;
  lk_ctr : Z
}.

(** The [_meta] argument of [sframeDecrypt]. *)
Record DecryptMeta := mkMeta {
  meta_kidCodec : option KidCodec;
  meta_aadPrefix : option bytes;
  meta_aadForm : option AadForm
}.

Section SFrame.
Context `{WebCrypto}.

Definition sframeEncrypt (plaintext : bytes) (key : SFrameKey) (ctr : Z)
    (aadPrefix : option bytes) (aadForm : AadForm) : res bytes :=
  header ← serializeHeader (JsInt (key_kid key)) ctr;
  iv ← deriveIv (salt key) ctr;
  aad ← buildAad aadPrefix header aadForm;
  ct ← settle (aes_gcm_encrypt (cryptoKey key) iv aad plaintext);
  out ← u8_set (zeros (length header + length ct)) 0 header;
  u8_set out (length header) ct.

Definition sframeDecrypt (sframe : bytes) (resolveKey : SFrameKeyLookup -> option SFrameKey)
    (meta : DecryptMeta) : res bytes :=
  let kidCodec := default FIXED_KID_CODEC (meta_kidCodec meta) in
  let aadForm := default aad_prefix (meta_aadForm meta) in
  hdr ← parseHeader sframe;
  if (length sframe <? bodyOffset hdr + AEAD_TAG_BYTES)%nat
  then Throw (AEADAuthError (mkErrorContext (Some (kid hdr)) None None (Some (ctr hdr))))
  else
    '(epoch, peerIndex) ← decode kidCodec (kid hdr);
    match resolveKey (mkLookup (kid hdr) epoch peerIndex (ctr hdr)) with
    | None =>
        Throw (KeyNotFoundError
          (mkErrorContext (Some (kid hdr)) (Some epoch) (Some peerIndex) None))
    | Some key =>
        let header := take (bodyOffset hdr) sframe in
        let body := drop (bodyOffset hdr) sframe in
        iv ← deriveIv (salt key) (ctr hdr);
        aad ← buildAad (meta_aadPrefix meta) header aadForm;
        match aes_gcm_decrypt (cryptoKey key) iv aad body with
        | Some pt => Ok pt
        | None =>
            Throw (AEADAuthError (mkErrorContext (Some (kid hdr)) (Some epoch) (Some peerIndex)
              (Some (ctr hdr))))
        end
    end.

(** The number of bytes written, and [out] afterwards. *)
Definition sframeEncryptInto (out : bytes) (offset : nat) (header body : bytes) (key : SFrameKey)
    (ctr : Z) (aadPrefix : option bytes) (aadForm : AadForm) : res (nat * bytes) :=
  iv ← deriveIv (salt key) ctr;
  aad ← buildAad aadPrefix header aadForm;
  ct ← settle (aes_gcm_encrypt (cryptoKey key) iv aad body);
  out ← u8_set out offset header;
  out ← u8_set out (offset + length header) ct;
  mret ((length header + length ct)%nat, out).

End SFrame.

(** ** Lemmas: additional data *)

Definition prefix_bytes (aadPrefix : option bytes) : bytes := default [] aadPrefix.

Lemma js_and_shr8_byte n :
  0 <= n < 2 ^ 31 -> z2b (js_and (js_shr n 8) 0xff) = z2b (n / 256).
Proof.
  intros Hn. unfold js_shr. rewrite to_int32_small by done. change (8 mod 32) with 8.
  rewrite Z.shiftr_div_pow2 by lia. change (2 ^ 8) with 256.
  rewrite js_and_ff; [apply z2b_mod|].
  split; [apply Z.div_pos; lia|apply Z.div_lt_upper_bound; lia].
Qed.

(** The three forms, for every prefix a typed array can hold. *)
Lemma buildAad_spec p header form :
  Z.of_nat (length (prefix_bytes p)) < 2 ^ 31 ->
  buildAad p header form = Ok
    match form with
    | aad_header => header
    | aad_prefix => prefix_bytes p ++ header
    | aad_canonical => be_bytes 2 (Z.of_nat (length (prefix_bytes p))) ++ prefix_bytes p ++ header
    end.
Proof.
  intros Hlen. unfold buildAad. destruct form; [done|..].
  - destruct p as [p|]; [|done]. cbn [prefix_bytes default].
    destruct (Nat.eqb_spec (length p) 0) as [->%nil_length_inv|]; [done|].
    apply (concat2_spec p header).
  - set (pb := prefix_bytes p) in *.
    assert (match p with Some q => length q | None => 0%nat end = length pb) as -> by (by destruct p).
    set (hd := be_bytes 2 (Z.of_nat (length pb))).
    assert (<[1%nat := z2b (js_and (Z.of_nat (length pb)) 0xff)]>
             (<[0%nat := z2b (js_and (js_shr (Z.of_nat (length pb)) 8) 0xff)]>
                (zeros (2 + length pb + length header)))
            = hd ++ zeros (length pb) ++ zeros (length header)) as ->.
    { rewrite js_and_shr8_byte, js_and_ff, z2b_mod by lia. rewrite <- zeros_app. reflexivity. }
    assert (length hd = 2%nat) as Hhd by apply length_be_bytes.
    assert (match p with
            | Some q => if (0 <? length pb)%nat
                        then u8_set (hd ++ zeros (length pb) ++ zeros (length header)) 2 q
                        else Ok (hd ++ zeros (length pb) ++ zeros (length header))
            | None => Ok (hd ++ zeros (length pb) ++ zeros (length header))
            end = @Ok js_error _ (hd ++ pb ++ zeros (length header))) as ->.
    { destruct p as [q|]; [|done]. subst pb. cbn [prefix_bytes default].
      destruct q as [|b q]; [done|]. rewrite (proj2 (Nat.ltb_lt _ _)) by (simpl; lia).
      apply u8_set_mid; [done|by rewrite length_zeros]. }
    cbn [mbind result_bind]. rewrite app_assoc.
    pose proof (u8_set_mid (hd ++ pb) (zeros (length header)) [] (2 + length pb) header) as Hset.
    rewrite !app_nil_r in Hset. rewrite Hset.
    + by rewrite <- app_assoc.
    + rewrite length_app. lia.
    + by rewrite length_zeros.
Qed.

(** ** Lemmas: nonces *)

Lemma be_bytes_zero n : be_bytes n 0 = zeros n.
Proof.
  induction n as [|n IH]; [done|]. cbn [be_bytes]. change (0 / 256) with 0. rewrite IH.
  change [z2b 0] with (zeros 1). rewrite <- zeros_app. f_equal. lia.
Qed.

Lemma iv_loop_be n v out : 0 <= v -> iv_loop n v out = be_bytes n v ++ out.
Proof.
  revert v out. induction n as [|n IH]; intros v out Hv; [done|]. cbn [iv_loop].
  destruct (Z.ltb_spec 0 v).
  - rewrite shiftr_8, IH by (apply Z.div_pos; lia). cbn [be_bytes].
    by rewrite land_ff, z2b_mod, <- app_assoc.
  - assert (v = 0) as -> by lia. by rewrite be_bytes_zero.
Qed.

Lemma deriveIv_ok salt ctr :
  length salt = 12%nat -> 0 <= ctr -> deriveIv salt ctr = Ok (xor_bytes (be_bytes 12 ctr) salt).
Proof.
  intros Hs Hc. unfold deriveIv. rewrite Hs. cbn [negb Nat.eqb IV_BYTES].
  by rewrite iv_loop_be, app_nil_r.
Qed.

Lemma xor_byte_inj a b s :
  z2b (Z.lxor (b2z a) (b2z s)) = z2b (Z.lxor (b2z b) (b2z s)) -> a = b.
Proof.
  intros E%(f_equal b2z). rewrite !b2z_z2b in E.
  pose proof (lxor_bound 8 _ _ eq_refl (b2z_range a) (b2z_range s)).
  pose proof (lxor_bound 8 _ _ eq_refl (b2z_range b) (b2z_range s)).
  rewrite !Z.mod_small in E by done. apply b2z_inj.
  apply (f_equal (fun x => Z.lxor x (b2z s))) in E.
  by rewrite !Z.lxor_assoc, Z.lxor_nilpotent, !Z.lxor_0_r in E.
Qed.

Lemma xor_bytes_inj a b s :
  length a = length s -> length b = length s -> xor_bytes a s = xor_bytes b s -> a = b.
Proof.
  unfold xor_bytes. revert b s. induction a as [|x a IH]; intros [|y b] [|z s] Ha Hb E; try done.
  simpl in *. injection E as E1 E2. f_equal; [by eapply xor_byte_inj|].
  eapply IH; [|..|exact E2]; lia.
Qed.

Lemma deriveIv_inj salt c1 c2 iv :
  0 <= c1 < 2 ^ 96 -> 0 <= c2 < 2 ^ 96 -> deriveIv salt c1 = Ok iv -> deriveIv salt c2 = Ok iv ->
  c1 = c2.
Proof.
  intros Hc1 Hc2 H1 H2. assert (length salt = 12%nat) as Hs.
  { unfold deriveIv in H1. destruct (Nat.eqb_spec (length salt) IV_BYTES); done. }
  rewrite deriveIv_ok in H1, H2 by (done || lia). rewrite <- H2 in H1. apply Ok_inj in H1.
  apply xor_bytes_inj in H1; [|by rewrite length_be_bytes..].
  apply (f_equal be_value) in H1. rewrite !be_value_be_bytes in H1 by lia.
  change (256 ^ Z.of_nat 12) with (2 ^ 96) in H1. by rewrite !Z.mod_small in H1.
Qed.

(** ** Lemmas: sealing and opening *)

Section Frames.
Context `{WebCryptoLaws}.

(** What AES-GCM is asked to seal for a frame. *)
Definition seal (key : SFrameKey) (header : bytes) (ctr : Z) (p : option bytes) (form : AadForm)
    (pt : bytes) : res bytes :=
  iv ← deriveIv (salt key) ctr;
  aad ← buildAad p header form;
  settle (aes_gcm_encrypt (cryptoKey key) iv aad pt).

Lemma sframeEncrypt_seal pt key ctr p form :
  sframeEncrypt pt key ctr p form =
    (header ← serializeHeader (JsInt (key_kid key)) ctr;
     ct ← seal key header ctr p form pt;
     mret (header ++ ct)).
Proof.
  unfold sframeEncrypt, seal.
  destruct (serializeHeader _ _) as [h|]; [|done]. cbn [mbind result_bind].
  destruct (deriveIv _ _); [|done]. cbn [mbind result_bind].
  destruct (buildAad _ _ _); [|done]. cbn [mbind result_bind].
  destruct (aes_gcm_encrypt _ _ _ _) as [ct|]; [|done]. cbn [settle mbind result_bind].
  apply (concat2_spec h ct).
Qed.

Lemma seal_length key h ctr p form pt ct :
  seal key h ctr p form pt = Ok ct -> length ct = (length pt + 16)%nat.
Proof.
  unfold seal. destruct (deriveIv _ _); [|done]. cbn [mbind result_bind].
  destruct (buildAad _ _ _); [|done]. cbn [mbind result_bind].
  intros Hs%settle_inv. by eapply gcm_length.
Qed.

Lemma sframeEncrypt_inv pt key ctr p form w :
  sframeEncrypt pt key ctr p form = Ok w ->
  exists h ct, serializeHeader (JsInt (key_kid key)) ctr = Ok h /\
    seal key h ctr p form pt = Ok ct /\ w = h ++ ct /\ length ct = (length pt + 16)%nat.
Proof.
  rewrite sframeEncrypt_seal.
  destruct (serializeHeader _ _) as [h|] eqn:Eh; [|done]. cbn [mbind result_bind].
  destruct (seal _ _ _ _ _ _) as [ct|] eqn:Es; [|done]. cbn [mbind result_bind].
  intros <-%Ok_inj. exists h, ct. split_and!; [done..|]. by eapply seal_length.
Qed.

Lemma sframeEncrypt_total pt key c p form :
  length (salt key) = 12%nat -> 0 <= key_kid key < 2 ^ 32 -> 0 <= c < 2 ^ 64 ->
  Z.of_nat (length (prefix_bytes p)) < 2 ^ 31 -> Z.of_nat (length pt) < 2 ^ 36 - 32 ->
  exists w, sframeEncrypt pt key c p form = Ok w.
Proof.
  intros Hsalt Hkid Hc Hp Hpt. destruct (serializeHeader_ok (key_kid key) c Hkid Hc) as (cs & Hh & Hv & Hl).
  rewrite sframeEncrypt_seal, Hh. cbn [mbind result_bind]. unfold seal.
  rewrite deriveIv_ok by (done || apply Hc). cbn [mbind result_bind].
  rewrite buildAad_spec by done. cbn [mbind result_bind].
  edestruct gcm_encrypt_total as [ct ->]; [|done|by eexists].
  unfold xor_bytes. rewrite length_zip_with, length_be_bytes, Hsalt. done.
Qed.

(** Opening what was sealed, given the parsed header. *)
Lemma sframeDecrypt_sealed h ct key ctr p form pt codec resolve k e pi :
  parseHeader (h ++ ct) = Ok (mkSFrameHeader k ctr (length h)) ->
  decode codec k = Ok (e, pi) -> resolve (mkLookup k e pi ctr) = Some key ->
  seal key h ctr p form pt = Ok ct ->
  sframeDecrypt (h ++ ct) resolve (mkMeta (Some codec) p (Some form)) = Ok pt.
Proof.
  intros Hp Hd Hr Hs. pose proof (seal_length _ _ _ _ _ _ _ Hs) as Hlen.
  unfold sframeDecrypt. cbn [meta_kidCodec meta_aadForm meta_aadPrefix].
  change (default FIXED_KID_CODEC (Some codec)) with codec.
  change (default aad_prefix (Some form)) with form. rewrite Hp. cbn [mbind result_bind kid Header.ctr bodyOffset].
  destruct (Nat.ltb_spec (length (h ++ ct)) (length h + AEAD_TAG_BYTES)) as [Hlt|_].
  { rewrite length_app in Hlt. unfold AEAD_TAG_BYTES in Hlt. lia. }
  rewrite Hd. cbn [mbind result_bind]. rewrite Hr, take_app_exact, drop_app_exact by done.
  unfold seal in Hs. destruct (deriveIv _ _); [|done]. cbn [mbind result_bind] in *.
  destruct (buildAad _ _ _); [|done]. cbn [mbind result_bind] in *.
  apply settle_inv in Hs. by rewrite (gcm_decrypt_encrypt _ _ _ _ _ Hs).
Qed.

Lemma sframe_open pt key ctr p form w codec resolve e pi :
  sframeEncrypt pt key ctr p form = Ok w ->
  decode codec (key_kid key) = Ok (e, pi) ->
  resolve (mkLookup (key_kid key) e pi ctr) = Some key ->
  sframeDecrypt w resolve (mkMeta (Some codec) p (Some form)) = Ok pt.
Proof.
  intros (h & ct & Hh & Hs & -> & _)%sframeEncrypt_inv Hd Hr.
  destruct (parse_serialize _ _ _ ct Hh) as (k & [= <-] & Hp & _).
  by eapply sframeDecrypt_sealed.
Qed.

(** A frame that opens is the sealing of what it opens to. *)
Lemma sframeDecrypt_inv w resolve meta pt :
  sframeDecrypt w resolve meta = Ok pt ->
  exists hdr e pi key body,
    parseHeader w = Ok hdr /\
    decode (default FIXED_KID_CODEC (meta_kidCodec meta)) (kid hdr) = Ok (e, pi) /\
    resolve (mkLookup (kid hdr) e pi (Header.ctr hdr)) = Some key /\
    w = take (bodyOffset hdr) w ++ body /\
    seal key (take (bodyOffset hdr) w) (Header.ctr hdr) (meta_aadPrefix meta)
      (default aad_prefix (meta_aadForm meta)) pt = Ok body.
Proof.
  unfold sframeDecrypt. destruct (parseHeader w) as [hdr|] eqn:Hp; [|done].
  cbn [mbind result_bind]. destruct (_ <? _)%nat; [done|].
  destruct (decode _ _) as [[e pi]|] eqn:Hd; [|done]. cbn [mbind result_bind].
  destruct (resolve _) as [key|] eqn:Hr; [|done].
  destruct (deriveIv _ _) as [iv|] eqn:Hiv; [|done]. cbn [mbind result_bind].
  destruct (buildAad _ _ _) as [aad|] eqn:Haad; [|done]. cbn [mbind result_bind].
  destruct (aes_gcm_decrypt _ _ _ _) as [pt'|] eqn:Hdec; [|done]. intros [= ->]%Ok_inj.
  exists hdr, e, pi, key, (drop (bodyOffset hdr) w). split_and!; try done.
  - by rewrite take_drop.
  - unfold seal. rewrite Hiv. cbn [mbind result_bind]. rewrite Haad. cbn [mbind result_bind].
    by rewrite (gcm_encrypt_decrypt _ _ _ _ _ Hdec).
Qed.

Lemma sframeEncryptInto_spec out off header body key ctr p form :
  (off + length header + length body + 16 <= length out)%nat ->
  sframeEncryptInto out off header body key ctr p form =
    (ct ← seal key header ctr p form body;
     mret (length (header ++ ct),
           take off out ++ (header ++ ct) ++ drop (off + length (header ++ ct)) out)).
Proof.
  intros Hfit. unfold sframeEncryptInto, seal.
  destruct (deriveIv _ _) as [iv|]; [|done]. cbn [mbind result_bind].
  destruct (buildAad _ _ _) as [aad|]; [|done]. cbn [mbind result_bind].
  destruct (aes_gcm_encrypt _ _ _ _) as [ct|] eqn:Ee; [|done]. cbn [settle mbind result_bind].
  pose proof (gcm_length _ _ _ _ _ Ee) as Hct.
  rewrite u8_set_ok by lia. cbn [mbind result_bind].
  assert (length (take off out) = off) as Ho by (rewrite length_take; lia).
  rewrite app_assoc, u8_set_ok.
  2: { rewrite !length_app, length_drop, Ho. lia. }
  cbn [mbind result_bind mret result_ret]. rewrite !length_app. do 2 f_equal.
  rewrite take_app_exact by (rewrite length_app; lia).
  rewrite <- !app_assoc. do 3 f_equal. rewrite app_assoc, drop_app_ge by (rewrite length_app; lia).
  rewrite drop_drop, length_app, Ho. f_equal. lia.
Qed.

End Frames.

(** ** Properties *)

(** Round trip of a frame: with a 12-byte salt, an in-range KID and counter and a plaintext
    within AES-GCM's limit, sealing succeeds, adds 22 to 29 bytes, and opening the frame with the
    same prefix and AAD form, a codec that reads the KID and a resolver that knows the key gives
    the plaintext back. *)
Theorem sframe_roundtrip `{WebCryptoLaws} (pt : bytes) (key : SFrameKey) (c : Z)
    (p : option bytes) (form : AadForm) (codec : KidCodec)
    (resolve : SFrameKeyLookup -> option SFrameKey) (e pi : Z)
    (Hsalt : length (salt key) = 12%nat) (Hkid : 0 <= key_kid key < 2 ^ 32)
    (Hc : 0 <= c < 2 ^ 64) (Hp : Z.of_nat (length (prefix_bytes p)) < 2 ^ 31)
    (Hpt : Z.of_nat (length pt) < 2 ^ 36 - 32)
    (Hdec : decode codec (key_kid key) = Ok (e, pi))
    (Hres : resolve (mkLookup (key_kid key) e pi c) = Some key) :
  exists w, sframeEncrypt pt key c p form = Ok w /\
    (length pt + 22 <= length w <= length pt + 29)%nat /\
    sframeDecrypt w resolve (mkMeta (Some codec) p (Some form)) = Ok pt.
Proof.
  destruct (sframeEncrypt_total pt key c p form) as [w Hw]; [done..|].
  exists w. split; [done|]. split; [|by eapply sframe_open].
  apply sframeEncrypt_inv in Hw as (h & ct & Hh' & _ & -> & Hct).
  destruct (parse_serialize _ _ _ [] Hh') as (_ & _ & _ & Hlh). rewrite length_app. lia.
Qed.

(** The key of a sender, as the resolver of the worker finds it. *)
Definition demo_resolve (k : SenderKey (H := toy)) (lk : SFrameKeyLookup)
    : option (SFrameKey (H := toy)) :=
  if (lk_epoch lk =? key_epoch k) && (lk_peerIndex lk =? key_peerIndex k) then Some (k : SFrameKey)
  else None.

Lemma sframe_roundtrip_witness :
  match demo_key 3 1 with
  | Ok k => exists w, sframeEncrypt [x68; x69] (sframe_key k) 7 (Some [x01]) aad_canonical = Ok w /\
      sframeDecrypt w (demo_resolve k)
        (mkMeta (Some FIXED_KID_CODEC) (Some [x01]) (Some aad_canonical)) = Ok [x68; x69]
  | Throw _ => False
  end.
Proof.
  destruct (is_ok_ex (demo_key 3 1)) as [k E]; [vm_compute; reflexivity|]. rewrite E.
  destruct (deriveSenderKeys_wf _ _ _ _ _ _ E) as [[H1 H2 H3 _ _ H4] _].
  assert (key_kid k = 3 * 2 ^ 16 + 1) as Hk.
  { unfold FIXED_KID_CODEC, encode in H1. rewrite makeKid_value in H1 by lia. by apply Ok_inj in H1. }
  destruct (sframe_roundtrip [x68; x69] k 7 (Some [x01]) aad_canonical FIXED_KID_CODEC
    (demo_resolve k) 3 1) as (w & Hw & _ & Hd).
  - exact H4.
  - rewrite Hk. lia.
  - lia.
  - simpl length. lia.
  - simpl length. lia.
  - rewrite Hk. vm_compute. reflexivity.
  - unfold demo_resolve. cbn [lk_epoch lk_peerIndex]. by rewrite H2, H3.
  - exists w. by split.
Defined.

(** C14. Authenticity of what opens: a frame that opens to [pt] is byte for byte the header it
    was parsed from followed by the AES-GCM sealing of [pt] under the key found for that header's
    KID, with the nonce of that header's counter and additional data built from those header
    bytes and the expected prefix. *)
Theorem sframe_authentic `{WebCryptoLaws} (w : bytes)
    (resolve : SFrameKeyLookup -> option SFrameKey) (codec : KidCodec) (p : option bytes)
    (form : AadForm) (pt : bytes) (Hp : Z.of_nat (length (prefix_bytes p)) < 2 ^ 31)
    (Hd : sframeDecrypt w resolve (mkMeta (Some codec) p (Some form)) = Ok pt) :
  exists hdr e pi key header ct,
    parseHeader w = Ok hdr /\ decode codec (kid hdr) = Ok (e, pi) /\
    resolve (mkLookup (kid hdr) e pi (Header.ctr hdr)) = Some key /\
    w = header ++ ct /\ length header = bodyOffset hdr /\
    aes_gcm_encrypt (cryptoKey key)
      (xor_bytes (be_bytes 12 (Header.ctr hdr)) (salt key))
      match form with
      | aad_header => header
      | aad_prefix => prefix_bytes p ++ header
      | aad_canonical => be_bytes 2 (Z.of_nat (length (prefix_bytes p))) ++ prefix_bytes p ++ header
      end pt = Some ct.
Proof.
  apply sframeDecrypt_inv in Hd as (hdr & e & pi & key & body & Hh & Hdec & Hr & Hw & Hs).
  cbn in Hdec, Hs. pose proof (parseHeader_bounds _ _ Hh) as (_ & Hc & Hb).
  exists hdr, e, pi, key, (take (bodyOffset hdr) w), body. split_and!; try done.
  { rewrite length_take. lia. }
  unfold seal in Hs. destruct (deriveIv _ _) as [iv|] eqn:Hiv; [|done]. cbn [mbind result_bind] in Hs.
  rewrite buildAad_spec in Hs by done. cbn [mbind result_bind] in Hs. apply settle_inv in Hs.
  assert (length (salt key) = 12%nat) as Hsalt.
  { unfold deriveIv in Hiv. destruct (Nat.eqb_spec (length (salt key)) IV_BYTES); done. }
  rewrite deriveIv_ok in Hiv by (done || lia). by apply Ok_inj in Hiv as <-.
Qed.

Lemma sframe_authentic_witness :
  match demo_key 3 1 with
  | Ok k =>
      match sframeEncrypt [x68; x69] (sframe_key k) 7 None aad_header with
      | Ok w => exists header ct, w = header ++ ct
      | Throw _ => False
      end
  | Throw _ => False
  end.
Proof.
  destruct (is_ok_ex (demo_key 3 1)) as [k E]; [vm_compute; reflexivity|].
  destruct (is_ok_ex (k ← demo_key 3 1; sframeEncrypt [x68; x69] (sframe_key k) 7 None aad_header))
    as [w Ew]; [vm_compute; reflexivity|].
  assert (is_ok (k ← demo_key 3 1; w ← sframeEncrypt [x68; x69] (sframe_key k) 7 None aad_header;
     sframeDecrypt w (fun _ => Some (sframe_key k)) (mkMeta (Some FIXED_KID_CODEC) None (Some aad_header)))
     = true) as Hd by (vm_compute; reflexivity).
  rewrite E in *. cbn [mbind result_bind] in *. rewrite Ew in *. cbn [mbind result_bind] in *.
  apply is_ok_ex in Hd as [pt Hd].
  destruct (sframe_authentic _ _ FIXED_KID_CODEC None aad_header pt (ltac:(done)) Hd)
    as (_ & _ & _ & _ & header & ct & _ & _ & _ & Hw & _).
  by exists header, ct.
Defined.

(** The in-place variant of the send path is the reference [sframeEncrypt]: on a buffer with
    room, and with the header it is meant to be given, it writes exactly the bytes of the sealed
    frame at the offset, leaves the rest alone, returns their number, and throws the same errors. *)
Theorem sframeEncryptInto_equiv `{WebCryptoLaws} (out : bytes) (off : nat) (header body : bytes)
    (key : SFrameKey) (c : Z) (p : option bytes) (form : AadForm)
    (Hh : serializeHeader (JsInt (key_kid key)) c = Ok header)
    (Hfit : (off + length header + length body + AEAD_TAG_BYTES <= length out)%nat) :
  sframeEncryptInto out off header body key c p form =
    (w ← sframeEncrypt body key c p form;
     mret (length w, take off out ++ w ++ drop (off + length w) out)).
Proof.
  rewrite sframeEncryptInto_spec by done. rewrite sframeEncrypt_seal, Hh. cbn [mbind result_bind].
  by destruct (seal _ _ _ _ _ _).
Qed.

Lemma sframeEncryptInto_equiv_witness :
  match demo_key 3 1, serializeHeader (JsInt (3 * 2 ^ 16 + 1)) 7 with
  | Ok k, Ok h =>
      sframeEncryptInto (zeros 40) 1 h [x68] (sframe_key k) 7 None aad_header =
      (w ← sframeEncrypt [x68] (sframe_key k) 7 None aad_header;
       mret (length w, take 1 (zeros 40) ++ w ++ drop (1 + length w) (zeros 40)))
  | _, _ => False
  end.
Proof.
  destruct (is_ok_ex (demo_key 3 1)) as [k E]; [vm_compute; reflexivity|].
  destruct (is_ok_ex (serializeHeader (JsInt (3 * 2 ^ 16 + 1)) 7)) as [h Eh]; [vm_compute; reflexivity|].
  assert (length h = 6%nat) as Hl by (vm_compute in Eh; apply Ok_inj in Eh as <-; reflexivity).
  rewrite E, Eh. destruct (deriveSenderKeys_wf _ _ _ _ _ _ E) as [[H1 _ _ _ _ _] _].
  unfold FIXED_KID_CODEC, encode in H1. rewrite makeKid_value in H1 by lia. apply Ok_inj in H1.
  apply sframeEncryptInto_equiv; [by rewrite <- H1|].
  rewrite Hl, length_zeros. unfold AEAD_TAG_BYTES. simpl length. lia.
Defined.

(** The canonical additional data determines prefix and header, for prefixes below 64 KiB;
    the 'prefix' form does not (a byte can move between prefix and header), and the 'header'
    form of the phase-1 sender does not bind the clear prefix at all. *)
Theorem canonical_aad_injective (p1 p2 : option bytes) (h1 h2 : bytes)
    (H1 : Z.of_nat (length (prefix_bytes p1)) < 2 ^ 16)
    (H2 : Z.of_nat (length (prefix_bytes p2)) < 2 ^ 16) :
  (buildAad p1 h1 aad_canonical = buildAad p2 h2 aad_canonical <->
   prefix_bytes p1 = prefix_bytes p2 /\ h1 = h2) /\
  (forall b, buildAad (Some (prefix_bytes p1 ++ [b])) h1 aad_prefix =
             buildAad p1 (b :: h1) aad_prefix) /\
  buildAad p1 h1 aad_header = buildAad p2 h1 aad_header.
Proof.
  split_and!; [|intros b|done].
  - rewrite !buildAad_spec by lia. split; [|by intros [-> ->]].
    intros E%Ok_inj. apply app_inj_length in E as [El E]; [|by rewrite !length_be_bytes].
    apply be_bytes_2_inj in El; [|lia|lia]. apply app_inj_length in E; [done|lia].
  - rewrite !buildAad_spec; [|lia|].
    + change (prefix_bytes (Some ?l)) with l. by rewrite <- app_assoc.
    + change (prefix_bytes (Some ?l)) with l. rewrite length_app. simpl length. lia.
Qed.

Lemma canonical_aad_injective_witness :
  buildAad (Some [x01; x02]) [x03] aad_canonical <> buildAad (Some [x01]) [x02; x03] aad_canonical.
Proof.
  rewrite (proj1 (canonical_aad_injective (Some [x01; x02]) (Some [x01]) [x03] [x02; x03]
    eq_refl eq_refl)). intros [E _]. discriminate E.
Defined.

(** One nonce per counter: under one salt, equal nonces mean equal counters, over the whole
    64-bit range of the header; the nonce of a counter always exists for a 12-byte salt. *)
Theorem deriveIv_injective (s : bytes) (c1 c2 : Z)
    (Hs : length s = 12%nat) (H1 : 0 <= c1 < 2 ^ 64) (H2 : 0 <= c2 < 2 ^ 64) :
  (exists iv, deriveIv s c1 = Ok iv /\ length iv = 12%nat) /\
  (deriveIv s c1 = deriveIv s c2 -> c1 = c2).
Proof.
  assert (length (xor_bytes (be_bytes 12 c1) s) = 12%nat) as Hl.
  { unfold xor_bytes. by rewrite length_zip_with, length_be_bytes, Hs. }
  split; [rewrite deriveIv_ok by lia; eauto|]. intros E.
  apply (deriveIv_inj s c1 c2 (xor_bytes (be_bytes 12 c1) s)); [lia|lia| |rewrite <- E];
    apply deriveIv_ok; lia.
Qed.

Lemma deriveIv_injective_witness : deriveIv (zeros 12) 1 <> deriveIv (zeros 12) (2 ^ 32 + 1).
Proof.
  intros E. apply (deriveIv_injective (zeros 12) 1 (2 ^ 32 + 1)) in E; [discriminate E|..];
    [reflexivity|lia|lia].
Defined.
