(* ===== verification/Fips.v ===== *)
(** * Fips: the strict-FIPS gate (src/strict-fips.ts)

    The process-wide configuration [active] is the state of the module; the gate reads it when
    a ratchet or a [SimpleKex] is constructed. *)
From S2P Require Import Prelude Errors Internal Crypto.

(** [StrictFipsOptions]: every flag may be left out. *)
Record StrictFipsOptions := mkFipsOptions {
  opt_requireSuite5 : option bool;
  opt_forbidSimpleKex : option bool;
  opt_requireNonExtractable : option bool
}.

(** [Required<StrictFipsOptions>] *)
Record StrictFips := mkStrictFips {
  requireSuite5 : bool;
  forbidSimpleKex : bool;
  requireNonExtractable : bool
}.

(** The module variable [active]; it starts as [null]. *)
Abbreviation FipsState := (option StrictFips).

Definition fips_initial : FipsState := None.

Definition enableStrictFips (opts : StrictFipsOptions) : M FipsState js_error unit :=
  modify (fun _ => Some {| requireSuite5 := default true (opt_requireSuite5 opts);
                           forbidSimpleKex := default true (opt_forbidSimpleKex opts);
                           requireNonExtractable := default true (opt_requireNonExtractable opts) |}).

Definition disableStrictFips : M FipsState js_error unit := modify (fun _ => None).

Definition getStrictFips : M FipsState js_error (option StrictFips) := gets id.

(** [!active?.flag] *)
Definition flag_off (flag : StrictFips -> bool) (active : FipsState) : bool :=
  negb (from_option flag false active).

Definition assertSuiteAllowed (active : FipsState) (suite : CipherSuite) : res unit :=
  if flag_off requireSuite5 active then Ok tt else
  match suite with
  | AES_256_GCM_SHA512 => Ok tt
  | _ => Throw (FipsModeViolationError "Strict-FIPS mode requires AES_256_GCM_SHA512 (suite 5)")
  end.

Definition assertNotSimpleKex (active : FipsState) : res unit :=
  if flag_off forbidSimpleKex active then Ok tt
  else Throw (FipsModeViolationError "SimpleKex is not allowed in strict-FIPS mode").

(** ** Lemmas *)

Lemma assertSuiteAllowed_ok active suite :
  assertSuiteAllowed active suite = Ok tt <->
  suite = AES_256_GCM_SHA512 \/ flag_off requireSuite5 active = true.
Proof.
  unfold assertSuiteAllowed. destruct (flag_off _ _); [naive_solver|]. destruct suite; naive_solver.
Qed.

Lemma assertNotSimpleKex_ok active :
  assertNotSimpleKex active = Ok tt <-> flag_off forbidSimpleKex active = true.
Proof. unfold assertNotSimpleKex. destruct (flag_off _ _); naive_solver. Qed.

(** A flag left out counts as set; a call replaces the whole configuration. *)
Lemma enableStrictFips_get opts active :
  (enableStrictFips opts;; getStrictFips) active =
    (Ok (Some {| requireSuite5 := default true (opt_requireSuite5 opts);
                 forbidSimpleKex := default true (opt_forbidSimpleKex opts);
                 requireNonExtractable := default true (opt_requireNonExtractable opts) |}),
     (enableStrictFips opts active).2).
Proof. done. Qed.
