(* ===== verification/Sas.v ===== *)
(** * Sas: short authentication strings (src/sas.ts)

    The emoji are the UTF-8 bytes of the source's string literals. *)
From S2P Require Import Prelude Errors Internal Header Kid WebCrypto Toy Crypto.

Record EmojiEntry := mkEmoji { emoji : string; name : string }.

(** [SasData] *)
Record SasData := mkSasData { sas_decimal : list Z; sas_emoji : list EmojiEntry }.

Definition SAS_INFO : bytes := textEncode "sframe-ratchet-sas-v1".
Definition SAS_BYTES_LENGTH : Z := 6.
Definition SAS_DECIMAL_GROUP_COUNT : Z := 3.
Definition SAS_DECIMAL_MOD : Z := 100000.
Definition SAS_EMOJI_COUNT : Z := 7.

Definition SAS_EMOJI_TABLE : list EmojiEntry := [
  mkEmoji "🐶" "Dog"; mkEmoji "🐱" "Cat"; mkEmoji "🦁" "Lion";
  mkEmoji "🐎" "Horse"; mkEmoji "🦄" "Unicorn"; mkEmoji "🐷" "Pig";
  mkEmoji "🐘" "Elephant"; mkEmoji "🐰" "Rabbit"; mkEmoji "🐼" "Panda";
  mkEmoji "🐓" "Rooster"; mkEmoji "🐧" "Penguin"; mkEmoji "🐢" "Turtle";
  mkEmoji "🐟" "Fish"; mkEmoji "🐙" "Octopus"; mkEmoji "🦋" "Butterfly";
  mkEmoji "🌷" "Flower"; mkEmoji "🌳" "Tree"; mkEmoji "🌵" "Cactus";
  mkEmoji "🍄" "Mushroom"; mkEmoji "🌏" "Globe"; mkEmoji "🌙" "Moon";
  mkEmoji "☁️" "Cloud"; mkEmoji "🔥" "Fire"; mkEmoji "🍌" "Banana";
  mkEmoji "🍎" "Apple"; mkEmoji "🍓" "Strawberry"; mkEmoji "🌽" "Corn";
  mkEmoji "🍕" "Pizza"; mkEmoji "🎂" "Cake"; mkEmoji "❤️" "Heart";
  mkEmoji "😀" "Smiley"; mkEmoji "🤖" "Robot"; mkEmoji "🎩" "Hat";
  mkEmoji "👓" "Glasses"; mkEmoji "🔧" "Spanner"; mkEmoji "🎅" "Santa";
  mkEmoji "👍" "Thumbs Up"; mkEmoji "☂️" "Umbrella"; mkEmoji "⌛" "Hourglass";
  mkEmoji "⏰" "Clock"; mkEmoji "🎁" "Gift"; mkEmoji "💡" "Light Bulb";
  mkEmoji "📕" "Book"; mkEmoji "✏️" "Pencil"; mkEmoji "📎" "Paperclip";
  mkEmoji "✂️" "Scissors"; mkEmoji "🔒" "Lock"; mkEmoji "🔑" "Key";
  mkEmoji "🔨" "Hammer"; mkEmoji "📞" "Telephone"; mkEmoji "🏁" "Flag";
  mkEmoji "🚂" "Train"; mkEmoji "🚲" "Bicycle"; mkEmoji "✈️" "Aeroplane";
  mkEmoji "🚀" "Rocket"; mkEmoji "🏆" "Trophy"; mkEmoji "⚽" "Ball";
  mkEmoji "🎸" "Guitar"; mkEmoji "🎺" "Trumpet"; mkEmoji "🔔" "Bell";
  mkEmoji "⚓" "Anchor"; mkEmoji "🎧" "Headphones"; mkEmoji "📁" "Folder";
  mkEmoji "📌" "Pin"
]%string.

(** ** Derivation *)

Definition deriveSasBytes `{WebCrypto} (dhSecret : bytes) : res bytes :=
  hkdfExtractExpand dhSecret SAS_INFO SAS_BYTES_LENGTH SHA_256.

(** The number pushed for the group [i]. *)
Definition decimal_group (sasBytes : bytes) (i : Z) : Z :=
  let hi := byte_at sasBytes (Z.to_nat (i * 2)) in
  let lo := byte_at sasBytes (Z.to_nat (i * 2 + 1)) in
  Z.rem (js_or (js_shl hi 8) lo) SAS_DECIMAL_MOD.

Definition generateDecimalSas (sasBytes : bytes) : res (list Z) :=
  if Z.of_nat (length sasBytes) <? SAS_DECIMAL_GROUP_COUNT * 2
  then Throw (GenericError "sas: need at least 6 bytes for decimal")
  else Ok (decimal_group sasBytes <$> seqZ 0 SAS_DECIMAL_GROUP_COUNT).

(** The index pushed in the iteration [i]. *)
Definition emoji_index (sasBytes : bytes) (i : Z) : Z :=
  let bitOffset := i * 6 in
  let byteIdx := bitOffset / 8 in
  let bitInByte := bitOffset mod 8 in
  let availBits := 8 - bitInByte in
  let lowBits := js_and (byte_at sasBytes (Z.to_nat byteIdx)) (js_shl 1 availBits - 1) in
  if 6 <=? availBits then js_shr lowBits (availBits - 6)
  else
    let needed := 6 - availBits in
    let highBits := js_shr (byte_at sasBytes (Z.to_nat (byteIdx + 1))) (8 - needed) in
    js_or (js_shl lowBits needed) highBits.

(** [SAS_EMOJI_TABLE[idx]]; every index is below 64 ([emoji_index_range]). *)
Definition emoji_at (idx : Z) : EmojiEntry :=
  default (mkEmoji "" "") (SAS_EMOJI_TABLE !! Z.to_nat idx).

Definition generateEmojiSas (sasBytes : bytes) : res (list EmojiEntry) :=
  if Z.of_nat (length sasBytes) <? SAS_BYTES_LENGTH
  then Throw (GenericError "sas: need at least 6 bytes for emoji")
  else
    let indices := emoji_index sasBytes <$> seqZ 0 SAS_EMOJI_COUNT in
    Ok (emoji_at <$> indices).

Definition computeSas `{WebCrypto} (dhSecret : bytes) : res SasData :=
  sasBytes ← deriveSasBytes dhSecret;
  decimal ← generateDecimalSas sasBytes;
  emoji ← generateEmojiSas sasBytes;
  mret {| sas_decimal := decimal; sas_emoji := emoji |}.

(** ** Lemmas: the bit slices *)

Lemma js_shl_small a n : 0 <= a -> 0 <= n < 32 -> a * 2 ^ n < 2 ^ 31 -> js_shl a n = a * 2 ^ n.
Proof.
  intros Ha Hn Hb. assert (1 <= 2 ^ n) by (pose proof (Z.pow_pos_nonneg 2 n); lia).
  unfold js_shl. rewrite (to_int32_small a), Z.mod_small, Z.shiftl_mul_pow2 by nia.
  apply to_int32_small. nia.
Qed.

Lemma js_shr_small a n : 0 <= a < 2 ^ 31 -> 0 <= n < 32 -> js_shr a n = a / 2 ^ n.
Proof.
  intros Ha Hn. unfold js_shr. rewrite to_int32_small, Z.mod_small by lia.
  apply Z.shiftr_div_pow2. lia.
Qed.

Lemma js_or_shl a b n :
  0 <= a < 256 -> 0 <= n <= 8 -> 0 <= b < 2 ^ n -> js_or (js_shl a n) b = a * 2 ^ n + b.
Proof.
  intros Ha Hn Hb. assert (2 ^ n <= 2 ^ 8) by (apply Z.pow_le_mono_r; lia).
  change (2 ^ 8) with 256 in *. assert (a * 2 ^ n <= 255 * 256) by nia.
  rewrite js_shl_small, js_or_small by lia.
  rewrite <- Z.shiftl_mul_pow2, lor_shiftl_add, Z.shiftl_mul_pow2 by lia. done.
Qed.

Lemma js_and_ones a n :
  0 <= a < 256 -> 0 <= n <= 8 -> js_and a (js_shl 1 n - 1) = a mod 2 ^ n.
Proof.
  intros Ha Hn. assert (2 ^ n <= 2 ^ 8) by (apply Z.pow_le_mono_r; lia).
  pose proof (Z.pow_pos_nonneg 2 n). change (2 ^ 8) with 256 in *.
  rewrite js_shl_small by lia. rewrite Z.mul_1_l. unfold js_and.
  rewrite (to_int32_small a), (to_int32_small (2 ^ n - 1)) by lia.
  rewrite Z.sub_1_r, <- Z.ones_equiv, Z.land_ones by lia.
  pose proof (Z.mod_pos_bound a (2 ^ n)). apply to_int32_small. lia.
Qed.

(** The two shapes of an index: six bits of one byte, or bits of two. *)
Lemma slice_one b a : 0 <= b < 256 -> 6 <= a <= 8 ->
  js_shr (js_and b (js_shl 1 a - 1)) (a - 6) = b mod 2 ^ a / 2 ^ (a - 6).
Proof.
  intros Hb Ha. rewrite js_and_ones by lia. apply js_shr_small; [|lia].
  assert (2 ^ a <= 2 ^ 8) by (apply Z.pow_le_mono_r; lia).
  pose proof (Z.mod_pos_bound b (2 ^ a) (Z.pow_pos_nonneg 2 a ltac:(lia) ltac:(lia))).
  change (2 ^ 8) with 256 in *. lia.
Qed.

Lemma slice_two b b' a : 0 <= b < 256 -> 0 <= b' < 256 -> 1 <= a < 6 ->
  js_or (js_shl (js_and b (js_shl 1 a - 1)) (6 - a)) (js_shr b' (8 - (6 - a))) =
  b mod 2 ^ a * 2 ^ (6 - a) + b' / 2 ^ (2 + a).
Proof.
  intros Hb Hb' Ha. replace (8 - (6 - a)) with (2 + a) by lia.
  assert (2 ^ a <= 2 ^ 8) by (apply Z.pow_le_mono_r; lia). change (2 ^ 8) with 256 in *.
  pose proof (Z.mod_pos_bound b (2 ^ a) (Z.pow_pos_nonneg 2 a ltac:(lia) ltac:(lia))).
  rewrite js_and_ones, js_shr_small by lia. apply js_or_shl; [lia|lia|].
  split; [apply Z.div_pos; [lia|apply Z.pow_pos_nonneg; lia]|].
  apply Z.div_lt_upper_bound; [apply Z.pow_pos_nonneg; lia|].
  rewrite <- Z.pow_add_r by lia. replace (2 + a + (6 - a)) with 8 by lia. lia.
Qed.

(** The 48-bit number that the first six bytes spell. *)
Definition sas_number (sasBytes : bytes) : Z := be_value (take 6 sasBytes).

Ltac slice_lia :=
  repeat match goal with
  | |- context [2 ^ ?e] => let v := eval vm_compute in (2 ^ e) in change (2 ^ e) with v
  end;
  Z.to_euclidean_division_equations; lia.

Lemma emoji_index_slice bs i :
  (6 <= length bs)%nat -> 0 <= i < 7 ->
  emoji_index bs i = sas_number bs / 2 ^ (42 - 6 * i) mod 64.
Proof.
  intros Hl Hi. destruct bs as [|b0 [|b1 [|b2 [|b3 [|b4 [|b5 bs]]]]]]; simpl in Hl; try lia.
  pose proof (b2z_range b0). pose proof (b2z_range b1). pose proof (b2z_range b2).
  pose proof (b2z_range b3). pose proof (b2z_range b4). pose proof (b2z_range b5).
  unfold sas_number. cbn [take]. rewrite firstn_O. unfold be_value. cbn [foldl].
  assert (i = 0 \/ i = 1 \/ i = 2 \/ i = 3 \/ i = 4 \/ i = 5 \/ i = 6) as Hc by lia.
  set (cut b a := js_and (b2z b) (js_shl 1 a - 1)).
  destruct Hc as [->|[->|[->|[->|[->|[->| ->]]]]]].
  - change (emoji_index _ 0) with (js_shr (cut b0 8) (8 - 6)). unfold cut.
    rewrite slice_one by lia. slice_lia.
  - change (emoji_index _ 1) with (js_or (js_shl (cut b0 2) (6 - 2)) (js_shr (b2z b1) (8 - (6 - 2)))).
    unfold cut. rewrite slice_two by lia. slice_lia.
  - change (emoji_index _ 2) with (js_or (js_shl (cut b1 4) (6 - 4)) (js_shr (b2z b2) (8 - (6 - 4)))).
    unfold cut. rewrite slice_two by lia. slice_lia.
  - change (emoji_index _ 3) with (js_shr (cut b2 6) (6 - 6)). unfold cut.
    rewrite slice_one by lia. slice_lia.
  - change (emoji_index _ 4) with (js_shr (cut b3 8) (8 - 6)). unfold cut.
    rewrite slice_one by lia. slice_lia.
  - change (emoji_index _ 5) with (js_or (js_shl (cut b3 2) (6 - 2)) (js_shr (b2z b4) (8 - (6 - 2)))).
    unfold cut. rewrite slice_two by lia. slice_lia.
  - change (emoji_index _ 6) with (js_or (js_shl (cut b4 4) (6 - 4)) (js_shr (b2z b5) (8 - (6 - 4)))).
    unfold cut. rewrite slice_two by lia. slice_lia.
Qed.

Lemma sas_number_range bs : 0 <= sas_number bs < 2 ^ 48.
Proof.
  unfold sas_number. split; [apply be_value_nonneg|].
  eapply Z.lt_le_trans; [apply be_value_bound|].
  change (2 ^ 48) with (256 ^ 6). apply Z.pow_le_mono_r; [lia|]. rewrite length_take. lia.
Qed.

Lemma emoji_index_range bs i : (6 <= length bs)%nat -> 0 <= i < 7 -> 0 <= emoji_index bs i < 64.
Proof. intros Hl Hi. rewrite emoji_index_slice by done. by apply Z.mod_pos_bound. Qed.

(** The seven slices are the digits in base 64 of the top 42 bits. *)
Lemma slices_value n : 0 <= n < 2 ^ 48 ->
  n / 64 = foldl (fun acc i => acc * 64 + n / 2 ^ (42 - 6 * i) mod 64) 0 (seqZ 0 7).
Proof.
  intros Hn. change (seqZ 0 7) with [0; 1; 2; 3; 4; 5; 6]. cbn [foldl].
  change (2 ^ 48) with 281474976710656 in Hn. slice_lia.
Qed.

Lemma decimal_group_value bs i :
  (6 <= length bs)%nat -> 0 <= i < 3 ->
  decimal_group bs i = sas_number bs / 2 ^ (32 - 16 * i) mod 2 ^ 16.
Proof.
  intros Hl Hi. destruct bs as [|b0 [|b1 [|b2 [|b3 [|b4 [|b5 bs]]]]]]; simpl in Hl; try lia.
  pose proof (b2z_range b0). pose proof (b2z_range b1). pose proof (b2z_range b2).
  pose proof (b2z_range b3). pose proof (b2z_range b4). pose proof (b2z_range b5).
  unfold sas_number. cbn [take]. rewrite firstn_O. unfold be_value. cbn [foldl].
  assert (i = 0 \/ i = 1 \/ i = 2) as Hc by lia.
  set (group a b := Z.rem (js_or (js_shl (b2z a) 8) (b2z b)) 100000).
  assert (forall a b, group a b = b2z a * 256 + b2z b) as Hg.
  { intros a b. pose proof (b2z_range a). pose proof (b2z_range b).
    unfold group. rewrite js_or_shl by lia. apply Z.rem_small. lia. }
  destruct Hc as [->|[->| ->]].
  - change (decimal_group _ 0) with (group b0 b1). rewrite Hg. slice_lia.
  - change (decimal_group _ 1) with (group b2 b3). rewrite Hg. slice_lia.
  - change (decimal_group _ 2) with (group b4 b5). rewrite Hg. slice_lia.
Qed.

Lemma groups_value n : 0 <= n < 2 ^ 48 ->
  n = foldl (fun acc i => acc * 2 ^ 16 + n / 2 ^ (32 - 16 * i) mod 2 ^ 16) 0 (seqZ 0 3).
Proof.
  intros Hn. change (seqZ 0 3) with [0; 1; 2]. cbn [foldl].
  change (2 ^ 48) with 281474976710656 in Hn. slice_lia.
Qed.

Lemma foldl_fmap_ext {A} (f g : Z -> A) (h : Z -> A -> Z) (l : list Z) (acc : Z) :
  f <$> l = g <$> l ->
  foldl (fun acc i => h acc (f i)) acc l = foldl (fun acc i => h acc (g i)) acc l.
Proof.
  revert acc. induction l as [|i l IH]; intros acc E; [done|]. csimpl in E.
  injection E as Ei E. simpl. rewrite Ei. by apply IH.
Qed.

Lemma SAS_EMOJI_TABLE_size : length SAS_EMOJI_TABLE = 64%nat.
Proof. done. Qed.

#[export] Instance EmojiEntry_eq_dec : EqDecision EmojiEntry.
Proof. solve_decision. Defined.

Lemma SAS_EMOJI_TABLE_distinct : NoDup SAS_EMOJI_TABLE.
Proof. apply (bool_decide_unpack _). vm_compute. exact I. Qed.

Lemma emoji_at_lookup i : 0 <= i < 64 -> SAS_EMOJI_TABLE !! Z.to_nat i = Some (emoji_at i).
Proof.
  intros Hi. unfold emoji_at.
  destruct (lookup_lt_is_Some_2 SAS_EMOJI_TABLE (Z.to_nat i)) as [e He].
  { rewrite SAS_EMOJI_TABLE_size. lia. }
  by rewrite He.
Qed.

Lemma emoji_at_inj i j : 0 <= i < 64 -> 0 <= j < 64 -> emoji_at i = emoji_at j -> i = j.
Proof.
  intros Hi Hj E. apply emoji_at_lookup in Hi as Li, Hj as Lj. rewrite <- E in Lj.
  pose proof (NoDup_lookup _ _ _ _ SAS_EMOJI_TABLE_distinct Li Lj). lia.
Qed.

Lemma generateDecimalSas_ok bs :
  (6 <= length bs)%nat -> generateDecimalSas bs = Ok (decimal_group bs <$> seqZ 0 3).
Proof.
  intros Hl. unfold generateDecimalSas, SAS_DECIMAL_GROUP_COUNT.
  by rewrite (proj2 (Z.ltb_ge _ _)) by lia.
Qed.

Lemma generateEmojiSas_ok bs :
  (6 <= length bs)%nat -> generateEmojiSas bs = Ok (emoji_at <$> (emoji_index bs <$> seqZ 0 7)).
Proof.
  intros Hl. unfold generateEmojiSas, SAS_BYTES_LENGTH, SAS_EMOJI_COUNT.
  by rewrite (proj2 (Z.ltb_ge _ _)) by lia.
Qed.

Lemma fmap_seqZ_eq {A} (f g : Z -> A) n :
  f <$> seqZ 0 n = g <$> seqZ 0 n <-> forall i, 0 <= i < n -> f i = g i.
Proof.
  rewrite <- Forall_fmap_ext, Forall_forall. setoid_rewrite elem_of_seqZ.
  split; intros H i Hi; apply H; lia.
Qed.

(** Comparing the decimals compares all 48 bits. *)
Lemma decimals_eq b1 b2 :
  (6 <= length b1)%nat -> (6 <= length b2)%nat ->
  decimal_group b1 <$> seqZ 0 3 = decimal_group b2 <$> seqZ 0 3 <-> sas_number b1 = sas_number b2.
Proof.
  intros H1 H2. rewrite fmap_seqZ_eq. split.
  - intros E. rewrite (groups_value _ (sas_number_range b1)), (groups_value _ (sas_number_range b2)).
    apply (foldl_fmap_ext _ _ (fun acc g => acc * 2 ^ 16 + g)), fmap_seqZ_eq. intros i Hi.
    rewrite <- !decimal_group_value by done. by apply E.
  - intros E i Hi. by rewrite !decimal_group_value, E by done.
Qed.

(** Comparing the emoji compares the top 42 bits. *)
Lemma emojis_eq b1 b2 :
  (6 <= length b1)%nat -> (6 <= length b2)%nat ->
  emoji_at <$> (emoji_index b1 <$> seqZ 0 7) = emoji_at <$> (emoji_index b2 <$> seqZ 0 7) <->
  sas_number b1 / 64 = sas_number b2 / 64.
Proof.
  intros H1 H2. rewrite <- !list_fmap_compose, fmap_seqZ_eq. unfold compose. split.
  - intros E. rewrite (slices_value _ (sas_number_range b1)), (slices_value _ (sas_number_range b2)).
    apply (foldl_fmap_ext _ _ (fun acc g => acc * 64 + g)), fmap_seqZ_eq. intros i Hi.
    rewrite <- !emoji_index_slice by done. apply emoji_at_inj; auto using emoji_index_range.
  - change 64 with (2 ^ 6). intros E i Hi. rewrite !emoji_index_slice by done. do 2 f_equal.
    replace (42 - 6 * i) with (6 + (36 - 6 * i)) by lia.
    rewrite Z.pow_add_r, <- !Z.div_div, E by lia. done.
Qed.

Lemma sas_number_inj b1 b2 :
  length b1 = 6%nat -> length b2 = 6%nat -> sas_number b1 = sas_number b2 -> b1 = b2.
Proof.
  intros H1 H2. unfold sas_number. rewrite !take_ge by lia. apply be_value_inj. congruence.
Qed.

(** The info string of the SAS is none of the other labels of the key schedule. *)
Lemma sas_info_separated :
  (forall l p i, l ∈ sender_labels -> hkdfInfo l p = Ok i -> i <> SAS_INFO) /\
  (forall v, INFO_WRAP v <> SAS_INFO).
Proof.
  split.
  - intros l p i Hl (z & -> & Hz & ->)%hkdfInfo_inv E. apply (f_equal (take 7)) in E.
    unfold sender_labels in Hl. rewrite list_elem_of_In in Hl. simpl In in Hl.
    destruct Hl as [<-|[<-|[<-|[]]]]; vm_compute in E; discriminate E.
  - intros v E. apply (f_equal (take 1)) in E. vm_compute in E. discriminate E.
Qed.

Section SasLemmas.
Context `{WebCryptoLaws}.

Lemma computeSas_inv dh d :
  computeSas dh = Ok d ->
  exists b, deriveSasBytes dh = Ok b /\ length b = 6%nat /\
    d = mkSasData (decimal_group b <$> seqZ 0 3) (emoji_at <$> (emoji_index b <$> seqZ 0 7)).
Proof.
  unfold computeSas. destruct (deriveSasBytes dh) as [b|] eqn:E; [|done]. cbn [mbind result_bind].
  pose proof E as Hl. apply hkdf_len in Hl; [|done]. change (length b = 6%nat) in Hl.
  rewrite generateDecimalSas_ok, generateEmojiSas_ok by lia. cbn [mbind result_bind].
  intros <-%Ok_inj. by exists b.
Qed.

Lemma computeSas_total dh : exists d, computeSas dh = Ok d.
Proof.
  unfold computeSas, deriveSasBytes, hkdfExtractExpand.
  destruct (hkdf_total SHA_256 dh [] SAS_INFO SAS_BYTES_LENGTH) as [b Eb]; [unfold SAS_BYTES_LENGTH; lia|].
  pose proof Eb as Hl. apply hkdf_length in Hl; [|done]. change (length b = 6%nat) in Hl.
  rewrite Eb. cbn [settle mbind result_bind].
  rewrite generateDecimalSas_ok, generateEmojiSas_ok by lia. by eexists.
Qed.

End SasLemmas.

(** ** Properties *)

(** C34. What two users who compare their SAS learn: equal decimals mean that the six derived bytes
    are equal, equal emoji that their top 42 bits are (the last six bits are not shown). Every SAS
    has three groups, none above 65535, and seven emoji of the table. *)
Theorem sas_comparison `{WebCryptoLaws} (s1 s2 : bytes) (d1 d2 : SasData)
    (H1 : computeSas s1 = Ok d1) (H2 : computeSas s2 = Ok d2) :
  (sas_decimal d1 = sas_decimal d2 <-> deriveSasBytes s1 = deriveSasBytes s2) /\
  (exists b1 b2, deriveSasBytes s1 = Ok b1 /\ deriveSasBytes s2 = Ok b2 /\
    (sas_emoji d1 = sas_emoji d2 <-> be_value b1 / 2 ^ 6 = be_value b2 / 2 ^ 6)) /\
  length (sas_decimal d1) = 3%nat /\ Forall (fun g => 0 <= g <= 65535) (sas_decimal d1) /\
  length (sas_emoji d1) = 7%nat /\ Forall (fun e => e ∈ SAS_EMOJI_TABLE) (sas_emoji d1).
Proof.
  apply computeSas_inv in H1 as (b1 & E1 & L1 & ->), H2 as (b2 & E2 & L2 & ->). cbn [sas_decimal sas_emoji].
  split_and!.
  - rewrite decimals_eq, E1, E2 by lia. split; [|by intros ->%Ok_inj].
    intros E. f_equal. by apply sas_number_inj.
  - exists b1, b2. split_and!; [done..|]. rewrite emojis_eq by lia.
    unfold sas_number. by rewrite !take_ge by lia.
  - done.
  - apply Forall_fmap, Forall_forall. intros i Hi%elem_of_seqZ. simpl.
    rewrite decimal_group_value by lia.
    pose proof (Z.mod_pos_bound (sas_number b1 / 2 ^ (32 - 16 * i)) (2 ^ 16) ltac:(done)). lia.
  - done.
  - rewrite <- list_fmap_compose. apply Forall_fmap, Forall_forall. intros i Hi%elem_of_seqZ. simpl.
    eapply list_elem_of_lookup_2, emoji_at_lookup, emoji_index_range; lia.
Qed.

Lemma sas_comparison_witness :
  match computeSas (H := toy) (demo_bytes 32 3), computeSas (H := toy) (demo_bytes 32 4) with
  | Ok d1, Ok d2 => sas_decimal d1 <> sas_decimal d2
  | _, _ => False
  end.
Proof.
  destruct (is_ok_ex (computeSas (H := toy) (demo_bytes 32 3))) as [d1 E1]; [vm_compute; reflexivity|].
  destruct (is_ok_ex (computeSas (H := toy) (demo_bytes 32 4))) as [d2 E2]; [vm_compute; reflexivity|].
  rewrite E1, E2. rewrite (proj1 (sas_comparison _ _ _ _ E1 E2)).
  intros E%(f_equal (fun r => from_option be_value 0 (result_option r))).
  vm_compute in E. discriminate E.
Defined.
