(* ===== verification/Kex.v ===== *)
(** * Kex: the shared-password key exchange (src/kex-simple.ts)

    PBKDF2 and HKDF of @noble/hashes are the class [NobleHashes]: an operation gives [None] where
    the package throws. Numbers are finite. *)
From S2P Require Import Prelude Errors Internal Header Kid WebCrypto Toy Crypto Fips Sas.

Class NobleHashes := {
  (** [pbkdf2Async(hash, password, salt, { c, dkLen })] *)
  pbkdf2 : Hash -> bytes -> bytes -> jsnum -> Z -> option bytes;
  (** [hkdf(hash, ikm, undefined, info, length)] *)
  noble_hkdf : Hash -> bytes -> bytes -> Z -> option bytes
}.

(** Documented: both give as many bytes as asked, for a positive integer number of iterations and
    up to 255 hash lengths. *)
Class NobleHashesLaws `{NobleHashes} : Prop := {
  pbkdf2_length h pw salt c n out : pbkdf2 h pw salt c n = Some out -> Z.of_nat (length out) = n;
  pbkdf2_total h pw salt c n :
    0 < c -> 0 < n <= 255 * 32 -> is_Some (pbkdf2 h pw salt (JsInt c) n);
  noble_hkdf_length h ikm info n out :
    noble_hkdf h ikm info n = Some out -> Z.of_nat (length out) = n;
  noble_hkdf_total h ikm info n : 0 < n <= 255 * 32 -> is_Some (noble_hkdf h ikm info n)
}.

(** A throw of the package. *)
Definition noble {A} (o : option A) : res A :=
  match o with Some a => Ok a | None => Throw (GenericError "noble-hashes") end.

Definition DEFAULT_SALT : bytes := textEncode "sframe-ratchet/simple-kex/default-salt/v1".
Definition EPOCH_INFO_PREFIX : string := "sframe-simple-kex/epoch/".

Record SimpleKexConfig := mkKexConfig {
  sharedSecret : string;
  cfg_salt : option bytes;
  cfg_iterations : option jsnum;
  cfg_suite : option CipherSuite;
  acknowledgeInsecure : bool
}.

Record SimpleKex := mkSimpleKex {
  kex_secret : string;
  kex_salt : bytes;
  kex_iterations : jsnum;
  kex_suite : CipherSuite
}.

Definition kex_warning : string := "[sframe-ratchet] SimpleKex is NOT for production".

(** The constructor. Its state is what was written to the console. *)
Definition newSimpleKex (active : FipsState) (config : SimpleKexConfig)
    : M (list string) js_error SimpleKex :=
  lift (assertNotSimpleKex active);;
  if decide (sharedSecret config = ""%string)
  then throw (TypeError "SimpleKex: sharedSecret must be a non-empty string") else
  (if acknowledgeInsecure config then mret tt else modify (fun console => console ++ [kex_warning]));;
  let this := {| kex_secret := sharedSecret config;
                 kex_salt := default DEFAULT_SALT (cfg_salt config);
                 kex_iterations := default (JsInt 600000) (cfg_iterations config);
                 kex_suite := default DEFAULT_CIPHER_SUITE (cfg_suite config) |} in
  if js_floor (kex_iterations this) <? 1
  then throw (RangeError "SimpleKex: iterations must be >= 1")
  else mret this.

Section Kex.
Context `{NobleHashes}.

Definition initialEpoch (this : SimpleKex) : res bytes :=
  let params := suiteParams (kex_suite this) in
  let password := textEncode (kex_secret this) in
  noble (pbkdf2 (hash params) password (kex_salt this) (kex_iterations this) (chainKeyBytes params)).

Definition kex_info (newEpoch : Z) : bytes := textEncode (EPOCH_INFO_PREFIX +:+ pretty newEpoch).

Definition rotateEpoch (this : SimpleKex) (prev : bytes) (newEpoch : jsnum) : res bytes :=
  let params := suiteParams (kex_suite this) in
  if negb (Z.of_nat (length prev) =? chainKeyBytes params)
  then Throw (TypeError "SimpleKex: prev chain key has the wrong length for the suite") else
  match newEpoch with
  | JsFrac _ => Throw (RangeError "SimpleKex: newEpoch must be an integer >= 1")
  | JsInt e =>
      if e <? 1 then Throw (RangeError "SimpleKex: newEpoch must be an integer >= 1")
      else noble (noble_hkdf (hash params) prev (kex_info e) (chainKeyBytes params))
  end.

(** The chain key of the epoch [n], as a caller that rotates one epoch at a time obtains it. *)
Fixpoint kex_chain (this : SimpleKex) (n : nat) : res bytes :=
  match n with
  | O => initialEpoch this
  | S n => prev ← kex_chain this n; rotateEpoch this prev (JsInt (Z.of_nat (S n)))
  end.

(** ** Lemmas *)

Lemma chainKeyBytes_range suite : 0 < chainKeyBytes (suiteParams suite) <= 64.
Proof. by destruct suite. Qed.

Lemma newSimpleKex_inv active config console this console' :
  newSimpleKex active config console = (Ok this, console') ->
  assertNotSimpleKex active = Ok tt /\ kex_secret this = sharedSecret config /\
  kex_secret this <> ""%string /\ 1 <= js_floor (kex_iterations this) /\
  kex_suite this = default DEFAULT_CIPHER_SUITE (cfg_suite config) /\
  console' = console ++ (if acknowledgeInsecure config then [] else [kex_warning]).
Proof.
  unfold newSimpleKex, lift, throw, modify, mbind, M_bind, mret, M_ret.
  destruct (assertNotSimpleKex active) as [[]|]; [|done].
  destruct (decide _) as [|Hs]; [done|].
  destruct (acknowledgeInsecure config); simpl;
    (destruct (Z.ltb_spec (js_floor (default (JsInt 600000) (cfg_iterations config))) 1); [done|]);
    intros [= <- <-]; simpl; rewrite ?app_nil_r; done.
Qed.

Lemma kex_chain_length `{!NobleHashesLaws} this n ck :
  kex_chain this n = Ok ck -> Z.of_nat (length ck) = chainKeyBytes (suiteParams (kex_suite this)).
Proof.
  destruct n as [|n]; simpl.
  - unfold initialEpoch. destruct (pbkdf2 _ _ _ _ _) as [k|] eqn:E; [|done].
    intros <-%Ok_inj. by apply pbkdf2_length in E.
  - destruct (kex_chain this n) as [prev|]; [|done]. cbn [mbind result_bind]. unfold rotateEpoch.
    destruct (negb _); [done|]. destruct (_ <? 1); [done|].
    destruct (noble_hkdf _ _ _ _) as [k|] eqn:E; [|done].
    intros <-%Ok_inj. by apply noble_hkdf_length in E.
Qed.

Lemma kex_chain_total `{!NobleHashesLaws} this c n :
  kex_iterations this = JsInt c -> 0 < c -> exists ck, kex_chain this n = Ok ck.
Proof.
  intros Ec Hc. pose proof (chainKeyBytes_range (kex_suite this)) as Hb.
  induction n as [|n [prev IH]]; cbn [kex_chain].
  - unfold initialEpoch. rewrite Ec.
    destruct (pbkdf2_total (hash (suiteParams (kex_suite this))) (textEncode (kex_secret this))
      (kex_salt this) c (chainKeyBytes (suiteParams (kex_suite this))) Hc ltac:(lia)) as [k ->].
    by exists k.
  - rewrite IH. cbn [mbind result_bind]. unfold rotateEpoch.
    rewrite (kex_chain_length _ _ _ IH), Z.eqb_refl. cbn [negb].
    destruct (Z.ltb_spec (Z.of_nat (S n)) 1); [lia|].
    destruct (noble_hkdf_total (hash (suiteParams (kex_suite this))) prev
      (kex_info (Z.of_nat (S n))) (chainKeyBytes (suiteParams (kex_suite this))) ltac:(lia)) as [k ->].
    by exists k.
Qed.

End Kex.

(** ** Labels *)

(** The labels of the rotation differ from epoch to epoch and from every other label. *)
Lemma kex_info_separated e :
  (forall e', kex_info e = kex_info e' -> e = e') /\ kex_info e <> SAS_INFO /\
  (forall v, kex_info e <> INFO_WRAP v) /\
  (forall l p i, l ∈ sender_labels -> hkdfInfo l p = Ok i -> kex_info e <> i).
Proof.
  split_and!.
  - intros e' E%textEncode_inj. unfold EPOCH_INFO_PREFIX in E. simpl in E.
    injection E as E. by apply (inj pretty).
  - intros E%(f_equal (take 8)). vm_compute in E. discriminate E.
  - intros v E%(f_equal (take 1)). vm_compute in E. discriminate E.
  - intros l p i Hl (z & -> & Hz & ->)%hkdfInfo_inv E%(f_equal (take 7)).
    unfold sender_labels in Hl. rewrite list_elem_of_In in Hl. simpl In in Hl.
    destruct Hl as [<-|[<-|[<-|[]]]]; vm_compute in E; discriminate E.
Qed.

(** ** A concrete instance *)

Definition toy_pbkdf2 (h : Hash) (pw salt : bytes) (c : jsnum) (n : Z) : option bytes :=
  match c with
  | JsInt c =>
      if bool_decide (0 < c) && bool_decide (0 < n)
      then Some (be_bytes (Z.to_nat n) (checksum [pw; salt; be_bytes 8 c])) else None
  | JsFrac _ => None
  end.

Definition toy_noble_hkdf (h : Hash) (ikm info : bytes) (n : Z) : option bytes :=
  if bool_decide (0 < n) then Some (be_bytes (Z.to_nat n) (checksum [ikm; info])) else None.

#[export] Instance toy_noble : NobleHashes := {| pbkdf2 := toy_pbkdf2; noble_hkdf := toy_noble_hkdf |}.

#[export] Instance toy_noble_laws : NobleHashesLaws.
Proof.
  split; cbn [pbkdf2 noble_hkdf toy_noble]; unfold toy_pbkdf2, toy_noble_hkdf.
  - intros h pw salt [c|c] n out; [|done].
    destruct (bool_decide_reflect (0 < c)), (bool_decide_reflect (0 < n)); cbn [andb]; try done.
    intros [= <-]. rewrite length_be_bytes. lia.
  - intros h pw salt c n Hc Hn. rewrite !bool_decide_eq_true_2 by lia. by eexists.
  - intros h ikm info n out. case_bool_decide; [|done]. intros [= <-]. rewrite length_be_bytes. lia.
  - intros h ikm info n Hn. rewrite bool_decide_eq_true_2 by lia. by eexists.
Qed.

(** ** Properties *)

(** The password exchange serves every epoch of the fixed KID space: from a [SimpleKex] with an
    integer iteration count, rotating epoch by epoch never fails, every chain key has the size of
    the suite, and each member can derive its sender key from it. The result depends on the
    configuration only, not on the warning flag. *)
Theorem simple_kex_chain `{WebCryptoLaws, NobleHashesLaws} (active : FipsState)
    (config : SimpleKexConfig) (this : SimpleKex) (console console' : list string) (c : Z)
    (Hn : newSimpleKex active config console = (Ok this, console'))
    (Hc : kex_iterations this = JsInt c) (n : nat) (pi : Z)
    (Hr : Z.of_nat n <= 0xffff) (Hp : 0 <= pi <= 0xffff) :
  exists ck k, kex_chain this n = Ok ck /\
    Z.of_nat (length ck) = chainKeyBytes (suiteParams (kex_suite this)) /\
    deriveSenderKeys ck (Z.of_nat n) pi (kex_suite this) FIXED_KID_CODEC = Ok k /\
    key_epoch k = Z.of_nat n /\ key_peerIndex k = pi.
Proof.
  apply newSimpleKex_inv in Hn as (_ & _ & _ & Hi & _). rewrite Hc in Hi. cbn [js_floor] in Hi.
  destruct (kex_chain_total this c n Hc ltac:(lia)) as [ck Eck].
  pose proof (kex_chain_length _ _ _ Eck) as Hl.
  destruct (deriveSenderKeys_total ck (Z.of_nat n) pi (kex_suite this) FIXED_KID_CODEC
    (Z.of_nat n * 2 ^ 16 + pi) Hl Hp) as [k Ek]; [apply makeKid_value; lia|].
  exists ck, k. split_and!; [done..| |]; apply deriveSenderKeys_wf in Ek as [[] _]; done.
Qed.

Definition demo_kex_config : SimpleKexConfig := {|
  sharedSecret := "demo-password"; cfg_salt := None; cfg_iterations := Some (JsInt 1000);
  cfg_suite := None; acknowledgeInsecure := false
|}.

Lemma simple_kex_chain_witness :
  match newSimpleKex None demo_kex_config [] with
  | (Ok this, console) => console = [kex_warning] /\ is_ok (kex_chain this 7) = true
  | _ => False
  end.
Proof.
  destruct (newSimpleKex None demo_kex_config []) as [[this|e] console] eqn:E;
    [|vm_compute in E; discriminate E].
  assert (kex_iterations this = JsInt 1000 /\ console = [kex_warning]) as [Hc ->].
  { vm_compute in E. injection E as <- <-. split; reflexivity. }
  destruct (simple_kex_chain (H := toy) None demo_kex_config this [] _ 1000 E Hc 7 3) as (ck & k & -> & _);
    [lia|lia|]. split; reflexivity.
Defined.
