(* ===== verification/Room.v ===== *)
(** * Room: the room ratchet (src/ratchet.ts)

    A [RoomRatchet] with what it reaches: the buffers that hold key material (an [Uint8Array] that is
    passed around is an index into [heap], so that zeroizing it is seen by every holder), the
    timers of [setTimeout], the clock, the random source, the probe of x25519 and the callbacks
    that were notified. Peer ids are not names of members of [Object.prototype]. *)
From stdpp Require Import sorting.
From S2P Require Import Prelude Errors Internal Header Kid PeerMap WebCrypto Toy Crypto Fips Sas.
#[local] Open Scope Z_scope.

(** A reference to a buffer. *)
Abbreviation buffer := nat.

Section Types.
Context `{WebCrypto}.

Record EpochState := mkEpochState {
  es_epoch : Z;
  es_chainKey : buffer;
  es_peerIndexMap : list (string * jsnum);
  es_selfPeerIndex : Z;
  es_keys : gmap Z SenderKey
}.

Record PeerSasState := mkPeerSas {
  ps_epoch : Z;
  ps_data : SasData;
  ps_verified : bool
}.

(** The fields of the class; a callback is named by a number. *)
Record RoomRatchet := mkRatchet {
  identity : IdentityKeyPair;
  suite : CipherSuite;
  kidCodec : KidCodec;
  peers : OMap string PeerIdentity;
  epochs : gmap Z EpochState;
  currentEpoch : Z;
  sasState : gmap string PeerSasState;
  sasReadyCallbacks : list nat
}.

Record RoomWorld := mkRoomWorld {
  room : RoomRatchet;
  heap : list bytes;
  timers : list (Z * Z);
  room_clock : Z;
  rng : nat -> nat -> bytes;
  draws : nat;
  webCryptoX25519 : option bool;
  notified : list (nat * string)
}.

#[export] Instance eta_ratchet : Eta RoomRatchet := fun r =>
  mkRatchet (identity r) (suite r) (kidCodec r) (peers r) (epochs r) (currentEpoch r) (sasState r)
    (sasReadyCallbacks r).

#[export] Instance eta_peer_sas : Eta PeerSasState := fun r =>
  mkPeerSas (ps_epoch r) (ps_data r) (ps_verified r).

#[export] Instance eta_room_world : Eta RoomWorld := fun r =>
  mkRoomWorld (room r) (heap r) (timers r) (room_clock r) (rng r) (draws r) (webCryptoX25519 r)
    (notified r).

Inductive MemberChange :=
| Join (peer : PeerIdentity)
| Leave (peerId : string)
| Reconnect (peer : PeerIdentity).

End Types.

Section Room.
Context `{WebCrypto}.

Abbreviation R := (M RoomWorld js_error).

(** ** Access *)

Definition getr {A} (f : RoomRatchet -> A) : R A := gets (fun w => f (room w)).
Definition setr (f : RoomRatchet -> RoomRatchet) : R unit := modify (fun w => w <| room ::= f |>).

(** A new buffer with these bytes; the bytes of a buffer; zeros over a buffer. *)
Definition alloc (bs : bytes) : R buffer := fun w =>
  (Ok (length (heap w)), w <| heap ::= fun h => h ++ [bs] |>).
Definition contents (b : buffer) (w : RoomWorld) : bytes := default [] (heap w !! b).
Definition read (b : buffer) : R bytes := gets (contents b).
Definition zeroize_buffer (b : buffer) : R unit := modify (fun w => w <| heap ::= alter zeroize b |>).

(** [n] fresh random bytes. *)
Definition draw (n : nat) : R bytes := fun w =>
  (Ok (rng w (draws w) n), w <| draws ::= S |>).

(** ** The class *)

(** [new Map(members.map((p) => [p.peerId, p]))] *)
Definition peers_of (members : list PeerIdentity) : OMap string PeerIdentity :=
  foldl (fun m p => <[peerId p := p]> m) ∅ members.

Definition newRoomRatchet (active : FipsState) (identity : IdentityKeyPair)
    (initialPeers : list PeerIdentity) (suite : option CipherSuite)
    (kidFormat : option KidFormat) (mlsConfig : option MlsKidConfig) : res RoomRatchet :=
  let suite := default DEFAULT_CIPHER_SUITE suite in
  assertSuiteAllowed active suite;;
  codec ← makeKidCodec kidFormat mlsConfig;
  mret {| identity := identity; suite := suite; kidCodec := codec;
          peers := peers_of initialPeers; epochs := ∅; currentEpoch := -1; sasState := ∅;
          sasReadyCallbacks := [] |}.

Definition isAuthoritativeAuthor : R bool :=
  self ← getr (fun r => id_peerId (identity r));
  ids ← getr (fun r => omap_keys (peers r));
  mret (bool_decide (head (merge_sort string_le (self :: ids)) = Some self)).

(** The indices of a map whose values are integers: built here, or validated. *)
Definition indices (m : list (string * jsnum)) : list (string * Z) := prod_map id js_floor <$> m.

Definition forgetEpoch (epoch : Z) : R unit :=
  state ← getr (fun r => epochs r !! epoch);
  match state with Some state => zeroize_buffer (es_chainKey state) | None => mret tt end;;
  setr (fun r => r <| epochs ::= delete epoch |>).

(** Entries of an older epoch than [newEpoch] are deleted. *)
Definition wipeSasForRotation (newEpoch : Z) : R unit :=
  setr (fun r => r <| sasState ::= filter (fun e => ~ ps_epoch e.2 < newEpoch) |>).

Definition FORGET_MS : Z := 5000.

Definition installEpoch (version : Z) (chainKey : buffer) (peerIndexMap : list (string * jsnum))
    : R unit :=
  self ← getr (fun r => id_peerId (identity r));
  match assoc_lookup self (indices peerIndexMap) with
  | None => throw (GenericError "ratchet: self peer_id missing from peer_index_map")
  | Some selfPeerIndex =>
      ck ← read chainKey;
      suite ← getr suite;
      codec ← getr kidCodec;
      keys ← lift (deriveEpochKeyTable ck version (indices peerIndexMap) suite codec);
      setr (fun r => r <| epochs ::= <[version := {| es_epoch := version; es_chainKey := chainKey;
        es_peerIndexMap := peerIndexMap; es_selfPeerIndex := selfPeerIndex; es_keys := keys |}]> |>);;
      prev ← getr currentEpoch;
      if prev <? version then
        setr (fun r => r <| currentEpoch := version |>);;
        wipeSasForRotation version;;
        if 0 <=? prev
        then modify (fun w => w <| timers ::= fun l => l ++ [(room_clock w + FORGET_MS, prev)] |>)
        else mret tt
      else mret tt
  end.

(** Subscribers are told in order; what they throw is swallowed. *)
Definition installSas (peer : string) (epoch : Z) (dhSecret : buffer) : R unit :=
  dh ← read dhSecret;
  data ← lift (computeSas dh);
  zeroize_buffer dhSecret;;
  setr (fun r => r <| sasState ::= <[peer := {| ps_epoch := epoch; ps_data := data;
                                              ps_verified := false |}]> |>);;
  cbs ← getr sasReadyCallbacks;
  modify (fun w => w <| notified ::= fun l => l ++ ((fun cb => (cb, peer)) <$> cbs) |>).

(** [wrapChainKeyForPeer] with its random bytes drawn and its result allocated. *)
Definition wrapFor (peer : PeerIdentity) (chainKey : buffer) (version : Z)
    (peerIndexMap : list (string * jsnum)) : R (EpochAnnouncement * buffer) :=
  self ← getr (fun r => id_peerId (identity r));
  ck ← read chainKey;
  secret ← draw 32;
  iv ← draw 12;
  cache ← gets webCryptoX25519;
  modify (fun w => w <| webCryptoX25519 := (hasWebCryptoX25519 cache).2 |>);;
  '(announcement, dhSecret) ←
    lift (wrapChainKeyForPeer cache secret iv self peer ck version peerIndexMap);
  dh ← alloc dhSecret;
  mret (announcement, dh).

(** The loop over the members of [startNewEpoch]. *)
Fixpoint announce (members : list PeerIdentity) (chainKey : buffer) (version : Z)
    (peerIndexMap : list (string * jsnum)) : R (list EpochAnnouncement) :=
  match members with
  | [] => mret []
  | peer :: members =>
      self ← getr (fun r => id_peerId (identity r));
      if decide (peerId peer = self) then announce members chainKey version peerIndexMap else
      '(announcement, dhSecret) ← wrapFor peer chainKey version peerIndexMap;
      installSas (peerId peer) version dhSecret;;
      out ← announce members chainKey version peerIndexMap;
      mret (announcement :: out)
  end.

Definition startNewEpoch (members : list PeerIdentity) (version : option Z)
    (viaChainKey : option buffer) : R (list EpochAnnouncement) :=
  setr (fun r => r <| peers := peers_of members |>);;
  current ← getr currentEpoch;
  let version := default (current + 1) version in
  chainKey ← match viaChainKey with
    | Some b => mret b
    | None =>
        author ← isAuthoritativeAuthor;
        if author : bool then
          suite ← getr suite;
          random ← gets (fun w => rng w (draws w));
          modify (fun w => w <| draws ::= S |>);;
          alloc (randomChainKey random suite)
        else throw (GenericError "ratchet: non-authoritative author called startNewEpoch without viaChainKey")
    end;
  self ← getr (fun r => id_peerId (identity r));
  let peerIndexMap := buildPeerIndexMap (self :: (peerId <$> members)) in
  installEpoch version chainKey peerIndexMap;;
  announce members chainKey version peerIndexMap.

Definition consumeEpochAnnouncement (msg : EpochAnnouncement) : R unit :=
  identity ← getr identity;
  if negb (bool_decide (forPeer msg = id_peerId identity)) then mret tt else
  match validatePeerIndexMap (peerIndexMap msg) with
  | invalid reason => throw (GenericError "ratchet: invalid peer_index_map")
  | valid =>
      if negb (bool_decide (id_peerId identity ∈ (peerIndexMap msg).*1))
      then throw (GenericError "ratchet: peer_index_map missing self") else
      cache ← gets webCryptoX25519;
      modify (fun w => w <| webCryptoX25519 := (hasWebCryptoX25519 cache).2 |>);;
      secret ← lift (x25519Dh cache (id_privateKey identity) (ephemeralPub msg));
      shared ← alloc secret;
      wrapKey ← lift (deriveWrapKey secret (version msg));
      ck ← lift (unwrapChainKey (keyWrapped msg) (wrap_iv msg) wrapKey);
      chainKey ← alloc ck;
      installEpoch (version msg) chainKey (peerIndexMap msg);;
      installSas (from msg) (version msg) shared
  end.

Definition no_key (epoch : Z) (peerIndex : option Z) : js_error :=
  KeyNotFoundError (mkErrorContext None (Some epoch) peerIndex None).

Definition advanceSending (r : RoomRatchet) : res SenderKey :=
  match epochs r !! currentEpoch r with
  | None => Throw (no_key (currentEpoch r) None)
  | Some state =>
      match es_keys state !! es_selfPeerIndex state with
      | None => Throw (no_key (currentEpoch r) (Some (es_selfPeerIndex state)))
      | Some key => Ok key
      end
  end.

Definition getReceivingKey (r : RoomRatchet) (epoch peerIndex : Z) : option SenderKey :=
  epochs r !! epoch ≫= fun state => es_keys state !! peerIndex.

(** The copy [next] of the peers, changed. *)
Definition change_peers (delta : MemberChange) (next : OMap string PeerIdentity)
    : OMap string PeerIdentity :=
  match delta with
  | Join peer | Reconnect peer => <[peerId peer := peer]> next
  | Leave id => delete id next
  end.

Definition rotateOnMemberChange (delta : MemberChange) : R (list EpochAnnouncement) :=
  next ← getr (fun r => change_peers delta (peers r));
  setr (fun r => r <| peers := next |>);;
  author ← isAuthoritativeAuthor;
  if negb author then mret [] else startNewEpoch (entries next).*2 None None.

Definition rewrapCurrentEpochFor (peer : PeerIdentity) : R (option EpochAnnouncement) :=
  author ← isAuthoritativeAuthor;
  if negb author then mret None else
  state ← getr (fun r => epochs r !! currentEpoch r);
  match state with
  | None => mret None
  | Some state =>
      '(announcement, dhSecret) ←
        wrapFor peer (es_chainKey state) (es_epoch state) (es_peerIndexMap state);
      installSas (peerId peer) (es_epoch state) dhSecret;;
      mret (Some announcement)
  end.

(** ** Accessors *)

Definition currentPeerIndexMap (r : RoomRatchet) : list (string * jsnum) :=
  default [] (es_peerIndexMap <$> epochs r !! currentEpoch r).
Definition getEpochPeerIndexMap (r : RoomRatchet) (epoch : Z) : option (list (string * jsnum)) :=
  es_peerIndexMap <$> epochs r !! epoch.
Definition selfPeerIndex (r : RoomRatchet) : option Z :=
  es_selfPeerIndex <$> epochs r !! currentEpoch r.
Definition getEpochChainKey (r : RoomRatchet) (epoch : Z) : option buffer :=
  es_chainKey <$> epochs r !! epoch.

Definition getSas (r : RoomRatchet) (peer : string) : option SasData :=
  ps_data <$> sasState r !! peer.
Definition isSasVerified (r : RoomRatchet) (peer : string) : bool :=
  default false (ps_verified <$> sasState r !! peer).
Definition markSasVerified (peer : string) (verified : bool) : R unit :=
  setr (fun r => r <| sasState ::= alter (fun s => s <| ps_verified := verified |>) peer |>).

(** Subscribing, and what the returned function does. *)
Definition onSasReady (cb : nat) : R unit :=
  setr (fun r => r <| sasReadyCallbacks ::= fun l => if decide (cb ∈ l) then l else l ++ [cb] |>).
Definition offSasReady (cb : nat) : R unit :=
  setr (fun r => r <| sasReadyCallbacks ::= filter (fun c => c <> cb) |>).

(** ** Events *)

(** The timers that are due run in the order in which they were set. *)
Fixpoint fire (due : list (Z * Z)) : R unit :=
  match due with
  | [] => mret tt
  | (_, epoch) :: due => forgetEpoch epoch;; fire due
  end.

Definition tick (ms : Z) : R unit :=
  modify (fun w => w <| room_clock ::= Z.add ms |>);;
  now ← gets room_clock;
  due ← gets (fun w => filter (fun t => t.1 <= now) (timers w));
  modify (fun w => w <| timers ::= filter (fun t => ~ t.1 <= now) |>);;
  fire due.

(** What a caller can do: call a method, make a buffer of its own, let time pass. *)
Inductive RoomEvent :=
| StartNewEpoch (members : list PeerIdentity) (version : option Z) (viaChainKey : option buffer)
| ConsumeEpochAnnouncement (msg : EpochAnnouncement)
| RotateOnMemberChange (delta : MemberChange)
| RewrapCurrentEpochFor (peer : PeerIdentity)
| ForgetEpoch (epoch : Z)
| MarkSasVerified (peer : string) (verified : bool)
| OnSasReady (cb : nat)
| OffSasReady (cb : nat)
| CallerBuffer (bs : bytes)
| Tick (ms : nat).

Definition handle (e : RoomEvent) : R unit :=
  match e with
  | StartNewEpoch members version via => startNewEpoch members version via;; mret tt
  | ConsumeEpochAnnouncement msg => consumeEpochAnnouncement msg
  | RotateOnMemberChange delta => rotateOnMemberChange delta;; mret tt
  | RewrapCurrentEpochFor peer => rewrapCurrentEpochFor peer;; mret tt
  | ForgetEpoch epoch => forgetEpoch epoch
  | MarkSasVerified peer verified => markSasVerified peer verified
  | OnSasReady cb => onSasReady cb
  | OffSasReady cb => offSasReady cb
  | CallerBuffer bs => alloc bs;; mret tt
  | Tick ms => tick (Z.of_nat ms)
  end.

(** A rejected call leaves the changes it made. *)
Definition room_step (w : RoomWorld) (e : RoomEvent) : RoomWorld := (handle e w).2.
Definition room_run (w : RoomWorld) (es : list RoomEvent) : RoomWorld := foldl room_step w es.

End Room.
