(* ===== verification/RoomLogic.v ===== *)
(** * RoomLogic: running the methods of the room ratchet

    One equation per method that says what it does to the world, and the parts of the world that
    the wrapping of keys and the SAS leave alone. *)
From stdpp Require Import sorting.
From S2P Require Import Prelude StateLogic Errors Internal Header Kid PeerMap WebCrypto Toy Crypto.
From S2P Require Import Fips Sas Room.
#[local] Open Scope Z_scope.

(** The node's own peer id. *)
Abbreviation self w := (id_peerId (identity (room w))).

Section RoomLogic.
Context `{WebCrypto}.
Implicit Types (w : RoomWorld) (r : RoomRatchet).

(** ** Equations *)

Lemma bind_draw {B} n (k : bytes -> M RoomWorld js_error B) w :
  (draw n ≫= k) w = k (rng w (draws w) n) (w <| draws ::= S |>).
Proof. done. Qed.

Lemma bind_alloc {B} bs (k : buffer -> M RoomWorld js_error B) w :
  (alloc bs ≫= k) w = k (length (heap w)) (w <| heap ::= fun h => h ++ [bs] |>).
Proof. done. Qed.

Definition after_draws w : RoomWorld :=
  w <| draws ::= fun n => S (S n) |>
    <| webCryptoX25519 := (hasWebCryptoX25519 (webCryptoX25519 w)).2 |>.

Definition after_wrap (dh : bytes) w : RoomWorld :=
  after_draws (w <| heap ::= fun h => h ++ [dh] |>).

Lemma wrapFor_run peer ck v m w :
  wrapFor peer ck v m w =
    match wrapChainKeyForPeer (webCryptoX25519 w) (rng w (draws w) 32) (rng w (S (draws w)) 12)
            (self w) peer (contents ck w) v m with
    | Ok (ann, dh) => (Ok (ann, length (heap w)), after_wrap dh w)
    | Throw e => (Throw e, after_draws w)
    end.
Proof.
  unfold wrapFor, getr, read.
  rewrite !bind_gets, !bind_draw, bind_gets, bind_modify, bind_lift.
  cbn.
  by destruct (wrapChainKeyForPeer _ _ _ _ _ _ _ _) as [[ann dh]|e].
Qed.

Definition with_sas (peer : string) (epoch : Z) (dh : buffer) (data : SasData) w : RoomWorld :=
  w <| heap ::= alter zeroize dh |>
    <| room ::= fun r => r <| sasState ::= <[peer := mkPeerSas epoch data false]> |> |>
    <| notified ::= fun l => l ++ ((fun cb => (cb, peer)) <$> sasReadyCallbacks (room w)) |>.

Lemma installSas_run peer epoch dh w :
  installSas peer epoch dh w =
    match computeSas (contents dh w) with
    | Ok data => (Ok tt, with_sas peer epoch dh data w)
    | Throw e => (Throw e, w)
    end.
Proof.
  unfold installSas, read, getr, setr, zeroize_buffer. rewrite bind_gets, bind_lift.
  by destruct (computeSas _).
Qed.

Lemma forgetEpoch_run e w :
  forgetEpoch e w =
    (Ok tt, match epochs (room w) !! e with
            | Some st => w <| heap ::= alter zeroize (es_chainKey st) |>
            | None => w
            end <| room ::= fun r => r <| epochs ::= delete e |> |>).
Proof.
  unfold forgetEpoch, getr, setr, zeroize_buffer. rewrite bind_gets. by destruct (_ !! e).
Qed.

(** The entries of [sasState] that survive a rotation to [v]. *)
Definition live_sas (v : Z) (m : gmap string PeerSasState) : gmap string PeerSasState :=
  filter (fun e => ~ ps_epoch e.2 < v) m.

Definition with_epoch (v : Z) (st : EpochState) w : RoomWorld :=
  let w' := w <| room ::= fun r => r <| epochs ::= <[v := st]> |> |> in
  let prev := currentEpoch (room w) in
  if prev <? v then
    let w' := w' <| room ::= fun r => r <| currentEpoch := v |> <| sasState ::= live_sas v |> |> in
    if 0 <=? prev
    then w' <| timers ::= fun l => l ++ [(room_clock w + FORGET_MS, prev)] |> else w'
  else w'.

(** Installing an epoch: all of it, or nothing. *)
Lemma installEpoch_run v ck m w :
  installEpoch v ck m w =
    match assoc_lookup (self w) (indices m) with
    | None => (Throw (GenericError "ratchet: self peer_id missing from peer_index_map"), w)
    | Some idx =>
        match deriveEpochKeyTable (contents ck w) v (indices m) (suite (room w)) (kidCodec (room w)) with
        | Throw e => (Throw e, w)
        | Ok keys => (Ok tt, with_epoch v (mkEpochState v ck m idx keys) w)
        end
    end.
Proof.
  unfold installEpoch, getr, setr, read. rewrite bind_gets.
  destruct (assoc_lookup _ _) as [idx|]; [|done]. rewrite !bind_gets, bind_lift.
  destruct (deriveEpochKeyTable _ _ _ _ _) as [keys|e]; [|done].
  rewrite bind_modify, bind_gets. unfold with_epoch. cbn -[Z.ltb Z.leb].
  destruct (currentEpoch (room w) <? v); [|done].
  rewrite bind_modify. unfold wipeSasForRotation, setr. rewrite bind_modify.
  cbn -[Z.ltb Z.leb]. by destruct (0 <=? currentEpoch (room w)).
Qed.

Lemma room_install_inv v ck m w u w' :
  installEpoch v ck m w = (Ok u, w') ->
  exists idx keys, assoc_lookup (self w) (indices m) = Some idx /\
    deriveEpochKeyTable (contents ck w) v (indices m) (suite (room w)) (kidCodec (room w)) = Ok keys /\
    w' = with_epoch v (mkEpochState v ck m idx keys) w.
Proof.
  rewrite installEpoch_run. destruct (assoc_lookup _ _) as [idx|]; [|done].
  destruct (deriveEpochKeyTable _ _ _ _ _) as [keys|]; [|done]. intros [= _ <-]. eauto.
Qed.

(** ** Projections of [with_epoch] *)

Lemma with_epoch_epochs v st w : epochs (room (with_epoch v st w)) = <[v := st]> (epochs (room w)).
Proof. unfold with_epoch. cbv zeta. by repeat case_match. Qed.

Lemma with_epoch_current v st w :
  currentEpoch (room (with_epoch v st w)) = Z.max (currentEpoch (room w)) v.
Proof.
  unfold with_epoch. cbv zeta. destruct (Z.ltb_spec (currentEpoch (room w)) v).
  - rewrite Z.max_r by lia. by destruct (0 <=? _).
  - rewrite Z.max_l by lia. done.
Qed.

Lemma with_epoch_heap v st w : heap (with_epoch v st w) = heap w.
Proof. unfold with_epoch. cbv zeta. by repeat case_match. Qed.

Lemma with_epoch_clock v st w : room_clock (with_epoch v st w) = room_clock w.
Proof. unfold with_epoch. cbv zeta. by repeat case_match. Qed.

Lemma with_epoch_const v st w :
  identity (room (with_epoch v st w)) = identity (room w) /\
  suite (room (with_epoch v st w)) = suite (room w) /\
  kidCodec (room (with_epoch v st w)) = kidCodec (room w) /\
  peers (room (with_epoch v st w)) = peers (room w) /\
  rng (with_epoch v st w) = rng w.
Proof. unfold with_epoch. cbv zeta. by repeat case_match. Qed.

Lemma with_epoch_timers v st w :
  timers (with_epoch v st w) = timers w ++
    (if (currentEpoch (room w) <? v) && (0 <=? currentEpoch (room w))
     then [(room_clock w + FORGET_MS, currentEpoch (room w))] else []).
Proof.
  unfold with_epoch. cbv zeta. destruct (_ <? v), (0 <=? _); cbn [andb]; by rewrite ?app_nil_r.
Qed.

Lemma with_epoch_sas v st w :
  sasState (room (with_epoch v st w)) =
    if currentEpoch (room w) <? v then live_sas v (sasState (room w)) else sasState (room w).
Proof. unfold with_epoch. cbv zeta. by repeat case_match. Qed.

(** ** What wrapping and the SAS leave alone *)

(** Everything but the SAS, the heap and the random source. *)
Definition ledger w := (identity (room w), suite (room w), kidCodec (room w), peers (room w),
  epochs (room w), currentEpoch (room w), timers w, room_clock w, rng w).

(** Buffers that existed keep their bytes. *)
Definition heap_ext : relation RoomWorld := fun w w' =>
  (length (heap w) <= length (heap w'))%nat /\
  forall b, (b < length (heap w))%nat -> heap w' !! b = heap w !! b.

#[export] Instance heap_ext_preorder : PreOrder heap_ext.
Proof.
  split; [by intros w|]. intros w1 w2 w3 [L1 E1] [L2 E2]. split; [lia|].
  intros b Hb. rewrite E2 by lia. by apply E1.
Qed.

Lemma heap_ext_alloc w w' bs : heap w' = heap w ++ [bs] -> heap_ext w w'.
Proof.
  intros E. unfold heap_ext. rewrite E, length_app. split; [lia|]. intros b Hb. by rewrite lookup_app_l.
Qed.

Lemma heap_ext_contents w w' b : heap_ext w w' -> (b < length (heap w))%nat -> contents b w' = contents b w.
Proof. intros [_ E] Hb. unfold contents. by rewrite E. Qed.

(** Wrapping for a peer and installing the SAS of its secret. *)
Definition wrapped (peer : PeerIdentity) (ck : buffer) (v : Z) (m : list (string * jsnum))
    : M RoomWorld js_error EpochAnnouncement :=
  '(ann, dh) ← wrapFor peer ck v m; installSas (peerId peer) v dh;; mret ann.

Lemma with_sas_ledger p e dh d w : ledger (with_sas p e dh d w) = ledger w.
Proof. done. Qed.

Lemma installSas_fresh p e d w dhs :
  heap_ext w (with_sas p e (length (heap w)) d (after_wrap dhs w)).
Proof.
  unfold heap_ext, with_sas, after_wrap, after_draws. cbn. rewrite length_alter, length_app. split; [lia|].
  intros b Hb. rewrite list_lookup_alter_ne by lia. by rewrite lookup_app_l.
Qed.

Lemma contents_snoc w dh : contents (length (heap w)) (after_wrap dh w) = dh.
Proof. unfold contents, after_wrap, after_draws. cbn. by rewrite list_lookup_middle. Qed.

Lemma wrapped_spec peer ck v m w :
  ledger (wrapped peer ck v m w).2 = ledger w /\
  match wrapped peer ck v m w with
  | (Ok ann, w') => exists dh data,
      wrapChainKeyForPeer (webCryptoX25519 w) (rng w (draws w) 32) (rng w (S (draws w)) 12)
        (self w) peer (contents ck w) v m = Ok (ann, dh) /\ computeSas dh = Ok data /\
      sasState (room w') = <[peerId peer := mkPeerSas v data false]> (sasState (room w)) /\
      heap w' = heap w ++ [zeroize dh] /\ heap_ext w w'
  | (Throw e, w') => sasState (room w') = sasState (room w) /\ heap_ext w w'
  end.
Proof.
  pose proof (wrapFor_run peer ck v m w) as E. unfold wrapped.
  destruct (wrapChainKeyForPeer _ _ _ _ _ _ _ _) as [[ann dh]|e] eqn:Ew.
  2:{ rewrite (bind_Throw _ _ _ _ _ E). split; [done|]. split; [done|]. by split. }
  rewrite (bind_Ok _ _ _ _ _ E). clear E. cbv beta iota.
  set (w1 := after_wrap dh w). pose proof (installSas_run (peerId peer) v (length (heap w)) w1) as E.
  replace (contents (length (heap w)) w1) with dh in E by (symmetry; apply contents_snoc).
  destruct (computeSas dh) as [data|e] eqn:Ed.
  - rewrite (bind_Ok _ _ _ _ _ E). split; [done|]. exists dh, data.
    split_and!; [done|done|done| |apply installSas_fresh].
    cbn. rewrite <- (Nat.add_0_r (length (heap w))) at 1. by rewrite alter_app_r.
  - rewrite (bind_Throw _ _ _ _ _ E). split; [done|]. split; [done|].
    by apply (heap_ext_alloc w w1 dh).
Qed.

(** ** The announcements of an epoch *)

Lemma announce_cons peer ms ck v m w :
  announce (peer :: ms) ck v m w =
    if decide (peerId peer = self w) then announce ms ck v m w
    else (ann ← wrapped peer ck v m; out ← announce ms ck v m; mret (ann :: out)) w.
Proof.
  cbn [announce]. unfold getr. rewrite bind_gets. destruct (decide _); [done|].
  unfold wrapped, mbind, M_bind.
  destruct (wrapFor peer ck v m w) as [[[ann dh]|e] w1]; [|done].
  by destruct (installSas (peerId peer) v dh w1) as [[[]|e] w2].
Qed.

Lemma ledger_self w w' : ledger w' = ledger w -> self w' = self w.
Proof. unfold ledger. by intros [= -> _]. Qed.

Lemma announce_ledger ms ck v m w :
  ledger (announce ms ck v m w).2 = ledger w /\ heap_ext w (announce ms ck v m w).2.
Proof.
  revert w. induction ms as [|peer ms IH]; intros w; [by split|].
  rewrite announce_cons. destruct (decide _); [apply IH|].
  pose proof (wrapped_spec peer ck v m w) as [Hl Hw]. unfold mbind, M_bind.
  destruct (wrapped peer ck v m w) as [[ann|e] w1]; cbn [snd] in Hl.
  - destruct Hw as (dh & data & _ & _ & _ & _ & Hext). destruct (IH w1) as [Hl2 Hext2].
    destruct (announce ms ck v m w1) as [[out|e] w2]; cbn [snd] in *;
      (split; [exact (eq_trans Hl2 Hl)|by transitivity w1]).
  - by destruct Hw.
Qed.

(** What an announcement is, and the SAS stored for its addressee. *)
Definition announced (ms : list PeerIdentity) (ck : buffer) (v : Z) (m : list (string * jsnum)) w
    (w' : RoomWorld) (ann : EpochAnnouncement) : Prop :=
  exists peer cache secret iv dh data, peer ∈ ms /\ peerId peer <> self w /\
    wrapChainKeyForPeer cache secret iv (self w) peer (contents ck w) v m = Ok (ann, dh) /\
    computeSas dh = Ok data /\
    (NoDup (peerId <$> ms) -> sasState (room w') !! peerId peer = Some (mkPeerSas v data false)).

Lemma announce_sas_other ms ck v m w p :
  p ∉ peerId <$> ms ->
  sasState (room (announce ms ck v m w).2) !! p = sasState (room w) !! p.
Proof.
  revert w. induction ms as [|peer ms IH]; intros w Hp; [done|]. csimpl in Hp.
  rewrite announce_cons. destruct (decide _); [apply IH; set_solver|].
  pose proof (wrapped_spec peer ck v m w) as [_ Hw]. unfold mbind, M_bind.
  destruct (wrapped peer ck v m w) as [[ann|e] w1].
  - destruct Hw as (dh & data & _ & _ & Hs & _). specialize (IH w1 ltac:(set_solver)).
    destruct (announce ms ck v m w1) as [[out|e] w2]; cbn [snd] in *;
      (transitivity (sasState (room w2) !! p); [done|]);
      rewrite IH, Hs, lookup_insert_ne by set_solver; done.
  - destruct Hw as [Hs _]. cbn. by rewrite Hs.
Qed.

Lemma announce_inv ms ck v m w out w' :
  (ck < length (heap w))%nat -> announce ms ck v m w = (Ok out, w') ->
  Forall (announced ms ck v m w w') out /\
  forPeer <$> out = filter (fun p => p <> self w) (peerId <$> ms).
Proof.
  revert w out. induction ms as [|peer ms IH]; intros w out Hck Ha.
  { injection Ha as <- <-. split; [constructor|done]. }
  rewrite announce_cons in Ha. csimpl. destruct (decide (peerId peer = self w)) as [Eself|Hself].
  { rewrite filter_cons_False by auto. apply IH in Ha as [Hf Ho]; [|done]. split; [|done].
    eapply Forall_impl; [exact Hf|]. intros ann (p & cache & s & iv & dh & d & Hp & H1 & H2 & H3 & H4).
    exists p, cache, s, iv, dh, d. split_and!; [set_solver|done..|]. csimpl.
    intros [_ Hnd]%NoDup_cons. auto. }
  rewrite filter_cons_True by done.
  pose proof (wrapped_spec peer ck v m w) as [Hl Hw].
  apply bind_inv in Ha as (ann & w1 & Ew & Ha). rewrite Ew in Hl, Hw. cbn [snd] in Hl.
  destruct Hw as (dh & data & Hwrap & Hd & Hs & _ & Hext).
  apply bind_inv in Ha as (out1 & w2 & Ea & Ha). injection Ha as <- <-.
  pose proof (announce_sas_other ms ck v m w1 (peerId peer)) as Hother. rewrite Ea in Hother.
  apply IH in Ea as [Hf Ho]; [|destruct Hext; lia].
  rewrite (ledger_self _ _ Hl) in Ho. csimpl. split; [constructor|].
  - exists peer, (webCryptoX25519 w), (rng w (draws w) 32), (rng w (S (draws w)) 12), dh, data.
    split_and!; [set_solver|done..|]. csimpl. intros [Hni _]%NoDup_cons.
    cbn in Hother. rewrite (Hother Hni), Hs. apply lookup_insert_eq.
  - eapply Forall_impl; [exact Hf|]. intros a (p & cache & s & iv & dh' & d & Hp & H1 & H2 & H3 & H4).
    rewrite (ledger_self _ _ Hl), (heap_ext_contents _ _ _ Hext Hck) in *.
    exists p, cache, s, iv, dh', d. split_and!; [set_solver|done..|]. csimpl.
    intros [_ Hnd]%NoDup_cons. auto.
  - apply wrap_fields in Hwrap as (_ & _ & -> & _). by rewrite Ho.
Qed.

(** ** startNewEpoch *)

Lemma isAuthoritativeAuthor_run w :
  isAuthoritativeAuthor w =
    (Ok (bool_decide (head (merge_sort string_le (self w :: omap_keys (peers (room w)))) =
                      Some (self w))), w).
Proof. done. Qed.

Definition with_peers (m : OMap string PeerIdentity) w : RoomWorld :=
  w <| room ::= fun r => r <| peers := m |> |>.

(** The world in which the chain key is chosen: an existing buffer, or fresh random bytes. *)
Definition key_chosen (via : option buffer) w (ck : buffer) (w1 : RoomWorld) : Prop :=
  match via with
  | Some b => ck = b /\ w1 = w
  | None => ck = length (heap w) /\
      w1 = w <| draws ::= S |>
             <| heap ::= fun h => h ++ [randomChainKey (rng w (draws w)) (suite (room w))] |>
  end.

Lemma key_chosen_ledger via w ck w1 :
  key_chosen via w ck w1 -> room w1 = room w /\ ledger w1 = ledger w /\ heap_ext w w1.
Proof.
  destruct via as [b|]; intros [_ ->]; [by split_and!|]. split_and!; [done|done|].
  by eapply heap_ext_alloc.
Qed.

Lemma key_chosen_bound via w ck w1 :
  key_chosen via w ck w1 -> (forall b, via = Some b -> (b < length (heap w))%nat) ->
  (ck < length (heap w1))%nat.
Proof.
  destruct via as [b|]; intros [-> ->] Hb; [by apply Hb|]. cbn. rewrite length_app. cbn. lia.
Qed.

(** The version and the index map of the epoch that a call starts. *)
Definition next_version (version : option Z) w : Z := default (currentEpoch (room w) + 1) version.
Definition next_map (members : list PeerIdentity) w : list (string * jsnum) :=
  buildPeerIndexMap (self w :: (peerId <$> members)).

Lemma startNewEpoch_inv ms version via w out w' :
  startNewEpoch ms version via w = (Ok out, w') ->
  exists ck w1 idx keys,
    key_chosen via (with_peers (peers_of ms) w) ck w1 /\
    assoc_lookup (self w) (indices (next_map ms w)) = Some idx /\
    deriveEpochKeyTable (contents ck w1) (next_version version w) (indices (next_map ms w))
      (suite (room w)) (kidCodec (room w)) = Ok keys /\
    announce ms ck (next_version version w) (next_map ms w)
      (with_epoch (next_version version w)
        (mkEpochState (next_version version w) ck (next_map ms w) idx keys) w1) = (Ok out, w').
Proof.
  unfold startNewEpoch, setr, getr. rewrite bind_modify, bind_gets. cbv zeta.
  intros (ck & w1 & Ek & Hs)%bind_inv.
  assert (key_chosen via (with_peers (peers_of ms) w) ck w1) as Hck.
  { destruct via as [b|]; [by injection Ek as <- <-|].
    change (w <| room ::= _ |>) with (with_peers (peers_of ms) w) in Ek.
    set (wp := with_peers (peers_of ms) w) in *.
    apply bind_inv in Ek as (a & w2 & Ea & Ek). rewrite isAuthoritativeAuthor_run in Ea.
    injection Ea as <- <-. case_bool_decide; [|done]. injection Ek as <- <-. done. }
  destruct (key_chosen_ledger _ _ _ _ Hck) as [Hr _].
  rewrite bind_gets in Hs. apply bind_inv in Hs as (u & w2 & Ei & Ha).
  apply room_install_inv in Ei as (idx & keys & Hidx & Hkeys & ->).
  rewrite Hr in Hidx, Hkeys, Ha. exists ck, w1, idx, keys. done.
Qed.

(** ** consumeEpochAnnouncement *)

Lemma consume_ok msg w dh k ckb idx keys data :
  forPeer msg = self w -> validatePeerIndexMap (peerIndexMap msg) = valid ->
  self w ∈ (peerIndexMap msg).*1 ->
  x25519Dh (webCryptoX25519 w) (id_privateKey (identity (room w))) (ephemeralPub msg) = Ok dh ->
  deriveWrapKey dh (version msg) = Ok k -> unwrapChainKey (keyWrapped msg) (wrap_iv msg) k = Ok ckb ->
  assoc_lookup (self w) (indices (peerIndexMap msg)) = Some idx ->
  deriveEpochKeyTable ckb (version msg) (indices (peerIndexMap msg)) (suite (room w))
    (kidCodec (room w)) = Ok keys ->
  computeSas dh = Ok data ->
  exists b w', consumeEpochAnnouncement msg w = (Ok tt, w') /\
    ledger w' = ledger (with_epoch (version msg)
                          (mkEpochState (version msg) b (peerIndexMap msg) idx keys) w) /\
    (b < length (heap w'))%nat /\ contents b w' = ckb /\
    sasState (room w') = <[from msg := mkPeerSas (version msg) data false]>
      (if currentEpoch (room w) <? version msg then live_sas (version msg) (sasState (room w))
       else sasState (room w)).
Proof.
  intros Hfor Hval Hin Hdh Hk Hck Hidx Hkeys Hsas.
  unfold consumeEpochAnnouncement, getr. rewrite bind_gets, bool_decide_eq_true_2 by done.
  cbn [negb]. rewrite Hval, bool_decide_eq_true_2 by done. cbn [negb].
  rewrite bind_gets, bind_modify, Hdh, bind_lift, bind_alloc, Hk, bind_lift, Hck, bind_lift, bind_alloc.
  set (w1 := _ <| heap ::= fun h => h ++ [ckb] |>).
  set (d := length _). set (b := length _).
  assert (heap w1 = heap w ++ [dh; ckb]) as Hh by (cbn; by rewrite <- app_assoc).
  assert (b = S (length (heap w))) as Hb by (unfold b; cbn; rewrite length_app; simpl; lia).
  assert (contents b w1 = ckb) as Hcb.
  { unfold contents. rewrite Hh, Hb, lookup_app_r by lia.
    by replace (S (length (heap w)) - length (heap w))%nat with 1%nat by lia. }
  pose proof (installEpoch_run (version msg) b (peerIndexMap msg) w1) as Ei.
  rewrite Hcb in Ei. cbn in Ei. rewrite Hidx, Hkeys in Ei.
  rewrite (bind_Ok _ _ _ _ _ Ei).
  set (w2 := with_epoch _ _ w1).
  assert (contents d w2 = dh) as Hcd.
  { unfold contents, w2. rewrite with_epoch_heap, Hh. unfold d. by rewrite list_lookup_middle. }
  pose proof (installSas_run (from msg) (version msg) d w2) as Es. rewrite Hcd, Hsas in Es.
  exists b, (with_sas (from msg) (version msg) d data w2). split_and!.
  - exact Es.
  - rewrite with_sas_ledger. unfold w2, with_epoch, ledger. cbn.
    destruct (currentEpoch (room w) <? version msg); [|done].
    by destruct (0 <=? currentEpoch (room w)).
  - change (b < length (alter zeroize d (heap w2)))%nat. rewrite length_alter. unfold w2.
    rewrite with_epoch_heap, Hh, length_app, Hb. simpl. lia.
  - unfold contents. change (default [] (alter zeroize d (heap w2) !! b) = ckb).
    assert (d = length (heap w)) by done. rewrite list_lookup_alter_ne by lia. unfold w2. rewrite with_epoch_heap. exact Hcb.
  - cbn. unfold w2. by rewrite with_epoch_sas.
Qed.

End RoomLogic.
