(* ===== verification/RoomE2E.v ===== *)
(** * RoomE2E: what the author of an epoch and the members agree on *)
From stdpp Require Import sorting.
From S2P Require Import Prelude StateLogic Errors Internal Header Kid PeerMap WebCrypto Toy Crypto.
From S2P Require Import SFrame Fips Sas Room RoomLogic.
#[local] Open Scope Z_scope.

Section Lemmas.
Context `{WebCryptoLaws}.
Implicit Types (w : RoomWorld) (r : RoomRatchet).

Lemma assoc_lookup_Some_elem (k : string) (m : list (string * Z)) :
  k ∈ m.*1 -> exists v, assoc_lookup k m = Some v /\ v ∈ m.*2.
Proof.
  induction m as [|[k' v'] m IH]; csimpl; [set_solver|]. intros Hk.
  destruct (decide (k = k')) as [->|]; [exists v'; set_solver|].
  destruct IH as (v & Hv & Hin); [set_solver|]. exists v. set_solver.
Qed.

Lemma indices_keys (m : list (string * jsnum)) : (indices m).*1 = m.*1.
Proof. unfold indices. rewrite <- list_fmap_compose. by apply list_fmap_ext. Qed.

(** A successful installation gives the node its own key. *)
Lemma own_key w ck v m idx keys :
  assoc_lookup (self w) (indices m) = Some idx ->
  deriveEpochKeyTable ck v (indices m) (suite (room w)) (kidCodec (room w)) = Ok keys ->
  exists k, keys !! idx = Some k /\ key_wf (kidCodec (room w)) (suite (room w)) v idx k.
Proof.
  intros Hidx [Hdom Hkeys]%deriveEpochKeyTable_lookup.
  assert (idx ∈ (indices m).*2) as Hin.
  { apply assoc_lookup_elem, (list_elem_of_fmap_2 snd) in Hidx. exact Hidx. }
  apply Hdom in Hin as [k Hk]. exists k. split; [done|].
  apply Hkeys in Hk. by apply deriveSenderKeys_wf in Hk as [Hwf _].
Qed.

(** The author's own world after [startNewEpoch]. *)
Lemma author_state ms version via w out w' :
  (forall b, via = Some b -> (b < length (heap w))%nat) ->
  startNewEpoch ms version via w = (Ok out, w') ->
  exists ck idx keys ckb,
    assoc_lookup (self w) (indices (next_map ms w)) = Some idx /\
    deriveEpochKeyTable ckb (next_version version w) (indices (next_map ms w))
      (suite (room w)) (kidCodec (room w)) = Ok keys /\
    epochs (room w') !! next_version version w =
      Some (mkEpochState (next_version version w) ck (next_map ms w) idx keys) /\
    contents ck w' = ckb /\ self w' = self w /\
    currentEpoch (room w') = Z.max (currentEpoch (room w)) (next_version version w) /\
    forall ann, ann ∈ out -> exists peer cache secret iv dh data,
      peer ∈ ms /\ peerId peer <> self w /\
      wrapChainKeyForPeer cache secret iv (self w) peer ckb (next_version version w)
        (next_map ms w) = Ok (ann, dh) /\
      computeSas dh = Ok data /\
      (NoDup (peerId <$> ms) ->
       sasState (room w') !! peerId peer = Some (mkPeerSas (next_version version w) data false)).
Proof.
  intros Hvia (ck & w1 & idx & keys & Hck & Hidx & Hkeys & Ha)%startNewEpoch_inv.
  pose proof (key_chosen_bound _ _ _ _ Hck Hvia) as Hb.
  destruct (key_chosen_ledger _ _ _ _ Hck) as (Hr & _ & _).
  set (v := next_version version w) in *. set (m := next_map ms w) in *.
  set (w2 := with_epoch v _ w1) in *.
  destruct (with_epoch_const v (mkEpochState v ck m idx keys) w1) as (Hid & _). fold w2 in Hid.
  assert (heap w2 = heap w1) as Hh2 by apply with_epoch_heap.
  pose proof (announce_ledger ms ck v m w2) as [Hl Hext]. rewrite Ha in Hl, Hext. cbn [snd] in Hl, Hext.
  assert (contents ck w2 = contents ck w1) as Hc2 by (unfold contents; by rewrite Hh2).
  assert (contents ck w' = contents ck w1) as Hc
    by (rewrite (heap_ext_contents _ _ _ Hext) by (by rewrite Hh2); exact Hc2).
  apply announce_inv in Ha as [Hf _]; [|by rewrite Hh2].
  injection Hl as Eid Esu Eco Epe Eep Ecu Eti Ecl Erng.
  exists ck, idx, keys, (contents ck w1). split_and!; [done|done| |done| | |].
  - rewrite Eep. unfold w2. rewrite with_epoch_epochs. apply lookup_insert_eq.
  - by rewrite Eid, Hid, Hr.
  - rewrite Ecu. unfold w2. by rewrite with_epoch_current, Hr.
  - intros ann Hin. rewrite Forall_forall in Hf.
    destruct (Hf _ Hin) as (peer & cache & s & iv & dh & data & H1 & H2 & H3 & H4 & H5).
    rewrite Hid, Hr in H2. rewrite Hid, Hr, Hc2 in H3. exists peer, cache, s, iv, dh, data.
    change (self (with_peers _ w)) with (self w) in *. by split_and!.
Qed.

End Lemmas.

(** ** Properties *)

(** C11. Key agreement. When the author of an epoch starts it, the announcement made for a member,
    consumed by the holder of that member's X25519 secret, installs the same chain key and the
    same table of sender keys for the same version, and gives both of them the same SAS for each
    other; and a frame sealed with the author's sending key then opens at the member. This holds
    for the author and any re-wrapping node, whichever X25519 backends they use. *)
Theorem epoch_agreement `{WebCryptoLaws} (wa wa' wb : RoomWorld) (members : list PeerIdentity)
    (version : option Z) (via : option buffer) (anns : list EpochAnnouncement)
    (ann : EpochAnnouncement)
    (Hs : startNewEpoch members version via wa = (Ok anns, wa'))
    (Hvia : forall b, via = Some b -> (b < length (heap wa))%nat)
    (Hnd : NoDup (self wa :: (peerId <$> members)))
    (Hp : "__proto__"%string ∉ self wa :: (peerId <$> members))
    (Hann : ann ∈ anns)
    (Hme : mkPeerIdentity (self wb) (noble_public (id_privateKey (identity (room wb)))) ∈ members)
    (Hto : forPeer ann = self wb)
    (Hsuite : suite (room wb) = suite (room wa)) (Hcodec : kidCodec (room wb) = kidCodec (room wa)) :
  let v := next_version version wa in
  exists wb' sa sb sas, consumeEpochAnnouncement ann wb = (Ok tt, wb') /\
    epochs (room wa') !! v = Some sa /\ epochs (room wb') !! v = Some sb /\
    contents (es_chainKey sb) wb' = contents (es_chainKey sa) wa' /\ es_keys sb = es_keys sa /\
    getSas (room wa') (self wb) = Some sas /\ getSas (room wb') (self wa) = Some sas /\
    (currentEpoch (room wa) < v -> KidCodecLaws (kidCodec (room wa)) ->
     exists k, advanceSending (room wa') = Ok k /\
       forall pt ctr p form frame, sframeEncrypt pt k ctr p form = Ok frame ->
         sframeDecrypt frame
           (fun lk => sframe_key <$> getReceivingKey (room wb') (lk_epoch lk) (lk_peerIndex lk))
           (mkMeta (Some (kidCodec (room wb))) p (Some form)) = Ok pt).
Proof.
  intros v. destruct (author_state _ _ _ _ _ _ Hvia Hs)
    as (ck & idx & keys & ckb & Hidx & Hkeys & Hsa & Hc & _ & Hcur & Hanns).
  destruct (Hanns _ Hann) as (peer & cache & s & iv & dh & data & Hin & Hne & Hwrap & Hdata & Hsas).
  destruct (wrap_fields _ _ _ _ _ _ _ _ _ _ Hwrap) as (Hv & Hfrom & Hfor & Hm).
  pose proof Hnd as Hnd'. apply NoDup_cons in Hnd' as [Hself Hids].
  assert (peer = mkPeerIdentity (self wb) (noble_public (id_privateKey (identity (room wb))))) as ->.
  { apply (NoDup_fmap_inj_in peerId members); [done|done|done|]. by rewrite <- Hfor, Hto. }
  cbn [peerId] in *.
  edestruct (wrap_opens cache (webCryptoX25519 wb)) as (Hdh & key & Hk & Hu); [|exact Hwrap|];
    [reflexivity|].
  assert (self wb ∈ (peerIndexMap ann).*1) as Hinm.
  { rewrite Hm. unfold next_map. rewrite (buildPeerIndexMap_keys _ Hnd Hp).
    apply elem_of_cons. right. apply list_elem_of_fmap. by eexists; split; [|exact Hin]. }
  destruct (assoc_lookup_Some_elem (self wb) (indices (peerIndexMap ann))) as (idxb & Hidxb & _);
    [by rewrite indices_keys|].
  destruct (consume_ok ann wb dh key ckb idxb keys data) as (b & wb' & Hcons & Hl & Hb & Hcb & Hsb);
    [done| |done|done|by rewrite Hv|done|done|by rewrite Hv, Hm, Hsuite, Hcodec|done|].
  { rewrite Hm. by apply buildPeerIndexMap_valid. }
  rewrite Hv, Hm, Hfrom in *. injection Hl as _ _ _ _ Eep _ _ _ _.
  rewrite with_epoch_epochs in Eep.
  exists wb', (mkEpochState v ck (next_map members wa) idx keys),
    (mkEpochState v b (next_map members wa) idxb keys), data. cbn [es_chainKey es_keys].
  assert (epochs (room wb') !! v = Some (mkEpochState v b (next_map members wa) idxb keys)) as Hvb
    by (rewrite Eep; apply lookup_insert_eq).
  split_and!; [done|done|done|congruence|done| | |].
  - unfold getSas. by rewrite (Hsas Hids).
  - unfold getSas. rewrite Hsb, lookup_insert_eq. done.
  - intros Hlt HL. destruct (own_key wa _ v _ _ _ Hidx Hkeys) as (k & Ek & Hwf). exists k. split.
    + unfold advanceSending. rewrite Hcur, Z.max_r by (unfold v in Hlt; lia).
      rewrite Hsa. cbn. by rewrite Ek.
    + intros pt ctr p form frame Hf. rewrite Hcodec.
      eapply sframe_open; [exact Hf|by apply codec_roundtrip, Hwf|].
      unfold getReceivingKey. cbn. rewrite Hvb. cbn. by rewrite Ek.
Qed.

(** A room of two: the world of a node that has just constructed its ratchet. *)
Definition demo_secret (seed : Z) : bytes := demo_bytes 32 seed.
Definition demo_node (id : string) (seed : Z) (peers : list PeerIdentity) : RoomWorld (H := toy) :=
  {| room := {| identity := newIdentity (demo_secret seed) id; suite := AES_128_GCM_SHA256;
                kidCodec := FIXED_KID_CODEC; peers := peers_of peers; epochs := ∅;
                currentEpoch := -1; sasState := ∅; sasReadyCallbacks := [] |};
     heap := []; timers := []; room_clock := 0;
     rng := fun i n => demo_bytes n (Z.of_nat i + 20); draws := 0; webCryptoX25519 := None;
     notified := [] |}.

Definition demo_peer (id : string) (seed : Z) : PeerIdentity :=
  mkPeerIdentity id (noble_public (WebCrypto := toy) (demo_secret seed)).

Definition demo_alice : RoomWorld (H := toy) := demo_node "alice" 3 [demo_peer "bob" 4].
Definition demo_bob : RoomWorld (H := toy) := demo_node "bob" 4 [demo_peer "alice" 3].

Lemma epoch_agreement_witness :
  match startNewEpoch [demo_peer "bob" 4] None None demo_alice with
  | (Ok [ann], alice) =>
      exists bob sas, consumeEpochAnnouncement ann demo_bob = (Ok tt, bob) /\
        getSas (room alice) "bob" = Some sas /\ getSas (room bob) "alice" = Some sas
  | _ => False
  end.
Proof.
  destruct (startNewEpoch [demo_peer "bob" 4] None None demo_alice) as [r alice] eqn:E.
  assert (match r with Ok [ann] => forPeer ann = "bob"%string | _ => False end) as Hr
    by (change r with (r, alice).1; rewrite <- E; vm_compute; reflexivity).
  destruct r as [[|ann [|]]|]; [destruct Hr| |destruct Hr|destruct Hr].
  destruct (epoch_agreement demo_alice alice demo_bob [demo_peer "bob" 4] None None [ann] ann E)
    as (bob & sa & sb & sas & H1 & _ & _ & _ & _ & H2 & H3 & _);
    [done|apply (bool_decide_unpack _); vm_compute; exact I
    |apply (bool_decide_unpack _); vm_compute; exact I
    |apply elem_of_cons; by left|apply elem_of_cons; by left|done|done|done|].
  exists bob, sas. exact (conj H1 (conj H2 H3)).
Defined.
