(* ===== verification/RoomInv.v ===== *)
(** * RoomInv: the life of an epoch and of a SAS in the room ratchet

    Every event of the room is a sequence of a few kinds of changes ([act]); the invariants are
    proved once per kind. [ordered] restricts the runs to those in which each installed epoch is
    newer than the current one, and the caller does not forget the current epoch by hand. *)
From S2P Require Import Prelude StateLogic Errors Internal Header Kid PeerMap WebCrypto Toy Crypto.
From S2P Require Import Fips Sas Room RoomLogic RoomE2E.

Section Acts.
Context `{WebCrypto}.
Implicit Types (w : RoomWorld).

Definition ledger0 w := (identity (room w), suite (room w), kidCodec (room w), epochs (room w),
  currentEpoch (room w), timers w, room_clock w).

Lemma ledger_0 w w' : ledger w' = ledger w -> ledger0 w' = ledger0 w.
Proof. unfold ledger, ledger0. congruence. Qed.

Inductive act (ordered : bool) : relation RoomWorld :=
| act_misc w w' :
    ledger0 w' = ledger0 w -> sasState (room w') = sasState (room w) -> heap_ext w w' ->
    act ordered w w'
| act_sas w w' p s :
    ledger0 w' = ledger0 w -> sasState (room w') = <[p := s]> (sasState (room w)) -> heap_ext w w' ->
    (0 <= ps_epoch s <= currentEpoch (room w) /\ (ordered = true -> ps_epoch s = currentEpoch (room w)) \/
     exists s0, sasState (room w) !! p = Some s0 /\ ps_epoch s0 = ps_epoch s) ->
    act ordered w w'
| act_zero w b :
    (forall v st, epochs (room w) !! v = Some st -> es_chainKey st <> b) ->
    act ordered w (w <| heap ::= alter zeroize b |>)
| act_install w v ck m idx keys :
    assoc_lookup (self w) (indices m) = Some idx ->
    deriveEpochKeyTable (contents ck w) v (indices m) (suite (room w)) (kidCodec (room w)) = Ok keys ->
    (ordered = true -> currentEpoch (room w) < v) ->
    act ordered w (with_epoch v (mkEpochState v ck m idx keys) w)
| act_forget w e :
    (ordered = true -> e <> currentEpoch (room w)) -> act ordered w (forgetEpoch e w).2
| act_tick w ms : 0 <= ms -> act ordered w (tick ms w).2.

(** ** Ticks *)

(** The timers that are due at [now]. *)
Definition due (now : Z) w : list (Z * Z) := filter (fun t => t.1 <= now) (timers w).

(** ** Buffers under zeroization *)

(** The bytes of [b] stay or become zeros. *)
Definition wipes (b : buffer) : relation RoomWorld := fun w w' =>
  contents b w' = contents b w \/ contents b w' = zeroize (contents b w).

Lemma zeroize_idem bs : zeroize (zeroize bs) = zeroize bs.
Proof. unfold zeroize. by rewrite length_zeros. Qed.

#[export] Instance wipes_preorder b : PreOrder (wipes b).
Proof.
  split; [by left|]. intros w1 w2 w3 [E1|E1] [E2|E2]; unfold wipes; rewrite E2, E1; auto.
  right. apply zeroize_idem.
Qed.

Definition wiped (b : buffer) w : Prop := contents b w = zeroize (contents b w).

Lemma wipes_wiped b w w' : wipes b w w' -> wiped b w -> wiped b w'.
Proof. unfold wiped. intros [E|E] Hw; rewrite E; [done|]. by rewrite zeroize_idem. Qed.

Lemma contents_alter b b' w h :
  h = alter zeroize b' (heap w) ->
  default [] (h !! b) = if decide (b = b') then zeroize (contents b w) else contents b w.
Proof.
  intros ->. unfold contents. case_decide as E.
  - subst. rewrite list_lookup_alter_eq. by destruct (heap w !! b').
  - by rewrite list_lookup_alter_ne by done.
Qed.

Lemma zero_wipes b b' w : wipes b w (w <| heap ::= alter zeroize b' |>).
Proof.
  unfold wipes. unfold contents at 1 3. cbn. rewrite (contents_alter b b' w _ eq_refl).
  case_decide; auto.
Qed.

(** ** Forgetting *)

Lemma forget_parts e w (w' := (forgetEpoch e w).2) :
  timers w' = timers w /\ room_clock w' = room_clock w /\
  currentEpoch (room w') = currentEpoch (room w) /\ sasState (room w') = sasState (room w) /\
  identity (room w') = identity (room w) /\ suite (room w') = suite (room w) /\
  kidCodec (room w') = kidCodec (room w) /\ length (heap w') = length (heap w) /\
  epochs (room w') = delete e (epochs (room w)).
Proof.
  subst w'. rewrite forgetEpoch_run. cbn. destruct (epochs (room w) !! e); cbn; [|done].
  by rewrite length_alter.
Qed.

Lemma forget_contents e w b :
  contents b (forgetEpoch e w).2 =
    match epochs (room w) !! e with
    | Some st => if decide (b = es_chainKey st) then zeroize (contents b w) else contents b w
    | None => contents b w
    end.
Proof.
  rewrite forgetEpoch_run. cbn. destruct (epochs (room w) !! e) as [st|]; [|done].
  unfold contents at 1. cbn. by apply contents_alter.
Qed.

Lemma forget_wipes e w b : wipes b w (forgetEpoch e w).2.
Proof.
  unfold wipes. rewrite forget_contents. destruct (_ !! e); [|by left]. case_decide; auto.
Qed.

(** What a sequence of timers forgets. *)
Lemma fire_spec l w (w' := (fire l w).2) :
  fire l w = (Ok tt, w') /\ timers w' = timers w /\ room_clock w' = room_clock w /\
  currentEpoch (room w') = currentEpoch (room w) /\ sasState (room w') = sasState (room w) /\
  identity (room w') = identity (room w) /\ suite (room w') = suite (room w) /\
  kidCodec (room w') = kidCodec (room w) /\ length (heap w') = length (heap w) /\
  (forall v, epochs (room w') !! v = if decide (v ∈ l.*2) then None else epochs (room w) !! v) /\
  (forall b, wipes b w w') /\
  (forall b, (forall v st, v ∈ l.*2 -> epochs (room w) !! v = Some st -> es_chainKey st <> b) ->
     contents b w' = contents b w) /\
  (forall v st, v ∈ l.*2 -> epochs (room w) !! v = Some st -> wiped (es_chainKey st) w').
Proof.
  subst w'. revert w. induction l as [|[t e] l IH]; intros w.
  { split_and!; try done; try (intros v; by rewrite decide_False by set_solver); set_solver. }
  cbn [fire]. pose proof (forget_parts e w) as (F1 & F2 & F3 & F4 & F5 & F6 & F7 & F8 & F9).
  assert (forgetEpoch e w = (Ok tt, (forgetEpoch e w).2)) as Ef by (by rewrite forgetEpoch_run).
  set (w1 := (forgetEpoch e w).2) in *. rewrite (bind_Ok _ _ _ _ _ Ef).
  destruct (IH w1) as (I0 & I1 & I2 & I3 & I4 & I5 & I6 & I7 & I8 & I9 & I10 & I11 & I12).
  split_and!; try congruence.
  - intros v. rewrite I9, F9. csimpl. destruct (decide (v = e)) as [->|].
    + rewrite (decide_True (P := e ∈ e :: _)) by set_solver. case_decide; [done|apply lookup_delete_eq].
    + rewrite lookup_delete_ne by done. case_decide; case_decide; set_solver.
  - intros b. transitivity w1; [apply forget_wipes|apply I10].
  - intros b Hb. rewrite I11.
    + unfold w1. rewrite forget_contents. destruct (epochs (room w) !! e) as [st|] eqn:E; [|done].
      rewrite decide_False; [done|]. intros ->. eapply Hb; [|exact E|done]. set_solver.
    + intros v st Hv E. rewrite F9 in E. apply lookup_delete_Some in E as [_ E].
      eapply Hb; [|exact E]. set_solver.
  - intros v st Hv E. destruct (decide (v = e)) as [->|Hne].
    + eapply wipes_wiped; [apply I10|]. unfold wiped, w1. rewrite forget_contents, E, decide_True by done.
      by rewrite zeroize_idem.
    + apply (I12 v); [set_solver|]. by rewrite F9, lookup_delete_ne.
Qed.

(** A tick of [ms] runs the due timers. *)
Lemma tick_run ms w :
  tick ms w = fire (due (ms + room_clock w) w)
    (w <| room_clock ::= Z.add ms |>
       <| timers ::= filter (fun t => ~ t.1 <= ms + room_clock w) |>).
Proof. unfold tick. rewrite bind_modify, !bind_gets, bind_modify. done. Qed.

Lemma elem_of_due now w t : t ∈ due now w <-> t ∈ timers w /\ t.1 <= now.
Proof. unfold due. rewrite list_elem_of_filter. tauto. Qed.

(** ** Invariants *)

Record room_inv w : Prop := {
  ri_current : -1 <= currentEpoch (room w);
  ri_codec : KidCodecLaws (kidCodec (room w));
  ri_epochs v st : epochs (room w) !! v = Some st ->
    es_epoch st = v /\ 0 <= v <= currentEpoch (room w) /\ (es_chainKey st < length (heap w))%nat /\
    exists k, es_keys st !! es_selfPeerIndex st = Some k /\
      key_wf (kidCodec (room w)) (suite (room w)) v (es_selfPeerIndex st) k;
  ri_timers t e : (t, e) ∈ timers w ->
    0 <= e < currentEpoch (room w) /\ room_clock w < t <= room_clock w + FORGET_MS;
  ri_sas p s : sasState (room w) !! p = Some s -> 0 <= ps_epoch s <= currentEpoch (room w)
}.

(** What ordered runs add: an old epoch awaits its timer, a SAS belongs to the current epoch, and
    the current epoch is installed. *)
Record tidy w : Prop := {
  td_epochs v : is_Some (epochs (room w) !! v) -> v = currentEpoch (room w) \/ exists t, (t, v) ∈ timers w;
  td_sas p s : sasState (room w) !! p = Some s -> ps_epoch s = currentEpoch (room w);
  td_current : 0 <= currentEpoch (room w) -> is_Some (epochs (room w) !! currentEpoch (room w))
}.

(** Between two worlds of an ordered run: once an epoch is old its state only disappears, with its
    chain key wiped, and no timer for it is added. *)
Record ages (v : Z) w w' : Prop := {
  ag_current : currentEpoch (room w) <= currentEpoch (room w');
  ag_clock : room_clock w <= room_clock w';
  ag_timers t : v < currentEpoch (room w) -> (t, v) ∈ timers w' -> (t, v) ∈ timers w;
  ag_heap b : (b < length (heap w))%nat -> wipes b w w' /\ (b < length (heap w'))%nat;
  ag_epochs : v < currentEpoch (room w) ->
    epochs (room w') !! v = epochs (room w) !! v \/
    (epochs (room w') !! v = None /\ forall st, epochs (room w) !! v = Some st ->
       (es_chainKey st < length (heap w))%nat -> wiped (es_chainKey st) w')
}.

End Acts.

Section Invariants.
Context `{WebCryptoLaws}.
Implicit Types (w : RoomWorld).

Lemma ledger0_inv w w' : ledger0 w' = ledger0 w -> (length (heap w) <= length (heap w'))%nat ->
  (forall p s, sasState (room w') !! p = Some s -> 0 <= ps_epoch s <= currentEpoch (room w)) ->
  room_inv w -> room_inv w'.
Proof.
  intros Hl Hh Hs [I1 I2 I3 I4 I5]. injection Hl as E1 E2 E3 E4 E5 E6 E7.
  split; rewrite ?E1, ?E2, ?E3, ?E4, ?E5, ?E6, ?E7; try done.
  intros v st (Ha & Hb & Hc & Hd)%I3. split_and!; [done|lia|lia|lia|done].
Qed.

(** A chain key from which keys were derived is in the heap. *)
Lemma derived_in_heap w ck v m idx keys :
  assoc_lookup (self w) (indices m) = Some idx ->
  deriveEpochKeyTable (contents ck w) v (indices m) (suite (room w)) (kidCodec (room w)) = Ok keys ->
  (ck < length (heap w))%nat.
Proof.
  intros Hidx Hk. destruct (own_key w _ v m idx keys Hidx Hk) as (k & Ek & _).
  apply deriveEpochKeyTable_lookup in Hk as [_ Hk]. apply Hk, deriveSenderKeys_wf in Ek as (_ & _ & Hl).
  destruct (Nat.lt_ge_cases ck (length (heap w))) as [|Hge]; [done|]. exfalso.
  unfold contents in Hl. rewrite (proj2 (lookup_ge_None _ _) Hge) in Hl. simpl in Hl.
  destruct (suite (room w)); discriminate Hl.
Qed.

Lemma install_inv w v ck m idx keys :
  assoc_lookup (self w) (indices m) = Some idx ->
  deriveEpochKeyTable (contents ck w) v (indices m) (suite (room w)) (kidCodec (room w)) = Ok keys ->
  room_inv w -> 0 <= v /\ room_inv (with_epoch v (mkEpochState v ck m idx keys) w).
Proof.
  intros Hidx Hk [I1 I2 I3 I4 I5]. set (st := mkEpochState v ck m idx keys).
  pose proof (derived_in_heap _ _ _ _ _ _ Hidx Hk) as Hck.
  destruct (own_key w _ v m idx keys Hidx Hk) as (k & Ek & Hwf).
  assert (0 <= v) as Hv by (apply (codec_range (c := kidCodec (room w)) _ _ _ (kw_kid _ _ _ _ _ Hwf))).
  split; [done|]. destruct (with_epoch_const v st w) as (_ & Es & Ec & _).
  split; rewrite ?with_epoch_current, ?Ec, ?Es, ?with_epoch_epochs, ?with_epoch_heap, ?with_epoch_clock;
    [lia|done| | |].
  - intros v' st' [[<- <-]|[_ Hst]]%lookup_insert_Some.
    + split_and!; [done|lia|lia|done|by exists k].
    + apply I3 in Hst as (Ha & Hb & Hc & Hd). split_and!; [done|lia|lia|done|done].
  - intros t e. rewrite with_epoch_timers, elem_of_app. intros [Ht|Ht].
    + apply I4 in Ht. lia.
    + destruct (_ && _) eqn:E in Ht; [|by apply not_elem_of_nil in Ht].
      apply andb_true_iff in E as [E1%Z.ltb_lt E2%Z.leb_le].
      apply list_elem_of_singleton in Ht. injection Ht as -> ->. unfold FORGET_MS. lia.
  - intros p s. rewrite with_epoch_sas. intros Hs.
    assert (sasState (room w) !! p = Some s) as Hs'.
    { destruct (_ <? v); [|done]. by apply map_lookup_filter_Some in Hs as [? _]. }
    apply I5 in Hs'. lia.
Qed.

Lemma act_inv ordered w w' : act ordered w w' -> room_inv w -> room_inv w'.
Proof.
  intros Ha HI.
  destruct Ha as [w w' Hl Hs Hh|w w' p s Hl Hs Hh Hc|w b Hb|w v ck m idx keys Hidx Hk Ho|w e He|w ms Hms].
  - eapply ledger0_inv; [done|apply Hh| |done]. rewrite Hs. apply (ri_sas _ HI).
  - eapply ledger0_inv; [done|apply Hh| |done]. intros q s'. rewrite Hs.
    intros [[-> <-]|[_ Hq]]%lookup_insert_Some; [|by eapply (ri_sas _ HI)].
    destruct Hc as [[Hc _]|(s0 & Hp & <-)]; [done|by eapply (ri_sas _ HI)].
  - apply (ledger0_inv w); [done| |apply (ri_sas _ HI)|done]. cbn. by rewrite length_alter.
  - by apply install_inv.
  - pose proof (forget_parts e w) as (F1 & F2 & F3 & F4 & F5 & F6 & F7 & F8 & F9).
    destruct HI as [I1 I2 I3 I4 I5].
    split; rewrite ?F1, ?F2, ?F3, ?F4, ?F5, ?F6, ?F7, ?F8, ?F9; try done.
    intros v st [_ Hv]%lookup_delete_Some. by apply I3.
  - rewrite tick_run. set (w1 := _ <| timers ::= _ |>). set (l := due _ _).
    pose proof (fire_spec l w1) as (F0 & F1 & F2 & F3 & F4 & F5 & F6 & F7 & F8 & F9 & _).
    destruct HI as [I1 I2 I3 I4 I5].
    split; rewrite ?F1, ?F2, ?F3, ?F4, ?F5, ?F6, ?F7, ?F8; try done.
    + intros v st. rewrite F9. case_decide; [done|]. by apply I3.
    + intros t e (Hnow & Ht)%list_elem_of_filter. cbn in Hnow |- *. apply I4 in Ht. lia.
Qed.

Lemma act_tidy w w' : act true w w' -> room_inv w -> tidy w -> tidy w'.
Proof.
  intros Ha HI [T1 T2 T3].
  destruct Ha as [w w' Hl Hs Hh|w w' p s Hl Hs Hh Hc|w b Hb|w v ck m idx keys Hidx Hk Ho|w e He|w ms Hms].
  - injection Hl as E1 E2 E3 E4 E5 E6 E7. split; rewrite ?E4, ?E5, ?E6, ?Hs; done.
  - injection Hl as E1 E2 E3 E4 E5 E6 E7. split; rewrite ?E4, ?E5, ?E6, ?Hs; [done| |done].
    intros q s' [[-> <-]|[_ Hq]]%lookup_insert_Some; [|by eapply T2].
    destruct Hc as [[_ Hc]|(s0 & Hp & <-)]; [by apply Hc|by eapply T2].
  - done.
  - specialize (Ho eq_refl).
    split; rewrite with_epoch_current, ?with_epoch_epochs.
    + intros v' Hv'. destruct (decide (v' = v)) as [->|Hne]; [left; lia|].
      rewrite lookup_insert_ne in Hv' by done. right. setoid_rewrite with_epoch_timers.
      rewrite (proj2 (Z.ltb_lt _ _)) by done. cbn [andb].
      destruct (T1 _ Hv') as [->|[t Ht]]; [|exists t; rewrite elem_of_app; by left].
      destruct Hv' as [st Hst]. apply (ri_epochs _ HI) in Hst as (_ & Hb & _).
      exists (room_clock w + FORGET_MS). rewrite (proj2 (Z.leb_le _ _)) by lia.
      rewrite elem_of_app. right. by apply list_elem_of_singleton.
    + intros p s. rewrite with_epoch_sas, (proj2 (Z.ltb_lt _ _)) by done. unfold live_sas.
      intros [Hs Hlive]%map_lookup_filter_Some. apply T2 in Hs. cbn in Hlive. lia.
    + intros _. rewrite Z.max_r by lia. by rewrite lookup_insert_eq.
  - pose proof (forget_parts e w) as (F1 & F2 & F3 & F4 & F5 & F6 & F7 & F8 & F9).
    specialize (He eq_refl). split; rewrite ?F1, ?F3, ?F4, ?F9; [|done|by rewrite lookup_delete_ne].
    intros v Hv. apply T1. destruct (decide (v = e)) as [->|]; [by rewrite lookup_delete_eq in Hv; destruct Hv|].
    by rewrite lookup_delete_ne in Hv.
  - rewrite tick_run. set (w1 := _ <| timers ::= _ |>). set (l := due _ _).
    pose proof (fire_spec l w1) as (F0 & F1 & F2 & F3 & F4 & F5 & F6 & F7 & F8 & F9 & _).
    split; rewrite ?F1, ?F3, ?F4; [|done|].
    2:{ intros Hc. rewrite F9, decide_False; [by apply T3|]. intros Hin.
        apply list_elem_of_fmap in Hin as ([t e] & E & [Ht _]%elem_of_due).
        apply (ri_timers _ HI) in Ht. cbn in E. lia. }
    intros v. rewrite F9. case_decide as Hd; [by intros [? ?]|]. intros [->|[t Ht]]%T1; [by left|].
    right. exists t. cbn. apply list_elem_of_filter. split; [|done]. cbn. intros Hle. apply Hd.
    apply list_elem_of_fmap. exists (t, v). split; [done|]. by apply elem_of_due.
Qed.

#[export] Instance ages_preorder v : PreOrder (ages v).
Proof.
  split.
  - intros w. split; try done; by left.
  - intros w1 w2 w3 [C1 K1 T1 H1 E1] [C2 K2 T2 H2 E2]. split; [lia|lia| | |].
    + intros t Hv Ht. apply T1, T2; [done|lia|done].
    + intros b Hb. destruct (H1 b Hb) as [W1 L1], (H2 b L1) as [W2 L2]. split; [by transitivity w2|done].
    + intros Hv. destruct (E1 Hv) as [E1'|[N1 Z1]], (E2 ltac:(lia)) as [E2'|[N2 Z2]].
      * left. congruence.
      * right. split; [done|]. intros st Hst Hb. apply Z2; [congruence|]. by apply H1.
      * right. split; [congruence|]. intros st Hst Hb.
        destruct (H1 _ Hb) as [_ L1], (H2 _ L1) as [W2 _]. eapply wipes_wiped; [exact W2|by apply Z1].
      * right. split; [done|]. intros st Hst Hb.
        destruct (H1 _ Hb) as [_ L1], (H2 _ L1) as [W2 _]. eapply wipes_wiped; [exact W2|by apply Z1].
Qed.

Lemma ledger0_ages v w w' :
  ledger0 w' = ledger0 w ->
  (forall b, (b < length (heap w))%nat -> wipes b w w' /\ (b < length (heap w'))%nat) -> ages v w w'.
Proof.
  intros Hl Hh. injection Hl as E1 E2 E3 E4 E5 E6 E7. split; rewrite ?E4, ?E5, ?E6, ?E7; try done.
  intros _. by left.
Qed.

Lemma heap_ext_wipes w w' b :
  heap_ext w w' -> (b < length (heap w))%nat -> wipes b w w' /\ (b < length (heap w'))%nat.
Proof. intros He Hb. split; [left; by apply heap_ext_contents|]. destruct He. lia. Qed.

Lemma act_ages v w w' : act true w w' -> room_inv w -> ages v w w'.
Proof.
  intros Ha HI.
  destruct Ha as [w w' Hl Hs Hh|w w' p s Hl Hs Hh Hc|w b Hb|w v' ck m idx keys Hidx Hk Ho|w e He|w ms Hms].
  - apply ledger0_ages; [done|]. intros b. by apply heap_ext_wipes.
  - apply ledger0_ages; [done|]. intros b. by apply heap_ext_wipes.
  - apply ledger0_ages; [done|]. intros b' Hb'. split; [apply zero_wipes|]. cbn. by rewrite length_alter.
  - specialize (Ho eq_refl). set (st := mkEpochState v' ck m idx keys).
    split; rewrite ?with_epoch_current, ?with_epoch_clock, ?with_epoch_epochs, ?with_epoch_heap;
      [lia|done| | |].
    + intros t Hv. rewrite with_epoch_timers, elem_of_app. intros [|Ht]; [done|].
      destruct (_ && _) in Ht; [|by apply not_elem_of_nil in Ht].
      apply list_elem_of_singleton in Ht. injection Ht as _ ->. lia.
    + intros b Hb. split; [left|done]. unfold contents. by rewrite with_epoch_heap.
    + intros Hv. left. rewrite lookup_insert_ne by lia. done.
  - pose proof (forget_parts e w) as (F1 & F2 & F3 & F4 & F5 & F6 & F7 & F8 & F9).
    split; rewrite ?F1, ?F2, ?F3, ?F8, ?F9; try done.
    + intros b Hb. split; [apply forget_wipes|done].
    + intros _. destruct (decide (v = e)) as [->|]; [right|left; by rewrite lookup_delete_ne].
      rewrite lookup_delete_eq. split; [done|]. intros st Hst _.
      unfold wiped. rewrite forget_contents, Hst, decide_True by done. by rewrite zeroize_idem.
  - rewrite tick_run. set (w1 := _ <| timers ::= _ |>). set (l := due _ _).
    pose proof (fire_spec l w1) as (F0 & F1 & F2 & F3 & F4 & F5 & F6 & F7 & F8 & F9 & F10 & F11 & F12).
    split; rewrite ?F1, ?F2, ?F3, ?F8; [done|cbn; lia| | |].
    + intros t _ Ht. cbn in Ht. by apply list_elem_of_filter in Ht as [_ Ht].
    + intros b Hb. split; [apply (F10 b)|done].
    + intros _. rewrite F9. case_decide as Hd; [right|by left]. split; [done|].
      intros st Hst _. by apply (F12 v).
Qed.

(** ** Events as changes *)

Section Events.
Context (ordered : bool).

Definition in_order w (e : RoomEvent) : Prop :=
  match e with
  | StartNewEpoch _ (Some v) _ => currentEpoch (room w) < v
  | ConsumeEpochAnnouncement msg => currentEpoch (room w) < version msg
  | ForgetEpoch e => e <> currentEpoch (room w)
  | _ => True
  end.

Lemma acts_inv w w' : rtc (act ordered) w w' -> room_inv w -> room_inv w'.
Proof. induction 1; eauto using act_inv. Qed.

Lemma misc_once w w' :
  ledger0 w' = ledger0 w -> sasState (room w') = sasState (room w) -> heap_ext w w' ->
  rtc (act ordered) w w'.
Proof. intros. by apply rtc_once, act_misc. Qed.

Lemma wrapped_acts peer ck v m w :
  0 <= v <= currentEpoch (room w) -> (ordered = true -> v = currentEpoch (room w)) ->
  rtc (act ordered) w (wrapped peer ck v m w).2.
Proof.
  intros Hv Ho. pose proof (wrapped_spec peer ck v m w) as [Hl Hw]. apply ledger_0 in Hl.
  destruct (wrapped peer ck v m w) as [[ann|e] w'].
  - destruct Hw as (dh & data & _ & _ & Hs & _ & Hext). eapply rtc_once, act_sas; [done|done|done|].
    left. by split.
  - destruct Hw as [Hs Hext]. by apply misc_once.
Qed.

Lemma announce_acts ms ck v m w :
  0 <= v <= currentEpoch (room w) -> (ordered = true -> v = currentEpoch (room w)) ->
  rtc (act ordered) w (announce ms ck v m w).2.
Proof.
  revert w. induction ms as [|peer ms IH]; intros w Hv Ho; [apply rtc_refl|].
  rewrite announce_cons. destruct (decide _); [by apply IH|].
  pose proof (wrapped_acts peer ck v m w Hv Ho) as Hw.
  pose proof (wrapped_spec peer ck v m w) as [Hl _]. apply ledger_0 in Hl.
  unfold mbind, M_bind. destruct (wrapped peer ck v m w) as [[ann|e] w1]; [|done]. cbn [snd] in Hw, Hl.
  injection Hl as _ _ _ _ Ec _ _.
  specialize (IH w1). rewrite Ec in IH. specialize (IH Hv Ho).
  destruct (announce ms ck v m w1) as [[out|e] w2]; by etransitivity.
Qed.

(** Installing an epoch, then what follows when it succeeds. *)
Lemma install_acts {A} v ck m (k : M RoomWorld js_error A) w :
  room_inv w -> (ordered = true -> currentEpoch (room w) < v) ->
  (forall st, 0 <= v -> es_chainKey st = ck -> room_inv (with_epoch v st w) ->
     rtc (act ordered) (with_epoch v st w) (k (with_epoch v st w)).2) ->
  rtc (act ordered) w ((installEpoch v ck m;; k) w).2.
Proof.
  intros HI Ho Hk. pose proof (installEpoch_run v ck m w) as E.
  destruct (assoc_lookup _ _) as [idx|] eqn:Eidx; [|rewrite (bind_Throw _ _ _ _ _ E); apply rtc_refl].
  destruct (deriveEpochKeyTable _ _ _ _ _) as [keys|] eqn:Ek;
    [|rewrite (bind_Throw _ _ _ _ _ E); apply rtc_refl].
  rewrite (bind_Ok _ _ _ _ _ E).
  destruct (install_inv _ _ _ _ _ _ Eidx Ek HI) as [Hv HI'].
  eapply rtc_l; [by apply act_install|]. by apply Hk.
Qed.

(** Everything before and after the installation is bookkeeping. *)
Lemma startNewEpoch_acts ms version via w :
  room_inv w -> (ordered = true -> in_order w (StartNewEpoch ms version via)) ->
  rtc (act ordered) w (startNewEpoch ms version via w).2.
Proof.
  intros HI Ho. unfold startNewEpoch, setr, getr. rewrite bind_modify, bind_gets. cbv zeta.
  change (w <| room ::= _ |>) with (with_peers (peers_of ms) w).
  set (wp := with_peers (peers_of ms) w). set (v := default _ version).
  assert (ordered = true -> currentEpoch (room w) < v) as Hv.
  { intros E. specialize (Ho E). unfold v. destruct version; [done|]. cbn. lia. }
  assert (rtc (act ordered) w wp) as Hp by (apply misc_once; [done|done|]; by split).
  etransitivity; [exact Hp|]. pose proof (acts_inv _ _ Hp HI) as HIp.
  assert (forall ck w1, key_chosen via wp ck w1 ->
    rtc (act ordered) wp ((installEpoch v ck (buildPeerIndexMap (self w :: (peerId <$> ms)));;
      announce ms ck v (buildPeerIndexMap (self w :: (peerId <$> ms)))) w1).2) as Hrest.
  { intros ck w1 Hck. destruct (key_chosen_ledger _ _ _ _ Hck) as (Hr & Hl & Hext).
    assert (rtc (act ordered) wp w1) as Ha1
      by (apply misc_once; [by apply ledger_0|by rewrite Hr|done]).
    etransitivity; [exact Ha1|]. apply install_acts.
    - by eapply acts_inv.
    - intros E. rewrite Hr. by apply Hv.
    - intros st Hv0 _ _. apply announce_acts; rewrite with_epoch_current, Hr.
      + cbn. lia.
      + intros E. specialize (Hv E). cbn. lia. }
  destruct via as [b|]; [by apply (Hrest b wp)|].
  unfold mbind at 1, M_bind. unfold mbind at 1, M_bind. rewrite isAuthoritativeAuthor_run.
  case_bool_decide; [|apply rtc_refl]. by apply (Hrest (length (heap wp)) _).
Qed.

Lemma consume_acts msg w :
  room_inv w -> (ordered = true -> in_order w (ConsumeEpochAnnouncement msg)) ->
  rtc (act ordered) w (consumeEpochAnnouncement msg w).2.
Proof.
  intros HI Ho. unfold consumeEpochAnnouncement, getr. rewrite bind_gets.
  destruct (bool_decide (forPeer msg = _)); cbn [negb]; [|apply rtc_refl].
  destruct (validatePeerIndexMap _); [|apply rtc_refl].
  destruct (bool_decide (_ ∈ _)); cbn [negb]; [|apply rtc_refl].
  rewrite bind_gets, bind_modify. set (w0 := w <| webCryptoX25519 := _ |>).
  assert (rtc (act ordered) w w0) as Ha0 by (apply misc_once; [done|done|]; by split).
  rewrite bind_lift. destruct (x25519Dh _ _ _) as [dh|]; [|done]. rewrite bind_alloc.
  set (w1 := w0 <| heap ::= _ |>).
  assert (heap_ext w w1) as He1 by (by apply (heap_ext_alloc w w1 dh)).
  assert (rtc (act ordered) w w1) as Ha1 by (by apply misc_once).
  rewrite bind_lift. destruct (deriveWrapKey _ _) as [k|]; [|done].
  rewrite bind_lift. destruct (unwrapChainKey _ _ _) as [ckb|]; [|done]. rewrite bind_alloc.
  set (w2 := w1 <| heap ::= _ |>).
  assert (heap_ext w w2) as He2
    by (transitivity w1; [done|]; by apply (heap_ext_alloc w1 w2 ckb)).
  assert (rtc (act ordered) w w2) as Ha2 by (by apply misc_once).
  etransitivity; [exact Ha2|]. apply install_acts; [by eapply acts_inv|exact Ho|].
  intros st Hv0 Hck HI2. set (w3 := with_epoch _ st w2) in *. set (d := length (heap w0)).
  pose proof (installSas_run (from msg) (version msg) d w3) as Es.
  destruct (computeSas _) as [data|e]; rewrite Es; [|apply rtc_refl]. cbn [snd].
  assert (forall v' st', epochs (room w3) !! v' = Some st' -> es_chainKey st' <> d) as Hd.
  { intros v' st'. unfold w3. rewrite with_epoch_epochs.
    intros [[_ <-]|[_ Hst]]%lookup_insert_Some.
    - rewrite Hck. unfold d. cbn. rewrite length_app. cbn. lia.
    - apply (ri_epochs _ HI) in Hst as (_ & _ & Hlt & _). unfold d. cbn. lia. }
  eapply rtc_l; [by apply (act_zero ordered w3 d)|]. eapply rtc_once, act_sas;
    [done|reflexivity|by split|]. left. cbn [ps_epoch].
  change (currentEpoch (room (w3 <| heap ::= alter zeroize d |>))) with (currentEpoch (room w3)).
  unfold w3. rewrite with_epoch_current. change (currentEpoch (room w2)) with (currentEpoch (room w)).
  split; [lia|]. intros E. specialize (Ho E). cbn in Ho. lia.
Qed.

Lemma rewrap_acts peer w :
  room_inv w -> rtc (act ordered) w (rewrapCurrentEpochFor peer w).2.
Proof.
  intros HI. unfold rewrapCurrentEpochFor.
  rewrite (bind_Ok _ _ _ _ _ (isAuthoritativeAuthor_run w)).
  case_bool_decide; cbn [negb]; [|apply rtc_refl].
  unfold getr. rewrite bind_gets. destruct (epochs (room w) !! _) as [st|] eqn:E; [|apply rtc_refl].
  apply (ri_epochs _ HI) in E as (Ee & Hb & _).
  assert (rtc (act ordered) w (wrapped peer (es_chainKey st) (es_epoch st) (es_peerIndexMap st) w).2) as Hw
    by (apply wrapped_acts; rewrite Ee; [lia|done]).
  revert Hw. unfold wrapped, mbind, M_bind.
  destruct (wrapFor peer _ _ _ w) as [[[ann dh]|e] w1]; [|done].
  by destruct (installSas (peerId peer) _ dh w1) as [[[]|e] w2].
Qed.

Lemma handle_acts w e :
  room_inv w -> (ordered = true -> in_order w e) -> rtc (act ordered) w (room_step w e).
Proof.
  intros HI Ho. unfold room_step. destruct e as [ms version via|msg|delta|peer|v|p b|cb|cb|bs|ms]; cbn [handle].
  - pose proof (startNewEpoch_acts ms version via w HI Ho) as Hs. unfold mbind, M_bind.
    by destruct (startNewEpoch _ _ _ w) as [[?|?] ?].
  - by apply consume_acts.
  - assert (rtc (act ordered) w (rotateOnMemberChange delta w).2) as Hr.
    { unfold rotateOnMemberChange, setr, getr. rewrite bind_gets, bind_modify.
      set (w1 := w <| room ::= _ |>).
      assert (rtc (act ordered) w w1) as Ha1 by (apply misc_once; [done|done|]; by split).
      etransitivity; [exact Ha1|]. rewrite (bind_Ok _ _ _ _ _ (isAuthoritativeAuthor_run w1)).
      case_bool_decide; cbn [negb]; [|apply rtc_refl].
      apply startNewEpoch_acts; [by eapply acts_inv|done]. }
    unfold mbind, M_bind. by destruct (rotateOnMemberChange delta w) as [[?|?] ?].
  - pose proof (rewrap_acts peer w HI) as Hr. unfold mbind, M_bind.
    by destruct (rewrapCurrentEpochFor peer w) as [[?|?] ?].
  - by apply rtc_once, act_forget.
  - unfold markSasVerified, setr, modify. cbn [snd].
    destruct (sasState (room w) !! p) as [s|] eqn:Es.
    + eapply rtc_once, (act_sas _ _ _ p (s <| ps_verified := b |>)); [done| |by split|].
      * cbn. apply map_eq. intros q. destruct (decide (q = p)) as [->|].
        -- by rewrite lookup_alter_eq, Es, lookup_insert_eq.
        -- by rewrite lookup_alter_ne, lookup_insert_ne.
      * right. by exists s.
    + apply misc_once; [done| |by split]. cbn. apply map_eq. intros q.
      destruct (decide (q = p)) as [->|]; [by rewrite lookup_alter_eq, Es|by rewrite lookup_alter_ne].
  - apply misc_once; [done|done|by split].
  - apply misc_once; [done|done|by split].
  - change (rtc (act ordered) w (w <| heap ::= fun h => h ++ [bs] |>)).
    apply misc_once; [done|done|]. by apply (heap_ext_alloc w _ bs).
  - apply rtc_once, act_tick. lia.
Qed.

End Events.

(** ** Runs *)

(** Every event is in order at the world it meets. *)
Fixpoint ordered_run w (es : list RoomEvent) : Prop :=
  match es with
  | [] => True
  | e :: es => in_order w e /\ ordered_run (room_step w e) es
  end.

Lemma ordered_run_app w es1 es2 :
  ordered_run w (es1 ++ es2) <-> ordered_run w es1 /\ ordered_run (room_run w es1) es2.
Proof.
  revert w. induction es1 as [|e es1 IH]; intros w; cbn; [tauto|]. rewrite IH. tauto.
Qed.

Lemma run_inv w es : room_inv w -> room_inv (room_run w es).
Proof.
  revert w. induction es as [|e es IH]; intros w HI; [done|]. apply IH.
  eapply (acts_inv false); [|exact HI]. by apply handle_acts.
Qed.

(** A property of worlds, and a preorder, that single changes of ordered runs respect. *)
Lemma acts_ordered (v : Z) w w' :
  rtc (act true) w w' -> room_inv w -> tidy w -> room_inv w' /\ tidy w' /\ ages v w w'.
Proof.
  induction 1 as [w|w w1 w2 Ha _ IH]; intros HI HT; [split_and!; [done|done|reflexivity]|].
  destruct IH as (HI' & HT' & HA); [by eapply act_inv|by eapply act_tidy|].
  split_and!; [done|done|]. transitivity w1; [by apply act_ages|done].
Qed.

Lemma run_ordered (v : Z) w es :
  room_inv w -> tidy w -> ordered_run w es ->
  room_inv (room_run w es) /\ tidy (room_run w es) /\ ages v w (room_run w es).
Proof.
  revert w. induction es as [|e es IH]; intros w HI HT Ho; [split_and!; [done|done|reflexivity]|].
  destruct Ho as [He Ho].
  destruct (acts_ordered v w (room_step w e)) as (HI1 & HT1 & HA1); [by apply handle_acts|done|done|].
  destruct (IH _ HI1 HT1 Ho) as (HI2 & HT2 & HA2). split_and!; [done|done|by transitivity (room_step w e)].
Qed.

(** A world whose ratchet has just been constructed. *)
Definition fresh w : Prop :=
  timers w = [] /\ exists active id ps su kf mc, newRoomRatchet active id ps su kf mc = Ok (room w).

Lemma fresh_inv w : fresh w -> room_inv w /\ tidy w /\ currentEpoch (room w) = -1 /\ epochs (room w) = ∅.
Proof.
  intros (Ht & active & id & ps & su & kf & mc & Hr). unfold newRoomRatchet in Hr.
  destruct (assertSuiteAllowed _ _) as [[]|]; [|done]. cbn in Hr.
  destruct (makeKidCodec kf mc) as [c|] eqn:Ec; [|done]. cbn in Hr. apply Ok_inj in Hr.
  apply makeKidCodec_laws in Ec. rewrite <- Hr. split_and!; [| |done|done].
  - split; rewrite ?Ht, <- ?Hr; cbn; [done|done| | |].
    + intros v st. by rewrite lookup_empty.
    + intros t e Hin. by apply not_elem_of_nil in Hin.
    + intros p s. by rewrite lookup_empty.
  - split; rewrite ?Ht, <- ?Hr; cbn; [|by intros p s; rewrite lookup_empty|done].
    intros v. rewrite lookup_empty. by intros [? ?].
Qed.

End Invariants.
