(* ===== verification/RoomLife.v ===== *)
(** * RoomLife: what a room ratchet keeps ready, and what it lets go *)
From stdpp Require Import sorting.
From S2P Require Import Prelude StateLogic Errors Internal Header Kid PeerMap WebCrypto Toy Crypto.
From S2P Require Import Fips Sas Room RoomLogic RoomE2E RoomInv.
#[local] Open Scope Z_scope.

(** ** Lemmas: the author *)

Lemma least_head (ids : list string) (a : string) :
  head (merge_sort string_le ids) = Some a <-> a ∈ ids /\ forall x, x ∈ ids -> string_le a x.
Proof.
  pose proof (merge_sort_Permutation string_le ids) as HP.
  assert (StronglySorted string_le (merge_sort string_le ids)) as HS
    by (apply StronglySorted_merge_sort; apply _).
  destruct (merge_sort string_le ids) as [|b l].
  { apply Permutation_nil in HP as ->. split; [done|]. intros [Hin _]. by apply not_elem_of_nil in Hin. }
  apply StronglySorted_inv in HS as [_ Hb]. rewrite Forall_forall in Hb. cbn.
  assert (forall x, x ∈ ids -> string_le b x) as Hmin.
  { intros x. rewrite <- HP. intros [->|Hx]%elem_of_cons; [|by apply Hb].
    by destruct (total string_le b b). }
  assert (b ∈ ids) as Hbi by (rewrite <- HP; apply elem_of_cons; by left). split.
  - intros [= <-]. done.
  - intros [Ha Hle]. f_equal. apply (anti_symm string_le); auto.
Qed.

Section Lemmas.
Context `{WebCrypto}.
Implicit Types (w : RoomWorld).

(** The peers of a node and itself. *)
Definition everyone w : list string := self w :: omap_keys (peers (room w)).

Lemma isAuthoritativeAuthor_least w :
  isAuthoritativeAuthor w =
    (Ok (bool_decide (Forall (string_le (self w)) (everyone w))), w).
Proof.
  rewrite isAuthoritativeAuthor_run. do 2 f_equal. apply bool_decide_ext.
  rewrite least_head, Forall_forall. unfold everyone. split; [tauto|]. intros Hx. split; [|done].
  apply elem_of_cons. by left.
Qed.

End Lemmas.

(** ** Properties *)

(** C22. Whatever calls a room ratchet receives, in any order, with any arguments, failing or not:
    every epoch it holds is at most the current one and comes with the node's own key, derived for
    that epoch and filed under its KID; [advanceSending] only fails when the current epoch is not
    installed; a timer never waits for the current epoch; a SAS never belongs to a future epoch. *)
Theorem room_keys_ready `{WebCryptoLaws} (w0 : RoomWorld) (es : list RoomEvent) (Hf : fresh w0) :
  let w := room_run w0 es in
  (forall v st, epochs (room w) !! v = Some st -> 0 <= v <= currentEpoch (room w) /\
     exists k, getReceivingKey (room w) v (es_selfPeerIndex st) = Some k /\
       key_wf (kidCodec (room w)) (suite (room w)) v (es_selfPeerIndex st) k) /\
  match advanceSending (room w) with
  | Ok k => key_wf (kidCodec (room w)) (suite (room w)) (currentEpoch (room w)) (key_peerIndex k) k
  | Throw e => e = no_key (currentEpoch (room w)) None /\
      epochs (room w) !! currentEpoch (room w) = None
  end /\
  (forall t e, (t, e) ∈ timers w -> e < currentEpoch (room w)) /\
  (forall p s, sasState (room w) !! p = Some s -> ps_epoch s <= currentEpoch (room w)).
Proof.
  intros w. destruct (fresh_inv w0 Hf) as (HI & _). apply (run_inv w0 es) in HI. fold w in HI.
  split_and!.
  - intros v st Hst. pose proof (ri_epochs _ HI _ _ Hst) as (_ & Hv & _ & k & Hk & Hwf).
    split; [done|]. exists k. split; [|done]. unfold getReceivingKey. by rewrite Hst.
  - unfold advanceSending. destruct (epochs (room w) !! _) as [st|] eqn:Hst; [|done].
    pose proof (ri_epochs _ HI _ _ Hst) as (_ & Hv & _ & k & Hk & Hwf). rewrite Hk.
    by rewrite (kw_peerIndex _ _ _ _ _ Hwf).
  - intros t e Ht. apply (ri_timers _ HI) in Ht. lia.
  - intros p s Hs. apply (ri_sas _ HI) in Hs. lia.
Qed.

Lemma demo_alice_fresh : fresh demo_alice.
Proof.
  split; [done|]. exists None, (newIdentity (demo_secret 3) "alice"), [demo_peer "bob" 4], None, None, None.
  reflexivity.
Qed.

Definition demo_room_events : list RoomEvent :=
  [StartNewEpoch [demo_peer "bob" 4] None None; Tick 3000;
   RotateOnMemberChange (Join (demo_peer "carol" 5)); MarkSasVerified "bob" true].

Lemma room_keys_ready_witness :
  match sasState (room (room_run demo_alice demo_room_events)) !! "bob"%string with
  | Some s => ps_epoch s <= 1
  | None => False
  end.
Proof.
  pose proof (room_keys_ready demo_alice demo_room_events demo_alice_fresh) as (_ & _ & _ & Hs).
  destruct (sasState _ !! "bob"%string) as [s|] eqn:E.
  - etransitivity; [exact (Hs _ _ E)|]. vm_compute. discriminate.
  - apply (f_equal (fun o : option PeerSasState => if o then true else false)) in E.
    vm_compute in E. discriminate E.
Defined.


Definition demo_life : list RoomEvent := [StartNewEpoch [demo_peer "bob" 4] None None;
  RotateOnMemberChange (Join (demo_peer "carol" 5))].


(** There is one author. Among nodes that see the same members, whatever the order of their
    lists, exactly the node with the least identifier is the author; on every other node
    [startNewEpoch] without a chain key is refused and [rotateOnMemberChange] announces nothing,
    and neither installs an epoch. *)
Theorem unique_author `{WebCrypto} (ids : list string) (Hne : ids <> []) :
  exists a, a ∈ ids /\
    forall w, (forall x, x ∈ everyone w <-> x ∈ ids) ->
      isAuthoritativeAuthor w = (Ok (bool_decide (self w = a)), w) /\
      (self w <> a ->
       (forall ms version, (forall x, x ∈ self w :: omap_keys (peers_of ms) <-> x ∈ ids) ->
          (exists e, (startNewEpoch ms version None w).1 = Throw e) /\
          epochs (room (startNewEpoch ms version None w).2) = epochs (room w)) /\
       (forall delta, (forall x, x ∈ self w :: omap_keys (change_peers delta (peers (room w))) <-> x ∈ ids) ->
          (rotateOnMemberChange delta w).1 = Ok [] /\
          epochs (room (rotateOnMemberChange delta w).2) = epochs (room w))).
Proof.
  destruct (head (merge_sort string_le ids)) as [a|] eqn:Eh.
  2:{ pose proof (merge_sort_Permutation string_le ids) as HP.
      destruct (merge_sort string_le ids); [|done]. by apply Permutation_nil in HP. }
  apply least_head in Eh as [Ha Hmin]. exists a. split; [done|]. intros w Hset.
  assert (forall w, (forall x, x ∈ everyone w <-> x ∈ ids) ->
    isAuthoritativeAuthor w = (Ok (bool_decide (self w = a)), w)) as Hauthor.
  { clear w Hset. intros w Hset. rewrite isAuthoritativeAuthor_least. do 2 f_equal.
    apply bool_decide_ext. rewrite Forall_forall. split.
    - intros Hle. apply (anti_symm string_le); [apply Hle, Hset, Ha|].
      apply Hmin, Hset, elem_of_cons. by left.
    - intros E x Hx. rewrite E. by apply Hmin, Hset. }
  split; [by apply Hauthor|]. intros Hself. split.
  - intros ms version Hms. set (wp := with_peers (peers_of ms) w).
    pose proof (Hauthor wp Hms) as E. rewrite bool_decide_eq_false_2 in E by done.
    unfold startNewEpoch, setr. rewrite bind_modify. fold wp. unfold getr. rewrite bind_gets. cbv zeta.
    assert (forall e : js_error, @throw RoomWorld _ buffer e wp = (Throw e, wp)) as Et by done.
    set (e := GenericError _). specialize (Et e).
    rewrite (bind_Throw _ _ wp e wp) by (rewrite (bind_Ok _ _ _ _ _ E); exact Et).
    split; [by eexists|done].
  - intros delta Hd. unfold rotateOnMemberChange, setr, getr. rewrite bind_gets, bind_modify.
    set (wp := w <| room ::= _ |>). pose proof (Hauthor wp Hd) as E.
    rewrite bool_decide_eq_false_2 in E by done. by rewrite (bind_Ok _ _ _ _ _ E).
Qed.

Lemma unique_author_witness :
  (isAuthoritativeAuthor demo_alice).1 = Ok true /\ (isAuthoritativeAuthor demo_bob).1 = Ok false.
Proof.
  destruct (unique_author ["alice"; "bob"]%string ltac:(discriminate)) as (a & Ha & Hu).
  assert (forall x, x ∈ everyone demo_alice <-> x ∈ ["alice"; "bob"]%string) as Ea by (intros x; reflexivity).
  assert (forall x, x ∈ everyone demo_bob <-> x ∈ ["alice"; "bob"]%string) as Eb.
  { intros x. change (everyone demo_bob) with ["bob"; "alice"]%string.
    rewrite !elem_of_cons. tauto. }
  destruct (Hu demo_alice Ea) as [Hal _], (Hu demo_bob Eb) as [Hbo _].
  assert (a = "alice"%string) as ->.
  { apply (f_equal fst) in Hal. apply elem_of_cons in Ha as [->|Ha]; [reflexivity|].
    apply list_elem_of_singleton in Ha as ->. vm_compute in Hal. discriminate Hal. }
  rewrite Hal, Hbo. split; reflexivity.
Defined.

(** Passing the chain key of the current epoch to [startNewEpoch] loses it: both epochs share the
    buffer, so that when the grace of the old epoch ends the buffer is overwritten, and the chain
    key of the current epoch, which [rewrapCurrentEpochFor] sends to late joiners, is all zeros. *)
Theorem shared_chain_key_lost `{WebCryptoLaws} (w0 w' : RoomWorld) (es : list RoomEvent)
    (ms : list PeerIdentity) (anns : list EpochAnnouncement) (st : EpochState) (Hf : fresh w0) :
  let w := room_run w0 es in
  epochs (room w) !! currentEpoch (room w) = Some st ->
  startNewEpoch ms None (Some (es_chainKey st)) w = (Ok anns, w') ->
  let w'' := room_step w' (Tick 5000) in
  getEpochChainKey (room w'') (currentEpoch (room w'')) = Some (es_chainKey st) /\
  wiped (es_chainKey st) w''.
Proof.
  intros w Hst Hs w''. destruct (fresh_inv w0 Hf) as (HI & _). apply (run_inv w0 es) in HI. fold w in HI.
  set (cur := currentEpoch (room w)) in *.
  pose proof (ri_epochs _ HI _ _ Hst) as (_ & Hcur & _).
  assert (room_inv w') as HI'.
  { eapply (acts_inv false); [|exact HI].
    pose proof (startNewEpoch_acts false ms None (Some (es_chainKey st)) w HI) as Ha.
    rewrite Hs in Ha. by apply Ha. }
  apply startNewEpoch_inv in Hs as (ck & w1 & idx & keys & [-> ->] & _ & _ & Ha).
  pose proof (announce_ledger ms (es_chainKey st) (next_version None w) (next_map ms w)
    (with_epoch (next_version None w) (mkEpochState (next_version None w) (es_chainKey st)
      (next_map ms w) idx keys) (with_peers (peers_of ms) w))) as [Hl _].
  rewrite Ha in Hl. cbn [snd] in Hl. injection Hl as _ _ _ _ Ee Ec Et Ek _.
  rewrite with_epoch_epochs in Ee. rewrite with_epoch_current in Ec. rewrite with_epoch_timers in Et.
  rewrite with_epoch_clock in Ek. change (next_version None w) with (cur + 1) in *.
  change (currentEpoch (room (with_peers _ w))) with cur in *.
  change (room_clock (with_peers _ w)) with (room_clock w) in *. fold cur in Ee, Ec, Et.
  rewrite (proj2 (Z.ltb_lt cur (cur + 1))), (proj2 (Z.leb_le 0 cur)) in Et by lia. cbn [andb] in Et.
  subst w''. unfold room_step. cbn [handle]. change (Z.of_nat 5000) with 5000. rewrite tick_run.
  set (w2 := _ <| timers ::= _ |>). set (l := due _ _).
  pose proof (fire_spec l w2) as (_ & _ & _ & F3 & _ & _ & _ & _ & _ & F9 & _ & _ & F12).
  change (room w2) with (room w') in *. split.
  - unfold getEpochChainKey. rewrite F3, F9, Ec, Z.max_r, Ee by lia.
    rewrite decide_False; [by rewrite lookup_insert_eq|].
    intros ([t e] & E & [Ht _]%elem_of_due)%list_elem_of_fmap.
    apply (ri_timers _ HI') in Ht. rewrite Ec in Ht. cbn in E. lia.
  - apply (F12 cur).
    + apply list_elem_of_fmap. exists (room_clock w + FORGET_MS, cur). split; [done|].
      apply elem_of_due. rewrite Et, Ek. cbn [fst]. unfold FORGET_MS. split; [|lia].
      apply elem_of_app. right. by apply list_elem_of_singleton.
    + rewrite Ee, lookup_insert_ne by lia. exact Hst.
Qed.

Lemma shared_chain_key_lost_witness :
  match startNewEpoch [demo_peer "bob" 4] None (Some 0%nat) (room_run demo_alice [StartNewEpoch [demo_peer "bob" 4] None None]) with
  | (Ok _, w) => contents 0 (room_step w (Tick 5000)) = zeros 32
  | _ => False
  end.
Proof.
  set (w1 := room_run demo_alice [StartNewEpoch [demo_peer "bob" 4] None None]).
  destruct (epochs (room w1) !! currentEpoch (room w1)) as [st|] eqn:Est.
  2:{ apply (f_equal (fun o : option EpochState => if o then true else false)) in Est.
      vm_compute in Est. discriminate Est. }
  assert (es_chainKey st = 0%nat) as Eck.
  { apply (f_equal (fun o => es_chainKey <$> o)) in Est. vm_compute in Est.
    injection Est as Est. exact (eq_sym Est). }
  destruct (startNewEpoch [demo_peer "bob" 4] None (Some 0%nat) w1) as [r w] eqn:E.
  destruct r as [anns|e].
  2:{ apply (f_equal (fun p => is_ok p.1)) in E. vm_compute in E. discriminate E. }
  rewrite <- Eck in E.
  destruct (shared_chain_key_lost demo_alice w [StartNewEpoch [demo_peer "bob" 4] None None]
    [demo_peer "bob" 4] anns st demo_alice_fresh Est E) as [_ Hw].
  rewrite Eck in Hw, E. unfold wiped in Hw. rewrite Hw. unfold zeroize.
  assert (length (contents 0 (room_step w (Tick 5000))) = 32%nat) as ->; [|reflexivity].
  change w with (Ok (E := js_error) anns, w).2. rewrite <- E. vm_compute. reflexivity.
Defined.
