(* ===== verification/ChatCache.v ===== *)
(** * ChatCache: derived keys and their cache (src/chat/derive.ts)

    [KeyDerivationCache] is the two-level map of the source with its order of insertion; a cached
    value is of any type. Its abstract specification is a list of at most [CACHE_MAX] entries, the
    one written longest ago first. *)
From S2P Require Import Prelude Errors Internal Keys Replay.
From Stdlib Require Import Ascii.

Definition CACHE_MAX : nat := 256.

Definition NUL : ascii := Ascii.zero.

Record KeyDerivationCache (V : Type) := mkCache {
  lruOrder : OMap string string;
  cache : OMap string (OMap string V)
}.
Arguments mkCache {V} _ _.
Arguments lruOrder {V} _.
Arguments cache {V} _.

#[export] Instance eta_cache V : Eta (KeyDerivationCache V) := fun c =>
  mkCache (lruOrder c) (cache c).

(** [s.indexOf(c)]; [None] is -1. *)
Fixpoint indexOf (c : ascii) (s : string) : option nat :=
  match s with
  | EmptyString => None
  | String a s => if decide (a = c) then Some 0%nat else S <$> indexOf c s
  end.

Definition cacheKey (roomId senderUid : string) : string := roomId +:+ String NUL senderUid.

(** [oldestKey.slice(0, nullIdx)] and [oldestKey.slice(nullIdx + 1)] *)
Definition splitKey (key : string) : string * string :=
  match indexOf NUL key with
  | Some i => (String.substring 0 i key, String.substring (S i) (String.length key - S i) key)
  | None => (String.substring 0 (String.length key - 1) key, key)
  end.

Section Cache.
Context {V : Type}.
Implicit Types c : KeyDerivationCache V.

Definition newKeyCache : KeyDerivationCache V := mkCache ∅ ∅.

Definition cache_get c (roomId senderUid : string) : option V :=
  cache c !! roomId ≫= fun roomMap => roomMap !! senderUid.

(** The body of the eviction: drop the first key of [lruOrder], and its value. *)
Definition evictOldest c : KeyDerivationCache V :=
  match head (omap_keys (lruOrder c)) with
  | None => c
  | Some oldestKey =>
      let c := c <| lruOrder ::= delete oldestKey |> in
      let '(oldRoom, oldUid) := splitKey oldestKey in
      match cache c !! oldRoom with
      | None => c
      | Some roomMap =>
          let roomMap := delete oldUid roomMap in
          if (omap_size roomMap =? 0)%nat then c <| cache ::= delete oldRoom |>
          else c <| cache ::= <[oldRoom := roomMap]> |>
      end
  end.

Definition cache_set c (roomId senderUid : string) (value : V) : KeyDerivationCache V :=
  let k := cacheKey roomId senderUid in
  let has := bool_decide (is_Some (lruOrder c !! k)) in
  let c := if negb has && (CACHE_MAX <=? omap_size (lruOrder c))%nat then evictOldest c else c in
  let c := c <| lruOrder ::= fun order => <[k := k]> (delete k order) |> in
  let roomMap := default ∅ (cache c !! roomId) in
  c <| cache ::= <[roomId := <[senderUid := value]> roomMap]> |>.

Definition evictRoom c (roomId : string) : KeyDerivationCache V :=
  match cache c !! roomId with
  | None => c
  | Some roomMap =>
      let order := foldl (fun order uid => delete (cacheKey roomId uid) order) (lruOrder c)
                     (omap_keys roomMap) in
      c <| lruOrder := order |> <| cache ::= delete roomId |>
  end.

(** ** Specification *)

(** The mutating calls of a provider. *)
Inductive cache_op :=
| CacheSet (roomId senderUid : string) (value : V)
| CacheEvictRoom (roomId : string).

Definition cache_step c (op : cache_op) : KeyDerivationCache V :=
  match op with
  | CacheSet r u v => cache_set c r u v
  | CacheEvictRoom r => evictRoom c r
  end.

Definition op_room (op : cache_op) : string :=
  match op with CacheSet r _ _ | CacheEvictRoom r => r end.

Definition spec_set (l : list ((string * string) * V)) (k : string * string) (v : V) :=
  (if bool_decide (k ∈ l.*1) then assoc_delete k l
   else if (CACHE_MAX <=? length l)%nat then tail l else l) ++ [(k, v)].

Definition spec_step (l : list ((string * string) * V)) (op : cache_op) :=
  match op with
  | CacheSet r u v => spec_set l (r, u) v
  | CacheEvictRoom r => filter (fun e => e.1.1 <> r) l
  end.

End Cache.
Arguments cache_op V : clear implicits.

(** ** Lemmas: keys *)

Lemma indexOf_free c s x : free_of c s -> indexOf c (s +:+ String c x) = Some (String.length s).
Proof.
  induction s as [|a s IH]; simpl; intros Hs; [by rewrite decide_True|].
  destruct Hs as [Ha Hs]. rewrite decide_False by done. by rewrite IH.
Qed.

Lemma substring_all s : String.substring 0 (String.length s) s = s.
Proof. induction s as [|a s IH]; [done|]. simpl. by rewrite IH. Qed.

Lemma substring_prefix s x : String.substring 0 (String.length s) (s +:+ x) = s.
Proof.
  induction s as [|a s IH]; simpl; [by destruct x|]. by rewrite IH.
Qed.

Lemma substring_suffix s a x n :
  n = String.length x -> String.substring (S (String.length s)) n (s +:+ String a x) = x.
Proof.
  intros ->. induction s as [|b s IH]; [apply substring_all|]. exact IH.
Qed.

Lemma length_app_string s x : String.length (s +:+ x) = (String.length s + String.length x)%nat.
Proof. induction s as [|a s IH]; [done|]. simpl. by rewrite IH. Qed.

(** The key of a room without NUL is split where it was joined. *)
Lemma splitKey_cacheKey r u : free_of NUL r -> splitKey (cacheKey r u) = (r, u).
Proof.
  intros Hr. unfold splitKey, cacheKey. rewrite indexOf_free by done.
  rewrite substring_prefix, substring_suffix; [done|].
  rewrite length_app_string. simpl. lia.
Qed.

Lemma cacheKey_inj r u r' u' :
  free_of NUL r -> free_of NUL r' -> cacheKey r u = cacheKey r' u' -> r = r' /\ u = u'.
Proof. intros Hr Hr'. by apply sep_inj. Qed.

(** ** Lemmas: association lists *)

Section Assoc.
Context {K V : Type} `{EqDecision K}.
Implicit Types l : list (K * V).

Lemma assoc_lookup_app k l1 l2 :
  assoc_lookup k (l1 ++ l2) =
    match assoc_lookup k l1 with Some v => Some v | None => assoc_lookup k l2 end.
Proof. induction l1 as [|[k' v'] l1 IH]; [done|]. simpl. by case_decide. Qed.

Lemma assoc_lookup_filter (P : K -> Prop) `{forall k, Decision (P k)} k l :
  assoc_lookup k (filter (fun e => P e.1) l) = if decide (P k) then assoc_lookup k l else None.
Proof.
  induction l as [|[k' v'] l IH]; [by case_decide|]. simpl.
  destruct (decide (k = k')) as [<-|Hne].
  - destruct (decide (P k)) as [Hp|Hp].
    + rewrite filter_cons_True by done. simpl. by rewrite decide_True.
    + rewrite filter_cons_False by done. done.
  - destruct (decide (P k')).
    + rewrite filter_cons_True by done. simpl. by rewrite decide_False.
    + by rewrite filter_cons_False.
Qed.

Lemma assoc_delete_filter k l : assoc_delete k l = filter (fun e => e.1 <> k) l.
Proof.
  induction l as [|[k' v'] l IH]; [done|]. simpl. case_decide as Hk.
  - rewrite filter_cons_False by (simpl; naive_solver). done.
  - rewrite filter_cons_True by (simpl; naive_solver). by rewrite IH.
Qed.

Lemma fmap_fst_filter (P : K -> Prop) `{forall k, Decision (P k)} l :
  (filter (fun e => P e.1) l).*1 = filter P l.*1.
Proof.
  induction l as [|[k v] l IH]; [done|]. csimpl. destruct (decide (P k)).
  - rewrite !filter_cons_True by done. csimpl. by rewrite IH.
  - by rewrite !filter_cons_False.
Qed.

End Assoc.

Lemma filter_keep {A} (P : A -> Prop) `{forall a, Decision (P a)} (l : list A) :
  (forall x, x ∈ l -> P x) -> filter P l = l.
Proof.
  induction l as [|a l IH]; [done|]. intros Hl. rewrite filter_cons_True by set_solver.
  f_equal. apply IH. set_solver.
Qed.

Lemma list_filter_iff' {A} (P Q : A -> Prop) `{forall a, Decision (P a), forall a, Decision (Q a)} (l : list A) :
  (forall x, x ∈ l -> P x <-> Q x) -> filter P l = filter Q l.
Proof.
  induction l as [|a l IH]; [done|]. intros Hl. rewrite !filter_cons, IH by set_solver.
  assert (P a <-> Q a) as Ha by (apply Hl; set_solver).
  repeat case_decide; tauto.
Qed.

Lemma fmap_filter_inv {A B} (f : A -> B) (P : B -> Prop) `{forall b, Decision (P b)} (l : list A) :
  filter P (f <$> l) = f <$> filter (fun a => P (f a)) l.
Proof.
  induction l as [|a l IH]; [done|]. csimpl. destruct (decide (P (f a))).
  - rewrite !filter_cons_True by done. csimpl. by rewrite IH.
  - by rewrite !filter_cons_False.
Qed.

(** ** Lemmas: ordered maps *)

Section OMapKeys.
Context {K V : Type} `{EqDecision K}.
Implicit Types m : OMap K V.

Lemma omap_keys_insert m k v :
  omap_keys (<[k := v]> m) = if decide (k ∈ omap_keys m) then omap_keys m else omap_keys m ++ [k].
Proof. apply assoc_insert_keys. Qed.

Lemma omap_keys_delete m k : omap_keys (delete k m) = filter (fun k' => k <> k') (omap_keys m).
Proof. apply assoc_delete_keys. Qed.

Lemma omap_lookup_keys m k : is_Some (m !! k) <-> k ∈ omap_keys m.
Proof.
  unfold omap_keys. rewrite <- not_eq_None_Some.
  assert (m !! k = None <-> k ∉ (entries m).*1) as -> by apply assoc_lookup_None.
  destruct (decide (k ∈ (entries m).*1)); naive_solver.
Qed.

Lemma omap_size_keys m : omap_size m = length (omap_keys m).
Proof. unfold omap_size, omap_keys. by rewrite length_fmap. Qed.

Lemma omap_size_zero m k : omap_size m = 0%nat -> m !! k = None.
Proof. destruct m as [[|e l]]; done. Qed.

Lemma omap_keys_delete_all (f : K -> K) ks m :
  omap_keys (foldl (fun m k => delete (f k) m) m ks) = filter (fun k' => k' ∉ f <$> ks) (omap_keys m).
Proof.
  revert m. induction ks as [|k ks IH]; intros m; simpl.
  { symmetry. apply filter_keep. set_solver. }
  rewrite IH, omap_keys_delete, list_filter_filter. apply list_filter_iff. intros x. set_solver.
Qed.

End OMapKeys.

(** ** Lemmas: the cache and its specification *)

Section Refines.
Context {V : Type}.
Implicit Types (c : KeyDerivationCache V) (l : list ((string * string) * V)).

Definition joined (k : string * string) : string := cacheKey k.1 k.2.

(** The cache [c] holds the entries [l]. *)
Record rep c l : Prop := mk_rep {
  rep_order : omap_keys (lruOrder c) = joined <$> l.*1;
  rep_lookup : forall r u, cache_get c r u = assoc_lookup (r, u) l;
  rep_nodup : NoDup l.*1;
  rep_free : forall k, k ∈ l.*1 -> free_of NUL k.1;
  rep_size : (length l <= CACHE_MAX)%nat
}.

Lemma joined_inj l k k' :
  (forall k, k ∈ l.*1 -> free_of NUL k.1) -> k ∈ l.*1 -> free_of NUL k'.1 ->
  joined k = joined k' -> k = k'.
Proof.
  intros Hl Hk Hk' E. destruct k as [r u], k' as [r' u'].
  apply (cacheKey_inj r u r' u') in E as [-> ->]; [done|exact (Hl _ Hk)|exact Hk'].
Qed.

Lemma rep_has c l k :
  rep c l -> free_of NUL k.1 -> joined k ∈ omap_keys (lruOrder c) <-> k ∈ l.*1.
Proof.
  intros Hr Hk. rewrite (rep_order c l Hr), list_elem_of_fmap. split; [|eauto].
  intros (k' & E & Hk'). by rewrite (joined_inj l k' k (rep_free c l Hr) Hk' Hk (eq_sym E)) in Hk'.
Qed.

Lemma rep_empty : rep newKeyCache [].
Proof.
  split; [done|done|constructor| |simpl; unfold CACHE_MAX; lia].
  intros k Hk. by apply not_elem_of_nil in Hk.
Qed.

(** Reading after the two-level maps change. *)
Lemma get_insert c order r u v r' u' :
  cache_get (mkCache order (<[r := <[u := v]> (default ∅ (cache c !! r))]> (cache c))) r' u' =
    if decide ((r', u') = (r, u)) then Some v else cache_get c r' u'.
Proof.
  unfold cache_get. cbn [cache]. destruct (decide (r' = r)) as [->|Hr].
  - rewrite jm_lookup_insert_eq. simpl. destruct (decide (u' = u)) as [->|Hu].
    + by rewrite jm_lookup_insert_eq, decide_True.
    + rewrite jm_lookup_insert_ne, decide_False by naive_solver.
      destruct (cache c !! r); [done|]. apply jm_lookup_empty.
  - rewrite jm_lookup_insert_ne, decide_False by naive_solver. done.
Qed.

(** Dropping the oldest entry. *)
Lemma rep_evictOldest c k v l : rep c ((k, v) :: l) -> rep (evictOldest c) l.
Proof.
  intros [Ho Hg Hnd Hf Hs]. destruct k as [r0 u0].
  assert (free_of NUL r0) as Hr0 by (apply (Hf (r0, u0)); set_solver).
  csimpl in *. apply NoDup_cons in Hnd as [Hk Hnd].
  assert (forall c', lruOrder c' = delete (cacheKey r0 u0) (lruOrder c) ->
    (forall r u, cache_get c' r u = if decide ((r, u) = (r0, u0)) then None else cache_get c r u) ->
    rep c' l) as Hrep.
  { intros c' Hc' Hg'. split.
    - rewrite Hc', omap_keys_delete, Ho, filter_cons_False by (unfold joined; naive_solver).
      apply filter_keep. intros x (k & -> & Hkl)%list_elem_of_fmap E.
      apply cacheKey_inj in E as [E1 E2]; [|done|apply Hf; set_solver].
      destruct k; simpl in *; subst. done.
    - intros r u. rewrite Hg', Hg. simpl. case_decide as E; [|done].
      symmetry. apply assoc_lookup_None. by rewrite E.
    - done.
    - intros k Hkl. apply Hf. set_solver.
    - lia. }
  unfold evictOldest. rewrite Ho. cbn [head]. unfold joined. cbn [fst snd].
  rewrite splitKey_cacheKey by done.
  assert (cache (c <| lruOrder ::= delete (cacheKey r0 u0) |>) = cache c) as -> by done.
  destruct (cache c !! r0) as [roomMap|] eqn:Er; [destruct (Nat.eqb_spec (omap_size (delete u0 roomMap)) 0) as [Ez|_]|];
    apply Hrep; try done; intros r u; unfold cache_get; cbn [cache]; simpl.
  - destruct (decide (r = r0)) as [->|Hr].
    + rewrite jm_lookup_delete_eq, Er. simpl. case_decide as E; [done|].
      rewrite <- (jm_lookup_delete_ne roomMap u0 u) by naive_solver.
      symmetry. by apply omap_size_zero.
    + rewrite jm_lookup_delete_ne, decide_False by naive_solver. done.
  - destruct (decide (r = r0)) as [->|Hr].
    + rewrite jm_lookup_insert_eq, Er. simpl. case_decide as E.
      * injection E as ->. apply jm_lookup_delete_eq.
      * apply jm_lookup_delete_ne. naive_solver.
    + rewrite jm_lookup_insert_ne, decide_False by naive_solver. done.
  - case_decide as E; [|done]. injection E as -> ->. by rewrite Er.
Qed.

Lemma assoc_delete_fresh (k : string * string) l : k ∉ l.*1 -> assoc_delete k l = l.
Proof.
  intros Hk. rewrite assoc_delete_filter. apply filter_keep. intros [k' v] Hin E. simpl in E. subst k'.
  destruct Hk. by apply (list_elem_of_fmap_2 fst _ (k, v)).
Qed.

(** Refreshing the position of a key and storing its value. *)
Lemma rep_push c l r u v :
  rep c l -> free_of NUL r -> (length (assoc_delete (r, u) l) < CACHE_MAX)%nat ->
  rep (mkCache (<[cacheKey r u := cacheKey r u]> (delete (cacheKey r u) (lruOrder c)))
         (<[r := <[u := v]> (default ∅ (cache c !! r))]> (cache c)))
    (assoc_delete (r, u) l ++ [((r, u), v)]).
Proof.
  intros Hr Hf Hlen. pose proof (rep_has c l (r, u) Hr Hf) as Hhas. destruct Hr as [Ho Hg Hnd Hfr _].
  assert ((r, u) ∉ (assoc_delete (r, u) l).*1) as Hk.
  { rewrite assoc_delete_keys, list_elem_of_filter. naive_solver. }
  split.
  - cbn [lruOrder]. rewrite omap_keys_insert, decide_False.
    2: { rewrite omap_keys_delete, list_elem_of_filter. naive_solver. }
    rewrite fmap_app, fmap_app, omap_keys_delete, Ho. f_equal.
    rewrite assoc_delete_keys, fmap_filter_inv. f_equal.
    apply list_filter_iff'. intros k Hkl. split; intros Hne E; apply Hne; [by rewrite <- E|].
    symmetry. by apply (joined_inj l).
  - intros r' u'. rewrite get_insert, assoc_lookup_app. simpl.
    destruct (decide ((r', u') = (r, u))) as [E|E].
    + by rewrite E, (proj2 (assoc_lookup_None _ _) Hk).
    + rewrite Hg, assoc_delete_filter.
      pose proof (assoc_lookup_filter (fun k => k <> (r, u)) (r', u') l) as E'. cbn beta in E'.
      rewrite E', decide_True by done.
      by destruct (assoc_lookup (r', u') l).
  - rewrite fmap_app. apply NoDup_app. split_and!; [|set_solver|apply NoDup_singleton].
    rewrite assoc_delete_keys. by apply NoDup_filter.
  - intros k. rewrite fmap_app, elem_of_app, assoc_delete_keys, list_elem_of_filter.
    intros [[_ Hkl]|Hkl]; [by apply Hfr|]. by apply list_elem_of_singleton in Hkl as ->.
  - rewrite length_app. simpl. lia.
Qed.

Lemma rep_set c l r u v :
  rep c l -> free_of NUL r -> rep (cache_set c r u v) (spec_set l (r, u) v).
Proof.
  intros Hr Hf. unfold cache_set, spec_set. pose proof (rep_has c l (r, u) Hr Hf) as Hhas.
  assert (bool_decide (is_Some (lruOrder c !! cacheKey r u)) = bool_decide ((r, u) ∈ l.*1)) as ->.
  { apply bool_decide_ext. rewrite omap_lookup_keys. exact Hhas. }
  assert (omap_size (lruOrder c) = length l) as ->.
  { by rewrite omap_size_keys, (rep_order c l Hr), !length_fmap. }
  pose proof (rep_size c l Hr) as Hsz. case_bool_decide as Hin; cbn [negb andb].
  - apply (rep_push c l r u v Hr Hf). rewrite assoc_delete_filter.
    apply list_elem_of_fmap in Hin as (e & E & Hin).
    eapply Nat.lt_le_trans; [|exact Hsz]. apply (length_filter_lt _ _ e); [done|]. naive_solver.
  - destruct (Nat.leb_spec CACHE_MAX (length l)) as [Hle|Hlt].
    + destruct l as [|[k0 v0] l]; [simpl in Hle; unfold CACHE_MAX in Hle; lia|].
      pose proof (rep_push _ _ r u v (rep_evictOldest _ _ _ _ Hr) Hf) as Hp.
      rewrite assoc_delete_fresh in Hp by set_solver. apply Hp. simpl in Hsz. lia.
    + pose proof (rep_push _ _ r u v Hr Hf) as Hp.
      rewrite assoc_delete_fresh in Hp by done. by apply Hp.
Qed.

Lemma rep_evictRoom c l r :
  rep c l -> free_of NUL r -> rep (evictRoom c r) (filter (fun e => e.1.1 <> r) l).
Proof.
  intros [Ho Hg Hnd Hf Hs] Hr.
  pose proof (fmap_fst_filter (V := V) (fun k : string * string => k.1 <> r) l) as Hkeys.
  pose proof (fun k => assoc_lookup_filter (V := V) (fun k : string * string => k.1 <> r) k l) as Hlook.
  cbn beta in Hkeys, Hlook.
  assert (forall c', omap_keys (lruOrder c') = filter (fun k => k ∉ joined <$> filter (fun k => k.1 = r) l.*1)
                       (omap_keys (lruOrder c)) ->
    (forall r' u', cache_get c' r' u' = if decide (r' <> r) then cache_get c r' u' else None) ->
    rep c' (filter (fun e => e.1.1 <> r) l)) as Hrep.
  { intros c' Hc' Hg'. split.
    - rewrite Hc', Ho, Hkeys, fmap_filter_inv. f_equal.
      apply list_filter_iff'. intros k Hk. split.
      + intros Hn E. apply Hn, list_elem_of_fmap_2, list_elem_of_filter. done.
      + intros Hne (k' & E & [Hk' Hk'l]%list_elem_of_filter)%list_elem_of_fmap.
        apply Hne. rewrite (joined_inj l k k'); [done|done|done|by apply Hf|done].
    - intros r' u'. rewrite Hg', Hg. by rewrite Hlook.
    - rewrite Hkeys. by apply NoDup_filter.
    - intros k. rewrite Hkeys, list_elem_of_filter. intros [_ Hk]. by apply Hf.
    - etransitivity; [apply length_filter|done]. }
  assert (forall u, (r, u) ∈ l.*1 <-> is_Some (cache_get c r u)) as Hin.
  { intros u. rewrite Hg. rewrite <- not_eq_None_Some, assoc_lookup_None.
    destruct (decide ((r, u) ∈ l.*1)); naive_solver. }
  unfold evictRoom. destruct (cache c !! r) as [roomMap|] eqn:Er; apply Hrep.
  - cbn [lruOrder]. simpl. rewrite omap_keys_delete_all. apply list_filter_iff'. intros x _.
    apply not_iff_compat. rewrite !list_elem_of_fmap. split.
    + intros (u & -> & Hu). exists (r, u). split; [done|]. apply list_elem_of_filter. split; [done|].
      apply Hin. unfold cache_get. rewrite Er. by apply omap_lookup_keys.
    + intros ([r' u] & -> & [E Hu]%list_elem_of_filter). simpl in E. subst r'. exists u.
      split; [done|]. apply omap_lookup_keys. apply Hin in Hu. unfold cache_get in Hu.
      by rewrite Er in Hu.
  - intros r' u'. unfold cache_get. simpl. case_decide as E.
    + by rewrite jm_lookup_delete_ne by done.
    + subst r'. by rewrite jm_lookup_delete_eq.
  - symmetry. apply filter_keep. intros x _ (k & -> & [E Hk]%list_elem_of_filter)%list_elem_of_fmap.
    destruct k as [r' u]. simpl in E. subst r'. apply Hin in Hk. unfold cache_get in Hk.
    rewrite Er in Hk. by destruct Hk.
  - intros r' u'. case_decide as E; [done|]. subst r'. unfold cache_get. by rewrite Er.
Qed.

Lemma rep_step c l op :
  rep c l -> free_of NUL (op_room op) -> rep (cache_step c op) (spec_step l op).
Proof. destruct op; [apply rep_set|apply rep_evictRoom]. Qed.

Lemma rep_run ops c l :
  rep c l -> Forall (fun op => free_of NUL (op_room op)) ops ->
  rep (foldl cache_step c ops) (foldl spec_step l ops).
Proof.
  intros Hr Hops. revert c l Hr. induction Hops as [|op ops Hop Hops IH]; intros c l Hr; [done|].
  apply IH. by apply rep_step.
Qed.

(** Writing never invents a value, whatever the room ids. *)
Lemma cache_get_evictOldest c r u d : cache_get (evictOldest c) r u = Some d -> cache_get c r u = Some d.
Proof.
  unfold evictOldest. destruct (head _) as [k|]; [|done]. destruct (splitKey k) as [r0 u0].
  assert (cache (c <| lruOrder ::= delete k |>) = cache c) as -> by done.
  destruct (cache c !! r0) as [roomMap|] eqn:Er; [|done]. case_match; unfold cache_get; simpl.
  - destruct (decide (r0 = r)) as [->|]; [by rewrite jm_lookup_delete_eq|by rewrite jm_lookup_delete_ne].
  - destruct (decide (r0 = r)) as [->|]; [|by rewrite jm_lookup_insert_ne].
    rewrite jm_lookup_insert_eq, Er. simpl.
    destruct (decide (u0 = u)) as [->|]; [by rewrite jm_lookup_delete_eq|by rewrite jm_lookup_delete_ne].
Qed.

Lemma cache_get_set_if c r u v : exists c1, (c1 = c \/ c1 = evictOldest c) /\
  forall r' u', cache_get (cache_set c r u v) r' u' =
    if decide ((r', u') = (r, u)) then Some v else cache_get c1 r' u'.
Proof.
  set (c1 := if negb (bool_decide (is_Some (lruOrder c !! cacheKey r u))) &&
                (CACHE_MAX <=? omap_size (lruOrder c))%nat then evictOldest c else c).
  exists c1. split; [unfold c1; case_match; auto|]. intros r' u'. apply (get_insert c1).
Qed.

Lemma cache_get_set c r u v r' u' d :
  cache_get (cache_set c r u v) r' u' = Some d ->
  (r' = r /\ u' = u /\ d = v) \/ cache_get c r' u' = Some d.
Proof.
  destruct (cache_get_set_if c r u v) as (c1 & Hc1 & ->). case_decide as E.
  { injection E as -> ->. intros [= ->]. by left. }
  right. destruct Hc1 as [->| ->]; [done|by apply cache_get_evictOldest].
Qed.

Lemma cache_get_set_eq c r u v : cache_get (cache_set c r u v) r u = Some v.
Proof. destruct (cache_get_set_if c r u v) as (c1 & _ & ->). by rewrite decide_True. Qed.

Lemma cache_get_evictRoom c r r' u :
  cache_get (evictRoom c r) r' u = if decide (r' = r) then None else cache_get c r' u.
Proof.
  unfold evictRoom, cache_get. destruct (cache c !! r) as [roomMap|] eqn:Er; simpl.
  - destruct (decide (r' = r)) as [->|]; [by rewrite jm_lookup_delete_eq|by rewrite jm_lookup_delete_ne].
  - destruct (decide (r' = r)) as [->|]; [by rewrite Er|done].
Qed.

End Refines.

(** ** Properties *)

(** C33. The two-level cache with its key-order map refines the list of its entries in the order they
    were last written: after any calls, a lookup finds exactly the value of that list, the order
    map lists the same keys, and a write at [CACHE_MAX] entries drops the entry written longest
    ago. (A read does not refresh an entry. Room ids are free of NUL, the separator of the keys.) *)
Theorem key_cache_refines {V : Type} (ops : list (cache_op V))
    (Hops : Forall (fun op => free_of NUL (op_room op)) ops) :
  let c := foldl cache_step newKeyCache ops in
  let l := foldl spec_step [] ops in
  (forall r u, cache_get c r u = assoc_lookup (r, u) l) /\
  omap_keys (lruOrder c) = (fun k => cacheKey k.1 k.2) <$> l.*1 /\
  NoDup l.*1 /\ (length l <= CACHE_MAX)%nat.
Proof.
  intros c l. assert (rep c l) as [Ho Hg Hnd _ Hs] by (by apply rep_run, Hops; apply rep_empty).
  split_and!; done.
Qed.

Lemma key_cache_refines_witness :
  cache_get (foldl cache_step newKeyCache
    [CacheSet "a" "x" 1; CacheSet "b" "x" 2; CacheSet "a" "x" 3; CacheEvictRoom "b"]) "a" "x" = Some 3.
Proof.
  destruct (key_cache_refines
    [CacheSet "a" "x" 1; CacheSet "b" "x" 2; CacheSet "a" "x" 3; CacheEvictRoom "b"]) as (-> & _).
  - repeat (constructor; [simpl; done|]). constructor.
  - reflexivity.
Defined.
