(* ===== verification/ChatKeys.v ===== *)
(** * ChatKeys: the keys of the chat provider (src/chat/derive.ts, peerIndexForUid of src/chat/index.ts)

    The base key that the application hands over is a [BaseKey]: its bytes, whether it is an HKDF
    key, its usages. [deriveKey] and [deriveBits] of WebCrypto on it are the operations of the
    interface [WebCrypto], guarded as its specification says. SHA-256 is the class [Digest]. *)
From S2P Require Import Prelude StateLogic Errors Internal Kid WebCrypto Toy Crypto ChatCache.

Class Digest := { sha256 : bytes -> bytes }.

(** Documented: 32 bytes. *)
Class DigestLaws `{Digest} : Prop := { sha256_length bs : length (sha256 bs) = 32%nat }.

#[export] Instance toy_digest : Digest := {| sha256 := fun bs => be_bytes 32 (checksum [bs]) |}.
#[export] Instance toy_digest_laws : DigestLaws.
Proof. split. intros bs. apply length_be_bytes. Qed.

Record BaseKey := mkBaseKey {
  base_raw : bytes;
  base_hkdf : bool;
  base_usages : list string
}.

(** [userKey.usages.includes(usage)] *)
Definition usages_include (k : BaseKey) (usage : string) : bool := bool_decide (usage ∈ base_usages k).

Section ChatKeys.
Context `{WebCrypto, Digest}.

Record DerivedKeys := mkDerivedKeys {
  aesCryptoKey : CryptoKey;
  dk_salt : bytes
}.

(** [deriveBits] with HKDF and SHA-256. *)
Definition subtle_deriveBits (k : BaseKey) (salt info : bytes) (bits : Z) : res bytes :=
  if base_hkdf k && usages_include k "deriveBits"
  then settle (hkdf_bits SHA_256 (base_raw k) salt info bits) else Throw DomException.

(** [deriveKey] of an AES-GCM key of [bits] bits. *)
Definition subtle_deriveKey (k : BaseKey) (salt info : bytes) (bits : Z) : res CryptoKey :=
  if base_hkdf k && usages_include k "deriveKey"
  then raw ← settle (hkdf_bits SHA_256 (base_raw k) salt info bits); settle (import_aes raw)
  else Throw DomException.

Definition chat_info (label senderUid : string) : res bytes :=
  concat2 (textEncode label) (textEncode senderUid).

(** The derivation, when nothing is cached. *)
Definition deriveFresh (userKey : BaseKey) (roomId senderUid : string) : res DerivedKeys :=
  let hkdfSalt := sha256 (textEncode roomId) in
  infoKey ← chat_info "sframe-chat/v1/aead|" senderUid;
  infoSalt ← chat_info "sframe-chat/v1/salt|" senderUid;
  aesCryptoKey ← subtle_deriveKey userKey hkdfSalt infoKey 128;
  salt ← subtle_deriveBits userKey hkdfSalt infoSalt (12 * 8);
  mret {| aesCryptoKey := aesCryptoKey; dk_salt := salt |}.

Definition deriveAesKeyAndSalt (userKey : BaseKey) (roomId senderUid : string)
    : M (KeyDerivationCache DerivedKeys) js_error DerivedKeys :=
  cached ← gets (fun c => cache_get c roomId senderUid);
  match cached with
  | Some keys => mret keys
  | None =>
      keys ← lift (deriveFresh userKey roomId senderUid);
      modify (fun c => cache_set c roomId senderUid keys);;
      mret keys
  end.

(** [view.getUint16(0, false) & 0xffff] *)
Definition peerIndexForUid (senderUid : string) : Z :=
  let digest := sha256 (textEncode senderUid) in
  js_and (byte_at digest 0 * 256 + byte_at digest 1) 0xffff.

(** ** Lemmas *)

Lemma peerIndexForUid_range uid : 0 <= peerIndexForUid uid <= 0xffff.
Proof.
  unfold peerIndexForUid, byte_at. set (a := default _ _). set (b := default _ _).
  pose proof (b2z_range a). pose proof (b2z_range b). unfold js_and.
  rewrite (to_int32_small 0xffff), (to_int32_small (_ + _)) by lia.
  change 0xffff with (Z.ones 16) at 1 2. rewrite Z.land_ones by lia.
  pose proof (Z.mod_pos_bound (b2z a * 256 + b2z b) (2 ^ 16)).
  rewrite to_int32_small by lia. change (2 ^ 16) with 65536 in *. lia.
Qed.

(** The two labels have the same length, so the info strings separate labels and senders. *)
Lemma chat_info_spec label uid : chat_info label uid = Ok (textEncode label ++ textEncode uid).
Proof. apply concat2_spec. Qed.

Lemma chat_info_inj l1 l2 u1 u2 i :
  l1 ∈ ["sframe-chat/v1/aead|"; "sframe-chat/v1/salt|"]%string ->
  l2 ∈ ["sframe-chat/v1/aead|"; "sframe-chat/v1/salt|"]%string ->
  chat_info l1 u1 = Ok i -> chat_info l2 u2 = Ok i -> l1 = l2 /\ u1 = u2.
Proof.
  rewrite !chat_info_spec. intros H1 H2 <-%Ok_inj [E1 E2]%Ok_inj%app_inj_length.
  - split; [by apply textEncode_inj, eq_sym|by apply textEncode_inj, eq_sym].
  - by repeat (apply elem_of_cons in H1 as [->|H1]; [|try by apply not_elem_of_nil in H1]);
      repeat (apply elem_of_cons in H2 as [->|H2]; [|try by apply not_elem_of_nil in H2]).
Qed.

(** A base key that WebCrypto accepts for both derivations. *)
Definition base_ok (k : BaseKey) : bool :=
  base_hkdf k && usages_include k "deriveKey" && usages_include k "deriveBits".

Lemma deriveFresh_total `{!WebCryptoLaws} k room uid :
  base_ok k = true -> exists d, deriveFresh k room uid = Ok d /\ length (dk_salt d) = 12%nat.
Proof.
  unfold base_ok. rewrite !andb_true_iff. intros [[Hh Hk] Hb]. unfold deriveFresh.
  rewrite !chat_info_spec. cbn [mbind result_bind].
  unfold subtle_deriveKey, subtle_deriveBits. rewrite Hh, Hk, Hb. cbn [andb].
  set (s := sha256 _). set (i1 := textEncode "sframe-chat/v1/aead|" ++ _).
  set (i2 := textEncode "sframe-chat/v1/salt|" ++ _).
  destruct (hkdf_total SHA_256 (base_raw k) s i1 16) as [raw Hraw]; [lia|].
  change (16 * 8) with 128 in Hraw. rewrite Hraw. cbn [settle mbind result_bind].
  pose proof (hkdf_length SHA_256 (base_raw k) s i1 16 raw) as Hl.
  destruct (import_aes_total raw) as [key Hkey]; [left; by apply Hl|]. rewrite Hkey.
  cbn [settle mbind result_bind].
  destruct (hkdf_total SHA_256 (base_raw k) s i2 12) as [salt Hs]; [lia|]. rewrite Hs.
  cbn [settle mbind result_bind]. eexists. split; [reflexivity|]. cbn [dk_salt].
  by apply (hkdf_length SHA_256 (base_raw k) s i2 12 salt).
Qed.

Lemma deriveAesKeyAndSalt_eq k room uid c :
  deriveAesKeyAndSalt k room uid c =
    match cache_get c room uid with
    | Some keys => (Ok keys, c)
    | None => match deriveFresh k room uid with
              | Ok keys => (Ok keys, cache_set c room uid keys)
              | Throw e => (Throw e, c)
              end
    end.
Proof.
  unfold deriveAesKeyAndSalt. rewrite bind_gets. destruct (cache_get c room uid); [done|].
  rewrite bind_lift. by destruct (deriveFresh k room uid).
Qed.

(** What is cached for a sender is what the base key of the room derives. *)
Definition cached_ok (k : BaseKey) (room uid : string) (c : KeyDerivationCache DerivedKeys) : Prop :=
  forall d, cache_get c room uid = Some d -> deriveFresh k room uid = Ok d.

(** Then the call gives what the derivation gives; it caches nothing else. *)
Lemma deriveAesKeyAndSalt_run k c room uid :
  cached_ok k room uid c ->
  exists c', deriveAesKeyAndSalt k room uid c = (deriveFresh k room uid, c') /\
    cached_ok k room uid c' /\
    forall r u d, cache_get c' r u = Some d ->
      cache_get c r u = Some d \/ (r = room /\ u = uid /\ deriveFresh k room uid = Ok d).
Proof.
  intros Hc. rewrite deriveAesKeyAndSalt_eq. destruct (cache_get c room uid) as [d|] eqn:Eg.
  { exists c. rewrite (Hc _ Eg). auto. }
  destruct (deriveFresh k room uid) as [d|e] eqn:Ed; [|exists c; auto].
  eexists. split; [reflexivity|]. split.
  - intros d'. rewrite cache_get_set_eq. by intros [= ->].
  - intros r u d' [(-> & -> & ->)|Hg]%cache_get_set; [by right|by left].
Qed.

End ChatKeys.
