(* ===== verification/ChatCtr.v ===== *)
(** * ChatCtr: the counter allocators (src/chat/ctr-allocator.ts)

    [CtrEnv] is what the allocators reach: the random source, the console, the counters that
    IndexedDB holds (a stored decimal numeral is its number) and, as [CtrFlags], what the browser
    grants at the moment. A readwrite transaction is one step, since IndexedDB runs those of a
    store one after the other. *)
From S2P Require Import Prelude StateLogic Errors Internal Replay.

Record CtrFlags := mkCtrFlags {
  nav_locks : bool;
  db_opens : bool;
  get_succeeds : bool;
  put_succeeds : bool;
  tx_commits : bool;
  lock_succeeds : bool
}.

Record CtrEnv := mkCtrEnv {
  flags : CtrFlags;
  ctr_store : gmap (string * string) Z;
  random64 : nat -> Z;
  random_draws : nat;
  console : list string
}.

#[export] Instance eta_ctr_env : Eta CtrEnv := fun r =>
  mkCtrEnv (flags r) (ctr_store r) (random64 r) (random_draws r) (console r).

(** ** RandomCtrAllocator *)

Record RandomCtrAllocator := mkRandomAlloc {
  counts : gmap string Z;
  warned : bool
}.

Definition BIRTHDAY_WARN_THRESHOLD : Z := 2 ^ 32 * 3 / 4.

Definition newRandomAllocator : RandomCtrAllocator := mkRandomAlloc ∅ false.

Definition birthday_warning : string := "[sframe-ratchet] Random CTR birthday bound approaching".

Definition ctr_key (roomId senderUid : string) : string := roomId +:+ "|" +:+ senderUid.

(** [crypto.getRandomValues] of one 64-bit element. *)
Definition draw64 {A} : M (A * CtrEnv) js_error Z := fun s =>
  (Ok (random64 s.2 (random_draws s.2) mod 2 ^ 64), (s.1, s.2 <| random_draws ::= S |>)).

Definition random_next (roomId senderUid : string) : M (RandomCtrAllocator * CtrEnv) js_error Z :=
  buf ← draw64;
  w ← gets (fun s => warned s.1);
  (if w : bool then mret tt else
   let key := ctr_key roomId senderUid in
   count ← gets (fun s => default 0 (counts s.1 !! key) + 1);
   modify (fun s => (mkRandomAlloc (<[key := count]> (counts s.1)) (warned s.1), s.2));;
   if BIRTHDAY_WARN_THRESHOLD <? count
   then modify (fun s => (mkRandomAlloc (counts s.1) true,
                          s.2 <| console ::= fun l => l ++ [birthday_warning] |>))
   else mret tt);;
  mret buf.

(** ** MonotonicIdbCtrAllocator *)

Record MonotonicIdbCtrAllocator := mkIdbAlloc {
  keyspace : string;
  allowSingleTab : bool;
  ctr_dbPromise : option bool
}.

(** The constructor; [hasLocks] is whether [navigator.locks] is there. *)
Definition newMonotonicAllocator (hasLocks : bool) (keyspace : string) (allowSingleTab : option bool)
    : res MonotonicIdbCtrAllocator :=
  if bool_decide (keyspace = ""%string)
  then Throw (GenericError "MonotonicIdbCtrAllocator: ctrKeyspace is required") else
  let allowSingleTab := default false allowSingleTab in
  if negb hasLocks && negb allowSingleTab
  then Throw (GenericError "MonotonicIdbCtrAllocator: navigator.locks is unavailable")
  else Ok {| keyspace := keyspace; allowSingleTab := allowSingleTab; ctr_dbPromise := None |}.

Abbreviation IM := (M (MonotonicIdbCtrAllocator * CtrEnv) js_error).

Definition fget (f : CtrFlags -> bool) : IM bool := gets (fun s => f (flags s.2)).

(** The first use opens the database; the promise, rejected or not, is kept. *)
Definition ctr_db : IM unit :=
  p ← gets (fun s => ctr_dbPromise s.1);
  ok ← match p with
       | Some ok => mret ok
       | None =>
           ok ← fget db_opens;
           modify (fun s => (mkIdbAlloc (keyspace s.1) (allowSingleTab s.1) (Some ok), s.2));;
           mret ok
       end;
  if ok : bool then mret tt else throw DomException.

(** Read, increment, write. The promise resolves when the write request succeeds; the transaction
    then commits, or aborts and leaves the store as it was. *)
Definition atomicIncrement (idbKey : string) : IM Z :=
  got ← fget get_succeeds;
  if negb got then throw DomException else
  ks ← gets (fun s => keyspace s.1);
  currentValue ← gets (fun s => default 0 (ctr_store s.2 !! (ks, idbKey)));
  let nextValue := currentValue + 1 in
  put ← fget put_succeeds;
  if negb put then throw DomException else
  commits ← fget tx_commits;
  (if commits : bool then modify (fun s => (s.1, s.2 <| ctr_store ::= <[(ks, idbKey) := nextValue]> |>))
   else mret tt);;
  mret currentValue.

Definition monotonic_next (roomId senderUid : string) : IM Z :=
  let idbKey := ctr_key roomId senderUid in
  hasLocks ← fget nav_locks;
  ctr_db;;
  if hasLocks : bool then
    granted ← fget lock_succeeds;
    if negb granted then throw DomException else atomicIncrement idbKey
  else atomicIncrement idbKey.

(** ** CtrAllocator *)

Inductive CtrAllocator :=
| RandomAlloc (a : RandomCtrAllocator)
| MonotonicAlloc (a : MonotonicIdbCtrAllocator).

Definition allocator_next (roomId senderUid : string) : M (CtrAllocator * CtrEnv) js_error Z :=
  fun s => match s.1 with
  | RandomAlloc a => let '(r, (a, e)) := random_next roomId senderUid (a, s.2) in (r, (RandomAlloc a, e))
  | MonotonicAlloc a =>
      let '(r, (a, e)) := monotonic_next roomId senderUid (a, s.2) in (r, (MonotonicAlloc a, e))
  end.

(** ** Calls of several tabs *)

(** One call of [next], by an allocator of some tab, while the browser grants [call_flags]. *)
Record CtrCall := mkCtrCall {
  call_alloc : MonotonicIdbCtrAllocator;
  call_flags : CtrFlags;
  call_room : string;
  call_uid : string
}.

Definition call_key (c : CtrCall) : string * string :=
  (keyspace (call_alloc c), ctr_key (call_room c) (call_uid c)).

(** The values that the calls return, with the counters they come from. *)
Fixpoint run_calls (cs : list CtrCall) (e : CtrEnv) : list ((string * string) * Z) :=
  match cs with
  | [] => []
  | c :: cs =>
      let '(r, (_, e)) := monotonic_next (call_room c) (call_uid c)
                            (call_alloc c, e <| flags := call_flags c |>) in
      match r with
      | Ok v => (call_key c, v) :: run_calls cs e
      | Throw _ => run_calls cs e
      end
  end.

Definition values_of (k : string * string) (vs : list ((string * string) * Z)) : list Z :=
  (filter (fun e => e.1 = k) vs).*2.

(** ** Lemmas *)

Definition counter (e : CtrEnv) (k : string * string) : Z := default 0 (ctr_store e !! k).

(** One call: it fails and leaves the counters, or returns the counter and, when its transaction
    commits, advances it. *)
Lemma monotonic_next_run room uid a e :
  exists r a' e', monotonic_next room uid (a, e) = (r, (a', e')) /\ keyspace a' = keyspace a /\
    flags e' = flags e /\
    let k := (keyspace a, ctr_key room uid) in
    match r with
    | Throw _ => ctr_store e' = ctr_store e
    | Ok v => v = counter e k /\
        ctr_store e' = if tx_commits (flags e) then <[k := v + 1]> (ctr_store e) else ctr_store e
    end.
Proof.
  unfold monotonic_next, ctr_db, atomicIncrement, fget, counter.
  destruct a as [ks ast p]. destruct e as [[lk op ge pu cm ls] st rnd d con].
  destruct lk, p as [[]|], op, ge, pu, cm, ls; (do 3 eexists); repeat split.
Qed.

Lemma values_of_cons k k' v vs :
  values_of k ((k', v) :: vs) = if decide (k' = k) then v :: values_of k vs else values_of k vs.
Proof.
  unfold values_of. case_decide; [by rewrite filter_cons_True|by rewrite filter_cons_False].
Qed.

Lemma run_calls_values cs e k :
  Forall (fun c => tx_commits (call_flags c) = true) cs ->
  exists n, values_of k (run_calls cs e) = seqZ (counter e k) (Z.of_nat n).
Proof.
  intros Hcs. revert e. induction Hcs as [|c cs Hc Hcs IH]; intros e.
  { by exists 0%nat. }
  cbn [run_calls].
  destruct (monotonic_next_run (call_room c) (call_uid c) (call_alloc c) (e <| flags := call_flags c |>))
    as (r & a' & e' & -> & _ & _ & Hr).
  destruct (IH e') as [n Hn]. destruct r as [v|err].
  - destruct Hr as [Hv Hst]. assert (tx_commits (flags (e <| flags := call_flags c |>)) = true) as E by done.
    rewrite E in Hst. rewrite values_of_cons, Hn. unfold counter. rewrite Hst.
    case_decide as Hk.
    + exists (S n). subst k. unfold call_key. rewrite lookup_insert_eq. cbn [default].
      rewrite (seqZ_cons _ (Z.of_nat (S n))) by lia. rewrite Hv. f_equal. f_equal; lia.
    + exists n. by rewrite lookup_insert_ne.
  - exists n. rewrite Hn. unfold counter. rewrite Hr. done.
Qed.

Lemma values_of_elem k v vs : (k, v) ∈ vs -> v ∈ values_of k vs.
Proof.
  intros Hin. unfold values_of. apply (list_elem_of_fmap_2 snd _ (k, v)).
  by apply list_elem_of_filter.
Qed.

Lemma values_NoDup vs : (forall k, NoDup (values_of k vs)) -> NoDup vs.
Proof.
  induction vs as [|[k v] vs IH]; intros Hnd; [constructor|]. constructor.
  - intros Hin. specialize (Hnd k). rewrite values_of_cons, decide_True in Hnd by done.
    apply NoDup_cons in Hnd as [Hv _]. by apply Hv, values_of_elem.
  - apply IH. intros k'. specialize (Hnd k'). rewrite values_of_cons in Hnd. case_decide; [|done].
    by apply NoDup_cons in Hnd as [_ Hnd].
Qed.

(** ** Lemmas: the warning of the random allocator *)

(** The calls of a random allocator, in order. *)
Fixpoint random_calls (cs : list (string * string)) (s : RandomCtrAllocator * CtrEnv)
    : RandomCtrAllocator * CtrEnv :=
  match cs with
  | [] => s
  | c :: cs => random_calls cs (random_next c.1 c.2 s).2
  end.

Definition occurrences (k : string) (ks : list string) : Z :=
  Z.of_nat (length (filter (fun k' => k' = k) ks)).

Lemma occurrences_snoc k ks k' :
  occurrences k (ks ++ [k']) = if decide (k' = k) then occurrences k ks + 1 else occurrences k ks.
Proof.
  unfold occurrences. rewrite filter_app, length_app. case_decide as E.
  - rewrite filter_cons_True by done. simpl. lia.
  - rewrite filter_cons_False by done. simpl. lia.
Qed.

(** What the allocator knows after the calls with the keys [ks]. *)
Definition random_inv (con0 : list string) (ks : list string) (s : RandomCtrAllocator * CtrEnv) : Prop :=
  if warned s.1 then
    console s.2 = con0 ++ [birthday_warning] /\ exists k, BIRTHDAY_WARN_THRESHOLD < occurrences k ks
  else
    console s.2 = con0 /\ forall k, default 0 (counts s.1 !! k) = occurrences k ks /\
                                    occurrences k ks <= BIRTHDAY_WARN_THRESHOLD.

Lemma random_next_run room uid a e :
  let k := ctr_key room uid in
  let count := default 0 (counts a !! k) + 1 in
  let e1 := e <| random_draws ::= S |> in
  random_next room uid (a, e) =
    (Ok (random64 e (random_draws e) mod 2 ^ 64),
     if warned a then (a, e1)
     else if BIRTHDAY_WARN_THRESHOLD <? count
          then (mkRandomAlloc (<[k := count]> (counts a)) true,
                e1 <| console ::= fun l => l ++ [birthday_warning] |>)
          else (mkRandomAlloc (<[k := count]> (counts a)) false, e1)).
Proof.
  cbv zeta. unfold random_next, draw64. destruct a as [cts w]. destruct w; [done|].
  unfold mbind, M_bind, gets, modify. cbn [fst snd warned counts].
  destruct (BIRTHDAY_WARN_THRESHOLD <? default 0 (cts !! ctr_key room uid) + 1) eqn:E;
    cbn -[BIRTHDAY_WARN_THRESHOLD Z.ltb Z.pow Z.modulo Z.add]; reflexivity.
Qed.

Lemma random_inv_step con0 ks s c :
  random_inv con0 ks s -> random_inv con0 (ks ++ [ctr_key c.1 c.2]) (random_next c.1 c.2 s).2.
Proof.
  set (k0 := ctr_key c.1 c.2).
  assert (forall k, occurrences k ks <= occurrences k (ks ++ [k0])) as Hmono.
  { intros k. rewrite occurrences_snoc. case_decide; lia. }
  unfold random_inv. destruct s as [[cts w] e]. rewrite random_next_run. fold k0.
  destruct w; cbn [fst snd warned counts].
  - intros [Hc (k & Hk)]. split; [by rewrite <- Hc|]. exists k. specialize (Hmono k). lia.
  - intros [Hc Hk]. destruct (Z.ltb_spec BIRTHDAY_WARN_THRESHOLD (default 0 (cts !! k0) + 1)) as [Hlt|Hle];
      cbn [fst snd warned counts].
    + split; [by subst con0|]. exists k0. rewrite occurrences_snoc, decide_True by done.
      destruct (Hk k0) as [<- _]. lia.
    + split; [by subst con0|]. intros k. rewrite occurrences_snoc. destruct (Hk k) as [E Hb].
      case_decide as Ek.
      * subst k. rewrite lookup_insert_eq. simpl. lia.
      * by rewrite lookup_insert_ne.
Qed.

Lemma random_inv_calls con0 cs ks s :
  random_inv con0 ks s ->
  random_inv con0 (ks ++ ((fun c => ctr_key c.1 c.2) <$> cs)) (random_calls cs s).
Proof.
  revert ks s. induction cs as [|c cs IH]; intros ks s Hi; csimpl; [by rewrite app_nil_r|].
  rewrite cons_middle, app_assoc. apply IH. by apply random_inv_step.
Qed.

(** ** Properties *)


Definition demo_flags (locks commits : bool) : CtrFlags := mkCtrFlags locks true true true commits true.
Definition demo_ctr_env (commits : bool) : CtrEnv :=
  mkCtrEnv (demo_flags true commits) ∅ (fun n => Z.of_nat n) 0 [].
Definition demo_alloc : MonotonicIdbCtrAllocator := mkIdbAlloc "app" true None.


(** The random allocator writes its warning at most once, and has written it exactly when some
    (room, sender) key has been used more than [BIRTHDAY_WARN_THRESHOLD] times. *)
Theorem birthday_warning_once (cs : list (string * string)) (e : CtrEnv) :
  let ks := (fun c => ctr_key c.1 c.2) <$> cs in
  let '(a, e') := random_calls cs (newRandomAllocator, e) in
  (warned a = true <-> exists k, BIRTHDAY_WARN_THRESHOLD < occurrences k ks) /\
  console e' = console e ++ (if warned a then [birthday_warning] else []).
Proof.
  intros ks. assert (random_inv (console e) ([] ++ ks) (random_calls cs (newRandomAllocator, e))) as Hi.
  { apply random_inv_calls. split; [done|]. intros k. split; [done|]. vm_compute. discriminate. }
  destruct (random_calls cs (newRandomAllocator, e)) as [a e']. unfold random_inv in Hi.
  cbn [fst snd app] in Hi. destruct (warned a).
  - destruct Hi as [-> Hk]. done.
  - destruct Hi as [-> Hk]. rewrite app_nil_r. split; [|done]. split; [done|].
    intros [k Hlt]. destruct (Hk k) as [_ Hle]. lia.
Qed.
