(* ===== verification/ChatReplay.v ===== *)
(** * ChatReplay: counters and replay state of a chat provider (src/chat/shared.ts)

    The two chat providers keep one [ReplayCtrState]. A [SlidingReplayWindow] is an object that a
    call holds across its awaits, so [replayWindows] holds references into [window_heap]: a window
    that rotation or eviction dropped can still be written by a call that holds it. *)
From S2P Require Import Prelude StateLogic Errors Internal Replay Durable ChatCache ChatCtr.

Definition MAX_REPLAY_ROOMS : nat := 1024.

Inductive CtrStrategy := random_64 | monotonic_idb.

(** [ReplayCtrOptions]; an option left out is [None]. *)
Record ReplayCtrOptions := mkReplayCtrOptions {
  opt_ctrStrategy : option CtrStrategy;
  opt_ctrKeyspace : option string;
  opt_replayWindow : option Z;
  opt_durableReplay : option bool;
  opt_durableReplayNamespace : option string;
  opt_durableReplayWindow : option Z
}.

(** A reference to a replay window. *)
Abbreviation window_ref := nat.

Record ReplayCtrState := mkReplayCtrState {
  allocator : CtrAllocator;
  replayWindow : Z;
  durable : option DurableReplayGuard;
  replayWindows : OMap string (OMap string window_ref)
}.

Record ReplayWorld := mkReplayWorld {
  rcs : ReplayCtrState;
  window_heap : list SlidingReplayWindow;
  idb : Idb;
  ctr_env : CtrEnv
}.

#[export] Instance eta_rcs : Eta ReplayCtrState := fun r =>
  mkReplayCtrState (allocator r) (replayWindow r) (durable r) (replayWindows r).
#[export] Instance eta_replay_world : Eta ReplayWorld := fun r =>
  mkReplayWorld (rcs r) (window_heap r) (idb r) (ctr_env r).

(** [!option]: absent or empty. *)
Definition falsy (o : option string) : bool :=
  match o with None => true | Some s => bool_decide (s = ""%string) end.

(** [opt === true], [opt !== false] *)
Definition is_true_opt (o : option bool) : bool := match o with Some true => true | _ => false end.
Definition not_false_opt (o : option bool) : bool := match o with Some false => false | _ => true end.

Definition createReplayCtrState (env : Idb) (hasLocks : bool) (opts : ReplayCtrOptions)
    : res ReplayCtrState :=
  let replayWindow := default 1024 (opt_replayWindow opts) in
  let ctrStrategy := default random_64 (opt_ctrStrategy opts) in
  let is_idb := match ctrStrategy with monotonic_idb => true | random_64 => false end in
  if is_idb && falsy (opt_ctrKeyspace opts)
  then Throw (GenericError "ctrKeyspace is required when ctrStrategy is monotonic-idb") else
  if is_true_opt (opt_durableReplay opts) && falsy (opt_durableReplayNamespace opts)
  then Throw (GenericError "durableReplayNamespace is required when durableReplay is true") else
  let durableReplayEnabled :=
    not_false_opt (opt_durableReplay opts) && negb (falsy (opt_durableReplayNamespace opts)) in
  let durableReplayWindow := default replayWindow (opt_durableReplayWindow opts) in
  if durableReplayEnabled && (replayWindow <? durableReplayWindow)
  then Throw (GenericError "durableReplayWindow must be <= replayWindow") else
  allocator ← (if is_idb
    then a ← newMonotonicAllocator hasLocks (default "" (opt_ctrKeyspace opts))%string (Some true);
         mret (MonotonicAlloc a)
    else mret (RandomAlloc newRandomAllocator));
  durable ← (if durableReplayEnabled
    then g ← newGuard env (default "" (opt_durableReplayNamespace opts))%string
               (Some (JsInt durableReplayWindow)) false;
         mret (Some g)
    else mret None);
  mret {| allocator := allocator; replayWindow := replayWindow; durable := durable; replayWindows := ∅ |}.

(** Each pass deletes a room, so the number of rooms bounds the passes. *)
Fixpoint evict_rooms_loop {V} (fuel : nat) (m : OMap string V) : OMap string V :=
  match fuel with
  | O => m
  | S fuel =>
      if (omap_size m <=? MAX_REPLAY_ROOMS)%nat then m else
      match head (omap_keys m) with
      | None => m
      | Some oldest => evict_rooms_loop fuel (delete oldest m)
      end
  end.

Definition evictOldReplayRooms {V} (m : OMap string V) : OMap string V :=
  evict_rooms_loop (omap_size m) m.

Definition durableKey (roomId senderUid : string) : string := roomId +:+ "|" +:+ senderUid.

Abbreviation RM := (M ReplayWorld js_error).

Definition set_rooms (m : OMap string (OMap string window_ref)) : RM unit :=
  modify (fun w => w <| rcs ::= fun r => r <| replayWindows := m |> |>).

(** The factory runs when the map has no window yet: it allocates one. *)
Definition getReplayWindow (roomId senderUid : string) (windowSize : Z) : RM window_ref :=
  rooms ← gets (fun w => replayWindows (rcs w));
  next ← gets (fun w => length (window_heap w));
  let isNew := negb (bool_decide (is_Some (rooms !! roomId))) in
  let '(w, rooms) := getOrCreateNested rooms roomId senderUid next in
  (if (w =? next)%nat
   then modify (fun s => s <| window_heap ::= fun h => h ++ [newReplayWindow windowSize] |>)
   else mret tt);;
  set_rooms (if isNew then evictOldReplayRooms rooms else rooms);;
  mret w.

(** [rw.check(ctr)] and [rw.accept(ctr)] *)
Definition window_check (w : window_ref) (ctr : Z) : RM bool :=
  gets (fun s => from_option (fun win => Replay.check win ctr) true (window_heap s !! w)).

Definition window_accept (w : window_ref) (ctr : Z) : RM unit :=
  modify (fun s => s <| window_heap ::= alter (fun win => Replay.accept win ctr) w |>).

(** A call on the durable guard, when it is there and available. *)
Definition with_durable {A} (otherwise : A) (m : DM A) : RM A := fun s =>
  match durable (rcs s) with
  | Some g =>
      if available g then
        let '(r, (g, e)) := m (g, idb s) in
        (r, s <| rcs ::= fun r => r <| durable := Some g |> |> <| idb := e |>)
      else (Ok otherwise, s)
  | None => (Ok otherwise, s)
  end.

(** The test of a CTR before the AEAD: in memory first, then durable. *)
Definition replay_gate (roomId senderUid : string) (ctr : Z) (rw : window_ref) : RM unit :=
  fresh ← window_check rw ctr;
  if negb fresh then throw (ChatReplayError roomId senderUid ctr) else
  fresh ← with_durable true (Durable.check (durableKey roomId senderUid) ctr);
  if negb fresh then throw (ChatReplayError roomId senderUid ctr) else mret tt.

(** The record of a CTR after the AEAD. *)
Definition replay_accept (roomId senderUid : string) (ctr : Z) (rw : window_ref) : RM unit :=
  window_accept rw ctr;;
  with_durable tt (Durable.accept (durableKey roomId senderUid) ctr).

Definition clear_all (roomId : string) (uids : list string) : RM unit :=
  foldr (fun uid rest => with_durable tt (Durable.clear (durableKey roomId uid));; rest) (mret tt) uids.

(** Drop the windows of a room, in memory and durable. The durable clears are not awaited; each
    runs to its end here. *)
Definition forget_room (roomId : string) : RM unit :=
  rooms ← gets (fun w => replayWindows (rcs w));
  set_rooms (delete roomId rooms);;
  match rooms !! roomId with
  | Some senders => clear_all roomId (omap_keys senders)
  | None => mret tt
  end.

(** [allocator.next] *)
Definition next_ctr (roomId senderUid : string) : RM Z :=
  zoom (fun w => (allocator (rcs w), ctr_env w))
       (fun s w => w <| rcs ::= fun r => r <| allocator := s.1 |> |> <| ctr_env := s.2 |>)
       (allocator_next roomId senderUid).

(** ** Lemmas: evicting rooms *)

Lemma assoc_delete_head {V} (k : string) (v : V) l : NoDup (k :: l.*1) -> assoc_delete k ((k, v) :: l) = l.
Proof.
  intros [Hk _]%NoDup_cons. simpl. rewrite decide_True by done.
  rewrite assoc_delete_filter. apply filter_keep. intros [k' v'] Hin E. simpl in E. subst k'.
  destruct Hk. by apply (list_elem_of_fmap_2 fst _ (k, v')).
Qed.

Lemma evict_rooms_entries {V} fuel (m : OMap string V) :
  omap_wf m -> (omap_size m - MAX_REPLAY_ROOMS <= fuel)%nat ->
  entries (evict_rooms_loop fuel m) = lastn MAX_REPLAY_ROOMS (entries m).
Proof.
  revert m. induction fuel as [|fuel IH]; intros m Hwf Hfuel.
  { simpl. symmetry. apply lastn_all. unfold omap_size in Hfuel. lia. }
  cbn [evict_rooms_loop]. destruct (Nat.leb_spec (omap_size m) MAX_REPLAY_ROOMS) as [Hle|Hgt].
  { symmetry. by apply lastn_all. }
  unfold omap_size in Hgt. destruct m as [[|[k v] l]]; cbn [entries length] in Hgt; [lia|].
  assert (delete k (mkOMap ((k, v) :: l)) = mkOMap l) as E.
  { unfold delete, omap_delete. cbn [entries]. f_equal. by apply assoc_delete_head. }
  assert (head (omap_keys (mkOMap ((k, v) :: l))) = Some k) as -> by done.
  unfold omap_size in Hfuel. cbn [entries length] in Hfuel. rewrite E, IH; cbn [entries].
  - unfold lastn. cbn [length]. replace (S (length l) - MAX_REPLAY_ROOMS)%nat
      with (S (length l - MAX_REPLAY_ROOMS)) by lia. done.
  - by apply NoDup_cons in Hwf as [_ Hwf].
  - unfold omap_size. cbn [entries]. lia.
Qed.

Lemma evictOld_entries {V} (m : OMap string V) :
  omap_wf m -> entries (evictOldReplayRooms m) = lastn MAX_REPLAY_ROOMS (entries m).
Proof. intros Hwf. apply evict_rooms_entries; [done|lia]. Qed.

Lemma omap_ext {K V} (m m' : OMap K V) : entries m = entries m' -> m = m'.
Proof. destruct m, m'. by intros [= ->]. Qed.

Lemma evictOld_small {V} (m : OMap string V) :
  (omap_size m <= MAX_REPLAY_ROOMS)%nat -> evictOldReplayRooms m = m.
Proof.
  intros Hs. unfold evictOldReplayRooms. destruct (omap_size m) as [|n] eqn:E; [done|].
  cbn [evict_rooms_loop]. rewrite E. by rewrite (proj2 (Nat.leb_le _ _)).
Qed.

Lemma assoc_lookup_suffix {V} (l1 l2 : list (string * V)) k v :
  NoDup (l1 ++ l2).*1 -> assoc_lookup k l2 = Some v -> assoc_lookup k (l1 ++ l2) = Some v.
Proof.
  intros Hnd Hk. rewrite assoc_lookup_app.
  destruct (assoc_lookup k l1) as [v'|] eqn:E; [|done].
  rewrite fmap_app in Hnd. apply NoDup_app in Hnd as (_ & Hd & _).
  assert (k ∈ l1.*1) as H1.
  { destruct (decide (k ∈ l1.*1)) as [|Hn]; [done|]. apply assoc_lookup_None in Hn. congruence. }
  assert (k ∈ l2.*1) as H2.
  { destruct (decide (k ∈ l2.*1)) as [|Hn]; [done|]. apply assoc_lookup_None in Hn. congruence. }
  by destruct (Hd k H1).
Qed.

(** Eviction keeps the rooms it keeps, and the room that came last. *)
Lemma evictOld_lookup {V} (m : OMap string V) k v :
  omap_wf m -> evictOldReplayRooms m !! k = Some v -> m !! k = Some v.
Proof.
  intros Hwf. unfold lookup, omap_lookup. rewrite evictOld_entries by done. unfold lastn.
  set (n := (_ - _)%nat). intros Hk. rewrite <- (take_drop n (entries m)).
  apply assoc_lookup_suffix; [by rewrite take_drop|done].
Qed.

Lemma evictOld_last {V} (m : OMap string V) k v :
  omap_wf m -> m !! k = None -> evictOldReplayRooms (<[k := v]> m) !! k = Some v.
Proof.
  intros Hwf Hk. assert (k ∉ (entries m).*1) as Hnk by (by apply assoc_lookup_None).
  unfold lookup, omap_lookup. rewrite evictOld_entries by (by apply omap_insert_wf).
  assert (entries (<[k := v]> m) = entries m ++ [(k, v)]) as ->.
  { unfold insert, omap_insert. cbn [entries]. clear Hwf Hk.
    induction (entries m) as [|[k' v'] l IH]; [done|]. csimpl in *.
    rewrite decide_False by set_solver. f_equal. apply IH. set_solver. }
  destruct (lastn_app_short MAX_REPLAY_ROOMS (entries m) [(k, v)]) as (l & -> & Hl);
    [unfold MAX_REPLAY_ROOMS; simpl; lia|].
  rewrite assoc_lookup_app. assert (assoc_lookup k l = None) as ->.
  { apply assoc_lookup_None. intros (e & E & He)%list_elem_of_fmap. apply Hnk. rewrite E.
    apply list_elem_of_fmap_2, Hl, He. }
  simpl. by rewrite decide_True.
Qed.

Lemma evictOld_wf {V} (m : OMap string V) : omap_wf m -> omap_wf (evictOldReplayRooms m).
Proof.
  intros Hwf. unfold omap_wf, omap_keys in *. rewrite evictOld_entries by done.
  unfold lastn. rewrite fmap_drop. eapply sublist_NoDup; [done|]. apply sublist_drop.
Qed.

Lemma evictOld_size {V} (m : OMap string V) :
  omap_wf m -> (omap_size (evictOldReplayRooms m) <= MAX_REPLAY_ROOMS)%nat.
Proof. intros Hwf. unfold omap_size. rewrite evictOld_entries, length_lastn by done. lia. Qed.

(** ** Lemmas: replay windows *)

(** The rooms are bounded and duplicate-free, the references distinct and valid, the windows well
    formed. *)
Record windows_ok (w : ReplayWorld) : Prop := mk_windows_ok {
  ok_keys : omap_wf (replayWindows (rcs w));
  ok_size : (omap_size (replayWindows (rcs w)) <= MAX_REPLAY_ROOMS)%nat;
  ok_refs : forall r u x, nested_lookup (replayWindows (rcs w)) r u = Some x -> (x < length (window_heap w))%nat;
  ok_inj : forall r u r' u' x, nested_lookup (replayWindows (rcs w)) r u = Some x ->
    nested_lookup (replayWindows (rcs w)) r' u' = Some x -> r = r' /\ u = u';
  ok_windows : Forall (fun win => Replay.wf win /\ windowSize win = replayWindow (rcs w)) (window_heap w);
  ok_bound : 0 <= replayWindow (rcs w)
}.

(** A provider starts with no room. *)
Lemma windows_ok_new a n d e c : 0 <= n -> windows_ok (mkReplayWorld (mkReplayCtrState a n d ∅) [] e c).
Proof. intros Hn. split; cbn; [constructor|unfold MAX_REPLAY_ROOMS; lia|done|done|constructor|done]. Qed.

(** The window of a sender, when it has one. *)
Definition window_of (w : ReplayWorld) (roomId senderUid : string) : option SlidingReplayWindow :=
  nested_lookup (replayWindows (rcs w)) roomId senderUid ≫= fun x => window_heap w !! x.

(** What a sender's frames are checked against. *)
Definition current_window (w : ReplayWorld) (roomId senderUid : string) : SlidingReplayWindow :=
  default (newReplayWindow (replayWindow (rcs w))) (window_of w roomId senderUid).

(** The parts of the world that the windows do not belong to. *)
Definition rest (w : ReplayWorld) := (allocator (rcs w), replayWindow (rcs w), durable (rcs w), idb w, ctr_env w).

Lemma windows_ok_alloc w w' room uid :
  windows_ok w ->
  window_heap w' = window_heap w ++ [newReplayWindow (replayWindow (rcs w))] ->
  replayWindow (rcs w') = replayWindow (rcs w) ->
  omap_wf (replayWindows (rcs w')) ->
  (omap_size (replayWindows (rcs w')) <= MAX_REPLAY_ROOMS)%nat ->
  (forall r u x, nested_lookup (replayWindows (rcs w')) r u = Some x ->
    (r = room /\ u = uid /\ x = length (window_heap w)) \/ nested_lookup (replayWindows (rcs w)) r u = Some x) ->
  windows_ok w'.
Proof.
  intros [Hk Hs Hr Hi Hw Hb] Hheap Hn Hk' Hs' Hl. split; [done|done| | | |by rewrite Hn].
  - intros r u x [(-> & -> & ->)|Hx]%Hl; rewrite Hheap, length_app; simpl; [lia|].
    specialize (Hr _ _ _ Hx). lia.
  - intros r u r' u' x [(-> & -> & ->)|Hx]%Hl [(-> & -> & E)|Hx']%Hl; [done| | |by eapply Hi].
    + specialize (Hr _ _ _ Hx'). lia.
    + specialize (Hr _ _ _ Hx). lia.
  - rewrite Hheap, Hn. apply Forall_app. split; [done|]. constructor; [|constructor].
    split; [apply Replay.wf_new|done].
Qed.

Lemma omap_insert_twice {K V} `{EqDecision K} (m : OMap K V) k v v' : <[k := v]> (<[k := v']> m) = <[k := v]> m.
Proof.
  unfold insert, omap_insert. cbn [entries]. f_equal.
  induction (entries m) as [|[k0 v0] l IH]; simpl; [by rewrite decide_True|].
  destruct (decide (k = k0)); simpl; [by rewrite decide_True|]. rewrite decide_False by done. by rewrite IH.
Qed.

Lemma nested_insert (m : OMap string (OMap string window_ref)) room uid x (inner : OMap string window_ref) r u y :
  m !! room = Some inner \/ (m !! room = None /\ inner = ∅) ->
  nested_lookup (<[room := <[uid := x]> inner]> m) r u = Some y ->
  (r = room /\ u = uid /\ y = x) \/ nested_lookup m r u = Some y.
Proof.
  intros Hm. unfold nested_lookup. destruct (decide (room = r)) as [<-|Hr].
  - rewrite jm_lookup_insert_eq. simpl. destruct (decide (uid = u)) as [<-|Hu].
    + rewrite jm_lookup_insert_eq. intros [= ->]. by left.
    + rewrite jm_lookup_insert_ne by done. intros Hy. right.
      destruct Hm as [->|[_ ->]]; [exact Hy|]. by rewrite jm_lookup_empty in Hy.
  - rewrite jm_lookup_insert_ne by done. by right.
Qed.

(** The window that a sender's frame is checked against is its current one. *)
Lemma getRoomWindow_run w room uid :
  windows_ok w ->
  exists x w', getReplayWindow room uid (replayWindow (rcs w)) w = (Ok x, w') /\ windows_ok w' /\
    nested_lookup (replayWindows (rcs w')) room uid = Some x /\
    window_heap w' !! x = Some (current_window w room uid) /\
    rest w' = rest w /\ window_heap w `prefix_of` window_heap w'.
Proof.
  intros Hok. pose proof Hok as [Hk Hs Hr Hi Hw Hb]. unfold getReplayWindow. rewrite !bind_gets. cbn beta.
  unfold current_window, window_of, getOrCreateNested, nested_lookup in *. set (m := replayWindows (rcs w)) in *.
  set (next := length (window_heap w)) in *.
  destruct (m !! room) as [inner|] eqn:Em.
  - rewrite (bool_decide_eq_true_2 (is_Some _)) by eauto. cbn [negb].
    destruct (inner !! uid) as [x|] eqn:Ei.
    + specialize (Hr room uid x). rewrite Em in Hr. specialize (Hr Ei).
      rewrite (proj2 (Nat.eqb_neq _ _)) by lia. exists x, w. split.
      { unfold m. clear. by destruct w as [[]]. }
      split; [done|]. fold m. rewrite Em. cbn. split; [done|]. split; [|done].
      rewrite Ei. cbn. destruct (lookup_lt_is_Some_2 _ _ Hr) as [win ->]. done.
    + rewrite Nat.eqb_refl. eexists next, _. split; [reflexivity|]. split; [|split; [|split; [|split]]].
      * eapply (windows_ok_alloc w _ room uid); [done|reflexivity|reflexivity| | |].
        -- by apply omap_insert_wf.
        -- change (omap_size (<[room := <[uid := next]> inner]> m) <= MAX_REPLAY_ROOMS)%nat.
           rewrite omap_size_insert, decide_True; [done|]. by apply omap_lookup_keys, (mk_is_Some _ inner).
        -- intros r u y. apply nested_insert. by left.
      * change ((<[room := <[uid := next]> inner]> m) !! room ≫= (fun i => i !! uid) = Some next).
        rewrite jm_lookup_insert_eq. apply jm_lookup_insert_eq.
      * cbn. rewrite Ei. cbn. apply list_lookup_middle. done.
      * done.
      * by eexists.
  - rewrite (bool_decide_eq_false_2 (is_Some _)) by (by intros [? ?]). cbn [negb].
    rewrite jm_lookup_empty, Nat.eqb_refl, omap_insert_twice.
    assert (omap_wf (<[room := <[uid := next]> ∅]> m)) as Hwf by (by apply omap_insert_wf).
    eexists next, _. split; [reflexivity|]. split; [|split; [|split; [|split]]].
    + eapply (windows_ok_alloc w _ room uid); [done|reflexivity|reflexivity| | |].
      * by apply evictOld_wf.
      * by apply evictOld_size.
      * intros r u y Hy. apply (nested_insert m room uid next ∅); [by right|].
        revert Hy. unfold nested_lookup.
        change (replayWindows _) with (evictOldReplayRooms (<[room := <[uid := next]> ∅]> m)).
        destruct (evictOldReplayRooms _ !! r) as [i|] eqn:Er; [|done].
        by rewrite (evictOld_lookup _ _ _ Hwf Er).
    + change (evictOldReplayRooms (<[room := <[uid := next]> ∅]> m) !! room ≫= (fun i => i !! uid) = Some next).
      rewrite evictOld_last by done. apply jm_lookup_insert_eq.
    + cbn. apply list_lookup_middle. done.
    + done.
    + by eexists.
Qed.

(** Only the sender asked for can get a window. *)
Lemma getReplayWindow_frame w room uid x w' r u y :
  windows_ok w -> getReplayWindow room uid (replayWindow (rcs w)) w = (Ok x, w') ->
  nested_lookup (replayWindows (rcs w')) r u = Some y ->
  (r = room /\ u = uid) \/ nested_lookup (replayWindows (rcs w)) r u = Some y.
Proof.
  intros [Hk _ _ _ _ _]. unfold getReplayWindow. rewrite !bind_gets. cbn beta.
  unfold getOrCreateNested. set (m := replayWindows (rcs w)) in *. set (next := length (window_heap w)).
  assert (forall m' b w', (forall z, nested_lookup m' r u = Some z -> (r = room /\ u = uid) \/ nested_lookup m r u = Some z) ->
    omap_wf m' -> replayWindows (rcs w') = (if b : bool then evictOldReplayRooms m' else m') ->
    nested_lookup (replayWindows (rcs w')) r u = Some y -> (r = room /\ u = uid) \/ nested_lookup m r u = Some y) as Hfin.
  { intros m' b w1 Hm' Hwf -> Hy. apply Hm'. destruct b; [|done]. revert Hy. unfold nested_lookup.
    destruct (evictOldReplayRooms m' !! r) as [i|] eqn:Er; [|done]. by rewrite (evictOld_lookup _ _ _ Hwf Er). }
  assert (forall inner, m !! room = Some inner \/ (m !! room = None /\ inner = ∅) -> forall z,
    nested_lookup (<[room := <[uid := next]> inner]> m) r u = Some z -> (r = room /\ u = uid) \/ nested_lookup m r u = Some z) as Hins.
  { intros inner Hi z Hz. destruct (nested_insert m room uid next inner r u z Hi Hz) as [(-> & -> & _)|?]; auto. }
  generalize (negb (bool_decide (is_Some (m !! room)))) as b. intros b.
  destruct (m !! room) as [inner|] eqn:Em; [destruct (inner !! uid) as [v|] eqn:Ei|rewrite jm_lookup_empty].
  - destruct (v =? next)%nat; intros [= _ <-]; (apply (Hfin m b); [by right|done|reflexivity]).
  - rewrite Nat.eqb_refl. intros [= _ <-]. apply (Hfin (<[room := <[uid := next]> inner]> m) b);
      [by apply Hins; left|by apply omap_insert_wf|reflexivity].
  - rewrite Nat.eqb_refl, omap_insert_twice. intros [= _ <-].
    apply (Hfin (<[room := <[uid := next]> ∅]> m) b); [by apply Hins; right|by apply omap_insert_wf|reflexivity].
Qed.

(** A new window is empty. *)
Lemma getReplayWindow_new w room uid x w' :
  getReplayWindow room uid (replayWindow (rcs w)) w = (Ok x, w') ->
  exists new, window_heap w' = window_heap w ++ new /\ Forall (fun win => queue win = []) new.
Proof.
  unfold getReplayWindow. rewrite !bind_gets. cbn beta.
  destruct (getOrCreateNested _ _ _ _) as [y rooms]. destruct (y =? length (window_heap w))%nat.
  - intros [= _ <-]. eexists. split; [reflexivity|]. by repeat constructor.
  - intros [= _ <-]. exists []. by rewrite app_nil_r.
Qed.

(** ** Lemmas: the gate *)

(** The parts of the world that decide about windows. *)
Definition window_parts (w : ReplayWorld) := (replayWindows (rcs w), window_heap w, replayWindow (rcs w)).

Lemma windows_ok_parts w w' : window_parts w' = window_parts w -> windows_ok w -> windows_ok w'.
Proof.
  unfold window_parts. intros [= E1 E2 E3] [? ? ? ? ? ?]. split; rewrite ?E1, ?E2, ?E3; done.
Qed.

Lemma keeps_with_durable {A} (d : A) m : keeps (same window_parts) (with_durable d m).
Proof.
  intros s. unfold with_durable, same. destruct (durable (rcs s)) as [g|]; [|done].
  destruct (available g); [|done]. by destruct (m (g, idb s)) as [r [g' e']].
Qed.

Lemma returns_with_durable {A} (d : A) (m : DM A) : returns m -> returns (with_durable d m).
Proof.
  intros Hm s. unfold with_durable. destruct (durable (rcs s)) as [g|]; [|done].
  destruct (available g); [|done]. specialize (Hm (g, idb s)).
  by destruct (m (g, idb s)) as [r [g' e']].
Qed.

#[export] Hint Resolve returns_with_durable : returns.
#[export] Hint Resolve keeps_with_durable : keeps.

Lemma keeps_replay_gate room uid c x : keeps (same window_parts) (replay_gate room uid c x).
Proof. unfold replay_gate, window_check. keeps_auto. Qed.

(** The gate refuses a CTR that the window holds, before it asks the durable guard. *)
Lemma replay_gate_eq room uid c x w :
  replay_gate room uid c x w =
    if from_option (fun win => Replay.check win c) true (window_heap w !! x)
    then match with_durable true (Durable.check (durableKey room uid) c) w with
         | (Ok fresh, w') => (if fresh then Ok tt else Throw (ChatReplayError room uid c), w')
         | (Throw e, w') => (Throw e, w')
         end
    else (Throw (ChatReplayError room uid c), w).
Proof.
  unfold replay_gate, window_check. rewrite bind_gets. cbn beta.
  destruct (from_option _ _ _); [|done]. cbn [negb]. unfold mbind, M_bind.
  destruct (with_durable _ _ w) as [[[]|e] w']; done.
Qed.

Lemma replay_gate_run room uid c x w win :
  window_heap w !! x = Some win ->
  replay_gate room uid c x w =
    if Replay.check win c
    then match with_durable true (Durable.check (durableKey room uid) c) w with
         | (Ok fresh, w') => (if fresh then Ok tt else Throw (ChatReplayError room uid c), w')
         | (Throw e, w') => (Throw e, w')
         end
    else (Throw (ChatReplayError room uid c), w).
Proof. intros Hx. by rewrite replay_gate_eq, Hx. Qed.

(** Accepting writes the window through its reference; the write-through never fails. *)
Lemma replay_accept_run room uid c x w :
  exists w', replay_accept room uid c x w = (Ok tt, w') /\
    window_parts w' = (replayWindows (rcs w), alter (fun win => Replay.accept win c) x (window_heap w),
                       replayWindow (rcs w)).
Proof.
  unfold replay_accept, window_accept. rewrite bind_modify. set (w1 := w <| window_heap ::= _ |>).
  assert (returns (with_durable tt (Durable.accept (durableKey room uid) c))) as Hr by auto with returns.
  rewrite (returns_run _ w1 Hr). eexists. split; [reflexivity|]. rewrite keeps_with_durable. done.
Qed.

Lemma windows_ok_accept w w' c x :
  windows_ok w -> is_ctr c ->
  window_parts w' = (replayWindows (rcs w), alter (fun win => Replay.accept win c) x (window_heap w),
                     replayWindow (rcs w)) ->
  windows_ok w'.
Proof.
  intros [Hk Hs Hr Hi Hw Hb] Hc [= E1 E2 E3]. split; rewrite ?E1, ?E2, ?E3; try done.
  - intros r u y Hy. rewrite length_alter. eauto.
  - apply Forall_forall. intros win [y Hy]%list_elem_of_lookup. rewrite Forall_lookup in Hw.
    destruct (decide (x = y)) as [<-|Hne].
    + rewrite list_lookup_alter_eq in Hy. destruct (window_heap w !! x) as [win0|] eqn:Ex; [|done].
      injection Hy as <-. destruct (Hw _ _ Ex) as [Hwf Hsz]. split; [apply accept_wf; [done|done|lia]|].
      unfold Replay.accept. repeat case_match; done.
    + rewrite list_lookup_alter_ne in Hy by done. by apply (Hw y).
Qed.

Lemma keeps_next_ctr room uid :
  keeps (same (fun w => (window_parts w, durable (rcs w), idb w))) (next_ctr room uid).
Proof. by apply keeps_zoom. Qed.

Lemma clear_all_run room uids w :
  exists w', clear_all room uids w = (Ok tt, w') /\ window_parts w' = window_parts w.
Proof.
  revert w. induction uids as [|uid uids IH]; intros w; [by exists w|]. cbn [clear_all foldr].
  assert (returns (with_durable tt (Durable.clear (durableKey room uid)))) as Hr by auto with returns.
  rewrite (bind_Ok _ _ _ _ _ (returns_run _ w Hr)).
  destruct (IH (with_durable tt (Durable.clear (durableKey room uid)) w).2) as (w' & Hw' & Hp).
  exists w'. split; [exact Hw'|]. rewrite Hp. apply keeps_with_durable.
Qed.

(** Forgetting a room drops its windows and nobody else's. *)
Lemma forget_room_run room w :
  exists w', forget_room room w = (Ok tt, w') /\
    window_parts w' = (delete room (replayWindows (rcs w)), window_heap w, replayWindow (rcs w)).
Proof.
  unfold forget_room, set_rooms. rewrite bind_gets, bind_modify. set (w1 := w <| rcs ::= _ |>).
  destruct (replayWindows (rcs w) !! room) as [senders|]; [|by exists w1].
  destruct (clear_all_run room (omap_keys senders) w1) as (w' & Hw' & Hp). exists w'. by rewrite Hp.
Qed.

Lemma windows_ok_forget room w w' :
  windows_ok w ->
  window_parts w' = (delete room (replayWindows (rcs w)), window_heap w, replayWindow (rcs w)) ->
  windows_ok w'.
Proof.
  intros [Hk Hs Hr Hi Hw Hb] [= E1 E2 E3].
  assert (forall r u x, nested_lookup (delete room (replayWindows (rcs w))) r u = Some x ->
            nested_lookup (replayWindows (rcs w)) r u = Some x) as Hsub.
  { intros r u x. unfold nested_lookup. destruct (decide (room = r)) as [<-|Hne].
    - by rewrite jm_lookup_delete_eq.
    - by rewrite jm_lookup_delete_ne. }
  split; rewrite ?E1, ?E2, ?E3; try done.
  - by apply omap_delete_wf.
  - rewrite omap_size_keys, omap_keys_delete. etransitivity; [apply length_filter|].
    by rewrite <- omap_size_keys.
  - intros r u x Hx. eauto.
  - intros r u r' u' x Hx Hx'. eauto.
Qed.

(** ** Lemmas: a frame through the gate *)

(** The durable guard lets a CTR through. *)
Definition durable_passes (w : ReplayWorld) (roomId senderUid : string) (c : Z) : Prop :=
  (with_durable true (Durable.check (durableKey roomId senderUid) c) w).1 = Ok true.

Lemma durable_none_passes w room uid c : durable (rcs w) = None -> durable_passes w room uid c.
Proof. unfold durable_passes, with_durable. by intros ->. Qed.

Lemma durable_passes_rest w w' room uid c : rest w' = rest w -> durable_passes w room uid c -> durable_passes w' room uid c.
Proof.
  unfold durable_passes, with_durable, rest. intros [= _ _ -> -> _]. destruct (durable (rcs w)) as [g|]; [|done].
  destruct (available g); [|done]. by destruct (Durable.check _ _ _) as [r [g' e']].
Qed.

Lemma with_durable_none {A} (d : A) m w : durable (rcs w) = None -> with_durable d m w = (Ok d, w).
Proof. unfold with_durable. by intros ->. Qed.

Lemma current_window_parts w w' r u :
  window_parts w' = window_parts w -> current_window w' r u = current_window w r u.
Proof. unfold current_window, window_of, window_parts. by intros [= -> -> ->]. Qed.

Lemma current_window_at w r u x win :
  nested_lookup (replayWindows (rcs w)) r u = Some x -> window_heap w !! x = Some win ->
  current_window w r u = win.
Proof. unfold current_window, window_of. intros -> Hwin. cbn [mbind option_bind]. by rewrite Hwin. Qed.

(** The window of a sender after a frame with the counter [c] refuses it. *)
Lemma receive_refuses win c :
  Replay.wf win -> is_ctr c -> 0 < windowSize win -> Replay.check win c = true ->
  Replay.check (receive win c).2 c = false.
Proof.
  intros Hw Hc Hn Hch. unfold receive. rewrite Hch. cbn [snd].
  destruct (accept_queue win c Hw Hc Hn) as (_ & Hsz & Hq).
  assert (Replay.wf (Replay.accept win c)) as Hw' by (apply accept_wf; [done|done|lia]).
  rewrite check_wf, Hq by (done || lia).
  apply bool_decide_eq_false_2. intros Hn'. apply Hn'. case_bool_decide; [done|]. set_solver.
Qed.

Lemma current_window_wf w r u :
  windows_ok w -> Replay.wf (current_window w r u) /\ windowSize (current_window w r u) = replayWindow (rcs w).
Proof.
  intros [_ _ _ _ Hw _]. unfold current_window. destruct (window_of w r u) as [win|] eqn:E; cbn [default].
  - unfold window_of in E. apply bind_Some in E as (x & _ & Hx). rewrite Forall_lookup in Hw. by apply (Hw x).
  - split; [apply Replay.wf_new|done].
Qed.

(** The common end of both [unseal] functions: gate, open, accept. [r] is what opening gives. *)
Definition gated_open {A} (n : Z) (roomId senderUid : string) (ctr : Z) (r : res A) : RM A :=
  rw ← getReplayWindow roomId senderUid n;
  replay_gate roomId senderUid ctr rw;;
  a ← lift r;
  replay_accept roomId senderUid ctr rw;;
  mret a.

Lemma gated_open_zoom {S A} (get : S -> ReplayWorld) (put : ReplayWorld -> S -> S) n room uid c (r : res A) s :
  (forall t s, get (put t s) = t) -> (forall t t' s, put t (put t' s) = put t s) ->
  (rw ← zoom get put (getReplayWindow room uid n);
   zoom get put (replay_gate room uid c rw);;
   a ← lift r;
   zoom get put (replay_accept room uid c rw);;
   mret a) s = zoom get put (gated_open n room uid c r) s.
Proof.
  intros Hgp Hpp. unfold gated_open. rewrite zoom_bind by done. unfold mbind, M_bind.
  destruct (zoom get put (getReplayWindow room uid n) s) as [[x|e] s1]; [|done].
  unfold zoom at 1 3. destruct (replay_gate room uid c x (get s1)) as [[[]|e] t]; [|done].
  unfold lift. destruct r as [a|e]; [|done]. unfold zoom. rewrite Hgp.
  destruct (replay_accept room uid c x t) as [[[]|e] t']; by rewrite Hpp.
Qed.

(** A frame that opens goes through the sender's window. *)
Lemma gated_open_run {A} w room uid c (a : A) :
  windows_ok w -> is_ctr c ->
  let win := current_window w room uid in
  (Replay.check win c = true -> durable_passes w room uid c) ->
  exists w', gated_open (replayWindow (rcs w)) room uid c (Ok a) w =
      (if Replay.check win c then Ok a else Throw (ChatReplayError room uid c), w') /\
    windows_ok w' /\ current_window w' room uid = (receive win c).2 /\
    (durable (rcs w) = None -> durable (rcs w') = None) /\
    replayWindow (rcs w') = replayWindow (rcs w) /\
    (forall r u, (r, u) <> (room, uid) -> nested_lookup (replayWindows (rcs w)) r u = None ->
      nested_lookup (replayWindows (rcs w')) r u = None).
Proof.
  intros Hok Hc win Hdur. unfold gated_open.
  destruct (getRoomWindow_run w room uid Hok) as (x & r2 & Hget & Hok2 & Hx & Hwin & Hrest & _).
  rewrite (bind_Ok _ _ _ _ _ Hget). fold win in Hwin.
  pose proof (replay_gate_run room uid c x r2 win Hwin) as Hgate.
  assert (durable (rcs r2) = durable (rcs w) /\ replayWindow (rcs r2) = replayWindow (rcs w)) as [Hd2 Hn2]
    by (unfold rest in Hrest; by injection Hrest).
  assert (forall r u, (r, u) <> (room, uid) -> nested_lookup (replayWindows (rcs w)) r u = None ->
      nested_lookup (replayWindows (rcs r2)) r u = None) as Hframe.
  { intros r u Hne Hnone. destruct (nested_lookup (replayWindows (rcs r2)) r u) as [y|] eqn:Ey; [|done].
    destruct (getReplayWindow_frame w room uid x r2 r u y Hok Hget Ey) as [[-> ->]|?]; congruence. }
  unfold receive. destruct (Replay.check win c) eqn:Ech.
  2: { rewrite (bind_Throw _ _ _ _ _ Hgate). exists r2. split; [done|]. split; [done|].
    rewrite Hd2. split; [by eapply current_window_at|]. by split_and!. }
  pose proof (durable_passes_rest _ _ _ _ _ Hrest (Hdur eq_refl)) as Hdur2. unfold durable_passes in Hdur2.
  pose proof (keeps_with_durable true (Durable.check (durableKey room uid) c) r2) as Hp.
  set (m := with_durable true _) in *. unfold same in Hp.
  assert (durable (rcs r2) = None -> (m r2).2 = r2) as Hnone.
  { intros Hn. unfold m. by rewrite with_durable_none. }
  destruct (m r2) as [fresh r3]. cbn [fst snd] in *. subst fresh.
  rewrite (bind_Ok _ _ _ _ _ Hgate), bind_lift.
  destruct (replay_accept_run room uid c x r3) as (r4 & Hacc & Hp4).
  rewrite (bind_Ok _ _ _ _ _ Hacc). exists r4. split; [done|].
  assert (windows_ok r3) as Hok3 by (by eapply windows_ok_parts).
  split; [by eapply windows_ok_accept|]. unfold window_parts in Hp, Hp4.
  injection Hp as E1 E2 E3. injection Hp4 as F1 F2 F3. rewrite F1, F3, E1, E3. split_and!; [| |done|done].
  - cbn [snd]. eapply current_window_at; [rewrite F1, E1; exact Hx|].
    by rewrite F2, E2, list_lookup_alter_eq, Hwin.
  - intros Hn. rewrite <- Hd2 in Hn. rewrite (Hnone Hn) in Hacc.
    unfold replay_accept, window_accept in Hacc. rewrite bind_modify, with_durable_none in Hacc by done.
    by injection Hacc as <-.
Qed.

(** Whatever opening gives, a failure leaves the windows it finds as they were. *)
Lemma gated_open_any {A} w room uid c (r : res A) :
  windows_ok w -> is_ctr c ->
  let '(r', w') := gated_open (replayWindow (rcs w)) room uid c r w in
  windows_ok w' /\
  match r' with
  | Throw _ => exists new, window_heap w' = window_heap w ++ new /\ Forall (fun win => queue win = []) new
  | Ok a => r = Ok a /\ Replay.check (current_window w room uid) c = true
  end.
Proof.
  intros Hok Hc. unfold gated_open.
  destruct (getRoomWindow_run w room uid Hok) as (x & r2 & Hget & Hok2 & Hx & Hwin & Hrest & Hpre).
  pose proof (getReplayWindow_new w room uid x r2 Hget) as Hnew. rewrite (bind_Ok _ _ _ _ _ Hget).
  pose proof (keeps_replay_gate room uid c x r2) as Hp.
  pose proof (replay_gate_run room uid c x r2 _ Hwin) as Hgate.
  destruct (replay_gate room uid c x r2) as [g r3] eqn:Eg. unfold same in Hp. cbn [snd] in Hp.
  assert (windows_ok r3) as Hok3 by (by eapply windows_ok_parts).
  assert (exists new, window_heap r3 = window_heap w ++ new /\ Forall (fun win => queue win = []) new) as Hheap.
  { unfold window_parts in Hp. injection Hp as _ -> _. done. }
  destruct g as [[]|e]; [|by rewrite (bind_Throw _ _ _ _ _ Eg)].
  rewrite (bind_Ok _ _ _ _ _ Eg), bind_lift. destruct r as [a|e]; [|done].
  destruct (replay_accept_run room uid c x r3) as (r4 & Hacc & Hp4).
  rewrite (bind_Ok _ _ _ _ _ Hacc). split; [by eapply windows_ok_accept|]. split; [done|].
  by destruct (Replay.check _ _).
Qed.

(** ** Properties *)

(** C40. The eviction loop ends: as many passes as there are rooms above [MAX_REPLAY_ROOMS] already
    give the result that any larger number gives, namely the [MAX_REPLAY_ROOMS] rooms that came
    last, in their order. *)
Theorem eviction_terminates {V : Type} (m : OMap string V) (fuel : nat)
    (Hwf : omap_wf m) (Hfuel : (omap_size m - MAX_REPLAY_ROOMS <= fuel)%nat) :
  evict_rooms_loop fuel m = evictOldReplayRooms m /\
  entries (evictOldReplayRooms m) = lastn MAX_REPLAY_ROOMS (entries m) /\
  (omap_size (evictOldReplayRooms m) <= MAX_REPLAY_ROOMS)%nat.
Proof.
  split; [|split; [by apply evictOld_entries|by apply evictOld_size]].
  apply omap_ext. by rewrite evict_rooms_entries, evictOld_entries.
Qed.

Definition demo_rooms : OMap string Z := mkOMap ((fun i => (pretty i, i)) <$> seqZ 0 1026).

Lemma eviction_terminates_witness :
  omap_keys (evict_rooms_loop 2 demo_rooms) = pretty <$> seqZ 2 1024.
Proof.
  destruct (eviction_terminates demo_rooms 2) as (E & Hl & _).
  - apply (bool_decide_unpack (NoDup (omap_keys demo_rooms))). vm_compute. exact I.
  - apply Nat.leb_le. vm_compute. reflexivity.
  - rewrite E. unfold omap_keys. rewrite Hl. vm_compute. reflexivity.
Defined.
