(* ===== verification/Chat.v ===== *)
(** * Chat: the chat provider (src/chat/index.ts)

    A provider is a [ChatWorld]: the callbacks it was given, its key cache, its counter allocator,
    replay windows and durable guard ([ReplayWorld]), and what the application was told. [seal] and
    [unseal] run to their end here; [ChatRace] splits [unseal] at its awaits. *)
From S2P Require Import Prelude StateLogic Errors Internal Header Kid WebCrypto Toy Crypto SFrame.
From Stdlib Require Import Strings.Byte.
From S2P Require Import Replay Durable ChatCache ChatKeys ChatCtr ChatReplay.

(** [SealContext] *)
Record SealContext := mkSealContext { roomId : string; senderUid : string }.

(** [ChatProviderOptions] without [getKey]; its [namespace] is [opt_durableReplayNamespace]. *)
Record ChatProviderOptions := mkChatOptions {
  chat_replay_opts : ReplayCtrOptions;
  opt_onKeyRotated : bool
}.

Definition namespace_warning : string :=
  "createChatProvider: durableReplay defaults to true but no namespace provided".

Section Chat.
Context `{WebCrypto, Digest}.

Record ChatWorld := mkChatWorld {
  getKey : string -> res BaseKey;
  onKeyRotated : bool;
  keyCache : KeyDerivationCache DerivedKeys;
  replay : ReplayWorld;
  rotatedRooms : list string
}.

#[export] Instance eta_chat_world : Eta ChatWorld := fun r =>
  mkChatWorld (getKey r) (onKeyRotated r) (keyCache r) (replay r) (rotatedRooms r).

(** The factory; its state is what was written to the console. *)
Definition createChatProvider (env : Idb) (hasLocks : bool) (opts : ChatProviderOptions)
    : M (list string) js_error ReplayCtrState :=
  let o := chat_replay_opts opts in
  let replayWindow := default 1024 (opt_replayWindow o) in
  let ctrStrategy := default random_64 (opt_ctrStrategy o) in
  let is_idb := match ctrStrategy with monotonic_idb => true | random_64 => false end in
  if is_idb && falsy (opt_ctrKeyspace o)
  then throw (GenericError "ctrKeyspace is required when ctrStrategy is monotonic-idb") else
  if is_true_opt (opt_durableReplay o) && falsy (opt_durableReplayNamespace o)
  then throw (GenericError "namespace is required when durableReplay is true") else
  let durableReplayEnabled :=
    not_false_opt (opt_durableReplay o) && negb (falsy (opt_durableReplayNamespace o)) in
  (if negb durableReplayEnabled && not_false_opt (opt_durableReplay o) && falsy (opt_durableReplayNamespace o)
   then modify (fun console => console ++ [namespace_warning]) else mret tt);;
  let durableReplayWindow := default replayWindow (opt_durableReplayWindow o) in
  if durableReplayEnabled && (replayWindow <? durableReplayWindow)
  then throw (GenericError "durableReplayWindow must be <= replayWindow") else
  allocator ← (if is_idb
    then a ← lift (newMonotonicAllocator hasLocks (default "" (opt_ctrKeyspace o))%string (Some true));
         mret (MonotonicAlloc a)
    else mret (RandomAlloc newRandomAllocator));
  durable ← (if durableReplayEnabled
    then g ← lift (newGuard env (default "" (opt_durableReplayNamespace o))%string
                     (Some (JsInt durableReplayWindow)) false);
         mret (Some g)
    else mret None);
  mret {| allocator := allocator; replayWindow := replayWindow; durable := durable; replayWindows := ∅ |}.

(** The provider around what the factory made. *)
Definition chat_world (getKey : string -> res BaseKey) (opts : ChatProviderOptions)
    (state : ReplayCtrState) (env : Idb) (ctr : CtrEnv) : ChatWorld :=
  {| getKey := getKey; onKeyRotated := opt_onKeyRotated opts; keyCache := newKeyCache;
     replay := {| rcs := state; window_heap := []; idb := env; ctr_env := ctr |}; rotatedRooms := [] |}.

Abbreviation CM := (M ChatWorld js_error).

Definition on_cache {A} (m : M (KeyDerivationCache DerivedKeys) js_error A) : CM A :=
  zoom keyCache (fun c w => w <| keyCache := c |>) m.

Definition on_replay {A} (m : RM A) : CM A := zoom replay (fun r w => w <| replay := r |>) m.

(** ** Keys *)

Definition baseKey (room : string) : CM BaseKey :=
  r ← gets (fun w => getKey w room);
  userKey ← lift r;
  if negb (usages_include userKey "deriveKey")
  then throw (GenericError "chat-provider: getKey must return HKDF base-key") else mret userKey.

Definition senderKey (uid : string) (keys : DerivedKeys) : res SFrameKey :=
  let peerIndex := peerIndexForUid uid in
  kid ← makeKid (JsInt 0) (JsInt peerIndex);
  mret {| key_kid := kid; key_epoch := 0; key_peerIndex := peerIndex;
          cryptoKey := aesCryptoKey keys; salt := dk_salt keys |}.

Definition chatKey (ctx : SealContext) : CM SFrameKey :=
  userKey ← baseKey (roomId ctx);
  keys ← on_cache (deriveAesKeyAndSalt userKey (roomId ctx) (senderUid ctx));
  lift (senderKey (senderUid ctx) keys).

(** ** The provider *)

Definition seal (plaintext : bytes) (ctx : SealContext) : CM bytes :=
  sframeKey ← chatKey ctx;
  ctr ← on_replay (next_ctr (roomId ctx) (senderUid ctx));
  lift (sframeEncrypt plaintext sframeKey ctr None aad_prefix).

Definition no_meta : DecryptMeta := mkMeta None None None.

Definition unseal (sealed : bytes) (ctx : SealContext) : CM bytes :=
  sframeKey ← chatKey ctx;
  hdr ← lift (parseHeader sealed);
  n ← gets (fun w => replayWindow (rcs (replay w)));
  rw ← on_replay (getReplayWindow (roomId ctx) (senderUid ctx) n);
  on_replay (replay_gate (roomId ctx) (senderUid ctx) (ctr hdr) rw);;
  plaintext ← lift (sframeDecrypt sealed (fun _ => Some sframeKey) no_meta);
  on_replay (replay_accept (roomId ctx) (senderUid ctx) (ctr hdr) rw);;
  mret plaintext.

Definition rotate (room : string) : CM unit :=
  modify (fun w => w <| keyCache ::= fun c => evictRoom c room |>);;
  on_replay (forget_room room);;
  has ← gets onKeyRotated;
  if has : bool then modify (fun w => w <| rotatedRooms ::= fun l => l ++ [room] |>) else mret tt.

Definition dispose : CM unit := mret tt.

End Chat.

(** ** Lemmas *)

Section ChatLemmas.
Context `{WebCryptoLaws, DigestLaws}.

(** The key of a sender, as the base key of the room determines it. *)
Definition chat_sframe_key (k : BaseKey) (ctx : SealContext) : res SFrameKey :=
  keys ← deriveFresh k (roomId ctx) (senderUid ctx); senderKey (senderUid ctx) keys.

Lemma senderKey_ok uid d :
  senderKey uid d = Ok (mkSFrameKey (peerIndexForUid uid) 0 (peerIndexForUid uid) (aesCryptoKey d) (dk_salt d)).
Proof.
  unfold senderKey. rewrite makeKid_value by (lia || apply peerIndexForUid_range). done.
Qed.

Lemma chat_sframe_key_total k ctx :
  base_ok k = true -> exists key, chat_sframe_key k ctx = Ok key /\
    length (salt key) = 12%nat /\ 0 <= key_kid key <= 0xffff.
Proof.
  intros Hk. destruct (deriveFresh_total k (roomId ctx) (senderUid ctx) Hk) as (d & Hd & Hl).
  unfold chat_sframe_key. rewrite Hd. cbn [mbind result_bind]. rewrite senderKey_ok.
  eexists. split; [done|]. split; [done|]. apply peerIndexForUid_range.
Qed.

(** What a provider must know of a room to use its key [k]. *)
Record keyed (w : ChatWorld) (ctx : SealContext) (k : BaseKey) : Prop := mk_keyed {
  keyed_get : getKey w (roomId ctx) = Ok k;
  keyed_usage : usages_include k "deriveKey" = true;
  keyed_cache : cached_ok k (roomId ctx) (senderUid ctx) (keyCache w)
}.

Lemma chatKey_run w ctx k :
  keyed w ctx k -> exists c, chatKey ctx w = (chat_sframe_key k ctx, w <| keyCache := c |>) /\
    cached_ok k (roomId ctx) (senderUid ctx) c.
Proof.
  intros [Hg Hu Hc]. unfold chatKey, baseKey.
  destruct (deriveAesKeyAndSalt_run k (keyCache w) _ _ Hc) as (c & Hrun & Hc' & _).
  exists c. split; [|done].
  rewrite (bind_Ok _ _ w k w).
  2: { rewrite bind_gets, Hg, bind_lift. by rewrite Hu. }
  unfold mbind at 1, M_bind, on_cache.
  erewrite zoom_run by exact Hrun. unfold chat_sframe_key.
  by destruct (deriveFresh k (roomId ctx) (senderUid ctx)).
Qed.

Lemma keyed_replay w ctx k c r : keyed w ctx k -> cached_ok k (roomId ctx) (senderUid ctx) c ->
  keyed (w <| keyCache := c |> <| replay := r |>) ctx k.
Proof. by intros [Hg Hu _] Hc. Qed.

Lemma on_replay_run {A} (m : RM A) w r s : m (replay w) = (r, s) -> on_replay m w = (r, w <| replay := s |>).
Proof. intros Hm. unfold on_replay. by rewrite (zoom_run _ _ _ _ _ _ Hm). Qed.

Lemma unseal_gated sealed ctx w :
  unseal sealed ctx w =
    (key ← chatKey ctx;
     hdr ← lift (parseHeader sealed);
     n ← gets (fun w => replayWindow (rcs (replay w)));
     on_replay (gated_open n (roomId ctx) (senderUid ctx) (ctr hdr)
       (sframeDecrypt sealed (fun _ => Some key) no_meta))) w.
Proof.
  apply bind_ext. intros key w1. apply bind_ext. intros hdr w2. apply bind_ext. intros n w3.
  by apply gated_open_zoom.
Qed.

(** An authentic frame goes through the sender's window. *)
Lemma unseal_run w ctx k key sealed hdr pt :
  keyed w ctx k -> chat_sframe_key k ctx = Ok key -> windows_ok (replay w) ->
  parseHeader sealed = Ok hdr -> sframeDecrypt sealed (fun _ => Some key) no_meta = Ok pt ->
  let win := current_window (replay w) (roomId ctx) (senderUid ctx) in
  (Replay.check win (ctr hdr) = true -> durable_passes (replay w) (roomId ctx) (senderUid ctx) (ctr hdr)) ->
  exists w', unseal sealed ctx w =
      (if Replay.check win (ctr hdr) then Ok pt
       else Throw (ChatReplayError (roomId ctx) (senderUid ctx) (ctr hdr)), w') /\
    keyed w' ctx k /\ windows_ok (replay w') /\
    current_window (replay w') (roomId ctx) (senderUid ctx) = (receive win (ctr hdr)).2 /\
    (durable (rcs (replay w)) = None -> durable (rcs (replay w')) = None).
Proof.
  intros Hk Hkey Hok Hhdr Hdec win Hdur. destruct (chatKey_run w ctx k Hk) as (c & Hrun & Hc).
  rewrite unseal_gated, (bind_Ok _ _ _ _ _ (eq_trans Hrun (f_equal (fun r => (r, _)) Hkey))).
  rewrite bind_lift, Hhdr, Hdec, bind_gets. set (w1 := w <| keyCache := c |>).
  change (rcs (replay w1)) with (rcs (replay w)).
  pose proof (parseHeader_bounds _ _ Hhdr) as (_ & Hctr & _).
  destruct (gated_open_run (replay w) (roomId ctx) (senderUid ctx) (ctr hdr) pt Hok Hctr Hdur)
    as (r & Hopen & Hok' & Hwin & Hd & _).
  rewrite (on_replay_run _ w1 _ _ Hopen). eexists. split; [reflexivity|].
  split; [by apply (keyed_replay w)|done].
Qed.

(** [sealed] is a frame of the sender [ctx] with counter [c] and plaintext [pt]. *)
Definition authentic (k : BaseKey) (ctx : SealContext) (sealed : bytes) (c : Z) (pt : bytes) : Prop :=
  exists key hdr, chat_sframe_key k ctx = Ok key /\ parseHeader sealed = Ok hdr /\ ctr hdr = c /\
    sframeDecrypt sealed (fun _ => Some key) no_meta = Ok pt.

Lemma seal_run w ctx k pt c :
  base_ok k = true -> keyed w ctx k -> (next_ctr (roomId ctx) (senderUid ctx) (replay w)).1 = Ok c ->
  is_ctr c -> Z.of_nat (length pt) < 2 ^ 36 - 32 ->
  exists sealed, (seal pt ctx w).1 = Ok sealed /\ authentic k ctx sealed c pt.
Proof.
  intros Hb Hk Hn Hc Hpt. destruct (chatKey_run w ctx k Hk) as (ca & Hrun & _).
  destruct (chat_sframe_key_total k ctx Hb) as (key & Hkey & Hsalt & Hkid).
  unfold seal. rewrite (bind_Ok _ _ _ _ _ (eq_trans Hrun (f_equal (fun r => (r, _)) Hkey))).
  set (w1 := w <| keyCache := ca |>).
  destruct (next_ctr (roomId ctx) (senderUid ctx) (replay w)) as [r s] eqn:En. cbn [fst] in Hn. subst r.
  rewrite (bind_Ok _ _ _ _ _ (on_replay_run _ w1 _ _ En)).
  destruct (sframeEncrypt_total pt key c None aad_prefix) as [sealed Hs];
    [done|lia|done|simpl; lia|done|].
  exists sealed. unfold lift. rewrite Hs. split; [done|].
  pose proof (sframeEncrypt_inv _ _ _ _ _ _ Hs) as (h & ct & Hh & _ & -> & _).
  destruct (parse_serialize _ _ _ ct Hh) as (kid & [= <-] & Hp & _).
  exists key. eexists. split; [done|]. split; [exact Hp|]. split; [done|].
  destruct (splitKid (key_kid key)) as [e pi] eqn:E.
  apply (sframe_open pt key c None aad_prefix (h ++ ct) FIXED_KID_CODEC (fun _ => Some key) e pi);
    [done|cbn [decode FIXED_KID_CODEC]; by rewrite E|done].
Qed.

(** Hand the frames [fs] (with their counters) to [unseal], in order: what was delivered. *)
Fixpoint unseal_all (ctx : SealContext) (fs : list (bytes * Z)) (w : ChatWorld) : list (Z * bytes) * ChatWorld :=
  match fs with
  | [] => ([], w)
  | f :: fs =>
      let '(r, w) := unseal f.1 ctx w in
      let '(got, w) := unseal_all ctx fs w in
      (match r with Ok pt => (f.2, pt) :: got | Throw _ => got end, w)
  end.

(** Without a durable guard, a stream of authentic frames refines the window protocol. *)
Lemma unseal_all_run ctx k (open : Z -> bytes) fs w :
  keyed w ctx k -> windows_ok (replay w) -> durable (rcs (replay w)) = None ->
  Forall (fun f => authentic k ctx f.1 f.2 (open f.2)) fs ->
  (unseal_all ctx fs w).1 =
    (fun c => (c, open c)) <$>
      (receive_all (current_window (replay w) (roomId ctx) (senderUid ctx)) fs.*2).1.
Proof.
  intros Hk Hok Hd Hfs. revert w Hk Hok Hd.
  induction Hfs as [|[sealed c] fs (key & hdr & Hkey & Hhdr & Hc & Hdec) Hfs IH]; intros w Hk Hok Hd; [done|].
  csimpl in *. cbn [unseal_all receive_all fst snd].
  destruct (unseal_run w ctx k key sealed hdr (open c)) as (w1 & Hrun & Hk1 & Hok1 & Hwin & Hd1); [done..| |].
  { intros _. by apply durable_none_passes. }
  rewrite Hc in Hrun, Hwin. specialize (IH w1 Hk1 Hok1 (Hd1 Hd)). rewrite Hwin in IH. rewrite Hrun.
  unfold receive in *. destruct (Replay.check _ c); cbn [snd] in IH;
    destruct (unseal_all ctx fs w1), (receive_all _ fs.*2); cbn [fst] in *; subst; done.
Qed.

(** What a call of [unseal] does, whatever it is handed: the windows it finds keep their contents
    unless it succeeds, and then only what was sealed under the sender's key is returned. *)
Lemma unseal_any w ctx k sealed :
  keyed w ctx k -> windows_ok (replay w) ->
  let '(r, w') := unseal sealed ctx w in
  windows_ok (replay w') /\
  match r with
  | Throw _ => exists new, window_heap (replay w') = window_heap (replay w) ++ new /\
                 Forall (fun win => queue win = []) new
  | Ok pt => exists hdr, parseHeader sealed = Ok hdr /\ authentic k ctx sealed (ctr hdr) pt /\
               Replay.check (current_window (replay w) (roomId ctx) (senderUid ctx)) (ctr hdr) = true
  end.
Proof.
  intros Hk Hok. destruct (chatKey_run w ctx k Hk) as (c & Hrun & Hc). rewrite unseal_gated.
  set (w1 := w <| keyCache := c |>) in *.
  assert (forall e : js_error, windows_ok (replay w) /\ exists new, window_heap (replay w) = window_heap (replay w) ++ new /\
            Forall (fun win => queue win = []) new) as Hthrow.
  { intros _. split; [done|]. exists []. by rewrite app_nil_r. }
  destruct (chat_sframe_key k ctx) as [key|e] eqn:Hkey.
  2: { rewrite (bind_Throw _ _ _ _ _ Hrun). by apply Hthrow. }
  rewrite (bind_Ok _ _ _ _ _ Hrun), bind_lift.
  destruct (parseHeader sealed) as [hdr|e] eqn:Hhdr; [|by apply Hthrow].
  rewrite bind_gets. change (rcs (replay w1)) with (rcs (replay w)).
  pose proof (parseHeader_bounds _ _ Hhdr) as (_ & Hctr & _).
  pose proof (gated_open_any (replay w) (roomId ctx) (senderUid ctx) (ctr hdr)
    (sframeDecrypt sealed (fun _ => Some key) no_meta) Hok Hctr) as Hany.
  destruct (gated_open _ _ _ _ _ (replay w)) as [r' w'] eqn:Eo.
  rewrite (on_replay_run _ w1 _ _ Eo). destruct Hany as [Hok' Hr]. split; [exact Hok'|].
  destruct r' as [pt|e]; [|exact Hr]. destruct Hr as [Hdec Hch].
  exists hdr. split; [done|]. split; [by exists key, hdr|done].
Qed.

End ChatLemmas.

(** ** Examples *)

Definition demo_base : BaseKey := mkBaseKey (demo_bytes 32 7) true ["deriveKey"; "deriveBits"]%string.
Definition demo_chat_opts : ChatProviderOptions :=
  mkChatOptions (mkReplayCtrOptions None None (Some 2) None None None) true.
Definition demo_chat_state : ReplayCtrState := mkReplayCtrState (RandomAlloc newRandomAllocator) 2 None ∅.
Definition demo_chat (draws : nat -> Z) : ChatWorld (H := toy) :=
  chat_world (fun _ => Ok demo_base) demo_chat_opts demo_chat_state example_env
    (mkCtrEnv (demo_flags true true) ∅ draws 0 []).

(** The state of the examples is what the factory makes; it warns, having no namespace. *)
Example demo_chat_created :
  createChatProvider example_env true demo_chat_opts [] = (Ok demo_chat_state, [namespace_warning]).
Proof. vm_compute. reflexivity. Qed.

Definition demo_ctx : SealContext := mkSealContext "room" "alice".
Definition demo_open (c : Z) : bytes := [x68; z2b c].

Lemma demo_keyed draws : keyed (H := toy) (demo_chat draws) demo_ctx demo_base.
Proof. split; [reflexivity|vm_compute; reflexivity|]. intros d Hd. discriminate Hd. Qed.

Lemma demo_windows_ok draws : windows_ok (replay (demo_chat draws)).
Proof. apply windows_ok_new. done. Qed.

Lemma demo_base_ok : base_ok demo_base = true.
Proof. vm_compute. reflexivity. Qed.

(** A provider whose next random counter is [c] seals [demo_open c] with it. *)
Lemma demo_sealed c :
  0 <= c < 2 ^ 64 ->
  exists sealed, (seal (H := toy) (demo_open c) demo_ctx (demo_chat (fun _ => c))).1 = Ok sealed /\
    authentic (H := toy) demo_base demo_ctx sealed c (demo_open c).
Proof.
  intros Hc. apply (seal_run _ _ _ _ _ demo_base_ok (demo_keyed _)); [|done|simpl; lia].
  change (@Ok js_error Z (c mod 2 ^ 64) = Ok c). by rewrite Z.mod_small.
Qed.

(** ** Properties *)

(** End to end: what one provider seals for a sender, another provider that gets the same base
    key opens to the same plaintext, whatever else the two have done, if the receiver has not seen
    the counter; handing the same frame in again throws a [ReplayError]. *)
Theorem chat_roundtrip `{WebCryptoLaws, DigestLaws} (sender receiver : ChatWorld) (ctx : SealContext)
    (k : BaseKey) (pt : bytes) (c : Z)
    (Hb : base_ok k = true) (Hs : keyed sender ctx k) (Hr : keyed receiver ctx k)
    (Hok : windows_ok (replay receiver)) (Hn : 0 < replayWindow (rcs (replay receiver)))
    (Hnext : (next_ctr (roomId ctx) (senderUid ctx) (replay sender)).1 = Ok c) (Hc : is_ctr c)
    (Hpt : Z.of_nat (length pt) < 2 ^ 36 - 32)
    (Hfresh : Replay.check (current_window (replay receiver) (roomId ctx) (senderUid ctx)) c = true)
    (Hdur : durable_passes (replay receiver) (roomId ctx) (senderUid ctx) c) :
  exists sealed receiver', (seal pt ctx sender).1 = Ok sealed /\
    unseal sealed ctx receiver = (Ok pt, receiver') /\
    (unseal sealed ctx receiver').1 = Throw (ChatReplayError (roomId ctx) (senderUid ctx) c).
Proof.
  destruct (seal_run sender ctx k pt c) as (sealed & Hsealed & key & hdr & Hkey & Hhdr & <- & Hdec); [done..|].
  destruct (unseal_run receiver ctx k key sealed hdr pt) as (r1 & Hrun & Hr1 & Hok1 & Hwin & _); [done..|].
  rewrite Hfresh in Hrun. exists sealed, r1. split; [done|]. split; [done|].
  destruct (current_window_wf (replay receiver) (roomId ctx) (senderUid ctx) Hok) as [Hwf Hsz].
  assert (Replay.check (current_window (replay r1) (roomId ctx) (senderUid ctx)) (ctr hdr) = false) as Hch.
  { rewrite Hwin. apply receive_refuses; [done|done|lia|done]. }
  destruct (unseal_run r1 ctx k key sealed hdr pt) as (r2 & Hrun2 & _); [done..|by rewrite Hch|].
  by rewrite Hrun2, Hch.
Qed.

Lemma chat_roundtrip_witness :
  exists sealed receiver', unseal (H := toy) sealed demo_ctx (demo_chat (fun _ => 0)) = (Ok [x68; x69], receiver') /\
    (unseal sealed demo_ctx receiver').1 = Throw (ChatReplayError "room" "alice" 7).
Proof.
  destruct (chat_roundtrip (demo_chat (fun _ => 7)) (demo_chat (fun _ => 0)) demo_ctx demo_base [x68; x69] 7
    demo_base_ok (demo_keyed _) (demo_keyed _) (demo_windows_ok _)) as (sealed & r & _ & H1 & H2).
  - reflexivity.
  - vm_compute. reflexivity.
  - apply is_ctr_b. reflexivity.
  - simpl. lia.
  - vm_compute. reflexivity.
  - apply durable_none_passes. reflexivity.
  - by exists sealed, r.
Defined.



(** C15. Nothing but authentic frames comes out, and failures leave no trace: if [unseal] returns a
    plaintext, the frame is its header followed by the AES-GCM sealing of that plaintext under the
    sender's key and the header's nonce, and its counter was not in the sender's window; if it
    throws, every replay window keeps its contents. *)
Theorem chat_unseal_sound `{WebCryptoLaws, DigestLaws} (w : ChatWorld) (ctx : SealContext)
    (k : BaseKey) (sealed : bytes) (Hk : keyed w ctx k) (Hok : windows_ok (replay w)) :
  match unseal sealed ctx w with
  | (Ok pt, _) => exists hdr key body, parseHeader sealed = Ok hdr /\
      chat_sframe_key k ctx = Ok key /\ sealed = take (bodyOffset hdr) sealed ++ body /\
      SFrame.seal key (take (bodyOffset hdr) sealed) (ctr hdr) None aad_prefix pt = Ok body /\
      Replay.check (current_window (replay w) (roomId ctx) (senderUid ctx)) (ctr hdr) = true
  | (Throw _, w') => exists new, window_heap (replay w') = window_heap (replay w) ++ new /\
      Forall (fun win => queue win = []) new
  end.
Proof.
  pose proof (unseal_any w ctx k sealed Hk Hok) as H3. destruct (unseal sealed ctx w) as [[pt|e] w']; [|apply H3].
  destruct H3 as (_ & hdr & Hhdr & (key & hdr' & Hkey & Hhdr' & _ & Hdec) & Hch).
  rewrite Hhdr in Hhdr'. apply Ok_inj in Hhdr' as <-.
  apply sframeDecrypt_inv in Hdec as (hdr' & e & pi & key' & body & Hh & _ & [= <-] & Hw & Hs).
  rewrite Hhdr in Hh. apply Ok_inj in Hh as <-. exists hdr, key, body. done.
Qed.

Lemma chat_unseal_sound_witness :
  exists sealed hdr, (unseal (H := toy) sealed demo_ctx (demo_chat (fun _ => 0))).1 = Ok (demo_open 7) /\
    parseHeader sealed = Ok hdr /\
    Replay.check (current_window (replay (demo_chat (fun _ => 0))) "room" "alice") (ctr hdr) = true.
Proof.
  destruct (demo_sealed 7) as (sealed & _ & Ha); [lia|]. pose proof Ha as (key & hdr & Hkey & Hh & Hc & Hd).
  destruct (unseal_run (demo_chat (fun _ => 0)) demo_ctx demo_base key sealed hdr (demo_open 7))
    as (w' & Hrun & _); [apply demo_keyed|done|apply demo_windows_ok|done|done| |].
  { intros _. by apply durable_none_passes. }
  assert (Replay.check (current_window (replay (demo_chat (fun _ => 0))) "room" "alice") (ctr hdr) = true) as Ech.
  { rewrite Hc. vm_compute. reflexivity. }
  cbn [roomId senderUid demo_ctx] in Hrun. rewrite Ech in Hrun.
  pose proof (chat_unseal_sound (demo_chat (fun _ => 0)) demo_ctx demo_base sealed (demo_keyed _)
    (demo_windows_ok _)) as H1.
  rewrite Hrun in H1. destruct H1 as (hdr' & _ & _ & Hh' & _ & _ & _ & Hch).
  exists sealed, hdr'. split; [by rewrite Hrun|]. by split.
Defined.

(** Rotating a room forgets its keys and windows, tells the application when it asked to be told,
    and leaves the other rooms alone: from then on a sender of the room is keyed by whatever base
    key the application gives for the room, and starts with an empty window. *)
Theorem chat_rotate_rekeys `{WebCryptoLaws, DigestLaws} (w : ChatWorld) (room : string) :
  exists w', rotate room w = (Ok tt, w') /\
    rotatedRooms w' = rotatedRooms w ++ (if onKeyRotated w then [room] else []) /\
    (forall uid k, getKey w' room = Ok k -> usages_include k "deriveKey" = true ->
      keyed w' (mkSealContext room uid) k) /\
    (forall uid, window_of (replay w') room uid = None) /\
    (forall r uid, r <> room ->
      window_of (replay w') r uid = window_of (replay w) r uid /\
      cache_get (keyCache w') r uid = cache_get (keyCache w) r uid).
Proof.
  destruct (forget_room_run room (replay w)) as (r & Hrun & Hp).
  set (w1 := w <| keyCache ::= fun c => evictRoom c room |>).
  set (w2 := w1 <| replay := r |>).
  assert (forall w', keyCache w' = evictRoom (keyCache w) room -> replay w' = r ->
    (forall uid k, getKey w' room = Ok k -> usages_include k "deriveKey" = true ->
      keyed w' (mkSealContext room uid) k) /\
    (forall uid, window_of (replay w') room uid = None) /\
    (forall r uid, r <> room -> window_of (replay w') r uid = window_of (replay w) r uid /\
      cache_get (keyCache w') r uid = cache_get (keyCache w) r uid)) as Hfin.
  { intros w' Hc Hr. unfold window_parts in Hp. injection Hp as E1 E2 _. split_and!.
    - intros uid k Hg Hu. split; [done|done|]. intros d. cbn [roomId senderUid].
      by rewrite Hc, cache_get_evictRoom, decide_True.
    - intros uid. unfold window_of, nested_lookup. rewrite Hr, E1. by rewrite jm_lookup_delete_eq.
    - intros r' uid Hne. unfold window_of, nested_lookup. rewrite Hr, E1, E2, Hc.
      by rewrite jm_lookup_delete_ne, cache_get_evictRoom, decide_False. }
  unfold rotate. rewrite bind_modify. fold w1.
  rewrite (bind_Ok _ _ _ _ _ (on_replay_run _ w1 _ _ Hrun)). fold w2. rewrite bind_gets.
  assert (onKeyRotated w2 = onKeyRotated w) as -> by done.
  destruct (onKeyRotated w).
  - eexists. split; [reflexivity|]. split; [done|]. by apply Hfin.
  - exists w2. split; [reflexivity|]. rewrite app_nil_r. split; [done|]. by apply Hfin.
Qed.

Lemma chat_rotate_rekeys_witness :
  exists w', rotate (H := toy) "room" (demo_chat (fun _ => 0)) = (Ok tt, w') /\
    rotatedRooms w' = ["room"%string] /\ window_of (replay w') "room" "alice" = None /\
    window_of (replay w') "other" "alice" = None.
Proof.
  destruct (chat_rotate_rekeys (demo_chat (fun _ => 0)) "room") as (w' & Hr & Hl & _ & Hn & Ho).
  exists w'. split; [exact Hr|]. split; [exact Hl|]. split; [apply Hn|]. by rewrite (proj1 (Ho "other" "alice" ltac:(done)))%string.
Defined.

