(* ===== verification/ChatRace.v ===== *)
(** * ChatRace: calls of [unseal] and [seal] that interleave (src/chat/index.ts)

    A call is a [Task] that runs from one [await] to the next; between two steps other calls step,
    the application rotates a room, or its [getKey] starts to answer differently. A task run alone
    is [Chat.unseal] ([run_task_unseal]) or [Chat.seal] ([run_task_seal]). The awaits inside the
    durable guard, the counter allocator and the key derivation are one step each. *)
From S2P Require Import Prelude StateLogic Errors Internal Header Kid WebCrypto Toy Crypto SFrame.
From Stdlib Require Import Strings.Byte.
From S2P Require Import Replay Durable ChatCache ChatKeys ChatCtr ChatReplay Chat.

Section Race.
Context `{WebCrypto, Digest}.

(** Where a call waits: a call of [unseal] (settled by [Settled]) or of [seal] (settled by [Sealed]). *)
Inductive pc :=
| AtKey (answer : res BaseKey)
| AtDerive (userKey : BaseKey)
| AtIndex (keys : DerivedKeys)
| AtDurable (key : SFrameKey) (ctr : Z) (rw : window_ref)
| AtDecrypt (key : SFrameKey) (ctr : Z) (rw : window_ref)
| AtAccept (ctr : Z) (plaintext : bytes)
| Settled (r : res bytes)
| SealAtKey (answer : res BaseKey)
| SealAtDerive (userKey : BaseKey)
| SealAtIndex (keys : DerivedKeys)
| SealAtEncrypt (key : SFrameKey) (ctr : Z)
| Sealed (r : res bytes).

(** [t_input]: the argument of the call, a sealed frame or a plaintext. *)
Record Task := mkTask { t_input : bytes; t_ctx : SealContext; t_pc : pc }.

(** [durable?.available] *)
Definition durable_available (w : ChatWorld) : bool :=
  from_option available false (durable (rcs (replay w))).

Definition refused (ctx : SealContext) (ctr : Z) : js_error :=
  ChatReplayError (roomId ctx) (senderUid ctx) ctr.

(** What [getKey] answered, up to the keys of the sender, if the cache has them. *)
Definition take_key {A} (ctx : SealContext) (answer : res BaseKey) (derive : BaseKey -> A) (index : DerivedKeys -> A)
    : M ChatWorld js_error A :=
  userKey ← lift answer;
  if negb (usages_include userKey "deriveKey")
  then throw (GenericError "chat-provider: getKey must return HKDF base-key") else
  cached ← gets (fun w => cache_get (keyCache w) (roomId ctx) (senderUid ctx));
  mret (match cached with Some keys => index keys | None => derive userKey end).

Definition take_derived {A} (ctx : SealContext) (userKey : BaseKey) (index : DerivedKeys -> A) : M ChatWorld js_error A :=
  keys ← lift (deriveFresh userKey (roomId ctx) (senderUid ctx));
  modify (fun w => w <| keyCache ::= fun c => cache_set c (roomId ctx) (senderUid ctx) keys |>);;
  mret (index keys).

(** From one await to the next; a throw settles the call. *)
Definition pc_step (sealed : bytes) (ctx : SealContext) (p : pc)
    : M ChatWorld js_error pc :=
  match p with
  | AtKey answer => take_key ctx answer AtDerive AtIndex
  | AtDerive userKey => take_derived ctx userKey AtIndex
  | AtIndex keys =>
      key ← lift (senderKey (senderUid ctx) keys);
      hdr ← lift (parseHeader sealed);
      n ← gets (fun w => replayWindow (rcs (replay w)));
      rw ← on_replay (getReplayWindow (roomId ctx) (senderUid ctx) n);
      fresh ← on_replay (window_check rw (ctr hdr));
      if negb fresh then throw (refused ctx (ctr hdr)) else
      d ← gets durable_available;
      mret (if d : bool then AtDurable key (ctr hdr) rw else AtDecrypt key (ctr hdr) rw)
  | AtDurable key ctr rw =>
      fresh ← on_replay (with_durable true (Durable.check (durableKey (roomId ctx) (senderUid ctx)) ctr));
      if negb fresh then throw (refused ctx ctr) else mret (AtDecrypt key ctr rw)
  | AtDecrypt key ctr rw =>
      plaintext ← lift (sframeDecrypt sealed (fun _ => Some key) no_meta);
      on_replay (window_accept rw ctr);;
      d ← gets durable_available;
      mret (if d : bool then AtAccept ctr plaintext else Settled (Ok plaintext))
  | AtAccept ctr plaintext =>
      on_replay (with_durable tt (Durable.accept (durableKey (roomId ctx) (senderUid ctx)) ctr));;
      mret (Settled (Ok plaintext))
  | SealAtKey answer => take_key ctx answer SealAtDerive SealAtIndex
  | SealAtDerive userKey => take_derived ctx userKey SealAtIndex
  | SealAtIndex keys =>
      key ← lift (senderKey (senderUid ctx) keys);
      ctr ← on_replay (next_ctr (roomId ctx) (senderUid ctx));
      mret (SealAtEncrypt key ctr)
  | SealAtEncrypt key ctr =>
      out ← lift (sframeEncrypt sealed key ctr None aad_prefix);
      mret (Sealed (Ok out))
  | Settled _ | Sealed _ => mret p
  end.

(** How a call that throws settles. *)
Definition thrown (p : pc) (e : js_error) : pc :=
  match p with
  | SealAtKey _ | SealAtDerive _ | SealAtIndex _ | SealAtEncrypt _ _ | Sealed _ => Sealed (Throw e)
  | _ => Settled (Throw e)
  end.

Definition task_step (t : Task) (w : ChatWorld) : Task * ChatWorld :=
  let '(r, w) := pc_step (t_input t) (t_ctx t) (t_pc t) w in
  (mkTask (t_input t) (t_ctx t) (match r with Ok p => p | Throw e => thrown (t_pc t) e end), w).

(** Calling [unseal]: [getKey] is called at once. *)
Definition call_unseal (sealed : bytes) (ctx : SealContext) (w : ChatWorld) : Task :=
  mkTask sealed ctx (AtKey (getKey w (roomId ctx))).

(** Calling [seal]. *)
Definition call_seal (plaintext : bytes) (ctx : SealContext) (w : ChatWorld) : Task :=
  mkTask plaintext ctx (SealAtKey (getKey w (roomId ctx))).

Fixpoint run_task (n : nat) (t : Task) (w : ChatWorld) : Task * ChatWorld :=
  match n with
  | O => (t, w)
  | S n => let '(t, w) := task_step t w in run_task n t w
  end.

(** ** Interleavings *)

Record Config := mkConfig { world : ChatWorld; tasks : list Task }.

Inductive Event :=
| Call (sealed : bytes) (ctx : SealContext)
| CallSeal (plaintext : bytes) (ctx : SealContext)
| Advance (i : nat)
| Rotate (room : string)
| Rekey (getKey : string -> res BaseKey).

Definition config_step (c : Config) (ev : Event) : Config :=
  match ev with
  | Call sealed ctx => mkConfig (world c) (tasks c ++ [call_unseal sealed ctx (world c)])
  | CallSeal plaintext ctx => mkConfig (world c) (tasks c ++ [call_seal plaintext ctx (world c)])
  | Advance i =>
      match tasks c !! i with
      | Some t => let '(t, w) := task_step t (world c) in mkConfig w (<[i := t]> (tasks c))
      | None => c
      end
  | Rotate room => mkConfig (rotate room (world c)).2 (tasks c)
  | Rekey f => mkConfig (mkChatWorld f (onKeyRotated (world c)) (keyCache (world c)) (replay (world c))
                           (rotatedRooms (world c))) (tasks c)
  end.

Definition run_events (c : Config) (evs : list Event) : Config := foldl config_step c evs.

(** ** Lemmas: one call alone *)

Lemma run_task_settled n sealed ctx r w :
  run_task n (mkTask sealed ctx (Settled r)) w = (mkTask sealed ctx (Settled r), w).
Proof. induction n as [|n IH]; [done|]. exact IH. Qed.

Lemma run_task_sealed n pt ctx r w : run_task n (mkTask pt ctx (Sealed r)) w = (mkTask pt ctx (Sealed r), w).
Proof. induction n as [|n IH]; [done|]. exact IH. Qed.

Lemma run_task_thrown n sealed ctx p e w :
  run_task n (mkTask sealed ctx (thrown p e)) w = (mkTask sealed ctx (thrown p e), w).
Proof. destruct p; apply run_task_settled || apply run_task_sealed. Qed.

Lemma with_durable_unavailable {A} (d : A) m w :
  durable_available w = false -> with_durable d m (replay w) = (Ok d, replay w).
Proof.
  unfold durable_available, with_durable. destruct (durable _) as [g|]; [|done]. cbn [from_option].
  by intros ->.
Qed.

(** The rest of a call, from its gate on. *)
Definition unseal_from (sealed : bytes) (ctx : SealContext) (key : SFrameKey) : M ChatWorld js_error bytes :=
  hdr ← lift (parseHeader sealed);
  n ← gets (fun w => replayWindow (rcs (replay w)));
  rw ← on_replay (getReplayWindow (roomId ctx) (senderUid ctx) n);
  on_replay (replay_gate (roomId ctx) (senderUid ctx) (ctr hdr) rw);;
  plaintext ← lift (sframeDecrypt sealed (fun _ => Some key) no_meta);
  on_replay (replay_accept (roomId ctx) (senderUid ctx) (ctr hdr) rw);;
  mret plaintext.

Lemma unseal_split sealed ctx w : unseal sealed ctx w = (chatKey ctx ≫= unseal_from sealed ctx) w.
Proof. done. Qed.

Lemma run_task_S n sealed ctx p w :
  run_task (S n) (mkTask sealed ctx p) w =
    match pc_step sealed ctx p w with
    | (Ok p, w) => run_task n (mkTask sealed ctx p) w
    | (Throw e, w) => (mkTask sealed ctx (thrown p e), w)
    end.
Proof.
  cbn [run_task]. unfold task_step. cbn [t_input t_ctx t_pc].
  destruct (pc_step sealed ctx p w) as [[p'|e] w']; [done|]. apply run_task_thrown.
Qed.

(** From the wait on the decryption on. *)
Lemma run_decrypt sealed ctx key c x w :
  run_task 2 (mkTask sealed ctx (AtDecrypt key c x)) w =
    let '(r, w') := (plaintext ← lift (sframeDecrypt sealed (fun _ => Some key) no_meta);
                     on_replay (replay_accept (roomId ctx) (senderUid ctx) c x);;
                     mret plaintext) w in
    (mkTask sealed ctx (Settled r), w').
Proof.
  rewrite run_task_S. cbn [pc_step]. rewrite !bind_lift.
  destruct (sframeDecrypt sealed _ no_meta) as [pt|e]; [|done].
  set (w1 := w <| replay ::= fun r => r <| window_heap ::= alter (fun win => Replay.accept win c) x |> |>).
  assert (on_replay (window_accept x c) w = (Ok tt, w1)) as Hacc by done.
  rewrite (bind_Ok _ _ _ _ _ Hacc), bind_gets.
  assert (on_replay (replay_accept (roomId ctx) (senderUid ctx) c x) w =
          on_replay (with_durable tt (Durable.accept (durableKey (roomId ctx) (senderUid ctx)) c)) w1) as E by done.
  unfold mbind, M_bind. rewrite E. destruct (durable_available w1) eqn:Ed; cbn [M_ret mret].
  - rewrite run_task_S. cbn [pc_step]. unfold mbind, M_bind.
    by destruct (on_replay _ w1) as [[[]|e] w2].
  - rewrite run_task_settled. erewrite on_replay_run by (by apply with_durable_unavailable). done.
Qed.

Lemma run_task_add n m t w :
  run_task (n + m) t w = let '(t, w) := run_task n t w in run_task m t w.
Proof.
  revert t w. induction n as [|n IH]; intros t w; [done|]. cbn [Nat.add run_task].
  destruct (task_step t w). apply IH.
Qed.

Lemma run_decrypt_more m sealed ctx key c x w :
  run_task (2 + m) (mkTask sealed ctx (AtDecrypt key c x)) w = run_task 2 (mkTask sealed ctx (AtDecrypt key c x)) w.
Proof.
  assert (exists r w', run_task 2 (mkTask sealed ctx (AtDecrypt key c x)) w =
            (mkTask sealed ctx (Settled r), w')) as (r & w' & E).
  { rewrite run_decrypt. match goal with |- context [let '(_, _) := ?m in _] => destruct m as [r w'] end. eauto. }
  rewrite run_task_add, E. apply run_task_settled.
Qed.

Lemma run_index sealed ctx keys w :
  run_task 4 (mkTask sealed ctx (AtIndex keys)) w =
    let '(r, w') := (key ← lift (senderKey (senderUid ctx) keys); unseal_from sealed ctx key) w in
    (mkTask sealed ctx (Settled r), w').
Proof.
  rewrite run_task_S. cbn [pc_step]. unfold unseal_from. rewrite !bind_lift.
  destruct (senderKey (senderUid ctx) keys) as [key|e]; [|done]. rewrite !bind_lift.
  destruct (parseHeader sealed) as [hdr|e]; [|done]. rewrite !bind_gets. cbn beta.
  destruct (getReplayWindow (roomId ctx) (senderUid ctx) (replayWindow (rcs (replay w))) (replay w))
    as [[x|e] r] eqn:Eg.
  2: { rewrite !(bind_Throw _ _ _ _ _ (on_replay_run _ w _ _ Eg)). done. }
  rewrite !(bind_Ok _ _ _ _ _ (on_replay_run _ w _ _ Eg)). set (w1 := w <| replay := r |>).
  assert (on_replay (window_check x (ctr hdr)) w1 =
    (Ok (from_option (fun win => Replay.check win (ctr hdr)) true (window_heap r !! x)), w1)) as Hchk.
  { unfold w1. by destruct w. }
  pose proof (replay_gate_eq (roomId ctx) (senderUid ctx) (ctr hdr) x r) as Hgate.
  rewrite (bind_Ok _ _ _ _ _ Hchk). destruct (from_option _ _ _); cbn [negb].
  2: { rewrite (bind_Throw _ _ _ _ _ (on_replay_run _ w1 _ _ Hgate)). done. }
  rewrite bind_gets. cbn [mret M_ret]. destruct (durable_available w1) eqn:Ed.
  - rewrite run_task_S. cbn [pc_step].
    set (chk := with_durable true (Durable.check (durableKey (roomId ctx) (senderUid ctx)) (ctr hdr))) in *.
    destruct (chk r) as [fresh r2] eqn:Echk. unfold mbind at 1, M_bind at 1.
    rewrite (on_replay_run chk w1 _ _ Echk).
    destruct fresh as [[]|e]; cbn [negb].
    + rewrite (bind_Ok _ _ _ _ _ (on_replay_run _ w1 _ _ Hgate)). apply run_decrypt.
    + rewrite (bind_Throw _ _ _ _ _ (on_replay_run _ w1 _ _ Hgate)). done.
    + rewrite (bind_Throw _ _ _ _ _ (on_replay_run _ w1 _ _ Hgate)). done.
  - assert (with_durable true (Durable.check (durableKey (roomId ctx) (senderUid ctx)) (ctr hdr)) r = (Ok true, r)) as Hd.
    { apply (with_durable_unavailable _ _ w1). exact Ed. }
    rewrite Hd in Hgate. rewrite (bind_Ok _ _ _ _ _ (on_replay_run _ w1 _ _ Hgate)).
    rewrite (run_decrypt_more 1). apply run_decrypt.
Qed.

Lemma run_index_more m sealed ctx keys w :
  run_task (4 + m) (mkTask sealed ctx (AtIndex keys)) w = run_task 4 (mkTask sealed ctx (AtIndex keys)) w.
Proof.
  assert (exists r w', run_task 4 (mkTask sealed ctx (AtIndex keys)) w =
            (mkTask sealed ctx (Settled r), w')) as (r & w' & E).
  { rewrite run_index. match goal with |- context [let '(_, _) := ?m in _] => destruct m as [r w'] end. eauto. }
  rewrite run_task_add, E. apply run_task_settled.
Qed.

(** What a call does up to the sender's key. *)
Lemma chatKey_split {B} ctx (rest : SFrameKey -> M ChatWorld js_error B) w :
  (chatKey ctx ≫= rest) w =
    match getKey w (roomId ctx) with
    | Throw e => (Throw e, w)
    | Ok userKey =>
        if negb (usages_include userKey "deriveKey")
        then (Throw (GenericError "chat-provider: getKey must return HKDF base-key"), w) else
        match cache_get (keyCache w) (roomId ctx) (senderUid ctx) with
        | Some keys => (lift (senderKey (senderUid ctx) keys) ≫= rest) w
        | None =>
            match deriveFresh userKey (roomId ctx) (senderUid ctx) with
            | Ok keys => (lift (senderKey (senderUid ctx) keys) ≫= rest)
                           (w <| keyCache ::= fun c => cache_set c (roomId ctx) (senderUid ctx) keys |>)
            | Throw e => (Throw e, w)
            end
        end
    end.
Proof.
  unfold chatKey, baseKey. destruct (getKey w (roomId ctx)) as [userKey|e] eqn:Eg.
  2: { unfold mbind, M_bind, gets, lift. by rewrite Eg. }
  destruct (usages_include userKey "deriveKey") eqn:Eu; cbn [negb].
  2: { unfold mbind, M_bind, gets, lift. by rewrite Eg, Eu. }
  set (key := r ← gets (fun w => getKey w (roomId ctx)); _).
  assert (key w = (Ok userKey, w)) as Hkey.
  { unfold key. rewrite bind_gets, Eg, bind_lift. by rewrite Eu. }
  assert (forall r c, deriveAesKeyAndSalt userKey (roomId ctx) (senderUid ctx) (keyCache w) = (r, c) ->
    ((key ≫= fun userKey => on_cache (deriveAesKeyAndSalt userKey (roomId ctx) (senderUid ctx)) ≫= fun keys =>
        lift (senderKey (senderUid ctx) keys)) ≫= rest) w =
    (lift r ≫= fun keys => lift (senderKey (senderUid ctx) keys) ≫= rest) (w <| keyCache := c |>)) as Hfrom.
  { intros r c Hr. unfold mbind at 1, M_bind at 1. rewrite (bind_Ok _ _ _ _ _ Hkey).
    unfold mbind at 1, M_bind at 1, on_cache. rewrite (zoom_run _ _ _ _ _ _ Hr).
    rewrite bind_lift. destruct r as [keys|e]; [|done]. rewrite bind_lift. unfold lift.
    by destruct (senderKey (senderUid ctx) keys). }
  pose proof (deriveAesKeyAndSalt_eq userKey (roomId ctx) (senderUid ctx) (keyCache w)) as Hd.
  destruct (cache_get (keyCache w) (roomId ctx) (senderUid ctx)) as [keys|] eqn:Ec.
  - rewrite (Hfrom _ _ Hd), bind_lift. assert (w <| keyCache := keyCache w |> = w) as -> by (by destruct w). done.
  - destruct (deriveFresh userKey (roomId ctx) (senderUid ctx)) as [keys|e]; rewrite (Hfrom _ _ Hd), bind_lift; [done|].
    by destruct w.
Qed.

(** A call that nothing interleaves with is [unseal]. *)
Lemma run_task_unseal sealed ctx w :
  run_task 6 (call_unseal sealed ctx w) w =
    let '(r, w') := unseal sealed ctx w in (mkTask sealed ctx (Settled r), w').
Proof.
  rewrite unseal_split, chatKey_split. unfold call_unseal. rewrite run_task_S. cbn [pc_step thrown]. unfold take_key.
  rewrite bind_lift. destruct (getKey w (roomId ctx)) as [userKey|e]; [|done]. destruct (negb _); [done|].
  rewrite bind_gets. cbn [mret M_ret]. destruct (cache_get (keyCache w) (roomId ctx) (senderUid ctx)) as [keys|].
  - by rewrite (run_index_more 1), run_index.
  - rewrite run_task_S. cbn [pc_step thrown]. unfold take_derived. rewrite bind_lift.
    destruct (deriveFresh userKey (roomId ctx) (senderUid ctx)) as [keys|e]; [|done].
    rewrite bind_modify. cbn [mret M_ret]. apply run_index.
Qed.

(** The rest of a call of [seal]. *)
Definition seal_from (pt : bytes) (ctx : SealContext) (key : SFrameKey) : M ChatWorld js_error bytes :=
  ctr ← on_replay (next_ctr (roomId ctx) (senderUid ctx));
  lift (sframeEncrypt pt key ctr None aad_prefix).

Lemma run_seal_index m pt ctx keys w :
  run_task (2 + m) (mkTask pt ctx (SealAtIndex keys)) w =
    let '(r, w') := (lift (senderKey (senderUid ctx) keys) ≫= seal_from pt ctx) w in (mkTask pt ctx (Sealed r), w').
Proof.
  cbn [Nat.add]. rewrite run_task_S. cbn [pc_step thrown]. rewrite !bind_lift.
  destruct (senderKey (senderUid ctx) keys) as [key|e]; [|done]. unfold seal_from.
  destruct (on_replay (next_ctr (roomId ctx) (senderUid ctx)) w) as [[c|e] w1] eqn:En.
  2: { by rewrite !(bind_Throw _ _ _ _ _ En). }
  rewrite !(bind_Ok _ _ _ _ _ En). cbn [mret M_ret]. rewrite run_task_S. cbn [pc_step thrown].
  rewrite bind_lift. unfold lift. destruct (sframeEncrypt _ _ _ _ _) as [out|e]; [|done]. apply run_task_sealed.
Qed.

(** A call of [seal] that nothing interleaves with. *)
Lemma run_task_seal pt ctx w :
  run_task 4 (call_seal pt ctx w) w =
    let '(r, w') := seal pt ctx w in (mkTask pt ctx (Sealed r), w').
Proof.
  change (seal pt ctx w) with ((chatKey ctx ≫= seal_from pt ctx) w). rewrite chatKey_split.
  unfold call_seal. rewrite run_task_S. cbn [pc_step thrown]. unfold take_key.
  rewrite bind_lift. destruct (getKey w (roomId ctx)) as [userKey|e]; [|done]. destruct (negb _); [done|].
  rewrite bind_gets. cbn [mret M_ret]. destruct (cache_get (keyCache w) (roomId ctx) (senderUid ctx)) as [keys|].
  - apply (run_seal_index 1).
  - rewrite run_task_S. cbn [pc_step thrown]. unfold take_derived. rewrite bind_lift.
    destruct (deriveFresh userKey (roomId ctx) (senderUid ctx)) as [keys|e]; [|done].
    rewrite bind_modify. cbn [mret M_ret]. apply (run_seal_index 0).
Qed.

End Race.

(** ** Lemmas: all interleavings *)

Section Schedules.
Context `{WebCryptoLaws, DigestLaws}.

(** The steps of a call whose key is cached, on a provider without a durable guard. *)
Lemma step_key_hit sealed ctx k d w :
  usages_include k "deriveKey" = true ->
  cache_get (keyCache w) (roomId ctx) (senderUid ctx) = Some d ->
  task_step (mkTask sealed ctx (AtKey (Ok k))) w = (mkTask sealed ctx (AtIndex d), w).
Proof.
  intros Hu Hd. unfold task_step. cbn [t_input t_ctx t_pc pc_step]. unfold take_key. rewrite bind_lift, Hu.
  cbn [negb]. rewrite bind_gets, Hd. done.
Qed.

Lemma step_key_miss sealed ctx k w :
  usages_include k "deriveKey" = true ->
  cache_get (keyCache w) (roomId ctx) (senderUid ctx) = None ->
  task_step (mkTask sealed ctx (AtKey (Ok k))) w = (mkTask sealed ctx (AtDerive k), w).
Proof.
  intros Hu Hd. unfold task_step. cbn [t_input t_ctx t_pc pc_step]. unfold take_key. rewrite bind_lift, Hu.
  cbn [negb]. rewrite bind_gets, Hd. done.
Qed.

Lemma advance_0 w t ts t' w' :
  task_step t w = (t', w') -> config_step (mkConfig w (t :: ts)) (Advance 0) = mkConfig w' (t' :: ts).
Proof. intros Ht. cbn [config_step tasks world lookup list_lookup]. by rewrite Ht. Qed.

Lemma advance_1 w t0 t ts t' w' :
  task_step t w = (t', w') -> config_step (mkConfig w (t0 :: t :: ts)) (Advance 1) = mkConfig w' (t0 :: t' :: ts).
Proof. intros Ht. cbn [config_step tasks world lookup list_lookup]. by rewrite Ht. Qed.

Lemma step_index sealed ctx d key hdr w :
  senderKey (senderUid ctx) d = Ok key -> parseHeader sealed = Ok hdr -> windows_ok (replay w) ->
  durable (rcs (replay w)) = None ->
  Replay.check (current_window (replay w) (roomId ctx) (senderUid ctx)) (ctr hdr) = true ->
  exists x r, task_step (mkTask sealed ctx (AtIndex d)) w =
      (mkTask sealed ctx (AtDecrypt key (ctr hdr) x), w <| replay := r |>) /\
    windows_ok r /\ durable (rcs r) = None /\
    current_window r (roomId ctx) (senderUid ctx) = current_window (replay w) (roomId ctx) (senderUid ctx).
Proof.
  intros Hkey Hhdr Hok Hd Hch. unfold task_step. cbn [t_input t_ctx t_pc pc_step].
  rewrite bind_lift, Hkey, bind_lift, Hhdr, bind_gets.
  destruct (getRoomWindow_run (replay w) (roomId ctx) (senderUid ctx) Hok)
    as (x & r & Hget & Hok' & Hx & Hwin & Hrest & _).
  rewrite (bind_Ok _ _ _ _ _ (on_replay_run _ w _ _ Hget)). set (w1 := w <| replay := r |>).
  unfold mbind at 1, M_bind at 1. rewrite (on_replay_run (window_check x (ctr hdr)) w1 _ _ eq_refl).
  assert (w1 <| replay := replay w1 |> = w1) as -> by (by destruct w).
  change (replay w1) with r. rewrite Hwin. cbn [from_option]. rewrite Hch. cbn [negb].
  assert (durable (rcs r) = None) as Hdr.
  { unfold rest in Hrest. injection Hrest as _ _ -> _ _. done. }
  rewrite bind_gets. unfold durable_available. change (replay w1) with r. rewrite Hdr.
  exists x, r. split; [done|]. split; [done|]. split; [done|]. by eapply current_window_at.
Qed.

Lemma step_decrypt sealed ctx key c x pt w :
  sframeDecrypt sealed (fun _ => Some key) no_meta = Ok pt -> durable (rcs (replay w)) = None ->
  exists w', task_step (mkTask sealed ctx (AtDecrypt key c x)) w = (mkTask sealed ctx (Settled (Ok pt)), w') /\
    durable (rcs (replay w')) = None.
Proof.
  intros Hdec Hd. unfold task_step. cbn [t_input t_ctx t_pc pc_step]. rewrite bind_lift, Hdec.
  set (w1 := w <| replay ::= fun r => r <| window_heap ::= alter (fun win => Replay.accept win c) x |> |>).
  assert (on_replay (window_accept x c) w = (Ok tt, w1)) as Hacc by done.
  rewrite (bind_Ok _ _ _ _ _ Hacc), bind_gets. unfold durable_available.
  assert (durable (rcs (replay w1)) = None) as -> by done. by exists w1.
Qed.

End Schedules.

Section Interleavings.
Context `{WebCryptoLaws, DigestLaws}.

(** The base keys that the application has given out for each room. *)
Context (given : string -> BaseKey -> Prop).

Definition derived_ok (ctx : SealContext) (keys : DerivedKeys) : Prop :=
  exists k, given (roomId ctx) k /\ deriveFresh k (roomId ctx) (senderUid ctx) = Ok keys.

Definition key_ok (ctx : SealContext) (key : SFrameKey) : Prop :=
  exists k, given (roomId ctx) k /\ chat_sframe_key k ctx = Ok key.

Definition delivered_ok (sealed : bytes) (ctx : SealContext) (pt : bytes) : Prop :=
  exists k c, given (roomId ctx) k /\ authentic k ctx sealed c pt.

Definition pc_ok (sealed : bytes) (ctx : SealContext) (p : pc) : Prop :=
  match p with
  | AtKey answer => forall k, answer = Ok k -> given (roomId ctx) k
  | AtDerive k => given (roomId ctx) k
  | AtIndex keys => derived_ok ctx keys
  | AtDurable key c _ | AtDecrypt key c _ => key_ok ctx key /\
      exists hdr, parseHeader sealed = Ok hdr /\ ctr hdr = c
  | AtAccept _ pt | Settled (Ok pt) => delivered_ok sealed ctx pt
  | SealAtKey answer => forall k, answer = Ok k -> given (roomId ctx) k
  | SealAtDerive k => given (roomId ctx) k
  | SealAtIndex keys => derived_ok ctx keys
  | SealAtEncrypt key _ => key_ok ctx key
  | Sealed (Ok out) => exists key n, key_ok ctx key /\ sframeEncrypt sealed key n None aad_prefix = Ok out
  | Settled (Throw _) | Sealed (Throw _) => True
  end.

Record world_ok (w : ChatWorld) : Prop := mk_world_ok {
  wo_windows : windows_ok (replay w);
  wo_getKey : forall r k, getKey w r = Ok k -> given r k;
  wo_cache : forall r u d, cache_get (keyCache w) r u = Some d ->
    exists k, given r k /\ deriveFresh k r u = Ok d
}.

Lemma world_ok_replay w r : world_ok w -> windows_ok r -> world_ok (w <| replay := r |>).
Proof. by intros [_ ? ?] ?. Qed.

(** A step keeps the world, and what it returns is in [Q]. *)
Definition step_ok {A} (Q : A -> Prop) (m : M ChatWorld js_error A) (w : ChatWorld) : Prop :=
  let '(r, w') := m w in
  world_ok w' /\ getKey w' = getKey w /\ match r with Ok a => Q a | Throw _ => True end.

Lemma take_key_ok {A} (Q : A -> Prop) ctx answer derive index w :
  world_ok w -> (forall k, answer = Ok k -> given (roomId ctx) k) ->
  (forall k, given (roomId ctx) k -> Q (derive k)) -> (forall keys, derived_ok ctx keys -> Q (index keys)) ->
  step_ok Q (take_key ctx answer derive index) w.
Proof.
  intros Hw Ha Hd Hi. unfold step_ok, take_key. rewrite bind_lift. destruct answer as [k|e]; [|done].
  destruct (negb _); [done|]. rewrite bind_gets. cbn [mret M_ret]. split; [done|]. split; [done|].
  destruct (cache_get (keyCache w) (roomId ctx) (senderUid ctx)) as [d|] eqn:E; [apply Hi, (wo_cache _ Hw _ _ _ E)|by apply Hd, Ha].
Qed.

Lemma take_derived_ok {A} (Q : A -> Prop) ctx k index w :
  world_ok w -> given (roomId ctx) k -> (forall keys, derived_ok ctx keys -> Q (index keys)) ->
  step_ok Q (take_derived ctx k index) w.
Proof.
  intros Hw Hk Hi. pose proof Hw as [Hok Hg Hc]. unfold step_ok, take_derived. rewrite bind_lift.
  destruct (deriveFresh k (roomId ctx) (senderUid ctx)) as [keys|e] eqn:Ed; [|done].
  rewrite bind_modify. cbn [mret M_ret]. split; [|split; [done|apply Hi; by exists k]]. split; [done|done|].
  intros r u d [(-> & -> & ->)|Hd]%cache_get_set; [by exists k|by apply Hc].
Qed.

Lemma pc_step_ok sealed ctx p w :
  world_ok w -> pc_ok sealed ctx p ->
  let '(r, w') := pc_step sealed ctx p w in
  world_ok w' /\ getKey w' = getKey w /\
  match r with Ok p' => pc_ok sealed ctx p' | Throw _ => True end.
Proof.
  intros Hw Hp. pose proof Hw as [Hok Hg Hc]. destruct p as [answer|k|keys|key c x|key c x|c pt|r|answer|k|keys|key c|r]; cbn [pc_step pc_ok] in *.
  - by apply (take_key_ok (pc_ok sealed ctx)).
  - by apply (take_derived_ok (pc_ok sealed ctx)).
  - rewrite bind_lift. destruct (senderKey (senderUid ctx) keys) as [key|e] eqn:Ek; [|done].
    rewrite bind_lift. destruct (parseHeader sealed) as [hdr|e] eqn:Eh; [|done]. rewrite bind_gets.
    destruct (getRoomWindow_run (replay w) (roomId ctx) (senderUid ctx) Hok) as (x & r & Hget & Hok' & _).
    rewrite (bind_Ok _ _ _ _ _ (on_replay_run _ w _ _ Hget)). set (w1 := w <| replay := r |>).
    assert (world_ok w1) as Hw1 by (by apply world_ok_replay).
    unfold mbind at 1, M_bind at 1. rewrite (on_replay_run (window_check x (ctr hdr)) w1 _ _ eq_refl).
    assert (w1 <| replay := replay w1 |> = w1) as -> by (by destruct w).
    destruct (from_option _ _ _); cbn [negb]; [|done]. rewrite bind_gets. cbn [mret M_ret].
    split; [done|]. split; [done|]. destruct Hp as (k & Hk & Hd).
    assert (key_ok ctx key) by (exists k; split; [done|]; unfold chat_sframe_key; by rewrite Hd).
    destruct (durable_available w1); (split; [done|by exists hdr]).
  - set (m := with_durable true _). destruct (m (replay w)) as [fresh r] eqn:Em.
    assert (windows_ok r) as Hr.
    { eapply windows_ok_parts; [|exact Hok]. pose proof (keeps_with_durable true
        (Durable.check (durableKey (roomId ctx) (senderUid ctx)) c) (replay w)) as Hk.
      fold m in Hk. unfold same in Hk. by rewrite Em in Hk. }
    unfold mbind at 1, M_bind at 1. rewrite (on_replay_run m w _ _ Em).
    destruct fresh as [[]|e]; cbn [negb]; (split; [by apply world_ok_replay|done]).
  - rewrite bind_lift. destruct (sframeDecrypt sealed _ no_meta) as [pt|e] eqn:Ed; [|done].
    destruct Hp as ((k & Hk & Hkey) & hdr & Hhdr & Hctr).
    set (w1 := w <| replay ::= fun r => r <| window_heap ::= alter (fun win => Replay.accept win c) x |> |>).
    assert (on_replay (window_accept x c) w = (Ok tt, w1)) as Hacc by done.
    rewrite (bind_Ok _ _ _ _ _ Hacc), bind_gets. cbn [mret M_ret].
    pose proof (parseHeader_bounds _ _ Hhdr) as (_ & Hb & _). rewrite Hctr in Hb.
    split; [|split; [done|]].
    + split; [|done|done]. by apply (windows_ok_accept (replay w) _ c x).
    + assert (delivered_ok sealed ctx pt) by (exists k, c; split; [done|]; by exists key, hdr).
      by destruct (durable_available w1).
  - set (m := with_durable tt _). destruct (m (replay w)) as [u r] eqn:Em.
    assert (windows_ok r) as Hr.
    { eapply windows_ok_parts; [|exact Hok]. pose proof (keeps_with_durable tt
        (Durable.accept (durableKey (roomId ctx) (senderUid ctx)) c) (replay w)) as Hk.
      fold m in Hk. unfold same in Hk. by rewrite Em in Hk. }
    unfold mbind at 1, M_bind at 1. rewrite (on_replay_run m w _ _ Em).
    destruct u as [[]|e]; (split; [by apply world_ok_replay|done]).
  - cbn [mret M_ret]. done.
  - by apply (take_key_ok (pc_ok sealed ctx)).
  - by apply (take_derived_ok (pc_ok sealed ctx)).
  - rewrite bind_lift. destruct (senderKey (senderUid ctx) keys) as [key|e] eqn:Ek; [|done].
    destruct Hp as (k & Hk & Hd). destruct (next_ctr (roomId ctx) (senderUid ctx) (replay w)) as [c r] eqn:En.
    assert (windows_ok r) as Hr.
    { eapply windows_ok_parts; [|exact Hok]. pose proof (keeps_next_ctr (roomId ctx) (senderUid ctx) (replay w)) as Hn.
      rewrite En in Hn. exact (f_equal (fun x => x.1.1) Hn). }
    unfold mbind at 1, M_bind at 1. rewrite (on_replay_run _ w _ _ En).
    destruct c as [c|e]; (split; [by apply world_ok_replay|split; [done|]]); [|done].
    exists k. split; [done|]. unfold chat_sframe_key. by rewrite Hd.
  - rewrite bind_lift. destruct (sframeEncrypt sealed key c None aad_prefix) as [out|e] eqn:E; [|done].
    cbn [mret M_ret]. split; [done|]. split; [done|]. by exists key, c.
  - cbn [mret M_ret]. done.
Qed.

Definition task_ok (t : Task) : Prop := pc_ok (t_input t) (t_ctx t) (t_pc t).

Record config_ok (c : Config) : Prop := mk_config_ok {
  co_world : world_ok (world c);
  co_tasks : Forall task_ok (tasks c)
}.

(** The application answers with keys it has given out. *)
Definition event_ok (ev : Event) : Prop :=
  match ev with Rekey f => forall r k, f r = Ok k -> given r k | _ => True end.

Lemma rotate_ok room w : world_ok w -> world_ok (rotate room w).2.
Proof.
  intros [Hok Hg Hc]. destruct (forget_room_run room (replay w)) as (r & Hrun & Hp).
  set (w1 := w <| keyCache ::= fun c => evictRoom c room |>).
  unfold rotate. rewrite bind_modify. fold w1.
  rewrite (bind_Ok _ _ _ _ _ (on_replay_run _ w1 _ _ Hrun)), bind_gets.
  assert (world_ok (w1 <| replay := r |>)) as Hw2.
  { split; [by apply (windows_ok_forget room (replay w))|done|].
    intros r' u d. change (keyCache _) with (evictRoom (keyCache w) room).
    rewrite cache_get_evictRoom. case_decide; [done|]. apply Hc. }
  destruct (onKeyRotated _); [|exact Hw2]. destruct Hw2. by split.
Qed.

Lemma config_step_ok c ev : config_ok c -> event_ok ev -> config_ok (config_step c ev).
Proof.
  intros [Hw Ht] Hev. destruct ev as [sealed ctx|pt ctx|i|room|f]; cbn [config_step].
  - split; [done|]. apply Forall_app. split; [done|]. constructor; [|constructor].
    intros k Hk. by apply (wo_getKey _ Hw).
  - split; [done|]. apply Forall_app. split; [done|]. constructor; [|constructor].
    intros k Hk. by apply (wo_getKey _ Hw).
  - destruct (tasks c !! i) as [t|] eqn:Et; [|done]. unfold task_step.
    rewrite Forall_lookup in Ht. pose proof (pc_step_ok _ _ _ _ Hw (Ht i t Et)) as Hstep.
    destruct (pc_step (t_input t) (t_ctx t) (t_pc t) (world c)) as [r w'].
    destruct Hstep as (Hw' & _ & Hp). split; [done|]. apply Forall_insert; [by apply Forall_lookup|].
    destruct r as [p|e]; [exact Hp|]. unfold task_ok. cbn. by destruct (t_pc t).
  - split; [by apply rotate_ok|done].
  - split; [|done]. destruct Hw. by split.
Qed.

Lemma run_events_ok c evs : config_ok c -> Forall event_ok evs -> config_ok (run_events c evs).
Proof.
  intros Hc Hevs. revert c Hc. induction Hevs as [|ev evs Hev Hevs IH]; intros c Hc; [done|].
  apply IH. by apply config_step_ok.
Qed.

End Interleavings.

(** ** Properties *)

(** C12. Under every interleaving of calls of [unseal] and [seal], rotations and new answers of
    [getKey], a provider tracks at most [MAX_REPLAY_ROOMS] rooms, its windows keep their invariant, a
    call of [unseal] settles with a plaintext only if the frame it was given is an authentic frame of
    its sender under a base key that the application has answered for its room, and a call of [seal]
    settles with a frame only if it sealed its plaintext under the sender's key of such a base key. *)
Theorem chat_interleavings_safe `{WebCryptoLaws, DigestLaws} (getKey : string -> res BaseKey)
    (opts : ChatProviderOptions) (state : ReplayCtrState) (env : Idb) (ctr : CtrEnv) (evs : list Event)
    (Hst : replayWindows state = ∅) (Hn : 0 <= replayWindow state) :
  let c := run_events (mkConfig (chat_world getKey opts state env ctr) []) evs in
  let rw := replay (world c) in
  (omap_size (replayWindows (rcs rw)) <= MAX_REPLAY_ROOMS)%nat /\
  Forall (fun win => Replay.wf win /\ windowSize win = replayWindow (rcs rw)) (window_heap rw) /\
  (forall t pt, t ∈ tasks c -> t_pc t = Settled (Ok pt) ->
    exists k n, (getKey (roomId (t_ctx t)) = Ok k \/
                 exists f, Rekey f ∈ evs /\ f (roomId (t_ctx t)) = Ok k) /\
      authentic k (t_ctx t) (t_input t) n pt) /\
  forall t out, t ∈ tasks c -> t_pc t = Sealed (Ok out) ->
    exists k key n, (getKey (roomId (t_ctx t)) = Ok k \/
                     exists f, Rekey f ∈ evs /\ f (roomId (t_ctx t)) = Ok k) /\
      chat_sframe_key k (t_ctx t) = Ok key /\ sframeEncrypt (t_input t) key n None aad_prefix = Ok out.
Proof.
  intros c rw. set (given := fun r k => getKey r = Ok k \/ exists f, Rekey f ∈ evs /\ f r = Ok k).
  assert (config_ok given c) as [[Hok _ _] Ht].
  { apply run_events_ok.
    - split; [|constructor]. split; [|by left|done]. destruct state as [a n d rooms].
      cbn in Hst, Hn. subst rooms. by apply windows_ok_new.
    - apply Forall_forall. intros [| | | |f] Hf; try done. intros r k Hk. right. by exists f. }
  split; [apply Hok|]. split; [apply Hok|]. rewrite Forall_forall in Ht.
  split; intros t a Hin Hpc; specialize (Ht t Hin); unfold task_ok in Ht; rewrite Hpc in Ht.
  - destruct Ht as (k & n & Hk & Ha). by exists k, n.
  - destruct Ht as (key & n & (k & Hk & Hkey) & Ha). by exists k, key, n.
Qed.

Definition demo_frame : bytes :=
  match (Chat.seal (H := toy) (demo_open 7) demo_ctx (demo_chat (fun _ => 7))).1 with Ok s => s | Throw _ => [] end.

Definition settled_with (pt : bytes) (t : Task (H := toy)) : bool :=
  match t_pc t with Settled (Ok b) => bool_decide (b = pt) | _ => false end.

Lemma chat_interleavings_safe_witness :
  exists k n, authentic (H := toy) k demo_ctx demo_frame n (demo_open 7).
Proof.
  set (evs := [Call demo_frame demo_ctx; Advance 0; Advance 0; Rotate "room"%string; Advance 0; Advance 0]).
  destruct (chat_interleavings_safe (H := toy) (fun _ => Ok demo_base) demo_chat_opts demo_chat_state example_env
    (mkCtrEnv (demo_flags true true) ∅ (fun _ => 0) 0 []) evs eq_refl (Zle_bool_imp_le 0 2 eq_refl))
    as (_ & _ & Hs & _).
  set (c := run_events _ evs) in Hs.
  assert (from_option (fun t => settled_with (demo_open 7) t && bool_decide (t_input t = demo_frame)) false
            (tasks c !! 0%nat) = true) as Ht by (vm_compute; reflexivity).
  assert (from_option (fun t => bool_decide (roomId (t_ctx t) = "room"%string /\ senderUid (t_ctx t) = "alice"%string))
            false (tasks c !! 0%nat) = true) as Hctx by (vm_compute; reflexivity).
  destruct (tasks c !! 0%nat) as [t|] eqn:Et; [|discriminate Ht]. cbn [from_option] in Ht, Hctx.
  apply andb_true_iff in Ht as [Hp Hsl]. apply bool_decide_eq_true in Hsl, Hctx.
  unfold settled_with in Hp. destruct (t_pc t) as [| | | | | |[pt|e]| | | | |] eqn:Epc; try discriminate Hp.
  apply bool_decide_eq_true in Hp. subst pt.
  destruct (Hs t (demo_open 7) (list_elem_of_lookup_2 _ _ _ Et) Epc) as (k & n & _ & Ha).
  exists k, n. rewrite Hsl in Ha. destruct (t_ctx t) as [r u]. cbn in Hctx. destruct Hctx as [-> ->]. exact Ha.
Defined.

(** What the replay check of a single call promises does not hold across calls: two calls of
    [unseal] on the same frame that are both past their replay check before either has decrypted
    both deliver it, where the same two calls one after the other deliver it once. *)
Theorem concurrent_unseal_delivers_twice `{WebCryptoLaws, DigestLaws} (w : ChatWorld)
    (ctx : SealContext) (k : BaseKey) (d : DerivedKeys) (sealed : bytes) (c : Z) (pt : bytes)
    (Hk : keyed w ctx k) (Hcached : cache_get (keyCache w) (roomId ctx) (senderUid ctx) = Some d)
    (Hok : windows_ok (replay w)) (Hd : durable (rcs (replay w)) = None)
    (Hn : 0 < replayWindow (rcs (replay w))) (Ha : authentic k ctx sealed c pt)
    (Hfresh : Replay.check (current_window (replay w) (roomId ctx) (senderUid ctx)) c = true) :
  tasks (run_events (mkConfig w []) [Call sealed ctx; Call sealed ctx; Advance 0; Advance 0;
           Advance 1; Advance 1; Advance 0; Advance 1]) =
    [mkTask sealed ctx (Settled (Ok pt)); mkTask sealed ctx (Settled (Ok pt))] /\
  (unseal_all ctx [(sealed, c); (sealed, c)] w).1 = [(c, pt)].
Proof.
  pose proof Ha as (key & hdr & Hkey & Hhdr & Hc & Hdec). pose proof Hk as [Hg Hu Hcache].
  assert (senderKey (senderUid ctx) d = Ok key) as Hsk.
  { unfold chat_sframe_key in Hkey. rewrite (Hcache _ Hcached) in Hkey. exact Hkey. }
  split.
  - set (t0 := mkTask sealed ctx (AtKey (Ok k))).
    assert (run_events (mkConfig w []) [Call sealed ctx; Call sealed ctx] = mkConfig w [t0; t0]) as E.
    { unfold run_events. cbn [foldl config_step world tasks app]. unfold call_unseal, t0. by rewrite Hg. }
    change (tasks (foldl config_step (run_events (mkConfig w []) [Call sealed ctx; Call sealed ctx])
      [Advance 0; Advance 0; Advance 1; Advance 1; Advance 0; Advance 1]) =
      [mkTask sealed ctx (Settled (Ok pt)); mkTask sealed ctx (Settled (Ok pt))]).
    rewrite E. subst c. destruct (step_index sealed ctx d key hdr w Hsk Hhdr Hok Hd Hfresh)
      as (x & r & Hs1 & Hok1 & Hd1 & Hw1). set (w1 := w <| replay := r |>) in *.
    destruct (step_index sealed ctx d key hdr w1 Hsk Hhdr Hok1 Hd1) as (y & r2 & Hs2 & _ & Hd2 & _);
      [by change (replay w1) with r; rewrite Hw1|]. set (w2 := w1 <| replay := r2 |>) in *.
    destruct (step_decrypt sealed ctx key (ctr hdr) x pt w2 Hdec Hd2) as (w3 & Hs3 & Hd3).
    destruct (step_decrypt sealed ctx key (ctr hdr) y pt w3 Hdec Hd3) as (w4 & Hs4 & _).
    cbn [foldl]. rewrite (advance_0 _ _ _ _ _ (step_key_hit sealed ctx k d w Hu Hcached)).
    rewrite (advance_0 _ _ _ _ _ Hs1), (advance_1 _ _ _ _ _ _ (step_key_hit sealed ctx k d w1 Hu Hcached)).
    rewrite (advance_1 _ _ _ _ _ _ Hs2), (advance_0 _ _ _ _ _ Hs3), (advance_1 _ _ _ _ _ _ Hs4). done.
  - rewrite (unseal_all_run ctx k (fun _ => pt)); [|done|done|done|by repeat constructor].
    csimpl. cbn [receive_all]. set (win := current_window _ _ _) in *.
    assert (is_ctr c) as Hctr by (destruct (parseHeader_bounds _ _ Hhdr) as (_ & Hb & _); by rewrite Hc in Hb).
    destruct (current_window_wf (replay w) (roomId ctx) (senderUid ctx) Hok) as [Hwf Hsz]. fold win in Hwf, Hsz.
    pose proof (receive_refuses win c Hwf Hctr ltac:(lia) Hfresh) as Href. unfold receive in *.
    rewrite Hfresh in *. cbn [snd] in Href. by rewrite Href.
Qed.

Lemma concurrent_unseal_delivers_twice_witness :
  exists w sealed, t_pc <$> tasks (run_events (H := toy) (mkConfig w []) [Call sealed demo_ctx; Call sealed demo_ctx;
      Advance 0; Advance 0; Advance 1; Advance 1; Advance 0; Advance 1]) =
    [Settled (Ok (demo_open 7)); Settled (Ok (demo_open 7))].
Proof.
  destruct (demo_sealed 7) as (sealed & _ & Ha); [lia|].
  destruct (deriveFresh_total (H := toy) demo_base "room" "alice" demo_base_ok) as (d & Hd & _).
  set (w0 := demo_chat (fun _ => 0)).
  set (w := w0 <| keyCache := cache_set newKeyCache "room" "alice" d |>).
  exists w, sealed.
  destruct (concurrent_unseal_delivers_twice w demo_ctx demo_base d sealed 7 (demo_open 7)) as [-> _].
  - split; [reflexivity|vm_compute; reflexivity|]. intros d'. change (keyCache w) with
      (cache_set newKeyCache "room" "alice" d). cbn [roomId senderUid demo_ctx]. rewrite cache_get_set_eq.
    by intros [= <-].
  - apply cache_get_set_eq.
  - apply demo_windows_ok.
  - reflexivity.
  - reflexivity.
  - exact Ha.
  - vm_compute. reflexivity.
  - reflexivity.
Defined.

(** Rotation does not reach a derivation in flight: a call that read the old base key and is
    still deriving when the application rotates the room stores the old key in the cache, and every
    later call for that sender uses it although [getKey] answers with the new one. *)
Theorem rotation_misses_inflight_key `{WebCrypto, Digest} (w : ChatWorld) (ctx : SealContext)
    (old new : BaseKey) (f : string -> res BaseKey) (d : DerivedKeys) (sealed : bytes)
    (Hold : getKey w (roomId ctx) = Ok old) (Hu : usages_include old "deriveKey" = true)
    (Hd : deriveFresh old (roomId ctx) (senderUid ctx) = Ok d)
    (Hcold : cache_get (keyCache w) (roomId ctx) (senderUid ctx) = None)
    (Hnew : f (roomId ctx) = Ok new) (Hu' : usages_include new "deriveKey" = true) :
  let w' := world (run_events (mkConfig w [])
              [Call sealed ctx; Advance 0; Rekey f; Rotate (roomId ctx); Advance 0]) in
  getKey w' (roomId ctx) = Ok new /\ (chatKey ctx w').1 = senderKey (senderUid ctx) d.
Proof.
  set (w1 := mkChatWorld f (onKeyRotated w) (keyCache w) (replay w) (rotatedRooms w)).
  assert (run_events (mkConfig w []) [Call sealed ctx; Advance 0; Rekey f] =
          mkConfig w1 [mkTask sealed ctx (AtDerive old)]) as E.
  { unfold run_events. cbn [foldl].
    assert (config_step (mkConfig w []) (Call sealed ctx) = mkConfig w [mkTask sealed ctx (AtKey (Ok old))]) as ->.
    { cbn [config_step world tasks app]. unfold call_unseal. by rewrite Hold. }
    rewrite (advance_0 _ _ _ _ _ (step_key_miss sealed ctx old w Hu Hcold)). done. }
  assert (getKey (rotate (roomId ctx) w1).2 = f) as Hg.
  { destruct (forget_room_run (roomId ctx) (replay w1)) as (r & Hrun & _). unfold rotate.
    set (w1' := w1 <| keyCache ::= fun c => evictRoom c (roomId ctx) |>).
    rewrite bind_modify, (bind_Ok _ _ _ _ _ (on_replay_run _ w1' _ _ Hrun)), bind_gets.
    by destruct (onKeyRotated _). }
  set (w2 := (rotate (roomId ctx) w1).2) in *.
  set (w3 := w2 <| keyCache ::= fun c => cache_set c (roomId ctx) (senderUid ctx) d |>).
  assert (task_step (mkTask sealed ctx (AtDerive old)) w2 = (mkTask sealed ctx (AtIndex d), w3)) as Hs2.
  { unfold task_step. cbn [t_input t_ctx t_pc pc_step]. unfold take_derived. by rewrite bind_lift, Hd, bind_modify. }
  change (run_events (mkConfig w []) _) with (foldl config_step (run_events (mkConfig w [])
    [Call sealed ctx; Advance 0; Rekey f]) [Rotate (roomId ctx); Advance 0]).
  rewrite E. cbn [foldl]. change (config_step _ (Rotate (roomId ctx))) with
    (mkConfig w2 [mkTask sealed ctx (AtDerive old)]).
  rewrite (advance_0 _ _ _ _ _ Hs2). cbn [world]. assert (getKey w3 (roomId ctx) = Ok new) as Hg3 by (by rewrite <- Hnew, <- Hg).
  split; [exact Hg3|]. unfold chatKey, baseKey. rewrite (bind_Ok _ _ w3 new w3).
  2: { rewrite bind_gets, Hg3, bind_lift. by rewrite Hu'. }
  assert (deriveAesKeyAndSalt new (roomId ctx) (senderUid ctx) (keyCache w3) = (Ok d, keyCache w3)) as He.
  { rewrite deriveAesKeyAndSalt_eq. change (keyCache w3) with (cache_set (keyCache w2) (roomId ctx) (senderUid ctx) d).
    by rewrite cache_get_set_eq. }
  unfold mbind at 1, M_bind at 1, on_cache. by rewrite (zoom_run _ _ _ _ _ _ He).
Qed.

Lemma rotation_misses_inflight_key_witness :
  exists d w', deriveFresh (H := toy) demo_base "room" "alice" = Ok d /\
    getKey w' "room" = Ok (mkBaseKey [] true ["deriveKey"]%string) /\
    (chatKey demo_ctx w').1 = senderKey "alice" d.
Proof.
  destruct (deriveFresh_total (H := toy) demo_base "room" "alice" demo_base_ok) as (d & Hd & _).
  destruct (rotation_misses_inflight_key (demo_chat (fun _ => 0)) demo_ctx demo_base
    (mkBaseKey [] true ["deriveKey"]%string) (fun _ => Ok (mkBaseKey [] true ["deriveKey"]%string)) d [])
    as [Hg Hc].
  - reflexivity.
  - vm_compute. reflexivity.
  - exact Hd.
  - reflexivity.
  - reflexivity.
  - vm_compute. reflexivity.
  - exists d. eexists. split; [exact Hd|]. split; [exact Hg|exact Hc].
Defined.
