(* ===== verification/ChatMls.v ===== *)
(** * ChatMls: the MLS chat provider (src/chat/mls.ts)

    The provider keeps the keys of the installed epoch of each room. A chain key is an
    [Uint8Array] that the caller hands over, so it is a reference into [mls_heap]. The sender keys
    of an epoch are derived in the order of the index map. *)
From S2P Require Import Prelude StateLogic Errors Internal Header Kid WebCrypto Toy Crypto SFrame.
From Stdlib Require Import Strings.Byte.
From S2P Require Import Replay Durable ChatCache ChatCtr ChatReplay Chat.

Section Mls.
Context `{WebCrypto}.

Record RoomEpochState := mkRoomEpoch {
  re_epoch : Z;
  re_keys : gmap string SFrameKey;
  re_indexToPeerId : gmap Z string
}.

(** [MlsEpochParams] *)
Record MlsEpochParams := mkMlsParams {
  mp_epoch : Z;
  mp_peerIndexMap : list (string * Z);
  mp_chainKey : nat
}.

Record MlsWorld := mkMlsWorld {
  mls_suite : CipherSuite;
  uidToPeerId : string -> string;
  onEpochCleared : bool;
  roomEpochs : gmap string RoomEpochState;
  mls_replay : ReplayWorld;
  mls_heap : list bytes;
  clearedRooms : list string
}.

#[export] Instance eta_mls_world : Eta MlsWorld := fun r =>
  mkMlsWorld (mls_suite r) (uidToPeerId r) (onEpochCleared r) (roomEpochs r) (mls_replay r) (mls_heap r)
    (clearedRooms r).

(** [MlsChatProviderOptions]; a missing [uidToPeerId] is the identity. *)
Record MlsChatProviderOptions := mkMlsOptions {
  mlso_suite : option CipherSuite;
  mlso_replay : ReplayCtrOptions;
  mlso_uidToPeerId : option (string -> string);
  mlso_onEpochCleared : bool
}.

Definition createMlsChatProvider (env : Idb) (ctr : CtrEnv) (heap : list bytes)
    (opts : MlsChatProviderOptions) : res MlsWorld :=
  state ← createReplayCtrState env (nav_locks (flags ctr)) (mlso_replay opts);
  mret {| mls_suite := default AES_128_GCM_SHA256 (mlso_suite opts);
          uidToPeerId := default (fun uid => uid) (mlso_uidToPeerId opts);
          onEpochCleared := mlso_onEpochCleared opts; roomEpochs := ∅;
          mls_replay := {| rcs := state; window_heap := []; idb := env; ctr_env := ctr |};
          mls_heap := heap; clearedRooms := [] |}.

Abbreviation MM := (M MlsWorld js_error).

Definition on_mls_replay {A} (m : RM A) : MM A := zoom mls_replay (fun r w => w <| mls_replay := r |>) m.

(** The two maps that [setEpoch] fills. *)
Fixpoint mls_sender_keys (chainKey : bytes) (epoch : Z) (suite : CipherSuite) (m : list (string * Z))
    (keys : gmap string SFrameKey) (index : gmap Z string)
    : res (gmap string SFrameKey * gmap Z string) :=
  match m with
  | [] => Ok (keys, index)
  | (peerId, peerIndex) :: m =>
      key ← deriveSenderKeys chainKey epoch peerIndex suite FIXED_KID_CODEC;
      mls_sender_keys chainKey epoch suite m (<[peerId := sframe_key key]> keys) (<[peerIndex := peerId]> index)
  end.

Definition setEpoch (room : string) (params : MlsEpochParams) : MM unit :=
  suite ← gets mls_suite;
  chainKey ← gets (fun w => default [] (mls_heap w !! mp_chainKey params));
  if negb (Z.of_nat (length chainKey) =? chainKeyBytes (suiteParams suite))
  then throw (GenericError "createMlsChatProvider: chainKey has the wrong length") else
  '(keys, index) ← lift (mls_sender_keys chainKey (mp_epoch params) suite (mp_peerIndexMap params) ∅ ∅);
  modify (fun w => w <| mls_heap ::= alter zeroize (mp_chainKey params) |>);;
  modify (fun w => w <| roomEpochs ::= <[room := mkRoomEpoch (mp_epoch params) keys index]> |>);;
  on_mls_replay (forget_room room).

Definition mls_seal (plaintext : bytes) (ctx : SealContext) : MM bytes :=
  state ← gets (fun w => roomEpochs w !! roomId ctx);
  match state with
  | None => throw (GenericError "createMlsChatProvider: no epoch installed for room")
  | Some roomState =>
      peerId ← gets (fun w => uidToPeerId w (senderUid ctx));
      match re_keys roomState !! peerId with
      | None => throw (GenericError "createMlsChatProvider: sender is not a member")
      | Some sframeKey =>
          ctr ← on_mls_replay (next_ctr (roomId ctx) (senderUid ctx));
          lift (sframeEncrypt plaintext sframeKey ctr None aad_prefix)
      end
  end.

Definition no_key (kid epoch peerIndex : Z) : js_error :=
  KeyNotFoundError (mkErrorContext (Some kid) (Some epoch) (Some peerIndex) None).

(** [if (!peerId)]: the empty string counts as missing. *)
Definition truthy_id (peerId : option string) : option string :=
  if falsy peerId then None else peerId.

(** From the header to the sender's key: the epoch gate, then the two maps. *)
Definition resolve_sender (roomState : RoomEpochState) (kid : Z) : res SFrameKey :=
  '(epoch, peerIndex) ← decode FIXED_KID_CODEC kid;
  if negb (epoch =? re_epoch roomState)
  then Throw (StaleEpochError epoch (re_epoch roomState) (Some kid)) else
  match truthy_id (re_indexToPeerId roomState !! peerIndex) with
  | None => Throw (no_key kid epoch peerIndex)
  | Some peerId =>
      match re_keys roomState !! peerId with
      | None => Throw (no_key kid epoch peerIndex)
      | Some sframeKey => Ok sframeKey
      end
  end.

Definition mls_unseal (sealed : bytes) (ctx : SealContext) : MM bytes :=
  state ← gets (fun w => roomEpochs w !! roomId ctx);
  match state with
  | None => throw (GenericError "createMlsChatProvider: no epoch installed for room")
  | Some roomState =>
      hdr ← lift (parseHeader sealed);
      sframeKey ← lift (resolve_sender roomState (kid hdr));
      n ← gets (fun w => replayWindow (rcs (mls_replay w)));
      rw ← on_mls_replay (getReplayWindow (roomId ctx) (senderUid ctx) n);
      on_mls_replay (replay_gate (roomId ctx) (senderUid ctx) (ctr hdr) rw);;
      plaintext ← lift (sframeDecrypt sealed (fun _ => Some sframeKey) no_meta);
      on_mls_replay (replay_accept (roomId ctx) (senderUid ctx) (ctr hdr) rw);;
      mret plaintext
  end.

Definition clearEpoch (room : string) : MM unit :=
  modify (fun w => w <| roomEpochs ::= delete room |>);;
  on_mls_replay (forget_room room);;
  has ← gets onEpochCleared;
  if has : bool then modify (fun w => w <| clearedRooms ::= fun l => l ++ [room] |>) else mret tt.

Definition getEpoch (room : string) : MM (option Z) :=
  gets (fun w => re_epoch <$> roomEpochs w !! room).

Definition mls_dispose : MM unit :=
  modify (fun w => w <| roomEpochs := ∅ |>);;
  on_mls_replay (set_rooms ∅).

End Mls.

(** ** Lemmas *)

Section MlsLemmas.
Context `{WebCryptoLaws}.

Lemma on_mls_replay_run {A} (m : RM A) w r s :
  m (mls_replay w) = (r, s) -> on_mls_replay m w = (r, w <| mls_replay := s |>).
Proof. intros Hm. unfold on_mls_replay. by rewrite (zoom_run _ _ _ _ _ _ Hm). Qed.

(** The maps hold the derived keys of the members, and the member of each index. *)
Record epoch_maps (ck : bytes) (epoch : Z) (suite : CipherSuite) (m : list (string * Z))
    (keys : gmap string SFrameKey) (index : gmap Z string) : Prop := mk_epoch_maps {
  em_keys : forall p key, keys !! p = Some key ->
    exists i sk, (p, i) ∈ m /\ deriveSenderKeys ck epoch i suite FIXED_KID_CODEC = Ok sk /\ key = sframe_key sk;
  em_members : forall p, p ∈ m.*1 -> is_Some (keys !! p);
  em_index : forall p i, (p, i) ∈ m -> is_Some (index !! i);
  em_index_in : forall i p, index !! i = Some p -> (p, i) ∈ m
}.

Lemma mls_sender_keys_maps ck epoch suite m done_ keys index keys' index' :
  mls_sender_keys ck epoch suite m keys index = Ok (keys', index') ->
  epoch_maps ck epoch suite done_ keys index -> epoch_maps ck epoch suite (done_ ++ m) keys' index'.
Proof.
  revert done_ keys index. induction m as [|[p i] m IH]; intros done_ keys index.
  { intros [= <- <-] Hm. by rewrite app_nil_r. }
  cbn [mls_sender_keys]. destruct (deriveSenderKeys ck epoch i suite FIXED_KID_CODEC) as [sk|e] eqn:Ed; [|done].
  cbn [mbind result_bind]. intros Hrun [Hk Hmem Hix Hin]. rewrite cons_middle, app_assoc.
  apply (IH (done_ ++ [(p, i)]) _ _ Hrun). split.
  - intros p' key [[<- <-]|[Hne Hp]]%lookup_insert_Some.
    + exists i, sk. set_solver.
    + destruct (Hk p' key Hp) as (i' & sk' & H1 & H2 & H3). exists i', sk'. set_solver.
  - intros p'. rewrite fmap_app, elem_of_app, lookup_insert_is_Some. intros [Hp|Hp].
    + destruct (decide (p = p')); [by left|right]. split; [done|by apply Hmem].
    + apply list_elem_of_singleton in Hp as ->. by left.
  - intros p' i' [Hp|Hp]%elem_of_app; rewrite lookup_insert_is_Some.
    + destruct (decide (i = i')); [by left|right]. split; [done|by apply (Hix p')].
    + apply list_elem_of_singleton in Hp as [= -> ->]. by left.
  - intros i' p' [[<- <-]|[Hne Hp]]%lookup_insert_Some; [set_solver|]. apply elem_of_app. left. by apply Hin.
Qed.

Lemma mls_sender_keys_total ck epoch suite m keys index :
  Z.of_nat (length ck) = chainKeyBytes (suiteParams suite) -> 0 <= epoch <= 0xffff ->
  Forall (fun e => 0 <= e.2 <= 0xffff) m -> exists r, mls_sender_keys ck epoch suite m keys index = Ok r.
Proof.
  intros Hl He Hm. revert keys index. induction Hm as [|[p i] m Hi Hm IH]; intros keys index; [by eexists|].
  cbn [mls_sender_keys]. cbn [snd] in Hi.
  destruct (deriveSenderKeys_total ck epoch i suite FIXED_KID_CODEC (epoch * 2 ^ 16 + i)) as [sk ->];
    [done|done|by apply makeKid_value|]. cbn [mbind result_bind]. apply IH.
Qed.

(** A successful [setEpoch]: the keys are installed, the chain key overwritten, the room's windows
    dropped. *)
Lemma setEpoch_run w room params keys index :
  let ck := default [] (mls_heap w !! mp_chainKey params) in
  Z.of_nat (length ck) = chainKeyBytes (suiteParams (mls_suite w)) ->
  mls_sender_keys ck (mp_epoch params) (mls_suite w) (mp_peerIndexMap params) ∅ ∅ = Ok (keys, index) ->
  exists w' r, setEpoch room params w = (Ok tt, w') /\ forget_room room (mls_replay w) = (Ok tt, r) /\
    w' = mkMlsWorld (mls_suite w) (uidToPeerId w) (onEpochCleared w)
           (<[room := mkRoomEpoch (mp_epoch params) keys index]> (roomEpochs w)) r
           (alter zeroize (mp_chainKey params) (mls_heap w)) (clearedRooms w).
Proof.
  intros ck Hl Hk. destruct (forget_room_run room (mls_replay w)) as (r & Hr & _).
  unfold setEpoch. rewrite !bind_gets. fold ck. rewrite (proj2 (Z.eqb_eq _ _) Hl). cbn [negb].
  rewrite bind_lift, Hk, !bind_modify. do 2 eexists. split; [|split; [exact Hr|reflexivity]].
  match goal with |- _ ?w1 = _ => rewrite (on_mls_replay_run _ w1 _ _ Hr) end.
  by destruct w.
Qed.

(** A refused one changes nothing, and leaves the chain key in place. *)
Lemma setEpoch_throws w room params e w' : setEpoch room params w = (Throw e, w') -> w' = w.
Proof.
  unfold setEpoch. rewrite !bind_gets. destruct (negb _); [by intros [= _ ->]|].
  rewrite bind_lift. destruct (mls_sender_keys _ _ _ _ _ _) as [[keys index]|e']; [|by intros [= _ ->]].
  rewrite !bind_modify. match goal with |- on_mls_replay _ ?w1 = _ -> _ => set (w2 := w1) end.
  destruct (forget_room_run room (mls_replay w2)) as (r & Hr & _).
  rewrite (on_mls_replay_run _ w2 _ _ Hr). done.
Qed.

Lemma mls_unseal_gated sealed ctx w roomState hdr key :
  roomEpochs w !! roomId ctx = Some roomState -> parseHeader sealed = Ok hdr ->
  resolve_sender roomState (kid hdr) = Ok key ->
  mls_unseal sealed ctx w =
    on_mls_replay (gated_open (replayWindow (rcs (mls_replay w))) (roomId ctx) (senderUid ctx) (ctr hdr)
      (sframeDecrypt sealed (fun _ => Some key) no_meta)) w.
Proof.
  intros Hs Hh Hk. unfold mls_unseal. rewrite bind_gets, Hs, bind_lift, Hh, bind_lift, Hk, bind_gets.
  by apply gated_open_zoom.
Qed.

(** Sealing as a member. *)
Lemma mls_seal_run w ctx roomState key pt c :
  roomEpochs w !! roomId ctx = Some roomState -> re_keys roomState !! uidToPeerId w (senderUid ctx) = Some key ->
  (next_ctr (roomId ctx) (senderUid ctx) (mls_replay w)).1 = Ok c ->
  (mls_seal pt ctx w).1 = sframeEncrypt pt key c None aad_prefix.
Proof.
  intros Hs Hk Hn. unfold mls_seal. rewrite bind_gets, Hs, bind_gets, Hk.
  destruct (next_ctr (roomId ctx) (senderUid ctx) (mls_replay w)) as [r s] eqn:En. cbn [fst] in Hn. subst r.
  by rewrite (bind_Ok _ _ _ _ _ (on_mls_replay_run _ w _ _ En)).
Qed.

(** A member's KID resolves to the member's key, when indices are distinct and ids not empty. *)
Lemma resolve_member ck epoch suite m keys index p key :
  epoch_maps ck epoch suite m keys index -> NoDup m.*1 -> NoDup m.*2 -> p <> ""%string -> keys !! p = Some key ->
  resolve_sender (mkRoomEpoch epoch keys index) (key_kid key) = Ok key /\
  length (salt key) = 12%nat /\ 0 <= key_kid key < 2 ^ 32.
Proof.
  intros [Hk _ Hix Hin] Hnd1 Hnd2 Hp Hkey. destruct (Hk p key Hkey) as (i & sk & Hpi & Hd & ->).
  destruct (deriveSenderKeys_wf _ _ _ _ _ _ Hd) as ([Hkid _ _ _ _ Hsalt] & Hi & _).
  destruct (Hix p i Hpi) as [p' Hp']. pose proof (Hin _ _ Hp') as Hp'i.
  assert ((p', i) = (p, i)) as [= ->].
  { apply (NoDup_fmap_inj_in snd m); [done..|]. done. }
  split; [|split; [done|by destruct (codec_range _ _ _ Hkid)]].
  unfold resolve_sender. rewrite (codec_roundtrip _ _ _ Hkid). cbn [mbind result_bind re_epoch re_keys re_indexToPeerId].
  rewrite Z.eqb_refl. cbn [negb]. rewrite Hp'. unfold truthy_id, falsy.
  rewrite bool_decide_eq_false_2 by done. by rewrite Hkey.
Qed.

(** A KID of another epoch is refused before any key is looked at. *)
Lemma resolve_stale roomState kid e i :
  decode FIXED_KID_CODEC kid = Ok (e, i) -> e <> re_epoch roomState ->
  resolve_sender roomState kid = Throw (StaleEpochError e (re_epoch roomState) (Some kid)).
Proof.
  intros Hd He. unfold resolve_sender. rewrite Hd. cbn [mbind result_bind].
  by rewrite (proj2 (Z.eqb_neq _ _) He).
Qed.

End MlsLemmas.

Section MlsFrames.
Context `{WebCryptoLaws}.

(** What an accepted [setEpoch] leaves. *)
Lemma setEpoch_inv w room params w' :
  setEpoch room params w = (Ok tt, w') ->
  exists keys index,
    let ck := default [] (mls_heap w !! mp_chainKey params) in
    Z.of_nat (length ck) = chainKeyBytes (suiteParams (mls_suite w)) /\
    mls_sender_keys ck (mp_epoch params) (mls_suite w) (mp_peerIndexMap params) ∅ ∅ = Ok (keys, index) /\
    epoch_maps ck (mp_epoch params) (mls_suite w) (mp_peerIndexMap params) keys index /\
    roomEpochs w' = <[room := mkRoomEpoch (mp_epoch params) keys index]> (roomEpochs w) /\
    mls_heap w' = alter zeroize (mp_chainKey params) (mls_heap w) /\
    uidToPeerId w' = uidToPeerId w /\ mls_suite w' = mls_suite w /\
    window_parts (mls_replay w') = (delete room (replayWindows (rcs (mls_replay w))),
      window_heap (mls_replay w), replayWindow (rcs (mls_replay w))).
Proof.
  intros Hrun. set (ck := default [] (mls_heap w !! mp_chainKey params)).
  destruct (Z.eqb_spec (Z.of_nat (length ck)) (chainKeyBytes (suiteParams (mls_suite w)))) as [Hl|Hl].
  2: { unfold setEpoch in Hrun. rewrite !bind_gets in Hrun. fold ck in Hrun.
    by rewrite (proj2 (Z.eqb_neq _ _) Hl) in Hrun. }
  destruct (mls_sender_keys ck (mp_epoch params) (mls_suite w) (mp_peerIndexMap params) ∅ ∅)
    as [[keys index]|e] eqn:Ek.
  2: { unfold setEpoch in Hrun. rewrite !bind_gets in Hrun. fold ck in Hrun.
    rewrite (proj2 (Z.eqb_eq _ _) Hl) in Hrun. cbn [negb] in Hrun. by rewrite bind_lift, Ek in Hrun. }
  exists keys, index. split; [done|]. split; [done|].
  destruct (setEpoch_run w room params keys index Hl Ek) as (w1 & r & Hrun1 & Hr & Hw1).
  rewrite Hrun in Hrun1. injection Hrun1 as ->. destruct (forget_room_run room (mls_replay w)) as (r' & Hr' & Hp).
  rewrite Hr in Hr'. injection Hr' as <-. subst w1. split_and!; try done.
  apply (mls_sender_keys_maps _ _ _ _ [] ∅ ∅ _ _ Ek). split.
  - intros p key Hp'. by rewrite lookup_empty in Hp'.
  - intros p Hp'. by apply not_elem_of_nil in Hp'.
  - intros p i Hp'. by apply not_elem_of_nil in Hp'.
  - intros i p Hp'. by rewrite lookup_empty in Hp'.
Qed.

(** The room of an accepted [setEpoch] has no window. *)
Lemma setEpoch_windows w room params w' :
  setEpoch room params w = (Ok tt, w') -> windows_ok (mls_replay w) ->
  windows_ok (mls_replay w') /\ replayWindow (rcs (mls_replay w')) = replayWindow (rcs (mls_replay w)) /\
  forall uid, nested_lookup (replayWindows (rcs (mls_replay w'))) room uid = None.
Proof.
  intros (keys & index & _ & _ & _ & _ & _ & _ & _ & Hp)%setEpoch_inv Hok.
  split; [by eapply windows_ok_forget|]. unfold window_parts in Hp. injection Hp as E1 E2 E3.
  split; [done|]. intros uid. unfold nested_lookup. by rewrite E1, jm_lookup_delete_eq.
Qed.

(** Both ends derive the same key for a member. *)
Lemma epoch_maps_key ck epoch suite m keys1 index1 keys2 index2 p key :
  epoch_maps ck epoch suite m keys1 index1 -> epoch_maps ck epoch suite m keys2 index2 ->
  NoDup m.*1 -> keys1 !! p = Some key -> keys2 !! p = Some key.
Proof.
  intros [Hk1 _ _ _] [Hk2 Hm2 _ _] Hnd Hp. destruct (Hk1 p key Hp) as (i & sk & Hpi & Hd & ->).
  destruct (Hm2 p) as [key2 Hkey2]; [by apply (list_elem_of_fmap_2 fst _ (p, i))|].
  destruct (Hk2 p key2 Hkey2) as (i2 & sk2 & Hpi2 & Hd2 & ->).
  assert ((p, i2) = (p, i)) as [= ->] by (by apply (NoDup_fmap_inj_in fst m)). congruence.
Qed.

End MlsFrames.

(** ** Examples *)

Definition demo_mls_opts : MlsChatProviderOptions :=
  mkMlsOptions None (mkReplayCtrOptions None None (Some 2) None None None) None true.

Definition demo_mls (draws : nat -> Z) : MlsWorld (H := toy) :=
  mkMlsWorld AES_128_GCM_SHA256 (fun uid => uid) true ∅
    (mkReplayWorld demo_chat_state [] example_env (mkCtrEnv (demo_flags true true) ∅ draws 0 []))
    [demo_bytes 32 9] [].

Example demo_mls_created draws :
  createMlsChatProvider example_env (mkCtrEnv (demo_flags true true) ∅ draws 0 []) [demo_bytes 32 9]
    demo_mls_opts = Ok (demo_mls draws).
Proof. reflexivity. Qed.

Definition demo_mls_params (epoch : Z) : MlsEpochParams :=
  mkMlsParams epoch [("alice", 0); ("bob", 1)]%string 0.

Definition demo_mls_at (draws : nat -> Z) (epoch : Z) : MlsWorld (H := toy) :=
  (setEpoch "room" (demo_mls_params epoch) (demo_mls draws)).2.

Lemma demo_mls_set draws epoch :
  0 <= epoch <= 0xffff -> setEpoch "room" (demo_mls_params epoch) (demo_mls draws) = (Ok tt, demo_mls_at draws epoch).
Proof.
  intros He. unfold demo_mls_at.
  destruct (mls_sender_keys_total (H := toy) (demo_bytes 32 9) epoch AES_128_GCM_SHA256
    [("alice", 0); ("bob", 1)]%string ∅ ∅) as [[keys index] Hk]; [reflexivity|done|by repeat constructor|].
  destruct (setEpoch_run (demo_mls draws) "room" (demo_mls_params epoch) keys index) as (w' & r & Hrun & _);
    [reflexivity|exact Hk|]. by rewrite Hrun.
Qed.

(** ** Properties *)

(** End to end over MLS epochs: after both ends install the same epoch material for a room,
    what a member seals opens to the same plaintext, and the same frame under the same sender name
    throws a [ReplayError]. The sender name of [unseal] takes no part in the choice of the key: any
    name opens the frame, and another name opens it once more. *)
Theorem mls_chat_roundtrip `{WebCryptoLaws} (sender receiver s1 r1 : MlsWorld) (room uid uid' other : string)
    (ps pr : MlsEpochParams) (pt : bytes) (c : Z)
    (Hs : setEpoch room ps sender = (Ok tt, s1)) (Hr : setEpoch room pr receiver = (Ok tt, r1))
    (Hck : mls_heap sender !! mp_chainKey ps = mls_heap receiver !! mp_chainKey pr)
    (Hepoch : mp_epoch ps = mp_epoch pr) (Hmap : mp_peerIndexMap ps = mp_peerIndexMap pr)
    (Hsuite : mls_suite sender = mls_suite receiver)
    (Hnd1 : NoDup (mp_peerIndexMap pr).*1) (Hnd2 : NoDup (mp_peerIndexMap pr).*2)
    (Hmember : uidToPeerId sender uid ∈ (mp_peerIndexMap pr).*1) (Hid : uidToPeerId sender uid <> ""%string)
    (Hok : windows_ok (mls_replay receiver)) (Hn : 0 < replayWindow (rcs (mls_replay receiver)))
    (Hdur : durable (rcs (mls_replay r1)) = None)
    (Hnext : (next_ctr room uid (mls_replay s1)).1 = Ok c) (Hc : is_ctr c)
    (Hpt : Z.of_nat (length pt) < 2 ^ 36 - 32) (Hother : other <> uid') :
  exists sealed r2, (mls_seal pt (mkSealContext room uid) s1).1 = Ok sealed /\
    mls_unseal sealed (mkSealContext room uid') r1 = (Ok pt, r2) /\
    (mls_unseal sealed (mkSealContext room uid') r2).1 = Throw (ChatReplayError room uid' c) /\
    (mls_unseal sealed (mkSealContext room other) r2).1 = Ok pt.
Proof.
  destruct (setEpoch_windows _ _ _ _ Hr Hok) as (Hok1 & Hn1 & Hnone).
  destruct (setEpoch_inv _ _ _ _ Hs) as (keys & index & _ & _ & Hm & Hre & _ & Huid & _ & _).
  destruct (setEpoch_inv _ _ _ _ Hr) as (keys' & index' & _ & _ & Hm' & Hre' & _ & _ & _ & _).
  rewrite Hck, Hepoch, Hmap, Hsuite in Hm. set (p := uidToPeerId sender uid) in *.
  destruct (em_members _ _ _ _ _ _ Hm p Hmember) as [key Hkey].
  pose proof (epoch_maps_key _ _ _ _ _ _ _ _ p key Hm Hm' Hnd1 Hkey) as Hkey'.
  destruct (resolve_member _ _ _ _ _ _ p key Hm' Hnd1 Hnd2 Hid Hkey') as (Hres & Hsalt & Hkid).
  destruct (sframeEncrypt_total pt key c None aad_prefix) as [sealed Hseal]; [done|done|done|simpl; lia|done|].
  exists sealed.
  assert ((mls_seal pt (mkSealContext room uid) s1).1 = Ok sealed) as Hsealed.
  { erewrite mls_seal_run; [exact Hseal| | |exact Hnext].
    - rewrite Hre. apply lookup_insert_eq.
    - cbn [re_keys]. by rewrite Huid. }
  pose proof (sframeEncrypt_inv _ _ _ _ _ _ Hseal) as (h & ct & Hh & _ & Hw & _).
  destruct (parse_serialize _ _ _ ct Hh) as (kid & [= <-] & Hhdr & _). rewrite <- Hw in Hhdr.
  destruct (splitKid (key_kid key)) as [e pi] eqn:Esp.
  assert (sframeDecrypt sealed (fun _ => Some key) no_meta = Ok pt) as Hdec.
  { apply (sframe_open pt key c None aad_prefix sealed FIXED_KID_CODEC (fun _ => Some key) e pi);
      [done|cbn [decode FIXED_KID_CODEC]; by rewrite Esp|done]. }
  assert (forall w u, roomEpochs w = roomEpochs r1 ->
    mls_unseal sealed (mkSealContext room u) w =
      on_mls_replay (gated_open (replayWindow (rcs (mls_replay w))) room u c (Ok pt)) w) as Hun.
  { intros w u Hw'. rewrite <- Hdec.
    apply (mls_unseal_gated sealed (mkSealContext room u) w (mkRoomEpoch (mp_epoch pr) keys' index')
      (mkSFrameHeader (key_kid key) c (length h)) key); [|exact Hhdr|exact Hres].
    cbn [roomId]. rewrite Hw', Hre'. apply lookup_insert_eq. }
  assert (current_window (mls_replay r1) room uid' = newReplayWindow (replayWindow (rcs (mls_replay r1)))) as Hw1.
  { unfold current_window, window_of. by rewrite Hnone. }
  assert (forall n, Replay.check (newReplayWindow n) c = true) as Hfresh.
  { intros n. unfold Replay.check. by case_match. }
  destruct (gated_open_run (mls_replay r1) room uid' c pt Hok1 Hc) as (q & Hopen & Hokq & Hwq & Hdq & Hnq & Hfq).
  { intros _. by apply durable_none_passes. }
  rewrite Hw1, Hfresh in Hopen. set (r2 := r1 <| mls_replay := q |>). exists r2.
  split; [done|]. split; [by rewrite Hun, (on_mls_replay_run _ r1 _ _ Hopen)|].
  assert (Replay.check (current_window q room uid') c = false) as Hrefuse.
  { rewrite Hwq, Hw1. apply receive_refuses; [apply Replay.wf_new|done|cbn; lia|apply Hfresh]. }
  split.
  - rewrite Hun by done. change (mls_replay r2) with q.
    destruct (gated_open_run q room uid' c pt Hokq Hc) as (q2 & Hopen2 & _); [by rewrite Hrefuse|].
    rewrite (on_mls_replay_run _ r2 _ _ Hopen2). cbn [fst]. by rewrite Hrefuse.
  - rewrite Hun by done. change (mls_replay r2) with q.
    destruct (gated_open_run q room other c pt Hokq Hc) as (q2 & Hopen2 & _).
    { intros _. by apply durable_none_passes, Hdq. }
    rewrite (on_mls_replay_run _ r2 _ _ Hopen2). cbn [fst]. unfold current_window, window_of.
    rewrite Hfq; [cbn [mbind option_bind default]; by rewrite Hfresh|congruence|apply Hnone].
Qed.

Lemma mls_chat_roundtrip_witness :
  exists sealed r2, mls_unseal sealed (mkSealContext "room" "alice") (demo_mls_at (fun _ => 0) 3) = (Ok [x68; x69], r2) /\
    (mls_unseal sealed (mkSealContext "room" "alice") r2).1 = Throw (ChatReplayError "room" "alice" 7) /\
    (mls_unseal sealed (mkSealContext "room" "bob") r2).1 = Ok [x68; x69].
Proof.
  destruct (mls_chat_roundtrip (demo_mls (fun _ => 7)) (demo_mls (fun _ => 0)) (demo_mls_at (fun _ => 7) 3)
    (demo_mls_at (fun _ => 0) 3) "room" "alice" "alice" "bob" (demo_mls_params 3) (demo_mls_params 3) [x68; x69] 7)
    as (sealed & r2 & _ & H1 & H2 & H3).
  - by apply demo_mls_set.
  - by apply demo_mls_set.
  - reflexivity.
  - reflexivity.
  - reflexivity.
  - reflexivity.
  - apply (bool_decide_unpack _). vm_compute. exact I.
  - apply (bool_decide_unpack _). vm_compute. exact I.
  - apply (bool_decide_unpack _). vm_compute. exact I.
  - discriminate.
  - apply windows_ok_new. done.
  - reflexivity.
  - vm_compute. reflexivity.
  - vm_compute. reflexivity.
  - by apply is_ctr_b.
  - simpl. lia.
  - discriminate.
  - by exists sealed, r2.
Defined.

(** C28. Installing an epoch: it succeeds on a chain key of the suite's length when the epoch and the
    indices fit 16 bits, and only on a chain key of that length; then the chain key is overwritten in the caller's buffer, the room reports
    the epoch and has no replay window left, the other rooms keep theirs, and a frame of any other
    epoch throws [StaleEpochError] without touching the provider. A refused call changes nothing,
    so that the chain key stays in the caller's buffer. *)
Theorem mls_set_epoch_contract `{WebCryptoLaws} (w : MlsWorld) (room : string) (params : MlsEpochParams) :
  let ck := default [] (mls_heap w !! mp_chainKey params) in
  match setEpoch room params w with
  | (Ok _, w') =>
      Z.of_nat (length ck) = chainKeyBytes (suiteParams (mls_suite w)) /\
      mls_heap w' !! mp_chainKey params = Some (zeros (length ck)) /\
      getEpoch room w' = (Ok (Some (mp_epoch params)), w') /\
      (forall uid, window_of (mls_replay w') room uid = None) /\
      (forall r uid, r <> room -> window_of (mls_replay w') r uid = window_of (mls_replay w) r uid) /\
      (forall sealed uid hdr e i, parseHeader sealed = Ok hdr -> splitKid (kid hdr) = (e, i) ->
        e <> mp_epoch params ->
        mls_unseal sealed (mkSealContext room uid) w' =
          (Throw (StaleEpochError e (mp_epoch params) (Some (kid hdr))), w'))
  | (Throw _, w') => w' = w /\
      (Z.of_nat (length ck) <> chainKeyBytes (suiteParams (mls_suite w)) \/
       ~ (0 <= mp_epoch params <= 0xffff /\ Forall (fun e => 0 <= e.2 <= 0xffff) (mp_peerIndexMap params)))
  end.
Proof.
  intros ck. destruct (setEpoch room params w) as [[[]|e] w'] eqn:Hrun.
  - destruct (setEpoch_inv _ _ _ _ Hrun) as (keys & index & Hl & _ & _ & Hre & Hheap & _ & _ & Hp).
    fold ck in Hl. unfold window_parts in Hp. injection Hp as E1 E2 E3. split; [done|]. split_and!.
    + rewrite Hheap, list_lookup_alter_eq. destruct (mls_heap w !! mp_chainKey params) as [bs|] eqn:Eb; [done|].
      unfold ck in Hl. by destruct (mls_suite w).
    + unfold getEpoch, gets. rewrite Hre, lookup_insert_eq. done.
    + intros uid. unfold window_of, nested_lookup. by rewrite E1, jm_lookup_delete_eq.
    + intros r uid Hne. unfold window_of, nested_lookup. by rewrite E1, E2, jm_lookup_delete_ne.
    + intros sealed uid hdr e i Hh Hsp Hne. unfold mls_unseal. rewrite bind_gets, Hre. cbn [roomId].
      rewrite lookup_insert_eq, bind_lift, Hh, bind_lift. erewrite resolve_stale; [done| |exact Hne].
      cbn [decode FIXED_KID_CODEC]. by rewrite Hsp.
  - split; [by eapply setEpoch_throws|].
    destruct (decide (Z.of_nat (length ck) = chainKeyBytes (suiteParams (mls_suite w)))) as [Hl|]; [right|by left].
    intros [He Hi]. destruct (mls_sender_keys_total ck (mp_epoch params) (mls_suite w) _ ∅ ∅ Hl He Hi)
      as [[keys index] Hk].
    destruct (setEpoch_run w room params keys index Hl Hk) as (w1 & r & Hrun1 & _). congruence.
Qed.

Lemma mls_set_epoch_contract_witness :
  mls_heap (demo_mls_at (fun _ => 7) 3) !! 0%nat = Some (zeros 32) /\
  exists sealed, mls_unseal sealed (mkSealContext "room" "alice") (demo_mls_at (fun _ => 7) 3) =
    (Throw (StaleEpochError 2 3 (Some (2 * 2 ^ 16 + 1))), demo_mls_at (fun _ => 7) 3).
Proof.
  pose proof (mls_set_epoch_contract (demo_mls (fun _ => 7)) "room" (demo_mls_params 3)) as H1.
  rewrite demo_mls_set in H1 by done. destruct H1 as (_ & Hz & _ & _ & _ & Hst).
  split; [exact Hz|].
  destruct (is_ok_ex (serializeHeader (JsInt (2 * 2 ^ 16 + 1)) 5)) as [h Eh]; [vm_compute; reflexivity|].
  destruct (parse_serialize _ _ _ [] Eh) as (k & [= <-] & Hp & _). exists (h ++ []).
  apply (Hst (h ++ []) "alice"%string _ 2 1 Hp); [vm_compute; reflexivity|done].
Defined.
