(* ===== verification/ChatMlsRace.v ===== *)
(** * ChatMlsRace: calls of the MLS chat provider that overlap (src/chat/mls.ts)

    The operations of [ChatMls] again, with the points where they wait: the derivation of an epoch's
    keys, the counter allocator, the durable guard and AES-GCM are one wait each. A call may go on
    after any other was made, went on or settled. *)
From S2P Require Import Prelude StateLogic Async Rely Errors Internal Header Kid WebCrypto Toy Crypto SFrame.
From Stdlib Require Import Strings.Byte.
From S2P Require Import Replay Durable ChatCache ChatCtr ChatReplay Chat ChatMls.

Section Race.
Context `{WebCrypto}.

Abbreviation MP := (P MlsWorld js_error).

Definition mget {A} (f : MlsWorld -> A) : MP A := piece (gets f).
Definition mmod (f : MlsWorld -> MlsWorld) : MP unit := piece (modify f).
Definition mlift {A} (r : res A) : MP A := piece (lift r).
Definition mthrow {A} (e : js_error) : MP A := piece (throw e).
Definition on_rw {A} (m : RM A) : MP A := piece (on_mls_replay m).

(** The chain key is imported when [setEpoch] is called; the derived keys are there after the wait. *)
Definition setEpochP (room : string) (params : MlsEpochParams) : MP unit :=
  suite ← mget mls_suite;
  chainKey ← mget (fun w => default [] (mls_heap w !! mp_chainKey params));
  if negb (Z.of_nat (length chainKey) =? chainKeyBytes (suiteParams suite))
  then mthrow (GenericError "createMlsChatProvider: chainKey has the wrong length") else
  pause;;
  '(keys, index) ← mlift (mls_sender_keys chainKey (mp_epoch params) suite (mp_peerIndexMap params) ∅ ∅);
  mmod (fun w => w <| mls_heap ::= alter zeroize (mp_chainKey params) |>);;
  mmod (fun w => w <| roomEpochs ::= <[room := mkRoomEpoch (mp_epoch params) keys index]> |>);;
  on_rw (forget_room room).

Definition sealP (plaintext : bytes) (ctx : SealContext) : MP bytes :=
  state ← mget (fun w => roomEpochs w !! roomId ctx);
  match state with
  | None => mthrow (GenericError "createMlsChatProvider: no epoch installed for room")
  | Some roomState =>
      peerId ← mget (fun w => uidToPeerId w (senderUid ctx));
      match re_keys roomState !! peerId with
      | None => mthrow (GenericError "createMlsChatProvider: sender is not a member")
      | Some sframeKey =>
          pause;;
          ctr ← on_rw (next_ctr (roomId ctx) (senderUid ctx));
          pause;;
          mlift (sframeEncrypt plaintext sframeKey ctr None aad_prefix)
      end
  end.

(** [durable?.available] *)
Definition has_durable (w : MlsWorld) : bool := from_option available false (durable (rcs (mls_replay w))).

(** The replay test before the AEAD: in memory at once, then the durable guard. *)
Definition replay_gateP (room uid : string) (ctr : Z) (rw : window_ref) : MP unit :=
  fresh ← on_rw (window_check rw ctr);
  if negb fresh then mthrow (ChatReplayError room uid ctr) else
  d ← mget has_durable;
  if negb d then mret tt else
  pause;;
  fresh ← on_rw (with_durable true (Durable.check (durableKey room uid) ctr));
  if negb fresh then mthrow (ChatReplayError room uid ctr) else mret tt.

Definition replay_acceptP (room uid : string) (ctr : Z) (rw : window_ref) : MP unit :=
  on_rw (window_accept rw ctr);;
  d ← mget has_durable;
  if negb d then mret tt else
  pause;;
  on_rw (with_durable tt (Durable.accept (durableKey room uid) ctr)).

Definition unsealP (sealed : bytes) (ctx : SealContext) : MP bytes :=
  state ← mget (fun w => roomEpochs w !! roomId ctx);
  match state with
  | None => mthrow (GenericError "createMlsChatProvider: no epoch installed for room")
  | Some roomState =>
      hdr ← mlift (parseHeader sealed);
      sframeKey ← mlift (resolve_sender roomState (kid hdr));
      n ← mget (fun w => replayWindow (rcs (mls_replay w)));
      rw ← on_rw (getReplayWindow (roomId ctx) (senderUid ctx) n);
      replay_gateP (roomId ctx) (senderUid ctx) (ctr hdr) rw;;
      pause;;
      plaintext ← mlift (sframeDecrypt sealed (fun _ => Some sframeKey) no_meta);
      replay_acceptP (roomId ctx) (senderUid ctx) (ctr hdr) rw;;
      mret plaintext
  end.

(** ** Calls that overlap *)

Inductive MlsCall :=
| CallSetEpoch (room : string) (params : MlsEpochParams)
| CallSeal (plaintext : bytes) (ctx : SealContext)
| CallUnseal (sealed : bytes) (ctx : SealContext)
| CallClearEpoch (room : string)
| CallGetEpoch (room : string)
| CallDispose.

Inductive MlsValue := NoValue | Message (b : bytes) | EpochOf (e : option Z).

Definition mls_callP (call : MlsCall) : MP MlsValue :=
  match call with
  | CallSetEpoch room params => setEpochP room params;; mret NoValue
  | CallSeal plaintext ctx => b ← sealP plaintext ctx; mret (Message b)
  | CallUnseal sealed ctx => b ← unsealP sealed ctx; mret (Message b)
  | CallClearEpoch room => piece (clearEpoch room);; mret NoValue
  | CallGetEpoch room => e ← piece (getEpoch room); mret (EpochOf e)
  | CallDispose => piece mls_dispose;; mret NoValue
  end.

(** An epoch that [setEpoch] was called with: the room, the chain key as it was then, the epoch and
    the index map. *)
Record Given := mkGiven {
  gi_room : string;
  gi_chainKey : bytes;
  gi_epoch : Z;
  gi_map : list (string * Z)
}.

Record MlsLoop := mkMlsLoop {
  ml_world : MlsWorld;
  ml_calls : list (MlsCall * Run MlsWorld js_error MlsValue);
  ml_given : list Given
}.

(** [NewBuffer]: the application allocates a buffer, for a chain key. *)
Inductive MlsEvent :=
| NewBuffer (b : bytes)
| CallMls (call : MlsCall)
| ResumeMls (n : nat).

Definition given_by (call : MlsCall) (w : MlsWorld) : list Given :=
  match call with
  | CallSetEpoch room params =>
      [mkGiven room (default [] (mls_heap w !! mp_chainKey params)) (mp_epoch params) (mp_peerIndexMap params)]
  | _ => []
  end.

Definition mls_loop_step (l : MlsLoop) (ev : MlsEvent) : MlsLoop :=
  match ev with
  | NewBuffer b => mkMlsLoop ((ml_world l) <| mls_heap ::= fun h => h ++ [b] |>) (ml_calls l) (ml_given l)
  | CallMls call =>
      let '(x, w) := mls_callP call (ml_world l) in
      mkMlsLoop w (ml_calls l ++ [(call, x)]) (ml_given l ++ given_by call (ml_world l))
  | ResumeMls n =>
      match ml_calls l !! n with
      | Some (call, Waiting ready k) =>
          if ready (ml_world l) then
            let '(x, w) := k (ml_world l) in mkMlsLoop w (<[n := (call, x)]> (ml_calls l)) (ml_given l)
          else l
      | _ => l
      end
  end.

Definition run_mls (l : MlsLoop) (evs : list MlsEvent) : MlsLoop := foldl mls_loop_step l evs.

End Race.

(** ** Lemmas: a call that nobody overlaps with is the operation of [ChatMls] *)

Section Alone.
Context `{WebCrypto}.

Lemma bind_congr {S E A B} (m m' : M S E A) (k k' : A -> M S E B) s :
  m s = m' s -> (forall a s', k a s' = k' a s') -> (m ≫= k) s = (m' ≫= k') s.
Proof. intros Hm Hk. unfold mbind, M_bind. rewrite Hm. by destruct (m' s) as [[a|e] s']. Qed.

(** A first piece, and a wait. *)
Lemma alone_bind_piece {S E A B} (m : M S E A) (k : A -> P S E B) (k' : A -> M S E B) s :
  (forall a s', alone (k a) s' = k' a s') -> alone (piece m ≫= k) s = (m ≫= k') s.
Proof. intros Hk. rewrite alone_bind. apply bind_congr; [apply alone_piece|exact Hk]. Qed.

Lemma alone_bind_pause {S E B} (k : unit -> P S E B) s : alone (pause ≫= k) s = alone (k tt) s.
Proof. by rewrite alone_bind. Qed.

Lemma alone_setEpoch room params w : alone (setEpochP room params) w = setEpoch room params w.
Proof.
  unfold setEpochP, setEpoch. apply alone_bind_piece. intros suite w1. apply alone_bind_piece. intros ck w2.
  destruct (negb _); [apply alone_piece|]. rewrite alone_bind_pause. apply alone_bind_piece. intros [keys index] w3.
  apply alone_bind_piece. intros _ w4. apply alone_bind_piece. intros _ w5. apply alone_piece.
Qed.

Lemma alone_seal plaintext ctx w : alone (sealP plaintext ctx) w = mls_seal plaintext ctx w.
Proof.
  unfold sealP, mls_seal. apply alone_bind_piece. intros [st|] w1; [|apply alone_piece].
  apply alone_bind_piece. intros p w2. destruct (re_keys st !! p) as [key|]; [|apply alone_piece].
  rewrite alone_bind_pause. apply alone_bind_piece. intros c w3. rewrite alone_bind_pause. apply alone_piece.
Qed.

Lemma on_rw_bind {A B} (m : RM A) (k : A -> RM B) w :
  on_mls_replay (m ≫= k) w = (on_mls_replay m ≫= fun a => on_mls_replay (k a)) w.
Proof. apply zoom_bind; [done|]. by intros t t' []. Qed.

Lemma on_rw_skip {A} (d : A) m w : has_durable w = false -> on_mls_replay (with_durable d m) w = (Ok d, w).
Proof.
  unfold has_durable, on_mls_replay, zoom, with_durable. destruct w as [s u c re r h cl]. cbn.
  destruct (durable (rcs r)) as [g|]; [|done]. cbn. by intros ->.
Qed.

Lemma alone_gate room uid c x w : alone (replay_gateP room uid c x) w = on_mls_replay (replay_gate room uid c x) w.
Proof.
  unfold replay_gateP, replay_gate. rewrite on_rw_bind. apply alone_bind_piece. intros fresh w1.
  destruct (negb fresh); [by destruct w1|].
  rewrite alone_bind. unfold mget. unfold mbind at 1, M_bind at 1. rewrite alone_piece. unfold gets.
  rewrite on_rw_bind. destruct (has_durable w1) eqn:Ed; cbn [negb].
  - rewrite alone_bind_pause. apply alone_bind_piece. intros [] w2; by destruct w2.
  - unfold mbind, M_bind. rewrite on_rw_skip by done. by destruct w1.
Qed.

Lemma alone_accept room uid c x w : alone (replay_acceptP room uid c x) w = on_mls_replay (replay_accept room uid c x) w.
Proof.
  unfold replay_acceptP, replay_accept. rewrite on_rw_bind. apply alone_bind_piece. intros _ w1.
  rewrite alone_bind. unfold mget. unfold mbind at 1, M_bind at 1. rewrite alone_piece. unfold gets.
  destruct (has_durable w1) eqn:Ed; cbn [negb].
  - rewrite alone_bind_pause. apply alone_piece.
  - by rewrite on_rw_skip.
Qed.

Lemma alone_unseal sealed ctx w : alone (unsealP sealed ctx) w = mls_unseal sealed ctx w.
Proof.
  unfold unsealP, mls_unseal. apply alone_bind_piece. intros [st|] w1; [|apply alone_piece].
  apply alone_bind_piece. intros hdr w2. apply alone_bind_piece. intros key w3. apply alone_bind_piece. intros n w4.
  apply alone_bind_piece. intros x w5. rewrite alone_bind. apply bind_congr; [apply alone_gate|]. intros _ w6.
  rewrite alone_bind_pause. apply alone_bind_piece. intros pt w7. rewrite alone_bind.
  apply bind_congr; [apply alone_accept|]. done.
Qed.

End Alone.

(** ** Lemmas: all interleavings *)

Section Interleavings.
Context `{WebCryptoLaws} (given : list Given) (suite : CipherSuite).
Hypothesis (Hids : forall g, g ∈ given -> NoDup (gi_map g).*1).

(** An installed epoch is one that was given for the room. *)
Definition installed_ok (w : MlsWorld) : Prop :=
  forall room st, roomEpochs w !! room = Some st ->
    exists g, g ∈ given /\ gi_room g = room /\ gi_epoch g = re_epoch st /\
      epoch_maps (gi_chainKey g) (gi_epoch g) suite (gi_map g) (re_keys st) (re_indexToPeerId st).

Record mls_ok (w : MlsWorld) : Prop := mk_mls_ok {
  mo_windows : windows_ok (mls_replay w);
  mo_installed : installed_ok w;
  mo_suite : mls_suite w = suite
}.

(** A buffer keeps its contents or is zeroed. *)
Definition buffers (w w' : MlsWorld) : Prop :=
  forall i b, mls_heap w !! i = Some b -> mls_heap w' !! i = Some b \/ mls_heap w' !! i = Some (zeros (length b)).

Definition evolves (w w' : MlsWorld) : Prop := (mls_ok w -> mls_ok w') /\ buffers w w'.

#[local] Instance evolves_preorder : PreOrder evolves.
Proof.
  split; [by split; [|left]|]. intros w1 w2 w3 [H12 B12] [H23 B23]. split; [auto|]. intros i b Hb.
  destruct (B12 i b Hb) as [Hb2|Hb2]; destruct (B23 i _ Hb2) as [Hb3|Hb3]; auto.
  right. unfold zeros in *. by rewrite length_replicate in Hb3.
Qed.

(** The key of a member of an epoch that was given for the room. *)
Definition member_key (room p : string) (key : SFrameKey) : Prop :=
  exists g i sk, g ∈ given /\ gi_room g = room /\ (p, i) ∈ gi_map g /\
    deriveSenderKeys (gi_chainKey g) (gi_epoch g) i suite FIXED_KID_CODEC = Ok sk /\ key = sframe_key sk.

(** The key of the sender that a KID names, in such an epoch. *)
Definition sender_key (room : string) (kid : Z) (key : SFrameKey) : Prop :=
  exists g p i sk, g ∈ given /\ gi_room g = room /\ (p, i) ∈ gi_map g /\
    deriveSenderKeys (gi_chainKey g) (gi_epoch g) i suite FIXED_KID_CODEC = Ok sk /\ key = sframe_key sk /\
    decode FIXED_KID_CODEC kid = Ok (gi_epoch g, i).

Definition unsealed_ok (room : string) (sealed pt : bytes) : Prop :=
  exists hdr key, parseHeader sealed = Ok hdr /\ sender_key room (kid hdr) key /\
    sframeDecrypt sealed (fun _ => Some key) no_meta = Ok pt.

Definition sealed_ok (room p : string) (pt sealed : bytes) : Prop :=
  exists key c, member_key room p key /\ sframeEncrypt pt key c None aad_prefix = Ok sealed.

Lemma resolve_sender_key w room st kid key :
  mls_ok w -> roomEpochs w !! room = Some st -> resolve_sender st kid = Ok key -> sender_key room kid key.
Proof.
  intros [_ Hi _] Hst Hres. destruct (Hi room st Hst) as (g & Hg & Hroom & He & [Hk _ _ Hin]).
  unfold resolve_sender in Hres. destruct (decode FIXED_KID_CODEC kid) as [[e pi]|] eqn:Ed; [|done].
  cbn [mbind result_bind] in Hres. destruct (Z.eqb_spec e (re_epoch st)) as [->|]; [|done]. cbn [negb] in Hres.
  destruct (truthy_id _) as [p|] eqn:Ep; [|done]. destruct (re_keys st !! p) as [key'|] eqn:Ek; [|done].
  injection Hres as ->. unfold truthy_id in Ep. destruct (falsy _); [done|]. apply Hin in Ep.
  destruct (Hk p key Ek) as (i & sk & Hpi & Hsk & ->).
  assert ((p, i) = (p, pi)) as [= ->] by (by apply (NoDup_fmap_inj_in fst (gi_map g)); [apply Hids|..]).
  rewrite <- He in Ed. by exists g, p, pi, sk.
Qed.

Lemma installed_member_key w room st p key :
  mls_ok w -> roomEpochs w !! room = Some st -> re_keys st !! p = Some key -> member_key room p key.
Proof.
  intros [_ Hi _] Hst Hp. destruct (Hi room st Hst) as (g & Hg & Hroom & _ & [Hk _ _ _]).
  destruct (Hk p key Hp) as (i & sk & ? & ? & ?). by exists g, i, sk.
Qed.

(** ** Triples: a call keeps the provider, and settles with [Q] *)

Definition settles {A} (Q : A -> Prop) (m : P MlsWorld js_error A) : Prop :=
  rg evolves evolves mls_ok (fun r w => mls_ok w /\ match r with Ok a => Q a | Throw _ => True end) m.

Lemma settles_bind {A B} (Q : A -> Prop) (Q' : B -> Prop) m k :
  settles Q m -> (forall a, Q a -> settles Q' (k a)) -> settles Q' (m ≫= k).
Proof.
  intros Hm Hk. apply (rg_bind _ _ _ (fun a w => mls_ok w /\ Q a)).
  - eapply rg_weaken; [done| |exact Hm]. by intros [a|e] w [Hw HQ].
  - intros a w [Hw HQ]. by apply (Hk a HQ).
Qed.

Lemma settles_piece {A} (Q : A -> Prop) (m : M MlsWorld js_error A) :
  (forall w, mls_ok w -> evolves w (m w).2 /\ match (m w).1 with Ok a => Q a | Throw _ => True end) -> settles Q (piece m).
Proof. intros Hm. apply rg_piece. intros w Hw. destruct (Hm w Hw) as [He HQ]. split; [done|]. split; [by apply He|done]. Qed.

Lemma settles_pause : settles (fun _ => True) pause.
Proof. apply rg_pause; [apply _|]. intros w w' Hw [He _]. split; [by apply He|done]. Qed.

Lemma settles_ret {A} (Q : A -> Prop) a : Q a -> settles Q (mret a).
Proof. intros HQ. apply rg_ret; [apply _|done]. Qed.

Lemma settles_get {A} (Q : A -> Prop) f : (forall w, mls_ok w -> Q (f w)) -> settles Q (mget f).
Proof. intros HQ. apply settles_piece. intros w Hw. split; [reflexivity|by apply HQ]. Qed.

Lemma settles_lift {A} (Q : A -> Prop) r : match r with Ok a => Q a | Throw _ => True end -> settles Q (mlift r).
Proof. intros HQ. by apply settles_piece. Qed.

Lemma settles_throw {A} (Q : A -> Prop) e : settles Q (mthrow e).
Proof. by apply settles_piece. Qed.

(** A step of the replay state. *)
Lemma settles_rw {A} (m : RM A) :
  (forall r, windows_ok r -> windows_ok (m r).2) -> settles (fun _ => True) (on_rw m).
Proof.
  intros Hm. apply settles_piece. intros w Hw. unfold on_mls_replay, zoom.
  specialize (Hm (mls_replay w) (mo_windows w Hw)). destruct (m (mls_replay w)) as [r q]. split; [|by destruct r].
  split; [|by left]. by intros [_ Hi Hs].
Qed.

Lemma settles_rw_parts {A} (m : RM A) : keeps (same window_parts) m -> settles (fun _ => True) (on_rw m).
Proof. intros Hm. apply settles_rw. intros r Hr. apply (windows_ok_parts r); [apply Hm|done]. Qed.

Lemma settles_next room uid : settles (fun _ => True) (on_rw (next_ctr room uid)).
Proof.
  apply settles_rw_parts. eapply keeps_sub; [|apply keeps_next_ctr].
  intros s s' E. exact (f_equal (fun x => x.1.1) E).
Qed.

Lemma settles_window room uid : settles (fun _ => True)
  (n ← mget (fun w => replayWindow (rcs (mls_replay w))); on_rw (getReplayWindow room uid n)).
Proof.
  intros w Hw. pose proof (getRoomWindow_run (mls_replay w) room uid (mo_windows w Hw)) as (x & r & Hget & Hr & _).
  set (m := getReplayWindow room uid (replayWindow (rcs (mls_replay w)))) in *.
  change ((n ← mget (fun w => replayWindow (rcs (mls_replay w))); on_rw (getReplayWindow room uid n)) w)
    with (piece (on_mls_replay m) w).
  unfold piece. rewrite (on_mls_replay_run m w _ _ Hget). destruct Hw as [_ Hi Hs].
  split; [split; [by intros [_ ? ?]|by left]|]. split; [by split|done].
Qed.

Lemma settles_gate room uid c x : settles (fun _ => True) (replay_gateP room uid c x).
Proof.
  apply (settles_bind (fun _ => True)); [by apply settles_rw_parts|]. intros fresh _.
  destruct (negb fresh); [apply settles_throw|].
  apply (settles_bind (fun _ => True)); [by apply settles_get|]. intros d _. destruct (negb d); [by apply settles_ret|].
  apply (settles_bind (fun _ => True)); [apply settles_pause|]. intros _ _.
  apply (settles_bind (fun _ => True)); [apply settles_rw_parts, keeps_with_durable|]. intros fresh' _.
  destruct (negb fresh'); [apply settles_throw|by apply settles_ret].
Qed.

Lemma settles_accept room uid c x : is_ctr c -> settles (fun _ => True) (replay_acceptP room uid c x).
Proof.
  intros Hc. apply (settles_bind (fun _ => True)).
  { apply settles_rw. intros r Hr. by apply (windows_ok_accept r _ c x). }
  intros _ _. apply (settles_bind (fun _ => True)); [by apply settles_get|]. intros d _.
  destruct (negb d); [by apply settles_ret|].
  apply (settles_bind (fun _ => True)); [apply settles_pause|]. intros _ _. apply settles_rw_parts, keeps_with_durable.
Qed.

Lemma settles_unseal sealed ctx : settles (unsealed_ok (roomId ctx) sealed) (unsealP sealed ctx).
Proof.
  unfold unsealP. apply (settles_bind (fun state => forall st key kid, state = Some st ->
    resolve_sender st kid = Ok key -> sender_key (roomId ctx) kid key)).
  { apply settles_get. intros w Hw st key kid Hst. by eapply resolve_sender_key. }
  intros [st|] Hst; [|apply settles_throw].
  apply (settles_bind (fun hdr => parseHeader sealed = Ok hdr)); [apply settles_lift; by destruct (parseHeader sealed)|].
  intros hdr Hhdr. apply (settles_bind (sender_key (roomId ctx) (kid hdr))).
  { apply settles_lift. destruct (resolve_sender st (kid hdr)) as [key|] eqn:E; [|done]. by eapply Hst. }
  intros key Hkey. pose proof (parseHeader_bounds _ _ Hhdr) as (_ & Hc & _).
  assert (forall x, settles (unsealed_ok (roomId ctx) sealed)
    (replay_gateP (roomId ctx) (senderUid ctx) (ctr hdr) x;; pause;;
     plaintext ← mlift (sframeDecrypt sealed (fun _ => Some key) no_meta);
     replay_acceptP (roomId ctx) (senderUid ctx) (ctr hdr) x;; mret plaintext)) as Hrest.
  { intros x. apply (settles_bind (fun _ => True)); [apply settles_gate|]. intros _ _.
    apply (settles_bind (fun _ => True)); [apply settles_pause|]. intros _ _.
    apply (settles_bind (unsealed_ok (roomId ctx) sealed)).
    { apply settles_lift. destruct (sframeDecrypt sealed _ no_meta) as [pt|] eqn:E; [|done]. by exists hdr, key. }
    intros pt Hpt. apply (settles_bind (fun _ => True)); [by apply settles_accept|]. intros _ _. by apply settles_ret. }
  pose proof (settles_bind _ _ _ _ (settles_window (roomId ctx) (senderUid ctx)) (fun x _ => Hrest x)) as Hw.
  intros w Hok. exact (Hw w Hok).
Qed.

Lemma settles_seal plaintext ctx :
  settles (fun b => exists p, sealed_ok (roomId ctx) p plaintext b) (sealP plaintext ctx).
Proof.
  unfold sealP. apply (settles_bind (fun state => forall st p key, state = Some st ->
    re_keys st !! p = Some key -> member_key (roomId ctx) p key)).
  { apply settles_get. intros w Hw st p key Hst. by eapply installed_member_key. }
  intros [st|] Hst; [|apply settles_throw].
  apply (settles_bind (fun _ => True)); [by apply settles_get|]. intros p _.
  destruct (re_keys st !! p) as [key|] eqn:Ek; [|apply settles_throw].
  apply (settles_bind (fun _ => True)); [apply settles_pause|]. intros _ _.
  apply (settles_bind (fun _ => True)); [apply settles_next|]. intros c _.
  apply (settles_bind (fun _ => True)); [apply settles_pause|]. intros _ _.
  apply settles_lift. destruct (sframeEncrypt _ _ _ _ _) as [b|] eqn:E; [|done]. exists p, key, c.
  split; [by eapply Hst|done].
Qed.

Lemma settles_forget room : settles (fun _ => True) (on_rw (forget_room room)).
Proof.
  apply settles_rw. intros r Hr. destruct (forget_room_run room r) as (r' & -> & Hp). by eapply windows_ok_forget.
Qed.

Lemma epoch_maps_new ck epoch m keys index :
  mls_sender_keys ck epoch suite m ∅ ∅ = Ok (keys, index) -> epoch_maps ck epoch suite m keys index.
Proof.
  intros Hk. apply (mls_sender_keys_maps _ _ _ _ [] ∅ ∅ _ _ Hk). split.
  - intros p key Hp. by rewrite lookup_empty in Hp.
  - intros p Hp. by apply not_elem_of_nil in Hp.
  - intros p i Hp. by apply not_elem_of_nil in Hp.
  - intros i p Hp. by rewrite lookup_empty in Hp.
Qed.

Lemma evolves_zeroize i w : evolves w (w <| mls_heap ::= alter zeroize i |>).
Proof.
  split; [by intros []|]. intros j b Hb. cbn. destruct (decide (i = j)) as [->|Hne].
  - right. by rewrite list_lookup_alter_eq, Hb.
  - left. by rewrite list_lookup_alter_ne.
Qed.

Lemma settles_setEpoch room params :
  forall ck, mkGiven room ck (mp_epoch params) (mp_peerIndexMap params) ∈ given ->
  rg evolves evolves (fun w => mls_ok w /\ default [] (mls_heap w !! mp_chainKey params) = ck)
    (fun _ => mls_ok) (setEpochP room params).
Proof.
  intros ck Hg. unfold setEpochP.
  apply (rg_bind _ _ _ (fun su w => mls_ok w /\ default [] (mls_heap w !! mp_chainKey params) = ck /\ su = suite)).
  { apply rg_gets; [apply _|]. intros w [Hw Hck]. split_and!; [done|done|apply Hw]. }
  intros su. apply (rg_bind _ _ _ (fun b w => mls_ok w /\ b = ck /\ su = suite)).
  { apply rg_gets; [apply _|]. by intros w (Hw & -> & ->). }
  intros b w (Hw & -> & ->). revert w Hw.
  assert (settles (fun _ => True) (if negb (Z.of_nat (length ck) =? chainKeyBytes (suiteParams suite))
    then mthrow (GenericError "createMlsChatProvider: chainKey has the wrong length") else
    pause;;
    '(keys, index) ← mlift (mls_sender_keys ck (mp_epoch params) suite (mp_peerIndexMap params) ∅ ∅);
    mmod (fun w => w <| mls_heap ::= alter zeroize (mp_chainKey params) |>);;
    mmod (fun w => w <| roomEpochs ::= <[room := mkRoomEpoch (mp_epoch params) keys index]> |>);;
    on_rw (forget_room room))) as Hrest.
  2: { intros w Hw. destruct (Hrest w Hw) as [HG HQ]. split; [done|]. eapply rest_rg_weaken; [|exact HQ]. by intros r w' []. }
  destruct (negb _); [apply settles_throw|]. apply (settles_bind (fun _ => True)); [apply settles_pause|]. intros _ _.
  apply (settles_bind (fun '(keys, index) => epoch_maps ck (mp_epoch params) suite (mp_peerIndexMap params) keys index)).
  { apply settles_lift. destruct (mls_sender_keys _ _ _ _ _ _) as [[keys index]|] eqn:E; [|done]. by apply epoch_maps_new. }
  intros [keys index] Hm. apply (settles_bind (fun _ => True)).
  { apply settles_piece. intros w Hw. split; [apply evolves_zeroize|done]. }
  intros _ _. apply (settles_bind (fun _ => True)); [|intros _ _; apply settles_forget].
  apply settles_piece. intros w Hw. split; [|done]. split; [|by left]. intros [Hwin Hi Hs]. split; [done| |done].
  intros r st. cbn. intros [[<- <-]|[_ Hst]]%lookup_insert_Some; [|by apply Hi]. eexists. by split_and!; [exact Hg|..].
Qed.

(** The chain key is zeroed when [setEpoch] has resolved. *)
Definition zeroed (i : nat) (w : MlsWorld) : Prop := exists n, mls_heap w !! i = Some (zeros n).

Lemma zeroed_evolves i w w' : evolves w w' -> zeroed i w -> zeroed i w'.
Proof. intros [_ B] [n Hn]. destruct (B i _ Hn) as [E|E]; [by exists n|]. eexists. exact E. Qed.

#[local] Instance anything_preorder : PreOrder (fun _ _ : MlsWorld => True).
Proof. by split. Qed.

Lemma setEpoch_zeroes room params :
  rg evolves (fun _ _ => True) (fun _ => True)
    (fun r w => match r with Ok _ => zeroed (mp_chainKey params) w | Throw _ => True end) (setEpochP room params).
Proof.
  set (i := mp_chainKey params). unfold setEpochP.
  apply (rg_bind _ _ _ (fun _ _ => True)); [by apply rg_gets; [apply _|]|]. intros su.
  apply (rg_bind _ _ _ (fun ck w => default [] (mls_heap w !! i) = ck)); [by apply rg_gets; [apply _|]|]. intros ck.
  destruct (negb _) eqn:El; [by apply rg_piece|].
  apply (rg_bind _ _ _ (fun _ w => is_Some (mls_heap w !! i))).
  { apply rg_pause; [apply _|]. intros w w' Hck [_ B]. destruct (mls_heap w !! i) as [b|] eqn:Eb.
    - destruct (B i b Eb) as [E|E]; eauto.
    - cbn in Hck. subst ck. by destruct su. }
  intros _. apply (rg_bind _ _ _ (fun _ w => is_Some (mls_heap w !! i))).
  { apply rg_piece. intros w Hw. split; [done|]. unfold lift. cbn. by destruct (mls_sender_keys _ _ _ _ _ _). }
  intros [keys index]. apply (rg_bind _ _ _ (fun _ => zeroed i)).
  { apply rg_piece. intros w [b Hb]. split; [done|]. exists (length b). unfold i in *. cbn. by rewrite list_lookup_alter_eq, Hb. }
  intros _. apply (rg_bind _ _ _ (fun _ => zeroed i)); [by apply rg_piece|].
  intros _. apply rg_piece. intros w Hw. split; [done|]. destruct (forget_room_run room (mls_replay w)) as (r & Hr & _).
  by rewrite (on_mls_replay_run _ w _ _ Hr).
Qed.

(** ** The loop *)

(** What a call settles to. *)
Definition settled_ok (call : MlsCall) (v : MlsValue) (w : MlsWorld) : Prop :=
  match call with
  | CallSetEpoch room params => v = NoValue /\ zeroed (mp_chainKey params) w
  | CallSeal plaintext ctx => exists b p, v = Message b /\ sealed_ok (roomId ctx) p plaintext b
  | CallUnseal sealed ctx => exists pt, v = Message pt /\ unsealed_ok (roomId ctx) sealed pt
  | CallGetEpoch room => exists e, v = EpochOf e /\ forall n, e = Some n ->
      exists g, g ∈ given /\ gi_room g = room /\ gi_epoch g = n
  | CallClearEpoch _ | CallDispose => v = NoValue
  end.

Definition call_post (call : MlsCall) (r : res MlsValue) (w : MlsWorld) : Prop :=
  mls_ok w /\ match r with Ok v => settled_ok call v w | Throw _ => True end.

Lemma call_post_evolves call r w w' : evolves w w' -> call_post call r w -> call_post call r w'.
Proof.
  intros He [Hw Hr]. split; [by apply He|]. destruct r as [v|e]; [|done].
  destruct call; try done. destruct Hr as [-> Hz]. split; [done|by eapply zeroed_evolves].
Qed.

(** A call whose promise says nothing of the state. *)
Lemma settles_call {A} (Q : A -> Prop) (m : P MlsWorld js_error A) (f : A -> MlsValue) (call : MlsCall) :
  settles Q m -> (forall a w, Q a -> settled_ok call (f a) w) ->
  rg evolves evolves mls_ok (call_post call) (a ← m; mret (f a)).
Proof.
  intros Hm Hf. apply (rg_bind _ _ _ (fun a w => mls_ok w /\ Q a)).
  - eapply rg_weaken; [done| |exact Hm]. by intros [a|e] w [Hw HQ].
  - intros a. apply rg_ret; [apply _|]. intros w [Hw HQ]. split; [done|by apply Hf].
Qed.

Lemma settles_clear room : settles (fun _ => True) (piece (clearEpoch room)).
Proof.
  apply settles_piece. intros w [Hwin Hi Hs]. unfold clearEpoch. rewrite bind_modify. set (w1 := w <| roomEpochs ::= _ |>).
  destruct (forget_room_run room (mls_replay w1)) as (r & Hr & Hp).
  rewrite (bind_Ok _ _ _ _ _ (on_mls_replay_run _ w1 _ _ Hr)), bind_gets.
  assert (evolves w (w1 <| mls_replay := r |>)) as He.
  { split; [|by left]. intros _. split; [by eapply windows_ok_forget| |done].
    intros r' st. cbn. intros [_ Hst]%lookup_delete_Some. by apply Hi. }
  destruct (onEpochCleared _); (split; [|done]); [|exact He]. destruct He as [He B]. split; [|exact B].
  intros Hw. by destruct (He Hw).
Qed.

Lemma settles_dispose : settles (fun _ => True) (piece mls_dispose).
Proof.
  apply settles_piece. intros w [[Hk Hs' Hr Hi' Hw Hb] Hi Hs]. split; [|done]. split; [|by left]. intros _.
  split; [|done|done]. split; [apply NoDup_nil_2|apply Nat.le_0_l|done|done|exact Hw|exact Hb].
Qed.


Lemma call_rg call w :
  mls_ok w -> (forall g, g ∈ given_by call w -> g ∈ given) ->
  evolves w (mls_callP call w).2 /\ rest_rg evolves evolves (call_post call) (mls_callP call w).1 (mls_callP call w).2.
Proof.
  intros Hw Hg. destruct call as [room params|plaintext ctx|sealed ctx|room|room|]; cbn [mls_callP].
  - set (ck := default [] (mls_heap w !! mp_chainKey params)).
    assert (mkGiven room ck (mp_epoch params) (mp_peerIndexMap params) ∈ given) as Hin.
    { apply Hg. by left. }
    assert (rg evolves evolves (fun w => (True /\ mls_ok w /\ default [] (mls_heap w !! mp_chainKey params) = ck))
      (call_post (CallSetEpoch room params)) (setEpochP room params;; mret NoValue)) as H2; [|by apply H2].
    apply (rg_bind _ _ _ (fun _ w => mls_ok w /\ zeroed (mp_chainKey params) w)).
    + eapply rg_weaken; [| |apply (rg_and evolves evolves (fun _ _ => True) evolves); [done|apply setEpoch_zeroes|by apply settles_setEpoch]].
      * done.
      * by intros [u|e] w' [Hz Hok].
    + intros _. apply rg_ret; [apply _|]. by intros w' [Hok Hz].
  - apply (settles_call (fun b => exists p, sealed_ok (roomId ctx) p plaintext b)); [apply settles_seal| |done].
    intros b w' [p Hb]. by exists b, p.
  - apply (settles_call (unsealed_ok (roomId ctx) sealed)); [apply settles_unseal| |done].
    intros pt w' Hpt. by exists pt.
  - by apply (settles_call (fun _ => True) _ (fun _ => NoValue)); [apply settles_clear|..].
  - apply (settles_call (fun e => forall n, e = Some n -> exists g, g ∈ given /\ gi_room g = room /\ gi_epoch g = n)); [| |done].
    + apply settles_piece. intros w' [_ Hi _]. split; [reflexivity|]. cbn. intros n Hn.
      destruct (roomEpochs w' !! room) as [st|] eqn:Est; [|done]. injection Hn as <-.
      destruct (Hi room st Est) as (g & ? & ? & ? & _). by exists g.
    + intros e w' He. by exists e.
  - by apply (settles_call (fun _ => True) _ (fun _ => NoValue)); [apply settles_dispose|..].
Qed.

Record loop_ok (l : MlsLoop) : Prop := mk_loop_ok {
  lo_world : mls_ok (ml_world l);
  lo_calls n call x : ml_calls l !! n = Some (call, x) ->
    rest_rg evolves evolves (call_post call) x (ml_world l)
}.

Lemma rest_rg_evolves call x w w' :
  evolves w w' -> rest_rg evolves evolves (call_post call) x w -> rest_rg evolves evolves (call_post call) x w'.
Proof. apply rest_rg_stable; [apply _|]. intros r s s'. apply call_post_evolves. Qed.

Lemma loop_step_ok l ev :
  loop_ok l -> (forall g, g ∈ ml_given (mls_loop_step l ev) -> g ∈ given) -> loop_ok (mls_loop_step l ev).
Proof.
  intros [Hw Hc] Hg. destruct ev as [b|call|n]; cbn [mls_loop_step] in *.
  - assert (evolves (ml_world l) ((ml_world l) <| mls_heap ::= fun h => h ++ [b] |>)) as He.
    { split; [by intros []|]. intros i b' Hb. left. cbn. by apply lookup_app_l_Some. }
    split; [by apply He|]. intros n call x Hn. eapply rest_rg_evolves; [exact He|by eapply Hc].
  - destruct (call_rg call (ml_world l)) as [He Hx]; [done| |].
    { intros g Hin. apply Hg. destruct (mls_callP call (ml_world l)). apply elem_of_app. by right. }
    destruct (mls_callP call (ml_world l)) as [x w']. split; [by apply He|]. cbn in *. intros n call' x' Hn.
    apply lookup_app_Some in Hn as [Hn|[_ Hn]]; [eapply rest_rg_evolves; [exact He|by eapply Hc]|].
    apply list_lookup_singleton_Some in Hn as [_ [= <- <-]]. exact Hx.
  - destruct (ml_calls l !! n) as [[call [r|ready k]]|] eqn:En; [done| |done].
    destruct (ready (ml_world l)) eqn:Er; [|done]. pose proof (Hc _ _ _ En) as Hrest. cbn in Hrest.
    destruct (Hrest (ml_world l)) as [He Hx]; [reflexivity|done|]. destruct (k (ml_world l)) as [x w']. cbn in He, Hx.
    split; [by apply He|]. cbn. intros n' call' x' [(<- & [= <- <-] & _)|[_ Hn]]%list_lookup_insert_Some; [exact Hx|].
    eapply rest_rg_evolves; [exact He|by eapply Hc].
Qed.

End Interleavings.

Lemma given_grows `{WebCrypto} l ev g : g ∈ ml_given l -> g ∈ ml_given (mls_loop_step l ev).
Proof.
  intros Hg. destruct ev as [b|call|n]; cbn [mls_loop_step]; [done| |].
  - destruct (mls_callP call (ml_world l)). apply elem_of_app. by left.
  - destruct (ml_calls l !! n) as [[call [r|ready k]]|]; try done. destruct (ready _); [|done]. by destruct (k _).
Qed.

Lemma given_grows_run `{WebCrypto} l evs g : g ∈ ml_given l -> g ∈ ml_given (run_mls l evs).
Proof. revert l. induction evs as [|ev evs IH]; intros l Hg; [done|]. by apply IH, given_grows. Qed.

Lemma run_mls_ok `{WebCryptoLaws} given suite l evs :
  (forall g, g ∈ given -> NoDup (gi_map g).*1) -> loop_ok given suite l ->
  (forall g, g ∈ ml_given (run_mls l evs) -> g ∈ given) -> loop_ok given suite (run_mls l evs).
Proof.
  intros Hids. revert l. induction evs as [|ev evs IH]; intros l Hl Hg; [done|]. apply IH; [|done].
  apply loop_step_ok; [done|done|]. intros g Hin. apply Hg. by apply (given_grows_run _ evs).
Qed.

(** The index maps of the calls of [setEpoch], which are objects, so that their ids are distinct. *)
Definition distinct_ids (ev : MlsEvent) : Prop :=
  match ev with CallMls (CallSetEpoch _ params) => NoDup (mp_peerIndexMap params).*1 | _ => True end.

Lemma given_distinct `{WebCrypto} l evs :
  Forall distinct_ids evs -> (forall g, g ∈ ml_given l -> NoDup (gi_map g).*1) ->
  forall g, g ∈ ml_given (run_mls l evs) -> NoDup (gi_map g).*1.
Proof.
  intros Hevs. revert l. induction Hevs as [|ev evs Hev Hevs IH]; intros l Hl g Hg; [by apply Hl|].
  apply (IH (mls_loop_step l ev)); [|done]. clear g Hg. intros g. destruct ev as [b|call|n]; cbn [mls_loop_step].
  - apply Hl.
  - destruct (mls_callP call (ml_world l)). intros [Hg|Hg]%elem_of_app; [by apply Hl|].
    destruct call; try by apply not_elem_of_nil in Hg. apply list_elem_of_singleton in Hg as ->. exact Hev.
  - destruct (ml_calls l !! n) as [[call [r|ready k]]|]; try apply Hl. destruct (ready _); [|apply Hl].
    destruct (k _). apply Hl.
Qed.

(** ** The property *)

(** C13. Whatever calls of the provider overlap: a call of [unseal] resolves only to the plaintext of a
    frame that decrypts under the key of the sender and epoch that its KID names, derived from a chain
    key that [setEpoch] was given for the room; [seal] only to a frame sealed under a key of a member
    of such an epoch; [getEpoch] answers with such an epoch; once a [setEpoch] has resolved its chain
    key is zeros in the caller's buffer, for good; and the replay windows keep their invariant. *)
Theorem mls_interleavings_safe `{WebCryptoLaws} (w : MlsWorld) (evs : list MlsEvent)
    (Hrooms : roomEpochs w = ∅) (Hwin : windows_ok (mls_replay w)) (Hids : Forall distinct_ids evs) :
  let l := run_mls (mkMlsLoop w [] []) evs in
  windows_ok (mls_replay (ml_world l)) /\
  forall n call v, ml_calls l !! n = Some (call, Finished (Ok v)) ->
    match call with
    | CallSetEpoch room params => v = NoValue /\ zeroed (mp_chainKey params) (ml_world l)
    | CallSeal plaintext ctx => exists b p, v = Message b /\ sealed_ok (ml_given l) (mls_suite w) (roomId ctx) p plaintext b
    | CallUnseal sealed ctx => exists pt, v = Message pt /\ unsealed_ok (ml_given l) (mls_suite w) (roomId ctx) sealed pt
    | CallGetEpoch room => exists e, v = EpochOf e /\ forall n, e = Some n ->
        exists g, g ∈ ml_given l /\ gi_room g = room /\ gi_epoch g = n
    | CallClearEpoch _ | CallDispose => v = NoValue
    end.
Proof.
  intros l. assert (loop_ok (ml_given l) (mls_suite w) l) as [Hw Hc].
  { apply run_mls_ok; [|split|done].
    - apply given_distinct; [done|]. intros g Hg. by apply not_elem_of_nil in Hg.
    - split; [done| |done]. intros room st. cbn. by rewrite Hrooms, lookup_empty.
    - done. }
  split; [apply Hw|]. intros n call v Hn. by destruct (Hc n call _ Hn) as [_ Hr].
Qed.

(** ** Schedules *)

Definition settled_value `{WebCrypto} (n : nat) (l : MlsLoop) : option MlsValue :=
  match ml_calls l !! n with Some (_, Finished (Ok v)) => Some v | _ => None end.

Definition call_made `{WebCrypto} (n : nat) (l : MlsLoop) : option MlsCall := fst <$> ml_calls l !! n.

Lemma settled_call `{WebCrypto} n l call v :
  call_made n l = Some call -> settled_value n l = Some v -> ml_calls l !! n = Some (call, Finished (Ok v)).
Proof.
  unfold call_made, settled_value. destruct (ml_calls l !! n) as [[call' [[v'|e]|ready k]]|]; try done.
  cbn. by intros [= ->] [= ->].
Qed.

Definition demo_mls_run (evs : list MlsEvent) : MlsLoop (H := toy) :=
  run_mls (mkMlsLoop (demo_mls (fun _ => 7)) [] []) evs.

Definition demo_mls_set_epoch (epoch : Z) (buffer : nat) : MlsEvent :=
  CallMls (CallSetEpoch "room" (mkMlsParams epoch [("alice", 0); ("bob", 1)]%string buffer)).

Definition demo_mls_ctx : SealContext := mkSealContext "room" "alice".

(** What "alice" seals in epoch 3. *)
Definition demo_mls_frame : bytes :=
  match (mls_seal (demo_open 7) demo_mls_ctx (demo_mls_at (fun _ => 7) 3)).1 with Ok b => b | Throw _ => [] end.

Definition mls_events : list MlsEvent :=
  [demo_mls_set_epoch 3 0; ResumeMls 0; CallMls (CallUnseal demo_mls_frame demo_mls_ctx); NewBuffer (demo_bytes 32 8);
   demo_mls_set_epoch 4 1; ResumeMls 2; ResumeMls 1; CallMls (CallGetEpoch "room")].

Lemma mls_interleavings_safe_witness :
  exists pt, Message (demo_open 7) = Message pt /\
    unsealed_ok (H := toy) (ml_given (demo_mls_run mls_events)) AES_128_GCM_SHA256 "room" demo_mls_frame pt.
Proof.
  assert (Forall (distinct_ids) mls_events) as Hids.
  { repeat constructor; apply (bool_decide_unpack _); vm_compute; exact I. }
  destruct (mls_interleavings_safe (H := toy) (demo_mls (fun _ => 7)) mls_events eq_refl (windows_ok_new _ _ _ _ _ (Zle_bool_imp_le 0 2 eq_refl)) Hids)
    as [_ Hc].
  apply (Hc 1%nat (CallUnseal demo_mls_frame demo_mls_ctx) (Message (demo_open 7))).
  apply settled_call; vm_compute; reflexivity.
Defined.

(** What overlapping calls do to each other. Of two calls of [setEpoch] for a room the derivation
    that ends last decides, so that the room can go back to the epoch that was given first; a
    [setEpoch] under way brings the epoch of a room back after [clearEpoch] has cleared it; and two
    calls of [unseal] on the same bytes both deliver, when the second passes its replay test before
    the first has decrypted. *)
Theorem mls_calls_interfere :
  (let l := demo_mls_run [NewBuffer (demo_bytes 32 8); demo_mls_set_epoch 3 0; demo_mls_set_epoch 4 1;
     ResumeMls 1; CallMls (CallGetEpoch "room"); ResumeMls 0; CallMls (CallGetEpoch "room")] in
   settled_value 2 l = Some (EpochOf (Some 4)) /\ settled_value 3 l = Some (EpochOf (Some 3))) /\
  (let l := demo_mls_run [demo_mls_set_epoch 3 0; CallMls (CallClearEpoch "room"); CallMls (CallGetEpoch "room");
     ResumeMls 0; CallMls (CallGetEpoch "room")] in
   settled_value 1 l = Some NoValue /\ settled_value 2 l = Some (EpochOf None) /\
   settled_value 3 l = Some (EpochOf (Some 3))) /\
  (let l := demo_mls_run [demo_mls_set_epoch 3 0; ResumeMls 0; CallMls (CallUnseal demo_mls_frame demo_mls_ctx);
     CallMls (CallUnseal demo_mls_frame demo_mls_ctx); ResumeMls 1; ResumeMls 2;
     CallMls (CallUnseal demo_mls_frame demo_mls_ctx)] in
   settled_value 1 l = Some (Message (demo_open 7)) /\ settled_value 2 l = Some (Message (demo_open 7)) /\
   settled_value 3 l = None).
Proof. vm_compute. done. Qed.
