(* ===== verification/WorkerTypes.v ===== *)
(** * WorkerTypes: the messages and the state of the encoded-frame worker
    (src/worker-types.ts, src/metrics.ts)

    [WorkerState] has the fields of the source. [World] is the state together with what the
    worker reaches outside of it: the encoded frames (objects with a mutable [data], named by
    their identity), the clock, IndexedDB, and what it has sent: messages posted and frames
    enqueued on the writable side. [emit] posts a message and does not throw. The human-readable
    [detail] of a message is left out; that of an error message is the error. Integers that JavaScript computes as numbers are [Z];
    a size or tolerance that a message carries is a [jsnum]. *)
From S2P Require Import Prelude Errors Internal Header Kid WebCrypto Toy Crypto SFrame Codec Replay.
From S2P Require Durable.

Inductive Role := sender | receiver.
Inductive Side := side_encode | side_decode.

#[export] Instance Role_eq_dec : EqDecision Role.
Proof. solve_decision. Defined.
#[export] Instance Side_eq_dec : EqDecision Side.
Proof. solve_decision. Defined.

(** Telemetry; the reasons of [queue_drop] are strings of the source. *)
Inductive MetricsEvent : Type :=
| m_encrypt (epoch peerIndex : Z) (bytes : nat) (codec : option Codec)
| m_decrypt (epoch peerIndex : Z) (bytes : nat)
| m_decrypt_fail (code : string) (epoch peerIndex : option Z)
| m_ratchet_retry (epoch peerIndex steps : Z) (succeeded : bool)
| m_queue_drop (reason : string) (epoch : option Z)
| m_replay_drop (epoch peerIndex : Z) (ctr : string)
| m_key_invalidated (epoch peerIndex failures : Z)
| m_epoch_advance (from to : Z)
| m_encode_drop (code : string).

Inductive OutMsg : Type :=
| o_ready
| o_metrics (event : MetricsEvent)
| o_decrypt_failure (reason : string) (kid epoch peerIndex ctr : option Z)
| o_encrypt_failure (reason : string)
| o_epoch_applied (epoch : Z)
| o_decrypt_starved (peerIndex : option Z) (framesDropped sinceMs : Z)
| o_error (err : js_error)
| o_spawned.

Definition PRE_EPOCH_QUEUE_CAP : Z := 50.
Definition GRACE_WINDOW_MS : Z := 2000.
Definition STARVE_COALESCE_MS : Z := 1000.

Record FormatGuess := mkGuess {
  prefixLen : nat;
  aadForm : AadForm
}.
#[export] Instance FormatGuess_eq_dec : EqDecision FormatGuess.
Proof. solve_decision. Defined.

(** An [RTCEncodedVideoFrame] or [RTCEncodedAudioFrame]. *)
Record Frame := mkFrame {
  frame_data : bytes;
  frame_type : option string
}.

(** A promise of [ratchetPromises]: its identity and how it settles. *)
Record RatchetPromise := mkPromise {
  promise_id : nat;
  promise_outcome : res bytes
}.

Section Types.
Context `{WebCrypto}.

Record PerSenderKeyBundle := mkBundle {
  b_cryptoKey : CryptoKey;
  b_salt : bytes;
  b_rawKey : bytes
}.

Record EpochEntry := mkEpochEntry {
  ent_epoch : Z;
  ent_selfPeerIndex : Z;
  ent_keys : gmap Z SenderKey;
  ratchetSteps : gmap Z Z
}.

Record WorkerState := mkWorkerState {
  role : option Role;
  ws_peerId : option string;
  selfPeerIndex : option Z;
  suite : CipherSuite;
  kidCodec : KidCodec;
  epochs : gmap Z EpochEntry;
  currentEpoch : Z;
  currentMinValidEpoch : Z;
  ws_ctr : Z;
  wipeTimers : gmap Z Z;
  preEpochQueue : list nat;
  draining : bool;
  pendingDrain : bool;
  ws_codec : option Codec;
  sifTrailer : option bytes;
  ratchetWindowSize : Z;
  replayWindowSize : Z;
  replayWindows : gmap Z (gmap Z SlidingReplayWindow);
  metricsEnabled : bool;
  preEpochQueueCap : Z;
  starveActive : bool;
  starveSinceMs : Z;
  starveFramesDropped : Z;
  starveLastEmitMs : Z;
  starvePeerIndex : option Z;
  failureCounts : gmap string Z;
  failureTolerance : Z;
  ratchetPromises : gmap string RatchetPromise;
  formatCache : gmap Z (gmap Z FormatGuess);
  encryptStarveActive : bool;
  encryptStarveSinceMs : Z;
  encryptStarveFramesDropped : Z;
  encryptStarveLastEmitMs : Z;
  durableReplay : option Durable.DurableReplayGuard
}.

Record World := mkWorld {
  ws : WorkerState;
  frames : gmap nat Frame;
  clock : Z;
  env : Durable.Idb;
  next_promise : nat;
  pipes : list Side;
  posted : list OutMsg;
  enqueued : list nat
}.

(** Messages from the main thread; the streams of a [streams] message are a pipe on [side]. *)
Inductive InMsg : Type :=
| InitMsg (role : Role) (peerId : string) (peerIndex : Z) (suite : option CipherSuite)
    (preEpochQueueCap : option jsnum) (kidFormat : option KidFormat)
    (mlsConfig : option MlsKidConfig) (durableReplay : bool)
    (durableReplayNamespace : option string) (durableReplayWindow : option jsnum)
| EpochMsg (epoch selfPeerIndex : Z) (keys : list (Z * PerSenderKeyBundle))
| RotateMsg (newEpoch selfPeerIndex : Z) (keys : list (Z * PerSenderKeyBundle))
| StreamsMsg (side : Side) (codec : option Codec)
| SetSifTrailerMsg (trailer : option bytes)
| SetRatchetWindowMsg (size : jsnum)
| SetMetricsEnabledMsg (enabled : bool)
| SetReplayWindowMsg (size : jsnum)
| SetFailureToleranceMsg (tolerance : jsnum)
| TeardownMsg.

#[export] Instance eta_epoch_entry : Eta EpochEntry := fun r =>
  mkEpochEntry (ent_epoch r) (ent_selfPeerIndex r) (ent_keys r) (ratchetSteps r).

#[export] Instance eta_worker_state : Eta WorkerState := fun r =>
  mkWorkerState (role r) (ws_peerId r) (selfPeerIndex r) (suite r) (kidCodec r) (epochs r)
    (currentEpoch r) (currentMinValidEpoch r) (ws_ctr r) (wipeTimers r) (preEpochQueue r)
    (draining r) (pendingDrain r) (ws_codec r) (sifTrailer r) (ratchetWindowSize r)
    (replayWindowSize r) (replayWindows r) (metricsEnabled r) (preEpochQueueCap r)
    (starveActive r) (starveSinceMs r) (starveFramesDropped r) (starveLastEmitMs r)
    (starvePeerIndex r) (failureCounts r) (failureTolerance r) (ratchetPromises r)
    (formatCache r) (encryptStarveActive r) (encryptStarveSinceMs r)
    (encryptStarveFramesDropped r) (encryptStarveLastEmitMs r) (durableReplay r).

#[export] Instance eta_world : Eta World := fun r =>
  mkWorld (ws r) (frames r) (clock r) (env r) (next_promise r) (pipes r) (posted r) (enqueued r).

End Types.

(** Computations of the worker. *)
Abbreviation W := (M World js_error).

Section Primitives.
Context `{WebCrypto}.

Definition getw {A} (f : WorkerState -> A) : W A := gets (fun w => f (ws w)).
Definition setw (f : WorkerState -> WorkerState) : W unit := modify (fun w => w <| ws ::= f |>).

Definition liftr {A} (r : res A) : W A := lift r.

(** [state.emit(msg)] *)
Definition emit (msg : OutMsg) : W unit := modify (fun w => w <| posted ::= fun l => l ++ [msg] |>).

Definition now : W Z := gets clock.

Definition emitMetric (event : MetricsEvent) : W unit :=
  on ← getw metricsEnabled;
  if on : bool then emit (o_metrics event) else mret tt.

(** [frame.data] and its assignment. *)
Definition frame_of (fid : nat) : W Frame :=
  gets (fun w => default (mkFrame [] None) (frames w !! fid)).
Definition set_frame_data (fid : nat) (data : bytes) : W unit :=
  modify (fun w => w <| frames ::= alter (fun f => mkFrame data (frame_type f)) fid |>).

(** An operation of the durable guard, when there is one. *)
Definition with_guard {A} (dflt : A) (m : Durable.DM A) : W A := fun w =>
  match durableReplay (ws w) with
  | None => (Ok dflt, w)
  | Some g =>
      let '(r, (g', e')) := m (g, env w) in
      (r, w <| ws ::= fun s => s <| durableReplay := Some g' |> |> <| env := e' |>)
  end.

(** [state.durableReplay?.available] *)
Definition durable_available : W bool :=
  g ← getw durableReplay;
  mret (match g with Some g => Durable.available g | None => false end).

End Primitives.
