(* ===== verification/WorkerState.v ===== *)
(** * WorkerState: epoch and key-table bookkeeping (src/worker-state.ts, except handleMessage)

    Timers: [wipeTimers] maps an epoch to the time at which its [setTimeout] is due. The clear of
    the durable guard that [wipeEpoch] does not await runs at once. *)
From S2P Require Import Prelude Errors Internal Header Kid WebCrypto Toy Crypto SFrame Codec Replay.
From S2P Require Import WorkerTypes.
From S2P Require Durable.

Section WorkerState.
Context `{WebCrypto}.

Definition createWorkerState : WorkerState := {|
  role := None;
  ws_peerId := None;
  selfPeerIndex := None;
  suite := DEFAULT_CIPHER_SUITE;
  kidCodec := FIXED_KID_CODEC;
  epochs := ∅;
  currentEpoch := -1;
  currentMinValidEpoch := 0;
  ws_ctr := 0;
  wipeTimers := ∅;
  preEpochQueue := [];
  draining := false;
  pendingDrain := false;
  ws_codec := None;
  sifTrailer := None;
  ratchetWindowSize := 8;
  replayWindowSize := 64;
  replayWindows := ∅;
  metricsEnabled := false;
  preEpochQueueCap := PRE_EPOCH_QUEUE_CAP;
  starveActive := false;
  starveSinceMs := 0;
  starveFramesDropped := 0;
  starveLastEmitMs := 0;
  starvePeerIndex := None;
  failureCounts := ∅;
  failureTolerance := -1;
  ratchetPromises := ∅;
  formatCache := ∅;
  encryptStarveActive := false;
  encryptStarveSinceMs := 0;
  encryptStarveFramesDropped := 0;
  encryptStarveLastEmitMs := 0;
  durableReplay := None
|}.

(** [`${epoch}:${peerIndex}`] and [`${epoch}|${peerIndex}`] *)
Definition failureKey (epoch peerIndex : Z) : string := pretty epoch +:+ ":" +:+ pretty peerIndex.
Definition durableReplayKey (epoch peerIndex : Z) : string :=
  pretty epoch +:+ "|" +:+ pretty peerIndex.

Definition failure_count (s : WorkerState) (epoch peerIndex : Z) : Z :=
  default 0 (failureCounts s !! failureKey epoch peerIndex).

Definition isKeyInvalid (s : WorkerState) (epoch peerIndex : Z) : bool :=
  if failureTolerance s <? 0 then false
  else failureTolerance s <? failure_count s epoch peerIndex.

Definition recordFailure (epoch peerIndex : Z) : W unit :=
  tol ← getw failureTolerance;
  if tol <? 0 then mret tt else
  let key := failureKey epoch peerIndex in
  prev ← getw (fun s => failure_count s epoch peerIndex);
  let next := prev + 1 in
  setw (fun s => s <| failureCounts ::= <[key := next]> |>);;
  if (prev <=? tol) && (tol <? next)
  then emitMetric (m_key_invalidated epoch peerIndex next)
  else mret tt.

Definition recordSuccess (epoch peerIndex : Z) : W unit :=
  tol ← getw failureTolerance;
  if tol <? 0 then mret tt
  else setw (fun s => s <| failureCounts ::= <[failureKey epoch peerIndex := 0]> |>).

Definition resetFailureCount (epoch peerIndex : Z) : W unit :=
  setw (fun s => s <| failureCounts ::= delete (failureKey epoch peerIndex) |>).

(** The key table of an epoch, built bundle by bundle. *)
Fixpoint build_keys (codec : KidCodec) (epoch : Z) (bundles : list (Z * PerSenderKeyBundle))
    (keys : gmap Z SenderKey) : res (gmap Z SenderKey) :=
  match bundles with
  | [] => Ok keys
  | (pi, bundle) :: bundles =>
      kid ← encode codec epoch pi;
      build_keys codec epoch bundles
        (<[pi := mkSenderKey (mkSFrameKey kid epoch pi (b_cryptoKey bundle) (b_salt bundle))
                   (b_rawKey bundle)]> keys)
  end.

Fixpoint reset_failures (epoch : Z) (pis : list Z) : W unit :=
  match pis with
  | [] => mret tt
  | pi :: pis => resetFailureCount epoch pi;; reset_failures epoch pis
  end.

(** Every installed epoch below [newEpoch] that has no timer yet gets one. *)
Definition scheduleWipeOfEpochsBelow (newEpoch : Z) : W unit :=
  t ← now;
  setw (fun s => s <| wipeTimers ::= fun timers =>
    timers ∪ ((fun _ => t + GRACE_WINDOW_MS) <$> filter (fun e => e.1 < newEpoch) (epochs s)) |>).

Definition installEpoch (epoch selfIndex : Z) (bundles : list (Z * PerSenderKeyBundle)) : W unit :=
  codec ← getw kidCodec;
  keys ← liftr (build_keys codec epoch bundles ∅);
  setw (fun s => s <| epochs ::= <[epoch := mkEpochEntry epoch selfIndex keys ∅]> |>);;
  reset_failures epoch bundles.*1;;
  prevEpoch ← getw currentEpoch;
  if prevEpoch <? epoch then
    setw (fun s => s <| currentEpoch := epoch |> <| selfPeerIndex := Some selfIndex |>
                     <| ws_ctr := 0 |>);;
    scheduleWipeOfEpochsBelow epoch;;
    emit (o_epoch_applied epoch);;
    if 0 <=? prevEpoch then emitMetric (m_epoch_advance prevEpoch epoch) else mret tt
  else mret tt.

Definition zeroize_entry (entry : EpochEntry) : EpochEntry :=
  entry <| ent_keys ::= fmap (fun k : SenderKey => mkSenderKey (sframe_key k) (zeroize (rawKey k))) |>.

Fixpoint clear_durable (epoch : Z) (peers : list Z) : W unit :=
  match peers with
  | [] => mret tt
  | pi :: peers =>
      with_guard tt (Durable.clear (durableReplayKey epoch pi));; clear_durable epoch peers
  end.

Definition wipeEpoch (epoch : Z) : W unit :=
  entry ← getw (fun s => epochs s !! epoch);
  setw (fun s => s <| epochs ::= alter zeroize_entry epoch |>);;
  setw (fun s => s <| epochs ::= delete epoch |> <| wipeTimers ::= delete epoch |>
                   <| replayWindows ::= delete epoch |> <| formatCache ::= delete epoch |>);;
  avail ← durable_available;
  match entry with
  | Some entry => if avail : bool then clear_durable epoch (map_to_list (ent_keys entry)).*1
                  else mret tt
  | None => mret tt
  end;;
  let nextValid := epoch + 1 in
  setw (fun s => if currentMinValidEpoch s <? nextValid
                 then s <| currentMinValidEpoch := nextValid |> else s).

Definition teardown : W unit :=
  setw (fun s =>
    s <| wipeTimers := ∅ |> <| epochs := ∅ |> <| replayWindows := ∅ |> <| formatCache := ∅ |>
      <| preEpochQueue := [] |> <| ws_ctr := 0 |> <| currentEpoch := -1 |>
      <| currentMinValidEpoch := 0 |> <| selfPeerIndex := None |> <| failureCounts := ∅ |>
      <| ratchetPromises := ∅ |> <| encryptStarveActive := false |>
      <| encryptStarveSinceMs := 0 |> <| encryptStarveFramesDropped := 0 |>
      <| encryptStarveLastEmitMs := 0 |> <| durableReplay := None |>).

(** A timer of [wipeTimers] runs when the clock has reached it. *)
Definition fireWipeTimer (epoch : Z) : W unit :=
  timer ← getw (fun s => wipeTimers s !! epoch);
  t ← now;
  match timer with
  | Some due => if due <=? t then wipeEpoch epoch else mret tt
  | None => mret tt
  end.

(** A worker just started, in a browser whose storage works. *)
Definition initial_world : World := {|
  ws := createWorkerState;
  frames := ∅;
  clock := 0;
  env := Durable.example_env;
  next_promise := 0;
  pipes := [];
  posted := [o_spawned];
  enqueued := []
|}.

End WorkerState.
