(* ===== verification/WorkerFrame.v ===== *)
(** * WorkerFrame: the frame pipeline (src/worker-frame.ts)

    Every definition runs to its end before another handler of the worker starts: an [await]
    continues with the settled value. Blocks that the source repeats word for word in
    [decodeFrame] and [drainPreEpochQueue] (format resolution, the replay and invalid-key
    notices, opening, accepting, reassembling, delivering) are one definition each. *)
From S2P Require Import Prelude Errors Internal Header Kid WebCrypto Toy Crypto SFrame Codec Replay.
From S2P Require Import WorkerTypes WorkerState.
From S2P Require Durable.

Section WorkerFrame.
Context `{WebCrypto}.

(** ** Replay windows and format cache *)

Definition getReplayWindow (epoch peerIndex : Z) : W SlidingReplayWindow :=
  size ← getw replayWindowSize;
  r ← getw (fun s => getOrCreateNested (replayWindows s) epoch peerIndex (newReplayWindow size));
  setw (fun s => s <| replayWindows := r.2 |>);;
  mret r.1.

(** [replayWindow.accept(ctr)] on the object held by the map. *)
Definition acceptReplay (epoch peerIndex ctr : Z) : W unit :=
  setw (fun s => s <| replayWindows ::=
    alter (alter (fun win => Replay.accept win ctr) peerIndex) epoch |>).

Definition formatCandidates (codec : option Codec) (frameKind : option FrameKind)
    : list FormatGuess :=
  if bool_decide (codec = Some vp9 \/ codec = Some av1) then
    [mkGuess 0 aad_header; mkGuess 1 aad_canonical; mkGuess 1 aad_prefix; mkGuess 1 aad_header]
  else
    let N := getUnencryptedBytes codec frameKind in
    if (N =? 0)%nat then [mkGuess 0 aad_header; mkGuess 0 aad_canonical]
    else [mkGuess N aad_header; mkGuess N aad_canonical; mkGuess N aad_prefix].

Definition getFormatCache (s : WorkerState) (epoch peerIndex : Z) : option FormatGuess :=
  formatCache s !! epoch ≫= fun inner => inner !! peerIndex.

Definition setFormatCache (epoch peerIndex : Z) (guess : FormatGuess) : W unit :=
  setw (fun s => s <| formatCache ::= fun m =>
    <[epoch := <[peerIndex := guess]> (default ∅ (m !! epoch))]> m |>).

Definition deleteFormatCache (epoch peerIndex : Z) : W unit :=
  setw (fun s => s <| formatCache ::= alter (delete peerIndex) epoch |>).

(** [state.epochs.get(e)?.keys.get(pi)] *)
Definition lookup_key (s : WorkerState) (epoch peerIndex : Z) : option SenderKey :=
  epochs s !! epoch ≫= fun entry => ent_keys entry !! peerIndex.

(** ** Probing the wire format *)

Record Probed := mkProbed {
  pr_guess : FormatGuess;
  pr_plaintext : bytes;
  pr_epoch : Z;
  pr_peerIndex : Z;
  pr_ctr : Z;
  pr_kid : Z
}.

(** [prefixLen > 0 ? payload.subarray(0, prefixLen) : undefined] *)
Definition prefix_arg (prefixLen : nat) (payload : bytes) : option bytes :=
  if (0 <? prefixLen)%nat then Some (take prefixLen payload) else None.

(** One candidate: [None] where the loop continues. *)
Definition probe_one (s : WorkerState) (payload : bytes) (guess : FormatGuess)
    : res (option Probed) :=
  let buf := drop (prefixLen guess) payload in
  if (length buf <? 1)%nat then Ok None else
  match parseHeader buf with
  | Throw _ => Ok None
  | Ok hdr =>
      if (length buf <? bodyOffset hdr + 16)%nat then Ok None else
      '(epoch, peerIndex) ← decode (kidCodec s) (kid hdr);
      match lookup_key s epoch peerIndex with
      | None => Ok None
      | Some key =>
          match sframeDecrypt buf (fun _ => Some (sframe_key key))
                  (mkMeta (Some (kidCodec s)) (prefix_arg (prefixLen guess) payload)
                     (Some (aadForm guess))) with
          | Ok plaintext =>
              Ok (Some (mkProbed guess plaintext epoch peerIndex (Header.ctr hdr) (kid hdr)))
          | Throw _ => Ok None
          end
      end
  end.

Fixpoint probe_loop (s : WorkerState) (payload : bytes) (candidates : list FormatGuess)
    : res (option Probed) :=
  match candidates with
  | [] => Ok None
  | guess :: candidates =>
      r ← probe_one s payload guess;
      match r with
      | Some p => Ok (Some p)
      | None => probe_loop s payload candidates
      end
  end.

Definition probeFormat (s : WorkerState) (payload : bytes) (codec : option Codec)
    (frameKind : option FrameKind) : res (option Probed) :=
  probe_loop s payload (formatCandidates codec frameKind).

Definition codec_prefix_len (s : WorkerState) (payload : bytes) (frameKind : option FrameKind) : nat :=
  Nat.min (getUnencryptedBytes (ws_codec s) frameKind) (length payload).

(** The cached guess for the sender that the header at [codecN] names. *)
Definition cachedFormat (s : WorkerState) (payload : bytes) (codecN : nat) : option FormatGuess :=
  if (codecN <? length payload)%nat then
    match (tHdr ← parseHeader (drop codecN payload); decode (kidCodec s) (kid tHdr)) with
    | Ok (tEpoch, tPeer) => getFormatCache s tEpoch tPeer
    | Throw _ => None
    end
  else None.

(** The format of a frame, and the probe's result when the probe found it. *)
Definition resolveFormat (s : WorkerState) (payload : bytes) (frameKind : option FrameKind)
    : res (FormatGuess * option Probed) :=
  let codecN := codec_prefix_len s payload frameKind in
  match cachedFormat s payload codecN with
  | Some cached => Ok (cached, None)
  | None =>
      probed ← probeFormat s payload (ws_codec s) frameKind;
      match probed with
      | Some p => Ok (pr_guess p, Some p)
      | None => Ok (mkGuess codecN aad_header, None)
      end
  end.

(** ** Starvation signals *)

Definition noteEncryptDrop (reason : string) : W unit :=
  t ← now;
  active ← getw encryptStarveActive;
  if negb active then
    setw (fun s => s <| encryptStarveActive := true |> <| encryptStarveSinceMs := t |>
                     <| encryptStarveFramesDropped := 1 |> <| encryptStarveLastEmitMs := t |>);;
    emit (o_encrypt_failure reason)
  else
    setw (fun s => s <| encryptStarveFramesDropped ::= fun n => n + 1 |>);;
    last ← getw encryptStarveLastEmitMs;
    if STARVE_COALESCE_MS <=? t - last then
      setw (fun s => s <| encryptStarveLastEmitMs := t |>);;
      emit (o_encrypt_failure reason)
    else mret tt.

Definition clearEncryptStarve : W unit :=
  active ← getw encryptStarveActive;
  if negb active then mret tt else
  setw (fun s => s <| encryptStarveActive := false |> <| encryptStarveSinceMs := 0 |>
                   <| encryptStarveFramesDropped := 0 |> <| encryptStarveLastEmitMs := 0 |>).

Definition noteStarveDrop (peerIndex : option Z) : W unit :=
  t ← now;
  active ← getw starveActive;
  if negb active then
    setw (fun s => s <| starveActive := true |> <| starveSinceMs := t |>
                     <| starveFramesDropped := 1 |> <| starveLastEmitMs := t |>
                     <| starvePeerIndex := peerIndex |>);;
    emit (o_decrypt_starved peerIndex 1 0)
  else
    setw (fun s => s <| starveFramesDropped ::= fun n => n + 1 |>);;
    match peerIndex with
    | Some _ => setw (fun s => s <| starvePeerIndex := peerIndex |>)
    | None => mret tt
    end;;
    last ← getw starveLastEmitMs;
    if STARVE_COALESCE_MS <=? t - last then
      setw (fun s => s <| starveLastEmitMs := t |>);;
      s ← getw id;
      emit (o_decrypt_starved (starvePeerIndex s) (starveFramesDropped s) (t - starveSinceMs s))
    else mret tt.

Definition clearStarve : W unit :=
  active ← getw starveActive;
  if negb active then mret tt else
  setw (fun s => s <| starveActive := false |> <| starveSinceMs := 0 |>
                   <| starveFramesDropped := 0 |> <| starveLastEmitMs := 0 |>
                   <| starvePeerIndex := None |>).

(** ** The pre-epoch queue *)

Definition pushToQueue (fid : nat) (peerIndex : option Z) : W unit :=
  s ← getw id;
  (if preEpochQueueCap s <=? Z.of_nat (length (preEpochQueue s)) then
     setw (fun s => s <| preEpochQueue ::= (fun q => removelast q) |>);;
     emit (o_decrypt_failure "queue_overflow" None None None None);;
     emitMetric (m_queue_drop "pre_epoch_full" None);;
     noteStarveDrop peerIndex
   else mret tt);;
  setw (fun s => s <| preEpochQueue ::= fun q => q ++ [fid] |>).

Definition enqueuePreEpoch (fid : nat) (peerIndex : option Z) : W unit := pushToQueue fid peerIndex.

(** ** Sending *)

Definition encodeFrame (fid : nat) (frameKind : option FrameKind) : W unit :=
  s ← getw id;
  match epochs s !! currentEpoch s with
  | None => throw (GenericError "worker: no active send epoch")
  | Some entry =>
      match (ent_keys entry !! ent_selfPeerIndex entry : option SenderKey) with
      | None => throw (GenericError "worker: no self key in current epoch")
      | Some key =>
          let ctr := ws_ctr s in
          setw (fun s => s <| ws_ctr := ctr + 1 |>);;
          frame ← frame_of fid;
          let plaintext := frame_data frame in
          let N := Nat.min (getUnencryptedBytes (ws_codec s) frameKind) (length plaintext) in
          let prefix := take N plaintext in
          let body := drop N plaintext in
          header ← liftr (serializeHeader (JsInt (key_kid key)) ctr);
          let trailer := sifTrailer s in
          let trailerLen := match trailer with Some t => length t | None => 0%nat end in
          let wire := zeros (N + length header + length body + 16 + trailerLen) in
          wire ← liftr (if (0 <? N)%nat then u8_set wire 0 prefix else Ok wire);
          '(written, wire) ← liftr (sframeEncryptInto wire N header body key ctr None aad_header);
          wire ← liftr (match trailer with
                       | Some t => u8_set wire (N + written) t
                       | None => Ok wire
                       end);
          set_frame_data fid wire;;
          emitMetric (m_encrypt (key_epoch key) (key_peerIndex key) (length plaintext) (ws_codec s));;
          clearEncryptStarve
      end
  end.

(** ** Ratchet retry *)

(** [({ epoch: e, peerIndex: pi }) => state.epochs.get(e)?.keys.get(pi) ?? null] *)
Definition state_resolver (s : WorkerState) (lk : SFrameKeyLookup) : option SFrameKey :=
  sframe_key <$> lookup_key s (lk_epoch lk) (lk_peerIndex lk).

(** Step 0: the key currently cached. *)
Definition decrypt_step0 (buf : bytes) (aadPrefix : option bytes) (form : AadForm) : W bytes :=
  s ← getw id;
  liftr (sframeDecrypt buf (state_resolver s) (mkMeta (Some (kidCodec s)) aadPrefix (Some form))).

(** [entry.keys.set(peerIndex, next); entry.ratchetSteps.set(peerIndex, ... + step)] *)
Definition advance_key (epoch peerIndex : Z) (next : SenderKey) (step : Z) : W unit :=
  setw (fun s => s <| epochs ::= alter (fun entry =>
    entry <| ent_keys ::= <[peerIndex := next]> |>
          <| ratchetSteps ::= fun m => <[peerIndex := default 0 (m !! peerIndex) + step]> m |>)
    epoch |>).

(** The loop over the steps, [todo] of them to go, [step] the next one. *)
Fixpoint retry_steps (todo : nat) (step : Z) (buf : bytes) (epoch peerIndex : Z)
    (aadPrefix : option bytes) (form : AadForm) (currentRaw salt : bytes) : W bytes :=
  s ← getw id;
  match todo with
  | O =>
      emitMetric (m_ratchet_retry epoch peerIndex (ratchetWindowSize s) false);;
      throw (RatchetWindowExhaustedError epoch peerIndex (ratchetWindowSize s))
  | S todo =>
      next ← liftr (deriveNextSenderKey currentRaw salt epoch peerIndex (suite s) (kidCodec s));
      match sframeDecrypt buf
              (fun lk => if (lk_epoch lk =? epoch) && (lk_peerIndex lk =? peerIndex)
                         then Some (sframe_key next) else state_resolver s lk)
              (mkMeta (Some (kidCodec s)) aadPrefix (Some form)) with
      | Ok plaintext =>
          advance_key epoch peerIndex next step;;
          emitMetric (m_ratchet_retry epoch peerIndex step true);;
          mret plaintext
      | Throw _ =>
          retry_steps todo (step + 1) buf epoch peerIndex aadPrefix form (rawKey next) salt
      end
  end.

Definition retryLoop (buf : bytes) (epoch peerIndex : Z) (aadPrefix : option bytes)
    (form : AadForm) : W bytes :=
  s ← getw id;
  match lookup_key s epoch peerIndex with
  | None =>
      throw (KeyNotFoundError (mkErrorContext None (Some epoch) (Some peerIndex) None))
  | Some currentKey =>
      retry_steps (Z.to_nat (ratchetWindowSize s)) 1 buf epoch peerIndex aadPrefix form
        (rawKey currentKey) (salt currentKey)
  end.

(** Run the loop under a promise of [ratchetPromises], which the [finally] block removes. *)
Definition runRetryLoop (dedupKey : string) (loop : W bytes) : W bytes :=
  outcome ← attempt loop;
  id ← gets next_promise;
  modify (fun w => w <| next_promise := S id |>);;
  setw (fun s => s <| ratchetPromises ::= <[dedupKey := mkPromise id outcome]> |>);;
  setw (fun s => s <| ratchetPromises ::= delete dedupKey |>);;
  liftr outcome.

(** Continue with [k] unless a value is there already. *)
Definition or_else {A} (r : option A) (k : W A) : W A :=
  match r with Some a => mret a | None => k end.

Definition tryDecryptWithRatchet (buf : bytes) (epoch peerIndex : Z) (aadPrefix : option bytes)
    (form : AadForm) : W bytes :=
  s ← getw id;
  match epochs s !! epoch with
  | None => throw (KeyNotFoundError (mkErrorContext None (Some epoch) (Some peerIndex) None))
  | Some entry =>
  match ent_keys entry !! peerIndex with
  | None => throw (KeyNotFoundError (mkErrorContext None (Some epoch) (Some peerIndex) None))
  | Some _ =>
      step0 ← attempt (decrypt_step0 buf aadPrefix form);
      match step0 with
      | Ok plaintext => mret plaintext
      | Throw firstError =>
          if ratchetWindowSize s =? 0 then throw firstError else
          let dedupKey := failureKey epoch peerIndex in
          inFlight ← getw (fun s => ratchetPromises s !! dedupKey);
          first ← match inFlight with
                  | Some {| promise_outcome := Ok _ |} =>
                      again ← attempt (decrypt_step0 buf aadPrefix form);
                      mret (result_option again)
                  | _ => mret None
                  end;
          or_else first (
            afterAwait ← getw (fun s => ratchetPromises s !! dedupKey);
            let second :=
              match afterAwait with
              | Some p =>
                  if bool_decide (promise_id <$> afterAwait = promise_id <$> inFlight) then None
                  else result_option (promise_outcome p)
              | None => None
              end in
            or_else second
              (runRetryLoop dedupKey (retryLoop buf epoch peerIndex aadPrefix form)))
      end
  end
  end.

(** ** Blocks shared by decodeFrame and drainPreEpochQueue *)

Definition note_replay (hdr : SFrameHeader) (epoch peerIndex : Z) : W unit :=
  emit (o_decrypt_failure "replay" (Some (kid hdr)) (Some epoch) (Some peerIndex)
          (Some (Header.ctr hdr)));;
  emitMetric (m_queue_drop "replay" (Some epoch));;
  emitMetric (m_replay_drop epoch peerIndex (pretty (Header.ctr hdr))).

Definition note_key_invalid (hdr : SFrameHeader) (epoch peerIndex : Z) : W unit :=
  emit (o_decrypt_failure "key_invalid" (Some (kid hdr)) (Some epoch) (Some peerIndex)
          (Some (Header.ctr hdr)));;
  emitMetric (m_decrypt_fail "KEY_INVALID" (Some epoch) (Some peerIndex)).

(** The durable check, [true] when there is no available guard. *)
Definition durable_check (epoch peerIndex ctr : Z) : W bool :=
  avail ← durable_available;
  if avail : bool then with_guard true (Durable.check (durableReplayKey epoch peerIndex) ctr)
  else mret true.

Definition durable_accept (epoch peerIndex ctr : Z) : W unit :=
  avail ← durable_available;
  if avail : bool then with_guard tt (Durable.accept (durableReplayKey epoch peerIndex) ctr)
  else mret tt.

Definition openFrame (payload : bytes) (guess : FormatGuess) (probed : option Probed)
    (epoch peerIndex : Z) : W bytes :=
  match probed with
  | Some p => setFormatCache epoch peerIndex guess;; mret (pr_plaintext p)
  | None =>
      opened ← tryDecryptWithRatchet (drop (prefixLen guess) payload) epoch peerIndex
                 (prefix_arg (prefixLen guess) payload) (aadForm guess);
      setFormatCache epoch peerIndex guess;;
      mret opened
  end.

Definition acceptFrame (epoch peerIndex ctr : Z) : W unit :=
  acceptReplay epoch peerIndex ctr;;
  durable_accept epoch peerIndex ctr;;
  recordSuccess epoch peerIndex.

(** [unencrypted prefix][decrypted plaintext] *)
Definition reassemble (payload : bytes) (guess : FormatGuess) (opened : bytes) : res bytes :=
  out ← u8_set (zeros (prefixLen guess + length opened)) 0 (take (prefixLen guess) payload);
  u8_set out (prefixLen guess) opened.

(** Decrypt, accept and write the plaintext into the frame; the size of the plaintext. *)
Definition deliver (fid : nat) (payload : bytes) (guess : FormatGuess) (probed : option Probed)
    (hdr : SFrameHeader) (epoch peerIndex : Z) : W nat :=
  opened ← openFrame payload guess probed epoch peerIndex;
  acceptFrame epoch peerIndex (Header.ctr hdr);;
  plaintext ← liftr (reassemble payload guess opened);
  set_frame_data fid plaintext;;
  clearStarve;;
  mret (length plaintext).

(** ** Receiving *)

(** The variables declared before the [try] block. *)
Record HdrLocals := mkLocals {
  hdrKid : Z;
  hdrEpoch : Z;
  hdrPeerIndex : Z;
  hdrCtr : Z
}.

Abbreviation D := (M (HdrLocals * World) js_error).

Definition inW {A} (m : W A) : D A := fun lw =>
  let '(r, w') := m lw.2 in (r, (lw.1, w')).

Definition liftd {A} (r : res A) : D A := lift r.

Definition set_locals (l : HdrLocals) : D unit := modify (fun lw => (l, lw.2)).

(** The gates of the [try] block, in their order, then decrypt and accept. *)
Definition decode_gates (fid : nat) (payload : bytes) (guess : FormatGuess) (probed : option Probed)
    (hdr : SFrameHeader) (epoch peerIndex : Z) : W unit :=
  s ← getw id;
  if epoch <? currentMinValidEpoch s then
    emit (o_decrypt_failure "stale_epoch" (Some (kid hdr)) (Some epoch) (Some peerIndex)
            (Some (Header.ctr hdr)));;
    emitMetric (m_queue_drop "stale_epoch" (Some epoch));;
    throw (StaleEpochError epoch (currentMinValidEpoch s) (Some (kid hdr)))
  else if currentEpoch s =? -1 then enqueuePreEpoch fid (Some peerIndex)
  else
    replayWindow ← getReplayWindow epoch peerIndex;
    if negb (Replay.check replayWindow (Header.ctr hdr)) then
      note_replay hdr epoch peerIndex;;
      throw (ReplayError epoch peerIndex (Header.ctr hdr))
    else
    durable ← durable_check epoch peerIndex (Header.ctr hdr);
    if negb durable then
      note_replay hdr epoch peerIndex;;
      throw (ReplayError epoch peerIndex (Header.ctr hdr))
    else
    s ← getw id;
    if isKeyInvalid s epoch peerIndex then
      note_key_invalid hdr epoch peerIndex;;
      throw (KeyInvalidError epoch peerIndex (failure_count s epoch peerIndex))
    else
    size ← deliver fid payload guess probed hdr epoch peerIndex;
    emitMetric (m_decrypt epoch peerIndex size).

Definition decode_try (fid : nat) (payload : bytes) (frameKind : option FrameKind) : D unit :=
  s ← inW (getw id);
  '(guess, probed) ← liftd (resolveFormat s payload frameKind);
  match probed with
  | Some p => set_locals (mkLocals (pr_kid p) (pr_epoch p) (pr_peerIndex p) (pr_ctr p))
  | None => mret tt
  end;;
  hdr ← liftd (parseHeader (drop (prefixLen guess) payload));
  '(epoch, peerIndex) ← liftd (decode (kidCodec s) (kid hdr));
  match probed with
  | Some _ => mret tt
  | None => set_locals (mkLocals (kid hdr) epoch peerIndex (Header.ctr hdr))
  end;;
  inW (decode_gates fid payload guess probed hdr epoch peerIndex).

Definition nonneg (z : Z) : option Z := if 0 <=? z then Some z else None.

(** The [catch] block: bookkeeping and notices for [err], before it is thrown again. *)
Definition decode_catch (l : HdrLocals) (err : js_error) : W unit :=
  (if (0 <=? hdrEpoch l) && (0 <=? hdrPeerIndex l) && is_aead_failure err
   then recordFailure (hdrEpoch l) (hdrPeerIndex l) else mret tt);;
  emitMetric (m_decrypt_fail (errCode err) (nonneg (hdrEpoch l)) (nonneg (hdrPeerIndex l)));;
  if negb (is_StaleEpochError err) && negb (is_ReplayError err) && negb (is_KeyInvalidError err)
  then emit (o_decrypt_failure "decrypt_failed" (nonneg (hdrKid l)) (nonneg (hdrEpoch l))
               (nonneg (hdrPeerIndex l)) (Some (hdrCtr l)))
  else mret tt.

Definition initial_locals : HdrLocals := mkLocals (-1) (-1) (-1) 0.

(** The bytes to decrypt, or [None] for a plain frame of a mixed room. *)
Definition stripTrailer (trailer : option bytes) (raw : bytes) : option bytes :=
  match trailer with
  | None => Some raw
  | Some t => if ctEndsWith raw t then Some (take (length raw - length t) raw) else None
  end.

(** [try { ... } catch (err) { ...; throw err; }] with the variables shared by both blocks. *)
Definition decode_guarded (fid : nat) (payload : bytes) (frameKind : option FrameKind) : W unit :=
  fun w =>
    match decode_try fid payload frameKind (initial_locals, w) with
    | (Ok _, (_, w')) => (Ok tt, w')
    | (Throw err, (l, w')) => (decode_catch l err;; throw err : W unit) w'
    end.

Definition decodeFrame (fid : nat) : W unit :=
  frame ← frame_of fid;
  trailer ← getw sifTrailer;
  match stripTrailer trailer (frame_data frame) with
  | None => mret tt
  | Some payload => decode_guarded fid payload (frameKindOf (frame_type frame))
  end.

(** ** Draining the queue *)

Definition drain_try (fid : nat) : W unit :=
  frame ← frame_of fid;
  let raw := frame_data frame in
  s ← getw id;
  '(guess, probed) ← liftr (resolveFormat s raw (frameKindOf (frame_type frame)));
  hdr ← liftr (parseHeader (drop (prefixLen guess) raw));
  '(epoch, peerIndex) ← liftr (decode (kidCodec s) (kid hdr));
  if epoch <? currentMinValidEpoch s then mret tt else
  match lookup_key s epoch peerIndex with
  | None => pushToQueue fid (Some peerIndex)
  | Some _ =>
      replayWindow ← getReplayWindow epoch peerIndex;
      if negb (Replay.check replayWindow (Header.ctr hdr)) then note_replay hdr epoch peerIndex
      else
      durable ← durable_check epoch peerIndex (Header.ctr hdr);
      if negb durable then note_replay hdr epoch peerIndex
      else
      s ← getw id;
      if isKeyInvalid s epoch peerIndex then note_key_invalid hdr epoch peerIndex
      else
      deliver fid raw guess probed hdr epoch peerIndex;;
      mret tt
  end.

Definition drain_catch (err : js_error) : W unit :=
  match failure_context err with
  | Some (epoch, peerIndex) => recordFailure epoch peerIndex
  | None => mret tt
  end;;
  emit (o_decrypt_failure "decrypt_failed_after_epoch" None None None None).

Fixpoint drain_each (pending : list nat) : W unit :=
  match pending with
  | [] => mret tt
  | fid :: pending => catch (drain_try fid) drain_catch;; drain_each pending
  end.

(** [fuel] bounds the trailing re-runs; [drain_fuel] of them are enough. *)
Fixpoint drain_loop (fuel : nat) : W unit :=
  match fuel with
  | O => mret tt
  | S fuel =>
      busy ← getw draining;
      if busy : bool then setw (fun s => s <| pendingDrain := true |>) else
      setw (fun s => s <| draining := true |>);;
      pending ← getw preEpochQueue;
      setw (fun s => s <| preEpochQueue := [] |>);;
      drain_each pending;;
      setw (fun s => s <| draining := false |>);;
      again ← getw pendingDrain;
      if again : bool then setw (fun s => s <| pendingDrain := false |>);; drain_loop fuel
      else mret tt
  end.

Definition drain_fuel : nat := 2.

Definition drainPreEpochQueue : W unit := drain_loop drain_fuel.

(** ** The transform of a pipe *)

Definition no_send_epoch (err : js_error) : bool :=
  match err with
  | GenericError m | RangeError m | TypeError m =>
      bool_decide (m = "worker: no active send epoch"%string)
  | _ => false
  end.

Definition transform (side : Side) (fid : nat) : W unit :=
  frame ← frame_of fid;
  let frameKind := frameKindOf (frame_type frame) in
  r ← attempt (match side with
               | side_encode => encodeFrame fid frameKind
               | side_decode => decodeFrame fid
               end);
  match r with
  | Ok _ => modify (fun w => w <| enqueued ::= fun l => l ++ [fid] |>)
  | Throw err =>
      match side with
      | side_encode =>
          let reason := if no_send_epoch err then "no_epoch"%string else "encode_failed"%string in
          let metricCode := if no_send_epoch err then "NO_EPOCH"%string else errCode err in
          emitMetric (m_encode_drop metricCode);;
          noteEncryptDrop reason
      | side_decode => mret tt
      end
  end.

(** [pipe] attaches the transform to a pair of streams. *)
Definition pipe (side : Side) : W unit := modify (fun w => w <| pipes ::= fun l => l ++ [side] |>).

End WorkerFrame.
