(* ===== verification/Worker.v ===== *)
(** * Worker: the message handler and the worker as a whole (handleMessage of
    src/worker-state.ts, and src/worker.ts)

    [step] is one event of the worker: a message from the main thread, a frame arriving at one
    side of a pipe, a wipe timer, or the passing of time. [run] plays a sequence of events. *)
From S2P Require Import Prelude Errors Internal Header Kid WebCrypto Toy Crypto SFrame Codec Replay.
From S2P Require Import WorkerTypes WorkerState WorkerFrame.
From S2P Require Durable.

Section Worker.
Context `{WebCrypto}.

(** [durableWindow > n] *)
Definition js_gt (x : jsnum) (n : Z) : bool :=
  match x with JsInt z => n <? z | JsFrac f => n <=? f end.

Definition init_durable (on : bool) (ns : option string) (win : option jsnum) : W unit :=
  if on then
    match ns with
    | None => throw (GenericError "worker init: durableReplayNamespace is required")
    | Some ns =>
        if bool_decide (ns = ""%string)
        then throw (GenericError "worker init: durableReplayNamespace is required") else
        size ← getw replayWindowSize;
        let durableWindow := default (JsInt size) win in
        if js_gt durableWindow size
        then throw (GenericError "worker init: durableReplayWindow must be <= replayWindowSize") else
        e ← gets env;
        g ← liftr (Durable.newGuard e ns (Some durableWindow) false);
        setw (fun s => s <| durableReplay := Some g |>)
    end
  else setw (fun s => s <| durableReplay := None |>).

Definition handleMessage (msg : InMsg) : W unit :=
  match msg with
  | InitMsg r pid pi su cap fmt cfg on ns win =>
      setw (fun s => s <| role := Some r |> <| ws_peerId := Some pid |>
                       <| selfPeerIndex := Some pi |>);;
      match su with
      | Some su => setw (fun s => s <| suite := su |>)
      | None => mret tt
      end;;
      match fmt with
      | Some _ =>
          codec ← liftr (makeKidCodec fmt cfg);
          setw (fun s => s <| kidCodec := codec |>)
      | None => mret tt
      end;;
      match cap with
      | Some c => if js_positive c then setw (fun s => s <| preEpochQueueCap := js_floor c |>)
                  else mret tt
      | None => mret tt
      end;;
      init_durable on ns win;;
      emit o_ready
  | EpochMsg epoch self keys | RotateMsg epoch self keys =>
      installEpoch epoch self keys;;
      drainPreEpochQueue
  | StreamsMsg side codec =>
      match codec with
      | Some _ => setw (fun s => s <| ws_codec := codec |>)
      | None => mret tt
      end;;
      pipe side
  | SetSifTrailerMsg trailer => setw (fun s => s <| sifTrailer := trailer |>)
  | SetRatchetWindowMsg size =>
      setw (fun s => s <| ratchetWindowSize := Z.max 0 (js_floor size) |>)
  | SetMetricsEnabledMsg enabled => setw (fun s => s <| metricsEnabled := enabled |>)
  | SetReplayWindowMsg size =>
      setw (fun s => s <| replayWindowSize := Z.max 0 (js_floor size) |>);;
      setw (fun s => s <| replayWindows ::= (fun m : gmap Z (gmap Z SlidingReplayWindow) =>
        (fun inner : gmap Z SlidingReplayWindow => Replay.clear <$> inner) <$> m) |>);;
      setw (fun s => s <| replayWindows := ∅ |>)
  | SetFailureToleranceMsg tolerance =>
      let t := js_floor tolerance in
      setw (fun s => s <| failureTolerance := if t <? -1 then -1 else t |>);;
      setw (fun s => s <| failureCounts := ∅ |>)
  | TeardownMsg => teardown
  end.

(** The listener of [message]: a handler that throws is reported to the main thread. *)
Definition onmessage (msg : InMsg) : W unit := catch (handleMessage msg) (fun err => emit (o_error err)).

(** The side of a native transformer: its option, or what the role says. *)
Definition transformer_side (s : WorkerState) (side : option Side) : Side :=
  match side with
  | Some side => side
  | None => if bool_decide (role s = Some sender) then side_encode else side_decode
  end.

Definition onrtctransform (side : option Side) : W unit :=
  s ← getw id;
  pipe (transformer_side s side).

Inductive Event : Type :=
| ev_message (msg : InMsg)
| ev_rtctransform (side : option Side)
| ev_frame (side : Side) (fid : nat) (frame : Frame)
| ev_timer (epoch : Z)
| ev_tick (ms : Z).

(** A frame that arrives is a new object with contents of its own. *)
Definition step (ev : Event) : W unit :=
  match ev with
  | ev_message msg => onmessage msg
  | ev_rtctransform side => onrtctransform side
  | ev_frame side fid frame =>
      modify (fun w => w <| frames ::= <[fid := frame]> |>);; transform side fid
  | ev_timer epoch => fireWipeTimer epoch
  | ev_tick ms => modify (fun w => w <| clock ::= fun t => t + Z.max 0 ms |>)
  end.

(** Whatever a handler throws, the worker goes on. *)
Definition step_world (w : World) (ev : Event) : World := (step ev w).2.

Definition run (w : World) (evs : list Event) : World := foldl step_world w evs.

End Worker.
