(* ===== verification/WorkerLogic.v ===== *)
(** * WorkerLogic: reasoning about computations of the worker

    [keeps] and [returns] ([StateLogic]) for the computations of the worker. [Frame_rel R] collects what [R] must tolerate for the receive path
    to keep it: one law per kind of write, so that each instance is a list of one-line checks. *)
From S2P Require Import Prelude Errors Internal Header Kid WebCrypto Toy Crypto SFrame Codec Replay.
From S2P Require Import StateLogic WorkerTypes WorkerState WorkerFrame.
From S2P Require Durable.

Ltac returns_auto := repeat first
  [ lazymatch goal with
    | |- returns (getw _) => apply returns_gets
    | |- returns (setw _) => apply returns_modify
    | |- returns (emit _) => apply returns_modify
    | _ => StateLogic.returns_step
    end
  | solve [eauto with returns] ].

(** ** Running the primitives *)

Section Run.
Context `{WebCrypto}.
Implicit Types w : World.

(** The world after a metric event. *)
Definition metric (ev : MetricsEvent) (w : World) : World :=
  if metricsEnabled (ws w) then w <| posted ::= fun l => l ++ [o_metrics ev] |> else w.

Lemma emitMetric_run ev w : emitMetric ev w = (Ok tt, metric ev w).
Proof.
  unfold emitMetric, metric, getw, emit, gets, modify, mbind, M_bind. cbn.
  by destruct (metricsEnabled (ws w)).
Qed.

Lemma bind_getw {A B} (f : WorkerState -> A) (k : A -> W B) w : (getw f ≫= k) w = k (f (ws w)) w.
Proof. done. Qed.

Lemma bind_setw {B} (f : WorkerState -> WorkerState) (k : unit -> W B) w :
  (setw f ≫= k) w = k tt (w <| ws ::= f |>).
Proof. done. Qed.

(** The contents and the kind of a frame. *)
Definition contents (w : World) (fid : nat) : bytes :=
  frame_data (default (mkFrame [] None) (frames w !! fid)).
Definition kind_of (w : World) (fid : nat) : option FrameKind :=
  frameKindOf (frame_type (default (mkFrame [] None) (frames w !! fid))).

Lemma bind_liftr {A B} (r : res A) (k : A -> W B) w :
  (liftr r ≫= k) w = match r with Ok a => k a w | Throw e => (Throw e, w) end.
Proof. by destruct r. Qed.

End Run.

Section ReturnsParts.
Context `{WebCrypto}.

Lemma returns_emitMetric ev : returns (emitMetric ev).
Proof. unfold emitMetric. returns_auto. Qed.
Hint Resolve returns_emitMetric : returns.

Lemma returns_recordFailure e p : returns (recordFailure e p).
Proof. unfold recordFailure. returns_auto. Qed.

Lemma returns_recordSuccess e p : returns (recordSuccess e p).
Proof. unfold recordSuccess. returns_auto. Qed.

Lemma returns_clearStarve : returns clearStarve.
Proof. unfold clearStarve. returns_auto. Qed.

Lemma returns_noteStarveDrop p : returns (noteStarveDrop p).
Proof. unfold noteStarveDrop, now. returns_auto. Qed.

Lemma returns_noteEncryptDrop r : returns (noteEncryptDrop r).
Proof. unfold noteEncryptDrop, now. returns_auto. Qed.
Hint Resolve returns_recordFailure returns_recordSuccess returns_clearStarve
  returns_noteStarveDrop returns_noteEncryptDrop : returns.

Lemma returns_pushToQueue fid p : returns (pushToQueue fid p).
Proof. unfold pushToQueue. returns_auto. Qed.

Lemma returns_decode_catch l err : returns (decode_catch l err).
Proof. unfold decode_catch. returns_auto. Qed.

Lemma returns_drain_catch err : returns (drain_catch err).
Proof. unfold drain_catch. returns_auto. Qed.
Hint Resolve returns_pushToQueue returns_decode_catch returns_drain_catch : returns.

(** Whatever a queued frame does, the drain goes on. *)
Lemma returns_drain_each pending : returns (drain_each pending).
Proof. induction pending as [|fid pending IH]; cbn [drain_each]; returns_auto. Qed.
Hint Resolve returns_drain_each : returns.

Lemma returns_drain_loop fuel : returns (drain_loop fuel).
Proof. induction fuel as [|fuel IH]; cbn [drain_loop]; returns_auto. Qed.

Lemma returns_transform side fid : returns (transform side fid).
Proof. unfold transform, frame_of. returns_auto. Qed.

End ReturnsParts.

#[export] Hint Resolve returns_emitMetric returns_recordFailure returns_recordSuccess
  returns_clearStarve returns_noteStarveDrop returns_noteEncryptDrop returns_pushToQueue
  returns_decode_catch returns_drain_catch returns_drain_each returns_drain_loop : returns.

(** Continue at the world the getter saw. *)
Lemma keeps_bind_getw `{WebCrypto} {A B} (R : relation World) (f : WorkerState -> A) (k : A -> W B) :
  (forall w, R w (k (f (ws w)) w).2) -> keeps R (getw f ≫= k).
Proof. intros Hk w. apply Hk. Qed.

Lemma keeps_at_setw `{WebCrypto} {B} (R : relation World) `{!PreOrder R}
    (f : WorkerState -> WorkerState) (k : W B) w :
  R w (w <| ws ::= f |>) -> keeps R k -> R w ((setw f;; k) w).2.
Proof. intros Hf Hk. etransitivity; [exact Hf|]. apply Hk. Qed.

(** ** The receive path *)

(** What a relation tolerates. *)
Class Frame_rel `{WebCrypto} (R : relation World) : Prop := {
  fr_preorder : PreOrder R;
  fr_emit w l : R w (w <| posted := l |>);
  fr_promise w n : R w (w <| next_promise := n |>);
  fr_durable w g0 g e : durableReplay (ws w) = Some g0 ->
    R w (w <| ws ::= fun s => s <| durableReplay := Some g |> |> <| env := e |>);
  fr_failures w m : R w (w <| ws ::= fun s => s <| failureCounts := m |> |>);
  fr_windows w m : R w (w <| ws ::= fun s => s <| replayWindows := m |> |>);
  fr_cache w m : R w (w <| ws ::= fun s => s <| formatCache := m |> |>);
  fr_promises w key p : R w (w <| ws ::= fun s => s <| ratchetPromises ::= fun m =>
    delete key (<[key := p]> m) |> |>);
  fr_starve w a b c d e :
    R w (w <| ws ::= fun s => s <| starveActive := a |> <| starveSinceMs := b |>
           <| starveFramesDropped := c |> <| starveLastEmitMs := d |> <| starvePeerIndex := e |> |>)
}.
#[export] Existing Instance fr_preorder.


(** [keeps_step] of [StateLogic], and the accessors of the worker. *)
Ltac keeps_step :=
  lazymatch goal with
  | |- keeps _ (getw _) => apply keeps_gets; apply _
  | |- keeps _ (liftr _) => apply keeps_lift; apply _
  | _ => StateLogic.keeps_step
  end.

Ltac keeps_auto := repeat (first [keeps_step | solve [eauto with keeps typeclass_instances]]).

Section FrameRel.
Context `{WebCrypto} (R : relation World) `{!Frame_rel R}.

Lemma keeps_setw (f : WorkerState -> WorkerState) :
  (forall w, R w (w <| ws ::= f |>)) -> keeps R (setw f).
Proof. intros Hf. by apply keeps_modify. Qed.

Lemma keeps_emit msg : keeps R (emit msg).
Proof. apply keeps_modify. intros w. apply fr_emit. Qed.
Hint Resolve keeps_emit : keeps.

Lemma keeps_emitMetric ev : keeps R (emitMetric ev).
Proof. unfold emitMetric. keeps_auto. Qed.
Hint Resolve keeps_emitMetric : keeps.

Lemma keeps_recordFailure e p : keeps R (recordFailure e p).
Proof. unfold recordFailure. keeps_auto. apply keeps_setw. intros w. apply fr_failures. Qed.

Lemma keeps_recordSuccess e p : keeps R (recordSuccess e p).
Proof. unfold recordSuccess. keeps_auto. apply keeps_setw. intros w. apply fr_failures. Qed.

Lemma keeps_reset_failures e pis : keeps R (reset_failures e pis).
Proof.
  induction pis as [|pi pis IH]; cbn [reset_failures]; keeps_auto.
  apply keeps_setw. intros w. apply fr_failures.
Qed.

Lemma keeps_getReplayWindow e p : keeps R (getReplayWindow e p).
Proof. unfold getReplayWindow. keeps_auto. apply keeps_setw. intros w. apply fr_windows. Qed.

Lemma keeps_acceptReplay e p c : keeps R (acceptReplay e p c).
Proof. apply keeps_setw. intros w. apply fr_windows. Qed.

Lemma keeps_setFormatCache e p g : keeps R (setFormatCache e p g).
Proof. apply keeps_setw. intros w. apply fr_cache. Qed.

Lemma keeps_with_guard {A} (d : A) m : keeps R (with_guard d m).
Proof.
  intros w. unfold with_guard. destruct (durableReplay (ws w)) as [g|] eqn:Eg; [|reflexivity].
  destruct (m (g, env w)) as [r [g' e']]. by apply (fr_durable w g).
Qed.

Lemma keeps_clear_durable e pis : keeps R (clear_durable e pis).
Proof.
  induction pis as [|pi pis IH]; cbn [clear_durable]; keeps_auto. apply keeps_with_guard.
Qed.

Lemma keeps_durable_available : keeps R durable_available.
Proof. unfold durable_available. keeps_auto. Qed.
Hint Resolve keeps_recordFailure keeps_recordSuccess keeps_getReplayWindow keeps_acceptReplay
  keeps_setFormatCache keeps_with_guard keeps_durable_available : keeps.

Lemma keeps_durable_check e p c : keeps R (durable_check e p c).
Proof. unfold durable_check. keeps_auto. Qed.

Lemma keeps_durable_accept e p c : keeps R (durable_accept e p c).
Proof. unfold durable_accept. keeps_auto. Qed.

Lemma keeps_note_replay h e p : keeps R (note_replay h e p).
Proof. unfold note_replay. keeps_auto. Qed.

Lemma keeps_note_key_invalid h e p : keeps R (note_key_invalid h e p).
Proof. unfold note_key_invalid. keeps_auto. Qed.

Lemma keeps_clearStarve : keeps R clearStarve.
Proof. unfold clearStarve. keeps_auto. apply keeps_setw. intros w. apply fr_starve. Qed.

Lemma keeps_noteStarveDrop p : keeps R (noteStarveDrop p).
Proof.
  unfold noteStarveDrop, now. keeps_auto; apply keeps_setw; intros w.
  - apply fr_starve.
  - apply (fr_starve w (starveActive (ws w)) (starveSinceMs (ws w)) (starveFramesDropped (ws w) + 1)
      (starveLastEmitMs (ws w)) (starvePeerIndex (ws w))).
  - apply (fr_starve w (starveActive (ws w)) (starveSinceMs (ws w)) (starveFramesDropped (ws w))
      (starveLastEmitMs (ws w))).
  - apply (fr_starve w (starveActive (ws w)) (starveSinceMs (ws w)) (starveFramesDropped (ws w))
      a (starvePeerIndex (ws w))).
Qed.
Hint Resolve keeps_durable_check keeps_durable_accept keeps_note_replay keeps_note_key_invalid
  keeps_clearStarve keeps_noteStarveDrop : keeps.

Lemma keeps_acceptFrame e p c : keeps R (acceptFrame e p c).
Proof. unfold acceptFrame. keeps_auto. Qed.

Lemma keeps_runRetryLoop k loop : keeps R loop -> keeps R (runRetryLoop k loop).
Proof.
  intros Hl. unfold runRetryLoop.
  apply keeps_bind; [apply _|apply keeps_attempt, Hl|intros outcome].
  apply keeps_bind; [apply _|apply keeps_gets, _|intros id].
  apply keeps_bind; [apply _|apply keeps_modify; intros w; apply fr_promise|intros _].
  intros w. rewrite bind_setw, bind_setw. apply (fr_promises w k (mkPromise id outcome)).
Qed.

Lemma keeps_decrypt_step0 b a f : keeps R (decrypt_step0 b a f).
Proof. unfold decrypt_step0. keeps_auto. Qed.
Hint Resolve keeps_acceptFrame keeps_runRetryLoop keeps_decrypt_step0 : keeps.

Lemma keeps_tryDecryptWithRatchet b e p a f :
  keeps R (retryLoop b e p a f) -> keeps R (tryDecryptWithRatchet b e p a f).
Proof.
  intros Hl. unfold tryDecryptWithRatchet, or_else. keeps_auto.
Qed.

Lemma keeps_openFrame payload g pr e p :
  (forall b a f, keeps R (retryLoop b e p a f)) -> keeps R (openFrame payload g pr e p).
Proof. intros Hl. unfold openFrame. keeps_auto. by apply keeps_tryDecryptWithRatchet. Qed.

Lemma keeps_decode_catch l err : keeps R (decode_catch l err).
Proof. unfold decode_catch. keeps_auto. Qed.

Lemma keeps_drain_catch err : keeps R (drain_catch err).
Proof. unfold drain_catch. keeps_auto. Qed.

Lemma keeps_inW {A} (m : W A) : keeps R m -> keeps (on_world R) (inW m).
Proof. intros Hm [l w]. unfold inW, on_world. cbn. specialize (Hm w). by destruct (m w). Qed.

Lemma keeps_decode_guarded fid payload kind :
  keeps (on_world R) (decode_try fid payload kind) -> keeps R (decode_guarded fid payload kind).
Proof.
  intros Ht w. unfold decode_guarded. specialize (Ht (initial_locals, w)). unfold on_world in Ht.
  destruct (decode_try _ _ _ _) as [[[]|err] [l w']]; [exact Ht|]. cbn in Ht.
  transitivity w'; [exact Ht|].
  enough (keeps R (decode_catch l err;; throw err : W unit)) as Hc by apply Hc.
  keeps_auto. apply keeps_decode_catch.
Qed.

End FrameRel.

(** The queue, for a relation that does not look at it. *)
Lemma pushToQueue_keeps `{WebCrypto} (R : relation World) `{!Frame_rel R} fid p :
  (forall w q, R w (w <| ws ::= fun s => s <| preEpochQueue := q |> |>)) ->
  keeps R (pushToQueue fid p).
Proof.
  intros Hq. unfold pushToQueue. keeps_auto;
    first [apply keeps_emit, _ | apply keeps_emitMetric, _ | apply keeps_noteStarveDrop, _ |
           apply keeps_setw; intros w; apply Hq].
Qed.

(** What the whole receive path writes besides. *)
Class Receive_rel `{WebCrypto} (R : relation World) : Prop := {
  rr_frame :: Frame_rel R;
  rr_push fid p : keeps R (pushToQueue fid p);
  rr_clear w : R w (w <| ws ::= fun s => s <| preEpochQueue := [] |> |>);
  rr_flags w a b : R w (w <| ws ::= fun s => s <| draining := a |> <| pendingDrain := b |> |>);
  rr_frames w m : R w (w <| frames := m |>);
  rr_retry b e p a f : keeps R (retryLoop b e p a f)
}.

(** A coarser relation tolerates what a finer one does. *)
Lemma Frame_rel_sub `{WebCrypto} (R1 R2 : relation World) `{!PreOrder R2} :
  (forall w w', R1 w w' -> R2 w w') -> Frame_rel R1 -> Frame_rel R2.
Proof. intros Hsub [? ? ? ? ? ? ? ? ?]. split; [done|intros; apply Hsub; eauto..]. Qed.

Lemma Receive_rel_sub `{WebCrypto} (R1 R2 : relation World) `{!PreOrder R2} :
  (forall w w', R1 w w' -> R2 w w') -> Receive_rel R1 -> Receive_rel R2.
Proof.
  intros Hsub [Hf Hp Hc Hfl Hfr Hr]. split; [by eapply Frame_rel_sub| | | | |].
  - intros fid p w. apply Hsub, Hp.
  - intros w. apply Hsub, Hc.
  - intros w a b. apply Hsub, Hfl.
  - intros w m. apply Hsub, Hfr.
  - intros b e p a f w. apply Hsub, Hr.
Qed.

Section ReceiveRel.
Context `{WebCrypto} (R : relation World) `{!Receive_rel R}.

Hint Resolve keeps_emit keeps_emitMetric keeps_recordFailure keeps_recordSuccess
  keeps_getReplayWindow keeps_acceptReplay keeps_setFormatCache keeps_with_guard
  keeps_durable_available keeps_durable_check keeps_durable_accept keeps_note_replay
  keeps_note_key_invalid keeps_clearStarve keeps_noteStarveDrop keeps_acceptFrame
  keeps_runRetryLoop keeps_decrypt_step0 keeps_drain_catch keeps_decode_catch : keeps.

Lemma keeps_set_frame_data fid d : keeps R (set_frame_data fid d).
Proof. apply keeps_modify. intros w. apply rr_frames. Qed.

Lemma keeps_openFrame' payload g pr e p : keeps R (openFrame payload g pr e p).
Proof. apply keeps_openFrame; [apply _|]. intros. apply rr_retry. Qed.
Hint Resolve rr_push keeps_set_frame_data keeps_openFrame' : keeps.

Lemma keeps_deliver fid payload g pr hdr e p : keeps R (deliver fid payload g pr hdr e p).
Proof. unfold deliver. keeps_auto. Qed.
Hint Resolve keeps_deliver : keeps.

Lemma keeps_decode_gates fid payload g pr hdr e p : keeps R (decode_gates fid payload g pr hdr e p).
Proof. unfold decode_gates, enqueuePreEpoch. keeps_auto. Qed.
Hint Resolve keeps_decode_gates : keeps.

Lemma keeps_decode_try fid payload kind : keeps (on_world R) (decode_try fid payload kind).
Proof.
  unfold decode_try, liftd, set_locals.
  repeat first
    [ keeps_step
    | apply keeps_inW
    | apply keeps_modify; intros []; unfold on_world; reflexivity
    | solve [eauto with keeps typeclass_instances] ].
Qed.

Lemma keeps_decodeFrame fid : keeps R (decodeFrame fid).
Proof.
  unfold decodeFrame, frame_of. keeps_auto.
  apply keeps_decode_guarded; [apply _|apply keeps_decode_try].
Qed.

Lemma keeps_drain_try fid : keeps R (drain_try fid).
Proof. unfold drain_try, frame_of. keeps_auto. Qed.
Hint Resolve keeps_drain_try : keeps.

Lemma keeps_drain_each pending : keeps R (drain_each pending).
Proof. induction pending as [|fid pending IH]; cbn [drain_each]; keeps_auto. Qed.

Lemma keeps_drain_loop fuel : keeps R (drain_loop fuel).
Proof.
  induction fuel as [|fuel IH]; cbn [drain_loop]; [keeps_auto|].
  keeps_auto; try (apply keeps_setw; intros w); try apply rr_clear.
  - apply (rr_flags w (draining (ws w))).
  - apply (rr_flags w true (pendingDrain (ws w))).
  - apply keeps_drain_each.
  - apply (rr_flags w false (pendingDrain (ws w))).
  - apply (rr_flags w (draining (ws w))).
Qed.

Lemma keeps_drainPreEpochQueue : keeps R drainPreEpochQueue.
Proof. apply keeps_drain_loop. Qed.

End ReceiveRel.
