(* ===== verification/Demo.v ===== *)
(** * Demo: concrete worlds for the witnesses

    Two peers (indices 0 and 1) share the toy key table of epoch 1: [demo_sender] is peer 0,
    [demo_receiver] is peer 1. *)
From S2P Require Import Prelude Errors Internal Header Kid WebCrypto Toy Crypto SFrame Codec Replay.
From S2P Require Import WorkerTypes WorkerState WorkerFrame.
From Stdlib Require Import Strings.Byte.

Definition demo_bundle (epoch peerIndex : Z) : list (Z * PerSenderKeyBundle (H := toy)) :=
  match demo_key epoch peerIndex with
  | Ok k => [(peerIndex, mkBundle (H := toy) (cryptoKey k) (salt k) (rawKey k))]
  | Throw _ => []
  end.

Definition demo_bundles (epoch : Z) : list (Z * PerSenderKeyBundle (H := toy)) :=
  demo_bundle epoch 0 ++ demo_bundle epoch 1.

Definition demo_receiver : World (H := toy) := (installEpoch 1 1 (demo_bundles 1) initial_world).2.
Definition demo_sender : World (H := toy) := (installEpoch 1 0 (demo_bundles 1) initial_world).2.

(** A frame object with the given contents. *)
Definition with_frame (fid : nat) (d : bytes) (w : World (H := toy)) : World (H := toy) :=
  w <| frames ::= <[fid := mkFrame d (Some "key"%string)]> |>.

Definition demo_data : bytes := [x61; x62; x63; x64; x65; x66; x67; x68; x69; x6a; x6b].

Definition data_of (fid : nat) (w : World (H := toy)) : bytes :=
  match frames w !! fid with Some f => frame_data f | None => [] end.

(** [demo_data] as the demo sender puts it on the wire, [n] frames into the epoch. *)
Fixpoint demo_sent (n : nat) (w : World (H := toy)) : World (H := toy) :=
  match n with
  | O => w
  | S n => (encodeFrame 0 None (with_frame 0 demo_data (demo_sent n w))).2
  end.

Definition demo_wire (n : nat) : bytes := data_of 0 (demo_sent (S n) demo_sender).

Definition is_some_b {A} (o : option A) : bool := match o with Some _ => true | None => false end.

Lemma is_some_b_ex {A} (o : option A) : is_some_b o = true -> exists a, o = Some a.
Proof. destruct o; [by eexists|done]. Qed.

Lemma returns_b_ex {S E} (r : result E unit * S) : is_ok r.1 = true -> exists s, r = (Ok tt, s).
Proof. destruct r as [[[]|] s]; [by eexists|done]. Qed.
