(* ===== verification/WorkerRatchet.v ===== *)
(** * WorkerRatchet: the retry window of tryDecryptWithRatchet, against its specification

    [ratchet_key k n] is the sender's key after [n] steps; [open_with] opens a frame with a given
    key. [tryDecryptWithRatchet] is shown to be: the first key among steps 0..window that opens
    the frame, cached from then on. *)
From S2P Require Import Prelude Errors Internal Header Kid WebCrypto Toy Crypto SFrame Codec Replay.
From S2P Require Import WorkerTypes WorkerState WorkerFrame StateLogic WorkerLogic Demo.
From S2P Require Durable.

Section Ratchet.
Context `{WebCrypto}.
Implicit Types w : World.

(** The key [n] steps after [k]. *)
Fixpoint ratchet_key (s : WorkerState) (epoch peerIndex : Z) (k : SenderKey) (n : nat)
    : res SenderKey :=
  match n with
  | O => Ok k
  | S n =>
      k' ← ratchet_key s epoch peerIndex k n;
      deriveNextSenderKey (rawKey k') (salt k') epoch peerIndex (suite s) (kidCodec s)
  end.

Definition open_with (s : WorkerState) (buf : bytes) (aadPrefix : option bytes) (form : AadForm)
    (k : SenderKey) : res bytes :=
  sframeDecrypt buf (fun _ => Some (sframe_key k))
    (mkMeta (Some (kidCodec s)) aadPrefix (Some form)).

(** The search of the retry loop, without its effects. *)
Fixpoint find_step (s : WorkerState) (todo : nat) (step : Z) (buf : bytes) (epoch peerIndex : Z)
    (aadPrefix : option bytes) (form : AadForm) (currentRaw salt : bytes)
    : res (option (SenderKey * Z * bytes)) :=
  match todo with
  | O => Ok None
  | S todo =>
      next ← deriveNextSenderKey currentRaw salt epoch peerIndex (suite s) (kidCodec s);
      match open_with s buf aadPrefix form next with
      | Ok pt => Ok (Some (next, step, pt))
      | Throw _ => find_step s todo (step + 1) buf epoch peerIndex aadPrefix form (rawKey next) salt
      end
  end.

Definition advanced (epoch peerIndex : Z) (next : SenderKey) (step : Z) (w : World) : World :=
  w <| ws ::= fun s => s <| epochs ::= alter (fun entry =>
    entry <| ent_keys ::= <[peerIndex := next]> |>
          <| ratchetSteps ::= fun m => <[peerIndex := default 0 (m !! peerIndex) + step]> m |>)
    epoch |> |>.

(** The buffer's header names the sender (epoch, peerIndex). *)
Definition addressed_to (s : WorkerState) (buf : bytes) (epoch peerIndex : Z) : Prop :=
  exists hdr, parseHeader buf = Ok hdr /\ decode (kidCodec s) (kid hdr) = Ok (epoch, peerIndex).

(** Only the resolver's answer for that sender matters. *)
Lemma sframeDecrypt_resolver s buf epoch peerIndex a f resolve k :
  addressed_to s buf epoch peerIndex ->
  (forall lk, lk_epoch lk = epoch -> lk_peerIndex lk = peerIndex ->
    resolve lk = Some (sframe_key k)) ->
  sframeDecrypt buf resolve (mkMeta (Some (kidCodec s)) a (Some f)) = open_with s buf a f k.
Proof.
  intros (hdr & Hp & Hd) Hr. unfold open_with, sframeDecrypt. rewrite Hp. cbn [mbind result_bind].
  destruct (_ <? _)%nat; [done|]. change (default FIXED_KID_CODEC _) with (kidCodec s).
  rewrite Hd. cbn [mbind result_bind]. by rewrite Hr.
Qed.

Lemma retry_steps_run todo step buf e p a f raw sa w :
  addressed_to (ws w) buf e p ->
  retry_steps todo step buf e p a f raw sa w =
    match find_step (ws w) todo step buf e p a f raw sa with
    | Ok (Some (k, st, pt)) => (Ok pt, metric (m_ratchet_retry e p st true) (advanced e p k st w))
    | Ok None => (Throw (RatchetWindowExhaustedError e p (ratchetWindowSize (ws w))),
                  metric (m_ratchet_retry e p (ratchetWindowSize (ws w)) false) w)
    | Throw err => (Throw err, w)
    end.
Proof.
  intros Ha. revert step raw. induction todo as [|todo IH]; intros step raw;
    cbn [retry_steps find_step]; rewrite bind_getw.
  { by rewrite (bind_Ok _ _ _ _ _ (emitMetric_run _ _)). }
  rewrite bind_liftr. destruct (deriveNextSenderKey _ _ _ _ _ _) as [next|]; [|done].
  cbn [mbind result_bind].
  rewrite (sframeDecrypt_resolver (ws w) buf e p a f _ next Ha).
  2: { intros lk -> ->. by rewrite !Z.eqb_refl. }
  destruct (open_with _ _ _ _ _) as [pt|]; [|apply IH].
  unfold advance_key. change (setw ?g ≫= ?k) with (fun w => k tt (w <| ws ::= g |>)). cbn beta.
  by rewrite (bind_Ok _ _ _ _ _ (emitMetric_run _ _)).
Qed.

(** The search finds the first step that opens the frame. *)
Lemma find_step_spec s e p k0 buf a f todo m km :
  ratchet_key s e p k0 m = Ok km ->
  (forall n k, ratchet_key s e p k0 n = Ok k -> salt k = salt k0) ->
  match find_step s todo (Z.of_nat (S m)) buf e p a f (rawKey km) (salt k0) with
  | Ok (Some (k, st, pt)) => exists n, (m < n <= m + todo)%nat /\ st = Z.of_nat n /\
      ratchet_key s e p k0 n = Ok k /\ open_with s buf a f k = Ok pt /\
      forall j, (m < j < n)%nat -> exists kj err,
        ratchet_key s e p k0 j = Ok kj /\ open_with s buf a f kj = Throw err
  | Ok None => forall j, (m < j <= m + todo)%nat -> exists kj err,
      ratchet_key s e p k0 j = Ok kj /\ open_with s buf a f kj = Throw err
  | Throw err => exists n, (m < n <= m + todo)%nat /\ ratchet_key s e p k0 n = Throw err /\
      forall j, (m < j < n)%nat -> exists kj err,
        ratchet_key s e p k0 j = Ok kj /\ open_with s buf a f kj = Throw err
  end.
Proof.
  intros Hm Hsalt. revert m km Hm. induction todo as [|todo IH]; intros m km Hm; cbn [find_step].
  { intros j Hj. lia. }
  assert (ratchet_key s e p k0 (S m) =
    deriveNextSenderKey (rawKey km) (salt k0) e p (suite s) (kidCodec s)) as HS.
  { cbn [ratchet_key]. rewrite Hm. cbn [mbind result_bind]. by rewrite (Hsalt _ _ Hm). }
  destruct (deriveNextSenderKey _ _ _ _ _ _) as [next|err]; cbn [mbind result_bind].
  2: { exists (S m). split_and!; [lia|lia|done|]. intros j Hj. lia. }
  destruct (open_with s buf a f next) as [pt|err] eqn:Eo.
  { exists (S m). split_and!; [lia|lia|done|done|done|]. intros j Hj. lia. }
  specialize (IH (S m) next HS).
  replace (Z.of_nat (S m) + 1) with (Z.of_nat (S (S m))) by lia.
  assert (forall j, (m < j)%nat -> j = S m \/ (S m < j)%nat) as Hcase by lia.
  destruct (find_step _ _ _ _ _ _ _ _ _ _) as [[[[k st] pt]|]|err2].
  - destruct IH as (n & Hn & -> & Hk & Hopen & Hbefore). exists n. split_and!; try done; try lia.
    intros j Hj. destruct (Hcase j) as [->|]; [lia|eauto|]. apply Hbefore. lia.
  - intros j Hj. destruct (Hcase j) as [->|]; [lia|eauto|]. apply IH. lia.
  - destruct IH as (n & Hn & Hk & Hbefore). exists n. split_and!; try done; try lia.
    intros j Hj. destruct (Hcase j) as [->|]; [lia|eauto|]. apply Hbefore. lia.
Qed.

(** ** The whole of tryDecryptWithRatchet *)

(** No derivation is in flight: the state between two handlers. *)
Definition settled (w : World) : Prop := ratchetPromises (ws w) = ∅.

(** What running the loop under a promise leaves behind. *)
Definition promised (w : World) : World := w <| next_promise ::= S |>.

Lemma runRetryLoop_run key loop w :
  ratchetPromises (ws (loop w).2) !! key = None ->
  runRetryLoop key loop w = ((loop w).1, promised (loop w).2).
Proof.
  intros Hk. unfold runRetryLoop, attempt, gets, setw, modify, liftr, lift, mbind, M_bind, promised.
  destruct (loop w) as [r w1]. cbn in *. f_equal.
  destruct w1 as [s1 ? ? ? ? ? ? ?]; cbn in *. unfold set_field, eta, eta_world; cbn. f_equal.
  rewrite delete_insert_id by done. by destruct s1.
Qed.

Lemma tryDecrypt_run buf e p a f w k0 :
  settled w -> lookup_key (ws w) e p = Some k0 -> addressed_to (ws w) buf e p ->
  tryDecryptWithRatchet buf e p a f w =
    match open_with (ws w) buf a f k0 with
    | Ok pt => (Ok pt, w)
    | Throw err =>
        if ratchetWindowSize (ws w) =? 0 then (Throw err, w) else
        match find_step (ws w) (Z.to_nat (ratchetWindowSize (ws w))) 1 buf e p a f
                (rawKey k0) (salt k0) with
        | Ok (Some (k, st, pt)) =>
            (Ok pt, promised (metric (m_ratchet_retry e p st true) (advanced e p k st w)))
        | Ok None => (Throw (RatchetWindowExhaustedError e p (ratchetWindowSize (ws w))),
                      promised (metric (m_ratchet_retry e p (ratchetWindowSize (ws w)) false) w))
        | Throw err => (Throw err, promised w)
        end
    end.
Proof.
  intros Hset Hk Ha. unfold tryDecryptWithRatchet. rewrite bind_getw. cbn [id].
  unfold lookup_key in Hk. apply bind_Some in Hk as (entry & He & Hk).
  change (id (ws w)) with (ws w). rewrite He, Hk.
  assert (attempt (F := js_error) (decrypt_step0 buf a f) w = (Ok (open_with (ws w) buf a f k0), w)) as Hstep0.
  { unfold attempt, decrypt_step0. rewrite bind_getw. unfold liftr, lift.
    change (id (ws w)) with (ws w).
    rewrite (sframeDecrypt_resolver (ws w) buf e p a f (state_resolver (ws w)) k0 Ha); [done|].
    intros lk Hlk1 Hlk2. unfold state_resolver, lookup_key. rewrite Hlk1, Hlk2, He.
    cbn [mbind option_bind]. by rewrite Hk. }
  rewrite (bind_Ok _ _ _ _ _ Hstep0). destruct (open_with _ _ _ _ _) as [pt|err]; [done|].
  destruct (ratchetWindowSize (ws w) =? 0); [done|].
  rewrite bind_getw. unfold settled in Hset. rewrite Hset, lookup_empty.
  unfold or_else. rewrite (bind_Ok _ _ w None w) by done. rewrite bind_getw, Hset, lookup_empty.
  assert (retryLoop buf e p a f w = retry_steps (Z.to_nat (ratchetWindowSize (ws w))) 1 buf e p a f
    (rawKey k0) (salt k0) w) as Hloop.
  { unfold retryLoop. rewrite bind_getw. unfold lookup_key. change (id (ws w)) with (ws w).
    rewrite He. cbn [mbind option_bind]. by rewrite Hk. }
  rewrite retry_steps_run in Hloop by done.
  rewrite runRetryLoop_run; rewrite Hloop;
    destruct (find_step _ _ _ _ _ _ _ _ _ _) as [[[[k st] pt]|]|err2]; try done; cbn;
    unfold metric; try case_match; cbn; by rewrite Hset, ?lookup_empty.
Qed.

(** ** What relations the retry loop keeps *)

Lemma retry_steps_keeps (R : relation World) `{!Frame_rel R} todo step buf e p a f raw sa w :
  (forall raw' next st,
    deriveNextSenderKey raw' sa e p (suite (ws w)) (kidCodec (ws w)) = Ok next ->
    R w (advanced e p next st w)) ->
  R w (retry_steps todo step buf e p a f raw sa w).2.
Proof.
  intros Hadv. revert step raw. induction todo as [|todo IH]; intros step raw;
    cbn [retry_steps]; rewrite bind_getw.
  - rewrite (bind_Ok _ _ _ _ _ (emitMetric_run _ _)). cbn. unfold metric.
    case_match; [apply fr_emit|reflexivity].
  - rewrite bind_liftr. destruct (deriveNextSenderKey _ _ _ _ _ _) as [next|] eqn:En; [|reflexivity].
    destruct (sframeDecrypt _ _ _) as [pt|]; [|apply IH].
    unfold advance_key. change (setw ?g ≫= ?k) with (fun w => k tt (w <| ws ::= g |>)). cbn beta.
    rewrite (bind_Ok _ _ _ _ _ (emitMetric_run _ _)). etransitivity; [by eapply Hadv|].
    unfold metric. case_match; [apply fr_emit|reflexivity].
Qed.

(** A relation tolerates the retry loop when it tolerates caching a derived key. *)
Lemma retryLoop_keeps (R : relation World) `{!Frame_rel R} :
  (forall w e p k0 raw next st, lookup_key (ws w) e p = Some k0 ->
    deriveNextSenderKey raw (salt k0) e p (suite (ws w)) (kidCodec (ws w)) = Ok next ->
    R w (advanced e p next st w)) ->
  forall buf e p a f, keeps R (retryLoop buf e p a f).
Proof.
  intros Hadv buf e p a f w. unfold retryLoop. rewrite bind_getw. change (id (ws w)) with (ws w).
  destruct (lookup_key (ws w) e p) as [k0|] eqn:Ek; [|reflexivity].
  apply retry_steps_keeps; [done|]. intros raw' next st Hn. by eapply Hadv.
Qed.

(** ** Helpers of the main theorem *)

Lemma deriveNext_salt raw sa e p su c k : deriveNextSenderKey raw sa e p su c = Ok k -> salt k = sa.
Proof.
  unfold deriveNextSenderKey. destruct (hkdfInfo _ _); [|done]. cbn [mbind result_bind].
  destruct (hkdfExtractExpand _ _ _ _); [|done]. cbn [mbind result_bind].
  destruct (importAesKey _); [|done]. cbn [mbind result_bind].
  destruct (encode c e p); [|done]. cbn. by intros <-%Ok_inj.
Qed.

Lemma ratchet_key_salt s e p k0 n k : ratchet_key s e p k0 n = Ok k -> salt k = salt k0.
Proof.
  revert k. induction n as [|n IH]; intros k; cbn [ratchet_key]; [by intros <-%Ok_inj|].
  destruct (ratchet_key s e p k0 n) as [k'|]; [|done]. cbn [mbind result_bind].
  intros Hk%deriveNext_salt. by rewrite Hk, IH.
Qed.

(** Step [j] is derivable and does not open the frame. *)
Definition fails_at (s : WorkerState) (buf : bytes) (e p : Z) (a : option bytes) (f : AadForm)
    (k0 : SenderKey) (j : nat) : Prop :=
  exists kj err, ratchet_key s e p k0 j = Ok kj /\ open_with s buf a f kj = Throw err.

Lemma lookup_key_advanced e p next st w e' p' :
  is_Some (epochs (ws w) !! e) ->
  lookup_key (ws (advanced e p next st w)) e' p' =
    if bool_decide (e' = e /\ p' = p) then Some next else lookup_key (ws w) e' p'.
Proof.
  intros [entry He]. unfold lookup_key, advanced. cbn. rewrite lookup_alter.
  destruct (decide (e = e')) as [<-|Hne].
  - rewrite He. cbn. rewrite lookup_insert. repeat case_decide; case_bool_decide; naive_solver.
  - rewrite bool_decide_eq_false_2 by naive_solver. done.
Qed.

Lemma metric_ws ev w : ws (metric ev w) = ws w.
Proof. unfold metric. by case_match. Qed.

Lemma metric_frames ev w : frames (metric ev w) = frames w.
Proof. unfold metric. by case_match. Qed.

End Ratchet.

(** ** Properties *)


Definition fails_b (w : World (H := toy)) (buf : bytes) (k0 : SenderKey (H := toy)) (j : nat) : bool :=
  match ratchet_key (ws w) 1 0 k0 j with
  | Ok kj => negb (is_ok (open_with (ws w) buf None aad_header kj))
  | Throw _ => false
  end.

Lemma fails_b_spec w buf k0 j :
  fails_b w buf k0 j = true -> fails_at (ws w) buf 1 0 None aad_header k0 j.
Proof.
  unfold fails_b, fails_at. destruct (ratchet_key _ _ _ _ _) as [kj|]; [|done].
  destruct (open_with _ _ _ _ _) as [|err] eqn:E; [done|]. intros _. by exists kj, err.
Qed.

(** A frame sealed two steps ahead of the demo receiver's cached key. *)
Definition demo_ahead : bytes :=
  match lookup_key (ws demo_receiver) 1 0 with
  | Some k0 =>
      match (k2 ← ratchet_key (ws demo_receiver) 1 0 k0 2;
             sframeEncrypt demo_data (sframe_key k2) 7 None aad_header) with
      | Ok b => b
      | Throw _ => []
      end
  | None => []
  end.

Lemma addressed_demo_ahead : addressed_to (ws demo_receiver) demo_ahead 1 0.
Proof.
  exists (mkSFrameHeader 65536 7 6). split; vm_compute; reflexivity.
Qed.

