(* ===== verification/WorkerEvents.v ===== *)
(** * WorkerEvents: relations kept by every event of the worker

    [step_keeps] reduces a claim about a whole run to the few operations that write what the claim
    looks at. *)
From S2P Require Import Prelude Errors Internal Header Kid WebCrypto Toy Crypto SFrame Codec Replay.
From S2P Require Import WorkerTypes WorkerState WorkerFrame Worker StateLogic WorkerLogic WorkerRatchet.
From S2P Require Durable.

Ltac head_of t := lazymatch t with ?h _ => head_of h | _ => t end.

Ltac view_cases :=
  lazymatch goal with
  | |- same ?f _ _ =>
      unfold same; (let h := head_of f in try unfold h); cbn; repeat case_match; reflexivity
  | |- preserved ?P _ _ =>
      unfold preserved; (let h := head_of P in try unfold h); cbn; repeat case_match;
      exact (fun H => H)
  end.

(** For handlers whose writes a view does not look at. *)
Ltac keeps_bookkeeping :=
  unfold now, durable_available, scheduleWipeOfEpochsBelow, frame_of, set_frame_data,
    clearEncryptStarve, init_durable, pipe;
  keeps_auto;
  first [ apply keeps_emit, _ | apply keeps_emitMetric, _ | apply keeps_reset_failures, _
        | apply keeps_clear_durable, _
        | apply keeps_modify; intros ?; first
            [ reflexivity | exact (fun H => H)
            | view_cases ] ].

Section Events.
Context `{WebCrypto}.
Implicit Types w : World.

Definition no_teardown (ev : Event) : Prop := ev <> ev_message TeardownMsg.

(** What follows the encode or decode in the transform. *)
Definition transform_rest (side : Side) (fid : nat) (r : res unit) : W unit :=
  match r with
  | Ok _ => modify (fun w => w <| enqueued ::= fun l => l ++ [fid] |>)
  | Throw err =>
      match side with
      | side_encode =>
          let reason := if no_send_epoch err then "no_epoch"%string else "encode_failed"%string in
          let metricCode := if no_send_epoch err then "NO_EPOCH"%string else errCode err in
          emitMetric (m_encode_drop metricCode);;
          noteEncryptDrop reason
      | side_decode => mret tt
      end
  end.

Lemma transform_run side fid w :
  transform side fid w =
    let kind := frameKindOf (frame_type (default (mkFrame [] None) (frames w !! fid))) in
    let '(r, w') := match side with
                    | side_encode => encodeFrame fid kind
                    | side_decode => decodeFrame fid
                    end w in
    transform_rest side fid r w'.
Proof.
  unfold transform, transform_rest, frame_of, attempt. cbn.
  unfold mbind, M_bind, gets. cbn. destruct side; cbn.
  - by destruct (encodeFrame _ _ w).
  - by destruct (decodeFrame _ w).
Qed.

(** What the other events of a run write. The [init] message is left to the caller. *)
Class Event_rel (R : relation World) : Prop := {
  er_receive :: Receive_rel R;
  er_install e self b : keeps R (installEpoch e self b);
  er_timer e : keeps R (fireWipeTimer e);
  er_encode fid kind : keeps R (encodeFrame fid kind);
  er_encrypt_starve w a b c d : R w (w <| ws ::= fun s => s <| encryptStarveActive := a |>
    <| encryptStarveSinceMs := b |> <| encryptStarveFramesDropped := c |>
    <| encryptStarveLastEmitMs := d |> |>);
  er_enqueued w l : R w (w <| enqueued := l |>);
  er_pipes w l : R w (w <| pipes := l |>);
  er_clock w t : R w (w <| clock := t |>);
  er_codec w c : R w (w <| ws ::= fun s => s <| ws_codec := c |> |>);
  er_trailer w t : R w (w <| ws ::= fun s => s <| sifTrailer := t |> |>);
  er_window w n : 0 <= n -> R w (w <| ws ::= fun s => s <| ratchetWindowSize := n |> |>);
  er_metrics w b : R w (w <| ws ::= fun s => s <| metricsEnabled := b |> |>);
  er_replay w n : 0 <= n -> R w (w <| ws ::= fun s => s <| replayWindowSize := n |> |>);
  er_tolerance w n : -1 <= n -> R w (w <| ws ::= fun s => s <| failureTolerance := n |> |>)
}.

Section Step.
Context (R : relation World) `{!Event_rel R}.

Lemma noteEncryptDrop_keeps r : keeps R (noteEncryptDrop r).
Proof.
  unfold noteEncryptDrop, now. keeps_auto;
    first [apply keeps_emit, _ | apply keeps_setw; intros w].
  - apply er_encrypt_starve.
  - apply (er_encrypt_starve w (encryptStarveActive (ws w)) (encryptStarveSinceMs (ws w))
      (encryptStarveFramesDropped (ws w) + 1) (encryptStarveLastEmitMs (ws w))).
  - apply (er_encrypt_starve w (encryptStarveActive (ws w)) (encryptStarveSinceMs (ws w))
      (encryptStarveFramesDropped (ws w)) a).
Qed.

Lemma transform_rest_keeps side fid r : keeps R (transform_rest side fid r).
Proof.
  unfold transform_rest. keeps_auto;
    first [apply keeps_emitMetric, _ | apply noteEncryptDrop_keeps |
           apply keeps_modify; intros w; apply er_enqueued].
Qed.

Lemma transform_keeps side fid : keeps R (transform side fid).
Proof.
  intros w. rewrite transform_run. cbv zeta. destruct side.
  - pose proof (er_encode fid
      (frameKindOf (frame_type (default (mkFrame [] None) (frames w !! fid)))) w) as He.
    destruct (encodeFrame _ _ w) as [r w']. etransitivity; [exact He|]. apply transform_rest_keeps.
  - pose proof (keeps_decodeFrame R fid w) as He.
    destruct (decodeFrame _ w) as [r w']. etransitivity; [exact He|]. apply transform_rest_keeps.
Qed.

Lemma handleMessage_keeps msg :
  msg <> TeardownMsg ->
  match msg with InitMsg _ _ _ _ _ _ _ _ _ _ => keeps R (handleMessage msg) | _ => True end ->
  keeps R (handleMessage msg).
Proof.
  intros Hmsg Hinit. destruct msg; [exact Hinit|clear Hinit; cbn [handleMessage]..|done].
  1-2: apply keeps_bind; [apply _|apply er_install|intros _; apply keeps_drainPreEpochQueue, _].
  all: unfold pipe; keeps_auto; first [apply keeps_setw; intros w | apply keeps_modify; intros w].
  - apply er_codec.
  - apply er_pipes.
  - apply er_trailer.
  - apply er_window. lia.
  - apply er_metrics.
  - apply er_replay. lia.
  - apply fr_windows.
  - apply fr_windows.
  - apply er_tolerance. destruct (Z.ltb_spec (js_floor tolerance) (-1)); lia.
  - apply fr_failures.
Qed.

Lemma step_keeps ev :
  no_teardown ev ->
  match ev with
  | ev_message (InitMsg _ _ _ _ _ _ _ _ _ _ as msg) => keeps R (handleMessage msg)
  | _ => True
  end ->
  keeps R (step ev).
Proof.
  intros Hev Hinit. destruct ev as [msg|side|side fid frame|epoch|ms]; cbn [step].
  - unfold onmessage. keeps_auto; [|apply keeps_emit, _].
    apply handleMessage_keeps; [by intros ->|]. by destruct msg.
  - unfold onrtctransform, pipe. keeps_auto. apply keeps_modify. intros w. apply er_pipes.
  - apply keeps_bind; [apply _|apply keeps_modify; intros w; apply rr_frames|].
    intros _. apply transform_keeps.
  - apply er_timer.
  - apply keeps_modify. intros w. apply er_clock.
Qed.

(** A run without teardown, when every event of it satisfies [P]. *)
Lemma run_keeps (P : Event -> Prop) w evs :
  (forall ev, P ev -> keeps R (step ev)) -> Forall P evs -> R w (run w evs).
Proof.
  intros HP Hevs. revert w. induction Hevs as [|ev evs Hev Hevs IH]; intros w; cbn; [reflexivity|].
  etransitivity; [apply (HP ev Hev w)|]. apply IH.
Qed.

End Step.

End Events.

(** The instances for relations that hold by computation. *)
Ltac frame_rel_easy := split; [apply _|intros; reflexivity..].

Ltac receive_rel_easy :=
  split; [apply _|intros; apply pushToQueue_keeps; [apply _|intros; reflexivity]|
          intros; reflexivity..|apply retryLoop_keeps; [apply _|intros; reflexivity]].
