(* ===== verification/WorkerSend.v ===== *)
(** * WorkerSend: the send path (encodeFrame) and the sender-wide counter

    [send_state] is the pair (currentEpoch, ctr) from which the nonce of the next frame is taken. An
    encode takes one counter, and without a teardown no event takes the pair back. *)
From S2P Require Import Prelude Errors Internal Header Kid WebCrypto Toy Crypto SFrame Codec Replay.
From S2P Require Import WorkerTypes WorkerState WorkerFrame Worker StateLogic WorkerLogic WorkerEvents WorkerRatchet Demo.
From S2P Require Durable.
#[local] Open Scope Z_scope.

Section Send.
Context `{WebCrypto}.
Implicit Types w : World.

(** ** What encodeFrame does *)

Definition send_key (s : WorkerState) : option SenderKey :=
  entry ← epochs s !! currentEpoch s;
  ent_keys entry !! ent_selfPeerIndex entry.

Definition clear_prefix_len (s : WorkerState) (kind : option FrameKind) (plaintext : bytes) : nat :=
  Nat.min (getUnencryptedBytes (ws_codec s) kind) (length plaintext).

Definition trailer_bytes (s : WorkerState) : bytes := default [] (sifTrailer s).

Definition bump_ctr (w : World) : World := w <| ws ::= fun s => s <| ws_ctr := ws_ctr s + 1 |> |>.

(** The world after a frame was encoded to [wire]. *)
Definition encoded (fid : nat) (key : SenderKey) (wire : bytes) (n : nat) (w : World) : World :=
  (clearEncryptStarve
    (metric (m_encrypt (key_epoch key) (key_peerIndex key) n (ws_codec (ws w)))
      (bump_ctr w <| frames ::= alter (fun f => mkFrame wire (frame_type f)) fid |>))).2.

Lemma clearEncryptStarve_run w : clearEncryptStarve w = (Ok tt, (clearEncryptStarve w).2).
Proof. unfold clearEncryptStarve. rewrite bind_getw. by case_match. Qed.

Lemma encoded_frames fid key wire n w :
  frames (encoded fid key wire n w) = alter (fun f => mkFrame wire (frame_type f)) fid (frames w).
Proof.
  unfold encoded, clearEncryptStarve. rewrite bind_getw.
  case_match; cbn; unfold metric; case_match; done.
Qed.

End Send.

Section SendLaws.
Context `{WebCryptoLaws}.
Implicit Types w : World.

(** The wire buffer as it is filled: the clear prefix, what is sealed, the trailer. *)
Lemma wire_prefix (prefix : bytes) m :
  (if (0 <? length prefix)%nat then u8_set (zeros (length prefix + m)) 0 prefix
   else Ok (zeros (length prefix + m))) = @Ok js_error _ (prefix ++ zeros m).
Proof.
  rewrite zeros_app. destruct (Nat.ltb_spec 0 (length prefix)).
  - apply (u8_set_mid [] (zeros (length prefix))); [done|by rewrite length_zeros].
  - by destruct prefix; [|cbn in *; lia].
Qed.

Lemma wire_sealed (prefix header body : bytes) key c tlen :
  sframeEncryptInto (prefix ++ zeros (length header + length body + 16 + tlen)) (length prefix) header body key c
    None aad_header =
  (ct ← seal key header c None aad_header body;
   mret (length (header ++ ct), prefix ++ (header ++ ct) ++ zeros tlen)).
Proof.
  rewrite sframeEncryptInto_spec by (rewrite length_app, length_zeros; lia).
  destruct (seal _ _ _ _ _ _) as [ct|e] eqn:Es; [|done]. pose proof (seal_length _ _ _ _ _ _ _ Es) as Hct.
  cbn [mbind result_bind mret result_ret]. do 2 f_equal.
  rewrite take_app_exact by done. rewrite drop_app_ge by lia.
  rewrite Nat.add_comm, Nat.add_sub. unfold zeros. rewrite drop_replicate. do 3 f_equal. rewrite length_app. lia.
Qed.

Lemma wire_trailed (prefix sealed : bytes) (trailer : option bytes) :
  let tlen := match trailer with Some t => length t | None => 0%nat end in
  match trailer with
  | Some t => u8_set (prefix ++ sealed ++ zeros tlen) (length prefix + length sealed) t
  | None => Ok (prefix ++ sealed ++ zeros tlen)
  end = @Ok js_error _ (prefix ++ sealed ++ default [] trailer).
Proof.
  destruct trailer as [t|]; [|done]. cbv zeta. rewrite !app_assoc. rewrite <- (app_nil_r (zeros (length t))).
  rewrite (u8_set_mid (prefix ++ sealed) (zeros (length t)) []); [by rewrite app_nil_r| |by rewrite length_zeros].
  by rewrite length_app.
Qed.

Lemma clear_prefix_length s kind pt : length (take (clear_prefix_len s kind pt) pt) = clear_prefix_len s kind pt.
Proof. rewrite length_take. unfold clear_prefix_len. lia. Qed.

Lemma encodeFrame_run fid kind w key :
  send_key (ws w) = Some key ->
  let pt := contents w fid in
  let N := clear_prefix_len (ws w) kind pt in
  encodeFrame fid kind w =
    match sframeEncrypt (drop N pt) key (ws_ctr (ws w)) None aad_header with
    | Ok sealed => (Ok tt, encoded fid key (take N pt ++ sealed ++ trailer_bytes (ws w)) (length pt) w)
    | Throw e => (Throw e, bump_ctr w)
    end.
Proof.
  intros Hk pt N. unfold encodeFrame. rewrite bind_getw. change (id (ws w)) with (ws w).
  unfold send_key in Hk. apply bind_Some in Hk as (entry & He & Hk). rewrite He, Hk. cbv zeta.
  rewrite bind_setw.
  change (w <| ws ::= fun s => s <| ws_ctr := ws_ctr (ws w) + 1 |> |>) with (bump_ctr w).
  rewrite (bind_Ok (frame_of fid) _ (bump_ctr w) (default (mkFrame [] None) (frames w !! fid))
    (bump_ctr w)) by done.
  fold (contents w fid). fold pt. fold (clear_prefix_len (ws w) kind pt). fold N.
  rewrite bind_liftr, sframeEncrypt_seal.
  destruct (serializeHeader _ _) as [h|e] eqn:Eh; [|done]. cbn [mbind result_bind].
  pose proof (clear_prefix_length (ws w) kind pt) as HN. fold N in HN.
  remember (take N pt) as prefix eqn:Eprefix. remember (drop N pt) as body eqn:Ebody.
  clearbody N. clear Eprefix Ebody. subst N. rewrite <- !Nat.add_assoc, wire_prefix, bind_liftr, bind_liftr.
  rewrite !Nat.add_assoc, wire_sealed. destruct (seal _ _ _ _ _ _) as [ct|e]; [|done].
  cbn [mbind result_bind mret result_ret]. rewrite bind_liftr, wire_trailed.
  unfold encoded, set_frame_data.
  change (modify ?g ≫= ?k) with (fun w => k tt (g w)). cbn beta.
  rewrite (bind_Ok _ _ _ _ _ (emitMetric_run _ _)). apply clearEncryptStarve_run.
Qed.

End SendLaws.

(** ** The counter along a run *)

Section Nonces.
Context `{WebCrypto}.
Implicit Types w : World.

Definition send_state (w : World) : Z * Z := (currentEpoch (ws w), ws_ctr (ws w)).

(** Lexicographic order on (epoch, counter). *)
Definition lex_le (a b : Z * Z) : Prop := a.1 < b.1 \/ (a.1 = b.1 /\ a.2 <= b.2).
Definition lex_lt (a b : Z * Z) : Prop := a.1 < b.1 \/ (a.1 = b.1 /\ a.2 < b.2).

Definition send_le : relation World := fun w w' => lex_le (send_state w) (send_state w').

#[export] Instance send_le_preorder : PreOrder send_le.
Proof.
  unfold send_le, lex_le. split; [intros w; lia|intros w1 w2 w3; lia].
Qed.

#[export] Instance receive_same_send : Receive_rel (same send_state).
Proof.
  assert (Frame_rel (same send_state)) by (split; [apply _|reflexivity..]).
  receive_rel_easy.
Qed.

Lemma same_send_le w w' : same send_state w w' -> send_le w w'.
Proof. unfold same, send_le, lex_le. intros ->. lia. Qed.

Lemma send_keeps {A} (m : W A) : keeps (same send_state) m -> keeps send_le m.
Proof. apply keeps_sub, same_send_le. Qed.

Lemma installEpoch_send_le epoch self bundles : keeps send_le (installEpoch epoch self bundles).
Proof.
  unfold installEpoch.
  apply keeps_bind; [apply _|apply keeps_gets, _|intros codec].
  apply keeps_bind; [apply _|apply keeps_lift, _|intros keys].
  apply keeps_bind; [apply _|apply send_keeps, keeps_setw; reflexivity|intros _].
  apply keeps_bind; [apply _|apply send_keeps, keeps_reset_failures, _|intros _].
  apply keeps_bind_getw. intros w. destruct (Z.ltb_spec (currentEpoch (ws w)) epoch) as [Hlt|];
    [|reflexivity].
  apply keeps_at_setw; [apply _|by left|]. apply send_keeps.
  keeps_bookkeeping.
Qed.

Lemma wipeEpoch_send epoch : keeps (same send_state) (wipeEpoch epoch).
Proof. unfold wipeEpoch. keeps_bookkeeping. Qed.

Lemma handleMessage_send_le msg : msg <> TeardownMsg -> keeps send_le (handleMessage msg).
Proof.
  intros Hmsg. destruct msg; [|unfold handleMessage..|done]; cbn [handleMessage].
  2-3: keeps_auto; [apply installEpoch_send_le|apply send_keeps, keeps_drainPreEpochQueue, _].
  all: apply send_keeps; keeps_bookkeeping.
Qed.

(** One encoded frame consumes one counter value when there is a key to use. *)
Lemma encodeFrame_send fid kind w :
  send_state (encodeFrame fid kind w).2 =
    match send_key (ws w) with
    | Some _ => (currentEpoch (ws w), ws_ctr (ws w) + 1)
    | None => send_state w
    end.
Proof.
  unfold encodeFrame. rewrite bind_getw. change (id (ws w)) with (ws w). unfold send_key.
  destruct (epochs (ws w) !! currentEpoch (ws w)) as [entry|]; [|done]. cbn [mbind option_bind].
  destruct (ent_keys entry !! ent_selfPeerIndex entry) as [key|]; [|done]. cbv zeta.
  rewrite bind_setw. set (w1 := w <| ws ::= _ |>).
  change (currentEpoch (ws w), ws_ctr (ws w) + 1) with (send_state w1).
  match goal with |- send_state ((?m ≫= ?k) w1).2 = _ =>
    enough (keeps (same send_state) (m ≫= k)) as Hk by apply (Hk w1) end.
  keeps_bookkeeping.
Qed.

Lemma noteEncryptDrop_send r : keeps (same send_state) (noteEncryptDrop r).
Proof.
  unfold noteEncryptDrop. keeps_bookkeeping.
Qed.

Lemma transform_rest_send side fid r : keeps (same send_state) (transform_rest side fid r).
Proof.
  unfold transform_rest. keeps_auto;
    first [apply keeps_emitMetric, _ | apply noteEncryptDrop_send | apply keeps_modify; reflexivity].
Qed.

(** Without a teardown no event takes the counter back. *)
Lemma step_send w ev : no_teardown ev -> send_le w (step_world w ev).
Proof.
  intros Hev. unfold step_world. destruct ev as [msg|side|side fid frame|epoch|ms].
  - cbn [step]. unfold onmessage. apply keeps_catch; [apply _| |intros err w'; by apply same_send_le].
    apply handleMessage_send_le. by intros ->.
  - apply same_send_le. reflexivity.
  - cbn [step]. change (modify ?g ≫= ?k) with (fun w => k tt (g w)). cbn beta.
    set (w1 := w <| frames ::= _ |>). rewrite transform_run. cbv zeta.
    destruct side.
    + pose proof (encodeFrame_send fid
        (frameKindOf (frame_type (default (mkFrame [] None) (frames w1 !! fid)))) w1) as He.
      destruct (encodeFrame _ _ w1) as [r w2]. cbn [snd] in He.
      pose proof (transform_rest_send side_encode fid r w2) as Hr. unfold same in Hr.
      unfold send_le. rewrite Hr, He. right. destruct (send_key (ws w1)); unfold send_state; cbn; lia.
    + pose proof (keeps_decodeFrame (same send_state) fid w1) as Hd.
      destruct (decodeFrame fid w1) as [r w2]. apply same_send_le. unfold same in *.
      rewrite (transform_rest_send side_decode fid r w2). exact Hd.
  - cbn [step]. apply same_send_le. unfold fireWipeTimer, now.
    enough (keeps (same send_state) (fireWipeTimer epoch)) as Hk by apply Hk.
    unfold fireWipeTimer, now. keeps_auto. apply wipeEpoch_send.
  - apply same_send_le. reflexivity.
Qed.

Lemma lex_lt_le_trans a b c : lex_lt a b -> lex_le b c -> lex_lt a c.
Proof. unfold lex_lt, lex_le. lia. Qed.

Lemma lex_le_trans a b c : lex_le a b -> lex_le b c -> lex_le a c.
Proof. unfold lex_le. lia. Qed.

Lemma lex_lt_le a b : lex_lt a b -> lex_le a b.
Proof. unfold lex_lt, lex_le. lia. Qed.

End Nonces.

(** ** Properties *)

(** C31. What one [encodeFrame] does, on every branch. Without an epoch or without this peer's key
    it throws and changes nothing. Otherwise it consumes exactly one counter value; if sealing
    fails the error is thrown and the frame keeps its data; if it succeeds the frame's data become
    [clear prefix][SFrame header][ciphertext and tag][SIF trailer], with the counter of before,
    the AAD of the 'header' form, and no other frame touched. *)
Theorem encodeFrame_correct `{WebCryptoLaws} (fid : nat) (kind : option FrameKind) (w : World) :
  let pt := contents w fid in
  let N := clear_prefix_len (ws w) kind pt in
  let '(r, w') := encodeFrame fid kind w in
  match send_key (ws w) with
  | None => is_ok r = false /\ w' = w
  | Some key =>
      send_state w' = (currentEpoch (ws w), ws_ctr (ws w) + 1) /\
      match sframeEncrypt (drop N pt) key (ws_ctr (ws w)) None aad_header with
      | Throw e => r = Throw e /\ frames w' = frames w
      | Ok sealed => r = Ok tt /\
          frames w' = alter (fun f => mkFrame (take N pt ++ sealed ++ default [] (sifTrailer (ws w)))
                               (frame_type f)) fid (frames w)
      end
  end.
Proof.
  cbv zeta. destruct (send_key (ws w)) as [key|] eqn:Hk.
  - pose proof (encodeFrame_send fid kind w) as Hs. rewrite Hk in Hs.
    rewrite (encodeFrame_run _ _ _ _ Hk) in Hs |- *. cbv zeta in *.
    destruct (sframeEncrypt _ _ _ _ _) as [sealed|e]; cbn [snd] in Hs; (split; [exact Hs|]); [|done].
    split; [done|]. apply encoded_frames.
  - unfold encodeFrame. rewrite bind_getw. unfold send_key in Hk. change (id (ws w)) with (ws w).
    destruct (epochs (ws w) !! currentEpoch (ws w)) as [entry|]; [|done]. cbn in Hk.
    by rewrite Hk.
Qed.

Definition demo_encode : World (H := toy) := with_frame 0 demo_data demo_sender.

Lemma encodeFrame_correct_witness :
  is_some_b (send_key (ws demo_encode)) = true /\
  is_ok (encodeFrame 0 None demo_encode).1 = true /\
  send_state (encodeFrame 0 None demo_encode).2 = (1, 1).
Proof.
  split; [vm_compute; reflexivity|]. split; [vm_compute; reflexivity|].
  pose proof (encodeFrame_correct (H := toy) 0 None demo_encode) as Hc. cbv zeta in Hc.
  destruct (encodeFrame 0 None demo_encode) as [r w']. cbn [snd].
  destruct (is_some_b_ex (send_key (ws demo_encode))) as [key Hk]; [vm_compute; reflexivity|].
  rewrite Hk in Hc. destruct Hc as [-> _].
  assert ((currentEpoch (ws demo_encode) =? 1) && (ws_ctr (ws demo_encode) =? 0) = true) as E
    by (vm_compute; reflexivity).
  apply andb_true_iff in E as [->%Z.eqb_eq ->%Z.eqb_eq]. reflexivity.
Defined.
