(* ===== verification/WorkerGates.v ===== *)
(** * WorkerGates: what decodeFrame does with a frame, gate by gate

    [addressed] is the format resolution of a frame; [decode_guarded_run] reduces [decodeFrame] to
    the gates on the resolved header, [openFrame_run] describes the decryption behind them. *)
From S2P Require Import Prelude Errors Internal Header Kid WebCrypto Toy Crypto SFrame Codec Replay.
From S2P Require Import WorkerTypes WorkerState WorkerFrame Worker StateLogic WorkerLogic Demo WorkerRatchet WorkerEvents.
From S2P Require Durable.

Section Gates.
Context `{WebCrypto}.
Implicit Types w : World.

(** The format, header and sender of a frame. *)
Definition addressed (s : WorkerState) (payload : bytes) (kind : option FrameKind)
    : res (FormatGuess * option Probed * SFrameHeader * Z * Z) :=
  '(guess, probed) ← resolveFormat s payload kind;
  hdr ← parseHeader (drop (prefixLen guess) payload);
  '(epoch, peerIndex) ← decode (kidCodec s) (kid hdr);
  mret (guess, probed, hdr, epoch, peerIndex).

(** What the probe has established when it answers. *)
Record probed_ok (s : WorkerState) (payload : bytes) (pr : Probed) (hdr : SFrameHeader) : Prop := {
  po_header : parseHeader (drop (prefixLen (pr_guess pr)) payload) = Ok hdr;
  po_sender : decode (kidCodec s) (kid hdr) = Ok (pr_epoch pr, pr_peerIndex pr);
  po_kid : pr_kid pr = kid hdr;
  po_ctr : pr_ctr pr = Header.ctr hdr;
  po_open : exists k, lookup_key s (pr_epoch pr) (pr_peerIndex pr) = Some k /\
    open_with s (drop (prefixLen (pr_guess pr)) payload)
      (prefix_arg (prefixLen (pr_guess pr)) payload) (aadForm (pr_guess pr)) k
    = Ok (pr_plaintext pr)
}.

Lemma probe_one_ok s payload guess pr :
  probe_one s payload guess = Ok (Some pr) ->
  pr_guess pr = guess /\ exists hdr, probed_ok s payload pr hdr.
Proof.
  unfold probe_one. case_match; [done|]. destruct (parseHeader _) as [hdr|] eqn:Hp; [|done].
  case_match; [done|]. destruct (decode _ _) as [[e p]|] eqn:Hd; [|done]. cbn [mbind result_bind].
  destruct (lookup_key s e p) as [k|] eqn:Hk; [|done].
  destruct (sframeDecrypt _ _ _) as [pt|] eqn:Ho; [|done]. intros E%Ok_inj. injection E as <-.
  split; [done|]. exists hdr. split; [done..|]. by exists k.
Qed.

Lemma probe_loop_ok s payload cs pr :
  probe_loop s payload cs = Ok (Some pr) -> exists hdr, probed_ok s payload pr hdr.
Proof.
  induction cs as [|guess cs IH]; cbn [probe_loop]; [done|].
  destruct (probe_one s payload guess) as [[pr'|]|] eqn:E; cbn [mbind result_bind]; [|done..].
  intros [= ->]%Ok_inj. by apply probe_one_ok in E as [_ ?].
Qed.

Lemma resolveFormat_probed s payload kind guess pr :
  resolveFormat s payload kind = Ok (guess, Some pr) ->
  pr_guess pr = guess /\ exists hdr, probed_ok s payload pr hdr.
Proof.
  unfold resolveFormat. cbv zeta. destruct (cachedFormat _ _ _); [done|].
  unfold probeFormat. destruct (probe_loop _ _ _) as [[pr'|]|] eqn:E; cbn [mbind result_bind]; [|done..].
  intros E'%Ok_inj. injection E' as <- ->. split; [done|]. by apply probe_loop_ok in E.
Qed.

Lemma addressed_inv s payload kind guess probed hdr e p :
  addressed s payload kind = Ok (guess, probed, hdr, e, p) ->
  resolveFormat s payload kind = Ok (guess, probed) /\
  parseHeader (drop (prefixLen guess) payload) = Ok hdr /\
  decode (kidCodec s) (kid hdr) = Ok (e, p) /\
  match probed with
  | Some pr => pr_guess pr = guess /\ pr_epoch pr = e /\ pr_peerIndex pr = p /\
      probed_ok s payload pr hdr
  | None => True
  end.
Proof.
  unfold addressed. destruct (resolveFormat _ _ _) as [[g pr]|] eqn:Er; [|done].
  cbn [mbind result_bind]. destruct (parseHeader _) as [h|] eqn:Ep; [|done]. cbn [mbind result_bind].
  destruct (decode _ _) as [[e' p']|] eqn:Ed; [|done]. cbn.
  intros E%Ok_inj. injection E as -> -> -> -> ->. split_and!; try done.
  destruct probed as [q|]; [|done].
  destruct (resolveFormat_probed _ _ _ _ _ Er) as [<- [h Hq]]. destruct Hq as [Hq1 Hq2 Hq3 Hq4 Hq5].
  rewrite Hq1 in Ep. apply Ok_inj in Ep as ->. rewrite Hq2 in Ed. apply Ok_inj in Ed.
  injection Ed as E1 E2. by split_and!.
Qed.

(** A sender named by the header addresses the buffer. *)
Lemma addressed_addressed_to s payload kind guess probed hdr e p :
  addressed s payload kind = Ok (guess, probed, hdr, e, p) ->
  addressed_to s (drop (prefixLen guess) payload) e p.
Proof. intros (_ & ? & ? & _)%addressed_inv. by exists hdr. Qed.

(** ** Reduction to the gates *)

(** Run a computation, and the catch block when it throws. *)
Definition caught (l : HdrLocals) (m : W unit) : W unit := fun w =>
  match m w with
  | (Ok _, w') => (Ok tt, w')
  | (Throw err, w') => (decode_catch l err;; throw err : W unit) w'
  end.

Lemma decode_guarded_run fid payload kind w :
  decode_guarded fid payload kind w =
    match addressed (ws w) payload kind with
    | Ok (guess, probed, hdr, e, p) =>
        caught (mkLocals (kid hdr) e p (Header.ctr hdr))
          (decode_gates fid payload guess probed hdr e p) w
    | Throw err => caught initial_locals (throw err) w
    end.
Proof.
  destruct (addressed (ws w) payload kind) as [[[[[guess probed] hdr] e] p]|err] eqn:E.
  - apply addressed_inv in E as (Er & Ep & Ed & Hpr).
    unfold decode_guarded, decode_try, caught, inW, liftd, set_locals, getw, gets, modify, lift, id.
    unfold mbind, M_bind. cbn [fst snd]. rewrite Er. destruct probed as [pr|]; cbn [fst snd].
    + destruct Hpr as (<- & <- & <- & [H1 H2 H3 H4 _]). rewrite Ep. cbn [fst snd]. rewrite Ed.
      cbn [fst snd]. rewrite <- H3, <- H4. unfold mret, M_ret. cbn [fst snd].
      by destruct (decode_gates _ _ _ _ _ _ _ _) as [[[]|] w'].
    + unfold mret at 1, M_ret at 1. cbn [fst snd]. rewrite Ep. cbn [fst snd]. rewrite Ed.
      cbn [fst snd]. by destruct (decode_gates _ _ _ _ _ _ _ _) as [[[]|] w'].
  - unfold addressed in E.
    unfold decode_guarded, decode_try, caught, inW, liftd, set_locals, getw, gets, modify, lift, id, throw.
    unfold mbind, M_bind. cbn [fst snd].
    destruct (resolveFormat (ws w) payload kind) as [[guess probed]|err'] eqn:Er;
      [|by injection E as ->]. cbn [mbind result_bind fst snd] in *.
    assert (probed = None) as ->.
    { destruct probed as [pr|]; [|done]. apply resolveFormat_probed in Er as [<- [h [H1 H2 _ _ _]]].
      rewrite H1 in E. cbn [mbind result_bind] in E. by rewrite H2 in E. }
    unfold mret at 1, M_ret at 1. cbn [fst snd].
    destruct (parseHeader _) as [hdr|err']; [|by injection E as ->].
    cbn [mbind result_bind fst snd] in *.
    destruct (decode _ _) as [[e p]|err']; [done|by injection E as ->].
Qed.

End Gates.

(** ** Running the parts *)

#[local] Opaque Durable.check Durable.accept.

Section Parts.
Context `{WebCrypto}.
Implicit Types w : World.

Lemma returns_with_guard {A} (d : A) m : returns m -> returns (with_guard d m).
Proof.
  intros Hm w. unfold with_guard. destruct (durableReplay (ws w)) as [g|]; [|done].
  specialize (Hm (g, env w)). by destruct (m (g, env w)) as [r [g' e']].
Qed.

Lemma returns_clear_durable e pis : returns (clear_durable e pis).
Proof.
  induction pis as [|pi pis IH]; cbn [clear_durable]; returns_auto.
  apply returns_with_guard, Durable.returns_durable_clear.
Qed.

Lemma returns_check e p c : returns (durable_check e p c).
Proof.
  unfold durable_check, durable_available. returns_auto.
  apply returns_with_guard, Durable.returns_durable_check.
Qed.

Lemma returns_acceptFrame e p c : returns (acceptFrame e p c).
Proof.
  unfold acceptFrame, acceptReplay, durable_accept, durable_available. returns_auto.
  apply returns_with_guard, Durable.returns_durable_accept.
Qed.

(** The window of a sender, a fresh one when there is none. *)
Definition window_of (s : WorkerState) (e p : Z) : SlidingReplayWindow :=
  default (newReplayWindow (replayWindowSize s)) (nested_lookup (replayWindows s) e p).

Definition with_window (e p : Z) (w : World) : World :=
  w <| ws ::= fun s => s <| replayWindows :=
    (getOrCreateNested (replayWindows s) e p (newReplayWindow (replayWindowSize s))).2 |> |>.

Lemma getReplayWindow_run e p w :
  getReplayWindow e p w = (Ok (window_of (ws w) e p), with_window e p w).
Proof.
  pose proof (getOrCreateNested_spec (replayWindows (ws w)) e p
    (newReplayWindow (replayWindowSize (ws w)))) as Hs.
  transitivity (@Ok js_error _ (getOrCreateNested (replayWindows (ws w)) e p
    (newReplayWindow (replayWindowSize (ws w)))).1, with_window e p w); [reflexivity|].
  destruct (getOrCreateNested _ _ _ _) as [v m']. by destruct Hs as [-> _].
Qed.

(** What the durable guard says of a frame. *)
Definition durable_verdict (w : World) (e p c : Z) : bool :=
  match (durable_check e p c w).1 with Ok b => b | Throw _ => true end.

(** The world after the two replay checks. *)
Definition checked (e p c : Z) (w : World) : World := (durable_check e p c (with_window e p w)).2.

Lemma durable_check_run e p c w :
  durable_check e p c (with_window e p w) = (Ok (durable_verdict w e p c), checked e p c w).
Proof.
  unfold durable_verdict, checked.
  assert ((durable_check e p c (with_window e p w)).1 = (durable_check e p c w).1) as <-.
  { unfold durable_check, durable_available, with_guard, getw, gets, mbind, M_bind, mret, M_ret.
    cbn. destruct (durableReplay (ws w)) as [g|] eqn:Eg; cbn; [|done].
    destruct (Durable.available g); cbn; [|done]. rewrite Eg.
    by destruct (Durable.check (durableReplayKey e p) c (g, env w)) as [r [g' e']]. }
  pose proof (returns_check e p c (with_window e p w)) as Hr.
  by destruct (durable_check e p c (with_window e p w)) as [[b|err] w'].
Qed.

(** The checks write nothing but the window and the guard. *)
Lemma checked_state e p c w : exists m g v, checked e p c w =
  w <| ws ::= fun s => s <| replayWindows := m |> <| durableReplay := g |> |> <| env := v |> /\
  nested_lookup m e p = Some (window_of (ws w) e p) /\
  forall e' p', window_of (ws (checked e p c w)) e' p' = window_of (ws w) e' p'.
Proof.
  assert (exists g v, checked e p c w =
    with_window e p w <| ws ::= fun s => s <| durableReplay := g |> |> <| env := v |>) as (g & v & E).
  { unfold checked, durable_check, durable_available, with_guard, getw, gets, mbind, M_bind, mret, M_ret.
    cbn. destruct (durableReplay (ws w)) as [g|] eqn:Eg; cbn.
    - destruct (Durable.available g); cbn.
      + rewrite Eg. destruct (Durable.check (durableReplayKey e p) c (g, env w)) as [r [g' e']]. cbn. by eexists _, _.
      + exists (Some g), (env w). rewrite <- Eg. by destruct w as [[]].
    - exists None, (env w). rewrite <- Eg. by destruct w as [[]]. }
  do 3 eexists. rewrite E. split; [reflexivity|]. unfold window_of. cbn.
  pose proof (getOrCreateNested_spec (replayWindows (ws w)) e p
    (newReplayWindow (replayWindowSize (ws w)))) as Hs.
  destruct (getOrCreateNested _ _ _ _) as [u m']. destruct Hs as [-> Hs]. cbn. split.
  { rewrite Hs. by rewrite decide_True. }
  intros e' p'. rewrite Hs. case_decide as Hd; [|done]. by destruct Hd as [-> ->].
Qed.

(** ** Decrypting behind the gates *)

(** [n] steps of the sender's key open the frame, no fewer do. *)
Definition opens_at (s : WorkerState) (payload : bytes) (guess : FormatGuess) (e p : Z)
    (n : nat) (k : SenderKey) (opened : bytes) : Prop :=
  exists k0, lookup_key s e p = Some k0 /\ (n <= Z.to_nat (ratchetWindowSize s))%nat /\
    ratchet_key s e p k0 n = Ok k /\
    open_with s (drop (prefixLen guess) payload) (prefix_arg (prefixLen guess) payload)
      (aadForm guess) k = Ok opened /\
    forall j, (j < n)%nat -> fails_at s (drop (prefixLen guess) payload) e p
      (prefix_arg (prefixLen guess) payload) (aadForm guess) k0 j.

(** Only the key table, the suite, the KID codec and the window size matter. *)
Lemma ratchet_key_ext s s' e p k0 n :
  suite s' = suite s -> kidCodec s' = kidCodec s -> ratchet_key s' e p k0 n = ratchet_key s e p k0 n.
Proof. intros H1 H2. induction n as [|n IH]; cbn [ratchet_key]; [done|]. by rewrite IH, H1, H2. Qed.

Lemma opens_at_ext s s' payload g e p n k opened :
  epochs s' = epochs s -> suite s' = suite s -> kidCodec s' = kidCodec s ->
  ratchetWindowSize s' = ratchetWindowSize s ->
  opens_at s' payload g e p n k opened -> opens_at s payload g e p n k opened.
Proof.
  intros H1 H2 H3 H4 (k0 & Hk & Hn & Hr & Ho & Hb). exists k0.
  unfold lookup_key, open_with, fails_at in *. rewrite H1 in Hk. rewrite H4 in Hn.
  rewrite (ratchet_key_ext s s') in Hr by done. rewrite H3 in Ho. split_and!; try done.
  intros j Hj. destruct (Hb j Hj) as (kj & err & Hkj & Hoj). exists kj, err.
  rewrite (ratchet_key_ext s s') in Hkj by done. unfold open_with in Hoj. by rewrite H3 in Hoj.
Qed.

Lemma tryDecrypt_ok payload g e p w opened w' :
  settled w -> addressed_to (ws w) (drop (prefixLen g) payload) e p ->
  tryDecryptWithRatchet (drop (prefixLen g) payload) e p (prefix_arg (prefixLen g) payload)
    (aadForm g) w = (Ok opened, w') ->
  exists n k, opens_at (ws w) payload g e p n k opened /\ lookup_key (ws w') e p = Some k /\
    frames w' = frames w /\ replayWindows (ws w') = replayWindows (ws w) /\
    replayWindowSize (ws w') = replayWindowSize (ws w).
Proof.
  intros Hset Hto Hrun. destruct (lookup_key (ws w) e p) as [k0|] eqn:Hk.
  2: { unfold tryDecryptWithRatchet in Hrun. rewrite bind_getw in Hrun. unfold lookup_key in Hk.
       change (id (ws w)) with (ws w) in Hrun. destruct (epochs (ws w) !! e) as [entry|]; [|done].
       cbn [mbind option_bind] in Hk. by rewrite Hk in Hrun. }
  assert (is_Some (epochs (ws w) !! e)) as Hent.
  { unfold lookup_key in Hk. by apply bind_Some in Hk as (entry & -> & _). }
  rewrite (tryDecrypt_run _ _ _ _ _ _ k0) in Hrun by done.
  destruct (open_with (ws w) _ _ _ k0) as [pt|err] eqn:Eo.
  { injection Hrun as -> ->. exists 0%nat, k0. split_and!; try done. exists k0.
    split_and!; [done|lia|done|done|lia]. }
  destruct (_ =? 0); [done|].
  pose proof (find_step_spec (ws w) e p k0 (drop (prefixLen g) payload)
    (prefix_arg (prefixLen g) payload) (aadForm g) (Z.to_nat (ratchetWindowSize (ws w))) 0 k0
    eq_refl (ratchet_key_salt (ws w) e p k0)) as Hfind. change (Z.of_nat 1) with 1 in Hfind.
  destruct (find_step _ _ _ _ _ _ _ _ _ _) as [[[[k st] pt']|]|err2]; [|done..].
  destruct Hfind as (n & Hn & -> & Hkn & Hopen & Hbefore). injection Hrun as -> <-.
  exists n, k. unfold promised. cbn. rewrite metric_ws, metric_frames. split_and!; try done.
  - exists k0. split_and!; [done|lia|done|done|]. intros j Hj. destruct j as [|j].
    + by exists k0, err.
    + apply Hbefore. lia.
  - rewrite lookup_key_advanced by done. by rewrite bool_decide_eq_true_2.
Qed.

Lemma cached_format e p g w : getFormatCache (ws (setFormatCache e p g w).2) e p = Some g.
Proof. unfold getFormatCache. cbn. rewrite lookup_insert_eq. cbn. apply lookup_insert_eq. Qed.

Lemma openFrame_ok payload g probed hdr e p w opened w' :
  settled w -> addressed_to (ws w) (drop (prefixLen g) payload) e p ->
  match probed with
  | Some pr => pr_guess pr = g /\ pr_epoch pr = e /\ pr_peerIndex pr = p /\
      probed_ok (ws w) payload pr hdr
  | None => True
  end ->
  openFrame payload g probed e p w = (Ok opened, w') ->
  exists n k, opens_at (ws w) payload g e p n k opened /\ lookup_key (ws w') e p = Some k /\
    frames w' = frames w /\ replayWindows (ws w') = replayWindows (ws w) /\
    getFormatCache (ws w') e p = Some g.
Proof.
  intros Hset Hto Hpr. unfold openFrame. destruct probed as [pr|].
  - destruct Hpr as (<- & <- & <- & [_ _ _ _ (k & Hk & Ho)]). unfold setFormatCache. intros Hrun.
    injection Hrun as <- <-. exists 0%nat, k. split_and!; try done; [|apply cached_format].
    exists k. split_and!; [done|lia|done|done|lia].
  - destruct (tryDecryptWithRatchet (drop (prefixLen g) payload) e p
      (prefix_arg (prefixLen g) payload) (aadForm g) w) as [[opened'|err] w1] eqn:E.
    2: { by rewrite (bind_Throw _ _ _ _ _ E). }
    rewrite (bind_Ok _ _ _ _ _ E). unfold setFormatCache. intros Hrun. injection Hrun as -> <-.
    destruct (tryDecrypt_ok _ _ _ _ _ _ _ Hset Hto E) as (n & k & Ho & Hk & Hf & Hw & _).
    exists n, k. split_and!; try done. apply cached_format.
Qed.

(** ** The gates as a decision *)

Lemma then_throw {A} (m : W unit) (err : js_error) w :
  returns m -> (m ≫= fun _ => throw err : W A) w = (Throw err, (m w).2).
Proof. intros Hm. by rewrite (bind_Ok _ _ _ _ _ (returns_run m w Hm)). Qed.

Lemma returns_note_replay hdr e p : returns (note_replay hdr e p).
Proof. unfold note_replay. returns_auto. Qed.

Lemma returns_note_key_invalid hdr e p : returns (note_key_invalid hdr e p).
Proof. unfold note_key_invalid. returns_auto. Qed.
Hint Resolve returns_note_replay returns_note_key_invalid : returns.

Lemma decode_gates_run fid payload guess probed hdr e p w :
  decode_gates fid payload guess probed hdr e p w =
    let c := Header.ctr hdr in
    if e <? currentMinValidEpoch (ws w) then
      (Throw (StaleEpochError e (currentMinValidEpoch (ws w)) (Some (kid hdr))),
       metric (m_queue_drop "stale_epoch" (Some e))
         (w <| posted ::= fun l => l ++ [o_decrypt_failure "stale_epoch" (Some (kid hdr)) (Some e)
                                           (Some p) (Some c)] |>))
    else if currentEpoch (ws w) =? -1 then pushToQueue fid (Some p) w
    else if negb (Replay.check (window_of (ws w) e p) c) then
      (Throw (ReplayError e p c), (note_replay hdr e p (with_window e p w)).2)
    else if negb (durable_verdict w e p c) then
      (Throw (ReplayError e p c), (note_replay hdr e p (checked e p c w)).2)
    else if isKeyInvalid (ws w) e p then
      (Throw (KeyInvalidError e p (failure_count (ws w) e p)),
       (note_key_invalid hdr e p (checked e p c w)).2)
    else (size ← deliver fid payload guess probed hdr e p; emitMetric (m_decrypt e p size))
           (checked e p c w).
Proof.
  unfold decode_gates. rewrite bind_getw. change (id (ws w)) with (ws w). cbv zeta.
  destruct (e <? currentMinValidEpoch (ws w)).
  { unfold emit. rewrite bind_modify. by rewrite (bind_Ok _ _ _ _ _ (emitMetric_run _ _)). }
  destruct (currentEpoch (ws w) =? -1); [done|].
  rewrite (bind_Ok _ _ _ _ _ (getReplayWindow_run e p w)).
  destruct (Replay.check _ _); cbn [negb]; [|apply then_throw; returns_auto].
  rewrite (bind_Ok _ _ _ _ _ (durable_check_run e p (Header.ctr hdr) w)).
  destruct (durable_verdict _ _ _ _); cbn [negb]; [|apply then_throw; returns_auto].
  rewrite bind_getw. change (id (ws (checked e p (Header.ctr hdr) w)))
    with (ws (checked e p (Header.ctr hdr) w)).
  destruct (checked_state e p (Header.ctr hdr) w) as (m & g & v & E & _).
  assert (isKeyInvalid (ws (checked e p (Header.ctr hdr) w)) e p = isKeyInvalid (ws w) e p) as ->
    by (rewrite E; reflexivity).
  assert (failure_count (ws (checked e p (Header.ctr hdr) w)) e p = failure_count (ws w) e p) as ->
    by (rewrite E; reflexivity).
  destruct (isKeyInvalid _ _ _); [|done]. apply then_throw; returns_auto.
Qed.

(** ** Accepting and reassembling *)

#[export] Instance frames_frame_rel : Frame_rel (same frames).
Proof. frame_rel_easy. Qed.

#[export] Instance epochs_frame_rel : Frame_rel (same (fun w => epochs (ws w))).
Proof. frame_rel_easy. Qed.

Lemma openFrame_frames payload g pr e p : keeps (same frames) (openFrame payload g pr e p).
Proof. apply keeps_openFrame; [apply _|]. intros. apply retryLoop_keeps; [apply _|reflexivity]. Qed.

Lemma acceptFrame_windows e p c w :
  replayWindows (ws (acceptFrame e p c w).2) =
    alter (alter (fun win => Replay.accept win c) p) e (replayWindows (ws w)).
Proof.
  unfold acceptFrame, acceptReplay. change (setw ?g ≫= ?k) with (fun w => k tt (w <| ws ::= g |>)).
  cbn beta. set (w1 := w <| ws ::= _ |>).
  change (alter _ e (replayWindows (ws w))) with (replayWindows (ws w1)).
  enough (keeps (same (fun w => replayWindows (ws w)))
    (durable_accept e p c;; recordSuccess e p)) as Hk by apply Hk.
  unfold durable_accept, durable_available, recordSuccess. keeps_auto.
  - intros w2. unfold with_guard. destruct (durableReplay (ws w2)) as [gd|]; [|done].
    by destruct (Durable.accept _ _ (gd, env w2)) as [r [gd' e']].
  - apply keeps_modify. reflexivity.
Qed.

Lemma acceptFrame_cache e p c : keeps (same (fun w => formatCache (ws w))) (acceptFrame e p c).
Proof.
  unfold acceptFrame, acceptReplay, durable_accept, durable_available, recordSuccess. keeps_auto.
  - apply keeps_modify. reflexivity.
  - intros w2. unfold with_guard. destruct (durableReplay (ws w2)) as [gd|]; [|done].
    by destruct (Durable.accept _ _ (gd, env w2)) as [r [gd' e']].
  - apply keeps_modify. reflexivity.
Qed.

Lemma reassemble_ok payload g opened :
  (prefixLen g <= length payload)%nat ->
  reassemble payload g opened = Ok (take (prefixLen g) payload ++ opened).
Proof.
  intros Hn. unfold reassemble. pose proof (concat2_spec (take (prefixLen g) payload) opened) as Hc.
  unfold concat2 in Hc. rewrite length_take in Hc.
  replace (prefixLen g `min` length payload)%nat with (prefixLen g) in Hc by lia. exact Hc.
Qed.

(** The frame's contents once it is decrypted. *)
Definition delivered (payload : bytes) (g : FormatGuess) (opened : bytes) : bytes :=
  take (prefixLen g) payload ++ opened.

Lemma deliver_run fid payload g probed hdr e p w :
  parseHeader (drop (prefixLen g) payload) = Ok hdr ->
  match openFrame payload g probed e p w with
  | (Ok opened, w1) => exists w', deliver fid payload g probed hdr e p w =
      (Ok (length (delivered payload g opened)), w') /\
      frames w' = alter (fun f => mkFrame (delivered payload g opened) (frame_type f)) fid (frames w1) /\
      epochs (ws w') = epochs (ws w1) /\
      replayWindows (ws w') =
        alter (alter (fun win => Replay.accept win (Header.ctr hdr)) p) e (replayWindows (ws w1)) /\
      formatCache (ws w') = formatCache (ws w1)
  | (Throw err, w1) => deliver fid payload g probed hdr e p w = (Throw err, w1)
  end.
Proof.
  intros Hp. assert (prefixLen g <= length payload)%nat as Hn.
  { apply parseHeader_bounds in Hp as (_ & _ & Hb). rewrite length_drop in Hb. lia. }
  unfold deliver. destruct (openFrame payload g probed e p w) as [[opened|err] w1] eqn:Eo;
    [|by apply bind_Throw].
  rewrite (bind_Ok _ _ _ _ _ Eo).
  rewrite (bind_Ok _ _ _ _ _ (returns_run _ w1 (returns_acceptFrame e p (Header.ctr hdr)))).
  set (w2 := (acceptFrame e p (Header.ctr hdr) w1).2).
  rewrite reassemble_ok by done. rewrite bind_liftr. fold (delivered payload g opened).
  unfold set_frame_data. rewrite bind_modify. set (w3 := w2 <| frames ::= _ |>).
  rewrite (bind_Ok _ _ _ _ _ (returns_run _ w3 returns_clearStarve)).
  eexists. split; [reflexivity|].
  pose proof (keeps_clearStarve (same frames) w3) as Hf3.
  pose proof (keeps_clearStarve (same (fun w => epochs (ws w))) w3) as He3.
  assert (keeps (same (fun w => (replayWindows (ws w), formatCache (ws w)))) clearStarve) as Hr3.
  { unfold clearStarve. keeps_auto. apply keeps_modify. reflexivity. }
  specialize (Hr3 w3). unfold same in Hf3, He3, Hr3. injection Hr3 as Hr3 Hc3.
  cbn [snd]. rewrite Hf3, He3, Hr3, Hc3.
  pose proof (keeps_acceptFrame (same frames) e p (Header.ctr hdr) w1) as Hf2.
  pose proof (keeps_acceptFrame (same (fun w => epochs (ws w))) e p (Header.ctr hdr) w1) as He2.
  pose proof (acceptFrame_windows e p (Header.ctr hdr) w1) as Hr2.
  pose proof (acceptFrame_cache e p (Header.ctr hdr) w1) as Hc2.
  unfold same in Hf2, He2, Hc2. fold w2 in Hf2, He2, Hr2, Hc2. subst w3. cbn.
  split_and!; [by rewrite <- Hf2|exact He2|exact Hr2|exact Hc2].
Qed.

Lemma nested_alter (m : gmap Z (gmap Z SlidingReplayWindow)) e p f win :
  nested_lookup m e p = Some win ->
  nested_lookup (alter (alter f p) e m) e p = Some (f win).
Proof.
  unfold nested_lookup. intros (inner & Hi & Hw)%bind_Some.
  rewrite lookup_alter_eq, Hi. cbn. by rewrite lookup_alter_eq, Hw.
Qed.

(** ** The whole of decodeFrame *)

Lemma decodeFrame_run fid w :
  decodeFrame fid w =
    match stripTrailer (sifTrailer (ws w)) (contents w fid) with
    | None => (Ok tt, w)
    | Some payload => decode_guarded fid payload (kind_of w fid) w
    end.
Proof.
  unfold decodeFrame, frame_of, contents, kind_of, getw, gets, mbind, M_bind. cbn.
  by destruct (stripTrailer _ _).
Qed.

Lemma caught_Throw l m w err w' :
  m w = (Throw err, w') -> caught l m w = (Throw err, (decode_catch l err w').2).
Proof.
  unfold caught. intros ->. apply (then_throw (decode_catch l err)). returns_auto.
Qed.

Lemma pushToQueue_last fid p w : last (preEpochQueue (ws (pushToQueue fid p w).2)) = Some fid.
Proof.
  unfold pushToQueue. rewrite bind_getw.
  match goal with |- context [(?m ≫= ?k) w] => set (pre := m) end.
  assert (returns pre) as Hpre by (unfold pre; returns_auto).
  rewrite (bind_Ok _ _ _ _ _ (returns_run _ w Hpre)). cbn. apply last_snoc.
Qed.

(** The metric messages of a list of events. *)
Definition metrics (s : WorkerState) (evs : list MetricsEvent) : list OutMsg :=
  if metricsEnabled s then o_metrics <$> evs else [].

(** A frame turned away: the notice and the metrics posted, and nothing else changed than the
    bookkeeping of the replay checks. *)
Definition turned_away (hdr : SFrameHeader) (e p : Z) (reason : string) (evs : list MetricsEvent)
    (w w' : World) : Prop :=
  posted w' = posted w ++
    o_decrypt_failure reason (Some (kid hdr)) (Some e) (Some p) (Some (Header.ctr hdr)) ::
    metrics (ws w) evs /\
  frames w' = frames w /\ enqueued w' = enqueued w /\ epochs (ws w') = epochs (ws w) /\
  failureCounts (ws w') = failureCounts (ws w) /\ preEpochQueue (ws w') = preEpochQueue (ws w) /\
  forall e' p', window_of (ws w') e' p' = window_of (ws w) e' p'.

(** Worlds that differ in the bookkeeping of the replay checks only. *)
Record like (w w' : World) : Prop := {
  like_posted : posted w' = posted w;
  like_frames : frames w' = frames w;
  like_enqueued : enqueued w' = enqueued w;
  like_epochs : epochs (ws w') = epochs (ws w);
  like_failures : failureCounts (ws w') = failureCounts (ws w);
  like_queue : preEpochQueue (ws w') = preEpochQueue (ws w);
  like_metrics : metricsEnabled (ws w') = metricsEnabled (ws w);
  like_windows e p : window_of (ws w') e p = window_of (ws w) e p
}.

Lemma like_refl w : like w w.
Proof. by split. Qed.

Lemma like_with_window e p w : like w (with_window e p w).
Proof.
  split; try done. intros e' p'. unfold window_of. cbn.
  pose proof (getOrCreateNested_spec (replayWindows (ws w)) e p
    (newReplayWindow (replayWindowSize (ws w)))) as Hs.
  destruct (getOrCreateNested _ _ _ _) as [u m']. destruct Hs as [-> Hs]. cbn. rewrite Hs.
  case_decide as Hd; [|done]. by destruct Hd as [-> ->].
Qed.

Lemma like_checked e p c w : like w (checked e p c w).
Proof.
  destruct (checked_state e p c w) as (m & g & v & E & _ & Hw).
  split; [rewrite E; reflexivity..|exact Hw].
Qed.

Definition metric_all (evs : list MetricsEvent) (w : World) : World := foldl (fun w ev => metric ev w) w evs.

Lemma metric_all_spec evs w : metric_all evs w = w <| posted ::= fun l => l ++ metrics (ws w) evs |>.
Proof.
  unfold metrics. revert w. induction evs as [|ev evs IH]; intros w; cbn [metric_all foldl].
  - destruct w; cbn. unfold set_field, eta, eta_world; cbn. f_equal. case_match; by rewrite app_nil_r.
  - change (foldl _ _ _) with (metric_all evs (metric ev w)). rewrite IH. unfold metric.
    destruct (metricsEnabled (ws w)) eqn:E; cbn; rewrite E; [|done].
    unfold set_field, eta, eta_world; cbn. f_equal. by rewrite <- app_assoc.
Qed.

Lemma turned_away_intro hdr e p reason evs w w1 :
  like w w1 ->
  turned_away hdr e p reason evs w (metric_all evs
    (w1 <| posted ::= fun l => l ++ [o_decrypt_failure reason (Some (kid hdr)) (Some e) (Some p)
                                       (Some (Header.ctr hdr))] |>)).
Proof.
  intros [H1 H2 H3 H4 H5 H6 H7 H8]. rewrite metric_all_spec. unfold turned_away. cbn.
  split_and!; try done. rewrite <- app_assoc, H1. unfold metrics. by rewrite H7.
Qed.

Lemma note_replay_run hdr e p w :
  (note_replay hdr e p w).2 = metric_all
    [m_queue_drop "replay" (Some e); m_replay_drop e p (pretty (Header.ctr hdr))]
    (w <| posted ::= fun l => l ++ [o_decrypt_failure "replay" (Some (kid hdr)) (Some e) (Some p)
                                      (Some (Header.ctr hdr))] |>).
Proof.
  unfold note_replay, emit. rewrite bind_modify.
  by rewrite (bind_Ok _ _ _ _ _ (emitMetric_run _ _)), emitMetric_run.
Qed.

Lemma note_key_invalid_run hdr e p w :
  (note_key_invalid hdr e p w).2 = metric_all [m_decrypt_fail "KEY_INVALID" (Some e) (Some p)]
    (w <| posted ::= fun l => l ++ [o_decrypt_failure "key_invalid" (Some (kid hdr)) (Some e) (Some p)
                                      (Some (Header.ctr hdr))] |>).
Proof. unfold note_key_invalid, emit. rewrite bind_modify. by rewrite emitMetric_run. Qed.

(** The catch block adds one metric for the errors of the gates. *)
Lemma decode_catch_gate l err w :
  is_aead_failure err = false ->
  is_StaleEpochError err || is_ReplayError err || is_KeyInvalidError err = true ->
  (decode_catch l err w).2 =
    metric (m_decrypt_fail (errCode err) (nonneg (hdrEpoch l)) (nonneg (hdrPeerIndex l))) w.
Proof.
  intros Ha Hg. unfold decode_catch. rewrite Ha, andb_false_r.
  rewrite (bind_Ok (mret tt) _ w tt w) by done.
  rewrite (bind_Ok _ _ _ _ _ (emitMetric_run _ _)).
  by rewrite <- !negb_orb, Hg.
Qed.

End Parts.

Section Outcomes.
Context `{WebCrypto}.
Implicit Types w : World.

Lemma deliver_throws fid payload g probed hdr e p w err w' :
  parseHeader (drop (prefixLen g) payload) = Ok hdr ->
  deliver fid payload g probed hdr e p w = (Throw err, w') -> frames w' = frames w.
Proof.
  intros Hp Hd. pose proof (deliver_run fid payload g probed hdr e p w Hp) as Hr.
  pose proof (openFrame_frames payload g probed e p w) as Hf.
  destruct (openFrame payload g probed e p w) as [[opened|err'] w1].
  - destruct Hr as (w2 & Hr & _). by rewrite Hr in Hd.
  - rewrite Hr in Hd. by injection Hd as <- <-.
Qed.

Lemma decode_gates_throws fid payload g probed hdr e p w err w' :
  parseHeader (drop (prefixLen g) payload) = Ok hdr ->
  decode_gates fid payload g probed hdr e p w = (Throw err, w') -> frames w' = frames w.
Proof.
  intros Hp. rewrite decode_gates_run. cbv zeta. set (c := Header.ctr hdr).
  case_match; [intros E; injection E as <- <-; by rewrite metric_frames|].
  case_match.
  { pose proof (returns_pushToQueue fid (Some p) w) as Hr. intros E. by rewrite E in Hr. }
  case_match; [intros E; injection E as <- <-; by rewrite note_replay_run, metric_all_spec|].
  pose proof (like_frames _ _ (like_checked e p c w)) as Hl.
  case_match; [intros E; injection E as <- <-; by rewrite note_replay_run, metric_all_spec|].
  case_match; [intros E; injection E as <- <-; by rewrite note_key_invalid_run, metric_all_spec|].
  destruct (deliver fid payload g probed hdr e p (checked e p c w)) as [[n|err'] w1] eqn:Hd.
  - by rewrite (bind_Ok _ _ _ _ _ Hd), emitMetric_run.
  - rewrite (bind_Throw _ _ _ _ _ Hd). intros E. injection E as -> ->.
    by rewrite (deliver_throws _ _ _ _ _ _ _ _ _ _ Hp Hd).
Qed.

(** What [deliver] has done when it returns. *)
Lemma deliver_ok fid payload g probed hdr e p w n' w' win :
  settled w -> addressed_to (ws w) (drop (prefixLen g) payload) e p ->
  match probed with
  | Some pr => pr_guess pr = g /\ pr_epoch pr = e /\ pr_peerIndex pr = p /\
      probed_ok (ws w) payload pr hdr
  | None => True
  end ->
  parseHeader (drop (prefixLen g) payload) = Ok hdr ->
  nested_lookup (replayWindows (ws w)) e p = Some win ->
  deliver fid payload g probed hdr e p w = (Ok n', w') ->
  exists n k opened, opens_at (ws w) payload g e p n k opened /\
    frames w' = alter (fun f => mkFrame (delivered payload g opened) (frame_type f)) fid (frames w) /\
    lookup_key (ws w') e p = Some k /\
    window_of (ws w') e p = Replay.accept win (Header.ctr hdr) /\
    getFormatCache (ws w') e p = Some g.
Proof.
  intros Hset Hto Hpr Hp Hwin Hd. pose proof (deliver_run fid payload g probed hdr e p w Hp) as Hr.
  destruct (openFrame payload g probed e p w) as [[opened|err'] w1] eqn:Eo; [|by rewrite Hr in Hd].
  destruct Hr as (w2 & Hr & Hf & He & Hw & Hc). rewrite Hr in Hd. injection Hd as <- <-.
  destruct (openFrame_ok _ _ _ _ _ _ _ _ _ Hset Hto Hpr Eo) as (n & k & Ho & Hk & Hf1 & Hw1 & Hc1).
  exists n, k, opened. split_and!; [done|by rewrite Hf, Hf1| | |unfold getFormatCache; by rewrite Hc].
  - rewrite <- Hk. unfold lookup_key. by rewrite He.
  - unfold window_of. rewrite Hw, Hw1. by rewrite (nested_alter _ _ _ _ _ Hwin).
Qed.

Lemma decode_gates_ok fid payload kind g probed hdr e p w w' :
  settled w -> addressed (ws w) payload kind = Ok (g, probed, hdr, e, p) ->
  decode_gates fid payload g probed hdr e p w = (Ok tt, w') ->
  (currentEpoch (ws w) = -1 /\ frames w' = frames w /\ last (preEpochQueue (ws w')) = Some fid) \/
  (currentMinValidEpoch (ws w) <= e /\
   Replay.check (window_of (ws w) e p) (Header.ctr hdr) = true /\
   durable_verdict w e p (Header.ctr hdr) = true /\ isKeyInvalid (ws w) e p = false /\
   exists n k opened, opens_at (ws w) payload g e p n k opened /\
     frames w' = alter (fun f => mkFrame (delivered payload g opened) (frame_type f)) fid (frames w) /\
     lookup_key (ws w') e p = Some k /\
     window_of (ws w') e p = Replay.accept (window_of (ws w) e p) (Header.ctr hdr) /\
     getFormatCache (ws w') e p = Some g).
Proof.
  intros Hset Ha. pose proof (addressed_addressed_to _ _ _ _ _ _ _ _ Ha) as Hto.
  apply addressed_inv in Ha as (_ & Hp & _ & Hpr).
  rewrite decode_gates_run. cbv zeta. set (c := Header.ctr hdr).
  destruct (Z.ltb_spec e (currentMinValidEpoch (ws w))) as [|Hmin]; [done|].
  destruct (Z.eqb_spec (currentEpoch (ws w)) (-1)) as [Hcur|]; intros Hq; [left|right].
  { pose proof (pushToQueue_last fid (Some p) w) as Hlast.
    pose proof (pushToQueue_keeps (same frames) fid (Some p) (fun _ _ => eq_refl) w) as Hk.
    rewrite Hq in Hlast, Hk. done. }
  destruct (Replay.check _ _); [|done]. destruct (durable_verdict _ _ _ _); [|done].
  destruct (isKeyInvalid _ _ _); [done|]. cbn [negb] in Hq. split_and!; [done..|].
  destruct (checked_state e p c w) as (m & gd & v & E & Hm & _).
  destruct (deliver fid payload g probed hdr e p (checked e p c w)) as [[sz|err'] w1] eqn:Hd;
    [|rewrite (bind_Throw _ _ _ _ _ Hd) in Hq; done].
  rewrite (bind_Ok _ _ _ _ _ Hd), emitMetric_run in Hq. injection Hq as <-.
  rewrite E in Hd.
  match type of Hd with deliver _ _ _ _ _ _ _ ?wc = _ =>
    destruct (deliver_ok fid payload g probed hdr e p wc sz w1 (window_of (ws w) e p))
      as (n1 & k & opened & Ho & Hf & Hk & Hw & Hfc); try done end.
  { destruct probed as [pr|]; [|done]. destruct Hpr as (? & ? & ? & [? ? ? ? ?]).
    do 3 (split; [done|]). by split. }
  exists n1, k, opened. rewrite metric_frames, metric_ws.
  split_and!; [by eapply opens_at_ext, Ho|exact Hf|exact Hk|exact Hw|exact Hfc].
Qed.

End Outcomes.

Ltac away w1 Hlike :=
  lazymatch goal with
  | |- turned_away ?h ?e ?p ?r ?evs ?w _ => exact (turned_away_intro h e p r evs w w1 Hlike)
  end.

(** ** Properties *)

(** C25. The gates of [decodeFrame], in order, for a frame whose header resolves to the sender
    (e, p): below [currentMinValidEpoch] it throws [StaleEpochError]; before any epoch it is queued
    as the newest frame and the call returns; a counter that the sliding window or the durable
    guard has seen throws [ReplayError]; a key beyond the failure tolerance throws
    [KeyInvalidError]; otherwise the call returns exactly when the frame opens. Each refusal posts
    its notice and metrics, and leaves frames, keys, windows and failure counts alone. *)
Theorem decodeFrame_gates `{WebCrypto} (fid : nat) (w : World) (payload : bytes)
    (guess : FormatGuess) (probed : option Probed) (hdr : SFrameHeader) (e p : Z)
    (Hpl : stripTrailer (sifTrailer (ws w)) (contents w fid) = Some payload)
    (Ha : addressed (ws w) payload (kind_of w fid) = Ok (guess, probed, hdr, e, p)) :
  let c := Header.ctr hdr in
  let fail code := m_decrypt_fail code (nonneg e) (nonneg p) in
  let '(r, w') := decodeFrame fid w in
  if e <? currentMinValidEpoch (ws w) then
    r = Throw (StaleEpochError e (currentMinValidEpoch (ws w)) (Some (kid hdr))) /\
    turned_away hdr e p "stale_epoch" [m_queue_drop "stale_epoch" (Some e); fail "STALE_EPOCH"%string] w w'
  else if currentEpoch (ws w) =? -1 then
    r = Ok tt /\ frames w' = frames w /\ last (preEpochQueue (ws w')) = Some fid
  else if negb (Replay.check (window_of (ws w) e p) c && durable_verdict w e p c) then
    r = Throw (ReplayError e p c) /\
    turned_away hdr e p "replay"
      [m_queue_drop "replay" (Some e); m_replay_drop e p (pretty c); fail "REPLAY"%string] w w'
  else if isKeyInvalid (ws w) e p then
    r = Throw (KeyInvalidError e p (failure_count (ws w) e p)) /\
    turned_away hdr e p "key_invalid"
      [m_decrypt_fail "KEY_INVALID" (Some e) (Some p); fail "KEY_INVALID"%string] w w'
  else is_ok r = is_ok (openFrame payload guess probed e p (checked e p c w)).1.
Proof.
  cbv zeta. rewrite decodeFrame_run, Hpl, decode_guarded_run, Ha.
  set (l := mkLocals _ _ _ _). pose proof (decode_gates_run fid payload guess probed hdr e p w) as Hg.
  cbv zeta in Hg.
  destruct (e <? currentMinValidEpoch (ws w)).
  { rewrite (caught_Throw _ _ _ _ _ Hg). split; [done|].
    rewrite decode_catch_gate by done. away w (like_refl w). }
  destruct (currentEpoch (ws w) =? -1).
  { unfold caught. rewrite Hg. rewrite (returns_run _ w (returns_pushToQueue fid (Some p))).
    split; [done|]. split.
    - refine (pushToQueue_keeps (same frames) fid (Some p) _ w). reflexivity.
    - apply pushToQueue_last. }
  destruct (Replay.check _ _); cbn [negb andb] in *.
  2: { rewrite (caught_Throw _ _ _ _ _ Hg). split; [done|].
       rewrite decode_catch_gate, note_replay_run by done.
       away (with_window e p w) (like_with_window e p w). }
  destruct (durable_verdict _ _ _ _); cbn [negb] in *.
  2: { rewrite (caught_Throw _ _ _ _ _ Hg). split; [done|].
       rewrite decode_catch_gate, note_replay_run by done.
       away (checked e p (Header.ctr hdr) w) (like_checked e p (Header.ctr hdr) w). }
  destruct (isKeyInvalid _ _ _).
  { rewrite (caught_Throw _ _ _ _ _ Hg). split; [done|].
    rewrite decode_catch_gate, note_key_invalid_run by done.
    away (checked e p (Header.ctr hdr) w) (like_checked e p (Header.ctr hdr) w). }
  apply addressed_inv in Ha as (_ & Hp & _).
  pose proof (deliver_run fid payload guess probed hdr e p (checked e p (Header.ctr hdr) w) Hp) as Hd.
  destruct (openFrame _ _ _ _ _ _) as [[opened|err] w1].
  - destruct Hd as (w2 & Hd & _). unfold caught. rewrite Hg, (bind_Ok _ _ _ _ _ Hd).
    by rewrite emitMetric_run.
  - rewrite (bind_Throw _ _ _ _ _ Hd) in Hg. by rewrite (caught_Throw _ _ _ _ _ Hg).
Qed.

(** A receiver that has moved on to epochs from 5 on, and a frame of epoch 1. *)
Definition demo_stale : World (H := toy) :=
  with_frame 0 (demo_wire 0) demo_receiver <| ws ::= fun s => s <| currentMinValidEpoch := 5 |> |>.

Lemma decodeFrame_gates_witness :
  (decodeFrame 0 demo_stale).1 = Throw (StaleEpochError 1 5 (Some 65536)).
Proof.
  assert (match addressed (ws demo_stale) (demo_wire 0) (kind_of demo_stale 0) with
          | Ok (_, _, hdr, e, p) => (e =? 1) && (kid hdr =? 65536)
          | Throw _ => false
          end = true) as Hb by (vm_compute; reflexivity).
  destruct (addressed (ws demo_stale) (demo_wire 0) (kind_of demo_stale 0))
    as [[[[[guess probed] hdr] e] p]|] eqn:Ha; [|discriminate Hb].
  apply andb_true_iff in Hb as [->%Z.eqb_eq Hk%Z.eqb_eq].
  assert (stripTrailer (sifTrailer (ws demo_stale)) (contents demo_stale 0) = Some (demo_wire 0)) as Hpl
    by (vm_compute; reflexivity).
  pose proof (decodeFrame_gates (H := toy) 0 demo_stale (demo_wire 0) guess probed hdr 1 p Hpl Ha) as Hg.
  cbv zeta in Hg. destruct (decodeFrame 0 demo_stale) as [r w'].
  change (currentMinValidEpoch (ws demo_stale)) with 5 in Hg. change (1 <? 5) with true in Hg.
  cbv iota in Hg. destruct Hg as [-> _]. by rewrite Hk.
Defined.

(** C7. What it takes to be let through: when [decodeFrame] throws, no frame has changed. When it
    returns, the frame was a plain one of a mixed room (nothing changed), or it was queued before
    the first epoch (no frame changed), or: it is exactly [clear prefix][header][body] where the
    body is what AES-GCM seals for the delivered plaintext under a key of the named sender at most
    [ratchetWindowSize] steps ahead of the cached one (no earlier step opens it), bound to that
    header; its epoch is not stale, its counter is new to the sliding window and to the durable
    guard, its key is not invalid. The frame's contents become prefix and plaintext, no other
    frame is touched, that key is cached, and the window has accepted the counter. *)
Theorem decodeFrame_sound `{WebCryptoLaws} (fid : nat) (w : World) (Hset : settled w) :
  let '(r, w') := decodeFrame fid w in
  match r with
  | Throw _ => frames w' = frames w
  | Ok _ =>
      (stripTrailer (sifTrailer (ws w)) (contents w fid) = None /\ w' = w) \/
      (currentEpoch (ws w) = -1 /\ frames w' = frames w /\
       last (preEpochQueue (ws w')) = Some fid) \/
      exists payload g header body e p c n k opened,
        stripTrailer (sifTrailer (ws w)) (contents w fid) = Some payload /\
        payload = take (prefixLen g) payload ++ header ++ body /\
        (exists kid, parseHeader (header ++ body) = Ok (mkSFrameHeader kid c (length header)) /\
           decode (kidCodec (ws w)) kid = Ok (e, p)) /\
        currentMinValidEpoch (ws w) <= e /\
        Replay.check (window_of (ws w) e p) c = true /\ durable_verdict w e p c = true /\
        isKeyInvalid (ws w) e p = false /\
        opens_at (ws w) payload g e p n k opened /\
        seal k header c (prefix_arg (prefixLen g) payload) (aadForm g) opened = Ok body /\
        frames w' = alter (fun f => mkFrame (delivered payload g opened) (frame_type f)) fid (frames w) /\
        lookup_key (ws w') e p = Some k /\
        window_of (ws w') e p = Replay.accept (window_of (ws w) e p) c
  end.
Proof.
  rewrite decodeFrame_run. destruct (stripTrailer _ _) as [payload|] eqn:Hpl; [|by left].
  rewrite decode_guarded_run.
  destruct (addressed _ _ _) as [[[[[g probed] hdr] e] p]|err] eqn:Ha.
  2: { rewrite (caught_Throw initial_locals (throw err) w err w eq_refl).
       apply (keeps_decode_catch (same frames)). }
  set (l := mkLocals _ _ _ _). pose proof (addressed_inv _ _ _ _ _ _ _ _ Ha) as (_ & Hp & Hd & _).
  destruct (decode_gates fid payload g probed hdr e p w) as [[[]|err] w'] eqn:Hg.
  2: { rewrite (caught_Throw _ _ _ _ _ Hg), <- (decode_gates_throws _ _ _ _ _ _ _ _ _ _ Hp Hg).
       apply (keeps_decode_catch (same frames)). }
  unfold caught. rewrite Hg. right.
  destruct (decode_gates_ok _ _ _ _ _ _ _ _ _ _ Hset Ha Hg) as [Hq|(Hmin & Hc & Hv & Hi & Hin)];
    [by left|right].
  destruct Hin as (n & k & opened & Ho & Hf & Hk & Hw & _).
  destruct Ho as (k0 & Hk0 & Hn & Hrk & Hopen & Hbefore).
  pose proof Hopen as Hsd. unfold open_with in Hsd.
  destruct (sframeDecrypt_inv _ _ _ _ Hsd) as (hdr' & e' & p' & key & body & Hp' & _ & Hr & Hb & Hs).
  rewrite Hp in Hp'. apply Ok_inj in Hp' as <-. injection Hr as <-.
  pose proof (parseHeader_bounds _ _ Hp) as (_ & _ & Hbound).
  exists payload, g, (take (bodyOffset hdr) (drop (prefixLen g) payload)), body, e, p,
    (Header.ctr hdr), n, k, opened.
  split_and!; try done.
  - by rewrite <- Hb, take_drop.
  - rewrite <- Hb. exists (kid hdr). split; [|done]. rewrite Hp. destruct hdr. f_equal. f_equal.
    rewrite length_take. cbn in *. lia.
  - by exists k0.
Qed.

(** The demo receiver with the demo sender's first frame. *)
Definition demo_arrived : World (H := toy) := with_frame 0 (demo_wire 0) demo_receiver.

Lemma decodeFrame_sound_witness :
  exists e p k g opened, lookup_key (ws (decodeFrame 0 demo_arrived).2) e p = Some k /\
    frames (decodeFrame 0 demo_arrived).2 =
      alter (fun f => mkFrame (delivered (demo_wire 0) g opened) (frame_type f)) 0%nat
        (frames demo_arrived).
Proof.
  assert (settled demo_arrived) as Hset by (vm_compute; reflexivity).
  assert (is_ok (decodeFrame 0 demo_arrived).1 = true) as Hok by (vm_compute; reflexivity).
  assert (stripTrailer (sifTrailer (ws demo_arrived)) (contents demo_arrived 0) = Some (demo_wire 0))
    as Hpl by (vm_compute; reflexivity).
  assert ((currentEpoch (ws demo_arrived) =? 1) = true) as Hcur by (vm_compute; reflexivity).
  apply Z.eqb_eq in Hcur.
  pose proof (decodeFrame_sound 0 demo_arrived Hset) as Hs.
  destruct (decodeFrame 0 demo_arrived) as [[[]|err] w']; [|discriminate Hok].
  destruct Hs as [[Hs _]|[[Hs _]|Hs]]; [by rewrite Hpl in Hs|by rewrite Hcur in Hs|].
  destruct Hs as (payload & g & header & body & e & p & c & n & k & opened & Hp & _ & _ & _ & _ & _ &
    _ & _ & _ & Hf & Hk & _).
  rewrite Hpl in Hp. apply (inj Some) in Hp as <-. exists e, p, k, g, opened. exact (conj Hk Hf).
Defined.
