(* ===== verification/WorkerE2E.v ===== *)
(** * WorkerE2E: from one worker's encodeFrame to another's decodeFrame

    [shares_key] is what the two workers have in common, [ready] what the receiver's gates ask for. *)
From S2P Require Import Prelude Errors Internal Header Kid WebCrypto Toy Crypto SFrame Codec Replay.
From S2P Require Import WorkerTypes WorkerState WorkerFrame Worker StateLogic WorkerLogic Demo WorkerRatchet WorkerEvents WorkerSend WorkerGates.
From S2P Require Durable.
#[local] Open Scope Z_scope.

(** The sender [s] seals with a key that the receiver [r] holds for (e, p). *)
Record shares_key `{WebCrypto} (s r : WorkerState) (k : SenderKey) (e p : Z) : Prop := {
  sh_send : send_key s = Some k;
  sh_kid : decode (kidCodec r) (key_kid k) = Ok (e, p);
  sh_recv : exists k', lookup_key r e p = Some k' /\ sframe_key k' = sframe_key k;
  sh_codec : ws_codec r = ws_codec s;
  sh_trailer : sifTrailer r = sifTrailer s
}.

(** The gates of the receiver are open for the counter [c] of (e, p), and a format cached for that
    sender is the one senders use. *)
Record ready `{WebCrypto} (w : World) (e p c : Z) (N : nat) : Prop := {
  rd_settled : settled w;
  rd_epoch : currentMinValidEpoch (ws w) <= e;
  rd_installed : currentEpoch (ws w) <> -1;
  rd_window : Replay.check (window_of (ws w) e p) c = true;
  rd_durable : durable_verdict w e p c = true;
  rd_valid : isKeyInvalid (ws w) e p = false;
  rd_cache : forall g, getFormatCache (ws w) e p = Some g -> g = mkGuess N aad_header
}.

Section E2E.
Context `{WebCryptoLaws}.
Implicit Types w : World.

Lemma formatCandidates_head codec kind :
  exists rest, formatCandidates codec kind = mkGuess (getUnencryptedBytes codec kind) aad_header :: rest.
Proof.
  unfold formatCandidates. case_bool_decide as Hv.
  - destruct Hv as [-> | ->]; by eexists.
  - case_match eqn:E; [|by eexists]. apply Nat.eqb_eq in E. rewrite E. by eexists.
Qed.

Lemma stripTrailer_append t wire : stripTrailer t (wire ++ default [] t) = Some wire.
Proof.
  destruct t as [t|]; cbn [stripTrailer].
  - change (default [] (Some t)) with t. rewrite (proj2 (ctEndsWith_spec _ _)) by eauto.
    f_equal. apply take_app_exact. rewrite length_app. lia.
  - change (default [] None) with (@nil Byte.byte). by rewrite app_nil_r.
Qed.

(** The prefix is no part of the 'header' form of the additional data. *)
Lemma open_header_form s buf a k :
  open_with s buf a aad_header k = open_with s buf None aad_header k.
Proof. reflexivity. Qed.

(** A sealed frame as the receiver sees it: its header parses and names the sender, and its key
    opens it. *)
Lemma sealed_frame s (k k' : SenderKey) e p c body sealed :
  sframeEncrypt body k c None aad_header = Ok sealed ->
  decode (kidCodec s) (key_kid k) = Ok (e, p) -> sframe_key k' = sframe_key k ->
  exists hdr, parseHeader sealed = Ok hdr /\ kid hdr = key_kid k /\ Header.ctr hdr = c /\
    (1 <= length sealed)%nat /\ (bodyOffset hdr + 16 <= length sealed)%nat /\
    open_with s sealed None aad_header k' = Ok body.
Proof.
  intros Hs Hd Hk. pose proof Hs as Hi.
  apply sframeEncrypt_inv in Hi as (h & ct & Hh & _ & -> & Hl).
  destruct (parse_serialize _ _ _ ct Hh) as (kd & E & Hp & Hb). injection E as <-.
  exists (mkSFrameHeader (key_kid k) c (length h)). rewrite length_app. cbn [kid Header.ctr bodyOffset].
  split_and!; try done; [lia..|]. unfold open_with. rewrite Hk.
  by apply (sframe_open _ _ _ _ _ _ _ _ e p Hs).
Qed.

(** Resolution of a frame [prefix][sealed] when nothing or the senders' format is cached. *)
Lemma addressed_sealed s kind prefix sealed hdr e p k' body :
  length prefix = getUnencryptedBytes (ws_codec s) kind ->
  parseHeader sealed = Ok hdr -> decode (kidCodec s) (kid hdr) = Ok (e, p) ->
  (1 <= length sealed)%nat -> (bodyOffset hdr + 16 <= length sealed)%nat ->
  lookup_key s e p = Some k' -> open_with s sealed None aad_header k' = Ok body ->
  (forall g, getFormatCache s e p = Some g -> g = mkGuess (length prefix) aad_header) ->
  exists probed, addressed s (prefix ++ sealed) kind =
      Ok (mkGuess (length prefix) aad_header, probed, hdr, e, p) /\
    forall pr, probed = Some pr -> pr_plaintext pr = body.
Proof.
  intros Hn Hp Hd Hl1 Hl2 Hk Ho Hc. set (N := length prefix) in *.
  assert (drop N (prefix ++ sealed) = sealed) as Hdrop by (by apply drop_app_exact).
  assert (codec_prefix_len s (prefix ++ sealed) kind = N) as HN.
  { unfold codec_prefix_len. rewrite <- Hn, length_app. lia. }
  unfold addressed, resolveFormat. rewrite HN.
  assert (cachedFormat s (prefix ++ sealed) N = getFormatCache s e p) as ->.
  { unfold cachedFormat. rewrite (proj2 (Nat.ltb_lt _ _)) by (rewrite length_app; lia).
    rewrite Hdrop, Hp. cbn [mbind result_bind]. by rewrite Hd. }
  destruct (getFormatCache s e p) as [g|] eqn:Eg.
  { rewrite (Hc g eq_refl). exists None. cbn [mbind result_bind prefixLen].
    rewrite Hdrop, Hp. cbn [mbind result_bind]. by rewrite Hd. }
  unfold probeFormat. destruct (formatCandidates_head (ws_codec s) kind) as [rest ->].
  rewrite <- Hn. cbn [probe_loop].
  exists (Some (mkProbed (mkGuess N aad_header) body e p (Header.ctr hdr) (kid hdr))).
  assert (probe_one s (prefix ++ sealed) (mkGuess N aad_header) =
    Ok (Some (mkProbed (mkGuess N aad_header) body e p (Header.ctr hdr) (kid hdr)))) as ->.
  { unfold probe_one. cbn [prefixLen aadForm]. rewrite Hdrop, (proj2 (Nat.ltb_ge _ _)) by lia.
    rewrite Hp, (proj2 (Nat.ltb_ge _ _)) by lia. rewrite Hd. cbn [mbind result_bind]. rewrite Hk.
    change (sframeDecrypt sealed _ _) with (open_with s sealed (prefix_arg N (prefix ++ sealed)) aad_header k').
    by rewrite open_header_form, Ho. }
  cbn [mbind result_bind pr_guess prefixLen]. rewrite Hdrop, Hp. cbn [mbind result_bind]. rewrite Hd.
  split; [done|]. by intros pr [= <-].
Qed.

(** Resolution only looks at the keys, the KID codec, the media codec and the format cache. *)
Lemma addressed_ext s s' payload kind :
  epochs s' = epochs s -> kidCodec s' = kidCodec s -> ws_codec s' = ws_codec s ->
  formatCache s' = formatCache s -> addressed s' payload kind = addressed s payload kind.
Proof.
  intros H1 H2 H3 H4.
  assert (forall cs, probe_loop s' payload cs = probe_loop s payload cs) as Hl.
  { induction cs as [|guess cs IH]; cbn [probe_loop]; [done|].
    assert (probe_one s' payload guess = probe_one s payload guess) as ->
      by (unfold probe_one, lookup_key; by rewrite H1, H2).
    destruct (probe_one s payload guess) as [[]|]; cbn [mbind result_bind]; done. }
  unfold addressed, resolveFormat, cachedFormat, codec_prefix_len, probeFormat, getFormatCache.
  by rewrite H2, H3, H4, Hl.
Qed.

(** Once the header has resolved to a sender whose cached key opens the frame, it is delivered. *)
Lemma deliver_sealed fid prefix sealed kind probed hdr e p k' body w :
  settled w -> lookup_key (ws w) e p = Some k' ->
  addressed (ws w) (prefix ++ sealed) kind = Ok (mkGuess (length prefix) aad_header, probed, hdr, e, p) ->
  (forall pr, probed = Some pr -> pr_plaintext pr = body) ->
  open_with (ws w) sealed None aad_header k' = Ok body ->
  exists n w', deliver fid (prefix ++ sealed) (mkGuess (length prefix) aad_header) probed hdr e p w
      = (Ok n, w') /\
    frames w' = alter (fun f => mkFrame (prefix ++ body) (frame_type f)) fid (frames w).
Proof.
  intros Hset Hk Ha Hpr Ho. pose proof (addressed_addressed_to _ _ _ _ _ _ _ _ Ha) as Hto.
  apply addressed_inv in Ha as (_ & Hp & _). cbn [prefixLen] in *.
  set (g := mkGuess (length prefix) aad_header) in *.
  assert (drop (length prefix) (prefix ++ sealed) = sealed) as Hdrop by (by apply drop_app_exact).
  pose proof (deliver_run fid (prefix ++ sealed) g probed hdr e p w Hp) as Hr.
  assert (exists w1, openFrame (prefix ++ sealed) g probed e p w = (Ok body, w1) /\
    frames w1 = frames w) as (w1 & Hopen & Hf1).
  { pose proof (openFrame_frames (prefix ++ sealed) g probed e p w) as Hf.
    enough ((openFrame (prefix ++ sealed) g probed e p w).1 = Ok body) as E.
    { destruct (openFrame _ _ _ _ _ w) as [r w1]. cbn in E. subst r. by exists w1. }
    unfold openFrame. destruct probed as [pr|]; [by rewrite <- (Hpr pr eq_refl)|].
    assert (tryDecryptWithRatchet (drop (prefixLen g) (prefix ++ sealed)) e p
      (prefix_arg (prefixLen g) (prefix ++ sealed)) (aadForm g) w = (Ok body, w)) as E.
    { rewrite (tryDecrypt_run _ _ _ _ _ _ k') by done. cbn [prefixLen aadForm g].
      by rewrite Hdrop, open_header_form, Ho. }
    by rewrite (bind_Ok _ _ _ _ _ E). }
  rewrite Hopen in Hr. destruct Hr as (w2 & Hr & Hf & _). do 2 eexists. split; [exact Hr|].
  rewrite Hf, Hf1. unfold delivered. cbn [prefixLen g]. by rewrite take_app_exact.
Qed.

(** The frame of a sender, [prefix][sealed][trailer], at a receiver whose gates are open for it: it is
    decoded, its counter and format are recorded, and the sender's key stays. *)
Lemma wire_decodes b fb f (k k' : SenderKey) e p c pt sealed :
  let N := getUnencryptedBytes (ws_codec (ws b)) (frameKindOf (frame_type f)) in
  frames b !! fb = Some f -> frame_data f = take N pt ++ sealed ++ default [] (sifTrailer (ws b)) ->
  (N <= length pt)%nat -> sframeEncrypt (drop N pt) k c None aad_header = Ok sealed ->
  decode (kidCodec (ws b)) (key_kid k) = Ok (e, p) -> lookup_key (ws b) e p = Some k' ->
  sframe_key k' = sframe_key k -> ready b e p c N ->
  exists b', decodeFrame fb b = (Ok tt, b') /\
    frames b' = alter (fun f => mkFrame pt (frame_type f)) fb (frames b) /\
    window_of (ws b') e p = Replay.accept (window_of (ws b) e p) c /\
    getFormatCache (ws b') e p = Some (mkGuess N aad_header) /\ lookup_key (ws b') e p = Some k'.
Proof.
  cbv zeta. set (N := getUnencryptedBytes _ _).
  intros Hb Hdata Hlen Hs Hkid Hk' Esf [Hset Hmin Hcur Hwin Hdur Hinv Hcache].
  set (prefix := take N pt) in *.
  assert (length prefix = N) as Hpre by (unfold prefix; rewrite length_take; lia).
  destruct (sealed_frame (ws b) k k' e p _ _ _ Hs Hkid Esf) as (hdr & Hp & Hkd & Hc & Hl1 & Hl2 & Ho).
  assert (kind_of b fb = frameKindOf (frame_type f)) as Ekind by (unfold kind_of; by rewrite Hb).
  assert (contents b fb = prefix ++ sealed ++ default [] (sifTrailer (ws b))) as Econ
    by (unfold contents; by rewrite Hb).
  rewrite decodeFrame_run, Econ, app_assoc, stripTrailer_append, decode_guarded_run.
  rewrite <- Hkd in Hkid.
  destruct (addressed_sealed (ws b) (kind_of b fb) prefix sealed hdr e p k' (drop N pt))
    as (probed & Ha & Hpr); try done; [by rewrite Ekind|by rewrite Hpre|].
  rewrite Ha. set (l := mkLocals _ _ _ _).
  pose proof (decode_gates_run fb (prefix ++ sealed) (mkGuess (length prefix) aad_header) probed hdr e p b)
    as Hg. cbv zeta in Hg. rewrite Hc in Hg.
  rewrite (proj2 (Z.ltb_ge _ _) Hmin), (proj2 (Z.eqb_neq _ _) Hcur), Hwin, Hdur, Hinv in Hg.
  cbn [negb] in Hg. destruct (checked_state e p c b) as (m & gd & v & E & _).
  rewrite E in Hg. match type of Hg with _ = _ ?wc => set (b1 := wc) in Hg end.
  destruct (deliver_sealed fb prefix sealed (kind_of b fb) probed hdr e p k' (drop N pt) b1)
    as (n & b2 & Hd & Hf2); try done.
  { by rewrite (addressed_ext (ws b)). }
  rewrite (bind_Ok _ _ _ _ _ Hd), emitMetric_run in Hg. unfold caught. rewrite Hg.
  eexists. split; [reflexivity|]. split.
  { rewrite metric_frames, Hf2. change (frames b1) with (frames b). by unfold prefix; rewrite take_drop. }
  destruct (decode_gates_ok _ _ _ _ _ _ _ _ _ _ Hset Ha Hg) as [[Hbad _]|(_ & _ & _ & _ & Hin)]; [done|].
  destruct Hin as (st & k1 & opened & (k0 & Hk0 & _ & Hrk & _ & Hbefore) & _ & Hk1 & Hw & Hfc).
  rewrite Hc in Hw. split_and!; [done|by rewrite <- Hpre|]. rewrite Hk1.
  rewrite Hk' in Hk0. injection Hk0 as <-. destruct st as [|st]; [by apply Ok_inj in Hrk as <-|].
  destruct (Hbefore 0%nat ltac:(lia)) as (kj & err & Hkj & Hfail). apply Ok_inj in Hkj as <-.
  cbn [prefixLen aadForm] in Hfail. rewrite drop_app_exact in Hfail by done.
  by rewrite open_header_form, Ho in Hfail.
Qed.

End E2E.

(** ** Properties *)

(** C3. End to end: what one worker's [encodeFrame] puts on the wire, another worker's
    [decodeFrame] turns back into the very same contents, whatever the codec, the KID format, the
    SIF trailer and the counter, when the receiver holds the sender's key, its gates are open, and
    the frame is at least as long as the codec's clear prefix. *)
Theorem send_then_receive `{WebCryptoLaws} (a a' b : World) (fa fb : nat) (k : SenderKey) (e p : Z)
    (Hkey : shares_key (ws a) (ws b) k e p)
    (Hready : ready b e p (ws_ctr (ws a)) (getUnencryptedBytes (ws_codec (ws a)) (kind_of a fa)))
    (Hlen : (getUnencryptedBytes (ws_codec (ws a)) (kind_of a fa) <= length (contents a fa))%nat)
    (Hfa : is_Some (frames a !! fa))
    (Hsend : encodeFrame fa (kind_of a fa) a = (Ok tt, a'))
    (Hwire : frames b !! fb = frames a' !! fa) :
  exists b', decodeFrame fb b = (Ok tt, b') /\ contents b' fb = contents a fa.
Proof.
  destruct Hkey as [Hk Hkid (k' & Hk' & Esf) Hcodec Htrailer]. destruct Hfa as [f Hf].
  rewrite (encodeFrame_run _ _ _ _ Hk) in Hsend. cbv zeta in Hsend.
  set (pt := contents a fa) in *. set (N := getUnencryptedBytes _ _) in *.
  assert (clear_prefix_len (ws a) (kind_of a fa) pt = N) as EN by (unfold clear_prefix_len; fold N; lia).
  rewrite EN in Hsend. destruct (sframeEncrypt _ _ _ _ _) as [sealed|] eqn:Hs; [|done]. injection Hsend as <-.
  rewrite encoded_frames, lookup_alter_eq, Hf in Hwire.
  assert (getUnencryptedBytes (ws_codec (ws b)) (kind_of a fa) = N) as EN' by (by rewrite Hcodec).
  unfold kind_of in EN'. rewrite Hf in EN'. change (default _ (Some f)) with f in EN'.
  pose proof (wire_decodes b fb _ k k' e p (ws_ctr (ws a)) pt sealed Hwire) as Hw.
  cbn [frame_type frame_data] in Hw. rewrite EN', Htrailer in Hw.
  destruct (Hw eq_refl Hlen Hs Hkid Hk' Esf Hready) as (b' & Hd & Hfr & _).
  exists b'. split; [done|]. unfold contents at 1. by rewrite Hfr, lookup_alter_eq, Hwire.
Qed.

(** The demo sender's frame 0, and the receiver it reaches as frame 7. *)
Definition demo_from : World (H := toy) := with_frame 0 demo_data demo_sender.
Definition demo_to : World (H := toy) :=
  with_frame 7 (contents (encodeFrame 0 (kind_of demo_from 0) demo_from).2 0) demo_receiver.

Lemma send_then_receive_witness :
  exists b', decodeFrame 7 demo_to = (Ok tt, b') /\ contents b' 7 = demo_data.
Proof.
  destruct (is_some_b_ex (send_key (ws demo_from))) as [k Hk]; [vm_compute; reflexivity|].
  assert (lookup_key (ws demo_to) 1 0 = send_key (ws demo_from)) as Hsame
    by (vm_cast_no_check (eq_refl (send_key (ws demo_from)))).

  assert (match send_key (ws demo_from) with
          | Some k => match decode (kidCodec (ws demo_to)) (key_kid k) with
                      | Ok (e, p) => (e =? 1) && (p =? 0) | Throw _ => false end
          | None => false end = true) as Hkid by (vm_compute; reflexivity).
  rewrite Hk in Hkid.
  destruct (decode (kidCodec (ws demo_to)) (key_kid k)) as [[e p]|] eqn:Hd; [|discriminate Hkid].
  apply andb_true_iff in Hkid as [->%Z.eqb_eq ->%Z.eqb_eq].
  destruct (returns_b_ex (encodeFrame 0 (kind_of demo_from 0) demo_from)) as [a' Ha];
    [vm_compute; reflexivity|].
  destruct (send_then_receive demo_from a' demo_to 0 7 k 1 0) as (b' & Hb & Hc).
  - split; [exact Hk|exact Hd| |vm_compute; reflexivity|vm_compute; reflexivity].
    exists k. rewrite Hsame. split; [exact Hk|reflexivity].
  - split; [vm_compute; reflexivity|vm_compute; discriminate|vm_compute; discriminate|
      vm_compute; reflexivity|vm_compute; reflexivity|vm_compute; reflexivity|].
    intros g Hg. assert (getFormatCache (ws demo_to) 1 0 = None) as E by (vm_compute; reflexivity).
    rewrite E in Hg. discriminate Hg.
  - apply Nat.leb_le. vm_compute. reflexivity.
  - eexists. vm_compute. reflexivity.
  - exact Ha.
  - assert (a' = (encodeFrame 0 (kind_of demo_from 0) demo_from).2) as -> by (rewrite Ha; reflexivity).
    vm_compute. reflexivity.
  - exists b'. split; [exact Hb|]. rewrite Hc. vm_compute. reflexivity.
Defined.
