(* ===== verification/WorkerEpochs.v ===== *)
(** * WorkerEpochs: the epoch bookkeeping along a run

    [epoch_inv]: a wipe timer only ever runs for an epoch below the current one, the minimum valid
    epoch never passes the current one, and the current epoch is installed. [run_settled]: between
    two events no key derivation is in flight, which the theorems on the receive path ask for. *)
From S2P Require Import Prelude Errors Internal Header Kid WebCrypto Toy Crypto SFrame Codec Replay.
From S2P Require Import WorkerTypes WorkerState WorkerFrame Worker StateLogic WorkerLogic Demo WorkerRatchet WorkerEvents WorkerGates.
From S2P Require Durable.

Section Epochs.
Context `{WebCrypto}.
Implicit Types w : World.

Record epoch_inv (w : World) : Prop := {
  ei_current : -1 <= currentEpoch (ws w);
  ei_min : currentMinValidEpoch (ws w) <= Z.max 0 (currentEpoch (ws w));
  ei_timers e : is_Some (wipeTimers (ws w) !! e) -> e < currentEpoch (ws w);
  ei_installed : currentEpoch (ws w) <> -1 -> is_Some (epochs (ws w) !! currentEpoch (ws w))
}.

(** What [epoch_inv] looks at; the keys of an entry are not part of it. *)
Definition epoch_view (w : World) : Z * Z * gmap Z Z * gset Z :=
  (currentEpoch (ws w), currentMinValidEpoch (ws w), wipeTimers (ws w), dom (epochs (ws w))).

Lemma epoch_inv_view w w' : same epoch_view w w' -> epoch_inv w -> epoch_inv w'.
Proof.
  intros Hv [H1 H2 H3 H4]. unfold same, epoch_view in Hv. injection Hv as E1 E2 E3 E4.
  split; rewrite ?E1, ?E2; try done.
  - intros e. rewrite E3. apply H3.
  - intros Hc. apply elem_of_dom. rewrite E4. by apply elem_of_dom, H4.
Qed.

#[export] Instance epoch_view_receive : Receive_rel (same epoch_view).
Proof.
  assert (Frame_rel (same epoch_view)) by frame_rel_easy.
  split; [done|intros; by apply pushToQueue_keeps|intros; reflexivity..|].
  apply retryLoop_keeps; [done|]. intros w e p k0 raw next st Hk _. unfold same, epoch_view. cbn.
  by rewrite dom_alter_L.
Qed.

Lemma view_keeps {A} (m : W A) : keeps (same epoch_view) m -> keeps (preserved epoch_inv) m.
Proof. apply keeps_sub. intros w w' Hv Hw. by eapply epoch_inv_view. Qed.

Lemma encodeFrame_view fid kind : keeps (same epoch_view) (encodeFrame fid kind).
Proof. unfold encodeFrame. keeps_bookkeeping. Qed.

(** The world once the epochs below [epoch] have their timers. *)
Definition scheduled (epoch : Z) (w : World) : World :=
  w <| ws ::= fun s => s <| wipeTimers ::= fun timers =>
    timers ∪ ((fun _ => clock w + GRACE_WINDOW_MS) <$> filter (fun e => e.1 < epoch) (epochs s)) |> |>.

Lemma schedule_run epoch w : scheduleWipeOfEpochsBelow epoch w = (Ok tt, scheduled epoch w).
Proof. done. Qed.

Definition made_current (epoch self : Z) (w : World) : World :=
  w <| ws ::= fun s => s <| currentEpoch := epoch |> <| selfPeerIndex := Some self |> <| ws_ctr := 0 |> |>.

(** Timers of an epoch that becomes current are all below it. *)
Lemma schedule_inv w epoch self :
  epoch_inv w -> currentEpoch (ws w) < epoch -> is_Some (epochs (ws w) !! epoch) ->
  epoch_inv (scheduled epoch (made_current epoch self w)).
Proof.
  intros [H1 H2 H3 H4] Hlt Hin. split; cbn -[Z.max]; [lia|lia| |done].
  intros e [due He]. apply lookup_union_Some_raw in He as [He|[_ He]].
  - specialize (H3 e (mk_is_Some _ _ He)). lia.
  - rewrite lookup_fmap in He. destruct (filter _ _ !! e) as [entry|] eqn:Ef; [|done].
    by apply map_lookup_filter_Some in Ef as [_ ?].
Qed.

Lemma installEpoch_inv epoch self bundles : keeps (preserved epoch_inv) (installEpoch epoch self bundles).
Proof.
  unfold installEpoch.
  apply keeps_bind; [apply _|apply keeps_gets, _|intros codec].
  apply keeps_bind; [apply _|apply keeps_lift, _|intros keys].
  intros w Hw. rewrite bind_setw. set (w1 := w <| ws ::= _ |>).
  assert (epoch_inv w1 /\ is_Some (epochs (ws w1) !! epoch)) as [Hw1 Hin].
  { destruct Hw as [H1 H2 H3 H4]. unfold w1. cbn. split; [|rewrite lookup_insert_eq; by eexists].
    split; cbn -[Z.max]; try done. intros Hc. rewrite lookup_insert. case_decide; [by eexists|auto]. }
  assert (returns (reset_failures epoch bundles.*1)) as Hret.
  { generalize bundles.*1. intros pis. induction pis; cbn [reset_failures]; unfold resetFailureCount; returns_auto. }
  rewrite (bind_Ok _ _ _ _ _ (returns_run _ w1 Hret)).
  pose proof (keeps_reset_failures (same epoch_view) epoch bundles.*1 w1) as Hv.
  set (w2 := (reset_failures _ _ w1).2) in *.
  assert (epoch_inv w2 /\ is_Some (epochs (ws w2) !! epoch)) as [Hw2 Hin2].
  { split; [by eapply epoch_inv_view|]. unfold same, epoch_view in Hv. injection Hv as _ _ _ Hd.
    apply elem_of_dom. rewrite Hd. by apply elem_of_dom. }
  rewrite bind_getw. destruct (Z.ltb_spec (currentEpoch (ws w2)) epoch) as [Hlt|]; [|done].
  rewrite bind_setw. fold (made_current epoch self w2).
  rewrite (bind_Ok _ _ _ _ _ (schedule_run epoch (made_current epoch self w2))).
  pose proof (schedule_inv w2 epoch self Hw2 Hlt Hin2) as Hs. revert Hs.
  match goal with |- epoch_inv ?w3 -> epoch_inv (?m ?w3).2 =>
    enough (keeps (preserved epoch_inv) m) as Hk by apply Hk end.
  apply view_keeps. keeps_auto; first [apply keeps_emit, _ | apply keeps_emitMetric, _].
Qed.

(** Wiping an epoch below the current one. *)
Lemma wipeEpoch_inv epoch w :
  epoch_inv w -> epoch < currentEpoch (ws w) -> epoch_inv (wipeEpoch epoch w).2.
Proof.
  intros Hw Hlt. unfold wipeEpoch. rewrite bind_getw, bind_setw, bind_setw.
  match goal with |- epoch_inv ((_ ≫= _) ?w1).2 => set (w2 := w1) end.
  assert (epoch_inv w2 /\ epoch < currentEpoch (ws w2)) as [Hw2 Hlt2].
  { destruct Hw as [H1 H2 H3 H4]. unfold w2. split; [|done]. split; cbn -[Z.max]; try done.
    - intros e [due He]. apply lookup_delete_Some in He as [_ He]. apply H3. by eexists.
    - intros Hc. rewrite lookup_delete_ne by lia. rewrite lookup_alter_ne by lia. auto. }
  clearbody w2. rewrite (bind_Ok durable_available _ w2 _ w2 eq_refl).
  match goal with |- epoch_inv ((?m ≫= ?k) w2).2 => set (clearing := m) end.
  assert (returns clearing) as Hret.
  { unfold clearing. repeat case_match; returns_auto; apply returns_clear_durable. }
  rewrite (bind_Ok _ _ _ _ _ (returns_run _ w2 Hret)).
  assert (same epoch_view w2 (clearing w2).2) as Hv.
  { assert (keeps (same epoch_view) clearing) as Hk; [|apply Hk].
    unfold clearing. keeps_bookkeeping. }
  pose proof (epoch_inv_view _ _ Hv Hw2) as [H1 H2 H3 H4].
  assert (currentEpoch (ws (clearing w2).2) = currentEpoch (ws w2)) as Ec.
  { unfold same, epoch_view in Hv. by injection Hv. }
  cbn. split; cbn -[Z.max]; case_match; cbn -[Z.max]; try done; lia.
Qed.

Lemma fireWipeTimer_inv epoch : keeps (preserved epoch_inv) (fireWipeTimer epoch).
Proof.
  intros w Hw. unfold fireWipeTimer. rewrite bind_getw. unfold now.
  rewrite (bind_Ok (gets clock) _ w (clock w) w eq_refl).
  destruct (wipeTimers (ws w) !! epoch) as [due|] eqn:Et; [|done].
  destruct (due <=? clock w); [|done]. apply wipeEpoch_inv; [done|].
  apply (ei_timers _ Hw). by eexists.
Qed.

Ltac by_view :=
  intros; match goal with |- preserved epoch_inv ?w ?w' => exact (epoch_inv_view w w' eq_refl) end.

#[export] Instance epoch_inv_event : Event_rel (preserved epoch_inv).
Proof.
  split.
  - eapply Receive_rel_sub; [apply _|exact epoch_inv_view|apply _].
  - apply installEpoch_inv.
  - apply fireWipeTimer_inv.
  - intros. apply view_keeps, encodeFrame_view.
  - by_view. - by_view. - by_view. - by_view. - by_view. - by_view.
  - by_view. - by_view. - by_view. - by_view.
Qed.

Lemma init_view r pid pi su cap fmt cfg on ns win :
  keeps (same epoch_view) (handleMessage (InitMsg r pid pi su cap fmt cfg on ns win)).
Proof.
  cbn [handleMessage]. keeps_bookkeeping.
Qed.

Lemma teardown_inv w : epoch_inv (teardown w).2.
Proof. split; cbn; try done. intros e [d Hd]. by rewrite lookup_empty in Hd. Qed.

Lemma step_epoch_inv ev : keeps (preserved epoch_inv) (step ev).
Proof.
  assert ({ev = ev_message TeardownMsg} + {no_teardown ev}) as [->|Hev].
  { unfold no_teardown. destruct ev as [[]| | | |]; try (right; discriminate). by left. }
  - intros w _. apply teardown_inv.
  - apply step_keeps; [apply _|done|]. destruct ev as [[]| | | |]; try done.
    apply view_keeps, init_view.
Qed.

Lemma run_epoch_inv w evs : epoch_inv w -> epoch_inv (run w evs).
Proof.
  intros Hw. refine (run_keeps (preserved epoch_inv) (fun _ => True) w evs _ _ Hw).
  - intros ev _. apply step_epoch_inv.
  - by apply Forall_true.
Qed.

(** ** No derivation is in flight between two handlers *)

#[export] Instance settled_frame : Frame_rel (preserved settled).
Proof.
  assert (forall w w', same (fun w => ratchetPromises (ws w)) w w' -> preserved settled w w') as Hs.
  { unfold preserved, settled, same. intros w w' ->. done. }
  split; [apply _|intros; apply Hs; reflexivity..| |intros; apply Hs; reflexivity].
  intros w key p. unfold preserved, settled. cbn. intros ->. by rewrite delete_insert_id by apply lookup_empty.
Qed.

Ltac by_settled := intros w; intros; unfold preserved, settled; cbn; done.

#[export] Instance settled_receive : Receive_rel (preserved settled).
Proof.
  split; [apply _| |by_settled|by_settled|by_settled|].
  - intros. apply pushToQueue_keeps; [apply _|by_settled].
  - apply retryLoop_keeps; [apply _|]. by_settled.
Qed.

#[export] Instance settled_event : Event_rel (preserved settled).
Proof.
  split; [apply _| | | |by_settled..].
  - intros. unfold installEpoch. keeps_bookkeeping.
  - intros. unfold fireWipeTimer, wipeEpoch. keeps_bookkeeping.
  - intros. unfold encodeFrame. keeps_bookkeeping.
Qed.

Lemma run_settled w evs : settled w -> settled (run w evs).
Proof.
  intros Hw. refine (run_keeps (preserved settled) (fun _ => True) w evs _ _ Hw); [|by apply Forall_true].
  intros ev _. assert ({ev = ev_message TeardownMsg} + {no_teardown ev}) as [->|Hev].
  { unfold no_teardown. destruct ev as [[]| | | |]; try (right; discriminate). by left. }
  - done.
  - apply step_keeps; [apply _|done|]. destruct ev as [[]| | | |]; try done.
    cbn [handleMessage]. keeps_bookkeeping.
Qed.

(** ** Epochs only move forward *)

Definition forward : relation World := fun w w' =>
  currentEpoch (ws w) <= currentEpoch (ws w') /\
  currentMinValidEpoch (ws w) <= currentMinValidEpoch (ws w').

#[export] Instance forward_preorder : PreOrder forward.
Proof. unfold forward. split; [intros w; lia|intros w1 w2 w3; lia]. Qed.

Lemma view_forward w w' : same epoch_view w w' -> forward w w'.
Proof. unfold same, epoch_view, forward. intros E. injection E as -> -> _ _. lia. Qed.

Lemma wipeEpoch_forward epoch : keeps forward (wipeEpoch epoch).
Proof.
  unfold wipeEpoch, durable_available. keeps_auto.
  - apply keeps_setw. intros w. unfold forward. cbn. lia.
  - apply keeps_setw. intros w. unfold forward. cbn. lia.
  - eapply keeps_sub; [exact view_forward|apply keeps_clear_durable, _].
  - apply keeps_setw. intros w. unfold forward. cbn. case_match; cbn; lia.
Qed.

Lemma installEpoch_forward epoch self bundles : keeps forward (installEpoch epoch self bundles).
Proof.
  assert (forall A (m : W A), keeps (same epoch_view) m -> keeps forward m) as Hsub.
  { intros A m. apply keeps_sub, view_forward. }
  assert (forall f, (forall w, forward w (w <| ws ::= f |>)) -> keeps forward (setw f)) as Hset.
  { intros f Hf. by apply keeps_modify. }
  unfold installEpoch.
  apply keeps_bind; [apply _|apply keeps_gets, _|intros codec].
  apply keeps_bind; [apply _|apply keeps_lift, _|intros keys].
  apply keeps_bind; [apply _|apply Hset; intros w; unfold forward; cbn; lia|intros _].
  apply keeps_bind; [apply _|apply Hsub, keeps_reset_failures, _|intros _].
  apply keeps_bind_getw. intros w. destruct (Z.ltb_spec (currentEpoch (ws w)) epoch); [|reflexivity].
  apply keeps_at_setw; [apply _|unfold forward; cbn; lia|].
  apply keeps_bind; [apply _| |intros _].
  { intros w1. rewrite schedule_run. unfold forward. cbn. lia. }
  apply Hsub. keeps_auto; first [apply keeps_emit, _ | apply keeps_emitMetric, _].
Qed.

Ltac solve_view := intros; apply view_forward; reflexivity.

#[export] Instance forward_event : Event_rel forward.
Proof.
  split.
  - eapply Receive_rel_sub; [apply _|exact view_forward|apply _].
  - apply installEpoch_forward.
  - intros e. unfold fireWipeTimer, now. keeps_auto. apply wipeEpoch_forward.
  - intros fid kind. eapply keeps_sub; [exact view_forward|apply encodeFrame_view].
  - solve_view. - solve_view. - solve_view. - solve_view. - solve_view. - solve_view.
  - solve_view. - solve_view. - solve_view. - solve_view.
Qed.

Lemma run_forward w evs : Forall no_teardown evs -> forward w (run w evs).
Proof.
  intros Hevs. refine (run_keeps forward no_teardown w evs _ Hevs). intros ev Hev.
  apply step_keeps; [apply _|done|]. destruct ev as [[]| | | |]; try done.
  eapply keeps_sub; [exact view_forward|apply init_view].
Qed.

(** What a wipe leaves of an epoch. *)
Lemma wipeEpoch_effect e w :
  epochs (ws (wipeEpoch e w).2) = delete e (epochs (ws w)) /\
  e < currentMinValidEpoch (ws (wipeEpoch e w).2).
Proof.
  unfold wipeEpoch. rewrite bind_getw, bind_setw, bind_setw.
  match goal with |- context [(_ ≫= _) ?w1] => set (w2 := w1) end.
  assert (epochs (ws w2) = delete e (epochs (ws w))) as He2 by (unfold w2; cbn; apply delete_alter_eq).
  clearbody w2. rewrite (bind_Ok durable_available _ w2 _ w2 eq_refl).
  match goal with |- context [(?m ≫= ?k) w2] => set (clearing := m) end.
  assert (returns clearing) as Hret.
  { unfold clearing. repeat case_match; returns_auto; apply returns_clear_durable. }
  rewrite (bind_Ok _ _ _ _ _ (returns_run _ w2 Hret)).
  assert (epochs (ws (clearing w2).2) = epochs (ws w2)) as Hc.
  { assert (keeps (same (fun w => epochs (ws w))) clearing) as Hk; [|apply Hk].
    unfold clearing. keeps_bookkeeping. }
  cbn. case_match; cbn; rewrite Hc, He2; (split; [done|]); lia.
Qed.

End Epochs.

(** ** Properties *)

(** C26. The life of the current epoch: after any sequence of events, teardowns included, a pending
    wipe timer is for an epoch strictly below the current one, so the current epoch's keys are
    never wiped; once an epoch is current it is installed, and none of its frames is refused as
    stale. *)
Theorem current_epoch_lives `{WebCrypto} (evs : list Event) :
  let s := ws (run initial_world evs) in
  (forall e, is_Some (wipeTimers s !! e) -> e < currentEpoch s) /\
  (currentEpoch s = -1 \/
   is_Some (epochs s !! currentEpoch s) /\ 0 <= currentEpoch s /\
   currentMinValidEpoch s <= currentEpoch s).
Proof.
  destruct (run_epoch_inv initial_world evs) as [H1 H2 H3 H4].
  { split; cbn; try done. intros e [d Hd]. by rewrite lookup_empty in Hd. }
  split; [done|]. destruct (decide (currentEpoch (ws (run initial_world evs)) = -1)); [by left|right].
  split; [auto|lia].
Qed.

(** C27. A wiped epoch stays dead until a teardown: once the wipe timer of epoch [e] has fired, its keys
    are gone, and after any further events other than a teardown (which sets the bound of stale
    epochs back), re-installs of [e] included, every frame whose header resolves to an epoch up to [e]
    is refused with [StaleEpochError], its contents untouched. *)
Theorem wiped_epoch_stays_dead `{WebCrypto} (w : World) (e due : Z) (evs : list Event)
    (Htimer : wipeTimers (ws w) !! e = Some due) (Hdue : due <= clock w)
    (Hevs : Forall no_teardown evs) :
  let w1 := step_world w (ev_timer e) in
  let w2 := run w1 evs in
  (forall p, lookup_key (ws w1) e p = None) /\
  forall fid payload guess probed hdr e' p,
    stripTrailer (sifTrailer (ws w2)) (contents w2 fid) = Some payload ->
    addressed (ws w2) payload (kind_of w2 fid) = Ok (guess, probed, hdr, e', p) -> e' <= e ->
    exists err, (decodeFrame fid w2).1 = Throw err /\ is_StaleEpochError err = true /\
      frames (decodeFrame fid w2).2 = frames w2.
Proof.
  cbv zeta. assert (step_world w (ev_timer e) = (wipeEpoch e w).2) as Hw1.
  { unfold step_world. cbn [step]. unfold fireWipeTimer. rewrite bind_getw.
    rewrite (bind_Ok now _ w (clock w) w eq_refl), Htimer.
    by rewrite (proj2 (Z.leb_le _ _) Hdue). }
  destruct (wipeEpoch_effect e w) as [He Hmin]. rewrite <- Hw1 in He, Hmin.
  split; [intros p; unfold lookup_key; by rewrite He, lookup_delete_eq|].
  intros fid payload guess probed hdr e' p Hpl Ha Hle.
  destruct (run_forward (step_world w (ev_timer e)) evs Hevs) as [_ Hfwd].
  set (w2 := run _ evs) in *. rewrite decodeFrame_run, Hpl, decode_guarded_run, Ha.
  pose proof (decode_gates_run fid payload guess probed hdr e' p w2) as Hg. cbv zeta in Hg.
  rewrite (proj2 (Z.ltb_lt e' _)) in Hg by lia.
  rewrite (caught_Throw _ _ _ _ _ Hg). eexists. split; [done|]. split; [done|].
  rewrite decode_catch_gate by done. cbn [snd]. by rewrite !metric_frames.
Qed.

(** Epoch 1, then epoch 2, and the grace window passes; then epoch 1 is installed again and a frame
    of it arrives. *)
Definition demo_rotated : World (H := toy) :=
  run initial_world [ev_message (EpochMsg 1 1 (demo_bundles 1));
                     ev_message (RotateMsg 2 1 (demo_bundles 2)); ev_tick 3000].
Definition demo_revive : list (Event (H := toy)) :=
  [ev_message (EpochMsg 1 1 (demo_bundles 1));
   ev_frame side_decode 0 (mkFrame (demo_wire 0) (Some "key"%string))].

Lemma wiped_epoch_stays_dead_witness :
  exists err, (decodeFrame 0 (run (step_world demo_rotated (ev_timer 1)) demo_revive)).1 = Throw err /\
    is_StaleEpochError err = true.
Proof.
  assert (wipeTimers (ws demo_rotated) !! 1 = Some 2000) as Ht by (vm_compute; reflexivity).
  assert (2000 <= clock demo_rotated) as Hdue by (vm_compute; discriminate).
  assert (Forall no_teardown demo_revive) as Hevs by (repeat constructor; intros E; discriminate E).
  destruct (wiped_epoch_stays_dead demo_rotated 1 2000 demo_revive Ht Hdue Hevs) as [_ Hdead].
  set (w2 := run _ demo_revive) in *.
  assert (stripTrailer (sifTrailer (ws w2)) (contents w2 0) = Some (demo_wire 0)) as Hpl
    by (vm_compute; reflexivity).
  assert (match addressed (ws w2) (demo_wire 0) (kind_of w2 0) with
          | Ok (_, _, _, e, _) => e <=? 1 | Throw _ => false end = true) as Ha by (vm_compute; reflexivity).
  destruct (addressed (ws w2) (demo_wire 0) (kind_of w2 0)) as [[[[[g pr] hdr] e'] p]|] eqn:E;
    [|discriminate Ha]. apply Z.leb_le in Ha.
  destruct (Hdead 0%nat _ _ _ _ _ _ Hpl E Ha) as (err & H1 & H2 & _). exists err. split; assumption.
Defined.
