(* ===== verification/WorkerFailures.v ===== *)
(** * WorkerFailures: the failure counters that invalidate a key

    [fail_n] plays consecutive authentication failures of one sender. *)
From S2P Require Import Prelude Keys Errors Internal Header Kid WebCrypto Toy Crypto SFrame Codec Replay.
From S2P Require Import WorkerTypes WorkerState WorkerFrame StateLogic WorkerLogic Demo WorkerRatchet WorkerEvents WorkerGates.

Lemma failureKey_inj e p e' p' : failureKey e p = failureKey e' p' -> e = e' /\ p = p'.
Proof. apply join_inj, colon_separator. Qed.

Lemma durableReplayKey_inj e p e' p' : durableReplayKey e p = durableReplayKey e' p' -> e = e' /\ p = p'.
Proof. apply join_inj, bar_separator. Qed.

Section Failures.
Context `{WebCrypto}.
Implicit Types w : World.

Fixpoint fail_n (n : nat) (e p : Z) (w : World) : World :=
  match n with
  | O => w
  | S n => (recordFailure e p (fail_n n e p w)).2
  end.

(** The counter of a sender set to [n]. *)
Definition counted (e p n : Z) (w : World) : World :=
  w <| ws ::= fun s => s <| failureCounts ::= <[failureKey e p := n]> |> |>.

Lemma failure_count_counted e p n w e' p' :
  failure_count (ws (counted e p n w)) e' p' =
    if bool_decide (e' = e /\ p' = p) then n else failure_count (ws w) e' p'.
Proof.
  unfold failure_count, counted. cbn. case_bool_decide as Hd.
  - destruct Hd as [-> ->]. by rewrite lookup_insert_eq.
  - rewrite lookup_insert_ne; [done|]. intros E%failureKey_inj. destruct E as [-> ->]. by apply Hd.
Qed.

Lemma recordFailure_run e p w :
  0 <= failureTolerance (ws w) ->
  let t := failureTolerance (ws w) in
  let n := failure_count (ws w) e p in
  recordFailure e p w = (Ok tt,
    let w' := counted e p (n + 1) w in
    if (n <=? t) && (t <? n + 1) then metric (m_key_invalidated e p (n + 1)) w' else w').
Proof.
  intros Ht. cbv zeta. unfold recordFailure. rewrite bind_getw.
  rewrite (proj2 (Z.ltb_ge _ _) Ht). rewrite bind_getw, bind_setw. fold (counted e p (failure_count (ws w) e p + 1) w).
  case_match; [apply emitMetric_run|done].
Qed.

(** [n] failures in a row, from a clean slate. *)
Record failed (n : nat) (e p : Z) (w w' : World) : Prop := {
  fd_count : failure_count (ws w') e p = Z.of_nat n;
  fd_tolerance : failureTolerance (ws w') = failureTolerance (ws w);
  fd_metrics : metricsEnabled (ws w') = metricsEnabled (ws w);
  fd_others e' p' : ~ (e' = e /\ p' = p) -> failure_count (ws w') e' p' = failure_count (ws w) e' p';
  fd_posted : posted w' = posted w ++
    if failureTolerance (ws w) <? Z.of_nat n
    then metrics (ws w) [m_key_invalidated e p (failureTolerance (ws w) + 1)] else []
}.

Lemma fail_n_failed n e p w :
  0 <= failureTolerance (ws w) -> failure_count (ws w) e p = 0 -> failed n e p w (fail_n n e p w).
Proof.
  intros Ht H0. induction n as [|n [IHc IHt IHm IHo IHp]]; cbn [fail_n].
  { split; try done. rewrite (proj2 (Z.ltb_ge _ _)) by lia. by rewrite app_nil_r. }
  set (w1 := fail_n n e p w) in *. rewrite recordFailure_run by lia. cbv zeta. cbn [snd].
  rewrite IHc, IHt. replace (Z.of_nat n + 1) with (Z.of_nat (S n)) by lia.
  set (t := failureTolerance (ws w)) in *.
  destruct (Z.leb_spec (Z.of_nat n) t); destruct (Z.ltb_spec t (Z.of_nat (S n))); cbn [andb]; try lia.
  - assert (Z.of_nat (S n) = t + 1) as -> by lia.
    split; try (rewrite metric_ws, ?failure_count_counted, ?bool_decide_eq_true_2 by done; cbn; lia || done).
    + intros e' p' Hne. rewrite metric_ws, failure_count_counted, bool_decide_eq_false_2 by done. auto.
    + unfold metric. change (metricsEnabled (ws (counted e p (t + 1) w1))) with (metricsEnabled (ws w1)).
      rewrite IHm. unfold metrics.
      rewrite (proj2 (Z.ltb_ge _ _)) in IHp by lia. rewrite app_nil_r in IHp.
      fold t. rewrite (proj2 (Z.ltb_lt t (Z.of_nat (S n)))) by lia.
      destruct (metricsEnabled (ws w)); cbn; rewrite IHp; [done|by rewrite app_nil_r].
  - split; try (rewrite ?failure_count_counted, ?bool_decide_eq_true_2 by done; cbn; lia || done).
    + intros e' p' Hne. rewrite failure_count_counted, bool_decide_eq_false_2 by done. auto.
    + change (posted (counted e p (Z.of_nat (S n)) w1)) with (posted w1). rewrite IHp.
      by rewrite !(proj2 (Z.ltb_ge _ _)) by lia.
  - split; try (rewrite ?failure_count_counted, ?bool_decide_eq_true_2 by done; cbn; lia || done).
    + intros e' p' Hne. rewrite failure_count_counted, bool_decide_eq_false_2 by done. auto.
    + change (posted (counted e p (Z.of_nat (S n)) w1)) with (posted w1). rewrite IHp.
      by rewrite !(proj2 (Z.ltb_lt _ _)) by lia.
Qed.

Lemma recordSuccess_run e p w :
  0 <= failureTolerance (ws w) -> recordSuccess e p w = (Ok tt, counted e p 0 w).
Proof.
  intros Ht. unfold recordSuccess. rewrite bind_getw. by rewrite (proj2 (Z.ltb_ge _ _) Ht).
Qed.

End Failures.

(** ** Properties *)

(** C35. Failure tolerance: with a tolerance t >= 0, from a clean slate, [n] consecutive
    authentication failures of a sender make its counter [n]; the key is invalid exactly when
    [n > t]; [key_invalidated] is posted once, at failure t + 1, however many follow; one success
    makes the key valid again; no other sender's counter moves (the string keys of the counters
    are injective). With a negative tolerance nothing is counted and no key is ever invalid. *)
Theorem failure_tolerance_contract `{WebCrypto} (w : World) (e p : Z) (n : nat)
    (H0 : failure_count (ws w) e p = 0) :
  let t := failureTolerance (ws w) in
  let w' := fail_n n e p w in
  (0 <= t ->
    failure_count (ws w') e p = Z.of_nat n /\
    isKeyInvalid (ws w') e p = (t <? Z.of_nat n) /\
    posted w' = posted w ++
      (if t <? Z.of_nat n then metrics (ws w) [m_key_invalidated e p (t + 1)] else []) /\
    isKeyInvalid (ws (recordSuccess e p w').2) e p = false /\
    forall e' p', ~ (e' = e /\ p' = p) ->
      isKeyInvalid (ws w') e' p' = isKeyInvalid (ws w) e' p') /\
  (t < 0 -> w' = w /\ forall e' p', isKeyInvalid (ws w) e' p' = false).
Proof.
  cbv zeta. split; intros Ht.
  - destruct (fail_n_failed n e p w Ht H0) as [Hc Htol Hm Ho Hp].
    assert (forall s e p, failureTolerance s = failureTolerance (ws w) ->
      isKeyInvalid s e p = (failureTolerance (ws w) <? failure_count s e p)) as Hinv.
    { intros s e' p' E. unfold isKeyInvalid. by rewrite E, (proj2 (Z.ltb_ge _ _) Ht). }
    rewrite recordSuccess_run by lia. cbn [snd]. rewrite !Hinv by done.
    rewrite failure_count_counted, bool_decide_eq_true_2, Hc by done.
    split_and!; try done; [by apply Z.ltb_ge|].
    intros e' p' Hne. rewrite !Hinv by done. by rewrite Ho.
  - split.
    + induction n as [|n IH]; [done|]. cbn [fail_n]. rewrite IH. unfold recordFailure.
      rewrite bind_getw. by rewrite (proj2 (Z.ltb_lt _ _) Ht).
    + intros e' p'. unfold isKeyInvalid. by rewrite (proj2 (Z.ltb_lt _ _) Ht).
Qed.

Definition demo_tolerant : World (H := toy) :=
  demo_receiver <| ws ::= fun s => s <| failureTolerance := 2 |> <| metricsEnabled := true |> |>.

Lemma failure_tolerance_contract_witness :
  isKeyInvalid (ws (fail_n 2 1 0 demo_tolerant)) 1 0 = false /\
  isKeyInvalid (ws (fail_n 3 1 0 demo_tolerant)) 1 0 = true /\
  posted (fail_n 5 1 0 demo_tolerant) =
    posted demo_tolerant ++ [o_metrics (m_key_invalidated 1 0 3)].
Proof.
  assert (failure_count (ws demo_tolerant) 1 0 = 0) as H0 by (vm_compute; reflexivity).
  assert (0 <= failureTolerance (ws demo_tolerant)) as Ht by (vm_compute; discriminate).
  destruct (failure_tolerance_contract demo_tolerant 1 0 2 H0) as [H2 _].
  destruct (failure_tolerance_contract demo_tolerant 1 0 3 H0) as [H3 _].
  destruct (failure_tolerance_contract demo_tolerant 1 0 5 H0) as [H5 _].
  destruct (H2 Ht) as (_ & E2 & _). destruct (H3 Ht) as (_ & E3 & _). destruct (H5 Ht) as (_ & _ & E5 & _).
  split; [exact E2|split; [exact E3|exact E5]].
Defined.
