(* ===== verification/WorkerQueue.v ===== *)
(** * WorkerQueue: the pre-epoch queue, and what leaves the pipe *)
From S2P Require Import Prelude Errors Internal Header Kid WebCrypto Toy Crypto SFrame Codec Replay.
From S2P Require Import WorkerTypes WorkerState WorkerFrame Worker StateLogic WorkerLogic Demo WorkerRatchet WorkerEvents WorkerGates WorkerEpochs.
From S2P Require Durable.

Section Queue.
Context `{WebCrypto}.
Implicit Types w : World.

(** ** The bound *)

Definition queue_view (w : World) : Z * list nat := (preEpochQueueCap (ws w), preEpochQueue (ws w)).

Definition queue_inv (K : Z) (w : World) : Prop :=
  preEpochQueueCap (ws w) <= K /\ Z.of_nat (length (preEpochQueue (ws w))) <= K.

(** An init message does not ask for more than [K]. *)
Definition cap_at_most (K : Z) (ev : Event) : Prop :=
  match ev with
  | ev_message (InitMsg _ _ _ _ (Some c) _ _ _ _ _) => js_floor c <= K
  | _ => True
  end.

#[export] Instance queue_view_frame : Frame_rel (same queue_view).
Proof. frame_rel_easy. Qed.

(** What a push does to the queue. *)
Lemma pushToQueue_queue fid p w :
  let q := preEpochQueue (ws w) in
  queue_view (pushToQueue fid p w).2 =
    (preEpochQueueCap (ws w),
     (if preEpochQueueCap (ws w) <=? Z.of_nat (length q) then removelast q else q) ++ [fid]).
Proof.
  cbv zeta. unfold pushToQueue. rewrite bind_getw. change (id (ws w)) with (ws w).
  destruct (preEpochQueueCap (ws w) <=? _).
  - set (w1 := w <| ws ::= fun s => s <| preEpochQueue ::= fun q => removelast q |> |>).
    set (rest := emit (o_decrypt_failure "queue_overflow" None None None None);;
      emitMetric (m_queue_drop "pre_epoch_full" None);; noteStarveDrop p).
    assert (returns rest) as Hr by (unfold rest; returns_auto).
    assert (keeps (same queue_view) rest) as Hk.
    { unfold rest. keeps_auto;
        first [apply keeps_emit, _ | apply keeps_emitMetric, _ | apply keeps_noteStarveDrop, _]. }
    rewrite (bind_Ok _ _ w tt (rest w1).2) by (rewrite bind_setw; apply returns_run, Hr).
    specialize (Hk w1). unfold same, queue_view in Hk. injection Hk as E1 E2.
    unfold queue_view. cbn. by rewrite E1, E2.
  - done.
Qed.

Lemma pushToQueue_inv K fid p : 1 <= K -> keeps (preserved (queue_inv K)) (pushToQueue fid p).
Proof.
  intros HK w [Hc Hq]. pose proof (pushToQueue_queue fid p w) as Hv. cbv zeta in Hv.
  unfold queue_view in Hv. injection Hv as E1 E2. unfold queue_inv. rewrite E1, E2. split; [done|].
  rewrite length_app. cbn [length].
  destruct (Z.leb_spec (preEpochQueueCap (ws w)) (Z.of_nat (length (preEpochQueue (ws w))))).
  - destruct (preEpochQueue (ws w)) as [|x q _] using rev_ind; [cbn; lia|].
    rewrite removelast_last. rewrite length_app in Hq. cbn [length] in Hq. lia.
  - lia.
Qed.

Lemma queue_inv_view K w w' : same queue_view w w' -> queue_inv K w -> queue_inv K w'.
Proof. unfold same, queue_view, queue_inv. intros E. by injection E as -> ->. Qed.

Ltac by_queue K := intros; match goal with
  |- preserved _ ?w ?w' => exact (queue_inv_view K w w' eq_refl) end.

#[export] Instance queue_inv_receive K (HK : 1 <= K) : Receive_rel (preserved (queue_inv K)).
Proof.
  assert (Frame_rel (preserved (queue_inv K))) as HF.
  { eapply Frame_rel_sub; [apply _|exact (queue_inv_view K)|apply _]. }
  split; [done|intros; by apply pushToQueue_inv| |by_queue K|by_queue K|].
  - intros w [Hc _]. split; [exact Hc|]. cbn. lia.
  - apply retryLoop_keeps; [done|]. by_queue K.
Qed.

Lemma queue_keeps K {A} (m : W A) : keeps (same queue_view) m -> keeps (preserved (queue_inv K)) m.
Proof. apply keeps_sub. intros w w' Hv Hw. by eapply queue_inv_view. Qed.

Lemma installEpoch_queue e self b : keeps (same queue_view) (installEpoch e self b).
Proof. unfold installEpoch. keeps_bookkeeping. Qed.

Lemma fireWipeTimer_queue e : keeps (same queue_view) (fireWipeTimer e).
Proof. unfold fireWipeTimer, wipeEpoch. keeps_bookkeeping. Qed.

Lemma encodeFrame_queue fid kind : keeps (same queue_view) (encodeFrame fid kind).
Proof. unfold encodeFrame. keeps_bookkeeping. Qed.

#[export] Instance queue_inv_event K (HK : 1 <= K) : Event_rel (preserved (queue_inv K)).
Proof.
  split.
  - by apply queue_inv_receive.
  - intros. apply queue_keeps, installEpoch_queue.
  - intros. apply queue_keeps, fireWipeTimer_queue.
  - intros. apply queue_keeps, encodeFrame_queue.
  - by_queue K. - by_queue K. - by_queue K. - by_queue K. - by_queue K. - by_queue K.
  - by_queue K. - by_queue K. - by_queue K. - by_queue K.
Qed.

Lemma step_queue_inv K ev : 1 <= K -> cap_at_most K ev -> keeps (preserved (queue_inv K)) (step ev).
Proof.
  intros HK Hev.
  assert ({ev = ev_message TeardownMsg} + {no_teardown ev}) as [->|Hno].
  { unfold no_teardown. destruct ev as [[]| | | |]; try (right; discriminate). by left. }
  { intros w [Hc _]. split; [exact Hc|]. cbn. lia. }
  pose proof (queue_inv_event K HK). apply step_keeps; [done|done|].
  destruct ev as [[r pid pi su cap fmt cfg on ns win| | | | | | | | |]| | | |]; try done.
  cbn [handleMessage]. unfold init_durable.
  assert (forall f, (forall w, preserved (queue_inv K) w (w <| ws ::= f |>)) ->
    keeps (preserved (queue_inv K)) (setw f)) as Hset by (intros f Hf; by apply keeps_modify).
  keeps_auto; first
    [ apply keeps_emit, _
    | apply Hset; by_queue K
    | apply Hset; intros w [_ Hq]; split; [exact Hev|exact Hq] ].
Qed.

(** ** What leaves the pipe *)

#[export] Instance enqueued_receive : Receive_rel (same enqueued).
Proof.
  assert (Frame_rel (same enqueued)) by frame_rel_easy.
  receive_rel_easy.
Qed.

Lemma encodeFrame_enqueued fid kind : keeps (same enqueued) (encodeFrame fid kind).
Proof. unfold encodeFrame. keeps_bookkeeping. Qed.

(** What follows a failed encode or decode touches neither the frames nor the output. *)
Lemma noteEncryptDrop_out r : keeps (both (same frames) (same enqueued)) (noteEncryptDrop r).
Proof.
  unfold noteEncryptDrop, now. keeps_auto; apply keeps_modify; intros w; by split.
Qed.

Lemma transform_rest_out side fid r w :
  let w' := (transform_rest side fid r w).2 in
  frames w' = frames w /\ enqueued w' = enqueued w ++ (if is_ok r then [fid] else []).
Proof.
  cbv zeta. destruct r as [[]|err]; [done|]. cbn [is_ok]. rewrite app_nil_r.
  assert (keeps (both (same frames) (same enqueued)) (transform_rest side fid (Throw err))) as Hk;
    [|apply Hk].
  unfold transform_rest. destruct side; [|apply keeps_ret, _]. cbv zeta.
  apply keeps_bind; [apply _| |intros _; apply noteEncryptDrop_out].
  intros w1. rewrite emitMetric_run. unfold metric. by case_match.
Qed.

(** A throw of either direction leaves the frames as they were. *)
Lemma decodeFrame_throws fid w err : (decodeFrame fid w).1 = Throw err ->
  frames (decodeFrame fid w).2 = frames w.
Proof.
  rewrite decodeFrame_run. destruct (stripTrailer _ _) as [payload|]; [|done].
  rewrite decode_guarded_run.
  destruct (addressed _ _ _) as [[[[[g probed] hdr] e] p]|err'] eqn:Ha.
  2: { intros _. rewrite (caught_Throw initial_locals (throw err') w err' w eq_refl).
       apply (keeps_decode_catch (same frames)). }
  destruct (addressed_inv _ _ _ _ _ _ _ _ Ha) as (_ & Hp & _).
  destruct (decode_gates fid payload g probed hdr e p w) as [[[]|err'] w'] eqn:Hg.
  { unfold caught. by rewrite Hg. }
  intros _. rewrite (caught_Throw _ _ _ _ _ Hg).
  rewrite <- (decode_gates_throws _ _ _ _ _ _ _ _ _ _ Hp Hg).
  apply (keeps_decode_catch (same frames)).
Qed.

Lemma encodeFrame_throws fid kind w err : (encodeFrame fid kind w).1 = Throw err ->
  frames (encodeFrame fid kind w).2 = frames w.
Proof.
  unfold encodeFrame. rewrite bind_getw. change (id (ws w)) with (ws w).
  destruct (epochs (ws w) !! currentEpoch (ws w)) as [entry|]; [|done].
  destruct (ent_keys entry !! ent_selfPeerIndex entry) as [key|]; [|done]. cbv zeta.
  rewrite bind_setw. set (w1 := w <| ws ::= _ |>).
  rewrite (bind_Ok (frame_of fid) _ w1 _ w1 eq_refl).
  set (f := default _ _). rewrite bind_liftr. destruct (serializeHeader _ _); [|done].
  rewrite bind_liftr. match goal with |- context [match ?r with Ok _ => _ | Throw _ => _ end] =>
    destruct r as [wire|] end; [|done].
  rewrite bind_liftr. destruct (sframeEncryptInto _ _ _ _ _ _ _ _) as [[n wire']|]; [|done].
  rewrite bind_liftr. match goal with |- context [match ?r with Ok _ => _ | Throw _ => _ end] =>
    destruct r as [wire''|] end; [|done].
  unfold set_frame_data. rewrite bind_modify.
  rewrite (bind_Ok _ _ _ _ _ (emitMetric_run _ _)).
  unfold clearEncryptStarve. rewrite bind_getw. by case_match.
Qed.

End Queue.

(** ** Properties *)


(** The pipe: whatever a frame does, the transform returns, so the pipe lives on; the frame is
    enqueued exactly when its encode or decode returned, with the contents that call gave it; and
    when the call threw no frame's contents have changed, so neither a half-encoded frame nor a
    plaintext that failed authentication ever leaves. *)
Theorem transform_contract `{WebCrypto} (side : Side) (fid : nat) (w : World) :
  let called := match side with
                | side_encode => encodeFrame fid (kind_of w fid) w
                | side_decode => decodeFrame fid w
                end in
  let '(r, w') := transform side fid w in
  r = Ok tt /\ frames w' = frames called.2 /\
  enqueued w' = enqueued w ++ (if is_ok called.1 then [fid] else []) /\
  (is_ok called.1 = false -> frames w' = frames w).
Proof.
  cbv zeta. pose proof (returns_transform side fid w) as Hret.
  rewrite transform_run in Hret |- *. cbv zeta in *. fold (kind_of w fid) in *.
  assert (forall (m : W unit), keeps (same enqueued) m ->
    (forall err, (m w).1 = Throw err -> frames (m w).2 = frames w) ->
    is_ok (let '(r, w') := m w in transform_rest side fid r w').1 = true ->
    let '(r, w') := (let '(r, w') := m w in transform_rest side fid r w') in
    r = Ok tt /\ frames w' = frames (m w).2 /\
    enqueued w' = enqueued w ++ (if is_ok (m w).1 then [fid] else []) /\
    (is_ok (m w).1 = false -> frames w' = frames w)) as Hmain.
  { intros m Hk Ht. specialize (Hk w). destruct (m w) as [r w1]. cbn [fst snd] in *.
    destruct (transform_rest_out side fid r w1) as [Hf He]. intros Hok.
    destruct (transform_rest side fid r w1) as [[[]|] w2]; [|done]. cbn [fst snd] in *.
    unfold same in Hk. rewrite Hf, He, Hk. split_and!; try done.
    destruct r as [|err]; [done|]. intros _. by eapply Ht. }
  destruct side.
  - apply (Hmain (encodeFrame fid (kind_of w fid))); [apply encodeFrame_enqueued| |exact Hret].
    intros err. apply encodeFrame_throws.
  - apply (Hmain (decodeFrame fid)); [apply keeps_decodeFrame, _| |exact Hret].
    intros err. apply decodeFrame_throws.
Qed.

(** Three frames wait in a queue that an init message made two frames long. *)
Definition demo_waiting : list (Event (H := toy)) :=
  [ev_message (InitMsg receiver "p1" 1 None (Some (JsInt 2)) None None false None None);
   ev_frame side_decode 0 (mkFrame (demo_wire 0) (Some "key"%string));
   ev_frame side_decode 1 (mkFrame (demo_wire 1) (Some "delta"%string));
   ev_frame side_decode 2 (mkFrame (demo_wire 2) (Some "delta"%string))].

