(* ===== verification/WorkerKeys.v ===== *)
(** * WorkerKeys: every key the worker holds is filed under the sender its KID names *)
From S2P Require Import Prelude Errors Internal Header Kid WebCrypto Toy Crypto SFrame Codec Replay.
From S2P Require Import WorkerTypes WorkerState WorkerFrame Worker StateLogic WorkerLogic Demo WorkerRatchet WorkerEvents WorkerGates WorkerEpochs.
From S2P Require Durable.

Section Keys.
Context `{WebCrypto}.
Implicit Types w : World.

(** [k] belongs to the sender (e, p). *)
Record named (c : KidCodec) (e p : Z) (k : SenderKey) : Prop := {
  nm_epoch : key_epoch k = e;
  nm_peerIndex : key_peerIndex k = p;
  nm_kid : encode c e p = Ok (key_kid k)
}.

Definition table_ok (c : KidCodec) (m : gmap Z EpochEntry) : Prop :=
  forall e entry p k, m !! e = Some entry -> ent_keys entry !! p = Some k -> named c e p k.

Definition keys_inv (c : KidCodec) (w : World) : Prop :=
  kidCodec (ws w) = c /\ table_ok c (epochs (ws w)).

Definition keys_view (w : World) : KidCodec * gmap Z EpochEntry := (kidCodec (ws w), epochs (ws w)).

Lemma keys_inv_view c w w' : same keys_view w w' -> keys_inv c w -> keys_inv c w'.
Proof. unfold same, keys_view, keys_inv. intros E. by injection E as -> ->. Qed.

Lemma keys_keeps c {A} (m : W A) : keeps (same keys_view) m -> keeps (preserved (keys_inv c)) m.
Proof. apply keeps_sub. intros w w' Hv Hw. by eapply keys_inv_view. Qed.

Lemma deriveNext_named raw sa e p su c k :
  deriveNextSenderKey raw sa e p su c = Ok k -> named c e p k.
Proof.
  unfold deriveNextSenderKey. destruct (hkdfInfo _ _); [|done]. cbn [mbind result_bind].
  destruct (hkdfExtractExpand _ _ _ _); [|done]. cbn [mbind result_bind].
  destruct (importAesKey _); [|done]. cbn [mbind result_bind].
  destruct (encode c e p) as [kid|] eqn:E; [|done]. cbn. intros <-%Ok_inj. by split.
Qed.

Lemma build_keys_named c e bundles keys keys' :
  (forall p k, keys !! p = Some k -> named c e p k) ->
  build_keys c e bundles keys = Ok keys' -> forall p k, keys' !! p = Some k -> named c e p k.
Proof.
  revert keys. induction bundles as [|[pi b] bundles IH]; intros keys Hk; cbn [build_keys].
  { by intros <-%Ok_inj. }
  destruct (encode c e pi) as [kid|] eqn:E; [|done]. cbn [mbind result_bind]. apply IH.
  intros p k. rewrite lookup_insert. case_decide as Hp; [|apply Hk].
  intros [= <-]. subst. by split.
Qed.

Lemma table_ok_insert c m e entry :
  table_ok c m -> (forall p k, ent_keys entry !! p = Some k -> named c e p k) ->
  table_ok c (<[e := entry]> m).
Proof.
  intros Hm He e' entry' p k. rewrite lookup_insert. case_decide as Hd; [|apply Hm].
  intros [= <-]. subst. apply He.
Qed.

(** A ratchet step caches a key of the same sender. *)
Lemma advanced_inv c w e p k0 raw next st :
  lookup_key (ws w) e p = Some k0 ->
  deriveNextSenderKey raw (salt k0) e p (suite (ws w)) (kidCodec (ws w)) = Ok next ->
  keys_inv c w -> keys_inv c (advanced e p next st w).
Proof.
  intros Hk Hn%deriveNext_named [Hc Ht]. split; [done|].
  intros e' entry' p' k'. cbn. rewrite lookup_alter. case_decide as Hd; [|apply Ht].
  subst e'. unfold lookup_key in Hk. apply bind_Some in Hk as (entry & He & _). rewrite He. cbn.
  intros [= <-]. cbn. rewrite lookup_insert. case_decide as Hp.
  - intros [= <-]. subst. exact Hn.
  - by apply Ht.
Qed.

Ltac by_keys c := intros; match goal with
  |- preserved _ ?w ?w' => exact (keys_inv_view c w w' eq_refl) end.

#[export] Instance keys_view_frame : Frame_rel (same keys_view).
Proof. frame_rel_easy. Qed.

#[export] Instance keys_inv_receive c : Receive_rel (preserved (keys_inv c)).
Proof.
  assert (Frame_rel (preserved (keys_inv c))) as HF.
  { eapply Frame_rel_sub; [apply _|exact (keys_inv_view c)|apply _]. }
  split; [done| |by_keys c|by_keys c|by_keys c|].
  - intros. apply pushToQueue_keeps; [done|by_keys c].
  - apply retryLoop_keeps; [done|]. intros w e p k0 raw next st Hk Hn.
    exact (advanced_inv c w e p k0 raw next st Hk Hn).
Qed.

Lemma installEpoch_keys c e self b : keeps (preserved (keys_inv c)) (installEpoch e self b).
Proof.
  unfold installEpoch. apply keeps_bind_getw. intros w [Hc Ht]. rewrite bind_liftr.
  destruct (build_keys _ _ _ _) as [keys|] eqn:Eb; [|by split].
  rewrite bind_setw. set (w1 := w <| ws ::= _ |>).
  assert (keys_inv c w1) as Hw1.
  { split; [done|]. apply table_ok_insert; [done|]. cbn. rewrite <- Hc.
    eapply build_keys_named; [|exact Eb]. intros p k. by rewrite lookup_empty. }
  revert Hw1. generalize w1. clear w1. intros w1.
  match goal with |- keys_inv c w1 -> keys_inv c (?m w1).2 =>
    enough (keeps (preserved (keys_inv c)) m) as Hk by apply Hk end.
  apply keys_keeps. keeps_bookkeeping.
Qed.

Lemma table_ok_delete c m e f : table_ok c m -> table_ok c (delete e (alter f e m)).
Proof.
  intros Hm e' entry p k. rewrite delete_alter_eq, lookup_delete_Some. intros [_ He]. by eapply Hm.
Qed.

Lemma fireWipeTimer_keys c e : keeps (preserved (keys_inv c)) (fireWipeTimer e).
Proof.
  intros w Hw. unfold fireWipeTimer. rewrite bind_getw. unfold now.
  rewrite (bind_Ok (gets clock) _ w (clock w) w eq_refl).
  destruct (wipeTimers (ws w) !! e) as [due|]; [|done]. destruct (due <=? clock w); [|done].
  unfold wipeEpoch. rewrite bind_getw, bind_setw, bind_setw.
  match goal with |- keys_inv c ((_ ≫= _) ?w1).2 => set (w2 := w1) end.
  assert (keys_inv c w2) as Hw2 by (destruct Hw; split; [done|by apply table_ok_delete]).
  revert Hw2. generalize w2. clear w2. intros w2.
  match goal with |- keys_inv c w2 -> keys_inv c (?m w2).2 =>
    enough (keeps (preserved (keys_inv c)) m) as Hk by apply Hk end.
  apply keys_keeps. keeps_bookkeeping.
Qed.

Lemma encodeFrame_keys fid kind : keeps (same keys_view) (encodeFrame fid kind).
Proof. unfold encodeFrame. keeps_bookkeeping. Qed.

#[export] Instance keys_inv_event c : Event_rel (preserved (keys_inv c)).
Proof.
  split.
  - apply _.
  - apply installEpoch_keys.
  - apply fireWipeTimer_keys.
  - intros. apply keys_keeps, encodeFrame_keys.
  - by_keys c. - by_keys c. - by_keys c. - by_keys c. - by_keys c. - by_keys c.
  - by_keys c. - by_keys c. - by_keys c. - by_keys c.
Qed.

(** No init message chooses another KID format. *)
Definition same_format (ev : Event) : Prop :=
  match ev with
  | ev_message (InitMsg _ _ _ _ _ (Some _) _ _ _ _) => False
  | _ => True
  end.

Lemma step_keys_inv c ev : same_format ev -> keeps (preserved (keys_inv c)) (step ev).
Proof.
  intros Hev.
  assert ({ev = ev_message TeardownMsg} + {no_teardown ev}) as [->|Hno].
  { unfold no_teardown. destruct ev as [[]| | | |]; try (right; discriminate). by left. }
  { intros w [Hc _]. split; [exact Hc|]. intros e entry p k. cbn. by rewrite lookup_empty. }
  apply step_keeps; [apply _|done|].
  destruct ev as [[r pid pi su cap fmt cfg on ns win| | | | | | | | |]| | | |]; try done.
  destruct fmt; [done|]. apply keys_keeps. cbn [handleMessage]. keeps_bookkeeping.
Qed.

End Keys.

(** ** Properties *)

(** The key table is well filed: from a worker with no epochs, whose KID format keeps the codec
    laws and is not changed, any events, re-installs, ratchet steps, wipes and teardowns included,
    leave every key under exactly the epoch and peer index that it carries and that its KID encodes
    and decodes to; so two slots never share a KID. *)
Theorem key_table_well_filed `{WebCrypto} (w : World) (evs : list Event)
    (Hempty : epochs (ws w) = ∅) (Hlaws : KidCodecLaws (kidCodec (ws w)))
    (Hevs : Forall same_format evs) :
  let s := ws (run w evs) in
  forall e p k, lookup_key s e p = Some k ->
    key_epoch k = e /\ key_peerIndex k = p /\
    encode (kidCodec s) e p = Ok (key_kid k) /\ decode (kidCodec s) (key_kid k) = Ok (e, p) /\
    forall e' p' k', lookup_key s e' p' = Some k' -> key_kid k' = key_kid k -> e' = e /\ p' = p.
Proof.
  cbv zeta. assert (keys_inv (kidCodec (ws w)) (run w evs)) as [Hc Ht].
  { refine (run_keeps (preserved (keys_inv (kidCodec (ws w)))) same_format w evs _ Hevs _).
    - intros ev. apply step_keys_inv.
    - split; [done|]. intros e entry p k. by rewrite Hempty, lookup_empty. }
  set (s := ws (run w evs)) in *. rewrite Hc.
  assert (forall e p k, lookup_key s e p = Some k -> named (kidCodec (ws w)) e p k) as Hnamed.
  { intros e p k (entry & He & Hk)%bind_Some. by eapply Ht. }
  intros e p k Hk. destruct (Hnamed _ _ _ Hk) as [H1 H2 H3].
  split_and!; [done..|by apply codec_roundtrip|].
  intros e' p' k' Hk' E. destruct (Hnamed _ _ _ Hk') as [_ _ H3']. rewrite E in H3'.
  by eapply codec_inj.
Qed.

Lemma key_table_well_filed_witness :
  match lookup_key (ws (run initial_world [ev_message (EpochMsg 1 1 (demo_bundles 1))])) 1 0 with
  | Some k => key_epoch k = 1 /\ key_peerIndex k = 0
  | None => False
  end.
Proof.
  assert (Forall same_format [ev_message (EpochMsg 1 1 (demo_bundles 1))]) as Hevs
    by (repeat constructor).
  pose proof (key_table_well_filed initial_world _ eq_refl FIXED_KID_CODEC_laws Hevs) as Hk.
  cbv zeta in Hk.
  destruct (is_some_b_ex (lookup_key (ws (run initial_world
    [ev_message (EpochMsg 1 1 (demo_bundles 1))])) 1 0)) as [k E]; [vm_compute; reflexivity|].
  rewrite E. destruct (Hk 1 0 k E) as (H1 & H2 & _). split; assumption.
Defined.
