(* ===== verification/WorkerReplay.v ===== *)
(** * WorkerReplay: a frame that was let through is refused when it comes again *)
From S2P Require Import Prelude Errors Internal Header Kid WebCrypto Toy Crypto SFrame Codec Replay.
From S2P Require Import WorkerTypes WorkerState WorkerFrame Worker StateLogic WorkerLogic Demo WorkerRatchet WorkerEvents WorkerGates.
From S2P Require Durable.

Section Replay.
Context `{WebCrypto}.
Implicit Types w : World.

Lemma set_add_elem c l : c ∈ set_add c l.
Proof. unfold set_add. case_bool_decide; [done|]. set_solver. Qed.

Lemma seen_scan_elem c l : c ∈ l -> seen_scan l c = true.
Proof.
  induction l as [|s l IH]; cbn [seen_scan]; [by intros ?%elem_of_nil|].
  destruct (ctBigintEqual s c) eqn:E; [done|]. intros [->|Hc]%elem_of_cons; [|by apply IH].
  rewrite (proj2 (ctBigintEqual_spec s s) eq_refl) in E. done.
Qed.

(** An open window refuses what it has just accepted. *)
Lemma check_accept win c : windowSize win <> 0 -> Replay.check (Replay.accept win c) c = false.
Proof.
  intros Hz. unfold Replay.accept, Replay.check. rewrite (proj2 (Z.eqb_neq _ _) Hz).
  destruct (seen_scan (seen win) c) eqn:Es.
  - by rewrite (proj2 (Z.eqb_neq _ _) Hz), Es.
  - set (win' := if windowSize win <=? _ then _ else _).
    assert (windowSize win' = windowSize win) as Hz' by (unfold win'; repeat case_match; done).
    cbn. rewrite Hz', (proj2 (Z.eqb_neq _ _) Hz). by rewrite seen_scan_elem by apply set_add_elem.
Qed.

(** What the receive path never writes. *)
Definition settings (w : World) : KidCodec * option Codec * option bytes * Z * Z :=
  (kidCodec (ws w), ws_codec (ws w), sifTrailer (ws w), currentMinValidEpoch (ws w), currentEpoch (ws w)).

#[export] Instance settings_receive : Receive_rel (same settings).
Proof.
  assert (Frame_rel (same settings)) by frame_rel_easy.
  receive_rel_easy.
Qed.

(** The header again, through the cache. *)
Lemma addressed_cached s payload kind g hdr e p :
  prefixLen g = codec_prefix_len s payload kind ->
  parseHeader (drop (prefixLen g) payload) = Ok hdr -> decode (kidCodec s) (kid hdr) = Ok (e, p) ->
  getFormatCache s e p = Some g ->
  addressed s payload kind = Ok (g, None, hdr, e, p).
Proof.
  intros Hn Hp Hd Hc. unfold addressed, resolveFormat. rewrite <- Hn.
  assert (cachedFormat s payload (prefixLen g) = Some g) as ->.
  { unfold cachedFormat. pose proof (parseHeader_bounds _ _ Hp) as (_ & _ & Hb).
    rewrite length_drop in Hb. rewrite (proj2 (Nat.ltb_lt _ _)) by lia. rewrite Hp.
    cbn [mbind result_bind]. by rewrite Hd. }
  cbn [mbind result_bind]. rewrite Hp. cbn [mbind result_bind]. by rewrite Hd.
Qed.

End Replay.

(** ** Properties *)

(** Replay: after a frame has been decrypted, the very same bytes arriving again, on whatever
    frame object, are refused with [ReplayError] for that sender and counter, as long as its window
    is open (size other than 0); the second copy is not even tried. This is for a frame whose
    format has the codec's clear prefix, as senders produce it. *)
Theorem replayed_frame_refused `{WebCrypto} (w w1 : World) (fid fid2 : nat) (f : Frame)
    (payload : bytes) (g : FormatGuess) (probed : option Probed) (hdr : SFrameHeader) (e p : Z)
    (Hset : settled w) (Hf : frames w !! fid = Some f)
    (Hpl : stripTrailer (sifTrailer (ws w)) (frame_data f) = Some payload)
    (Ha : addressed (ws w) payload (frameKindOf (frame_type f)) = Ok (g, probed, hdr, e, p))
    (Hg : prefixLen g = codec_prefix_len (ws w) payload (frameKindOf (frame_type f)))
    (Hcur : currentEpoch (ws w) <> -1) (Hwin : windowSize (window_of (ws w) e p) <> 0)
    (Hrun : decodeFrame fid w = (Ok tt, w1)) :
  let again := w1 <| frames ::= <[fid2 := f]> |> in
  (decodeFrame fid2 again).1 = Throw (ReplayError e p (Header.ctr hdr)) /\
  contents (decodeFrame fid2 again).2 fid2 = frame_data f.
Proof.
  cbv zeta. pose proof (keeps_decodeFrame (same settings) fid w) as Hs. rewrite Hrun in Hs.
  unfold same, settings in Hs. cbn [snd] in Hs. injection Hs as E1 E2 E3 E4 E5.
  pose proof (addressed_inv _ _ _ _ _ _ _ _ Ha) as (_ & Hp & Hd & _).
  rewrite decodeFrame_run in Hrun. unfold contents, kind_of in Hrun. rewrite Hf in Hrun.
  change (default (mkFrame [] None) (Some f)) with f in Hrun.
  rewrite Hpl, decode_guarded_run, Ha in Hrun. unfold caught in Hrun.
  destruct (decode_gates fid payload g probed hdr e p w) as [[[]|err] w'] eqn:Hgate.
  2: { rewrite (then_throw (decode_catch _ _)) in Hrun by returns_auto. done. }
  injection Hrun as <-.
  destruct (decode_gates_ok _ _ _ _ _ _ _ _ _ _ Hset Ha Hgate)
    as [[? _]|(Hmin & _ & _ & _ & n & k & opened & _ & _ & _ & Hw & Hc)]; [done|].
  set (again := w' <| frames ::= <[fid2 := f]> |>).
  assert (frames again !! fid2 = Some f) as Hf2 by apply lookup_insert_eq.
  assert (addressed (ws again) payload (frameKindOf (frame_type f)) = Ok (g, None, hdr, e, p)) as Ha2.
  { apply addressed_cached; [|done|by change (ws again) with (ws w'); rewrite E1|exact Hc].
    rewrite Hg. unfold codec_prefix_len. change (ws again) with (ws w'). by rewrite E2. }
  rewrite decodeFrame_run. unfold contents, kind_of. rewrite Hf2.
  change (default (mkFrame [] None) (Some f)) with f. change (ws again) with (ws w').
  rewrite E3, Hpl, decode_guarded_run. change (ws again) with (ws w') in Ha2.
  change (ws again) with (ws w'). rewrite Ha2.
  pose proof (decode_gates_run fid2 payload g None hdr e p again) as Hg2. cbv zeta in Hg2.
  change (ws again) with (ws w') in Hg2.
  rewrite E4, E5, (proj2 (Z.ltb_ge _ _) Hmin), (proj2 (Z.eqb_neq _ _) Hcur), Hw in Hg2.
  rewrite check_accept in Hg2 by done. cbn [negb] in Hg2.
  rewrite (caught_Throw _ _ _ _ _ Hg2). split; [done|].
  rewrite decode_catch_gate by done. cbn [snd].
  rewrite metric_frames, note_replay_run, metric_all_spec. change (frames _) with (frames again).
  by rewrite Hf2.
Qed.

Lemma replayed_frame_refused_witness :
  exists err, (decodeFrame 5 ((decodeFrame 0 demo_arrived).2
    <| frames ::= <[5%nat := mkFrame (demo_wire 0) (Some "key"%string)]> |>)).1 = Throw err.
Proof.
  assert (match addressed (ws demo_arrived) (demo_wire 0) (Some kind_key) with
          | Ok (g, _, hdr, e, p) => (prefixLen g =? 0)%nat && (e =? 1) && (p =? 0)
          | Throw _ => false end = true) as Hb by (vm_compute; reflexivity).
  destruct (addressed (ws demo_arrived) (demo_wire 0) (Some kind_key))
    as [[[[[g pr] hdr] e] p]|] eqn:Ha; [|discriminate Hb].
  apply andb_true_iff in Hb as [[Hg%Nat.eqb_eq ->%Z.eqb_eq]%andb_true_iff ->%Z.eqb_eq].
  destruct (returns_b_ex (decodeFrame 0 demo_arrived)) as [w1 Hrun]; [vm_compute; reflexivity|].
  destruct (replayed_frame_refused demo_arrived w1 0 5 (mkFrame (demo_wire 0) (Some "key"%string))
    (demo_wire 0) g pr hdr 1 0) as [Hr _]; [vm_compute; reflexivity|reflexivity|reflexivity|exact Ha|
    rewrite Hg; reflexivity|vm_compute; discriminate|vm_compute; discriminate|exact Hrun|].
  rewrite Hrun. eexists. exact Hr.
Defined.
