(* ===== verification/WorkerDrain.v ===== *)
(** * WorkerDrain: the drain of the pre-epoch queue against decodeFrame

    The source writes the receive path twice, in [decodeFrame] and in [drainPreEpochQueue]. When there
    is no SIF trailer and an epoch is installed, the two leave the same frames, keys, format cache and
    replay windows; their notices, failure counts and queues differ. *)
From S2P Require Import Prelude Errors Internal Header Kid WebCrypto Toy Crypto SFrame Codec Replay.
From S2P Require Import WorkerTypes WorkerState WorkerFrame Worker StateLogic WorkerLogic Demo WorkerRatchet WorkerEvents WorkerGates WorkerReplay.
From S2P Require Durable.

Section Drain.
Context `{WebCrypto}.
Implicit Types w : World.

Lemma drain_try_run fid w :
  drain_try fid w =
    match addressed (ws w) (contents w fid) (kind_of w fid) with
    | Throw err => (Throw err, w)
    | Ok (guess, probed, hdr, e, p) =>
        let c := Header.ctr hdr in
        if e <? currentMinValidEpoch (ws w) then (Ok tt, w) else
        match lookup_key (ws w) e p with
        | None => pushToQueue fid (Some p) w
        | Some _ =>
            if negb (Replay.check (window_of (ws w) e p) c)
            then (Ok tt, (note_replay hdr e p (with_window e p w)).2)
            else if negb (durable_verdict w e p c)
            then (Ok tt, (note_replay hdr e p (checked e p c w)).2)
            else if isKeyInvalid (ws w) e p
            then (Ok tt, (note_key_invalid hdr e p (checked e p c w)).2)
            else (deliver fid (contents w fid) guess probed hdr e p;; mret tt) (checked e p c w)
        end
    end.
Proof.
  unfold drain_try, addressed. rewrite (bind_Ok (frame_of fid) _ w _ w eq_refl).
  rewrite bind_getw. change (id (ws w)) with (ws w). fold (contents w fid) (kind_of w fid).
  rewrite bind_liftr.
  destruct (resolveFormat _ _ _) as [[guess probed]|err]; [|done]. cbn [mbind result_bind].
  rewrite bind_liftr. destruct (parseHeader _) as [hdr|err]; [|done]. cbn [mbind result_bind].
  rewrite bind_liftr. destruct (decode _ _) as [[e p]|err]; [|done].
  cbn [mbind result_bind mret result_ret]. cbv zeta.
  destruct (e <? currentMinValidEpoch (ws w)); [done|].
  destruct (lookup_key (ws w) e p) as [k|]; [|done].
  rewrite (bind_Ok _ _ _ _ _ (getReplayWindow_run e p w)).
  destruct (Replay.check _ _); cbn [negb]; [|apply returns_run; unfold note_replay; returns_auto].
  rewrite (bind_Ok _ _ _ _ _ (durable_check_run e p (Header.ctr hdr) w)).
  destruct (durable_verdict _ _ _ _); cbn [negb]; [|apply returns_run; unfold note_replay; returns_auto].
  rewrite bind_getw. change (id (ws (checked e p (Header.ctr hdr) w)))
    with (ws (checked e p (Header.ctr hdr) w)).
  destruct (checked_state e p (Header.ctr hdr) w) as (m & g & v & E & _).
  assert (isKeyInvalid (ws (checked e p (Header.ctr hdr) w)) e p = isKeyInvalid (ws w) e p) as ->
    by (rewrite E; reflexivity).
  destruct (isKeyInvalid _ _ _); [|done]. apply returns_run; unfold note_key_invalid; returns_auto.
Qed.

(** Equal up to notices, failure counts, queue, guard and fresh windows. *)
Record agree (w w' : World) : Prop := {
  ag_frames : frames w' = frames w;
  ag_epochs : epochs (ws w') = epochs (ws w);
  ag_cache : formatCache (ws w') = formatCache (ws w);
  ag_windows e p : window_of (ws w') e p = window_of (ws w) e p
}.

#[export] Instance agree_preorder : PreOrder agree.
Proof.
  split; [by intros w|]. intros w1 w2 w3 [? ? ? ?] [? ? ? ?]. split; intros; etrans; eauto.
Qed.

#[export] Instance agree_symm : Symmetric agree.
Proof. intros w w' [? ? ? ?]. by split. Qed.

Definition agree_view (w : World) :=
  (frames w, epochs (ws w), formatCache (ws w), replayWindows (ws w), replayWindowSize (ws w)).

Lemma agree_view_agree w w' : same agree_view w w' -> agree w w'.
Proof.
  unfold same, agree_view. intros E. injection E as E1 E2 E3 E4 E5.
  split; [done..|]. intros e p. unfold window_of. by rewrite E4, E5.
Qed.

Lemma agree_keeps {A} (m : W A) : keeps (same agree_view) m -> keeps agree m.
Proof. apply keeps_sub, agree_view_agree. Qed.

Lemma agree_checked e p c w : agree w (checked e p c w).
Proof.
  destruct (checked_state e p c w) as (m & g & v & E & _ & Hw).
  split; [rewrite E; reflexivity..|exact Hw].
Qed.

Lemma agree_with_window e p w : agree w (with_window e p w).
Proof. destruct (like_with_window e p w). split; done. Qed.

Lemma agree_metric_all evs l w :
  agree w (metric_all evs (w <| posted ::= fun p => p ++ l |>)).
Proof. rewrite metric_all_spec. by split. Qed.

Lemma agree_push fid p : keeps agree (pushToQueue fid p).
Proof.
  apply agree_keeps. unfold pushToQueue, noteStarveDrop, emitMetric, emit, now. keeps_auto;
    apply keeps_modify; reflexivity.
Qed.

Lemma agree_decode_catch l err : keeps agree (decode_catch l err).
Proof.
  apply agree_keeps. unfold decode_catch, recordFailure, emitMetric, emit. keeps_auto;
    apply keeps_modify; reflexivity.
Qed.

Lemma agree_drain_catch err : keeps agree (drain_catch err).
Proof.
  apply agree_keeps. unfold drain_catch, recordFailure, emitMetric, emit. keeps_auto;
    apply keeps_modify; reflexivity.
Qed.

Lemma agree_caught l m w : agree (m w).2 (caught l m w).2.
Proof.
  destruct (m w) as [[u|err] w1] eqn:E; [unfold caught; by rewrite E|].
  rewrite (caught_Throw _ _ _ _ _ E). apply agree_decode_catch.
Qed.

Lemma agree_catch (m : W unit) w : agree (m w).2 ((catch m drain_catch : W unit) w).2.
Proof.
  unfold catch. destruct (m w) as [[u|err] w1] eqn:E; [done|]. apply agree_drain_catch.
Qed.

(** Opening without a key changes nothing. *)
Lemma deliver_no_key fid payload guess kind probed hdr e p w w1 :
  addressed (ws w) payload kind = Ok (guess, probed, hdr, e, p) ->
  lookup_key (ws w) e p = None -> epochs (ws w1) = epochs (ws w) ->
  (deliver fid payload guess probed hdr e p w1).2 = w1.
Proof.
  intros (_ & Hp & _ & Hpr)%addressed_inv Hk He.
  destruct probed as [pr|].
  { destruct Hpr as (_ & <- & <- & [_ _ _ _ (k & Hk' & _)]). by rewrite Hk in Hk'. }
  pose proof (deliver_run fid payload guess None hdr e p w1 Hp) as Hd.
  assert (exists err, openFrame payload guess None e p w1 = (Throw err, w1)) as [err Ho].
  { unfold openFrame. unfold lookup_key in Hk.
    assert (exists err, tryDecryptWithRatchet (drop (prefixLen guess) payload) e p
      (prefix_arg (prefixLen guess) payload) (aadForm guess) w1 = (Throw err, w1)) as [err Ht].
    { unfold tryDecryptWithRatchet. rewrite bind_getw. change (id (ws w1)) with (ws w1).
      rewrite He. destruct (epochs (ws w) !! e) as [entry|]; [|by eexists].
      cbn [mbind option_bind] in Hk. rewrite Hk. by eexists. }
    exists err. by rewrite (bind_Throw _ _ _ _ _ Ht). }
  rewrite Ho in Hd. by rewrite Hd.
Qed.

(** One frame of the drain and one call of [decodeFrame]. *)
Lemma drain_decode fid w :
  sifTrailer (ws w) = None -> currentEpoch (ws w) <> -1 ->
  agree (decodeFrame fid w).2 ((catch (drain_try fid) drain_catch : W unit) w).2.
Proof.
  intros Ht Hc. etrans; [|apply agree_catch].
  rewrite decodeFrame_run, Ht. cbn [stripTrailer]. rewrite decode_guarded_run, drain_try_run.
  destruct (addressed _ _ _) as [[[[[g probed] hdr] e] p]|err] eqn:Ha.
  2: { symmetry. apply agree_caught. }
  etrans; [symmetry; apply agree_caught|].
  rewrite decode_gates_run. cbv zeta. set (c := Header.ctr hdr).
  destruct (e <? currentMinValidEpoch (ws w)).
  { symmetry. apply (agree_metric_all [m_queue_drop "stale_epoch" (Some e)]). }
  rewrite (proj2 (Z.eqb_neq _ _) Hc).
  assert (forall l w1, agree w w1 ->
    agree (metric_all l (w1 <| posted ::= fun l => l ++ [o_decrypt_failure "replay" (Some (kid hdr))
      (Some e) (Some p) (Some c)] |>)) w) as Hback.
  { intros l w1 Hw1. symmetry. etrans; [exact Hw1|]. apply agree_metric_all. }
  destruct (lookup_key (ws w) e p) as [k|] eqn:Hk.
  - destruct (Replay.check _ _); cbn [negb]; [|done]. destruct (durable_verdict _ _ _ _); cbn [negb]; [|done].
    destruct (isKeyInvalid _ _ _); [done|].
    destruct (deliver fid (contents w fid) g probed hdr e p (checked e p c w)) as [[n|err] w1] eqn:Hd.
    + rewrite (bind_Ok _ _ _ _ _ Hd), (bind_Ok _ _ _ _ _ Hd), emitMetric_run. cbn [snd].
      unfold metric. case_match; by split.
    + by rewrite (bind_Throw _ _ _ _ _ Hd), (bind_Throw _ _ _ _ _ Hd).
  - etrans; [|apply agree_push].
    destruct (Replay.check _ _); cbn [negb].
    2: { rewrite note_replay_run. apply Hback, agree_with_window. }
    destruct (durable_verdict _ _ _ _); cbn [negb].
    2: { rewrite note_replay_run. apply Hback, agree_checked. }
    destruct (isKeyInvalid _ _ _).
    { rewrite note_key_invalid_run. symmetry. etrans; [apply agree_checked|]. apply agree_metric_all. }
    pose proof (deliver_no_key fid _ _ _ _ _ _ _ w (checked e p c w) Ha Hk
      (like_epochs _ _ (like_checked e p c w))) as Hd.
    destruct (deliver fid (contents w fid) g probed hdr e p (checked e p c w)) as [[n|err] w1] eqn:Ed;
      cbn [snd] in Hd; subst w1.
    + rewrite (bind_Ok _ _ _ _ _ Ed), emitMetric_run. cbn [snd]. symmetry.
      etrans; [apply agree_checked|]. unfold metric. case_match; by split.
    + rewrite (bind_Throw _ _ _ _ _ Ed). symmetry. apply agree_checked.
Qed.

(** ** The loop *)

Definition flags (w : World) : bool * bool := (draining (ws w), pendingDrain (ws w)).

#[export] Instance flags_frame : Frame_rel (same flags).
Proof. frame_rel_easy. Qed.

Lemma drain_try_flags fid : keeps (same flags) (drain_try fid).
Proof.
  intros w. rewrite drain_try_run.
  destruct (addressed _ _ _) as [[[[[g probed] hdr] e] p]|err]; [|done]. cbv zeta.
  case_match; [done|]. destruct (lookup_key _ _ _) as [k|].
  2: { apply (pushToQueue_keeps (same flags)). reflexivity. }
  set (c := Header.ctr hdr).
  assert (same flags w (checked e p c w)) as Hc.
  { destruct (checked_state e p c w) as (m & gd & v & E & _). rewrite E. reflexivity. }
  case_match; [rewrite note_replay_run, metric_all_spec; reflexivity|].
  case_match; [rewrite note_replay_run, metric_all_spec; exact Hc|].
  case_match; [rewrite note_key_invalid_run, metric_all_spec; exact Hc|].
  etrans; [exact Hc|].
  assert (keeps (same flags) (deliver fid (contents w fid) g probed hdr e p)) as Hd.
  { unfold deliver, set_frame_data. keeps_auto.
    - apply keeps_openFrame; [apply _|]. intros. apply retryLoop_keeps; [apply _|reflexivity].
    - apply keeps_acceptFrame, _.
    - apply keeps_modify. reflexivity.
    - apply keeps_clearStarve, _. }
  specialize (Hd (checked e p c w)).
  destruct (deliver fid (contents w fid) g probed hdr e p (checked e p c w)) as [[n|err] w1] eqn:Ed.
  - by rewrite (bind_Ok _ _ _ _ _ Ed).
  - by rewrite (bind_Throw _ _ _ _ _ Ed).
Qed.

Lemma drain_each_flags pending : keeps (same flags) (drain_each pending).
Proof.
  induction pending as [|fid pending IH]; cbn [drain_each]; keeps_auto.
  - apply drain_try_flags.
  - apply keeps_drain_catch, _.
Qed.

(** One pass over the queue, between two settings of the flag. *)
Definition drain_pass (w : World) : World :=
  let w1 := w <| ws ::= fun s => s <| draining := true |> |> <| ws ::= fun s => s <| preEpochQueue := [] |> |> in
  (drain_each (preEpochQueue (ws w)) w1).2 <| ws ::= fun s => s <| draining := false |> |>.

Lemma drain_pass_flags w : draining (ws (drain_pass w)) = false /\ pendingDrain (ws (drain_pass w)) = pendingDrain (ws w).
Proof.
  unfold drain_pass. set (w1 := w <| ws ::= _ |> <| ws ::= _ |>).
  pose proof (drain_each_flags (preEpochQueue (ws w)) w1) as Hf. unfold same, flags in Hf. injection Hf as _ Hf.
  split; [done|exact Hf].
Qed.

(** A drain was asked for. *)
Definition ask_drain (b : bool) (w : World) : World := w <| ws ::= fun s => s <| pendingDrain := b |> |>.

Lemma drain_loop_run fuel w :
  drain_loop (S fuel) w =
    if draining (ws w) then (Ok tt, ask_drain true w)
    else if pendingDrain (ws w) then drain_loop fuel (ask_drain false (drain_pass w))
    else (Ok tt, drain_pass w).
Proof.
  cbn [drain_loop]. rewrite bind_getw. destruct (draining (ws w)); [done|].
  rewrite bind_setw, bind_getw, bind_setw. pose proof (drain_pass_flags w) as [_ Hp].
  unfold drain_pass in *. set (w1 := w <| ws ::= _ |> <| ws ::= _ |>) in *.
  change (preEpochQueue (ws (w <| ws ::= fun s => s <| draining := true |> |>)))
    with (preEpochQueue (ws w)).
  rewrite (bind_Ok _ _ _ _ _ (returns_run _ w1 (returns_drain_each (preEpochQueue (ws w))))).
  rewrite bind_setw, bind_getw. rewrite Hp. by destruct (pendingDrain (ws w)).
Qed.

(** Nobody drains, and nobody has asked for another drain: one pass. *)
Lemma drain_loop_idle fuel w :
  draining (ws w) = false -> pendingDrain (ws w) = false ->
  drain_loop (S fuel) w = (Ok tt, drain_pass w) /\
  draining (ws (drain_pass w)) = false /\ pendingDrain (ws (drain_pass w)) = false.
Proof.
  intros Hd Hp. destruct (drain_pass_flags w) as [H1 H2]. rewrite drain_loop_run, Hd, Hp. by rewrite H2, Hp in *.
Qed.

End Drain.

(** ** Properties *)


(** A frame that arrived before its epoch, once the epoch is installed. *)
Definition demo_queued : World (H := toy) :=
  (installEpoch 1 1 (demo_bundles 1)
    (run initial_world [ev_frame side_decode 0 (mkFrame (demo_wire 0) (Some "key"%string))])).2.

