(* ===== verification/WorkerStream.v ===== *)
(** * WorkerStream: a stream of frames from one worker to another

    [pass side w fs] gives the frames [fs] to one side of a pipe of the worker [w], one after the
    other, and collects what comes out. What a sender puts out reaches a receiver in any order,
    with losses. *)
From S2P Require Import Prelude Errors Internal Header Kid WebCrypto Toy Crypto SFrame Codec Replay.
From S2P Require Import WorkerTypes WorkerState WorkerFrame Worker StateLogic WorkerLogic Demo WorkerRatchet.
From S2P Require Import WorkerEvents WorkerSend WorkerGates WorkerE2E WorkerEpochs.
From S2P Require Durable.
#[local] Open Scope Z_scope.

(** ** Windows and counters that do not repeat *)

Lemma check_fresh win c : Replay.wf win -> is_ctr c -> c ∉ Replay.queue win -> Replay.check win c = true.
Proof.
  intros Hw Hc Hin. unfold Replay.check. destruct (Z.eqb_spec (windowSize win) 0); [done|].
  rewrite (wf_seen _ Hw), seen_scan_spec by (done || apply Hw). by rewrite bool_decide_eq_false_2.
Qed.

Lemma accept_queue_sub win c x :
  Replay.wf win -> is_ctr c -> 0 <= windowSize win -> x ∈ Replay.queue (Replay.accept win c) ->
  x = c \/ x ∈ Replay.queue win.
Proof.
  intros Hw Hc Hn. destruct (Z.eq_dec (windowSize win) 0) as [E|].
  { unfold Replay.accept. rewrite E, Z.eqb_refl. auto. }
  destruct (accept_queue win c Hw Hc ltac:(lia)) as (_ & _ & ->).
  case_bool_decide; [auto|]. rewrite elem_of_app, list_elem_of_singleton.
  intros [Hx|Hx]; [right|by left]. case_match; [|done].
  destruct (Replay.queue win); [done|]. set_solver.
Qed.

Lemma accept_size win c : windowSize (Replay.accept win c) = windowSize win.
Proof. unfold Replay.accept. repeat case_match; done. Qed.

Section Stream.
Context `{WebCrypto}.

(** A frame at one side of a pipe, and the frame put out, if it is. *)
Definition through (side : Side) (w : World) (f : Frame) : option Frame * World :=
  let w1 := step_world w (ev_frame side 0 f) in
  (if bool_decide (enqueued w1 = enqueued w ++ [0%nat]) then frames w1 !! 0%nat else None, w1).

Fixpoint pass (side : Side) (w : World) (fs : list Frame) : list Frame :=
  match fs with
  | [] => []
  | f :: fs =>
      let '(o, w1) := through side w f in
      match o with Some f' => f' :: pass side w1 fs | None => pass side w1 fs end
  end.

(** The clear prefix of the senders of a codec other than VP8 has one length. *)
Definition clear_bytes (codec : option Codec) : nat := getUnencryptedBytes codec None.

Lemma clear_bytes_eq codec kind : codec <> Some vp8 -> getUnencryptedBytes codec kind = clear_bytes codec.
Proof. by destruct codec as [[]|]. Qed.

(** The worker seals under [k], the next frame with counter [c]. *)
Record sending (k : SenderKey) (codec : option Codec) (trailer : option bytes) (c : Z) (w : World) : Prop := mk_sending {
  se_key : send_key (ws w) = Some k;
  se_codec : ws_codec (ws w) = codec;
  se_trailer : sifTrailer (ws w) = trailer;
  se_ctr : ws_ctr (ws w) = c
}.

(** [wire] is the frame [f] sealed under [k] with counter [c]. *)
Definition wire_of (k : SenderKey) (codec : option Codec) (trailer : option bytes) (f : Frame) (c : Z) (wire : Frame) : Prop :=
  let N := clear_bytes codec in
  (N <= length (frame_data f))%nat /\ is_ctr c /\
  exists sealed, sframeEncrypt (drop N (frame_data f)) k c None aad_header = Ok sealed /\
    wire = mkFrame (take N (frame_data f) ++ sealed ++ default [] trailer) (frame_type f).

(** The worker holds the key of [k] for the sender (e, p), its gates are open, and its window holds
    counters of [seen] only. *)
Record receiving (k : SenderKey) (codec : option Codec) (trailer : option bytes) (e p : Z) (seen : list Z) (w : World) : Prop := mk_receiving {
  rc_settled : settled w;
  rc_min : currentMinValidEpoch (ws w) <= e;
  rc_current : currentEpoch (ws w) <> -1;
  rc_guard : durableReplay (ws w) = None;
  rc_tolerance : failureTolerance (ws w) < 0;
  rc_codec : ws_codec (ws w) = codec;
  rc_trailer : sifTrailer (ws w) = trailer;
  rc_kid : decode (kidCodec (ws w)) (key_kid k) = Ok (e, p);
  rc_key : exists k', lookup_key (ws w) e p = Some k' /\ sframe_key k' = sframe_key k;
  rc_cache : forall g, getFormatCache (ws w) e p = Some g -> g = mkGuess (clear_bytes codec) aad_header;
  rc_window : Replay.wf (window_of (ws w) e p) /\ 0 <= windowSize (window_of (ws w) e p) /\
    forall x, x ∈ Replay.queue (window_of (ws w) e p) -> x ∈ seen
}.

(** ** Sending *)

Lemma step_frame side f w :
  step (ev_frame side 0 f) w = transform side 0 (w <| frames ::= <[0%nat := f]> |>).
Proof. done. Qed.

Lemma encoded_view fid key wire n w :
  (epochs (ws (encoded fid key wire n w)), currentEpoch (ws (encoded fid key wire n w)),
   ws_codec (ws (encoded fid key wire n w)), sifTrailer (ws (encoded fid key wire n w)),
   ws_ctr (ws (encoded fid key wire n w)), enqueued (encoded fid key wire n w)) =
  (epochs (ws w), currentEpoch (ws w), ws_codec (ws w), sifTrailer (ws w), ws_ctr (ws w) + 1, enqueued w).
Proof.
  unfold encoded, clearEncryptStarve. rewrite bind_getw.
  case_match; cbn; unfold metric; case_match; done.
Qed.

End Stream.

Section StreamLaws.
Context `{WebCryptoLaws}.

Lemma send_one k codec trailer c w f :
  codec <> Some vp8 -> sending k codec trailer c w -> (clear_bytes codec <= length (frame_data f))%nat ->
  is_ctr c -> is_ok (sframeEncrypt (drop (clear_bytes codec) (frame_data f)) k c None aad_header) = true ->
  exists wire w1, through side_encode w f = (Some wire, w1) /\ wire_of k codec trailer f c wire /\
    sending k codec trailer (c + 1) w1.
Proof.
  intros Hv [Hk Hco Htr Hct] Hlen Hic [sealed Hs]%is_ok_ex. unfold through, step_world. rewrite step_frame.
  set (w0 := w <| frames ::= <[0%nat := f]> |>).
  assert (frames w0 !! 0%nat = Some f) as Hf by (by apply lookup_insert_eq).
  assert (contents w0 0 = frame_data f) as Hcon by (unfold contents; by rewrite Hf).
  rewrite transform_run. cbv zeta. rewrite Hf. change (default _ (Some f)) with f.
  rewrite (encodeFrame_run 0 _ w0 k Hk). cbv zeta. rewrite Hcon.
  assert (clear_prefix_len (ws w0) (frameKindOf (frame_type f)) (frame_data f) = clear_bytes codec) as ->.
  { unfold clear_prefix_len. change (ws_codec (ws w0)) with (ws_codec (ws w)).
    rewrite Hco, clear_bytes_eq by done. lia. }
  change (ws_ctr (ws w0)) with (ws_ctr (ws w)). rewrite Hct, Hs.
  set (wire := take _ _ ++ sealed ++ trailer_bytes (ws w0)).
  pose proof (encoded_view 0 k wire (length (frame_data f)) w0) as Hview.
  pose proof (encoded_frames 0 k wire (length (frame_data f)) w0) as Hfr.
  set (w1 := encoded 0 k wire _ w0) in *. clearbody w1. injection Hview as V1 V2 V3 V4 V5 V6.
  cbn [transform_rest]. change (modify ?g w1).2 with (g w1).
  rewrite bool_decide_eq_true_2 by (cbn [enqueued]; by rewrite <- V6).
  change (frames (w1 <| enqueued ::= _ |>)) with (frames w1). rewrite Hfr, lookup_alter_eq, Hf.
  do 2 eexists. split; [reflexivity|]. split.
  - split; [done|]. split; [done|]. exists sealed. split; [done|]. unfold wire, trailer_bytes.
    change (sifTrailer (ws w0)) with (sifTrailer (ws w)). by rewrite Htr.
  - split; [|by rewrite <- Hco|by rewrite <- Htr|by rewrite <- Hct]. unfold send_key in *. cbn. by rewrite V1, V2.
Qed.

Lemma send_all k codec trailer c w fs :
  codec <> Some vp8 -> sending k codec trailer c w ->
  Forall (fun f => (clear_bytes codec <= length (frame_data f))%nat) fs ->
  0 <= c -> c + Z.of_nat (length fs) <= 2 ^ 64 ->
  (forall f c', f ∈ fs -> is_ctr c' ->
     is_ok (sframeEncrypt (drop (clear_bytes codec) (frame_data f)) k c' None aad_header) = true) ->
  forall i f, fs !! i = Some f -> exists wire, pass side_encode w fs !! i = Some wire /\
    wire_of k codec trailer f (c + Z.of_nat i) wire.
Proof.
  intros Hv. revert c w. induction fs as [|f fs IH]; intros c w Hw Hlen Hc Hmax Hok i g Hg; [done|].
  apply Forall_cons in Hlen as [Hl Hlen]. cbn [length] in Hmax.
  assert (is_ctr c) as Hic by (split; lia).
  destruct (send_one k codec trailer c w f Hv Hw Hl Hic (Hok f c ltac:(set_solver) Hic))
    as (wire & w1 & Hrun & Hwire & Hw1).
  cbn [pass]. rewrite Hrun. destruct i as [|i].
  - injection Hg as <-. exists wire. by rewrite Z.add_0_r.
  - destruct (IH (c + 1) w1 Hw1 Hlen ltac:(lia) ltac:(lia) (fun g c' Hg Hc' => Hok g c' ltac:(set_solver) Hc') i g Hg)
      as (wire' & Hp & Hwire'). exists wire'. split; [done|].
    by replace (c + Z.of_nat (S i)) with (c + 1 + Z.of_nat i) by lia.
Qed.

Lemma pass_length k codec trailer c w fs :
  codec <> Some vp8 -> sending k codec trailer c w ->
  Forall (fun f => (clear_bytes codec <= length (frame_data f))%nat) fs ->
  0 <= c -> c + Z.of_nat (length fs) <= 2 ^ 64 ->
  (forall f c', f ∈ fs -> is_ctr c' ->
     is_ok (sframeEncrypt (drop (clear_bytes codec) (frame_data f)) k c' None aad_header) = true) ->
  length (pass side_encode w fs) = length fs.
Proof.
  intros Hv. revert c w. induction fs as [|f fs IH]; intros c w Hw Hlen Hc Hmax Hok; [done|].
  apply Forall_cons in Hlen as [Hl Hlen]. cbn [length] in *. assert (is_ctr c) as Hic by (split; lia).
  destruct (send_one k codec trailer c w f Hv Hw Hl Hic (Hok f c ltac:(set_solver) Hic))
    as (wire & w1 & Hrun & _ & Hw1).
  cbn [pass]. rewrite Hrun. cbn [length]. f_equal.
  apply (IH (c + 1)); [done..|lia|lia|]. intros g c' Hg. apply Hok. set_solver.
Qed.

(** ** Receiving *)

(** What receiving leaves alone. *)
Definition gate_view (w : World) := (kidCodec (ws w), ws_codec (ws w), sifTrailer (ws w), currentEpoch (ws w),
  currentMinValidEpoch (ws w), failureTolerance (ws w), enqueued w).

Definition no_guard (w : World) : Prop := durableReplay (ws w) = None.

#[export] Instance gate_view_receive : Receive_rel (same gate_view).
Proof.
  assert (Frame_rel (same gate_view)) by (split; [apply _|intros; reflexivity..]). receive_rel_easy.
Qed.

#[export] Instance no_guard_receive : Receive_rel (preserved no_guard).
Proof.
  assert (Frame_rel (preserved no_guard)).
  { split; [apply _|..]; try (intros w; intros; by unfold preserved, no_guard).
    intros w g0 g e Hg. unfold preserved, no_guard. by rewrite Hg. }
  split; [apply _|intros; apply pushToQueue_keeps; [apply _|by unfold preserved, no_guard]
    |intros; by unfold preserved, no_guard..|apply retryLoop_keeps; [apply _|by unfold preserved, no_guard]].
Qed.

Lemma durable_verdict_none w e p c : durableReplay (ws w) = None -> durable_verdict w e p c = true.
Proof.
  intros Hg. unfold durable_verdict, durable_check.
  assert (durable_available w = (Ok false, w)) as Ha.
  { unfold WorkerTypes.durable_available. rewrite bind_getw. by rewrite Hg. }
  by rewrite (bind_Ok _ _ _ _ _ Ha).
Qed.

Lemma receiving_ready k codec trailer e p seen w c f :
  receiving k codec trailer e p seen w -> is_ctr c -> c ∉ seen ->
  ready (w <| frames ::= <[0%nat := f]> |>) e p c (clear_bytes codec).
Proof.
  intros [Hset Hmin Hcur Hg Htol _ _ _ _ Hca (Hwf & _ & Hq)] Hc Hin. split; try done.
  - apply check_fresh; [done|done|]. intros Hx. by apply Hin, Hq.
  - by apply durable_verdict_none.
  - unfold isKeyInvalid. change (failureTolerance (ws (w <| frames ::= _ |>))) with (failureTolerance (ws w)).
    by rewrite (proj2 (Z.ltb_lt _ _) Htol).
Qed.

Lemma receiving_ws k codec trailer e p seen w w' :
  ws w' = ws w -> receiving k codec trailer e p seen w -> receiving k codec trailer e p seen w'.
Proof. intros E [? ? ? ? ? ? ? ? ? ? ?]. split; unfold settled in *; by rewrite E. Qed.

Lemma recv_one k codec trailer e p seen w f c wire :
  codec <> Some vp8 -> receiving k codec trailer e p seen w -> wire_of k codec trailer f c wire -> c ∉ seen ->
  exists w1, through side_decode w wire = (Some f, w1) /\ receiving k codec trailer e p (c :: seen) w1.
Proof.
  intros Hv Hr (Hlen & Hc & sealed & Hs & ->) Hin. set (wf := mkFrame _ _).
  pose proof (receiving_ready _ _ _ _ _ _ _ c wf Hr Hc Hin) as Hready. unfold through, step_world. rewrite step_frame.
  set (w0 := w <| frames ::= <[0%nat := wf]> |>) in *.
  assert (frames w0 !! 0%nat = Some wf) as Hf by (by apply lookup_insert_eq).
  pose proof Hr as [Hset Hmin Hcur Hg Htol Hco Htr Hkid (k' & Hk' & Esf) Hca (Hwf & Hsz & Hq)].
  assert (getUnencryptedBytes (ws_codec (ws w0)) (frameKindOf (frame_type wf)) = clear_bytes codec) as EN.
  { change (ws_codec (ws w0)) with (ws_codec (ws w)). by rewrite Hco, clear_bytes_eq. }
  pose proof (wire_decodes w0 0 wf k k' e p c (frame_data f) sealed Hf) as Hd. cbv zeta in Hd. rewrite EN in Hd.
  destruct Hd as (w1 & Hrun & Hfr & Hwin & Hfc & Hk1); try done.
  { change (sifTrailer (ws w0)) with (sifTrailer (ws w)). by rewrite Htr. }
  rewrite transform_run. cbv zeta. rewrite Hrun. cbn [transform_rest]. change (modify ?g w1).2 with (g w1).
  pose proof (keeps_decodeFrame (same gate_view) 0 w0) as K1. pose proof (keeps_decodeFrame (preserved settled) 0 w0 Hset) as K2.
  pose proof (keeps_decodeFrame (preserved no_guard) 0 w0 Hg) as K3.
  rewrite Hrun in K1, K2, K3. cbn [snd] in *.
  unfold same, gate_view in K1. injection K1 as G1 G2 G3 G4 G5 G6 G7.
  rewrite bool_decide_eq_true_2 by (change (enqueued w1 ++ [0%nat] = enqueued w ++ [0%nat]); by rewrite G7).
  change (frames (w1 <| enqueued ::= _ |>)) with (frames w1). rewrite Hfr, lookup_alter_eq, Hf.
  eexists. split; [by destruct f|]. apply (receiving_ws _ _ _ _ _ _ w1); [done|]. split.
  - exact K2.
  - by rewrite G5.
  - by rewrite G4.
  - exact K3.
  - by rewrite G6.
  - by rewrite G2.
  - by rewrite G3.
  - by rewrite G1.
  - by exists k'.
  - intros g. rewrite Hfc. by intros [= <-].
  - rewrite Hwin. change (window_of (ws w0) e p) with (window_of (ws w) e p).
    split_and!; [by apply accept_wf|by rewrite accept_size|].
    intros x [->|Hx]%accept_queue_sub; [set_solver..|done|done|done]. 
Qed.

Lemma recv_all k codec trailer e p seen w (l : list (Frame * Z * Frame)) :
  codec <> Some vp8 -> receiving k codec trailer e p seen w ->
  Forall (fun t => wire_of k codec trailer t.1.1 t.1.2 t.2) l -> NoDup ((fun t => t.1.2) <$> l) ->
  (forall t, t ∈ l -> t.1.2 ∉ seen) ->
  pass side_decode w ((fun t => t.2) <$> l) = (fun t => t.1.1) <$> l.
Proof.
  intros Hv. revert seen w. induction l as [|[[f c] wire] l IH]; intros seen w Hr Hw Hnd Hs; [done|].
  apply Forall_cons in Hw as [Hw1 Hw]. cbn in Hnd. apply NoDup_cons in Hnd as [Hc Hnd]. cbn [fst snd] in *.
  destruct (recv_one _ _ _ _ _ _ w f c wire Hv Hr Hw1 (Hs (f, c, wire) ltac:(set_solver))) as (w1 & Hrun & Hr1).
  rewrite !fmap_cons. cbn [pass fst snd]. rewrite Hrun. f_equal. apply (IH (c :: seen)); [done..|].
  intros t Ht. apply not_elem_of_cons. split; [|apply Hs; set_solver].
  intros E. apply Hc. apply list_elem_of_fmap. by exists t.
Qed.

(** What a key must be for every counter to seal. *)
Lemma seals_all (k : SenderKey) codec fs :
  length (salt k) = 12%nat -> 0 <= key_kid k < 2 ^ 32 ->
  Forall (fun f => Z.of_nat (length (frame_data f)) < 2 ^ 36 - 32) fs ->
  forall f c', f ∈ fs -> is_ctr c' ->
    is_ok (sframeEncrypt (drop (clear_bytes codec) (frame_data f)) k c' None aad_header) = true.
Proof.
  intros Hs Hk Hf f c' Hin Hc. rewrite Forall_forall in Hf. specialize (Hf f Hin). cbv beta in Hf.
  destruct (sframeEncrypt_total (drop (clear_bytes codec) (frame_data f)) k c' None aad_header) as [w ->];
    [done|done|done|done| |done].
  rewrite length_drop. lia.
Qed.

(** Frames delivered in the order [js], out of the wires of [fs]. *)
Lemma stream_delivers k codec trailer c e p seen a b fs js :
  codec <> Some vp8 -> sending k codec trailer c a -> receiving k codec trailer e p seen b ->
  Forall (fun x => x < c) seen ->
  length (salt k) = 12%nat -> 0 <= key_kid k < 2 ^ 32 ->
  Forall (fun f => (clear_bytes codec <= length (frame_data f))%nat) fs ->
  Forall (fun f => Z.of_nat (length (frame_data f)) < 2 ^ 36 - 32) fs ->
  0 <= c -> c + Z.of_nat (length fs) <= 2 ^ 64 ->
  NoDup js -> Forall (fun j => (j < length fs)%nat) js ->
  let wires := pass side_encode a fs in
  pass side_decode b (omap (fun j => wires !! j) js) = omap (fun j => fs !! j) js.
Proof.
  intros Hv Ha Hb Hseen Hsalt Hkid Hlen Hsize Hc Hmax Hnd Hjs. cbv zeta. set (wires := pass side_encode a fs).
  pose proof (send_all k codec trailer c a fs Hv Ha Hlen Hc Hmax (seals_all k codec fs Hsalt Hkid Hsize)) as Hall.
  fold wires in Hall.
  set (l := omap (fun j => f ← fs !! j; w ← wires !! j; Some (f, c + Z.of_nat j, w)) js).
  assert (forall js, Forall (fun j => (j < length fs)%nat) js ->
    let l := omap (fun j => f ← fs !! j; w ← wires !! j; Some (f, c + Z.of_nat j, w)) js in
    (fun t => t.2) <$> l = omap (fun j => wires !! j) js /\ (fun t => t.1.1) <$> l = omap (fun j => fs !! j) js /\
    (fun t => t.1.2) <$> l = (fun j => c + Z.of_nat j) <$> js /\ Forall (fun t => wire_of k codec trailer t.1.1 t.1.2 t.2) l) as Hl.
  { clear -Hall. intros js Hjs. cbv zeta. induction Hjs as [|j js Hj _ (E1 & E2 & E3 & E4)]; [by repeat split|].
    apply lookup_lt_is_Some in Hj as [f Hf]. destruct (Hall j f Hf) as (wire & Hw & Hof).
    cbn. rewrite Hf. cbn. rewrite Hw. cbn. split_and!; [by f_equal|by f_equal|by f_equal|by constructor]. }
  destruct (Hl js Hjs) as (E1 & E2 & E3 & E4). fold l in E1, E2, E3, E4. rewrite <- E1, <- E2.
  apply (recv_all k codec trailer e p seen); try done.
  - rewrite E3. apply NoDup_fmap_2; [|done]. intros i j Hij. lia.
  - intros t Ht Hin. rewrite Forall_forall in Hseen. specialize (Hseen _ Hin). cbv beta in Hseen.
    apply (list_elem_of_fmap_2 (fun t => t.1.2)) in Ht. rewrite E3 in Ht.
    apply list_elem_of_fmap in Ht as (j & Ht & _). lia.
Qed.

End StreamLaws.

(** ** Properties *)

(** A format is cached per sender, and its prefix length with it, although VP8 leaves 10 bytes of a
    key frame and 3 of another in the clear: once a key frame of the sender (e, p) is cached, a frame
    of another kind whose header at offset 3 names that sender is read at offset 10, and is let
    through only if the bytes from there on are themselves a frame that opens. *)
Theorem vp8_kinds_share_a_format `{WebCrypto} (fid : nat) (w : World) (payload : bytes) (hdr : SFrameHeader)
    (e p : Z) (form : AadForm)
    (Hset : settled w) (Hcur : currentEpoch (ws w) <> -1)
    (Hpl : stripTrailer (sifTrailer (ws w)) (contents w fid) = Some payload)
    (Hcodec : ws_codec (ws w) = Some vp8) (Hkind : kind_of w fid <> Some kind_key)
    (Hlen : (3 < length payload)%nat)
    (Hhdr : parseHeader (drop 3 payload) = Ok hdr) (Hdec : decode (kidCodec (ws w)) (kid hdr) = Ok (e, p))
    (Hcache : getFormatCache (ws w) e p = Some (mkGuess 10 form)) :
  match decodeFrame fid w with
  | (Ok _, _) => exists e' p' n k opened, opens_at (ws w) payload (mkGuess 10 form) e' p' n k opened
  | (Throw _, w') => frames w' = frames w
  end.
Proof.
  assert (codec_prefix_len (ws w) payload (kind_of w fid) = 3%nat) as HN.
  { unfold codec_prefix_len. rewrite Hcodec. cbn [getUnencryptedBytes].
    rewrite bool_decide_eq_false_2 by done. lia. }
  assert (resolveFormat (ws w) payload (kind_of w fid) = Ok (mkGuess 10 form, None)) as Hres.
  { unfold resolveFormat, cachedFormat. rewrite HN, (proj2 (Nat.ltb_lt _ _)) by lia.
    rewrite Hhdr. cbn [mbind result_bind]. by rewrite Hdec, Hcache. }
  rewrite decodeFrame_run, Hpl, decode_guarded_run.
  destruct (addressed (ws w) payload (kind_of w fid)) as [[[[[g probed] h] e'] p']|err] eqn:Ha.
  2: { rewrite (caught_Throw initial_locals (throw err) w err w eq_refl). apply (keeps_decode_catch (same frames)). }
  pose proof (addressed_inv _ _ _ _ _ _ _ _ Ha) as (Hr & Hp & _). rewrite Hres in Hr. apply Ok_inj in Hr as [= <- <-].
  destruct (decode_gates fid payload (mkGuess 10 form) None h e' p' w) as [[[]|err] w'] eqn:Hg.
  - unfold caught. rewrite Hg.
    destruct (decode_gates_ok _ _ _ _ _ _ _ _ _ _ Hset Ha Hg) as [[Hq _]|(_ & _ & _ & _ & n & k & opened & Ho & _)];
      [done|by exists e', p', n, k, opened].
  - rewrite (caught_Throw _ _ _ _ _ Hg), <- (decode_gates_throws _ _ _ _ _ _ _ _ _ _ Hp Hg).
    apply (keeps_decode_catch (same frames)).
Qed.

(** A VP8 sender and receiver: a key frame and a delta frame are put out, and the receiver loses the
    second. *)
Definition vp8_worker (w : World (H := toy)) : World (H := toy) := (step (ev_message (StreamsMsg side_encode (Some vp8))) w).2.

Definition vp8_frames : list Frame :=
  [mkFrame demo_data (Some "key"%string); mkFrame demo_data (Some "delta"%string)].

Definition vp8_wires : list Frame := pass side_encode (vp8_worker demo_sender) vp8_frames.

(** The receiver after the key frame, holding the delta frame. *)
Definition vp8_second : World (H := toy) :=
  match vp8_wires with
  | [k; d] => (through side_decode (vp8_worker demo_receiver) k).2 <| frames ::= <[0%nat := d]> |>
  | _ => demo_receiver
  end.

Lemma vp8_kinds_share_a_format_witness :
  pass side_decode (vp8_worker demo_receiver) vp8_wires = take 1 vp8_frames /\ length vp8_wires = 2%nat /\
  frames (decodeFrame 0 vp8_second).2 = frames vp8_second.
Proof.
  split; [vm_compute; reflexivity|]. split; [vm_compute; reflexivity|].
  assert (is_ok (decodeFrame 0 vp8_second).1 = false) as Hno by (vm_compute; reflexivity).
  assert (match stripTrailer (sifTrailer (ws vp8_second)) (contents vp8_second 0) with
    | Some payload => (3 <? length payload)%nat && match parseHeader (drop 3 payload) with
      | Ok hdr => match decode (kidCodec (ws vp8_second)) (kid hdr) with
        | Ok (e, p) => bool_decide (getFormatCache (ws vp8_second) e p = Some (mkGuess 10 aad_header))
        | Throw _ => false end | Throw _ => false end | None => false end = true) as Hb by (vm_compute; reflexivity).
  destruct (stripTrailer _ _) as [payload|] eqn:Hpl; [|discriminate Hb]. apply andb_true_iff in Hb as [Hl Hb].
  destruct (parseHeader (drop 3 payload)) as [hdr|] eqn:Hh; [|discriminate Hb].
  destruct (decode (kidCodec (ws vp8_second)) (kid hdr)) as [[e p]|] eqn:Hd; [|discriminate Hb].
  pose proof (vp8_kinds_share_a_format 0 vp8_second payload hdr e p aad_header) as Hv.
  destruct (decodeFrame 0 vp8_second) as [[[]|err] w']; [discriminate Hno|]. apply Hv.
  - vm_compute. reflexivity.
  - vm_compute. discriminate.
  - exact Hpl.
  - vm_compute. reflexivity.
  - vm_compute. discriminate.
  - apply Nat.ltb_lt. exact Hl.
  - exact Hh.
  - exact Hd.
  - exact (bool_decide_unpack _ (Is_true_true_2 _ Hb)).
Defined.
