(* ===== verification/WorkerAsync.v ===== *)
(** * WorkerAsync: the frame pipeline with its awaits (src/worker-frame.ts)

    The operations of [WorkerFrame] as they run in the event loop: each [await] is a wait, and what
    is read after it is read from the state of that moment. An [AsyncWorld] adds to the worker's
    [World] the identity of the objects that a suspended call holds on to: an epoch entry, a replay
    window, a promise of [ratchetPromises]. An entry that was replaced or wiped lives on in
    [orphans] for those calls; a window that was dropped is written to by them and read by nobody.
    The awaits inside the durable guard and the key derivation are one each. *)
From S2P Require Import Prelude StateLogic Async Errors Internal Header Kid WebCrypto Toy Crypto SFrame Codec Replay.
From S2P Require Import WorkerTypes WorkerState WorkerFrame Worker WorkerLogic WorkerEvents.
From S2P Require Durable.

Section Async.
Context `{WebCrypto}.

(** [promises] is [state.ratchetPromises]; [outcomes] holds the promises made so far, and how they
    settled. What an orphan or a promise was made for is part of its name. *)
Record AsyncWorld := mkAsync {
  base : World;
  entry_ids : gmap Z nat;
  orphans : gmap (Z * nat) EpochEntry;
  window_ids : gmap (Z * Z) nat;
  promises : gmap string nat;
  outcomes : gmap (string * nat) (option (res bytes));
  next_id : nat;
  drain_wanted : bool
}.

#[export] Instance eta_async : Eta AsyncWorld := fun r =>
  mkAsync (base r) (entry_ids r) (orphans r) (window_ids r) (promises r) (outcomes r) (next_id r) (drain_wanted r).

Abbreviation AM := (M AsyncWorld js_error).
Abbreviation AP := (P AsyncWorld js_error).

(** A piece that only touches the worker. *)
Definition onW {A} (m : W A) : AM A := zoom base (fun w s => s <| base := w |>) m.
Definition atW {A} (m : W A) : AP A := piece (onW m).
Definition atA {A} (m : AM A) : AP A := piece m.
Definition failP {A} (r : res A) : AP A := piece (lift r).

(** ** Objects *)

Definition fresh_id : AM nat :=
  id ← gets next_id;
  modify (fun s => s <| next_id := S id |>);;
  mret id.

(** The object [state.epochs.get(epoch)], which is there. *)
Definition entry_object (epoch : Z) : AM nat :=
  known ← gets (fun s => entry_ids s !! epoch);
  match known with
  | Some id => mret id
  | None =>
      id ← fresh_id;
      modify (fun s => s <| entry_ids ::= <[epoch := id]> |>);;
      mret id
  end.

Definition entry_current (s : AsyncWorld) (epoch : Z) (obj : nat) : bool :=
  bool_decide (entry_ids s !! epoch = Some obj).

Definition read_entry (epoch : Z) (obj : nat) : AM (option EpochEntry) :=
  gets (fun s => if entry_current s epoch obj then epochs (ws (base s)) !! epoch else orphans s !! (epoch, obj)).

Definition advanced_entry (peerIndex : Z) (next : SenderKey) (step : Z) (entry : EpochEntry) : EpochEntry :=
  entry <| ent_keys ::= <[peerIndex := next]> |>
        <| ratchetSteps ::= fun m => <[peerIndex := default 0 (m !! peerIndex) + step]> m |>.

Definition advance_entry (epoch : Z) (obj : nat) (peerIndex : Z) (next : SenderKey) (step : Z) : AM unit :=
  current ← gets (fun s => entry_current s epoch obj);
  if current : bool then onW (advance_key epoch peerIndex next step)
  else modify (fun s => s <| orphans ::= alter (advanced_entry peerIndex next step) (epoch, obj) |>).

(** The object that [getReplayWindow] just returned. *)
Definition window_object (epoch peerIndex : Z) : AM nat :=
  known ← gets (fun s => window_ids s !! (epoch, peerIndex));
  match known with
  | Some id => mret id
  | None =>
      id ← fresh_id;
      modify (fun s => s <| window_ids ::= <[(epoch, peerIndex) := id]> |>);;
      mret id
  end.

(** [replayWindow.accept(ctr)] on an object held across awaits. *)
Definition accept_object (epoch peerIndex : Z) (obj : nat) (ctr : Z) : AM unit :=
  current ← gets (fun s => bool_decide (window_ids s !! (epoch, peerIndex) = Some obj));
  if current : bool then onW (acceptReplay epoch peerIndex ctr) else mret tt.

(** ** Sending *)

(** Up to the await: the key, the plaintext, and how the encryption will settle. *)
Definition encode_start (fid : nat) (frameKind : option FrameKind) : W (SenderKey * bytes * res bytes) :=
  s ← getw id;
  match epochs s !! currentEpoch s with
  | None => throw (GenericError "worker: no active send epoch")
  | Some entry =>
      match (ent_keys entry !! ent_selfPeerIndex entry : option SenderKey) with
      | None => throw (GenericError "worker: no self key in current epoch")
      | Some key =>
          let ctr := ws_ctr s in
          setw (fun s => s <| ws_ctr := ctr + 1 |>);;
          frame ← frame_of fid;
          let plaintext := frame_data frame in
          let N := Nat.min (getUnencryptedBytes (ws_codec s) frameKind) (length plaintext) in
          let prefix := take N plaintext in
          let body := drop N plaintext in
          header ← liftr (serializeHeader (JsInt (key_kid key)) ctr);
          let trailerLen := match sifTrailer s with Some t => length t | None => 0%nat end in
          let wire := zeros (N + length header + length body + 16 + trailerLen) in
          wire ← liftr (if (0 <? N)%nat then u8_set wire 0 prefix else Ok wire);
          mret (key, plaintext,
            '(written, wire) ← sframeEncryptInto wire N header body key ctr None aad_header;
            match sifTrailer s with Some t => u8_set wire (N + written) t | None => Ok wire end)
      end
  end.

Definition encode_finish (fid : nat) (key : SenderKey) (plaintext wire : bytes) : W unit :=
  set_frame_data fid wire;;
  codec ← getw ws_codec;
  emitMetric (m_encrypt (key_epoch key) (key_peerIndex key) (length plaintext) codec);;
  clearEncryptStarve.

Definition encodeFrameP (fid : nat) (frameKind : option FrameKind) : AP unit :=
  '(key, plaintext, sealing) ← atW (encode_start fid frameKind);
  pause;;
  wire ← failP sealing;
  atW (encode_finish fid key plaintext wire).

(** ** Probing *)

(** Whether a candidate gets as far as its await. *)
Definition probe_reaches (s : WorkerState) (payload : bytes) (guess : FormatGuess) : bool :=
  let buf := drop (prefixLen guess) payload in
  match parseHeader buf with
  | Throw _ => false
  | Ok hdr =>
      negb (length buf <? bodyOffset hdr + 16)%nat &&
      match decode (kidCodec s) (kid hdr) with
      | Ok (epoch, peerIndex) => bool_decide (is_Some (lookup_key s epoch peerIndex))
      | Throw _ => false
      end
  end.

Fixpoint probeP (payload : bytes) (candidates : list FormatGuess) : AP (option Probed) :=
  match candidates with
  | [] => mret None
  | guess :: candidates =>
      s ← atW (getw id);
      r ← failP (probe_one s payload guess);
      (if probe_reaches s payload guess then pause else mret tt);;
      match r with
      | Some p => mret (Some p)
      | None => probeP payload candidates
      end
  end.

Definition resolveFormatP (payload : bytes) (frameKind : option FrameKind) : AP (FormatGuess * option Probed) :=
  s ← atW (getw id);
  let codecN := codec_prefix_len s payload frameKind in
  match cachedFormat s payload codecN with
  | Some cached => mret (cached, None)
  | None =>
      probed ← probeP payload (formatCandidates (ws_codec s) frameKind);
      match probed with
      | Some p => mret (pr_guess p, Some p)
      | None => mret (mkGuess codecN aad_header, None)
      end
  end.

(** ** Ratchet retry *)

(** An await that settles with [r]. *)
Definition settlesP {A} (r : res A) : AP (res A) := pause;; mret r.

Definition decrypt_step0P (buf : bytes) (aadPrefix : option bytes) (form : AadForm) : AP (res bytes) :=
  s ← atW (getw id);
  settlesP (sframeDecrypt buf (state_resolver s) (mkMeta (Some (kidCodec s)) aadPrefix (Some form))).

(** The bound of the loop is read again before every step; [fuel] only has to be above the largest
    window ever set, a loop that runs out of it waits for ever. *)
Fixpoint retry_stepsP (fuel : nat) (step : Z) (buf : bytes) (epoch : Z) (obj : nat) (peerIndex : Z)
    (aadPrefix : option bytes) (form : AadForm) (currentRaw salt : bytes) : AP bytes :=
  match fuel with
  | O => wait_for (fun _ => false) (throw (GenericError "unreachable"))
  | S fuel =>
      s ← atW (getw id);
      if ratchetWindowSize s <? step then
        atW (emitMetric (m_ratchet_retry epoch peerIndex (ratchetWindowSize s) false));;
        atW (throw (RatchetWindowExhaustedError epoch peerIndex (ratchetWindowSize s)))
      else
        derived ← settlesP (deriveNextSenderKey currentRaw salt epoch peerIndex (suite s) (kidCodec s));
        next ← failP derived;
        s ← atW (getw id);
        opened ← settlesP (sframeDecrypt buf
                   (fun lk => if (lk_epoch lk =? epoch) && (lk_peerIndex lk =? peerIndex)
                              then Some (sframe_key next) else state_resolver s lk)
                   (mkMeta (Some (kidCodec s)) aadPrefix (Some form)));
        match opened with
        | Ok plaintext =>
            atA (advance_entry epoch obj peerIndex next step);;
            atW (emitMetric (m_ratchet_retry epoch peerIndex step true));;
            mret plaintext
        | Throw _ => retry_stepsP fuel (step + 1) buf epoch obj peerIndex aadPrefix form (rawKey next) salt
        end
  end.

Definition retryLoopP (fuel : nat) (buf : bytes) (epoch : Z) (obj : nat) (peerIndex : Z)
    (aadPrefix : option bytes) (form : AadForm) : AP bytes :=
  entry ← atA (read_entry epoch obj);
  match entry ≫= fun entry => ent_keys entry !! peerIndex with
  | None => failP (Throw (KeyNotFoundError (mkErrorContext None (Some epoch) (Some peerIndex) None)))
  | Some currentKey =>
      retry_stepsP fuel 1 buf epoch obj peerIndex aadPrefix form (rawKey currentKey) (salt currentKey)
  end.

(** Run the loop under a promise that others can await; [next_promise] counts them as in [WorkerFrame]. *)
Definition runRetryLoopP (dedupKey : string) (loop : AP bytes) : AP bytes :=
  id ← atA fresh_id;
  atA (modify (fun s => s <| promises ::= <[dedupKey := id]> |> <| outcomes ::= <[(dedupKey, id) := None]> |>));;
  outcome ← attemptP loop;
  atA (modify (fun s => s <| outcomes ::= <[(dedupKey, id) := Some outcome]> |>));;
  pause;;
  atA (modify (fun s => s <| promises ::= delete dedupKey |>));;
  atW (modify (fun w => w <| next_promise ::= S |>));;
  failP outcome.

Definition promise_under (dedupKey : string) : AP (option nat) := atA (gets (fun s => promises s !! dedupKey)).

(** How a promise settled, once it has. *)
Definition settlement (promise : string * nat) (s : AsyncWorld) : option (res bytes) := mjoin (outcomes s !! promise).

(** [await promise], as how it settles. *)
Definition await_promise (dedupKey : string) (id : nat) : AP (res bytes) :=
  wait_for (fun s => bool_decide (is_Some (settlement (dedupKey, id) s)))
    (gets (fun s => default (Throw DomException) (settlement (dedupKey, id) s))).

Definition or_elseP {A} (r : option A) (k : AP A) : AP A :=
  match r with Some a => mret a | None => k end.

(** The promise that was in flight, then step 0 again. *)
Definition after_in_flight (dedupKey : string) (inFlight : option nat) (buf : bytes) (aadPrefix : option bytes) (form : AadForm)
    : AP (option bytes) :=
  match inFlight with
  | None => mret None
  | Some id =>
      settled ← await_promise dedupKey id;
      match settled with
      | Ok _ => again ← decrypt_step0P buf aadPrefix form; mret (result_option again)
      | Throw _ => mret None
      end
  end.

(** A promise that another caller has made meanwhile. *)
Definition after_await (dedupKey : string) (inFlight : option nat) : AP (option bytes) :=
  afterAwait ← promise_under dedupKey;
  match afterAwait with
  | None => mret None
  | Some id =>
      if bool_decide (afterAwait = inFlight) then mret None
      else settled ← await_promise dedupKey id; mret (result_option settled)
  end.

Definition tryDecryptWithRatchetP (fuel : nat) (buf : bytes) (epoch peerIndex : Z) (aadPrefix : option bytes)
    (form : AadForm) : AP bytes :=
  s ← atW (getw id);
  match lookup_key s epoch peerIndex with
  | None => failP (Throw (KeyNotFoundError (mkErrorContext None (Some epoch) (Some peerIndex) None)))
  | Some _ =>
      entry ← atA (entry_object epoch);
      step0 ← decrypt_step0P buf aadPrefix form;
      match step0 with
      | Ok plaintext => mret plaintext
      | Throw firstError =>
          size ← atW (getw ratchetWindowSize);
          if size =? 0 then failP (Throw firstError) else
          let dedupKey := failureKey epoch peerIndex in
          inFlight ← promise_under dedupKey;
          first ← after_in_flight dedupKey inFlight buf aadPrefix form;
          or_elseP first (
            second ← after_await dedupKey inFlight;
            or_elseP second (
              runRetryLoopP dedupKey (retryLoopP fuel buf epoch entry peerIndex aadPrefix form)))
      end
  end.

(** ** Receiving *)

Definition openFrameP (fuel : nat) (payload : bytes) (guess : FormatGuess) (probed : option Probed)
    (epoch peerIndex : Z) : AP bytes :=
  match probed with
  | Some p => atW (setFormatCache epoch peerIndex guess);; mret (pr_plaintext p)
  | None =>
      opened ← tryDecryptWithRatchetP fuel (drop (prefixLen guess) payload) epoch peerIndex
                 (prefix_arg (prefixLen guess) payload) (aadForm guess);
      atW (setFormatCache epoch peerIndex guess);;
      mret opened
  end.

(** [await state.durableReplay.check(...)] and [.accept(...)], when the guard is available: calls of
    the guard are served in the order they are made, so they count from then. *)
Definition durable_checkP (epoch peerIndex ctr : Z) : AP bool :=
  avail ← atW durable_available;
  fresh ← atW (durable_check epoch peerIndex ctr);
  (if avail : bool then pause else mret tt);;
  mret fresh.

Definition durable_acceptP (epoch peerIndex ctr : Z) : AP unit :=
  avail ← atW durable_available;
  atW (durable_accept epoch peerIndex ctr);;
  if avail : bool then pause else mret tt.

(** Decrypt, accept and write the plaintext into the frame. *)
Definition deliverP (fuel : nat) (fid : nat) (payload : bytes) (guess : FormatGuess) (probed : option Probed)
    (hdr : SFrameHeader) (epoch peerIndex : Z) (window : nat) : AP nat :=
  opened ← openFrameP fuel payload guess probed epoch peerIndex;
  atA (accept_object epoch peerIndex window (Header.ctr hdr));;
  durable_acceptP epoch peerIndex (Header.ctr hdr);;
  atW (recordSuccess epoch peerIndex);;
  plaintext ← failP (reassemble payload guess opened);
  atW (set_frame_data fid plaintext;; clearStarve);;
  mret (length plaintext).

Definition refuse_stale (hdr : SFrameHeader) (epoch peerIndex : Z) : W unit :=
  min ← getw currentMinValidEpoch;
  emit (o_decrypt_failure "stale_epoch" (Some (kid hdr)) (Some epoch) (Some peerIndex) (Some (Header.ctr hdr)));;
  emitMetric (m_queue_drop "stale_epoch" (Some epoch));;
  throw (StaleEpochError epoch min (Some (kid hdr))).

Definition refuse_replay (hdr : SFrameHeader) (epoch peerIndex : Z) : W unit :=
  note_replay hdr epoch peerIndex;;
  throw (ReplayError epoch peerIndex (Header.ctr hdr)).

Definition refuse_invalid (hdr : SFrameHeader) (epoch peerIndex : Z) : W unit :=
  failures ← getw (fun s => failure_count s epoch peerIndex);
  note_key_invalid hdr epoch peerIndex;;
  throw (KeyInvalidError epoch peerIndex failures).

Definition decode_gatesP (fuel : nat) (fid : nat) (payload : bytes) (guess : FormatGuess) (probed : option Probed)
    (hdr : SFrameHeader) (epoch peerIndex : Z) : AP unit :=
  s ← atW (getw id);
  if epoch <? currentMinValidEpoch s then atW (refuse_stale hdr epoch peerIndex)
  else if currentEpoch s =? -1 then atW (enqueuePreEpoch fid (Some peerIndex))
  else
    replayWindow ← atW (getReplayWindow epoch peerIndex);
    window ← atA (window_object epoch peerIndex);
    if negb (Replay.check replayWindow (Header.ctr hdr)) then atW (refuse_replay hdr epoch peerIndex)
    else
    durable ← durable_checkP epoch peerIndex (Header.ctr hdr);
    if negb durable then atW (refuse_replay hdr epoch peerIndex)
    else
    s ← atW (getw id);
    if isKeyInvalid s epoch peerIndex then atW (refuse_invalid hdr epoch peerIndex)
    else
    size ← deliverP fuel fid payload guess probed hdr epoch peerIndex window;
    atW (emitMetric (m_decrypt epoch peerIndex size)).

(** The header at the resolved offset. *)
Definition read_header (payload : bytes) (guess : FormatGuess) : W (SFrameHeader * Z * Z) :=
  s ← getw id;
  hdr ← liftr (parseHeader (drop (prefixLen guess) payload));
  '(epoch, peerIndex) ← liftr (decode (kidCodec s) (kid hdr));
  mret (hdr, epoch, peerIndex).

(** A step of the [try] block with the locals of that moment. *)
Definition guarded {A} (l : HdrLocals) (m : AP A) : AP A :=
  catchP m (fun err => atW (decode_catch l err;; throw err)).

Definition probed_locals (probed : option Probed) : HdrLocals :=
  match probed with
  | Some p => mkLocals (pr_kid p) (pr_epoch p) (pr_peerIndex p) (pr_ctr p)
  | None => initial_locals
  end.

Definition header_locals (probed : option Probed) (hdr : SFrameHeader) (epoch peerIndex : Z) : HdrLocals :=
  match probed with
  | Some _ => probed_locals probed
  | None => mkLocals (kid hdr) epoch peerIndex (Header.ctr hdr)
  end.

Definition decodeFrameP (fuel : nat) (fid : nat) : AP unit :=
  frame ← atW (frame_of fid);
  trailer ← atW (getw sifTrailer);
  match stripTrailer trailer (frame_data frame) with
  | None => mret tt
  | Some payload =>
      '(guess, probed) ← guarded initial_locals (resolveFormatP payload (frameKindOf (frame_type frame)));
      '(hdr, epoch, peerIndex) ← guarded (probed_locals probed) (atW (read_header payload guess));
      guarded (header_locals probed hdr epoch peerIndex)
        (decode_gatesP fuel fid payload guess probed hdr epoch peerIndex)
  end.

(** ** Draining the queue *)

Definition drain_tryP (fuel : nat) (fid : nat) : AP unit :=
  frame ← atW (frame_of fid);
  let raw := frame_data frame in
  '(guess, probed) ← resolveFormatP raw (frameKindOf (frame_type frame));
  '(hdr, epoch, peerIndex) ← atW (read_header raw guess);
  s ← atW (getw id);
  if epoch <? currentMinValidEpoch s then mret tt else
  match lookup_key s epoch peerIndex with
  | None => atW (pushToQueue fid (Some peerIndex))
  | Some _ =>
      replayWindow ← atW (getReplayWindow epoch peerIndex);
      window ← atA (window_object epoch peerIndex);
      if negb (Replay.check replayWindow (Header.ctr hdr)) then atW (note_replay hdr epoch peerIndex)
      else
      durable ← durable_checkP epoch peerIndex (Header.ctr hdr);
      if negb durable then atW (note_replay hdr epoch peerIndex)
      else
      s ← atW (getw id);
      if isKeyInvalid s epoch peerIndex then atW (note_key_invalid hdr epoch peerIndex)
      else
      deliverP fuel fid raw guess probed hdr epoch peerIndex window;;
      mret tt
  end.

Fixpoint drain_eachP (fuel : nat) (pending : list nat) : AP unit :=
  match pending with
  | [] => mret tt
  | fid :: pending => catchP (drain_tryP fuel fid) (fun err => atW (drain_catch err));; drain_eachP fuel pending
  end.

(** A re-run that nobody awaits is started by the event loop's driver. *)
Definition drainPreEpochQueueP (fuel : nat) : AP unit :=
  busy ← atW (getw draining);
  if busy : bool then atW (setw (fun s => s <| pendingDrain := true |>)) else
  pending ← atW (setw (fun s => s <| draining := true |>);;
                 pending ← getw preEpochQueue;
                 setw (fun s => s <| preEpochQueue := [] |>);;
                 mret pending);
  drain_eachP fuel pending;;
  atW (setw (fun s => s <| draining := false |>));;
  again ← atW (getw pendingDrain);
  if again : bool then
    atW (setw (fun s => s <| pendingDrain := false |>));;
    atA (modify (fun s => s <| drain_wanted := true |>))
  else mret tt.

(** ** The transform of a pipe *)

Definition transformP (fuel : nat) (side : Side) (fid : nat) : AP unit :=
  frame ← atW (frame_of fid);
  r ← attemptP (match side with
                | side_encode => encodeFrameP fid (frameKindOf (frame_type frame))
                | side_decode => decodeFrameP fuel fid
                end);
  atW (transform_rest side fid r).

End Async.
