(* ===== verification/WorkerPieces.v ===== *)
(** * WorkerPieces: what every piece of the pipeline with awaits keeps

    [Async_rel R0 R]: the relation [R] on async worlds tolerates the bookkeeping of objects and
    promises, and what [R0] tolerates of the worker. Such an [R] holds across each uninterrupted
    piece of receiving and draining, whatever happens between the pieces. *)
From S2P Require Import Prelude StateLogic Async Errors Internal Header Kid WebCrypto Toy Crypto SFrame Codec Replay.
From S2P Require Import WorkerTypes WorkerState WorkerFrame Worker WorkerLogic WorkerEvents WorkerRatchet WorkerAsync.
From S2P Require Durable.
#[local] Open Scope Z_scope.

Class Async_rel `{WebCrypto} (R0 : relation World) (R : relation AsyncWorld) : Prop := {
  ar_frame :: Frame_rel R0;
  ar_push fid p : keeps R0 (pushToQueue fid p);
  ar_frames w m : R0 w (w <| frames := m |>);
  ar_preorder :: PreOrder R;
  ar_base s w : R0 (base s) w -> R s (s <| base := w |>);
  ar_book s i o wi p oc n : R s (mkAsync (base s) i o wi p oc n (drain_wanted s));
  ar_advance w e p next st : R0 w (advanced e p next st w)
}.

Section Pieces.
Context `{WebCrypto} (R0 : relation World) (R : relation AsyncWorld) `{!Async_rel R0 R}.

Lemma keeps_onW {A} (m : W A) : keeps R0 m -> keeps R (onW m).
Proof. intros Hm s. specialize (Hm (base s)). unfold onW, zoom. destruct (m (base s)). by apply ar_base. Qed.

Lemma pieces_atW {A} (m : W A) : keeps R0 m -> keepsP R (atW m).
Proof. intros Hm. by apply keepsP_piece, keeps_onW. Qed.

Lemma pieces_getw {A} (f : WorkerState -> A) : keepsP R (atW (getw f)).
Proof. apply pieces_atW, keeps_gets, _. Qed.

Lemma pieces_fail {A} (r : res A) : keepsP R (failP r).
Proof. apply keepsP_piece, keeps_lift, _. Qed.

Lemma pieces_settles {A} (r : res A) : keepsP R (settlesP r).
Proof. unfold settlesP. pieces_auto. Qed.

Lemma keeps_book (f : AsyncWorld -> AsyncWorld) :
  (forall s, exists i o wi p oc n, f s = mkAsync (base s) i o wi p oc n (drain_wanted s)) -> keeps R (modify f : M AsyncWorld js_error unit).
Proof. intros Hf s. cbn [modify snd]. destruct (Hf s) as (i & o & wi & p & oc & n & ->). apply ar_book. Qed.

Hint Resolve pieces_getw pieces_fail pieces_settles : pieces.

Lemma keeps_fresh_id : keeps R fresh_id.
Proof. unfold fresh_id. keeps_auto. apply keeps_book. intros s. by do 6 eexists. Qed.

Lemma keeps_entry_object e : keeps R (entry_object e).
Proof.
  unfold entry_object. keeps_auto; [apply keeps_fresh_id|]. apply keeps_book. intros s. by do 6 eexists.
Qed.

Lemma keeps_window_object e p : keeps R (window_object e p).
Proof.
  unfold window_object. keeps_auto; [apply keeps_fresh_id|]. apply keeps_book. intros s. by do 6 eexists.
Qed.

Lemma keeps_advance_entry e obj p next st : keeps R (advance_entry e obj p next st).
Proof.
  unfold advance_entry. keeps_auto.
  - apply keeps_onW, keeps_modify. intros w. apply ar_advance.
  - apply keeps_book. intros s. by do 6 eexists.
Qed.

Lemma keeps_accept_object e p obj c : keeps R (accept_object e p obj c).
Proof. unfold accept_object. keeps_auto. apply keeps_onW, keeps_acceptReplay, _. Qed.

Lemma keeps_frame_data fid d : keeps R0 (set_frame_data fid d).
Proof. apply keeps_modify. intros w. apply ar_frames. Qed.

#[local] Hint Resolve keeps_emit keeps_emitMetric keeps_recordFailure keeps_recordSuccess
  keeps_getReplayWindow keeps_acceptReplay keeps_setFormatCache keeps_with_guard
  keeps_durable_available keeps_durable_check keeps_durable_accept keeps_note_replay
  keeps_note_key_invalid keeps_clearStarve keeps_noteStarveDrop keeps_frame_data ar_push
  keeps_drain_catch keeps_decode_catch : keeps.

Lemma pieces_probe payload cs : keepsP R (probeP payload cs).
Proof. induction cs as [|guess cs IH]; cbn [probeP]; pieces_auto. Qed.
Hint Resolve pieces_probe : pieces.

Lemma pieces_resolve payload kind : keepsP R (resolveFormatP payload kind).
Proof. unfold resolveFormatP. pieces_auto. Qed.

Lemma pieces_decrypt_step0 b a f : keepsP R (decrypt_step0P b a f).
Proof. unfold decrypt_step0P. pieces_auto. Qed.
Hint Resolve pieces_resolve pieces_decrypt_step0 : pieces.

Lemma pieces_retry_steps fuel step b e obj p a f raw sa : keepsP R (retry_stepsP fuel step b e obj p a f raw sa).
Proof.
  revert step raw. induction fuel as [|fuel IH]; intros step raw; cbn [retry_stepsP].
  { apply keepsP_wait; [apply _|]. apply keeps_throw, _. }
  pieces_auto; first [apply pieces_atW; keeps_auto|apply keepsP_piece, keeps_advance_entry].
Qed.

Lemma pieces_retryLoop fuel b e obj p a f : keepsP R (retryLoopP fuel b e obj p a f).
Proof.
  unfold retryLoopP. pieces_auto; [apply keepsP_piece; unfold read_entry; keeps_auto|apply pieces_retry_steps].
Qed.
Hint Resolve pieces_retryLoop : pieces.

Lemma pieces_runRetryLoop key loop : keepsP R loop -> keepsP R (runRetryLoopP key loop).
Proof.
  intros Hl. unfold runRetryLoopP. pieces_auto; try exact Hl;
    first [apply keepsP_piece, keeps_fresh_id
          |apply keepsP_piece, keeps_book; intros s; by do 6 eexists
          |apply pieces_atW, keeps_modify; intros w; apply fr_promise].
Qed.

Lemma pieces_await_promise key id : keepsP R (await_promise key id).
Proof. apply keepsP_wait; [apply _|apply keeps_gets, _]. Qed.

Lemma pieces_promise_under key : keepsP R (promise_under key).
Proof. apply keepsP_piece, keeps_gets, _. Qed.
Hint Resolve pieces_await_promise pieces_promise_under : pieces.

Lemma pieces_tryDecrypt fuel b e p a f : keepsP R (tryDecryptWithRatchetP fuel b e p a f).
Proof.
  unfold tryDecryptWithRatchetP, after_in_flight, after_await, or_elseP. pieces_auto.
  - apply keepsP_piece, keeps_entry_object.
  - apply pieces_runRetryLoop, pieces_retryLoop.
Qed.
Hint Resolve pieces_tryDecrypt : pieces.

Lemma pieces_deliver fuel fid payload g pr hdr e p obj : keepsP R (deliverP fuel fid payload g pr hdr e p obj).
Proof.
  unfold deliverP, openFrameP, durable_acceptP. pieces_auto; first [apply pieces_atW; keeps_auto|apply keepsP_piece, keeps_accept_object].
Qed.

Lemma pieces_durable_check e p c : keepsP R (durable_checkP e p c).
Proof. unfold durable_checkP. pieces_auto; apply pieces_atW; keeps_auto. Qed.
Hint Resolve pieces_deliver pieces_durable_check : pieces.

Lemma pieces_gates fuel fid payload g pr hdr e p : keepsP R (decode_gatesP fuel fid payload g pr hdr e p).
Proof.
  unfold decode_gatesP. pieces_auto; first
    [apply keepsP_piece, keeps_window_object
    |apply pieces_atW; unfold refuse_stale, refuse_replay, refuse_invalid, enqueuePreEpoch; keeps_auto].
Qed.

Lemma pieces_guarded {A} l (m : P AsyncWorld js_error A) : keepsP R m -> keepsP R (guarded l m).
Proof. intros Hm. unfold guarded. pieces_auto. apply pieces_atW. keeps_auto. Qed.

Lemma pieces_read_header payload g : keepsP R (atW (read_header payload g)).
Proof. apply pieces_atW. unfold read_header. keeps_auto. Qed.

Lemma pieces_frame_of fid : keepsP R (atW (frame_of fid)).
Proof. apply pieces_atW, keeps_gets, _. Qed.
Hint Resolve pieces_read_header pieces_frame_of : pieces.

Lemma pieces_decode fuel fid : keepsP R (decodeFrameP fuel fid).
Proof.
  unfold decodeFrameP. pieces_auto; apply pieces_guarded; first [apply pieces_resolve|apply pieces_read_header|apply pieces_gates].
Qed.

Lemma pieces_drain_try fuel fid : keepsP R (drain_tryP fuel fid).
Proof.
  unfold drain_tryP. pieces_auto; first [apply keepsP_piece, keeps_window_object|apply pieces_atW; keeps_auto].
Qed.

Lemma pieces_drain_each fuel pending : keepsP R (drain_eachP fuel pending).
Proof.
  induction pending as [|fid pending IH]; cbn [drain_eachP]; pieces_auto.
  - apply pieces_drain_try.
  - apply pieces_atW. keeps_auto.
Qed.

End Pieces.

(** From its first piece to its end, when nobody is in between. *)
Lemma alone_keeps {S E A} (R : relation S) `{!PreOrder R} (m : P S E A) s : keepsP R m -> R s (alone m s).2.
Proof.
  intros Hm. destruct (Hm s) as [H1 H2]. unfold alone. destruct (m s) as [x s1]. cbn [fst snd] in *.
  transitivity s1; [exact H1|]. clear H1 Hm s. revert s1 H2.
  induction x as [r|ready c IH] using run_ind; intros s1 Hx; cbn [finish]; [reflexivity|].
  destruct (Hx s1) as [H1 H2]. specialize (IH s1). destruct (c s1) as [x s2]. transitivity s2; [exact H1|by apply IH].
Qed.
