(* ===== verification/WorkerSerial.v ===== *)
(** * WorkerSerial: the pipeline with awaits, run one call at a time

    [agrees I J p m]: with nobody in between, the program [p] does what the operation [m] of
    [WorkerFrame] does. So the theorems on single operations are theorems on [WorkerAsync]. *)
From S2P Require Import Prelude StateLogic Async Errors Internal Header Kid WebCrypto Toy Crypto SFrame Codec Replay.
From S2P Require Import WorkerTypes WorkerState WorkerFrame Worker WorkerLogic WorkerEvents WorkerRatchet WorkerGates WorkerEpochs.
From S2P Require Import WorkerDrain WorkerAsync WorkerPieces Demo.
From S2P Require Durable.
#[local] Open Scope Z_scope.

Section Serial.
Context `{WebCrypto} (fuel : nat).

(** No derivation in flight, and a retry window within the fuel. *)
Definition calm (w : World) : Prop := settled w /\ 0 <= ratchetWindowSize (ws w) < Z.of_nat fuel.

Lemma calm_same w w' :
  same (fun w => (ratchetPromises (ws w), ratchetWindowSize (ws w))) w w' -> preserved calm w w'.
Proof. unfold same, preserved, calm, settled. by intros [= -> ->]. Qed.

#[export] Instance calm_frame : Frame_rel (preserved calm).
Proof.
  split; [apply _|intros; apply calm_same; reflexivity..| |intros; apply calm_same; reflexivity].
  intros w key p. unfold preserved, calm, settled. cbn. intros [-> Hw].
  split; [by rewrite delete_insert_id by apply lookup_empty|done].
Qed.

#[export] Instance calm_receive : Receive_rel (preserved calm).
Proof.
  split; [apply _| |intros; apply calm_same; reflexivity..|].
  - intros. apply pushToQueue_keeps; [apply _|]. intros. apply calm_same. reflexivity.
  - apply retryLoop_keeps; [apply _|]. intros. apply calm_same. reflexivity.
Qed.

(** One call at a time; [held] is a replay window that the call holds on to. *)
Record serial (held : option (Z * Z * nat)) (s : AsyncWorld) : Prop := mk_serial {
  se_calm : calm (base s);
  se_promises : promises s = ∅;
  se_held : match held with Some (k, obj) => window_ids s !! k = Some obj | None => True end
}.

Definition agrees {A} (I J : AsyncWorld -> Prop) (p : P AsyncWorld js_error A) (m : W A) : Prop :=
  forall s, I s -> exists s', alone p s = ((m (base s)).1, s') /\ base s' = (m (base s)).2 /\ J s'.

Lemma agrees_bind {A B} I J K p m (k : A -> P AsyncWorld js_error B) (k' : A -> W B) :
  agrees I J p m -> (forall a, agrees J K (k a) (k' a)) -> (forall s, J s -> K s) ->
  agrees I K (p ≫= k) (m ≫= k').
Proof.
  intros Hp Hk HJ s Hs. destruct (Hp s Hs) as (s1 & E1 & Eb & HJ1). rewrite alone_bind.
  unfold mbind, M_bind. rewrite E1. destruct (m (base s)) as [[a|e] w1]; cbn [fst snd] in *.
  - subst w1. by apply Hk.
  - subst w1. exists s1. split_and!; auto.
Qed.

(** Bookkeeping that the sequential operation does not have. *)
Lemma agrees_skip {A B} I J K (p : P AsyncWorld js_error A) (k : A -> P AsyncWorld js_error B) (m : W B) :
  (forall s, I s -> exists a s', alone p s = (Ok a, s') /\ base s' = base s /\ J a s') ->
  (forall a, agrees (J a) K (k a) m) -> agrees I K (p ≫= k) m.
Proof.
  intros Hp Hk s Hs. destruct (Hp s Hs) as (a & s1 & E1 & Eb & HJ1). rewrite alone_bind.
  rewrite (bind_Ok _ _ _ _ _ E1). rewrite <- Eb. by apply Hk.
Qed.

Lemma alone_atW {A} (m : W A) s : alone (atW m) s = ((m (base s)).1, s <| base := (m (base s)).2 |>).
Proof. unfold atW. rewrite alone_piece. unfold onW, zoom. by destruct (m (base s)). Qed.

Lemma serial_base held s w : serial held s -> calm w -> serial held (s <| base := w |>).
Proof. by intros [? ? ?]. Qed.

Lemma agrees_atW {A} held (m : W A) :
  keeps (preserved calm) m -> agrees (serial held) (serial held) (atW m) m.
Proof.
  intros Hm s Hs. rewrite alone_atW. eexists. split; [reflexivity|]. split; [reflexivity|].
  apply serial_base; [done|]. apply Hm, Hs.
Qed.

Lemma agrees_ret {A} I (a : A) : agrees I I (mret a) (mret a).
Proof. intros s Hs. by exists s. Qed.

Lemma agrees_fail {A} I (r : res A) : agrees I I (failP r) (liftr r).
Proof. intros s Hs. unfold failP. rewrite alone_piece. by exists s. Qed.

Lemma agrees_eq {A} I J p (m m' : W A) : (forall w, m w = m' w) -> agrees I J p m' -> agrees I J p m.
Proof. intros E Hp s Hs. rewrite E. by apply Hp. Qed.

Lemma base_eta (s : AsyncWorld) : s <| base := base s |> = s.
Proof. by destruct s. Qed.

(** ** Reading and probing *)

Lemma alone_getw_id {B} (k : WorkerState -> P AsyncWorld js_error B) s :
  alone (atW (getw id) ≫= k) s = alone (k (ws (base s))) s.
Proof.
  rewrite alone_bind. unfold mbind, M_bind. rewrite alone_atW. cbn [getw gets fst snd id]. by rewrite base_eta.
Qed.

Lemma alone_failP {A B} (r : res A) (k : A -> P AsyncWorld js_error B) s :
  alone (failP r ≫= k) s = match r with Ok a => alone (k a) s | Throw e => (Throw e, s) end.
Proof. rewrite alone_bind. unfold failP, mbind, M_bind. rewrite alone_piece. by destruct r. Qed.

Lemma alone_settles {A B} (r : res A) (k : res A -> P AsyncWorld js_error B) s :
  alone (settlesP r ≫= k) s = alone (k r) s.
Proof. done. Qed.

Lemma alone_when_pause {B} (b : bool) (k : unit -> P AsyncWorld js_error B) s :
  alone ((if b then pause else mret tt) ≫= k) s = alone (k tt) s.
Proof. by destruct b. Qed.

Lemma alone_probe payload cs s : alone (probeP payload cs) s = (probe_loop (ws (base s)) payload cs, s).
Proof.
  induction cs as [|guess cs IH]; [done|]. cbn [probeP probe_loop].
  rewrite alone_getw_id, alone_failP. destruct (probe_one _ _ _) as [r|e]; [|done].
  rewrite alone_when_pause. cbn [mbind result_bind]. by destruct r.
Qed.

Lemma alone_resolve payload kind s :
  alone (resolveFormatP payload kind) s = (resolveFormat (ws (base s)) payload kind, s).
Proof.
  unfold resolveFormatP, resolveFormat. rewrite alone_getw_id. cbv zeta.
  destruct (cachedFormat _ _ _) as [cached|]; [done|]. rewrite alone_bind. unfold mbind at 1, M_bind at 1.
  rewrite alone_probe. unfold probeFormat. destruct (probe_loop _ _ _) as [[p|]|e]; done.
Qed.

(** ** The ratchet retry *)

Definition current_entry (e : Z) (obj : nat) (s : AsyncWorld) : Prop := entry_ids s !! e = Some obj.

Lemma alone_retry_steps f todo step buf e obj p a form raw sa s :
  current_entry e obj s -> (todo < f)%nat -> step + Z.of_nat todo = ratchetWindowSize (ws (base s)) + 1 ->
  alone (retry_stepsP f step buf e obj p a form raw sa) s =
    let '(r, w) := retry_steps todo step buf e p a form raw sa (base s) in (r, s <| base := w |>).
Proof.
  revert f step raw. induction todo as [|todo IH]; intros [|f] step raw Hobj Hf Hstep; [lia| |lia|];
    cbn [retry_stepsP retry_steps]; rewrite alone_getw_id, bind_getw; cbn [id].
  - rewrite (proj2 (Z.ltb_lt _ _)) by lia. rewrite alone_bind. unfold mbind at 1, M_bind at 1.
    rewrite alone_atW, emitMetric_run. cbn [fst snd]. rewrite alone_atW.
    by rewrite (bind_Ok _ _ _ _ _ (emitMetric_run _ _)).
  - rewrite (proj2 (Z.ltb_ge _ _)) by lia. rewrite alone_settles, alone_failP, bind_liftr.
    destruct (deriveNextSenderKey _ _ _ _ _ _) as [next|err]; [|by rewrite base_eta].
    rewrite alone_getw_id, alone_settles. cbn [id]. destruct (sframeDecrypt _ _ _) as [pt|err].
    + rewrite alone_bind. unfold mbind at 1, M_bind at 1. unfold atA at 1. rewrite alone_piece.
      unfold advance_entry. rewrite bind_gets. unfold entry_current. rewrite bool_decide_eq_true_2 by exact Hobj.
      unfold onW, zoom. set (w1 := (advance_key e p next step (base s)).2).
      assert (advance_key e p next step (base s) = (Ok tt, w1)) as E1 by done. rewrite E1.
      rewrite alone_bind. unfold mbind at 1, M_bind at 1. rewrite alone_atW.
      change (base (s <| base := w1 |>)) with w1. rewrite emitMetric_run. cbn [fst snd].
      by rewrite (bind_Ok _ _ _ _ _ E1), (bind_Ok _ _ _ _ _ (emitMetric_run _ w1)).
    + apply IH; [done|lia|lia].
Qed.

Lemma alone_retryLoop buf e obj p a form s :
  current_entry e obj s -> calm (base s) ->
  alone (retryLoopP fuel buf e obj p a form) s =
    let '(r, w) := retryLoop buf e p a form (base s) in (r, s <| base := w |>).
Proof.
  intros Hobj [_ Hwin]. unfold retryLoopP, retryLoop. rewrite alone_bind, bind_getw. cbn [id].
  unfold atA, read_entry, mbind at 1, M_bind at 1. rewrite alone_piece. cbn [gets].
  unfold entry_current. rewrite bool_decide_eq_true_2 by exact Hobj.
  change (id (ws (base s))) with (ws (base s)). unfold lookup_key.
  destruct (epochs (ws (base s)) !! e) as [entry|]; cbn [mbind option_bind].
  2: { unfold failP. rewrite alone_piece. cbn. by rewrite base_eta. }
  destruct (ent_keys entry !! p) as [k|].
  - apply alone_retry_steps; [done|lia|lia].
  - unfold failP. rewrite alone_piece. cbn. by rewrite base_eta.
Qed.

(** The object of an entry, which exists from then on. *)
Lemma entry_object_run e held s :
  serial held s -> exists obj s', entry_object e s = (Ok obj, s') /\ base s' = base s /\ serial held s' /\
    current_entry e obj s'.
Proof.
  intros [Hc Hp Hh]. unfold entry_object. rewrite bind_gets. cbn beta.
  destruct (entry_ids s !! e) as [obj|] eqn:E; [by exists obj, s|].
  do 2 eexists. split; [reflexivity|]. split; [done|]. split; [done|]. apply lookup_insert_eq.
Qed.

Lemma window_object_run e p s :
  serial None s -> exists obj s', window_object e p s = (Ok obj, s') /\ base s' = base s /\
    serial (Some (e, p, obj)) s'.
Proof.
  intros [Hc Hp _]. unfold window_object. rewrite bind_gets. cbn beta.
  destruct (window_ids s !! (e, p)) as [obj|] eqn:E; [by exists obj, s|].
  do 2 eexists. split; [reflexivity|]. split; [done|]. split; [done|done|]. apply lookup_insert_eq.
Qed.

Lemma agrees_runRetryLoop held key e obj buf p a form :
  agrees (fun s => serial held s /\ current_entry e obj s) (serial held)
    (runRetryLoopP key (retryLoopP fuel buf e obj p a form)) (runRetryLoop key (retryLoop buf e p a form)).
Proof.
  intros s [[Hc Hp Hh] Hobj]. unfold runRetryLoopP. rewrite alone_bind. unfold mbind at 1, M_bind at 1, atA at 1.
  rewrite alone_piece. unfold fresh_id. rewrite bind_gets, bind_modify. cbn [mret M_ret].
  set (s1 := s <| next_id := _ |>). rewrite alone_bind. unfold mbind at 1, M_bind at 1, atA at 1.
  rewrite alone_piece. unfold modify at 1. set (s2 := s1 <| promises ::= _ |> <| outcomes ::= _ |>).
  rewrite alone_bind. unfold mbind at 1, M_bind at 1. rewrite alone_attempt. unfold attempt.
  rewrite (alone_retryLoop buf e obj p a form s2 Hobj Hc). change (base s2) with (base s).
  assert (settled (retryLoop buf e p a form (base s)).2) as Hset.
  { apply (rr_retry (R := preserved calm) buf e p a form (base s)), Hc. }
  rewrite runRetryLoop_run by (rewrite Hset; apply lookup_empty).
  pose proof (rr_retry (R := preserved calm) buf e p a form (base s) Hc) as Hc'.
  destruct (retryLoop buf e p a form (base s)) as [r w]. cbn [fst snd] in *.
  set (s3 := s2 <| base := w |>). rewrite alone_bind. unfold mbind at 1, M_bind at 1, atA at 1.
  rewrite alone_piece. unfold modify at 1. set (s4 := s3 <| outcomes ::= _ |>).
  rewrite alone_bind. unfold mbind at 1, M_bind at 1. rewrite alone_pause.
  rewrite alone_bind. unfold mbind at 1, M_bind at 1, atA at 1. rewrite alone_piece. unfold modify at 1.
  rewrite alone_bind. unfold mbind at 1, M_bind at 1. rewrite alone_atW. cbn [modify fst snd].
  unfold failP. rewrite alone_piece. cbn [lift]. eexists. split; [reflexivity|]. split; [reflexivity|].
  split; [exact Hc'| |exact Hh]. cbn. rewrite Hp. by rewrite delete_insert_id by apply lookup_empty.
Qed.

Lemma agrees_tryDecrypt held buf e p a form :
  agrees (serial held) (serial held) (tryDecryptWithRatchetP fuel buf e p a form) (tryDecryptWithRatchet buf e p a form).
Proof.
  intros s Hs. unfold tryDecryptWithRatchetP, tryDecryptWithRatchet. rewrite alone_getw_id, bind_getw. cbn [id].
  change (id (ws (base s))) with (ws (base s)). unfold lookup_key.
  destruct (epochs (ws (base s)) !! e) as [entry|]; cbn [mbind option_bind]; [|by apply agrees_fail].
  destruct (ent_keys entry !! p) as [k|]; [|by apply agrees_fail].
  destruct (entry_object_run e held s Hs) as (obj & s1 & Hrun & Eb & Hs1 & Hobj).
  rewrite alone_bind. unfold mbind at 1, M_bind at 1, atA at 1. rewrite alone_piece, Hrun.
  rewrite <- Eb. unfold decrypt_step0P. rewrite alone_bind. unfold mbind at 1, M_bind at 1.
  rewrite alone_getw_id. set (r0 := sframeDecrypt buf _ _).
  change (alone (settlesP r0) s1) with (@Ok js_error _ r0, s1). rewrite (bind_Ok _ _ _ r0 (base s1)) by done.
  destruct r0 as [pt|err]; [by exists s1|]. rewrite alone_bind. unfold mbind at 1, M_bind at 1.
  rewrite alone_atW. cbn [getw gets fst snd]. rewrite base_eta. destruct (_ =? 0); [by apply agrees_fail|].
  rewrite bind_getw. pose proof Hs1 as [[Hset _] Hp _]. unfold settled in Hset. rewrite Hset, lookup_empty.
  rewrite alone_bind. unfold mbind at 1, M_bind at 1, promise_under at 1, atA at 1. rewrite alone_piece. cbn [gets].
  rewrite Hp, lookup_empty. cbn [after_in_flight]. rewrite (bind_Ok _ _ _ None (base s1)) by done.
  unfold or_else. rewrite bind_getw, Hset, lookup_empty.
  rewrite alone_bind. unfold mbind at 1, M_bind at 1. change (alone (mret None) s1) with (Ok (@None bytes) : res _, s1).
  cbn [or_elseP]. rewrite alone_bind. unfold mbind at 1, M_bind at 1, after_await. rewrite alone_bind.
  unfold mbind at 1, M_bind at 1, promise_under, atA. rewrite alone_piece. cbn [gets]. rewrite Hp, lookup_empty.
  change (alone (mret None) s1) with (Ok (@None bytes) : res _, s1). cbn [or_elseP].
  by apply agrees_runRetryLoop.
Qed.

#[local] Hint Resolve keeps_emit keeps_emitMetric keeps_recordFailure keeps_recordSuccess
  keeps_getReplayWindow keeps_acceptReplay keeps_setFormatCache keeps_with_guard
  keeps_durable_available keeps_durable_check keeps_durable_accept keeps_note_replay
  keeps_note_key_invalid keeps_clearStarve keeps_noteStarveDrop keeps_set_frame_data rr_push
  keeps_drain_catch keeps_decode_catch : keeps.

Lemma agrees_openFrame held payload g pr e p :
  agrees (serial held) (serial held) (openFrameP fuel payload g pr e p) (openFrame payload g pr e p).
Proof.
  unfold openFrameP, openFrame. destruct pr as [pr|].
  - eapply agrees_bind; [apply agrees_atW; keeps_auto|intros _; apply agrees_ret|done].
  - eapply agrees_bind; [apply agrees_tryDecrypt|intros opened|done].
    eapply agrees_bind; [apply agrees_atW; keeps_auto|intros _; apply agrees_ret|done].
Qed.

(** What is left after an operation may only wait. *)
Lemma agrees_then {A} I J p (m : W A) (k : A -> P AsyncWorld js_error A) :
  agrees I J p m -> (forall a s, alone (k a) s = (Ok a, s)) -> agrees I J (p ≫= k) m.
Proof.
  intros Hp Hk s Hs. destruct (Hp s Hs) as (s1 & E & Eb & Hs1). rewrite alone_bind. unfold mbind, M_bind. rewrite E.
  exists s1. destruct (m (base s)) as [[a|err] w]; [|done]. cbn [fst snd] in *. by rewrite Hk.
Qed.

Lemma agrees_available {B} I J (k : bool -> P AsyncWorld js_error B) m :
  (forall avail, agrees I J (k avail) m) -> agrees I J (atW durable_available ≫= k) m.
Proof.
  intros Hk s Hs. rewrite alone_bind. unfold mbind, M_bind. rewrite alone_atW. unfold durable_available. rewrite bind_getw.
  cbn [mret M_ret fst snd]. rewrite base_eta. by apply Hk.
Qed.

Lemma agrees_durable_check held e p c :
  agrees (serial held) (serial held) (durable_checkP e p c) (durable_check e p c).
Proof.
  apply agrees_available. intros avail. apply agrees_then; [apply agrees_atW; keeps_auto|]. intros ok s. by rewrite alone_when_pause.
Qed.

Lemma agrees_durable_accept held e p c :
  agrees (serial held) (serial held) (durable_acceptP e p c) (durable_accept e p c).
Proof.
  apply agrees_available. intros avail. apply agrees_then; [apply agrees_atW; keeps_auto|]. intros [] s. by destruct avail.
Qed.

Lemma agrees_accept e p obj c :
  agrees (serial (Some (e, p, obj))) (serial (Some (e, p, obj))) (atA (accept_object e p obj c)) (acceptReplay e p c).
Proof.
  intros s Hs. pose proof Hs as [Hc _ Hh]. unfold atA. rewrite alone_piece. unfold accept_object.
  rewrite bind_gets. cbn beta. rewrite bool_decide_eq_true_2 by exact Hh. unfold onW, zoom.
  eexists. split; [reflexivity|]. split; [reflexivity|]. apply serial_base; [done|].
  by apply (keeps_acceptReplay (preserved calm) e p c (base s)).
Qed.

Lemma agrees_deliver held fid payload g pr hdr e p obj :
  held = Some (e, p, obj) ->
  agrees (serial held) (serial held) (deliverP fuel fid payload g pr hdr e p obj) (deliver fid payload g pr hdr e p).
Proof.
  intros ->. unfold deliverP, deliver, acceptFrame.
  eapply agrees_bind; [apply agrees_openFrame|intros opened|done].
  eapply agrees_eq; [intros w; apply bind_assoc|].
  eapply agrees_bind; [apply agrees_accept|intros _|done].
  eapply agrees_eq; [intros w; apply bind_assoc|].
  eapply agrees_bind; [apply agrees_durable_accept|intros _|done].
  eapply agrees_bind; [apply agrees_atW; keeps_auto|intros _|done].
  eapply agrees_bind; [apply agrees_fail|intros plaintext|done].
  eapply agrees_eq; [intros w; symmetry; apply (bind_assoc (set_frame_data fid plaintext) (fun _ => clearStarve))|].
  eapply agrees_bind; [apply agrees_atW; keeps_auto|intros _; apply agrees_ret|done].
Qed.

Lemma agrees_weaken {A} I J J' p (m : W A) : (forall s, J s -> J' s) -> agrees I J p m -> agrees I J' p m.
Proof. intros HJ Hp s Hs. destruct (Hp s Hs) as (s' & ? & ? & ?). exists s'. auto. Qed.

(** Where the operation depends on the state it starts from. *)
Lemma agrees_here {A} I J p (m m' : W A) s :
  agrees I J p m' -> I s -> m (base s) = m' (base s) ->
  exists s', alone p s = ((m (base s)).1, s') /\ base s' = (m (base s)).2 /\ J s'.
Proof. intros Hp Hs E. rewrite E. by apply Hp. Qed.

Lemma serial_drop held s : serial held s -> serial None s.
Proof. by intros [? ? ?]. Qed.

Lemma agrees_gates fid payload g pr hdr e p :
  agrees (serial None) (serial None) (decode_gatesP fuel fid payload g pr hdr e p) (decode_gates fid payload g pr hdr e p).
Proof.
  intros s Hs. unfold decode_gatesP, decode_gates. rewrite alone_getw_id, bind_getw. cbn [id].
  change (id (ws (base s))) with (ws (base s)). destruct (_ <? _).
  { eapply agrees_here; [apply (agrees_atW None (refuse_stale hdr e p))|done|done].
    unfold refuse_stale. keeps_auto. }
  destruct (_ =? -1). { by apply (agrees_atW None (enqueuePreEpoch fid (Some p))); [unfold enqueuePreEpoch; keeps_auto|]. }
  revert s Hs. eapply agrees_bind; [apply agrees_atW; keeps_auto|intros win|done].
  eapply agrees_skip; [intros s Hs; unfold atA; rewrite alone_piece; by apply window_object_run|intros obj]. cbn beta.
  apply (agrees_weaken _ (serial (Some (e, p, obj)))); [intros s; apply serial_drop|].
  destruct (Replay.check win (Header.ctr hdr)); cbn [negb].
  2: { apply (agrees_atW _ (refuse_replay hdr e p)). unfold refuse_replay. keeps_auto. }
  eapply agrees_bind; [apply agrees_durable_check|intros ok|done]. destruct ok; cbn [negb].
  2: { apply (agrees_atW _ (refuse_replay hdr e p)). unfold refuse_replay. keeps_auto. }
  intros s Hs. rewrite alone_getw_id, bind_getw. cbn [id]. change (id (ws (base s))) with (ws (base s)).
  destruct (isKeyInvalid _ _ _).
  { eapply agrees_here; [apply (agrees_atW _ (refuse_invalid hdr e p))|done|done].
    unfold refuse_invalid. keeps_auto. }
  revert s Hs. eapply agrees_bind; [by apply agrees_deliver|intros size|done].
  apply agrees_atW. keeps_auto.
Qed.

Lemma agrees_guarded l p m :
  agrees (serial None) (serial None) p m -> agrees (serial None) (serial None) (guarded l p) (caught l m).
Proof.
  intros Hp s Hs. destruct (Hp s Hs) as (s1 & E & Eb & Hs1). unfold guarded. rewrite alone_catch. unfold catch, caught.
  rewrite E. destruct (m (base s)) as [[[]|err] w1]; cbn [fst snd] in *; subst w1; [by exists s1|].
  eapply agrees_here; [apply (agrees_atW None)|done|done]. keeps_auto.
Qed.

(** A pure part of the [try] block. *)
Lemma alone_guarded {A} l (p : P AsyncWorld js_error A) (r : res A) s :
  alone p s = (r, s) ->
  alone (guarded l p) s = match r with
                          | Ok a => (Ok a, s)
                          | Throw err => alone (atW (decode_catch l err;; throw err)) s
                          end.
Proof. intros E. unfold guarded. rewrite alone_catch. unfold catch. rewrite E. by destruct r. Qed.

Lemma alone_read_header payload guess s :
  alone (atW (read_header payload guess)) s =
    (hdr ← parseHeader (drop (prefixLen guess) payload);
     '(e, p) ← decode (kidCodec (ws (base s))) (kid hdr);
     mret (hdr, e, p), s).
Proof.
  assert (forall w, read_header payload guess w =
    (hdr ← parseHeader (drop (prefixLen guess) payload);
     '(e, p) ← decode (kidCodec (ws w)) (kid hdr);
     mret (hdr, e, p), w)) as E.
  { intros w. unfold read_header. rewrite bind_getw, bind_liftr. destruct (parseHeader _) as [hdr|err]; [|done].
    rewrite bind_liftr. change (id (ws w)) with (ws w). cbn [mbind result_bind].
    by destruct (decode _ _) as [[e p]|err]. }
  rewrite alone_atW, E. cbn [fst snd]. by rewrite base_eta.
Qed.

Lemma agrees_decode fid : agrees (serial None) (serial None) (decodeFrameP fuel fid) (decodeFrame fid).
Proof.
  unfold decodeFrameP, decodeFrame.
  eapply agrees_bind; [apply agrees_atW; unfold frame_of; keeps_auto|intros frame|done].
  eapply agrees_bind; [apply agrees_atW; keeps_auto|intros trailer|done].
  destruct (stripTrailer _ _) as [payload|]; [|apply agrees_ret]. set (kind := frameKindOf _).
  intros s Hs. rewrite decode_guarded_run. unfold addressed. rewrite alone_bind. unfold mbind at 1, M_bind at 1.
  rewrite (alone_guarded _ _ _ _ (alone_resolve payload kind s)).
  assert (forall l err A, alone (atW (decode_catch l err;; throw err : W A)) s =
    (Throw err, s <| base := (decode_catch l err (base s)).2 |>)) as Hthrow.
  { intros l err A. rewrite alone_atW. by rewrite (bind_Ok _ _ _ _ _ (returns_run _ (base s) (returns_decode_catch l err))). }
  assert (forall err, exists s', (@Throw js_error unit err, s <| base := (decode_catch initial_locals err (base s)).2 |>) =
    ((caught initial_locals (throw err) (base s)).1, s') /\ base s' = (caught initial_locals (throw err) (base s)).2 /\
    serial None s') as Hcatch.
  { intros err. unfold caught. cbn [throw].
    rewrite (bind_Ok _ _ _ _ _ (returns_run _ (base s) (returns_decode_catch initial_locals err))). eexists.
    split; [reflexivity|]. split; [reflexivity|]. apply serial_base; [done|].
    apply (keeps_decode_catch (preserved calm) initial_locals err (base s)), Hs. }
  destruct (resolveFormat (ws (base s)) payload kind) as [[guess probed]|err] eqn:Er.
  2: { rewrite Hthrow. apply Hcatch. }
  cbn [mbind result_bind]. rewrite alone_bind. unfold mbind at 1, M_bind at 1.
  rewrite (alone_guarded _ _ _ _ (alone_read_header payload guess s)).
  destruct (parseHeader _) as [hdr|err] eqn:Ep.
  2: { assert (probed = None) as ->.
       { destruct probed as [pr|]; [|done]. apply resolveFormat_probed in Er as [<- [h Hpr]].
         destruct Hpr as [H1 _ _ _ _]. congruence. }
       cbn [mbind result_bind probed_locals]. rewrite Hthrow. apply Hcatch. }
  cbn [mbind result_bind]. destruct (decode _ _) as [[e p]|err] eqn:Ed.
  2: { assert (probed = None) as ->.
       { destruct probed as [pr|]; [|done]. apply resolveFormat_probed in Er as [<- [h Hpr]].
         destruct Hpr as [H1 H2 _ _ _]. rewrite H1 in Ep. apply Ok_inj in Ep as ->. congruence. }
       cbn [mbind result_bind probed_locals]. rewrite Hthrow. apply Hcatch. }
  cbn [mbind result_bind mret result_ret].
  assert (header_locals probed hdr e p = mkLocals (kid hdr) e p (Header.ctr hdr)) as ->.
  { unfold header_locals, probed_locals. destruct probed as [pr|]; [|done].
    apply resolveFormat_probed in Er as [<- [h Hpr]]. destruct Hpr as [H1 H2 H3 H4 _].
    rewrite H1 in Ep. apply Ok_inj in Ep as ->. rewrite H2 in Ed. apply Ok_inj in Ed. injection Ed as -> ->.
    by rewrite H3, H4. }
  by apply agrees_guarded; [apply agrees_gates|].
Qed.

Lemma agrees_encode fid kind : agrees (serial None) (serial None) (encodeFrameP fid kind) (encodeFrame fid kind).
Proof.
  assert (forall w, encodeFrame fid kind w =
    (start ← encode_start fid kind;
     wire ← liftr start.2;
     encode_finish fid start.1.1 start.1.2 wire) w) as Hseq.
  { intros w. unfold encodeFrame, encode_start. rewrite bind_assoc, !bind_getw. cbn [id].
    change (id (ws w)) with (ws w). destruct (epochs (ws w) !! currentEpoch (ws w)) as [entry|]; [|done].
    destruct (ent_keys entry !! ent_selfPeerIndex entry) as [key|]; [|done]. cbv zeta.
    rewrite bind_assoc, !bind_setw. set (w1 := w <| ws ::= _ |>). rewrite bind_assoc.
    rewrite !(bind_Ok (frame_of fid) _ w1 (default (mkFrame [] None) (frames w1 !! fid)) w1) by done.
    rewrite bind_assoc, !bind_liftr. destruct (serializeHeader _ _) as [header|err]; [|done].
    rewrite bind_assoc, !bind_liftr.
    match goal with |- context [match ?r with Ok _ => _ | Throw err => (Throw err, w1) end] => destruct r as [wire0|err] end; [|done].
    cbn [mret M_ret]. rewrite bind_liftr. unfold mbind at 3, M_bind at 3. cbn [fst snd].
    destruct (sframeEncryptInto _ _ _ _ _ _ _ _) as [[written wire]|err]; [|done]. cbn [mbind result_bind].
    rewrite !bind_liftr. destruct (sifTrailer (ws w)) as [t|]; [destruct (u8_set _ _ _)|]; done. }
  eapply agrees_eq; [exact Hseq|]. unfold encodeFrameP.
  eapply agrees_bind; [apply agrees_atW|intros [[key plaintext] sealing]|done].
  { unfold encode_start, frame_of. keeps_auto. apply keeps_setw. intros w. apply calm_same. reflexivity. }
  cbn [fst snd]. intros s Hs. rewrite alone_bind. unfold mbind at 1, M_bind at 1. rewrite alone_pause.
  revert s Hs. eapply agrees_bind; [apply agrees_fail|intros wire|done]. apply agrees_atW.
  unfold encode_finish, clearEncryptStarve. keeps_auto. apply keeps_setw. intros w. apply calm_same. reflexivity.
Qed.

(** The result of an operation that never throws. *)
Lemma agrees_attempt {A} I p (m : W A) : agrees I I p m -> agrees I I (attemptP p) (attempt m : W (res A)).
Proof.
  intros Hp s Hs. destruct (Hp s Hs) as (s1 & E & Eb & Hs1). rewrite alone_attempt. unfold attempt. rewrite E.
  destruct (m (base s)) as [r w1]. exists s1. by split_and!.
Qed.

Lemma agrees_transform side fid : agrees (serial None) (serial None) (transformP fuel side fid) (transform side fid).
Proof.
  assert (forall w, transform side fid w =
    (frame ← frame_of fid;
     r ← attempt (match side with
                  | side_encode => encodeFrame fid (frameKindOf (frame_type frame))
                  | side_decode => decodeFrame fid
                  end);
     transform_rest side fid r) w) as Hseq by done.
  eapply agrees_eq; [exact Hseq|]. unfold transformP.
  eapply agrees_bind; [apply agrees_atW; unfold frame_of; keeps_auto|intros frame|done].
  eapply agrees_bind; [apply agrees_attempt|intros r|done].
  - destruct side; [apply agrees_encode|apply agrees_decode].
  - apply agrees_atW. unfold transform_rest, noteEncryptDrop, now. keeps_auto;
      first [apply keeps_setw|apply keeps_modify]; intros w; apply calm_same; reflexivity.
Qed.

Lemma agrees_drain_try fid : agrees (serial None) (serial None) (drain_tryP fuel fid) (drain_try fid).
Proof.
  unfold drain_tryP, drain_try.
  eapply agrees_bind; [apply agrees_atW; unfold frame_of; keeps_auto|intros frame|done]. cbv zeta.
  intros s Hs. rewrite alone_bind. unfold mbind at 1, M_bind at 1. rewrite alone_resolve, bind_getw, bind_liftr. cbn [id].
  change (id (ws (base s))) with (ws (base s)).
  destruct (resolveFormat _ _ _) as [[guess probed]|err]; [|by exists s]. rewrite bind_liftr.
  rewrite alone_bind. unfold mbind at 1, M_bind at 1. rewrite alone_read_header.
  destruct (parseHeader _) as [hdr|err]; [|by exists s]. rewrite bind_liftr. cbn [mbind result_bind].
  destruct (decode _ _) as [[e p]|err]; [|by exists s]. cbn [mbind result_bind mret result_ret]. rewrite alone_getw_id.
  destruct (_ <? _); [by exists s|].
  destruct (lookup_key _ _ _) as [k|]; [|by apply (agrees_atW None (pushToQueue fid (Some p))); [keeps_auto|]].
  revert s Hs. eapply agrees_bind; [apply agrees_atW; keeps_auto|intros win|done].
  eapply agrees_skip; [intros s Hs; unfold atA; rewrite alone_piece; by apply window_object_run|intros obj]. cbn beta.
  apply (agrees_weaken _ (serial (Some (e, p, obj)))); [intros s; apply serial_drop|].
  destruct (Replay.check win (Header.ctr hdr)); cbn [negb]; [|apply agrees_atW; keeps_auto].
  eapply agrees_bind; [apply agrees_durable_check|intros ok|done].
  destruct ok; cbn [negb]; [|apply agrees_atW; keeps_auto].
  intros s Hs. rewrite alone_getw_id, bind_getw. cbn [id]. change (id (ws (base s))) with (ws (base s)).
  destruct (isKeyInvalid _ _ _); [by apply agrees_atW; [keeps_auto|]|].
  revert s Hs. eapply agrees_bind; [by apply agrees_deliver|intros size; apply agrees_ret|done].
Qed.

Lemma agrees_drain_each pending :
  agrees (serial None) (serial None) (drain_eachP fuel pending) (drain_each pending).
Proof.
  induction pending as [|fid pending IH]; cbn [drain_eachP drain_each]; [apply agrees_ret|].
  eapply agrees_bind; [|intros _; exact IH|done].
  intros s Hs. destruct (agrees_drain_try fid s Hs) as (s1 & E & Eb & Hs1). rewrite alone_catch. unfold catch. rewrite E.
  destruct (drain_try fid (base s)) as [[[]|err] w1]; cbn [fst snd] in *; subst w1; [by exists s1|].
  apply (agrees_atW None (drain_catch err)); [keeps_auto|done].
Qed.

(** A relation that asks nothing of the worker. *)
Definition anything : relation World := fun _ _ => True.

#[export] Instance anything_frame : Frame_rel anything.
Proof. split; [split; done|done..]. Qed.

#[export] Instance wanted_pieces : Async_rel anything (same drain_wanted).
Proof. by split; try apply _. Qed.

Lemma serial_drain s :
  serial None s -> draining (ws (base s)) = false -> pendingDrain (ws (base s)) = false ->
  exists s', alone (drainPreEpochQueueP fuel) s = (Ok tt, s') /\ base s' = drain_pass (base s) /\
    serial None s' /\ drain_wanted s' = drain_wanted s.
Proof.
  intros Hs Hd Hp. destruct (drain_loop_idle 0 (base s) Hd Hp) as (_ & _ & Hp').
  unfold drainPreEpochQueueP. rewrite alone_bind. unfold mbind at 1, M_bind at 1. rewrite alone_atW.
  cbn [getw gets fst snd]. rewrite base_eta, Hd. rewrite alone_bind. unfold mbind at 1, M_bind at 1. rewrite alone_atW.
  set (w1 := (base s) <| ws ::= fun s => s <| draining := true |> |> <| ws ::= fun s => s <| preEpochQueue := [] |> |>).
  assert ((setw (fun s => s <| draining := true |>);;
           pending ← getw preEpochQueue;
           setw (fun s => s <| preEpochQueue := [] |>);; mret pending) (base s) =
          (Ok (preEpochQueue (ws (base s))), w1) :> (res (list nat) * World)) as -> by done.
  cbn [fst snd]. set (s1 := s <| base := w1 |>).
  assert (serial None s1) as Hs1 by (apply serial_base; [done|apply Hs]).
  destruct (agrees_drain_each (preEpochQueue (ws (base s))) s1 Hs1) as (s2 & E & Eb & Hs2).
  change (base s1) with w1 in E, Eb.
  assert ((drain_each (preEpochQueue (ws (base s))) w1).1 = Ok tt) as Er.
  { pose proof (returns_run _ w1 (returns_drain_each (preEpochQueue (ws (base s))))) as ->. done. }
  pose proof (alone_keeps (same drain_wanted) _ s1
    (pieces_drain_each anything _ fuel (preEpochQueue (ws (base s))))) as Hw. rewrite E in Hw.
  rewrite Er in E. rewrite alone_bind. rewrite (bind_Ok _ _ _ _ _ E). rewrite alone_bind.
  unfold mbind at 1, M_bind at 1. rewrite alone_atW. rewrite Eb. cbn [setw modify fst snd].
  set (s3 := s2 <| base := _ |>). assert (base s3 = drain_pass (base s)) as Eb3 by done.
  rewrite alone_bind. unfold mbind at 1, M_bind at 1. rewrite alone_atW. cbn [getw gets fst snd].
  rewrite base_eta, Eb3, Hp'. exists s3. split; [done|]. split; [done|]. split; [|exact Hw].
  apply serial_base; [done|]. destruct Hs2 as [Hc _ _]. rewrite Eb in Hc. exact Hc.
Qed.

End Serial.

(** A worker that nobody else uses, as an [AsyncWorld]. *)
Definition quiet (w : World (H := toy)) : AsyncWorld (H := toy) := mkAsync w ∅ ∅ ∅ ∅ ∅ 0 false.
