(* ===== verification/WorkerRace.v ===== *)
(** * WorkerRace: the worker as an event loop (src/worker.ts, src/worker-state.ts, src/worker-frame.ts)

    A [Config] is the worker's state and the calls in flight. An event starts a call (a frame that
    arrives at a pipe, a message, a wipe timer) or lets a call that waits go on ([Advance]); any
    order of events is a run. The pipes call their transform one frame at a time. *)
From S2P Require Import Prelude StateLogic Async Errors Internal Header Kid WebCrypto Toy Crypto SFrame Codec Replay.
From S2P Require Import WorkerTypes WorkerState WorkerFrame Worker WorkerEvents WorkerAsync.
From S2P Require Durable.
#[local] Open Scope Z_scope.

Section Race.
Context `{WebCrypto} (fuel : nat).

(** ** Objects that leave the worker's maps *)

(** The entry object of [epoch], which was [old], lives on as [f old] for the calls that hold it. *)
Definition orphan_entry (f : EpochEntry -> EpochEntry) (epoch : Z) (old : option EpochEntry)
    (s : AsyncWorld) : AsyncWorld :=
  s <| orphans ::= fun m => match entry_ids s !! epoch, old with
                            | Some id, Some entry => <[(epoch, id) := f entry]> m
                            | _, _ => m
                            end |>
    <| entry_ids ::= delete epoch |>.

(** [state.epochs.clear()] *)
Definition orphan_all (s : AsyncWorld) : AsyncWorld :=
  s <| orphans ::= fun m =>
         map_fold (fun epoch id m => match epochs (ws (base s)) !! epoch with
                                     | Some entry => <[(epoch, id) := entry]> m
                                     | None => m
                                     end) m (entry_ids s) |>
    <| entry_ids := ∅ |>.

Definition installA (epoch self : Z) (bundles : list (Z * PerSenderKeyBundle)) : M AsyncWorld js_error unit :=
  old ← gets (fun s => epochs (ws (base s)) !! epoch);
  onW (installEpoch epoch self bundles);;
  modify (orphan_entry id epoch old).

Definition timer_due (epoch : Z) (w : World) : bool :=
  match wipeTimers (ws w) !! epoch with Some due => due <=? clock w | None => false end.

Definition timerA (epoch : Z) : M AsyncWorld js_error unit :=
  due ← gets (fun s => timer_due epoch (base s));
  old ← gets (fun s => epochs (ws (base s)) !! epoch);
  onW (fireWipeTimer epoch);;
  if due : bool
  then modify (orphan_entry zeroize_entry epoch old);;
       modify (fun s => s <| window_ids ::= filter (fun kv => kv.1.1 <> epoch) |>)
  else mret tt.

Definition teardownA : M AsyncWorld js_error unit :=
  modify orphan_all;;
  modify (fun s => s <| window_ids := ∅ |> <| promises := ∅ |>);;
  onW (handleMessage TeardownMsg).

(** ** Events *)

Definition handleMessageP (msg : InMsg) : P AsyncWorld js_error unit :=
  match msg with
  | EpochMsg epoch self keys | RotateMsg epoch self keys =>
      atA (installA epoch self keys);;
      drainPreEpochQueueP fuel
  | SetReplayWindowMsg _ =>
      atW (handleMessage msg);;
      atA (modify (fun s => s <| window_ids := ∅ |>))
  | TeardownMsg => atA teardownA
  | _ => atW (handleMessage msg)
  end.

Definition onmessageP (msg : InMsg) : P AsyncWorld js_error unit :=
  catchP (handleMessageP msg) (fun err => atW (emit (o_error err))).

Definition arriveP (side : Side) (fid : nat) (frame : Frame) : P AsyncWorld js_error unit :=
  atW (modify (fun w => w <| frames ::= <[fid := frame]> |>));;
  transformP fuel side fid.

(** [t_pipe] is the pipe whose transform the call is. *)
Record Task := mkTask { t_pipe : option nat; t_run : Run AsyncWorld js_error unit }.
Record Config := mkConfig { shared : AsyncWorld; tasks : list Task }.

Inductive RaceEvent :=
| Arrive (pipe fid : nat) (frame : Frame)
| Advance (i : nat)
| Message (msg : InMsg)
| RtcTransform (side : option Side)
| Timer (epoch : Z)
| Tick (ms : Z).

Definition waiting {A} (x : Run AsyncWorld js_error A) : bool :=
  match x with Waiting _ _ => true | Finished _ => false end.

Definition busy (c : Config) (pipe : nat) : bool :=
  existsb (fun t => bool_decide (t_pipe t = Some pipe) && waiting (t_run t)) (tasks c).

(** The call that an event starts. A frame is a new object, and waits for the pipe to be free. *)
Definition event_call (c : Config) (ev : RaceEvent) : option (option nat * P AsyncWorld js_error unit) :=
  match ev with
  | Arrive pipe fid frame =>
      match pipes (base (shared c)) !! pipe with
      | Some side =>
          if busy c pipe || bool_decide (is_Some (frames (base (shared c)) !! fid)) then None
          else Some (Some pipe, arriveP side fid frame)
      | None => None
      end
  | Advance _ => None
  | Message msg => Some (None, onmessageP msg)
  | RtcTransform side => Some (None, atW (onrtctransform side))
  | Timer epoch => Some (None, atA (timerA epoch))
  | Tick ms => Some (None, atW (step (ev_tick ms)))
  end.

Definition spawn (pipe : option nat) (m : P AsyncWorld js_error unit) (c : Config) : Config :=
  let '(x, s) := m (shared c) in mkConfig s (tasks c ++ [mkTask pipe x]).

Definition advance (i : nat) (c : Config) : Config :=
  match tasks c !! i with
  | Some (mkTask pipe (Waiting ready k)) =>
      if ready (shared c)
      then let '(x, s) := k (shared c) in mkConfig s (<[i := mkTask pipe x]> (tasks c))
      else c
  | _ => c
  end.

(** [void drainPreEpochQueue(state)], at the end of a drain that was asked to run again. *)
Definition redrain (c : Config) : Config :=
  if drain_wanted (shared c)
  then spawn None (drainPreEpochQueueP fuel) (mkConfig ((shared c) <| drain_wanted := false |>) (tasks c))
  else c.

Definition config_step (c : Config) (ev : RaceEvent) : Config :=
  redrain (match ev with
           | Advance i => advance i c
           | _ => match event_call c ev with Some (pipe, m) => spawn pipe m c | None => c end
           end).

Definition run_race (c : Config) (evs : list RaceEvent) : Config := foldl config_step c evs.

End Race.
