(* ===== verification/WorkerInterleave.v ===== *)
(** * WorkerInterleave: the send state under every interleaving (WorkerRace)

    [firstP R1 R m]: the first piece of [m] is in [R1] and every later one keeps [R]. A call
    changes the send state in its first piece only, so the order of the rest does not matter. *)
From S2P Require Import Prelude StateLogic Async Errors Internal Header Kid WebCrypto Toy Crypto SFrame Codec Replay.
From S2P Require Import WorkerTypes WorkerState WorkerFrame Worker WorkerLogic Demo WorkerEvents WorkerSend.
From S2P Require Import WorkerAsync WorkerPieces WorkerSerial WorkerRace.
From S2P Require Durable.
#[local] Open Scope Z_scope.

Section First.
Context {S E : Type} (R1 R : relation S) `{!PreOrder R}
  (R1_trans : forall s1 s2 s3, R1 s1 s2 -> R s2 s3 -> R1 s1 s3).

Definition firstP {A} (m : P S E A) : Prop := forall s, R1 s (m s).2 /\ rest_keeps R (m s).1.

Lemma firstP_piece {A} (m : M S E A) : keeps R1 m -> firstP (piece m).
Proof. intros Hm s. specialize (Hm s). unfold piece. by destruct (m s). Qed.

Lemma firstP_bind {A B} (m : P S E A) (k : A -> P S E B) :
  firstP m -> (forall a, keepsP R (k a)) -> firstP (m ≫= k).
Proof.
  intros Hm Hk s. unfold mbind, P_bind. destruct (Hm s) as [H1 H2]. destruct (m s) as [x s1].
  destruct (rest_keeps_bind R x k s1 H2 Hk) as [H3 H4]. split; [by eapply R1_trans|done].
Qed.

Lemma firstP_attempt {F A} (m : P S E A) s :
  firstP m -> R1 s ((attemptP m : P S F _) s).2 /\ rest_keeps R ((attemptP m : P S F _) s).1.
Proof.
  intros Hm. destruct (Hm s) as [H1 H2]. unfold attemptP. destruct (m s) as [x s'].
  split; [done|by apply rest_keeps_attempt].
Qed.

Lemma firstP_catch {A} (m : P S E A) (h : E -> P S E A) :
  firstP m -> (forall e, keepsP R (h e)) -> firstP (catchP m h).
Proof.
  intros Hm Hh. unfold catchP. apply firstP_bind; [intros s; by apply firstP_attempt|].
  intros [a|e]; [by apply keepsP_ret|done].
Qed.

Lemma keepsP_firstP {A} (m : P S E A) : (forall s s', R s s' -> R1 s s') -> keepsP R m -> firstP m.
Proof. intros HR Hm s. destruct (Hm s). auto. Qed.

End First.

Section Calls.
Context `{WebCrypto} (fuel : nat).

Lemma atW_frame_of {A} fid (k : Frame -> P AsyncWorld js_error A) s :
  (atW (frame_of fid) ≫= k) s = k (default (mkFrame [] None) (frames (base s) !! fid)) s.
Proof.
  unfold mbind, P_bind, atW, piece, onW, zoom. cbn. by rewrite base_eta.
Qed.

(** ** The calls in flight *)

Definition calls_keep (R : relation AsyncWorld) (c : Config) : Prop :=
  Forall (fun t => rest_keeps R (t_run t)) (tasks c).

Lemma advance_keeps (R : relation AsyncWorld) `{!PreOrder R} i c :
  calls_keep R c -> R (shared c) (shared (advance i c)) /\ calls_keep R (advance i c).
Proof.
  intros Hc. unfold advance. destruct (tasks c !! i) as [[pipe [r|ready k]]|] eqn:Ei; [by split|idtac|by split].
  destruct (ready (shared c)); [|by split]. pose proof (Forall_lookup_1 _ _ _ _ Hc Ei) as Hk. cbn in Hk.
  destruct (Hk (shared c)) as [H1 H2]. destruct (k (shared c)) as [x s]. split; [exact H1|].
  unfold calls_keep. cbn. by apply Forall_insert.
Qed.

Lemma spawn_keeps (R1 R : relation AsyncWorld) pipe m c :
  firstP R1 R m -> calls_keep R c ->
  R1 (shared c) (shared (spawn pipe m c)) /\ calls_keep R (spawn pipe m c).
Proof.
  intros Hm Hc. unfold spawn. destruct (Hm (shared c)) as [H1 H2]. destruct (m (shared c)) as [x s].
  split; [exact H1|]. unfold calls_keep. cbn. apply Forall_app. split; [exact Hc|]. by constructor.
Qed.

(** ** A whole drain *)

Section Drain.
Context (R0 : relation World) (R : relation AsyncWorld) `{!Async_rel R0 R}
  (Hflags : forall w a b, R0 w (w <| ws ::= fun s => s <| draining := a |> <| pendingDrain := b |> |>))
  (Hqueue : forall w, R0 w (w <| ws ::= fun s => s <| preEpochQueue := [] |> |>))
  (Hwanted : forall s b, R s (s <| drain_wanted := b |>)).

Lemma pieces_drain : keepsP R (drainPreEpochQueueP fuel).
Proof.
  unfold drainPreEpochQueueP. pieces_auto; first
    [apply (pieces_drain_each R0 R)|apply keepsP_piece, keeps_modify; intros s; apply Hwanted
    |apply (pieces_atW R0 R); keeps_auto; apply keeps_setw; intros w].
  all: first [apply Hqueue|apply (Hflags w (draining (ws w)))|apply (Hflags w true (pendingDrain (ws w)))
             |apply (Hflags w false (pendingDrain (ws w)))].
Qed.

Lemma redrain_keeps c :
  calls_keep R c -> R (shared c) (shared (redrain fuel c)) /\ calls_keep R (redrain fuel c).
Proof.
  intros Hc. unfold redrain. destruct (drain_wanted (shared c)); [|by split].
  destruct (spawn_keeps R R None (drainPreEpochQueueP fuel)
    (mkConfig ((shared c) <| drain_wanted := false |>) (tasks c)) pieces_drain Hc) as [H1 H2].
  split; [|exact H2]. etransitivity; [apply Hwanted|exact H1].
Qed.

End Drain.

(** ** The send state *)

Definition race_send (s : AsyncWorld) : Z * Z := send_state (base s).
Definition race_le : relation AsyncWorld := fun s s' => send_le (base s) (base s').

#[export] Instance send_pieces : Async_rel (same send_state) (same race_send).
Proof.
  split; try apply _; try done. intros fid p. apply rr_push.
Qed.

Lemma race_le_trans s1 s2 s3 : race_le s1 s2 -> same race_send s2 s3 -> race_le s1 s3.
Proof. unfold race_le, send_le, same, race_send. by intros ? ->. Qed.

Lemma race_same_le s s' : same race_send s s' -> race_le s s'.
Proof. unfold race_le, same, race_send. apply same_send_le. Qed.

Lemma drain_send : keepsP (same race_send) (drainPreEpochQueueP fuel).
Proof. apply (pieces_drain (same send_state)); try apply _; done. Qed.

(** What the first piece of an encode does to the send state. *)
Definition takes_ctr : relation AsyncWorld := fun s s' =>
  race_send s' = match send_key (ws (base s)) with
                 | Some _ => (currentEpoch (ws (base s)), ws_ctr (ws (base s)) + 1)
                 | None => race_send s
                 end.

Lemma takes_ctr_lt s s' key : send_key (ws (base s)) = Some key -> takes_ctr s s' -> lex_lt (race_send s) (race_send s').
Proof. unfold takes_ctr. intros -> ->. right. unfold race_send, send_state. cbn. lia. Qed.

Lemma takes_ctr_le s s' : takes_ctr s s' -> race_le s s'.
Proof.
  destruct (send_key (ws (base s))) as [key|] eqn:Hk; [by intros Ht%(takes_ctr_lt _ _ key)%lex_lt_le|].
  unfold takes_ctr. rewrite Hk. by apply race_same_le.
Qed.

Lemma encode_start_send fid kind : keeps takes_ctr (onW (encode_start fid kind)).
Proof.
  intros s. unfold onW, zoom, takes_ctr, race_send, send_key. unfold encode_start. rewrite bind_getw.
  change (id (ws (base s))) with (ws (base s)).
  destruct (epochs (ws (base s)) !! currentEpoch (ws (base s))) as [entry|]; [|done]. cbn [mbind option_bind].
  destruct (ent_keys entry !! ent_selfPeerIndex entry) as [key|]; [|done]. cbv zeta.
  rewrite bind_setw. set (w1 := (base s) <| ws ::= _ |>).
  change (currentEpoch (ws (base s)), ws_ctr (ws (base s)) + 1) with (send_state w1).
  match goal with |- context [(?m ≫= ?k) w1] =>
    assert (keeps (same send_state) (m ≫= k)) as Hk by keeps_bookkeeping; specialize (Hk w1);
    destruct ((m ≫= k) w1) as [r w2] end.
  exact Hk.
Qed.

Lemma encode_send fid kind : firstP takes_ctr (same race_send) (encodeFrameP fid kind).
Proof.
  unfold encodeFrameP. apply firstP_bind; [apply _| |apply firstP_piece, encode_start_send|].
  - unfold takes_ctr, same. by intros s1 s2 s3 -> ->.
  - intros [[key pt] sealing]. pieces_auto; [apply (pieces_fail (same send_state) (same race_send))|].
    apply (pieces_atW (same send_state) (same race_send)). unfold encode_finish. keeps_bookkeeping.
Qed.

Lemma transform_rest_pieces side fid r : keepsP (same race_send) (atW (transform_rest side fid r)).
Proof. apply (pieces_atW (same send_state) (same race_send)), transform_rest_send. Qed.

Lemma transform_encode_send fid : firstP takes_ctr (same race_send) (transformP fuel side_encode fid).
Proof.
  intros s. unfold transformP. rewrite atW_frame_of. revert s.
  apply (firstP_bind takes_ctr (same race_send)); [unfold takes_ctr, same; by intros s1 s2 s3 -> ->| |].
  - intros s. apply firstP_attempt, encode_send.
  - intros r. apply transform_rest_pieces.
Qed.

Lemma transform_decode_send fid : keepsP (same race_send) (transformP fuel side_decode fid).
Proof.
  unfold transformP. pieces_auto; [apply (pieces_frame_of (same send_state) (same race_send))| |apply transform_rest_pieces].
  apply (pieces_decode (same send_state) (same race_send)).
Qed.

(** ** Events *)

Definition no_race_teardown (ev : RaceEvent) : Prop := ev <> Message TeardownMsg.

Lemma le_piece {A} (m : W A) : keeps send_le m -> firstP race_le (same race_send) (atW m).
Proof.
  intros Hm. apply firstP_piece. intros s. specialize (Hm (base s)). unfold onW, zoom. by destruct (m (base s)).
Qed.

Lemma same_piece {A} (m : M AsyncWorld js_error A) :
  keeps (same race_send) m -> firstP race_le (same race_send) (atA m).
Proof. intros Hm. apply (keepsP_firstP _ _ _ race_same_le), keepsP_piece, Hm. Qed.

Lemma onW_send {A} (m : W A) : keeps (same send_state) m -> keeps (same race_send) (onW m).
Proof. apply (keeps_onW (same send_state) (same race_send)). Qed.

Lemma install_le e self b : firstP race_le (same race_send) (atA (installA e self b)).
Proof.
  apply firstP_piece. unfold installA. intros s. unfold mbind, M_bind, gets, modify, onW, zoom.
  pose proof (installEpoch_send_le e self b (base s)) as Hi. cbn. by destruct (installEpoch e self b (base s)) as [[[]|err] w].
Qed.

Lemma message_le msg : msg <> TeardownMsg -> firstP race_le (same race_send) (onmessageP fuel msg).
Proof.
  intros Hmsg. unfold onmessageP. apply (firstP_catch _ _ race_le_trans).
  2: { intros err. apply (pieces_atW (same send_state) (same race_send)), keeps_emit, _. }
  destruct msg; try done; cbn [handleMessageP];
    try (apply le_piece, handleMessage_send_le; done).
  - apply (firstP_bind _ _ race_le_trans); [apply install_le|intros _; apply drain_send].
  - apply (firstP_bind _ _ race_le_trans); [apply install_le|intros _; apply drain_send].
  - apply (firstP_bind _ _ race_le_trans); [apply le_piece, handleMessage_send_le; done|intros _].
    apply keepsP_piece, keeps_modify. by intros s.
Qed.

Lemma timer_send epoch : keeps (same race_send) (timerA epoch).
Proof.
  unfold timerA. keeps_auto; first [apply onW_send|apply keeps_modify; by intros s].
  unfold fireWipeTimer, now. keeps_auto. apply wipeEpoch_send.
Qed.

Lemma arrive_send side fid frame :
  firstP (if decide (side = side_encode) then takes_ctr else same race_send) (same race_send)
    (arriveP fuel side fid frame).
Proof.
  intros s. unfold arriveP, mbind, P_bind, atW, piece, onW, zoom. cbn [modify fst snd run_bind].
  set (s1 := s <| base := _ |>). destruct side; cbn.
  - destruct (transform_encode_send fid s1) as [H1 H2]. by split.
  - destruct (transform_decode_send fid s1) as [H1 H2]. by split.
Qed.

Lemma redrain_send c : calls_keep (same race_send) c ->
  race_send (shared (redrain fuel c)) = race_send (shared c) /\ calls_keep (same race_send) (redrain fuel c).
Proof. apply (redrain_keeps (same send_state) (same race_send)); done. Qed.

Lemma spawn_le pipe m c :
  firstP race_le (same race_send) m -> calls_keep (same race_send) c ->
  race_le (shared c) (shared (redrain fuel (spawn pipe m c))) /\
  calls_keep (same race_send) (redrain fuel (spawn pipe m c)).
Proof.
  intros Hm Hc. destruct (spawn_keeps _ _ pipe m c Hm Hc) as [H1 H2]. destruct (redrain_send _ H2) as [H3 H4].
  split; [|exact H4]. by eapply race_le_trans.
Qed.

(** An event never takes the send state back. *)
Lemma race_step_send c ev :
  no_race_teardown ev -> calls_keep (same race_send) c ->
  calls_keep (same race_send) (config_step fuel c ev) /\ race_le (shared c) (shared (config_step fuel c ev)).
Proof.
  intros Hev Hc. assert (forall m, firstP race_le (same race_send) m -> forall pipe,
    calls_keep (same race_send) (redrain fuel (spawn pipe m c)) /\
    race_le (shared c) (shared (redrain fuel (spawn pipe m c)))) as Hspawn.
  { intros m Hm pipe. destruct (spawn_le pipe m c Hm Hc). by split. }
  assert (calls_keep (same race_send) (redrain fuel c) /\ race_le (shared c) (shared (redrain fuel c))) as Hnone.
  { destruct (redrain_send c Hc) as [H1 H2]. split; [exact H2|by apply race_same_le]. }
  destruct ev as [pipe fid frame|i|msg|side|epoch|ms]; unfold config_step; cbn [event_call].
  - destruct (pipes (base (shared c)) !! pipe) as [side|]; [|exact Hnone]. destruct (_ || _); [exact Hnone|].
    apply Hspawn. intros s. destruct (arrive_send side fid frame s) as [H1 H2]. split; [|exact H2].
    case_decide; [by apply takes_ctr_le|by apply race_same_le].
  - destruct (advance_keeps (same race_send) i c Hc) as [H1 H2]. destruct (redrain_send _ H2) as [H3 H4].
    split; [exact H4|]. apply race_same_le. unfold same in *. congruence.
  - apply Hspawn, message_le. by intros ->.
  - apply Hspawn, le_piece. intros w. by apply (step_send w (ev_rtctransform side)).
  - apply Hspawn, same_piece, timer_send.
  - apply Hspawn, le_piece. intros w. by apply (step_send w (ev_tick ms)).
Qed.

End Calls.
