(* ===== verification/WorkerGuard.v ===== *)
(** * WorkerGuard: the re-entrancy guard of the drain under every interleaving (WorkerRace)

    [draining] is set by the one drain that runs. [joins m]: a call [m] respects that protocol: while
    a drain runs it leaves the guard alone, otherwise it may become the drain that runs. *)
From S2P Require Import Prelude StateLogic Async Errors Internal Header Kid WebCrypto Toy Crypto SFrame Codec Replay.
From S2P Require Import WorkerTypes WorkerState WorkerFrame Worker WorkerLogic Demo WorkerEvents.
From S2P Require Import WorkerAsync WorkerPieces WorkerSerial WorkerRace WorkerInterleave.
From S2P Require Durable.
#[local] Open Scope Z_scope.

Section Guard.
Context `{WebCrypto} (fuel : nat).

Definition drain_flags (w : World) : bool * bool := (draining (ws w), pendingDrain (ws w)).
Definition guard_of (s : AsyncWorld) : bool * bool * bool := (drain_flags (base s), drain_wanted s).

(** Leaves the guard alone. *)
Definition guard_same : relation AsyncWorld := same guard_of.

#[export] Instance drain_flags_frame : Frame_rel (same drain_flags).
Proof. split; [apply _|reflexivity..]. Qed.

#[export] Instance guard_pieces : Async_rel (same drain_flags) guard_same.
Proof.
  split; try apply _; try done.
  - intros fid p. apply pushToQueue_keeps; [apply _|]. done.
  - intros s w Hw. unfold guard_same, same, guard_of in *. by rewrite <- Hw.
Qed.

(** A drain runs, and nobody has been asked to run another. *)
Definition running (s : AsyncWorld) : Prop := draining (ws (base s)) = true /\ drain_wanted s = false.
Definition at_rest (s : AsyncWorld) : Prop := drain_flags (base s) = (false, false).

Lemma running_same s s' : guard_same s s' -> running s -> running s'.
Proof. unfold guard_same, same, guard_of, drain_flags, running. intros [= E1 _ E3]. by rewrite E1, E3. Qed.

(** What is left of a call that does not drain, and of the drain that runs: it ends at rest. *)
Definition idle (x : Run AsyncWorld js_error unit) : Prop := rest_keeps guard_same x.
Definition drains (x : Run AsyncWorld js_error unit) : Prop :=
  waiting x = true /\ forall s, running s -> run_post running (fun _ => at_rest) x s.

(** How a call that starts when [drain_wanted] is unset may leave the guard. *)
Definition joined (x : Run AsyncWorld js_error unit) (s : AsyncWorld) : Prop :=
  drain_wanted s = false /\
  (at_rest s /\ idle x \/ draining (ws (base s)) = true /\ drains x).

Definition joins (m : P AsyncWorld js_error unit) : Prop := forall s, drain_wanted s = false ->
  (running s -> running (m s).2 /\ idle (m s).1) /\ (at_rest s -> joined (m s).1 (m s).2).

Lemma keeps_joins m : keepsP guard_same m -> joins m.
Proof.
  intros Hm s Hw. destruct (Hm s) as [H1 H2]. split.
  - intros Hr. split; [by eapply running_same|exact H2].
  - intros Hr. unfold guard_same, same, guard_of in H1. injection H1 as E1 E2. split; [congruence|]. left.
    split; [|exact H2]. unfold at_rest, drain_flags in *. congruence.
Qed.

(** ** The drain *)

Lemma hoare_drain_each pending :
  hoare running running (fun r s => is_ok r = true /\ running s) (drain_eachP fuel pending).
Proof.
  induction pending as [|fid pending IH]; cbn [drain_eachP]; [by apply hoare_ret|].
  apply (hoare_bind _ _ (fun _ => running)); [|intros _; exact IH]. apply hoare_catch.
  eapply hoare_weaken; [done| |apply (hoare_keeps running guard_same); [apply running_same|]].
  2: { apply (pieces_drain_try (same drain_flags) guard_same). }
  intros [a|err] s Hs; [exact Hs|]. unfold atW, piece, onW, zoom. cbn.
  rewrite (returns_run _ (base s) (returns_drain_catch err)). cbn. eapply running_same, Hs.
  apply (ar_base (R0 := same drain_flags)). apply keeps_drain_catch, _.
Qed.

(** After the loop. *)
Definition drain_finally : P AsyncWorld js_error unit :=
  atW (setw (fun s => s <| draining := false |>));;
  again ← atW (getw pendingDrain);
  if again : bool then
    atW (setw (fun s => s <| pendingDrain := false |>));;
    atA (modify (fun s => s <| drain_wanted := true |>))
  else mret tt.

Definition drain_opens (s : AsyncWorld) : AsyncWorld :=
  s <| base := (base s) <| ws ::= fun s => s <| draining := true |> |>
                        <| ws ::= fun s => s <| preEpochQueue := [] |> |> |>.

Lemma drain_run s :
  drainPreEpochQueueP fuel s =
    if draining (ws (base s)) then (Finished (Ok tt), s <| base := (base s) <| ws ::= fun s => s <| pendingDrain := true |> |> |>)
    else (drain_eachP fuel (preEpochQueue (ws (base s))) ≫= fun _ => drain_finally) (drain_opens s).
Proof.
  unfold drainPreEpochQueueP. unfold mbind at 1, P_bind, atW, piece, onW, zoom. cbn.
  destruct (draining (ws (base s))) eqn:Ed; cbn; by destruct s.
Qed.

Lemma drain_finally_run s :
  drain_finally s =
    (Finished (Ok tt),
     if pendingDrain (ws (base s))
     then s <| base := (base s) <| ws ::= fun s => s <| draining := false |> |>
                                <| ws ::= fun s => s <| pendingDrain := false |> |> |> <| drain_wanted := true |>
     else s <| base := (base s) <| ws ::= fun s => s <| draining := false |> |> |>).
Proof.
  unfold drain_finally, mbind, P_bind, atW, piece, onW, zoom. cbn.
  destruct (pendingDrain (ws (base s))); by destruct s.
Qed.

Lemma drain_finally_rest s : at_rest (drain_finally s).2.
Proof. rewrite drain_finally_run. unfold at_rest, drain_flags. cbn. destruct (pendingDrain _) eqn:E; cbn; congruence. Qed.

Lemma drain_finally_hoare : hoare running running (fun _ => at_rest) drain_finally.
Proof.
  intros s _. pose proof (drain_finally_rest s) as Hr. rewrite drain_finally_run in Hr |- *. exact Hr.
Qed.

Lemma drain_joins : joins (drainPreEpochQueueP fuel).
Proof.
  intros s Hw. rewrite drain_run. split.
  - intros [Hd _]. rewrite Hd. by split.
  - intros Hr. injection Hr as Hd Hp. rewrite Hd. set (s0 := drain_opens s).
    assert (running s0) as Hs0 by done. set (pending := preEpochQueue _).
    pose proof (hoare_bind running running (fun _ => running) (fun _ => at_rest)
      (drain_eachP fuel pending) (fun _ => drain_finally)) as Hall.
    assert (run_post running (fun _ => at_rest) ((drain_eachP fuel pending ≫= fun _ => drain_finally) s0).1
      ((drain_eachP fuel pending ≫= fun _ => drain_finally) s0).2) as Hpost.
    { apply Hall; [|intros _; apply drain_finally_hoare|exact Hs0].
      eapply hoare_weaken; [done| |apply hoare_drain_each]. intros [a|err] s1; [by intros [_ ?]|by intros [? _]]. }
    clear Hall. pose proof (pieces_drain_each (same drain_flags) guard_same fuel pending s0) as [Hsame _].
    pose proof (hoare_drain_each pending s0 Hs0) as Hok.
    unfold mbind, P_bind in Hpost |- *. destruct (drain_eachP fuel pending s0) as [x s1]. cbn [fst snd] in *.
    destruct x as [[a|err]|ready c].
    + cbn [run_bind] in *. rewrite drain_finally_run in Hpost |- *. cbn [fst snd] in *.
      unfold guard_same, same, guard_of, drain_flags in Hsame. injection Hsame as E1 E2 E3.
      change (pendingDrain (ws (base s0))) with (pendingDrain (ws (base s))) in E2. rewrite Hp in E2. rewrite E2 in *.
      split; [cbn; by rewrite E3|]. left. by split.
    + by destruct Hok.
    + cbn [run_bind fst snd run_post] in *. destruct Hpost as [[Hd1 Hw1] Hc]. split; [exact Hw1|]. right.
      split; [exact Hd1|]. split; [done|]. intros s2 Hs2. split; [exact Hs2|exact Hc].
Qed.

(** ** Calls that drain at their end *)

Lemma joins_after (m : M AsyncWorld js_error unit) (k : P AsyncWorld js_error unit) :
  keeps guard_same m -> joins k -> joins (atA m;; k).
Proof.
  intros Hm Hk s Hw. pose proof (Hm s) as Hs. unfold mbind, P_bind, atA, piece.
  destruct (m s) as [[[]|err] s1] eqn:E; cbn [run_bind fst snd] in *.
  - pose proof Hs as Hs'. unfold guard_same, same, guard_of in Hs'. injection Hs' as E1 E2 E3.
    destruct (Hk s1) as [H1 H2]; [congruence|]. split; [intros Hr; apply H1; by eapply running_same|].
    intros Hr. apply H2. unfold at_rest, drain_flags in *. congruence.
  - apply (keeps_joins (piece m)) in Hw as [H1 H2]; [|by apply keepsP_piece]. unfold piece in H1, H2.
    rewrite E in H1, H2. by split.
Qed.

Lemma joins_catch (m : P AsyncWorld js_error unit) (h : js_error -> P AsyncWorld js_error unit) :
  (forall e, exists g, (forall s, h e s = (Finished (Ok tt), g s)) /\ (forall s, guard_same s (g s))) ->
  joins m -> joins (catchP m h).
Proof.
  intros Hh Hm s Hw. destruct (Hm s Hw) as [H1 H2]. clear Hm.
  assert (forall e, keepsP guard_same (h e)) as Hhk.
  { intros e s1. destruct (Hh e) as (g & Eg & Hg). rewrite Eg. split; [apply Hg|exact I]. }
  assert (forall e, hoare running at_rest (fun _ => at_rest) (h e)) as Hhr.
  { intros e s1 Hs1. destruct (Hh e) as (g & Eg & Hg). rewrite Eg. cbn. specialize (Hg s1).
    unfold guard_same, same, guard_of in Hg. injection Hg as E1 E2. unfold at_rest, drain_flags in *. congruence. }
  unfold catchP, mbind, P_bind, attemptP. destruct (m s) as [x s1]. cbn [fst snd] in *.
  set (k := fun r : result js_error unit => match r with Ok a => mret a | Throw e => h e end).
  assert (forall r, keepsP guard_same (k r)) as Hk by (intros [[]|e]; [by apply keepsP_ret; apply _|apply Hhk]).
  assert (forall s, guard_same s (run_bind (run_attempt x) k s).2 \/ True) as _ by auto.
  assert (idle x -> guard_same s1 (run_bind (run_attempt x) k s1).2 /\ idle (run_bind (run_attempt x) k s1).1) as Hidle.
  { intros Hx. apply rest_keeps_bind; [apply _|by apply rest_keeps_attempt|exact Hk]. }
  split.
  - intros Hr. destruct (H1 Hr) as [Hr1 Hx]. destruct (Hidle Hx) as [Hs2 Hx2]. split; [by eapply running_same|exact Hx2].
  - intros Hr. destruct (H2 Hr) as [Hw1 [[Hr1 Hx]|[Hd1 [Hwx Hx]]]].
    + destruct (Hidle Hx) as [Hs2 Hx2]. unfold guard_same, same, guard_of in Hs2. injection Hs2 as E1 E2 E3.
      split; [congruence|]. left. split; [unfold at_rest, drain_flags in *; congruence|exact Hx2].
    + destruct x as [r|ready c]; [done|]. cbn [run_attempt run_bind fst snd]. split; [exact Hw1|]. right.
      split; [exact Hd1|]. split; [done|]. intros s2 Hs2.
      apply (run_post_bind running (fun r s => at_rest s) (fun _ => at_rest) (run_attempt (Waiting ready c)) k s2).
      * eapply run_post_weaken; [|by apply run_post_attempt, Hx]. by intros [r|e] s3.
      * intros [[]|e]; [by apply hoare_ret|apply Hhr].
Qed.

(** ** The calls of the worker *)

Lemma drain_flags_onW {A} (m : W A) : keeps (same drain_flags) m -> keeps guard_same (onW m).
Proof. apply (keeps_onW (same drain_flags) guard_same). Qed.

Lemma drain_flags_atW {A} (m : W A) : keeps (same drain_flags) m -> keepsP guard_same (atW m).
Proof. intros Hm. by apply keepsP_piece, drain_flags_onW. Qed.

Lemma encode_guard fid kind : keepsP guard_same (encodeFrameP fid kind).
Proof.
  unfold encodeFrameP. pieces_auto.
  - apply drain_flags_atW. unfold encode_start. keeps_bookkeeping.
  - apply (pieces_fail (same drain_flags) guard_same).
  - apply drain_flags_atW. unfold encode_finish. keeps_bookkeeping.
Qed.

Lemma transform_guard side fid : keepsP guard_same (transformP fuel side fid).
Proof.
  unfold transformP. pieces_auto.
  - apply (pieces_frame_of (same drain_flags) guard_same).
  - apply encode_guard.
  - apply (pieces_decode (same drain_flags) guard_same).
  - apply drain_flags_atW. unfold transform_rest, noteEncryptDrop. keeps_bookkeeping.
Qed.

Lemma install_guard e self b : keeps guard_same (installA e self b).
Proof.
  unfold installA. keeps_auto; first [apply drain_flags_onW|apply keeps_modify; by intros s].
  unfold installEpoch. keeps_bookkeeping.
Qed.

Lemma timer_guard epoch : keeps guard_same (timerA epoch).
Proof.
  unfold timerA. keeps_auto; first [apply drain_flags_onW|apply keeps_modify; by intros s].
  unfold fireWipeTimer, wipeEpoch. keeps_bookkeeping.
Qed.

Lemma teardown_guard : keeps guard_same teardownA.
Proof. unfold teardownA. keeps_auto; first [apply drain_flags_onW|apply keeps_modify; by intros s]. unfold handleMessage, teardown. keeps_bookkeeping. Qed.

Lemma message_joins msg : joins (onmessageP fuel msg).
Proof.
  unfold onmessageP. apply joins_catch.
  { intros err. exists (fun s => (onW (emit (o_error err)) s).2). split; [done|].
    intros s. apply drain_flags_onW, keeps_emit, _. }
  destruct msg; cbn [handleMessageP].
  2-3: apply joins_after; [apply install_guard|apply drain_joins].
  all: apply keeps_joins.
  all: pieces_auto; try (apply keepsP_piece, teardown_guard); try (apply keepsP_piece, keeps_modify; by intros s).
  all: apply drain_flags_atW; unfold handleMessage; keeps_bookkeeping.
Qed.

(** ** Configurations *)

(** The call [i] is the drain that runs, and every other call leaves the guard alone. *)
Definition drained_by (c : Config) (i : nat) : Prop :=
  (exists t, tasks c !! i = Some t /\ drains (t_run t)) /\
  forall j t, j <> i -> tasks c !! j = Some t -> idle (t_run t).

Definition guarded_calls (c : Config) : Prop :=
  (at_rest (shared c) /\ calls_keep guard_same c) \/
  (running (shared c) /\ exists i, drained_by c i).

Lemma advance_guarded i c :
  drain_wanted (shared c) = false -> guarded_calls c -> guarded_calls (advance i c).
Proof.
  intros Hw [[Hr Hc]|[Hr [o [(t & Ho & Hdr) Hothers]]]].
  - destruct (advance_keeps guard_same i c Hc) as [H1 H2]. left. split; [|exact H2].
    unfold guard_same, same, guard_of in H1. injection H1 as E1 E2. unfold at_rest, drain_flags in *. congruence.
  - unfold advance. destruct (tasks c !! i) as [[pipe [r|ready k]]|] eqn:Ei;
      [right; split; [exact Hr|]; exists o; by split; [exists t|]|idtac|right; split; [exact Hr|]; exists o; by split; [exists t|]].
    destruct (ready (shared c)) eqn:Eready; [|right; split; [exact Hr|]; exists o; by split; [exists t|]].
    destruct (decide (i = o)) as [->|Hne].
    + rewrite Ei in Ho. injection Ho as <-. destruct Hdr as [_ Hdr]. specialize (Hdr (shared c) Hr).
      cbn in Hdr. destruct Hdr as [_ Hk]. specialize (Hk (shared c) Eready Hr).
      destruct (k (shared c)) as [x s]. cbn [fst snd] in Hk. destruct x as [r|ready' k'].
      * left. split; [exact Hk|]. apply Forall_forall. intros t Ht. apply list_elem_of_lookup in Ht as [j Hj].
        cbn in Hj. destruct (decide (j = o)) as [->|Hjo].
        -- rewrite list_lookup_insert_eq in Hj by (by eapply lookup_lt_Some). by injection Hj as <-.
        -- rewrite list_lookup_insert_ne in Hj by done. by apply (Hothers j).
      * right. destruct Hk as [Hs Hk]. split; [exact Hs|]. exists o. split.
        -- eexists. split; [apply list_lookup_insert_eq; by eapply lookup_lt_Some|]. split; [done|].
           intros s2 Hs2. by split.
        -- intros j t' Hjo Hj. cbn in Hj. rewrite list_lookup_insert_ne in Hj by done. by apply (Hothers j).
    + pose proof (Hothers i _ Hne Ei) as Hi. destruct (Hi (shared c)) as [H1 H2].
      destruct (k (shared c)) as [x s]. right. split; [by eapply running_same|]. exists o. split.
      * exists t. split; [|exact Hdr]. cbn. by rewrite list_lookup_insert_ne.
      * intros j t' Hjo Hj. cbn in Hj. destruct (decide (j = i)) as [->|Hji].
        -- rewrite list_lookup_insert_eq in Hj by (by eapply lookup_lt_Some). by injection Hj as <-.
        -- rewrite list_lookup_insert_ne in Hj by done. by apply (Hothers j).
Qed.

Lemma spawn_guarded pipe m c :
  joins m -> drain_wanted (shared c) = false -> guarded_calls c ->
  guarded_calls (spawn pipe m c) /\ drain_wanted (shared (spawn pipe m c)) = false.
Proof.
  intros Hm Hw Hc. unfold spawn. destruct (Hm (shared c) Hw) as [H1 H2]. destruct (m (shared c)) as [x s]. cbn [fst snd] in *.
  destruct Hc as [[Hr Hc]|[Hr [o [(t & Ho & Hdr) Hothers]]]].
  - destruct (H2 Hr) as [Hws [[Hrs Hx]|[Hds Hx]]]; (split; [|exact Hws]).
    + left. split; [exact Hrs|]. apply Forall_app. split; [exact Hc|]. by constructor.
    + right. split; [by split|]. exists (length (tasks c)). split.
      * exists (mkTask pipe x). split; [|exact Hx]. cbn. rewrite lookup_app_r by done. by rewrite Nat.sub_diag.
      * intros j t Hj Ht. cbn in Ht. apply lookup_app_Some in Ht as [Ht|[Hge Ht]].
        -- by apply (Forall_lookup_1 _ _ _ _ Hc Ht).
        -- apply list_lookup_singleton_Some in Ht as [E _]. lia.
  - destruct (H1 Hr) as [Hrs Hx]. split; [|apply Hrs]. right. split; [exact Hrs|]. exists o. split.
    + exists t. split; [|exact Hdr]. cbn. by apply lookup_app_l_Some.
    + intros j t' Hj Ht. cbn in Ht. apply lookup_app_Some in Ht as [Ht|[Hge Ht]]; [by apply (Hothers j)|].
      apply list_lookup_singleton_Some in Ht as [_ <-]. exact Hx.
Qed.

Lemma redrain_guarded c : guarded_calls c -> guarded_calls (redrain fuel c) /\ drain_wanted (shared (redrain fuel c)) = false.
Proof.
  intros Hc. unfold redrain. destruct (drain_wanted (shared c)) eqn:Hw; [|by split].
  apply spawn_guarded; [apply drain_joins|done|]. destruct Hc as [Hc|[[_ Hr] _]]; [by left|congruence].
Qed.

Lemma config_guarded c ev :
  drain_wanted (shared c) = false -> guarded_calls c ->
  guarded_calls (config_step fuel c ev) /\ drain_wanted (shared (config_step fuel c ev)) = false.
Proof.
  intros Hw Hc. unfold config_step. apply redrain_guarded. destruct ev as [pipe fid frame|i|msg|side|epoch|ms]; cbn [event_call].
  - destruct (_ !! _) as [side|]; [|exact Hc]. destruct (_ || _); [exact Hc|]. apply spawn_guarded; [|done..].
    apply keeps_joins. unfold arriveP. pieces_auto; [|apply transform_guard].
    apply drain_flags_atW, keeps_modify. by intros w.
  - by apply advance_guarded.
  - apply spawn_guarded; [apply message_joins|done..].
  - apply spawn_guarded; [|done..]. apply keeps_joins, drain_flags_atW. unfold onrtctransform. keeps_bookkeeping.
  - apply spawn_guarded; [|done..]. apply keeps_joins, keepsP_piece, timer_guard.
  - apply spawn_guarded; [|done..]. apply keeps_joins, drain_flags_atW, keeps_modify. by intros w.
Qed.

Lemma race_guarded c evs :
  drain_wanted (shared c) = false -> guarded_calls c ->
  guarded_calls (run_race fuel c evs) /\ drain_wanted (shared (run_race fuel c evs)) = false.
Proof.
  revert c. induction evs as [|ev evs IH]; intros c Hw Hc; [by split|]. cbn.
  destruct (config_guarded c ev Hw Hc). by apply IH.
Qed.

Definition flight (c : Config) : bool := existsb (fun t => waiting (t_run t)) (tasks c).

End Guard.

(** ** Properties *)

(** C10. The guard of the drain, under every interleaving, teardowns included: while [draining] is set
    there is one call in flight that is the drain, from whatever state it goes on it ends with both
    flags cleared, and no other call in flight touches them; a drain is only pending while one runs,
    and a re-run that was asked for has been started. So when no call is in flight, neither flag is
    set, and the next epoch message drains the queue. *)
Theorem drain_guard_released `{WebCrypto} (fuel : nat) (s : AsyncWorld) (evs : list RaceEvent)
    (Hrest : at_rest s) (Hwanted : drain_wanted s = false) :
  let c := run_race fuel (mkConfig s []) evs in
  let w := base (shared c) in
  drain_wanted (shared c) = false /\
  (pendingDrain (ws w) = true -> draining (ws w) = true) /\
  (draining (ws w) = true -> exists i, drained_by c i) /\
  (flight c = false -> draining (ws w) = false /\ pendingDrain (ws w) = false).
Proof.
  cbv zeta. destruct (race_guarded fuel (mkConfig s []) evs Hwanted) as [Hc Hw]; [left; by split; [|constructor]|].
  set (c := run_race _ _ _) in *. split; [exact Hw|]. destruct Hc as [[Hr _]|[[Hd _] [i Hi]]].
  - injection Hr as E1 E2. rewrite E1, E2. by split_and!.
  - split; [done|]. split; [intros _; by exists i|]. intros Hf. exfalso.
    destruct Hi as [(t & Ht & Hwt & _) _]. enough (flight c = true) by congruence.
    apply existsb_exists. exists t. split; [|done]. by apply list_elem_of_In, (list_elem_of_lookup_2 _ i).
Qed.

(** An epoch is installed, and rotated while its drain waits. *)
Definition demo_drains : list (RaceEvent (H := toy)) :=
  [Message (StreamsMsg side_decode None); Arrive 0 0 (mkFrame (demo_wire 0) None);
   Message (EpochMsg 1 1 (demo_bundles 1)); Message (RotateMsg 2 1 (demo_bundles 2))].

Lemma drain_guard_released_witness :
  let c := run_race 9 (mkConfig (quiet initial_world) []) demo_drains in
  draining (ws (base (shared c))) = true /\ pendingDrain (ws (base (shared c))) = true /\
  exists i, drained_by c i.
Proof.
  cbv zeta. split; [vm_compute; reflexivity|]. split; [vm_compute; reflexivity|].
  destruct (drain_guard_released 9 (quiet initial_world) demo_drains) as (_ & _ & Hd & _).
  - vm_compute. reflexivity.
  - reflexivity.
  - apply Hd. vm_compute. reflexivity.
Defined.
