(* ===== verification/WorkerIntegrity.v ===== *)
(** * WorkerIntegrity: what frames can hold, under every interleaving (WorkerRace)

    [genuine e p k]: the key [k] descends from a bundle that was installed for peer [p] in epoch [e].
    [held d]: [d] came with a frame, or was opened with such keys from bytes that were held, or was
    sealed from them. Every frame of a worker only ever holds such bytes. *)
From S2P Require Import Prelude StateLogic Async Errors Internal Header Kid WebCrypto Toy Crypto SFrame Codec Replay.
From S2P Require Import WorkerTypes WorkerState WorkerFrame Worker WorkerLogic Demo WorkerEvents WorkerRatchet WorkerSend.
From S2P Require Import WorkerGates WorkerKeys WorkerFailures.
From S2P Require Import WorkerAsync WorkerPieces WorkerSerial WorkerRace WorkerInterleave.
From S2P Require Durable.
#[local] Open Scope Z_scope.

Section Held.
Context `{WebCrypto} (codec : KidCodec) (arrived : bytes -> Prop) (installed : Z -> Z -> PerSenderKeyBundle -> Prop).

Inductive genuine (e p : Z) : SenderKey -> Prop :=
| g_bundle b kid : installed e p b -> encode codec e p = Ok kid ->
    genuine e p (mkSenderKey (mkSFrameKey kid e p (b_cryptoKey b) (b_salt b)) (b_rawKey b))
| g_next k su next : genuine e p k ->
    deriveNextSenderKey (rawKey k) (salt k) e p su codec = Ok next -> genuine e p next
| g_wiped k : genuine e p k -> genuine e p (mkSenderKey (sframe_key k) (zeroize (rawKey k))).

(** The header of the buffer names the sender. *)
Definition names (buf : bytes) (e p : Z) : Prop :=
  exists hdr, parseHeader buf = Ok hdr /\ decode codec (kid hdr) = Ok (e, p).

(** The buffer is of that sender, and opens to [pt] with a key of it. *)
Definition opens (e p : Z) (buf pt : bytes) : Prop :=
  names buf e p /\
  exists k prefix form, genuine e p k /\
    sframeDecrypt buf (fun _ => Some (sframe_key k)) (mkMeta (Some codec) prefix (Some form)) = Ok pt.

(** The frames, less their trailers ([take m]): read as empty when there is none, arrived, written by
    decodeFrame (its clear prefix, and what was opened) or written by encodeFrame. *)
Inductive held : bytes -> Prop :=
| h_absent : held []
| h_arrived d : arrived d -> held d
| h_opened d m n e p d' m' n' pt :
    held d -> names (drop n (take m d)) e p ->
    held d' -> opens e p (drop n' (take m' d')) pt ->
    held (take n (take m d) ++ pt)
| h_sealed pt n e p k ctr sealed trailer :
    held pt -> genuine e p k -> sframeEncrypt (drop n pt) (sframe_key k) ctr None aad_header = Ok sealed ->
    held (take n pt ++ sealed ++ trailer).

(** A buffer read from a frame. *)
Definition buffer (buf : bytes) : Prop := exists d m n, held d /\ buf = drop n (take m d).

(** Opened for that sender, from some buffer. *)
Definition opened (e p : Z) (pt : bytes) : Prop := exists buf, buffer buf /\ opens e p buf pt.

Definition genuine_entry (e : Z) (entry : EpochEntry) : Prop :=
  forall p k, ent_keys entry !! p = Some k -> genuine e p k.

(** ** The invariant *)

Definition keys_of (s : WorkerState) : KidCodec * gmap Z EpochEntry := (kidCodec s, epochs s).

Record keys_ok (s : WorkerState) : Prop := {
  ko_codec : kidCodec s = codec;
  ko_epochs : map_Forall genuine_entry (epochs s)
}.

Record sound (s : AsyncWorld) : Prop := mk_sound {
  so_keys : keys_ok (ws (base s));
  so_orphans : map_Forall (fun id entry => genuine_entry id.1 entry) (orphans s);
  so_outcomes : map_Forall (fun id r => forall e p pt, id.1 = failureKey e p -> r = Some (Ok pt) -> opened e p pt) (outcomes s);
  so_frames : map_Forall (fun _ f => held (frame_data f)) (frames (base s))
}.

Lemma keys_ok_lookup s e p k : keys_ok s -> lookup_key s e p = Some k -> genuine e p k.
Proof.
  intros [_ Hk] Hl. unfold lookup_key in Hl. apply bind_Some in Hl as (entry & He & Hp). by apply (Hk e entry He).
Qed.

Lemma held_frame s fid : sound s -> held (contents (base s) fid).
Proof.
  intros Hs. unfold contents. destruct (frames (base s) !! fid) as [f|] eqn:E; [|apply h_absent].
  by apply (so_frames _ Hs _ _ E).
Qed.

(** What the worker writes apart from keys and frames does not matter. *)
Definition sound_view (w : World) : (KidCodec * gmap Z EpochEntry) * gmap nat Frame := (keys_of (ws w), frames w).

#[export] Instance sound_view_frame : Frame_rel (same sound_view).
Proof. split; [apply _|reflexivity..]. Qed.

Lemma sound_same s w : same sound_view (base s) w -> sound s -> sound (s <| base := w |>).
Proof.
  unfold same, sound_view, keys_of. intros [= E1 E2 E3] [[H1 H2] H3 H4 H5].
  split; [split; cbn; [congruence|by rewrite E2]|done|done|cbn; by rewrite E3].
Qed.

(** ** Decryption *)

Lemma sframeDecrypt_named buf e p resolve prefix form pt :
  names buf e p -> sframeDecrypt buf resolve (mkMeta (Some codec) prefix (Some form)) = Ok pt ->
  exists lk key, lk_epoch lk = e /\ lk_peerIndex lk = p /\ resolve lk = Some key /\
    sframeDecrypt buf (fun _ => Some key) (mkMeta (Some codec) prefix (Some form)) = Ok pt.
Proof.
  intros (hdr & Hp & Hd). unfold sframeDecrypt. rewrite Hp. cbn [mbind result_bind].
  destruct (_ <? _)%nat; [done|]. change (default FIXED_KID_CODEC _) with codec. rewrite Hd.
  cbn [mbind result_bind]. set (lk := mkLookup _ _ _ _). destruct (resolve lk) as [key|] eqn:Er; [|done].
  intros Hok. by exists lk, key.
Qed.

Lemma step0_opens s buf e p prefix form pt :
  keys_ok s -> names buf e p ->
  sframeDecrypt buf (state_resolver s) (mkMeta (Some (kidCodec s)) prefix (Some form)) = Ok pt -> opens e p buf pt.
Proof.
  intros Hs Hn. rewrite (ko_codec _ Hs). intros (lk & key & <- & <- & Hr & Ho)%(sframeDecrypt_named _ e p); [|done].
  split; [done|]. unfold state_resolver in Hr. apply fmap_Some in Hr as (k & Hk & ->).
  exists k, prefix, form. split; [by apply (keys_ok_lookup s)|done].
Qed.

Lemma probe_opens s payload guess pr :
  keys_ok s -> probe_one s payload guess = Ok (Some pr) ->
  pr_guess pr = guess /\ opens (pr_epoch pr) (pr_peerIndex pr) (drop (prefixLen guess) payload) (pr_plaintext pr).
Proof.
  intros Hs Hpr. apply probe_one_ok in Hpr as (Eg & hdr & [H1 H2 H3 H4 (k & Hk & Ho)]). split; [done|].
  rewrite Eg in *. unfold open_with in Ho. rewrite (ko_codec _ Hs) in H2, Ho. split; [by exists hdr|].
  do 3 eexists. split; [by apply (keys_ok_lookup s)|exact Ho].
Qed.

(** ** Triples *)

Definition when_ok {A} (Q : A -> Prop) (r : res A) : Prop := forall a, r = Ok a -> Q a.

(** Every piece keeps [sound], and what the program returns is in [Q]. *)
Definition tri {A} (Q : A -> Prop) (m : P AsyncWorld js_error A) : Prop :=
  hoare sound sound (fun r s => sound s /\ when_ok Q r) m.

Lemma tri_weaken {A} (Q Q' : A -> Prop) m : (forall a, Q a -> Q' a) -> tri Q m -> tri Q' m.
Proof. intros HQ. apply hoare_weaken; [done|]. intros r s [Hs Hr]. split; [done|]. intros a E. by apply HQ, Hr. Qed.

Lemma tri_ret {A} (Q : A -> Prop) a : Q a -> tri Q (mret a).
Proof. intros HQ. apply hoare_ret. intros s Hs. split; [done|]. by intros a' [= <-]. Qed.

Lemma tri_bind {A B} (Q : A -> Prop) (Q' : B -> Prop) m (k : A -> P AsyncWorld js_error B) :
  tri Q m -> (forall a, Q a -> tri Q' (k a)) -> tri Q' (m ≫= k).
Proof.
  intros Hm Hk. eapply (hoare_bind _ _ (fun a s => sound s /\ Q a)).
  - eapply hoare_weaken; [done| |exact Hm]. intros [a|e] s [Hs Hr]; (split; [done|]); [by apply Hr|done].
  - intros a s [Hs Ha]. by apply Hk.
Qed.

Lemma tri_atA {A} (Q : A -> Prop) (m : M AsyncWorld js_error A) :
  (forall s, sound s -> sound (m s).2 /\ when_ok Q (m s).1) -> tri Q (atA m).
Proof. intros Hm. by apply hoare_piece. Qed.

Lemma tri_atW {A} (Q : A -> Prop) (m : W A) :
  (forall s, sound s -> sound (s <| base := (m (base s)).2 |>) /\ when_ok Q (m (base s)).1) -> tri Q (atW m).
Proof.
  intros Hm. apply (tri_atA _ (onW m)). intros s Hs. specialize (Hm s Hs). unfold onW, zoom. by destruct (m (base s)).
Qed.

Lemma tri_keep {A} (m : W A) : keeps (same sound_view) m -> tri (fun _ => True) (atW m).
Proof. intros Hm. apply tri_atW. intros s Hs. split; [by apply sound_same; [apply Hm|]|done]. Qed.

Lemma tri_state : tri keys_ok (atW (getw id)).
Proof. apply tri_atW. intros s Hs. cbn. rewrite base_eta. split; [done|]. intros st [= <-]. apply Hs. Qed.

Lemma tri_getw {A} (f : WorkerState -> A) : tri (fun _ => True) (atW (getw f)).
Proof. apply tri_keep, keeps_gets, _. Qed.

Lemma tri_fail {A} (Q : A -> Prop) (r : res A) : when_ok Q r -> tri Q (failP r).
Proof. intros Hr. by apply (tri_atA Q (lift r)). Qed.

Lemma tri_pause : tri (fun _ => True) pause.
Proof. by apply hoare_pause. Qed.

Lemma tri_if_pause (b : bool) : tri (fun _ => True) (if b then pause else mret tt).
Proof. destruct b; [apply tri_pause|by apply tri_ret]. Qed.

Lemma tri_settles {A} (r : res A) : tri (eq r) (settlesP r).
Proof. eapply tri_bind; [apply tri_pause|]. intros _ _. by apply tri_ret. Qed.

Lemma tri_attempt {F A} (Q : A -> Prop) (m : P AsyncWorld js_error A) :
  tri Q m -> hoare (E := F) sound sound (fun r s => sound s /\ forall r', r = Ok r' -> when_ok Q r') (attemptP m).
Proof.
  intros Hm. eapply hoare_weaken; [done| |by apply hoare_attempt]. cbn. intros [r|e] s; [|done]. intros [Hs Hr].
  split; [done|]. by intros r' [= <-].
Qed.

Lemma tri_catch {A} (Q : A -> Prop) (m : P AsyncWorld js_error A) h :
  tri Q m -> (forall e, tri Q (h e)) -> tri Q (catchP m h).
Proof.
  intros Hm Hh. unfold catchP. eapply (tri_bind (when_ok Q)); [exact (tri_attempt Q m Hm)|].
  intros [a|e] Hr; [by apply tri_ret, Hr|apply Hh].
Qed.

(** The bookkeeping of object identities. *)
Lemma sound_book s e w p n d : sound s -> sound (mkAsync (base s) e (orphans s) w p (outcomes s) n d).
Proof. by intros [H1 H2 H3 H4]. Qed.

Lemma tri_window_object e p : tri (fun _ => True) (atA (window_object e p)).
Proof.
  apply tri_atA. intros s Hs. split; [|done]. unfold window_object. rewrite bind_gets. cbn beta.
  destruct (window_ids s !! (e, p)); [exact Hs|]. by apply (sound_book s (entry_ids s)).
Qed.

Lemma tri_entry_object e : tri (fun _ => True) (atA (entry_object e)).
Proof.
  apply tri_atA. intros s Hs. split; [|done]. unfold entry_object. rewrite bind_gets. cbn beta.
  destruct (entry_ids s !! e); [exact Hs|]. by apply (sound_book s _ (window_ids s)).
Qed.

Lemma tri_fresh_id : tri (fun _ => True) (atA fresh_id).
Proof. apply tri_atA. intros s Hs. split; [|done]. by apply (sound_book s (entry_ids s) (window_ids s) (promises s)). Qed.

Lemma tri_promises f : tri (fun _ => True) (atA (modify (fun s => s <| promises ::= f |>))).
Proof. apply tri_atA. intros s Hs. split; [|done]. by apply (sound_book s (entry_ids s) (window_ids s)). Qed.

Lemma tri_promise_under key : tri (fun _ => True) (promise_under key).
Proof. by apply tri_atA. Qed.

Lemma tri_accept_object e p obj c : tri (fun _ => True) (atA (accept_object e p obj c)).
Proof.
  apply tri_atA. intros s Hs. split; [|done]. unfold accept_object. rewrite bind_gets. cbn beta.
  destruct (bool_decide _); [|exact Hs]. unfold onW, zoom. apply sound_same; [|done].
  apply (keeps_acceptReplay (same sound_view)).
Qed.

(** ** Opening *)

Lemma tri_decrypt_step0 buf e p prefix form :
  names buf e p -> tri (when_ok (opens e p buf)) (decrypt_step0P buf prefix form).
Proof.
  intros Hn. unfold decrypt_step0P. eapply tri_bind; [apply tri_state|]. intros s Hs.
  eapply tri_weaken; [|apply tri_settles]. intros r <- pt Hpt. by eapply step0_opens.
Qed.

Lemma opens_opened e p buf pt : buffer buf -> opens e p buf pt -> opened e p pt.
Proof. by exists buf. Qed.

(** What a probe that answers has established. *)
Definition probed_opens (payload : bytes) (guess : FormatGuess) (probed : option Probed) : Prop :=
  forall pr, probed = Some pr ->
    opens (pr_epoch pr) (pr_peerIndex pr) (drop (prefixLen guess) payload) (pr_plaintext pr).

Lemma tri_probe payload cs :
  tri (fun r => forall pr, r = Some pr -> probed_opens payload (pr_guess pr) r) (probeP payload cs).
Proof.
  induction cs as [|guess cs IH]; cbn [probeP]; [by apply tri_ret|].
  eapply tri_bind; [apply tri_state|]. intros s Hs.
  eapply (tri_bind (fun r => forall pr, r = Some pr -> probed_opens payload (pr_guess pr) r)); [apply tri_fail|].
  - intros r Hr pr -> pr' [= ->]. apply (probe_opens s) in Hr as [-> Ho]; [exact Ho|done].
  - intros r Hr. eapply tri_bind; [apply tri_if_pause|]. intros _ _. destruct r; [by apply tri_ret|exact IH].
Qed.

Lemma tri_resolve payload kind :
  tri (fun r => probed_opens payload r.1 r.2) (resolveFormatP payload kind).
Proof.
  unfold resolveFormatP. eapply tri_bind; [apply tri_state|]. intros s Hs. cbv zeta.
  destruct (cachedFormat _ _ _); [by apply tri_ret|]. eapply tri_bind; [apply tri_probe|].
  intros [pr|] Hr; apply tri_ret; [by apply Hr|done].
Qed.

(** The key that the retry has reached. *)
Definition reached (e p : Z) (raw sa : bytes) : Prop := exists k : SenderKey, genuine e p k /\ rawKey k = raw /\ salt k = sa.

Lemma reached_next e p raw sa su next :
  reached e p raw sa -> deriveNextSenderKey raw sa e p su codec = Ok next ->
  genuine e p next /\ reached e p (rawKey next) sa.
Proof.
  intros (k & Hk & <- & <-) Hn. assert (genuine e p next) as Hg by (by eapply g_next). split; [done|].
  exists next. split_and!; [done|done|]. by eapply deriveNext_salt.
Qed.

Lemma genuine_advanced e p next st entry :
  genuine e p next -> genuine_entry e entry -> genuine_entry e (advanced_entry p next st entry).
Proof.
  intros Hn He p' k. unfold advanced_entry. cbn. intros [[<- <-]|[_ Hk]]%lookup_insert_Some; [done|by apply He].
Qed.

Lemma tri_advance_entry e obj p next st : genuine e p next -> tri (fun _ => True) (atA (advance_entry e obj p next st)).
Proof.
  intros Hn. apply tri_atA. intros s [[H1 H2] H3 H4 H5]. split; [|done]. unfold advance_entry. rewrite bind_gets. cbn beta.
  destruct (entry_current s e obj).
  - split; [split; [exact H1|]|exact H3|exact H4|exact H5]. cbn. intros e' entry'.
    rewrite lookup_alter. case_decide as Hd; [|apply H2]. subst e'. intros (entry & He & ->)%fmap_Some.
    change (genuine_entry e (advanced_entry p next st entry)). apply genuine_advanced; [done|by apply H2].
  - split; [by split| |exact H4|exact H5]. cbn. intros id' entry'.
    rewrite lookup_alter. case_decide as Hd; [|apply H3]. subst id'. intros (entry & He & ->)%fmap_Some.
    apply genuine_advanced; [done|by apply (H3 (e, obj))].
Qed.

Lemma tri_retry_steps fuel step buf e obj p prefix form raw sa :
  names buf e p -> reached e p raw sa ->
  tri (opens e p buf) (retry_stepsP fuel step buf e obj p prefix form raw sa).
Proof.
  intros Hn. revert step raw. induction fuel as [|fuel IH]; intros step raw Hraw; cbn [retry_stepsP].
  { apply hoare_wait; [done|]. done. }
  eapply tri_bind; [apply tri_state|]. intros s Hs. destruct (_ <? _).
  { eapply tri_bind; [apply tri_keep, keeps_emitMetric, _|]. intros _ _. apply tri_atW. intros s' Hs'.
    cbn. by rewrite base_eta. }
  eapply tri_bind; [apply tri_settles|]. intros derived Hd.
  eapply (tri_bind (fun next => genuine e p next /\ reached e p (rawKey next) sa)).
  { apply tri_fail. intros next Hnext. rewrite Hnext in Hd. rewrite (ko_codec _ Hs) in Hd. by eapply reached_next. }
  intros next [Hg Hr]. eapply tri_bind; [apply tri_state|]. intros s' Hs'.
  eapply tri_bind; [apply tri_settles|]. intros [pt|err] Ho; [|by apply IH].
  eapply tri_bind; [by apply tri_advance_entry|]. intros _ _.
  eapply tri_bind; [apply tri_keep, keeps_emitMetric, _|]. intros _ _. apply tri_ret.
  rewrite (ko_codec _ Hs') in Ho. apply (sframeDecrypt_named _ e p) in Ho as (lk & key & E1 & E2 & Hk & Ho); [|done].
  rewrite E1, E2, !Z.eqb_refl in Hk. injection Hk as <-. split; [done|]. by exists next, prefix, form.
Qed.

Lemma tri_retryLoop fuel buf e obj p prefix form :
  names buf e p -> tri (opens e p buf) (retryLoopP fuel buf e obj p prefix form).
Proof.
  intros Hn. unfold retryLoopP.
  eapply (tri_bind (fun entry => forall en, entry = Some en -> genuine_entry e en)).
  { apply tri_atA. intros s Hs. split; [exact Hs|]. intros entry [= <-] en. destruct Hs as [[_ H2] H3 _ _].
    destruct (entry_current s e obj); [apply H2|apply (H3 (e, obj))]. }
  intros entry Hentry. destruct (entry ≫= _) as [k|] eqn:Ek; [|by apply tri_fail].
  apply bind_Some in Ek as (en & -> & Hk). apply tri_retry_steps; [done|]. exists k. split; [by apply (Hentry en)|done].
Qed.

Lemma tri_runRetryLoop e p buf loop :
  buffer buf -> tri (opens e p buf) loop -> tri (opens e p buf) (runRetryLoopP (failureKey e p) loop).
Proof.
  intros Hb Hl. unfold runRetryLoopP. eapply tri_bind; [apply tri_fresh_id|]. intros id _.
  eapply (tri_bind (fun _ => True)).
  { apply tri_atA. intros s [H1 H2 H3 H4]. split; [|done]. split; [exact H1|exact H2| |exact H4].
    cbn. by apply map_Forall_insert_2. }
  intros _ _. eapply (tri_bind (when_ok (opens e p buf))); [exact (tri_attempt _ _ Hl)|]. intros outcome Ho.
  eapply (tri_bind (fun _ => True)).
  { apply tri_atA. intros s [H1 H2 H3 H4]. split; [|done]. split; [exact H1|exact H2| |exact H4].
    intros id' r. cbn. intros [[<- <-]|[_ Hr]]%lookup_insert_Some; [|by apply H3].
    intros e' p' pt [= E] [= ->]. apply failureKey_inj in E as [<- <-]. eapply opens_opened; [done|by apply Ho]. }
  intros _ _. eapply tri_bind; [apply tri_pause|]. intros _ _. eapply tri_bind; [apply tri_promises|]. intros _ _.
  eapply tri_bind; [apply tri_keep, keeps_modify; reflexivity|]. intros _ _. by apply tri_fail.
Qed.

Lemma tri_await e p id : tri (when_ok (opened e p)) (await_promise (failureKey e p) id).
Proof.
  apply hoare_wait; [done|]. intros s Hr Hs. split; [exact Hs|]. intros r [= <-] pt Hpt.
  apply bool_decide_eq_true in Hr as [r Hr]. rewrite Hr in Hpt. cbn in Hpt. subst r.
  unfold settlement in Hr. destruct (outcomes s !! _) as [o|] eqn:Ho; [|done]. cbn in Hr. subst o.
  by eapply (so_outcomes _ Hs _ _ Ho).
Qed.

Lemma tri_tryDecrypt fuel buf e p prefix form :
  buffer buf -> names buf e p -> tri (opened e p) (tryDecryptWithRatchetP fuel buf e p prefix form).
Proof.
  intros Hb Hn. unfold tryDecryptWithRatchetP. eapply tri_bind; [apply tri_state|]. intros s Hs.
  destruct (lookup_key s e p); [|by apply tri_fail]. eapply tri_bind; [apply tri_entry_object|]. intros entry _.
  eapply tri_bind; [by apply tri_decrypt_step0|]. intros [pt|err] H0.
  { apply tri_ret. eapply opens_opened; [done|by apply H0]. }
  eapply tri_bind; [apply tri_getw|]. intros size _. destruct (_ =? _); [by apply tri_fail|]. cbv zeta.
  eapply tri_bind; [apply tri_promise_under|]. intros inFlight _.
  eapply (tri_bind (fun r => forall pt, r = Some pt -> opened e p pt)).
  { unfold after_in_flight. destruct inFlight as [id|]; [|by apply tri_ret].
    eapply tri_bind; [apply tri_await|]. intros [pt|err'] _; [|by apply tri_ret].
    eapply tri_bind; [by apply tri_decrypt_step0|]. intros [pt'|err'] H1; apply tri_ret; [|done].
    intros pt'' [= <-]. eapply opens_opened; [done|by apply H1]. }
  intros [pt|] Hfirst; cbn [or_elseP]; [by apply tri_ret, Hfirst|].
  eapply (tri_bind (fun r => forall pt, r = Some pt -> opened e p pt)).
  { unfold after_await. eapply tri_bind; [apply tri_promise_under|]. intros [id|] _; [|by apply tri_ret].
    destruct (bool_decide _); [by apply tri_ret|]. eapply tri_bind; [apply tri_await|].
    intros [pt|err'] H1; apply tri_ret; [|done]. intros pt' [= <-]. by apply H1. }
  intros [pt|] Hsecond; cbn [or_elseP]; [by apply tri_ret, Hsecond|].
  eapply tri_weaken; [|apply tri_runRetryLoop; [done|by apply tri_retryLoop]]. intros pt. by apply opens_opened.
Qed.

(** ** Receiving *)

(** The contents of a frame, less its trailer. *)
Definition payload_of (payload : bytes) : Prop := exists d m, held d /\ payload = take m d.

Lemma payload_buffer payload n : payload_of payload -> buffer (drop n payload).
Proof. intros (d & m & Hd & ->). by exists d, m, n. Qed.

Lemma names_inj buf e p e' p' : names buf e p -> names buf e' p' -> e = e' /\ p = p'.
Proof.
  intros (hdr & H1 & H2) (hdr' & H1' & H2'). rewrite H1 in H1'. apply Ok_inj in H1' as ->. rewrite H2 in H2'.
  apply Ok_inj in H2'. by injection H2'.
Qed.

Lemma names_fits payload n e p : names (drop n payload) e p -> (n <= length payload)%nat.
Proof.
  intros (hdr & Hp & _). destruct (Nat.le_gt_cases n (length payload)) as [|Hn]; [done|].
  rewrite drop_ge in Hp by lia. discriminate Hp.
Qed.

(** A frame as decodeFrame may leave it. *)
Lemma held_opened payload n e p pt :
  payload_of payload -> names (drop n payload) e p -> opened e p pt -> held (take n payload ++ pt).
Proof.
  intros (d & m & Hd & ->) Hn (buf & (d' & m' & n' & Hd' & ->) & Ho). by eapply h_opened.
Qed.

Lemma tri_openFrame fuel payload guess probed e p :
  payload_of payload -> names (drop (prefixLen guess) payload) e p -> probed_opens payload guess probed ->
  tri (opened e p) (openFrameP fuel payload guess probed e p).
Proof.
  intros Hpay Hn Hpr. unfold openFrameP. destruct probed as [pr|].
  - eapply tri_bind; [apply tri_keep, keeps_setFormatCache, _|]. intros _ _. apply tri_ret.
    pose proof (Hpr pr eq_refl) as Ho. destruct (names_inj _ _ _ _ _ Hn (proj1 Ho)) as [-> ->].
    eapply opens_opened; [by apply payload_buffer|exact Ho].
  - eapply tri_bind; [apply tri_tryDecrypt; [by apply payload_buffer|done]|]. intros pt Hpt.
    eapply tri_bind; [apply tri_keep, keeps_setFormatCache, _|]. intros _ _. by apply tri_ret.
Qed.

Lemma tri_durable_check e p c : tri (fun _ => True) (durable_checkP e p c).
Proof.
  unfold durable_checkP. eapply tri_bind; [apply tri_keep, keeps_durable_available, _|]. intros avail _.
  eapply tri_bind; [apply tri_keep, keeps_durable_check, _|]. intros fresh _.
  eapply tri_bind; [apply tri_if_pause|]. intros _ _. by apply tri_ret.
Qed.

Lemma tri_durable_accept e p c : tri (fun _ => True) (durable_acceptP e p c).
Proof.
  unfold durable_acceptP. eapply tri_bind; [apply tri_keep, keeps_durable_available, _|]. intros avail _.
  eapply tri_bind; [apply tri_keep, keeps_durable_accept, _|]. intros _ _. apply tri_if_pause.
Qed.

Lemma sound_write s fid d : sound s -> held d -> sound (s <| base := (set_frame_data fid d (base s)).2 |>).
Proof.
  intros [H1 H2 H3 H4] Hd. split; [exact H1|exact H2|exact H3|]. cbn. intros fid' f.
  rewrite lookup_alter. case_decide; [|apply H4]. by intros (f' & _ & ->)%fmap_Some.
Qed.

Lemma tri_write {A} fid d (m : W A) :
  held d -> keeps (same sound_view) m -> tri (fun _ => True) (atW (set_frame_data fid d;; m)).
Proof.
  intros Hd Hm. apply tri_atW. intros s Hs. split; [|done]. pose proof (sound_write s fid d Hs Hd) as Hs1.
  set (s1 := s <| base := _ |>) in Hs1. exact (sound_same s1 _ (Hm (base s1)) Hs1).
Qed.

Lemma tri_deliver fuel fid payload guess probed hdr e p obj :
  payload_of payload -> names (drop (prefixLen guess) payload) e p -> probed_opens payload guess probed ->
  tri (fun _ => True) (deliverP fuel fid payload guess probed hdr e p obj).
Proof.
  intros Hpay Hn Hpr. unfold deliverP. eapply tri_bind; [by apply tri_openFrame|]. intros pt Hpt.
  eapply tri_bind; [apply tri_accept_object|]. intros _ _. eapply tri_bind; [apply tri_durable_accept|]. intros _ _.
  eapply tri_bind; [apply tri_keep, keeps_recordSuccess, _|]. intros _ _.
  rewrite reassemble_ok by (by eapply names_fits). eapply (tri_bind held).
  { apply tri_fail. intros d [= <-]. by eapply held_opened. }
  intros d Hd. eapply tri_bind; [apply tri_write; [done|apply keeps_clearStarve, _]|]. intros _ _. by apply tri_ret.
Qed.

#[local] Hint Resolve keeps_emit keeps_emitMetric keeps_recordFailure keeps_recordSuccess
  keeps_getReplayWindow keeps_note_replay keeps_note_key_invalid keeps_clearStarve keeps_noteStarveDrop
  keeps_drain_catch keeps_decode_catch : keeps.

Lemma push_view fid p : keeps (same sound_view) (pushToQueue fid p).
Proof. apply pushToQueue_keeps; [apply _|]. reflexivity. Qed.
Hint Resolve push_view : keeps.

Ltac tri_plain := apply tri_keep; unfold refuse_stale, refuse_replay, refuse_invalid, enqueuePreEpoch; keeps_auto.

Lemma tri_gates fuel fid payload guess probed hdr e p :
  payload_of payload -> names (drop (prefixLen guess) payload) e p -> probed_opens payload guess probed ->
  tri (fun _ => True) (decode_gatesP fuel fid payload guess probed hdr e p).
Proof.
  intros Hpay Hn Hpr. unfold decode_gatesP. eapply tri_bind; [apply tri_state|]. intros s _.
  destruct (_ <? _); [tri_plain|]. destruct (_ =? _); [tri_plain|].
  eapply tri_bind; [tri_plain|]. intros win _. eapply tri_bind; [apply tri_window_object|]. intros obj _.
  destruct (negb _); [tri_plain|]. eapply tri_bind; [apply tri_durable_check|]. intros ok _.
  destruct (negb _); [tri_plain|]. eapply tri_bind; [apply tri_state|]. intros s' _.
  destruct (isKeyInvalid _ _ _); [tri_plain|]. eapply tri_bind; [by apply tri_deliver|]. intros size _. tri_plain.
Qed.

Lemma tri_guarded {A} (Q : A -> Prop) l m : tri Q m -> tri Q (guarded l m).
Proof.
  intros Hm. unfold guarded. apply tri_catch; [done|]. intros err. apply tri_atW. intros s Hs.
  assert (keeps (same sound_view) (decode_catch l err;; throw err : W A)) as Hk by keeps_auto.
  split; [by apply sound_same; [apply Hk|]|]. intros a.
  by rewrite (bind_Ok _ _ _ _ _ (returns_run _ (base s) (returns_decode_catch l err))).
Qed.

Lemma tri_read_header payload guess :
  tri (fun r => names (drop (prefixLen guess) payload) r.1.2 r.2) (atW (read_header payload guess)).
Proof.
  apply tri_atW. intros s Hs. unfold read_header. rewrite bind_getw, bind_liftr. change (id (ws (base s))) with (ws (base s)).
  destruct (parseHeader _) as [hdr|err] eqn:Ep; [|cbn; by rewrite base_eta]. rewrite bind_liftr.
  destruct (decode _ _) as [[e p]|err] eqn:Ed; [|cbn; by rewrite base_eta]. cbn. rewrite base_eta. split; [done|].
  intros r [= <-]. exists hdr. split; [done|]. by rewrite <- (ko_codec _ (so_keys _ Hs)).
Qed.

Lemma tri_frame fid : tri (fun f => held (frame_data f)) (atW (frame_of fid)).
Proof. apply tri_atW. intros s Hs. cbn. rewrite base_eta. split; [done|]. intros f [= <-]. by apply held_frame. Qed.

Lemma strip_payload trailer d payload : held d -> stripTrailer trailer d = Some payload -> payload_of payload.
Proof.
  intros Hd. unfold stripTrailer. destruct trailer as [t|].
  - destruct (ctEndsWith d t); [|done]. intros [= <-]. by do 2 eexists.
  - intros [= <-]. exists d, (length d). by rewrite firstn_all.
Qed.

Lemma tri_decode fuel fid : tri (fun _ => True) (decodeFrameP fuel fid).
Proof.
  unfold decodeFrameP. eapply tri_bind; [apply tri_frame|]. intros f Hf. eapply tri_bind; [apply tri_getw|]. intros trailer _.
  destruct (stripTrailer _ _) as [payload|] eqn:Es; [|by apply tri_ret]. apply strip_payload in Es; [|done].
  eapply tri_bind; [apply tri_guarded, tri_resolve|]. intros [guess probed] Hpr.
  eapply tri_bind; [apply tri_guarded, tri_read_header|]. intros [[hdr e] p] Hn. by apply tri_guarded, tri_gates.
Qed.

Lemma tri_drain_try fuel fid : tri (fun _ => True) (drain_tryP fuel fid).
Proof.
  unfold drain_tryP. eapply tri_bind; [apply tri_frame|]. intros f Hf. cbv zeta.
  assert (payload_of (frame_data f)) as Hpay by (exists (frame_data f), (length (frame_data f)); by rewrite firstn_all).
  eapply tri_bind; [apply tri_resolve|]. intros [guess probed] Hpr.
  eapply tri_bind; [apply tri_read_header|]. intros [[hdr e] p] Hn. eapply tri_bind; [apply tri_state|]. intros s _.
  destruct (_ <? _); [by apply tri_ret|]. destruct (lookup_key _ _ _); [|tri_plain].
  eapply tri_bind; [tri_plain|]. intros win _. eapply tri_bind; [apply tri_window_object|]. intros obj _.
  destruct (negb _); [tri_plain|]. eapply tri_bind; [apply tri_durable_check|]. intros ok _.
  destruct (negb _); [tri_plain|]. eapply tri_bind; [apply tri_state|]. intros s' _.
  destruct (isKeyInvalid _ _ _); [tri_plain|]. eapply tri_bind; [by apply tri_deliver|]. intros size _. by apply tri_ret.
Qed.

Lemma tri_drain_each fuel pending : tri (fun _ => True) (drain_eachP fuel pending).
Proof.
  induction pending as [|fid pending IH]; cbn [drain_eachP]; [by apply tri_ret|].
  eapply tri_bind; [|intros _ _; exact IH]. apply tri_catch; [apply tri_drain_try|]. intros err. tri_plain.
Qed.

Lemma tri_drain fuel : tri (fun _ => True) (drainPreEpochQueueP fuel).
Proof.
  unfold drainPreEpochQueueP. eapply tri_bind; [apply tri_getw|]. intros busy _.
  destruct busy; [apply tri_keep, keeps_modify; reflexivity|].
  eapply tri_bind; [apply tri_keep; keeps_auto; apply keeps_modify; reflexivity|]. intros pending _.
  eapply tri_bind; [apply tri_drain_each|]. intros _ _. eapply tri_bind; [apply tri_keep, keeps_modify; reflexivity|]. intros _ _.
  eapply tri_bind; [apply tri_getw|]. intros again _. destruct again; [|by apply tri_ret].
  eapply tri_bind; [apply tri_keep, keeps_modify; reflexivity|]. intros _ _.
  apply tri_atA. intros s Hs. split; [|done]. by apply (sound_book s (entry_ids s) (window_ids s) (promises s)).
Qed.

End Held.

(** ** Sending *)

Section Sealed.
Context `{WebCryptoLaws} (codec : KidCodec) (arrived : bytes -> Prop) (installed : Z -> Z -> PerSenderKeyBundle -> Prop).

Notation held := (held codec arrived installed).
Notation genuine := (genuine codec installed).
Notation sound := (sound codec arrived installed).
Notation tri := (tri codec arrived installed).

(** What the await of encodeFrame settles with. *)
Lemma encode_start_wire fid kind w key pt sealing :
  (encode_start fid kind w).1 = Ok (key, pt, sealing) ->
  send_key (ws w) = Some key /\ pt = contents w fid /\
  forall wire, sealing = Ok wire -> exists n sealed,
    sframeEncrypt (drop n pt) key (ws_ctr (ws w)) None aad_header = Ok sealed /\
    wire = take n pt ++ sealed ++ trailer_bytes (ws w).
Proof.
  unfold encode_start, send_key. rewrite bind_getw. change (id (ws w)) with (ws w).
  destruct (epochs (ws w) !! currentEpoch (ws w)) as [entry|]; [|done]. cbn [mbind option_bind].
  destruct (ent_keys entry !! ent_selfPeerIndex entry) as [key'|]; [|done]. cbv zeta. rewrite bind_setw.
  set (w1 := w <| ws ::= _ |>).
  rewrite (bind_Ok (frame_of fid) _ w1 (default (mkFrame [] None) (frames w !! fid)) w1) by done.
  fold (contents w fid). fold (clear_prefix_len (ws w) kind (contents w fid)). set (N := clear_prefix_len _ _ _).
  rewrite bind_liftr. destruct (serializeHeader _ _) as [h|err] eqn:Eh; [|done].
  pose proof (clear_prefix_length (ws w) kind (contents w fid)) as HN. fold N in HN.
  rewrite bind_liftr. remember (drop N (contents w fid)) as body eqn:Ebody.
  remember (take N (contents w fid)) as prefix eqn:Eprefix. clearbody N.
  set (tlen := match sifTrailer (ws w) with Some t => length t | None => 0%nat end).
  replace (if (0 <? N)%nat then _ else _) with
    (@Ok js_error _ (prefix ++ zeros (length h + length body + 16 + tlen))).
  2: { rewrite <- HN, <- !Nat.add_assoc. symmetry. apply wire_prefix. }
  intros [= <- <- <-]. split; [done|]. split; [done|]. rewrite <- HN, wire_sealed. intros wire Hwire.
  exists N. rewrite <- Ebody, <- Eprefix, sframeEncrypt_seal, Eh. cbn [mbind result_bind].
  destruct (seal _ _ _ _ _ _) as [ct|err]; [|done]. cbn [mbind result_bind mret result_ret] in Hwire |- *.
  unfold tlen in Hwire. rewrite wire_trailed in Hwire. injection Hwire as <-. by exists (h ++ ct).
Qed.

Lemma encode_start_view fid kind : keeps (same sound_view) (encode_start fid kind).
Proof. unfold encode_start. keeps_bookkeeping. Qed.

Lemma send_key_genuine s key : keys_ok codec installed s -> send_key s = Some key -> exists e p, genuine e p key.
Proof.
  intros [_ Hk] Hs. unfold send_key in Hs. apply bind_Some in Hs as (entry & He & Hp).
  do 2 eexists. by apply (Hk _ entry He).
Qed.

Lemma tri_encode fid kind : tri (fun _ => True) (encodeFrameP fid kind).
Proof.
  unfold encodeFrameP. eapply (tri_bind _ _ _ (fun r => forall wire, r.2 = Ok wire -> held wire)).
  - apply tri_atW. intros s Hs. split; [by apply sound_same; [apply encode_start_view|]|].
    intros [[key pt] sealing] (Hkey & -> & Hwire)%encode_start_wire wire Hw.
    destruct (Hwire wire Hw) as (n & sealed & Hseal & ->).
    destruct (send_key_genuine _ _ (so_keys _ _ _ _ Hs) Hkey) as (e & p & Hg).
    eapply h_sealed; [by apply held_frame|exact Hg|exact Hseal].
  - intros [[key pt] sealing] Hw. eapply tri_bind; [apply tri_pause|]. intros _ _.
    eapply (tri_bind _ _ _ held); [apply tri_fail; intros wire; apply Hw|]. intros wire Hwire.
    unfold encode_finish. apply tri_write; [done|]. keeps_auto; [apply keeps_emitMetric, _|].
    unfold clearEncryptStarve. keeps_auto. apply keeps_modify. reflexivity.
Qed.

Lemma tri_transform fuel side fid : tri (fun _ => True) (transformP fuel side fid).
Proof.
  unfold transformP. eapply tri_bind; [apply tri_frame|]. intros f _.
  eapply (tri_bind _ _ _ (fun _ => True)).
  - eapply hoare_weaken; [done| |apply (tri_attempt _ _ _ (fun _ => True))]; [by intros r s [? _]|].
    destruct side; [apply tri_encode|apply tri_decode].
  - intros r _. apply tri_keep. unfold transform_rest, noteEncryptDrop. keeps_bookkeeping.
Qed.

(** ** Messages and timers *)

Lemma build_keys_genuine e bundles keys keys' :
  (forall p b, (p, b) ∈ bundles -> installed e p b) ->
  (forall p k, keys !! p = Some k -> genuine e p k) ->
  build_keys codec e bundles keys = Ok keys' -> forall p k, keys' !! p = Some k -> genuine e p k.
Proof.
  revert keys. induction bundles as [|[pi b] bundles IH]; intros keys Hb Hk; cbn [build_keys]; [by intros <-%Ok_inj|].
  destruct (encode codec e pi) as [kid|] eqn:E; [|done]. cbn [mbind result_bind].
  apply IH; [intros p b' ?; apply Hb; by right|]. intros p k [[<- <-]|[_ Hp]]%lookup_insert_Some; [|by apply Hk].
  apply g_bundle; [apply Hb; by left|done].
Qed.

Lemma sound_orphan f e old s :
  (forall entry, old = Some entry -> genuine_entry codec installed e (f entry)) -> sound s -> sound (orphan_entry f e old s).
Proof.
  intros Hold [H1 H2 H3 H4]. split; [exact H1| |exact H3|exact H4]. cbn.
  destruct (entry_ids s !! e) as [id|]; [|exact H2]. destruct old as [entry|]; [|exact H2].
  apply map_Forall_insert_2; [by apply Hold|exact H2].
Qed.

Lemma tri_install e self bundles :
  (forall p b, (p, b) ∈ bundles -> installed e p b) -> tri (fun _ => True) (atA (installA e self bundles)).
Proof.
  intros Hb. apply tri_atA. intros s Hs. split; [|done]. pose proof Hs as [[Hc He] H2 H3 H4].
  unfold installA. rewrite bind_gets. cbn beta. unfold mbind at 1, M_bind at 1, onW, zoom.
  unfold installEpoch. rewrite bind_getw, bind_liftr. rewrite Hc.
  destruct (build_keys codec e bundles ∅) as [keys|err] eqn:Ek; [|by cbn; rewrite base_eta].
  rewrite bind_setw. set (w1 := (base s) <| ws ::= _ |>).
  match goal with |- context [(?m ≫= ?k) w1] => assert (keeps (same sound_view) (m ≫= k)) as Hk by keeps_bookkeeping;
    specialize (Hk w1); destruct ((m ≫= k) w1) as [r w2] end. cbn [snd] in Hk.
  assert (sound (s <| base := w2 |>)) as Hs2.
  { change (s <| base := w2 |>) with (s <| base := w1 |> <| base := w2 |>). apply sound_same; [exact Hk|].
    split; [split; [exact Hc|]|exact H2|exact H3|exact H4]. cbn. apply map_Forall_insert_2; [|exact He].
    intros p k. cbn. apply (build_keys_genuine e bundles ∅); [done|by intros ? ? ?%lookup_empty_Some|done]. }
  destruct r as [[]|err]; [|exact Hs2]. apply sound_orphan; [|exact Hs2]. intros entry Hentry. by apply (He e).
Qed.

Lemma genuine_zeroized e entry :
  genuine_entry codec installed e entry -> genuine_entry codec installed e (zeroize_entry entry).
Proof.
  intros He p k. unfold zeroize_entry. cbn. rewrite lookup_fmap. intros (k' & Hk & ->)%fmap_Some. by apply g_wiped, He.
Qed.

Lemma wipe_keys e w : (fireWipeTimer e w).2 = w \/
  keys_of (ws (fireWipeTimer e w).2) = (kidCodec (ws w), delete e (epochs (ws w))) /\
  frames (fireWipeTimer e w).2 = frames w.
Proof.
  unfold fireWipeTimer, now. rewrite bind_getw, bind_gets. cbv zeta.
  destruct (wipeTimers (ws w) !! e) as [due|]; [|by left].
  destruct (due <=? clock w); [right|by left]. unfold wipeEpoch. rewrite bind_getw, bind_setw, bind_setw.
  set (w1 := w <| ws ::= _ |> <| ws ::= _ |>).
  match goal with |- context [(?m ≫= ?k) w1] => assert (keeps (same sound_view) (m ≫= k)) as Hk end.
  { keeps_bookkeeping. }
  specialize (Hk w1). unfold same, sound_view in Hk. injection Hk as E1 E2 E3.
  unfold keys_of. rewrite E1, E2, E3. split; [|done]. cbn. f_equal. apply delete_alter_eq.
Qed.

Lemma tri_timer e : tri (fun _ => True) (atA (timerA e)).
Proof.
  apply tri_atA. intros s Hs. split; [|done]. unfold timerA. rewrite !bind_gets. cbn beta.
  unfold mbind at 1, M_bind at 1, onW, zoom.
  assert (sound (s <| base := (fireWipeTimer e (base s)).2 |>)) as Hs2.
  { destruct (wipe_keys e (base s)) as [->|[E1 E2]]; [by rewrite base_eta|]. destruct Hs as [[Hc He] H2 H3 H4].
    injection E1 as E1 E3. split; [split; cbn; [congruence|]|exact H2|exact H3|cbn; by rewrite E2].
    rewrite E3. by apply map_Forall_delete. }
  destruct (fireWipeTimer e (base s)) as [[[]|err] w2]; [|exact Hs2]. cbn [snd] in Hs2.
  destruct (timer_due e (base s)); [|exact Hs2]. rewrite bind_modify.
  match goal with |- context [orphan_entry ?f ?e ?old ?s] => assert (sound (orphan_entry f e old s)) as Ho end.
  { apply sound_orphan; [|exact Hs2]. intros entry Hentry. apply genuine_zeroized. by apply (ko_epochs _ _ _ (so_keys _ _ _ _ Hs) e). }
  destruct Ho. by split.
Qed.

Lemma orphans_all (ids : gmap Z nat) (table : gmap Z EpochEntry) (m : gmap (Z * nat) EpochEntry) :
  map_Forall (genuine_entry codec installed) table ->
  map_Forall (fun id entry => genuine_entry codec installed id.1 entry) m ->
  map_Forall (fun id entry => genuine_entry codec installed id.1 entry)
    (map_fold (fun epoch id m => match table !! epoch with
                                 | Some entry => <[(epoch, id) := entry]> m
                                 | None => m
                                 end) m ids).
Proof.
  intros Ht Hm. apply (map_fold_weak_ind (fun m' _ => map_Forall (fun id entry => genuine_entry codec installed id.1 entry) m')); [done|].
  intros e id ids' m' _ Hm'. destruct (table !! e) as [entry|] eqn:He; [|done].
  apply map_Forall_insert_2; [by apply Ht|done].
Qed.

Lemma tri_teardown : tri (fun _ => True) (atA teardownA).
Proof.
  apply tri_atA. intros s [[Hc He] H2 H3 H4]. split; [|done]. unfold teardownA. rewrite !bind_modify.
  unfold onW, zoom, handleMessage, teardown. cbn. split; [split; [exact Hc|]| |exact H3|exact H4].
  - cbn. apply map_Forall_empty.
  - cbn. by apply orphans_all.
Qed.

(** No message changes the KID format. *)
Definition race_same_format (ev : RaceEvent) : Prop :=
  match ev with Message (InitMsg _ _ _ _ _ (Some _) _ _ _ _) => False | _ => True end.

(** What an event brings. *)
Definition brings_frame (ev : RaceEvent) (d : bytes) : Prop :=
  match ev with Arrive _ _ frame => frame_data frame = d | _ => False end.

Definition brings_key (ev : RaceEvent) (e p : Z) (b : PerSenderKeyBundle) : Prop :=
  match ev with
  | Message (EpochMsg epoch _ keys) | Message (RotateMsg epoch _ keys) => epoch = e /\ (p, b) ∈ keys
  | _ => False
  end.

Lemma tri_message fuel msg :
  race_same_format (Message msg) -> (forall e p b, brings_key (Message msg) e p b -> installed e p b) ->
  tri (fun _ => True) (onmessageP fuel msg).
Proof.
  intros Hf Hb. unfold onmessageP. apply tri_catch; [|intros err; apply tri_keep, keeps_emit, _].
  destruct msg; cbn [handleMessageP].
  - apply tri_keep. destruct kidFormat; [done|]. unfold handleMessage. keeps_bookkeeping.
  - eapply tri_bind; [apply tri_install; intros p b Hin; by apply Hb|intros _ _; apply tri_drain].
  - eapply tri_bind; [apply tri_install; intros p b Hin; by apply Hb|intros _ _; apply tri_drain].
  - apply tri_keep. unfold handleMessage. keeps_bookkeeping.
  - apply tri_keep. unfold handleMessage. keeps_bookkeeping.
  - apply tri_keep. unfold handleMessage. keeps_bookkeeping.
  - apply tri_keep. unfold handleMessage. keeps_bookkeeping.
  - eapply tri_bind; [apply tri_keep; unfold handleMessage; keeps_bookkeeping|]. intros _ _.
    apply tri_atA. intros s Hs. split; [|done]. by apply (sound_book _ _ _ s (entry_ids s) _ (promises s)).
  - apply tri_keep. unfold handleMessage. keeps_bookkeeping.
  - apply tri_teardown.
Qed.

(** ** Configurations *)

Definition sound_call (x : Run AsyncWorld js_error unit) : Prop :=
  forall s, sound s -> run_post sound (fun _ => sound) x s.

Definition sound_config (c : Config) : Prop := sound (shared c) /\ Forall (fun t => sound_call (t_run t)) (tasks c).

Lemma run_post_call x s : run_post sound (fun _ => sound) x s -> sound s /\ sound_call x.
Proof.
  destruct x as [r|ready k]; [intros Hs; split; [exact Hs|]; intros s' Hs'; exact Hs'|].
  intros [Hs Hk]. split; [done|]. intros s' Hs'. by split.
Qed.

Lemma spawn_sound pipe m c : tri (fun _ => True) m -> sound_config c -> sound_config (spawn pipe m c).
Proof.
  intros Hm [Hs Hc]. unfold spawn. specialize (Hm (shared c) Hs). destruct (m (shared c)) as [x s].
  apply (run_post_weaken _ _ (fun _ => sound)) in Hm; [|by intros r s' [? _]].
  apply run_post_call in Hm as [Hs' Hx]. split; [exact Hs'|]. cbn. apply Forall_app. split; [exact Hc|]. by constructor.
Qed.

Lemma advance_sound i c : sound_config c -> sound_config (advance i c).
Proof.
  intros [Hs Hc]. unfold advance. destruct (tasks c !! i) as [[pipe [r|ready k]]|] eqn:Ei; [by split|idtac|by split].
  destruct (ready (shared c)) eqn:Er; [|by split]. pose proof (Forall_lookup_1 _ _ _ _ Hc Ei (shared c) Hs) as [_ Hk].
  specialize (Hk (shared c) Er Hs). destruct (k (shared c)) as [x s].
  apply run_post_call in Hk as [Hs' Hx]. split; [exact Hs'|]. cbn. by apply Forall_insert.
Qed.

Lemma redrain_sound fuel c : sound_config c -> sound_config (redrain fuel c).
Proof.
  intros [Hs Hc]. unfold redrain. destruct (drain_wanted (shared c)); [|by split].
  apply spawn_sound; [apply tri_drain|]. split; [|exact Hc].
  by apply (sound_book _ _ _ (shared c) (entry_ids (shared c)) (window_ids (shared c)) (promises (shared c))).
Qed.

Lemma config_sound fuel c ev :
  race_same_format ev -> (forall d, brings_frame ev d -> arrived d) ->
  (forall e p b, brings_key ev e p b -> installed e p b) ->
  sound_config c -> sound_config (config_step fuel c ev).
Proof.
  intros Hf Ha Hb Hc. unfold config_step. apply redrain_sound. destruct ev as [pipe fid frame|i|msg|side|epoch|ms]; cbn [event_call].
  - destruct (_ !! _) as [side|]; [|exact Hc]. destruct (_ || _); [exact Hc|]. apply spawn_sound; [|exact Hc].
    unfold arriveP. eapply (tri_bind _ _ _ (fun _ => True)); [|intros _ _; apply tri_transform].
    apply tri_atW. intros s [H1 H2 H3 H4]. split; [|done]. split; [exact H1|exact H2|exact H3|]. cbn.
    apply map_Forall_insert_2; [|exact H4]. by apply h_arrived, Ha.
  - by apply advance_sound.
  - apply spawn_sound; [by apply tri_message|exact Hc].
  - apply spawn_sound; [|exact Hc]. apply tri_keep. unfold onrtctransform. keeps_bookkeeping.
  - apply spawn_sound; [apply tri_timer|exact Hc].
  - apply spawn_sound; [|exact Hc]. apply tri_keep, keeps_modify. reflexivity.
Qed.

Lemma race_sound fuel c evs :
  Forall race_same_format evs -> (forall ev d, ev ∈ evs -> brings_frame ev d -> arrived d) ->
  (forall ev e p b, ev ∈ evs -> brings_key ev e p b -> installed e p b) ->
  sound_config c -> sound_config (run_race fuel c evs).
Proof.
  intros Hf. revert c. induction Hf as [|ev evs Hev Hf IH]; intros c Ha Hb Hc; [exact Hc|]. cbn. apply IH.
  - intros ev' d Hin. apply (Ha ev' d). by right.
  - intros ev' e p b Hin. apply (Hb ev' e p b). by right.
  - apply config_sound; [done|intros d; apply (Ha ev d); by left|intros e p b; apply (Hb ev e p b); by left|done].
Qed.

Lemma opens_sealed e p buf pt :
  opens codec installed e p buf pt ->
  exists k hdr body prefix form, genuine e p k /\ parseHeader buf = Ok hdr /\ decode codec (kid hdr) = Ok (e, p) /\
    buf = take (bodyOffset hdr) buf ++ body /\
    seal (sframe_key k) (take (bodyOffset hdr) buf) (Header.ctr hdr) prefix form pt = Ok body.
Proof.
  intros [(hdr & Hp & Hd) (k & prefix & form & Hk & Ho)].
  apply sframeDecrypt_inv in Ho as (hdr' & e' & p' & key & body & Hp' & _ & [= <-] & Hw & Hs).
  rewrite Hp in Hp'. apply Ok_inj in Hp' as <-. by exists k, hdr, body, prefix, form.
Qed.

End Sealed.

(** ** Properties *)

Definition frames_that_came `{WebCrypto} (evs : list RaceEvent) (d : bytes) : Prop :=
  exists ev, ev ∈ evs /\ brings_frame ev d.

Definition keys_that_came `{WebCrypto} (evs : list RaceEvent) (e p : Z) (b : PerSenderKeyBundle) : Prop :=
  exists ev, ev ∈ evs /\ brings_key ev e p b.

(** A worker that has neither keys nor frames yet. *)
Definition unused `{WebCrypto} (s : AsyncWorld) : Prop :=
  epochs (ws (base s)) = ∅ /\ frames (base s) = ∅ /\ orphans s = ∅ /\ outcomes s = ∅.

(** C4. Integrity under every interleaving: from an unused worker, whatever frames arrive, messages
    and timers come (teardowns included) and suspended calls go on, as long as the KID format stays,
    every frame object holds bytes that arrived, or a plaintext that was opened, from bytes held by
    some frame, for the very sender that this frame's header names and under a key descended from a
    bundle installed for that sender and epoch, or what encodeFrame sealed with such a key. And what
    was opened is exactly a sealing of that plaintext under that key, header and counter. *)
Theorem interleaved_frames_authentic `{WebCryptoLaws} (fuel : nat) (s : AsyncWorld) (evs : list RaceEvent)
    (Hunused : unused s) (Hformat : Forall race_same_format evs) :
  let codec := kidCodec (ws (base s)) in
  let given := keys_that_came evs in
  (forall fid f, frames (base (shared (run_race fuel (mkConfig s []) evs))) !! fid = Some f ->
     held codec (frames_that_came evs) given (frame_data f)) /\
  forall e p buf pt, opens codec given e p buf pt ->
    exists k hdr body prefix form, genuine codec given e p k /\ parseHeader buf = Ok hdr /\
      decode codec (kid hdr) = Ok (e, p) /\ buf = take (bodyOffset hdr) buf ++ body /\
      seal (sframe_key k) (take (bodyOffset hdr) buf) (Header.ctr hdr) prefix form pt = Ok body.
Proof.
  cbv zeta. split; [|intros e p buf pt; apply opens_sealed]. destruct Hunused as (E1 & E2 & E3 & E4).
  destruct (race_sound (kidCodec (ws (base s))) (frames_that_came evs) (keys_that_came evs) fuel (mkConfig s []) evs)
    as [[_ _ _ Hframes] _]; [done|intros ev d ? ?; by exists ev|intros ev e p b ? ?; by exists ev| |exact Hframes].
  split; [|constructor]. split; [split; [done|]| | |]; cbn; rewrite ?E1, ?E2, ?E3, ?E4; apply map_Forall_empty.
Qed.

Definition demo_received : list (RaceEvent (H := toy)) :=
  [Message (EpochMsg 1 1 (demo_bundles 1)); Message (StreamsMsg side_decode None);
   Arrive 0 0 (mkFrame (demo_wire 0) None); Advance 2; Advance 2].

Definition demo_unused : AsyncWorld (H := toy) := quiet initial_world.

Lemma interleaved_frames_authentic_witness :
  let c := run_race 9 (mkConfig demo_unused []) demo_received in
  data_of 0 (base (shared c)) = demo_data /\
  held (kidCodec (ws (base demo_unused))) (frames_that_came demo_received) (keys_that_came demo_received)
    (data_of 0 (base (shared c))).
Proof.
  cbv zeta. split; [vm_compute; reflexivity|].
  destruct (interleaved_frames_authentic 9 demo_unused demo_received) as [Hframes _].
  - split_and!; reflexivity.
  - repeat constructor.
  - destruct (is_some_b_ex (frames (base (shared (run_race 9 (mkConfig demo_unused []) demo_received))) !! 0%nat)) as [f Hf];
      [vm_compute; reflexivity|].
    specialize (Hframes 0%nat f Hf). unfold data_of. rewrite Hf. exact Hframes.
Defined.
