(* ===== verification/WorkerNonces.v ===== *)
(** * WorkerNonces: what leaves the encode pipes, under every interleaving (WorkerRace)

    [race_output]: the bytes of the frames that encode pipes put out along a run, read off the frame
    objects as they are enqueued. [owns use x]: the call [x] is suspended, and whatever happens before
    it goes on, it then ends and puts out at most one frame, sealed under [use]. *)
From S2P Require Import Prelude StateLogic Async Errors Internal Header Kid WebCrypto Toy Crypto SFrame Codec Replay.
From S2P Require Import WorkerTypes WorkerState WorkerFrame Worker WorkerLogic Demo WorkerEvents WorkerRatchet WorkerSend.
From S2P Require Import WorkerAsync WorkerPieces WorkerSerial WorkerRace WorkerInterleave WorkerIntegrity.
From S2P Require Durable.
#[local] Open Scope Z_scope.

(** ** Pipes are never taken away *)

Section Pipes.
Context `{WebCrypto} (fuel : nat).

Definition race_pipes (s : AsyncWorld) : list Side := pipes (base s).
Definition pipes_le : relation AsyncWorld := fun s s' => race_pipes s `prefix_of` race_pipes s'.

#[export] Instance pipes_receive : Receive_rel (same pipes).
Proof.
  assert (Frame_rel (same pipes)) by (split; [apply _|reflexivity..]).
  receive_rel_easy.
Qed.

#[export] Instance pipes_pieces : Async_rel (same pipes) (same race_pipes).
Proof. split; try apply _; try done. intros fid p. apply rr_push. Qed.

Lemma same_pipes_le s s' : same race_pipes s s' -> pipes_le s s'.
Proof. unfold same, pipes_le. by intros ->. Qed.

Lemma pipes_atW {A} (m : W A) : keeps (same pipes) m -> keepsP (same race_pipes) (atW m).
Proof. apply (pieces_atW (same pipes) (same race_pipes)). Qed.

Lemma pipes_first m : keepsP (same race_pipes) m -> firstP pipes_le (same race_pipes) (m : P AsyncWorld js_error unit).
Proof. apply keepsP_firstP, same_pipes_le. Qed.

Lemma drain_pipes : keepsP (same race_pipes) (drainPreEpochQueueP fuel).
Proof. apply (pieces_drain fuel (same pipes) (same race_pipes)); done. Qed.

Lemma transform_pipes side fid : keepsP (same race_pipes) (transformP fuel side fid).
Proof.
  unfold transformP. apply keepsP_bind; [apply _|apply pipes_atW, keeps_gets, _|intros frame].
  apply keepsP_bind; [apply _|apply keepsP_attempt|intros r; apply pipes_atW; unfold transform_rest, noteEncryptDrop; keeps_bookkeeping].
  destruct side; [|apply (pieces_decode (same pipes) (same race_pipes))]. unfold encodeFrameP.
  apply keepsP_bind; [apply _|apply pipes_atW; unfold encode_start; keeps_bookkeeping|].
  intros [[key pt] sealing]. pieces_auto; [apply (pieces_fail (same pipes) (same race_pipes))|].
  apply pipes_atW. unfold encode_finish. keeps_bookkeeping.
Qed.

Lemma arrive_pipes side fid frame : keepsP (same race_pipes) (arriveP fuel side fid frame).
Proof.
  unfold arriveP. apply keepsP_bind; [apply _|by apply pipes_atW, keeps_modify|intros _; apply transform_pipes].
Qed.

Definition grows_pipes {A} (m : W A) : Prop := forall w, pipes w `prefix_of` pipes (m w).2.

Lemma grows_first {A} (m : W A) : grows_pipes m -> firstP pipes_le (same race_pipes) (atW m).
Proof.
  intros Hm. apply firstP_piece. intros s. specialize (Hm (base s)). unfold onW, zoom, pipes_le, race_pipes.
  by destruct (m (base s)).
Qed.

Lemma streams_grow side codec : grows_pipes (handleMessage (StreamsMsg side codec)).
Proof. intros w. destruct codec; cbn; by apply prefix_app_r. Qed.

Lemma rtctransform_grow side : grows_pipes (onrtctransform side).
Proof. intros w. cbn. by apply prefix_app_r. Qed.

Lemma install_pipes e self b : keepsP (same race_pipes) (atA (installA e self b)).
Proof.
  apply keepsP_piece. unfold installA. keeps_auto.
  - apply (keeps_onW (same pipes) (same race_pipes)). unfold installEpoch. keeps_bookkeeping.
  - apply keeps_modify. by intros s.
Qed.

Lemma pipes_le_trans s1 s2 s3 : pipes_le s1 s2 -> same race_pipes s2 s3 -> pipes_le s1 s3.
Proof. unfold pipes_le, same. by intros ? ->. Qed.

Lemma message_pipes msg : msg <> TeardownMsg -> firstP pipes_le (same race_pipes) (onmessageP fuel msg).
Proof.
  intros Hmsg. unfold onmessageP. apply (firstP_catch _ _ pipes_le_trans); [|intros err; apply pipes_atW, keeps_emit, _].
  destruct msg; try done; cbn [handleMessageP]; try (apply pipes_first, pipes_atW; unfold handleMessage; keeps_bookkeeping).
  - apply pipes_first, keepsP_bind; [apply _|apply install_pipes|intros _; apply drain_pipes].
  - apply pipes_first, keepsP_bind; [apply _|apply install_pipes|intros _; apply drain_pipes].
  - apply grows_first, streams_grow.
  - apply pipes_first, keepsP_bind; [apply _|apply pipes_atW; unfold handleMessage; keeps_bookkeeping|intros _].
    apply keepsP_piece, keeps_modify. by intros s.
Qed.

Lemma timer_pipes epoch : keepsP (same race_pipes) (atA (timerA epoch)).
Proof.
  apply keepsP_piece. unfold timerA. keeps_auto; first [apply (keeps_onW (same pipes) (same race_pipes))|apply keeps_modify; by intros s].
  unfold fireWipeTimer, wipeEpoch. keeps_bookkeeping.
Qed.

Lemma pipes_redrain c : calls_keep (same race_pipes) c ->
  race_pipes (shared (redrain fuel c)) = race_pipes (shared c) /\ calls_keep (same race_pipes) (redrain fuel c).
Proof. apply (redrain_keeps fuel (same pipes) (same race_pipes)); done. Qed.

Lemma step_pipes c ev :
  no_race_teardown ev -> calls_keep (same race_pipes) c ->
  calls_keep (same race_pipes) (config_step fuel c ev) /\ pipes_le (shared c) (shared (config_step fuel c ev)).
Proof.
  intros Hev Hc.
  assert (forall c', calls_keep (same race_pipes) c' -> pipes_le (shared c) (shared c') ->
    calls_keep (same race_pipes) (redrain fuel c') /\ pipes_le (shared c) (shared (redrain fuel c'))) as Hdrain.
  { intros c' Hc' Hle. destruct (pipes_redrain c' Hc') as [E H2]. split; [exact H2|by apply (pipes_le_trans _ (shared c'))]. }
  assert (forall m pipe, firstP pipes_le (same race_pipes) m ->
    calls_keep (same race_pipes) (redrain fuel (spawn pipe m c)) /\
    pipes_le (shared c) (shared (redrain fuel (spawn pipe m c)))) as Hspawn.
  { intros m pipe Hm. destruct (spawn_keeps _ _ pipe m c Hm Hc) as [H1 H2]. by apply Hdrain. }
  assert (calls_keep (same race_pipes) (redrain fuel c) /\ pipes_le (shared c) (shared (redrain fuel c))) as Hnone
    by (by apply Hdrain; [|apply same_pipes_le]).
  unfold config_step. destruct ev as [pipe fid frame|i|msg|side|epoch|ms]; cbn [event_call].
  - destruct (pipes (base (shared c)) !! pipe) as [side|]; [|exact Hnone]. destruct (_ || _); [exact Hnone|].
    apply Hspawn, pipes_first, arrive_pipes.
  - destruct (advance_keeps (same race_pipes) i c Hc) as [H1 H2]. apply Hdrain; [exact H2|by apply same_pipes_le].
  - apply Hspawn, message_pipes. by intros ->.
  - apply Hspawn, grows_first, rtctransform_grow.
  - apply Hspawn, pipes_first, timer_pipes.
  - apply Hspawn, pipes_first, pipes_atW. by apply keeps_modify.
Qed.

End Pipes.

(** ** What a call of an encode pipe puts out *)

Section Output.
Context `{WebCrypto} (fuel : nat).

(** What an event does by itself, before a drain that was asked for runs again. *)
Definition event_step (c : Config) (ev : RaceEvent) : Config :=
  match ev with
  | Advance i => advance i c
  | _ => match event_call fuel c ev with Some (pipe, m) => spawn pipe m c | None => c end
  end.

Lemma config_step_event c ev : config_step fuel c ev = redrain fuel (event_step c ev).
Proof. done. Qed.

(** The side of the pipe whose transform the event starts or lets go on. *)
Definition event_side (c : Config) (ev : RaceEvent) : option Side :=
  pipe ← match ev with
         | Arrive pipe _ _ => Some pipe
         | Advance i => tasks c !! i ≫= t_pipe
         | _ => None
         end;
  pipes (base (shared c)) !! pipe.

(** The contents of the frames that were enqueued between two worlds. *)
Definition newly_out (w w' : World) : list bytes :=
  omap (fun fid => frame_data <$> frames w' !! fid) (drop (length (enqueued w)) (enqueued w')).

Definition encode_output (c : Config) (ev : RaceEvent) : list bytes :=
  match event_side c ev with
  | Some side_encode => newly_out (base (shared c)) (base (shared (event_step c ev)))
  | _ => []
  end.

Fixpoint race_output (c : Config) (evs : list RaceEvent) : list bytes :=
  match evs with
  | [] => []
  | ev :: evs => encode_output c ev ++ race_output (config_step fuel c ev) evs
  end.

Lemma newly_out_same w w' : enqueued w' = enqueued w -> newly_out w w' = [].
Proof. unfold newly_out. intros ->. by rewrite drop_all. Qed.

Lemma newly_out_one w w' fid f :
  enqueued w' = enqueued w ++ [fid] -> frames w' !! fid = f ->
  newly_out w w' = match f with Some f => [frame_data f] | None => [] end.
Proof. unfold newly_out. intros -> <-. rewrite drop_app_length. cbn. by destruct (_ !! fid). Qed.

#[export] Instance enqueued_frame : Frame_rel (same enqueued).
Proof. split; [apply _|reflexivity..]. Qed.

Lemma encode_start_enqueued fid kind : keeps (same enqueued) (encode_start fid kind).
Proof. unfold encode_start. keeps_bookkeeping. Qed.

Lemma dropped_enqueued side fid err : keeps (same enqueued) (transform_rest side fid (Throw err)).
Proof. unfold transform_rest, noteEncryptDrop. keeps_bookkeeping. Qed.

Lemma encode_finish_run fid key pt wire w :
  exists w', encode_finish fid key pt wire w = (Ok tt, w') /\ enqueued w' = enqueued w /\
    frames w' = alter (fun f => mkFrame wire (frame_type f)) fid (frames w).
Proof.
  unfold encode_finish, set_frame_data. rewrite bind_modify, bind_getw.
  rewrite (bind_Ok _ _ _ _ _ (emitMetric_run _ _)). eexists. split; [apply clearEncryptStarve_run|].
  unfold clearEncryptStarve. rewrite bind_getw. split; (case_match; cbn; unfold metric; by case_match).
Qed.

(** An encode up to its await, and what it does after it. *)
Lemma arrive_encode_run fid frame s :
  match encode_start fid (frameKindOf (frame_type frame)) ((base s) <| frames ::= <[fid := frame]> |>) with
  | (Ok (key, pt, sealing), w) =>
      exists ready k, arriveP fuel side_encode fid frame s = (Waiting ready k, s <| base := w |>) /\
        forall s2, exists r, k s2 = (Finished r,
          match sealing with
          | Ok wire => s2 <| base := (transform_rest side_encode fid (Ok tt) (encode_finish fid key pt wire (base s2)).2).2 |>
          | Throw err => s2 <| base := (transform_rest side_encode fid (Throw err) (base s2)).2 |>
          end)
  | (Throw err, w) =>
      exists r, arriveP fuel side_encode fid frame s = (Finished r, s <| base := (transform_rest side_encode fid (Throw err) w).2 |>)
  end.
Proof.
  set (w1 := (base s) <| frames ::= <[fid := frame]> |>). unfold arriveP.
  assert ((atW (modify (fun w => w <| frames ::= <[fid := frame]> |>)) ≫= fun _ => transformP fuel side_encode fid) s =
    transformP fuel side_encode fid (s <| base := w1 |>)) as -> by done.
  unfold transformP. rewrite atW_frame_of.
  assert (default (mkFrame [] None) (frames (base (s <| base := w1 |>)) !! fid) = frame) as -> by (cbn; by rewrite lookup_insert_eq).
  unfold encodeFrameP, mbind, P_bind, attemptP, atW, piece, onW, zoom. cbn [base].
  change (base (s <| base := w1 |>)) with w1.
  destruct (encode_start fid _ w1) as [[[[key pt] sealing]|err] w]; cbn.
  - do 2 eexists. split; [reflexivity|]. intros s2. cbn. destruct sealing as [wire|err]; cbn.
    + destruct (encode_finish_run fid key pt wire (base s2)) as (w' & E & _ & _). rewrite E. cbn.
      by exists (Ok tt).
    + destruct (transform_rest side_encode fid (Throw err) (base s2)) as [r w'] eqn:E. exists r. cbn in E |- *. by rewrite E.
  - destruct (transform_rest side_encode fid (Throw err) w) as [r w'] eqn:E. exists r. cbn in E |- *. by rewrite E.
Qed.

End Output.

Section Owned.
Context `{WebCryptoLaws} (fuel : nat).
Context (codec : KidCodec) (arrived : bytes -> Prop) (installed : Z -> Z -> PerSenderKeyBundle -> Prop).
#[local] Notation genuine := (genuine codec installed).
#[local] Notation sound := (sound codec arrived installed).

(** The frame is the sealing of a frame that arrived, under the counter [use.2] and a key descended
    from a bundle that was installed in the epoch [use.1]. *)
Definition sealed_under (wire : bytes) (use : Z * Z) : Prop :=
  exists pt n key p sealed trailer, arrived pt /\ genuine use.1 p key /\
    sframeEncrypt (drop n pt) key use.2 None aad_header = Ok sealed /\ wire = take n pt ++ sealed ++ trailer.

(** At most one frame, sealed so. *)
Definition one_under (use : Z * Z) (out : list bytes) : Prop :=
  out = [] \/ exists wire, out = [wire] /\ sealed_under wire use.

Definition owns (use : Z * Z) (x : Run AsyncWorld js_error unit) : Prop :=
  exists ready k, x = Waiting ready k /\
    forall s, exists r s', k s = (Finished r, s') /\ one_under use (newly_out (base s) (base s')).

Lemma encode_out fid frame s key pt sealing w :
  sound s -> arrived (frame_data frame) ->
  encode_start fid (frameKindOf (frame_type frame)) ((base s) <| frames ::= <[fid := frame]> |>) = (Ok (key, pt, sealing), w) ->
  send_key (ws (base s)) = Some key /\ forall wire, sealing = Ok wire -> sealed_under wire (race_send s).
Proof.
  intros Hs Ha Hstart. set (w1 := (base s) <| frames ::= <[fid := frame]> |>) in *.
  pose proof (f_equal fst Hstart) as (Hkey & -> & Hwire)%encode_start_wire. split; [exact Hkey|]. intros wire Hw.
  destruct (Hwire wire Hw) as (n & sealed & Hseal & ->).
  assert (contents w1 fid = frame_data frame) as Ec by (unfold contents; cbn; by rewrite lookup_insert_eq).
  rewrite Ec in *. unfold send_key in Hkey. change (ws w1) with (ws (base s)) in *. apply bind_Some in Hkey as (entry & He & Hp).
  exists (frame_data frame), n, key, (ent_selfPeerIndex entry), sealed, (trailer_bytes (ws (base s))).
  split_and!; [done|exact (ko_epochs _ _ _ (so_keys _ _ _ _ Hs) _ _ He _ _ Hp)|exact Hseal|done].
Qed.

(** A frame that comes to an encode pipe: its call has ended with nothing put out, or it owns the
    (epoch, counter) that the worker was at, and took that counter. *)
Lemma arrive_owns fid frame s :
  sound s -> arrived (frame_data frame) ->
  let '(x, s') := arriveP fuel side_encode fid frame s in
  enqueued (base s') = enqueued (base s) /\
  (waiting x = false \/ owns (race_send s) x /\ lex_lt (race_send s) (race_send s')).
Proof.
  intros Hs Ha. pose proof (arrive_send fuel side_encode fid frame s) as [Hsend _]. rewrite decide_True in Hsend by done.
  pose proof (arrive_encode_run fuel fid frame s) as Hrun. pose proof (encode_out fid frame s) as Hout.
  set (w1 := (base s) <| frames ::= <[fid := frame]> |>) in *.
  pose proof (encode_start_enqueued fid (frameKindOf (frame_type frame)) w1) as Hq. unfold same in Hq.
  destruct (encode_start _ _ w1) as [[[[key pt] sealing]|err] w]; cbn [snd] in Hq.
  - destruct Hrun as (ready & k & E & Hk). rewrite E in Hsend |- *. cbn [fst snd] in Hsend. split; [exact Hq|]. right.
    destruct (Hout key pt sealing w Hs Ha eq_refl) as [Hkey Hwire]. split; [|by eapply takes_ctr_lt].
    exists ready, k. split; [done|]. intros s2. destruct (Hk s2) as [r Er]. do 2 eexists. split; [exact Er|].
    destruct sealing as [wire|err].
    + destruct (encode_finish_run fid key pt wire (base s2)) as (w' & E' & Eq & Ef). rewrite E'. cbn.
      erewrite newly_out_one; [|cbn; by rewrite Eq|reflexivity]. cbn. rewrite Ef, lookup_alter_eq.
      destruct (frames (base s2) !! fid); [right|by left]. eexists. split; [done|]. by apply Hwire.
    + left. apply newly_out_same. apply (dropped_enqueued side_encode fid err (base s2)).
  - destruct Hrun as [r E]. rewrite E in Hsend |- *. split; [|by left]. cbn [base].
    etransitivity; [exact (dropped_enqueued side_encode fid err w)|exact Hq].
Qed.

(** ** The calls in flight *)

(** Call by call, the (epoch, counter) it owns. A call of an encode pipe that goes on owns one. *)
Definition owner (ps : list Side) (t : Task) (own : option (Z * Z)) : Prop :=
  (forall pipe, t_pipe t = Some pipe -> (pipe < length ps)%nat) /\
  match t_pipe t ≫= (ps !!.) with
  | Some side_encode => waiting (t_run t) = true -> exists use, own = Some use /\ owns use (t_run t)
  | _ => own = None
  end.

Record ledger (c : Config) (owned : list (option (Z * Z))) : Prop := {
  le_sound : sound_config codec arrived installed c;
  le_send : calls_keep (same race_send) c;
  le_pipes : calls_keep (same race_pipes) c;
  le_owned : Forall2 (owner (race_pipes (shared c))) (tasks c) owned;
  le_fresh : Forall (fun use => lex_lt use (race_send (shared c))) (omap id owned);
  le_once : NoDup (omap id owned)
}.

Lemma owner_grow ps ps' t own : ps `prefix_of` ps' -> owner ps t own -> owner ps' t own.
Proof.
  intros [qs ->] [Hlt Hown]. split.
  - intros pipe Hp. specialize (Hlt pipe Hp). rewrite length_app. lia.
  - destruct (t_pipe t) as [pipe|]; [|exact Hown]. cbn in *. rewrite lookup_app_l by (by apply Hlt). exact Hown.
Qed.

Lemma owner_none ps pipe x :
  match pipe with Some pipe => ps !! pipe = Some side_decode | None => True end -> owner ps (mkTask pipe x) None.
Proof.
  destruct pipe as [pipe|]; [|done]. intros Hp. split; cbn; [|by rewrite Hp].
  intros ? [= <-]. by eapply lookup_lt_Some.
Qed.

(** Owned before the event, or taken by it. *)
Definition may_use (c : Config) (ev : RaceEvent) (owned : list (option (Z * Z))) (use : Z * Z) : Prop :=
  use ∈ omap id owned \/ use = race_send (shared c) /\ lex_lt use (race_send (shared (config_step fuel c ev))).

(** What an event puts out, against the (epoch, counter) pairs that are owned before and after it. *)
Definition settled (c : Config) (ev : RaceEvent) (owned : list (option (Z * Z))) (used : list (Z * Z)) (owned' : list (option (Z * Z))) : Prop :=
  Forall2 sealed_under (encode_output fuel c ev) used /\
  Forall2 (owner (race_pipes (shared (config_step fuel c ev)))) (tasks (event_step fuel c ev)) owned' /\
  NoDup (used ++ omap id owned') /\
  Forall (may_use c ev owned) (used ++ omap id owned').

Section Step.
Context (c : Config) (ev : RaceEvent) (owned : list (option (Z * Z))) (Hl : ledger c owned) (Hev : no_race_teardown ev).

Lemma owners_after : Forall2 (owner (race_pipes (shared (config_step fuel c ev)))) (tasks c) owned.
Proof.
  destruct (step_pipes fuel c ev Hev (le_pipes _ _ Hl)) as [_ Hp].
  eapply Forall2_impl; [apply Hl|]. intros t own. by apply owner_grow.
Qed.

Lemma all_owned : Forall (may_use c ev owned) (omap id owned).
Proof. apply Forall_forall. by left. Qed.

(** Nothing put out, and a call that owns nothing. *)
Lemma settled_none new :
  encode_output fuel c ev = [] -> tasks (event_step fuel c ev) = tasks c ++ new ->
  Forall (fun t => owner (race_pipes (shared (config_step fuel c ev))) t None) new ->
  settled c ev owned [] (owned ++ ((fun _ => None) <$> new)).
Proof.
  intros Hout Htasks Hnew. unfold settled. rewrite Hout, Htasks.
  assert (omap id (owned ++ ((fun _ => None) <$> new)) = omap id owned) as E.
  { rewrite omap_app. clear. assert (omap id ((fun _ => None) <$> new : list (option (Z * Z))) = []) as ->; [|apply app_nil_r].
    by induction new. }
  rewrite E. split; [constructor|]. split; [|split; [apply Hl|apply all_owned]].
  apply Forall2_app; [apply owners_after|]. clear -Hnew. induction Hnew; by constructor.
Qed.

End Step.

Lemma owned_release (owned : list (option (Z * Z))) i use :
  owned !! i = Some (Some use) -> omap id owned ≡ₚ use :: omap id (<[i := None]> owned).
Proof.
  intros Hi. rewrite <- (take_drop_middle owned i _ Hi) at 1. rewrite (insert_take_drop owned i None) by (by eapply lookup_lt_Some).
  rewrite !omap_app. cbn. by rewrite Permutation_middle.
Qed.

Lemma advance_idle c i :
  advance i c = c \/ exists pipe ready k, tasks c !! i = Some (mkTask pipe (Waiting ready k)) /\
    advance i c = mkConfig (k (shared c)).2 (<[i := mkTask pipe (k (shared c)).1]> (tasks c)).
Proof.
  unfold advance. destruct (tasks c !! i) as [[pipe [r|ready k]]|] eqn:Ei; [by left| |by left].
  destruct (ready (shared c)); [|by left]. right. exists pipe, ready, k. split; [done|]. by destruct (k (shared c)).
Qed.

(** A call goes on. *)
Lemma settled_advance c owned i : ledger c owned -> exists used owned', settled c (Advance i) owned used owned'.
Proof.
  intros Hl. assert (no_race_teardown (Advance i)) as Hev by done.
  pose proof (owners_after c (Advance i) owned Hl Hev) as Hown.
  destruct (advance_idle c i) as [E|(pipe & ready & k & Ei & E)].
  { exists [], (owned ++ []). apply (settled_none c (Advance i) owned Hl Hev []); [|by rewrite app_nil_r; cbn; rewrite E|constructor].
    unfold encode_output. cbn [event_step]. rewrite E. case_match; [|done]. case_match; [by apply newly_out_same|done]. }
  destruct (Forall2_lookup_l _ _ _ _ _ (le_owned _ _ Hl) Ei) as (own & Ho & [Hlt Hside]).
  destruct (Forall2_lookup_l _ _ _ _ _ Hown Ei) as (own' & Ho' & [Hlt' Hside']).
  rewrite Ho in Ho'. injection Ho' as <-. cbn [t_pipe t_run] in *.
  pose proof (all_owned c (Advance i) owned) as Hall. unfold settled. cbn [event_step]. rewrite E. cbn [tasks].
  assert (event_side c (Advance i) = pipe ≫= (race_pipes (shared c) !!.)) as Eside.
  { unfold event_side. rewrite Ei. by destruct pipe. }
  unfold encode_output. rewrite Eside. cbn [event_step]. rewrite E. cbn [shared].
  assert (own = None -> forall x, Forall2 (owner (race_pipes (shared (config_step fuel c (Advance i)))))
    (<[i := mkTask pipe x]> (tasks c)) owned) as Hother.
  { intros -> x. rewrite <- (list_insert_id owned i None Ho). apply Forall2_insert; [exact Hown|]. split; [exact Hlt'|].
    cbn [t_pipe t_run].
    destruct (pipe ≫= (race_pipes (shared (config_step fuel c (Advance i))) !!.)) as [[]|]; [|done|done].
    by destruct (Hside' eq_refl) as (? & ? & _). }
  destruct (pipe ≫= (race_pipes (shared c) !!.)) as [[]|] eqn:Ep.
  - destruct (Hside eq_refl) as (use & -> & ready' & k' & [= <- <-] & Hk). destruct (Hk (shared c)) as (r & s' & Ek & Hout).
    rewrite Ek. cbn [fst snd]. pose proof (owned_release owned i use Ho) as Hperm.
    assert (Forall2 (owner (race_pipes (shared (config_step fuel c (Advance i))))) (<[i := mkTask pipe (Finished r)]> (tasks c)) (<[i := None]> owned)).
    { apply Forall2_insert; [exact Hown|]. split; [exact Hlt'|]. cbn [t_pipe t_run]. case_match; [|done]. case_match; done. }
    pose proof (le_once _ _ Hl) as Hnd. rewrite Hperm in Hnd, Hall.
    destruct Hout as [->|(wire & -> & Hwire)].
    + exists [], (<[i := None]> owned). split_and!; [constructor|done|by inversion Hnd|by inversion Hall].
    + exists [use], (<[i := None]> owned). split_and!; [by repeat constructor|done|exact Hnd|exact Hall].
  - subst own. exists [], owned. split_and!; [constructor|by apply Hother|apply Hl|exact Hall].
  - subst own. exists [], owned. split_and!; [constructor|by apply Hother|apply Hl|exact Hall].
Qed.

(** A call that starts and that no encode pipe waits for. *)
Lemma settled_spawn c ev owned pipe m :
  ledger c owned -> no_race_teardown ev -> event_step fuel c ev = spawn pipe m c ->
  match pipe with Some pipe => race_pipes (shared c) !! pipe = Some side_decode | None => True end ->
  encode_output fuel c ev = [] -> exists used owned', settled c ev owned used owned'.
Proof.
  intros Hl Hev E Hp Hout. unfold spawn in E. destruct (m (shared c)) as [x s].
  exists [], (owned ++ [None]). apply (settled_none c ev owned Hl Hev [mkTask pipe x]); [done|by rewrite E|].
  constructor; [|done]. apply owner_none. destruct pipe as [pipe|]; [|done].
  destruct (step_pipes fuel c ev Hev (le_pipes _ _ Hl)) as [_ Hle]. by eapply prefix_lookup_Some.
Qed.

Lemma settled_idle c ev owned :
  ledger c owned -> no_race_teardown ev -> event_step fuel c ev = c -> exists used owned', settled c ev owned used owned'.
Proof.
  intros Hl Hev E. exists [], (owned ++ []). apply (settled_none c ev owned Hl Hev []); [|by rewrite app_nil_r, E|constructor].
  unfold encode_output. rewrite E. case_match; [|done]. case_match; [by apply newly_out_same|done].
Qed.

(** A frame comes to a pipe. *)
Lemma settled_arrive c owned pipe fid frame :
  ledger c owned -> arrived (frame_data frame) -> exists used owned', settled c (Arrive pipe fid frame) owned used owned'.
Proof.
  intros Hl Ha. set (ev := Arrive pipe fid frame). assert (no_race_teardown ev) as Hev by done.
  destruct (race_pipes (shared c) !! pipe) as [side|] eqn:Ep.
  2: { apply settled_idle; [done..|]. cbn. unfold race_pipes in Ep. by rewrite Ep. }
  destruct (busy c pipe || bool_decide (is_Some (frames (base (shared c)) !! fid))) eqn:Eb.
  { apply settled_idle; [done..|]. cbn. unfold race_pipes in Ep. by rewrite Ep, Eb. }
  assert (event_step fuel c ev = spawn (Some pipe) (arriveP fuel side fid frame) c) as E.
  { cbn. unfold race_pipes in Ep. by rewrite Ep, Eb. }
  destruct side.
  2: { eapply settled_spawn; [done..|]. unfold encode_output. cbn. unfold race_pipes in Ep. by rewrite Ep. }
  pose proof (arrive_owns fid frame (shared c) (proj1 (le_sound _ _ Hl)) Ha) as Hnew.
  destruct (spawn_keeps _ _ (Some pipe) _ c (arrive_send fuel side_encode fid frame) (le_send _ _ Hl)) as [_ Hkeep].
  destruct (redrain_send fuel _ Hkeep) as [Esend _].
  rewrite <- E, <- config_step_event in Esend. pose proof E as E'. unfold spawn in E'.
  destruct (arriveP fuel side_encode fid frame (shared c)) as [x s]. destruct Hnew as [Hq Hnew].
  assert (encode_output fuel c ev = []) as Hout.
  { unfold encode_output. rewrite E'. unfold ev. cbn. unfold race_pipes in Ep. rewrite Ep. by apply newly_out_same. }
  rewrite E' in Esend. cbn [shared] in Esend. unfold settled. rewrite Hout, E'. cbn [tasks].
  pose proof (owners_after c ev owned Hl Hev) as Hown. pose proof (all_owned c ev owned) as Hall.
  destruct (step_pipes fuel c ev Hev (le_pipes _ _ Hl)) as [_ Hle].
  assert (race_pipes (shared (config_step fuel c ev)) !! pipe = Some side_encode) as Ep' by (by eapply prefix_lookup_Some).
  assert (forall own, (waiting x = true -> exists use, own = Some use /\ owns use x) ->
    Forall2 (owner (race_pipes (shared (config_step fuel c ev)))) (tasks c ++ [mkTask (Some pipe) x]) (owned ++ [own])) as Hadd.
  { intros own Ho. apply Forall2_app; [exact Hown|]. constructor; [|done]. split; cbn.
    - intros ? [= <-]. by eapply lookup_lt_Some.
    - by rewrite Ep'. }
  destruct Hnew as [Hdone|[Hx Hlt]].
  - exists [], (owned ++ [None]). rewrite omap_app, app_nil_r.
    split_and!; [constructor|apply Hadd; congruence|apply Hl|exact Hall].
  - exists [], (owned ++ [Some (race_send (shared c))]). rewrite omap_app. cbn [app omap list_omap id]. split_and!.
    + constructor.
    + apply Hadd. eauto.
    + apply NoDup_app. split_and!; [apply Hl| |by apply NoDup_singleton]. intros use Hin ->%list_elem_of_singleton.
      pose proof (le_fresh _ _ Hl) as Hf. rewrite Forall_forall in Hf. specialize (Hf _ Hin). unfold lex_lt in Hf. lia.
    + apply Forall_app. split; [exact Hall|]. constructor; [|done]. right. by rewrite Esend.
Qed.

Lemma settled_step c ev owned :
  ledger c owned -> no_race_teardown ev -> (forall d, brings_frame ev d -> arrived d) ->
  exists used owned', settled c ev owned used owned'.
Proof.
  intros Hl Hev Ha. destruct ev as [pipe fid frame|i|msg|side|epoch|ms].
  - apply settled_arrive; [done|]. by apply Ha.
  - by apply settled_advance.
  - by eapply (settled_spawn _ _ _ None).
  - by eapply (settled_spawn _ _ _ None).
  - by eapply (settled_spawn _ _ _ None).
  - by eapply (settled_spawn _ _ _ None).
Qed.

Lemma redrain_owners ps c owned :
  Forall2 (owner ps) (tasks c) owned ->
  exists owned', omap id owned' = omap id owned /\ Forall2 (owner ps) (tasks (redrain fuel c)) owned'.
Proof.
  intros Hc. unfold redrain. destruct (drain_wanted (shared c)); [|by exists owned].
  unfold spawn. destruct (drainPreEpochQueueP _ _) as [x s]. cbn [tasks]. exists (owned ++ [None]).
  split; [rewrite omap_app; apply app_nil_r|]. apply Forall2_app; [done|]. constructor; [|done]. by apply owner_none.
Qed.

(** One event: what it puts out is sealed under pairs that nothing owns afterwards. *)
Lemma ledger_step c ev owned :
  ledger c owned -> no_race_teardown ev -> race_same_format ev -> (forall d, brings_frame ev d -> arrived d) ->
  (forall e p b, brings_key ev e p b -> installed e p b) ->
  exists used owned', Forall2 sealed_under (encode_output fuel c ev) used /\ ledger (config_step fuel c ev) owned' /\
    race_le (shared c) (shared (config_step fuel c ev)) /\ NoDup (used ++ omap id owned') /\
    Forall (may_use c ev owned) (used ++ omap id owned').
Proof.
  intros Hl Hev Hf Ha Hb. destruct (settled_step c ev owned Hl Hev Ha) as (used & owned1 & Hout & Hown & Hnd & Hmay).
  destruct (redrain_owners _ _ _ Hown) as (owned' & E & Hown'). rewrite <- config_step_event in Hown'. rewrite <- E in *.
  destruct (race_step_send fuel c ev Hev (le_send _ _ Hl)) as [Hsend Hle].
  exists used, owned'. split_and!; [done| |done..]. split.
  - apply config_sound; [done..|apply Hl].
  - exact Hsend.
  - apply step_pipes; [done|apply Hl].
  - exact Hown'.
  - apply Forall_app in Hmay as [_ Hmay]. eapply Forall_impl; [exact Hmay|]. intros use [Hin|[_ Hlt]]; [|done].
    pose proof (le_fresh _ _ Hl) as Hfresh. rewrite Forall_forall in Hfresh. eapply lex_lt_le_trans; [by apply Hfresh|done].
  - by apply NoDup_app in Hnd as (_ & _ & ?).
Qed.

Lemma ledger_run c evs owned :
  ledger c owned -> Forall no_race_teardown evs -> Forall race_same_format evs ->
  (forall ev d, ev ∈ evs -> brings_frame ev d -> arrived d) ->
  (forall ev e p b, ev ∈ evs -> brings_key ev e p b -> installed e p b) ->
  exists uses, Forall2 sealed_under (race_output fuel c evs) uses /\ NoDup uses /\
    Forall (fun use => use ∈ omap id owned \/ lex_le (race_send (shared c)) use) uses.
Proof.
  intros Hl Hevs. revert c owned Hl. induction Hevs as [|ev evs Hev Hevs IH]; intros c owned Hl Hf Ha Hb.
  { exists []. split_and!; constructor. }
  inversion Hf as [|? ? Hf1 Hf2]; subst.
  destruct (ledger_step c ev owned) as (used & owned' & Hout & Hl' & Hle & Hnd & Hmay); [done..| | |].
  { intros d. apply (Ha ev). by left. }
  { intros e p b. apply (Hb ev). by left. }
  destruct (IH (config_step fuel c ev) owned' Hl') as (uses & Houts & Hnds & Hafter); [done|intros ev' d Hin; apply (Ha ev'); by right|
    intros ev' e p b Hin; apply (Hb ev'); by right|].
  assert (forall use, use ∈ used -> lex_lt use (race_send (shared (config_step fuel c ev)))) as Hused.
  { intros use Hin. rewrite Forall_app, !Forall_forall in Hmay. destruct Hmay as [Hmay _].
    destruct (Hmay use Hin) as [Hin'|[_ ?]]; [|done].
    pose proof (le_fresh _ _ Hl) as Hfresh. rewrite Forall_forall in Hfresh. eapply lex_lt_le_trans; [by apply Hfresh|done]. }
  exists (used ++ uses). split_and!.
  - by apply Forall2_app.
  - apply NoDup_app in Hnd as (Hnd1 & Hnd2 & _). apply NoDup_app. split_and!; [done| |done].
    intros use Hin Hin'. rewrite Forall_forall in Hafter. destruct (Hafter use Hin') as [Ho|Hge]; [by apply (Hnd2 use)|].
    specialize (Hused use Hin). unfold lex_lt, lex_le in *. lia.
  - apply Forall_app. split.
    + apply Forall_app in Hmay as [Hmay _]. eapply Forall_impl; [exact Hmay|]. intros use [?|[-> _]]; [by left|right].
      right. split; [done|apply Z.le_refl].
    + eapply Forall_impl; [exact Hafter|]. intros use [Ho|Hge]; [|right; by eapply lex_le_trans].
      rewrite Forall_app, !Forall_forall in Hmay. destruct Hmay as [_ Hmay]. destruct (Hmay use Ho) as [?|[-> _]]; [by left|right].
      right. split; [done|apply Z.le_refl].
Qed.

End Owned.

(** ** Properties *)

(** C5. No interleaving uses a nonce twice. From a worker that has no keys and frames yet, along any run
    that keeps the KID format and has no teardown (which sets the counter back to 0), whatever the order
    in which frames arrive at the pipes, messages, timers and ticks come and suspended calls go on: every
    frame that an encode pipe puts out is [clear prefix][sealed][trailer] of a frame that arrived, where
    the sealed part is [sframeEncrypt] of the rest under some counter and a key descended from a bundle
    that was installed in some epoch; and over the whole run no (epoch, counter) pair is used for two
    of the frames put out. *)
Theorem interleaved_nonces_never_repeat `{WebCryptoLaws} (fuel : nat) (s : AsyncWorld) (evs : list RaceEvent)
    (Hunused : unused s) (Hformat : Forall race_same_format evs) (Hevs : Forall no_race_teardown evs) :
  exists uses,
    Forall2 (sealed_under (kidCodec (ws (base s))) (frames_that_came evs) (keys_that_came evs))
      (race_output fuel (mkConfig s []) evs) uses /\
    NoDup uses.
Proof.
  destruct (ledger_run fuel (kidCodec (ws (base s))) (frames_that_came evs) (keys_that_came evs) (mkConfig s []) evs [])
    as (uses & Hout & Hnd & _); [|done|done|intros ev d ? ?; by exists ev|intros ev e p b ? ?; by exists ev|by exists uses].
  destruct Hunused as (E1 & E2 & E3 & E4). split; try constructor; [|constructor].
  split; [split; [done|]| | |]; cbn; rewrite ?E1, ?E2, ?E3, ?E4; apply map_Forall_empty.
Qed.

(** Four frames on two pipes; the epoch is installed again and then rotated while calls are suspended,
    and the calls of the second pipe overtake those of the first. *)
Definition demo_race : list (RaceEvent (H := toy)) :=
  [Message (EpochMsg 1 0 (demo_bundles 1));
   Message (StreamsMsg side_encode None); Message (StreamsMsg side_encode None);
   Arrive 0 0 (mkFrame demo_data None); Arrive 1 1 (mkFrame demo_data None);
   Message (EpochMsg 1 0 (demo_bundles 1)); Advance 4;
   Arrive 1 2 (mkFrame demo_data None); Message (RotateMsg 2 0 (demo_bundles 2));
   Advance 3; Arrive 0 3 (mkFrame demo_data None); Advance 6; Advance 8].

(** What the header of a frame without clear prefix says: epoch, sender and counter. *)
Definition header_says (codec : KidCodec) (wire : bytes) : option (Z * Z * Z) :=
  match parseHeader wire with
  | Ok hdr => match decode codec (kid hdr) with Ok id => Some (id, Header.ctr hdr) | Throw _ => None end
  | Throw _ => None
  end.

Lemma interleaved_nonces_never_repeat_witness :
  let out := race_output 9 (mkConfig demo_unused []) demo_race in
  map (header_says FIXED_KID_CODEC) out = [Some (1, 0, 1); Some (1, 0, 0); Some (1, 0, 2); Some (2, 0, 0)] /\
  exists uses, Forall2 (sealed_under (kidCodec (ws (base demo_unused))) (frames_that_came demo_race) (keys_that_came demo_race))
    out uses /\ NoDup uses.
Proof.
  cbv zeta. split; [vm_compute; reflexivity|].
  apply (interleaved_nonces_never_repeat 9 demo_unused demo_race); [by split_and!|by repeat constructor|].
  repeat constructor; intros E; discriminate E.
Defined.
