(* ===== verification/WorkerAlone.v ===== *)
(** * WorkerAlone: the event loop, one event at a time (WorkerRace against Worker)

    [run] of [Worker] takes each event in one step. Here it is shown to be what the event loop does
    when every call ends before the next event comes: its theorems are theorems on such runs. *)
From S2P Require Import Prelude StateLogic Async Errors Internal Header Kid WebCrypto Toy Crypto SFrame Codec Replay.
From S2P Require Import WorkerTypes WorkerState WorkerFrame Worker WorkerLogic Demo WorkerEvents WorkerDrain.
From S2P Require Import WorkerAsync WorkerPieces WorkerSerial WorkerRace WorkerInterleave WorkerGuard.
From S2P Require Durable.
#[local] Open Scope Z_scope.

(** [keeps_bookkeeping] for [calm]. *)
Ltac calm_bookkeeping :=
  unfold now, durable_available, scheduleWipeOfEpochsBelow, init_durable, pipe; keeps_auto;
  first [ apply keeps_emit, _ | apply keeps_emitMetric, _ | apply keeps_reset_failures, _
        | apply keeps_clear_durable, _
        | apply keeps_modify; intros ?; apply calm_same; unfold same; cbn; repeat case_match; reflexivity ].

Section Alone.
Context `{WebCrypto} (fuel : nat).

(** The call that an event of [Worker] starts. *)
Definition call_of (ev : Event) : P AsyncWorld js_error unit :=
  match ev with
  | ev_message msg => onmessageP fuel msg
  | ev_rtctransform side => atW (onrtctransform side)
  | ev_frame side fid frame => arriveP fuel side fid frame
  | ev_timer epoch => atA (timerA epoch)
  | ev_tick ms => atW (step (ev_tick ms))
  end.

(** Every call runs to its end before the next event. *)
Definition run_alone (s : AsyncWorld) (evs : list Event) : AsyncWorld :=
  foldl (fun s ev => (alone (call_of ev) s).2) s evs.

(** Nothing is in flight. *)
Record quiescent (s : AsyncWorld) : Prop := {
  qu_serial : serial fuel None s;
  qu_rest : at_rest s;
  qu_wanted : drain_wanted s = false
}.

Notation agrees := (agrees quiescent quiescent).

Lemma agrees_quiescent {A} p (m : W A) :
  WorkerSerial.agrees (serial fuel None) (serial fuel None) p m -> keepsP guard_same p -> agrees p m.
Proof.
  intros Hp Hk s [Hs Hr Hw]. destruct (Hp s Hs) as (s' & E & Eb & Hs'). exists s'. split; [done|]. split; [done|].
  pose proof (alone_keeps guard_same p s Hk) as Hg. rewrite E in Hg. unfold guard_same, same, guard_of in Hg.
  cbn [snd] in Hg. injection Hg as E1 E2 E3. split; [done| |congruence]. unfold at_rest, drain_flags in *. congruence.
Qed.

Lemma agrees_plain {A} (m : W A) : keeps (preserved (calm fuel)) m -> keeps (same drain_flags) m -> agrees (atW m) m.
Proof. intros Hc Hf. apply agrees_quiescent; [by apply agrees_atW|by apply drain_flags_atW]. Qed.

(** An operation, and bookkeeping that leaves the worker alone. *)
Lemma alone_onW_then (m : W unit) (f : AsyncWorld -> AsyncWorld) s :
  (forall s, base (f s) = base s) -> (forall s, promises (f s) = promises s) ->
  serial fuel None s -> calm fuel (m (base s)).2 ->
  exists s', (onW m;; modify f) s = ((m (base s)).1, s') /\ base s' = (m (base s)).2 /\ serial fuel None s'.
Proof.
  intros Hb Hpr [Hc Hp _] Hm. unfold mbind, M_bind, onW, zoom. destruct (m (base s)) as [[[]|err] w]; cbn [fst snd modify] in *.
  - eexists. split; [reflexivity|]. rewrite Hb. split; [done|]. split; [by rewrite Hb|by rewrite Hpr|done].
  - eexists. split; [reflexivity|]. split; [done|]. by split.
Qed.

Lemma calm_install e self b : keeps (preserved (calm fuel)) (installEpoch e self b).
Proof. unfold installEpoch. calm_bookkeeping. Qed.

Lemma calm_timer e : keeps (preserved (calm fuel)) (fireWipeTimer e).
Proof. unfold fireWipeTimer, wipeEpoch. calm_bookkeeping. Qed.

Lemma agrees_install e self b : agrees (atA (installA e self b)) (installEpoch e self b).
Proof.
  apply agrees_quiescent; [|apply keepsP_piece, install_guard]. intros s Hs. unfold atA. rewrite alone_piece.
  unfold installA. rewrite bind_gets. cbn beta. apply alone_onW_then; [done..|apply calm_install, Hs].
Qed.

Lemma agrees_timer e : agrees (atA (timerA e)) (fireWipeTimer e).
Proof.
  apply agrees_quiescent; [|apply keepsP_piece, timer_guard]. intros s Hs. unfold atA. rewrite alone_piece.
  unfold timerA. rewrite !bind_gets. cbn beta.
  pose proof (calm_timer e (base s) (se_calm _ _ _ Hs)) as Hc.
  set (old := epochs (ws (base s)) !! e). destruct (timer_due e (base s)).
  - destruct (alone_onW_then (fireWipeTimer e) (fun s => orphan_entry zeroize_entry e old s
      <| window_ids ::= filter (fun kv => kv.1.1 <> e) |>) s) as (s' & E & Eb & Hs'); [done..|].
    exists s'. split; [|done]. rewrite <- E. unfold mbind, M_bind. by destruct (onW _ s) as [[[]|err] s1].
  - destruct (alone_onW_then (fireWipeTimer e) id s) as (s' & E & Eb & Hs'); [done..|].
    exists s'. split; [|done]. rewrite <- E. unfold mbind, M_bind. by destruct (onW _ s) as [[[]|err] s1].
Qed.

Lemma agrees_drain : agrees (drainPreEpochQueueP fuel) drainPreEpochQueue.
Proof.
  intros s [Hs Hr Hw]. injection Hr as Hd Hp. destruct (serial_drain fuel s Hs Hd Hp) as (s' & E & Eb & Hs' & Hw').
  exists s'. unfold drainPreEpochQueue, drain_fuel. destruct (drain_loop_idle 1 (base s) Hd Hp) as (-> & Hd' & Hp').
  split; [done|]. split; [done|]. split; [done|unfold at_rest, drain_flags; rewrite Eb; congruence|congruence].
Qed.

Lemma agrees_chain {A B} p m (k : A -> P AsyncWorld js_error B) (k' : A -> W B) :
  agrees p m -> (forall a, agrees (k a) (k' a)) -> agrees (p ≫= k) (m ≫= k').
Proof. intros Hp Hk. by eapply agrees_bind. Qed.

(** The window that a message sets is below the fuel. *)
Definition window_below (ev : Event) : Prop :=
  match ev with ev_message (SetRatchetWindowMsg size) => Z.max 0 (js_floor size) < Z.of_nat fuel | _ => True end.

Lemma agrees_setw_window n :
  0 <= n < Z.of_nat fuel ->
  agrees (atW (setw (fun s => s <| ratchetWindowSize := n |>))) (setw (fun s => s <| ratchetWindowSize := n |>)).
Proof. intros Hn. apply agrees_plain; apply keeps_setw; intros w; [|done]. intros [Hset _]. by split. Qed.

(** The windows are dropped afterwards. *)
Lemma agrees_windows (m : W unit) :
  agrees (atW m) m -> agrees (atW m;; atA (modify (fun s => s <| window_ids := ∅ |>))) m.
Proof.
  intros Hm s Hs. destruct (Hm s Hs) as (s1 & E & Eb & [[H1 H2 _] H3 H4]). rewrite alone_bind. unfold mbind, M_bind.
  rewrite E. destruct (m (base s)) as [[[]|err] w]; cbn [fst snd] in *; [|by exists s1].
  unfold atA. rewrite alone_piece. eexists. split; [reflexivity|]. split; [exact Eb|]. by split.
Qed.

Lemma agrees_teardown : agrees (atA teardownA) (handleMessage TeardownMsg).
Proof.
  apply agrees_quiescent; [|apply keepsP_piece, teardown_guard]. intros s [[_ Hwin] _ _]. unfold atA. rewrite alone_piece.
  unfold teardownA. rewrite !bind_modify. unfold onW, zoom. eexists. split; [reflexivity|]. split; [reflexivity|].
  split; [by split|done|done].
Qed.

Lemma agrees_message msg :
  window_below (ev_message msg) -> agrees (handleMessageP fuel msg) (handleMessage msg).
Proof.
  intros Hwin. destruct msg; cbn [handleMessageP].
  - apply agrees_plain; unfold handleMessage; [calm_bookkeeping|keeps_bookkeeping].
  - apply agrees_chain; [apply agrees_install|intros _; apply agrees_drain].
  - apply agrees_chain; [apply agrees_install|intros _; apply agrees_drain].
  - apply agrees_plain; unfold handleMessage; [calm_bookkeeping|keeps_bookkeeping].
  - apply agrees_plain; unfold handleMessage; [calm_bookkeeping|keeps_bookkeeping].
  - apply agrees_setw_window. cbn in Hwin. split; [apply Z.le_max_l|].
    exact Hwin.
  - apply agrees_plain; unfold handleMessage; [calm_bookkeeping|keeps_bookkeeping].
  - apply agrees_windows, agrees_plain; unfold handleMessage; [calm_bookkeeping|keeps_bookkeeping].
  - apply agrees_plain; unfold handleMessage; [calm_bookkeeping|keeps_bookkeeping].
  - apply agrees_teardown.
Qed.

Lemma agrees_caught (p : P AsyncWorld js_error unit) m (h : js_error -> W unit) :
  agrees p m -> (forall e, agrees (atW (h e)) (h e)) -> agrees (catchP p (fun e => atW (h e))) (catch m h).
Proof.
  intros Hp Hh s Hs. destruct (Hp s Hs) as (s1 & E & Eb & Hs1). rewrite alone_catch. unfold catch. rewrite E.
  destruct (m (base s)) as [[[]|err] w1]; cbn [fst snd] in *; subst w1; [by exists s1|]. by apply Hh.
Qed.

Lemma agrees_event ev : window_below ev -> agrees (call_of ev) (step ev).
Proof.
  intros Hwin. destruct ev as [msg|side|side fid frame|epoch|ms]; cbn [call_of].
  - apply agrees_caught; [by apply agrees_message|]. intros err.
    apply agrees_plain; [apply keeps_emit, _|apply keeps_emit, _].
  - apply agrees_plain; cbn [step]; unfold onrtctransform; [calm_bookkeeping|keeps_bookkeeping].
  - cbn [step]. unfold arriveP. apply agrees_chain.
    + apply agrees_plain; apply keeps_modify; intros w; [by apply calm_same|done].
    + intros _. apply agrees_quiescent; [apply agrees_transform|apply transform_guard].
  - apply agrees_timer.
  - apply agrees_plain; cbn [step]; apply keeps_modify; intros w; [by apply calm_same|done].
Qed.

Lemma run_alone_quiescent s evs :
  quiescent s -> Forall window_below evs -> base (run_alone s evs) = run (base s) evs /\ quiescent (run_alone s evs).
Proof.
  intros Hs Hevs. revert s Hs. induction Hevs as [|ev evs Hev Hevs IH]; intros s Hs; [by split|].
  destruct (agrees_event ev Hev s Hs) as (s' & E & Eb & Hs').
  change (run_alone s (ev :: evs)) with (run_alone (alone (call_of ev) s).2 evs). rewrite E. cbn [snd].
  change (run (base s) (ev :: evs)) with (run (step_world (base s) ev) evs). unfold step_world. rewrite <- Eb.
  by apply IH.
Qed.

End Alone.

(** ** Properties *)

(** C8. The event loop refines the worker of [Worker.run]: when nothing is in flight and every call
    is over before the next event comes, each event returns what [step] returns, a run of any events
    leaves the worker that [run] leaves, and again nothing is in flight: the frames' waits, the
    drain that an epoch starts and the objects held across awaits make no difference then. The fuel
    is above the retry window at the start and every one that a message sets. *)
Theorem serial_run_refines `{WebCrypto} (fuel : nat) (s : AsyncWorld) (evs : list Event)
    (Hs : quiescent fuel s) (Hevs : Forall (window_below fuel) evs) :
  base (run_alone fuel s evs) = run (base s) evs /\ quiescent fuel (run_alone fuel s evs) /\
  forall ev, window_below fuel ev -> (alone (call_of fuel ev) s).1 = (step ev (base s)).1.
Proof.
  pose proof (run_alone_quiescent fuel s evs Hs Hevs) as [E Hq]. split; [exact E|]. split; [exact Hq|].
  intros ev Hev. by destruct (agrees_event fuel ev Hev s Hs) as (s' & -> & _).
Qed.

Definition demo_quiet : AsyncWorld (H := toy) := quiet initial_world.

Definition demo_session : list (Event (H := toy)) :=
  [ev_message (StreamsMsg side_decode None);
   ev_frame side_decode 0 (mkFrame (demo_wire 0) (Some "key"%string));
   ev_message (EpochMsg 1 1 (demo_bundles 1));
   ev_frame side_decode 1 (mkFrame (demo_wire 1) (Some "key"%string))].

Lemma serial_run_refines_witness :
  data_of 0 (base (run_alone 9 demo_quiet demo_session)) = demo_data /\
  data_of 1 (base (run_alone 9 demo_quiet demo_session)) = demo_data /\
  base (run_alone 9 demo_quiet demo_session) = run (base demo_quiet) demo_session.
Proof.
  split; [vm_compute; reflexivity|]. split; [vm_compute; reflexivity|].
  destruct (serial_run_refines 9 demo_quiet demo_session) as [E _].
  - split; [|reflexivity|reflexivity]. split; [|reflexivity|exact I]. split; [reflexivity|].
    split; [apply Z.leb_le|apply Z.ltb_lt]; vm_compute; reflexivity.
  - repeat constructor.
  - exact E.
Defined.
