(* ===== verification/WorkerProgress.v ===== *)
(** * WorkerProgress: no call waits for ever (WorkerRace)

    A call may wait for the promise of another call's retry. [live P O Q m]: the program [m], which
    owes the promise [O] when it starts, settles what it makes, waits for others only while it owes
    nothing, and only for promises that were made. *)
From S2P Require Import Prelude StateLogic Async Errors Internal Header Kid WebCrypto Toy Crypto SFrame Codec Replay.
From S2P Require Import WorkerTypes WorkerState WorkerFrame Worker WorkerLogic Demo WorkerEvents.
From S2P Require Import WorkerAsync WorkerPieces WorkerSerial WorkerRace WorkerInterleave WorkerGuard WorkerAlone.
From S2P Require Durable.
#[local] Open Scope Z_scope.

Create HintDb steady.

Section Progress.
Context `{WebCrypto} (fuel : nat).

Abbreviation Promise := (string * nat)%type.

Definition known (s : AsyncWorld) (k : Promise) : Prop := is_Some (outcomes s !! k).
Definition unsettled (s : AsyncWorld) (k : Promise) : Prop := outcomes s !! k = Some None.

Definition window_in (w : World) : Prop := 0 <= ratchetWindowSize (ws w) < Z.of_nat fuel.

(** The retry window is below the fuel, and the promises that can be found were made. *)
Record good (s : AsyncWorld) : Prop := mk_good {
  go_window : window_in (base s);
  go_known key id : promises s !! key = Some id -> known s (key, id)
}.

(** What a piece of a call that owed [O], and then owes [O'], does to the promises. *)
Definition moves (O : option Promise) (s s' : AsyncWorld) (O' : option Promise) : Prop :=
  (forall k, known s k -> known s' k) /\
  forall k, unsettled s' k -> O' = Some k \/ (unsettled s k /\ O <> Some k).

(** Ready at any time, or when a promise that was made is settled. *)
Definition waits (O : option Promise) (ready : AsyncWorld -> bool) (s : AsyncWorld) : Prop :=
  (forall s', ready s' = true) \/
  (O = None /\ exists k, known s k /\ forall s', ready s' = bool_decide (is_Some (settlement k s'))).

Fixpoint run_live {A} (Q : res A -> option Promise -> AsyncWorld -> Prop) (x : Run AsyncWorld js_error A)
    (O : option Promise) (s : AsyncWorld) : Prop :=
  match x with
  | Finished r => Q r O s
  | Waiting ready c => waits O ready s /\
      forall s', good s' -> exists O', moves O s' (c s').2 O' /\ good (c s').2 /\ run_live Q (c s').1 O' (c s').2
  end.

(** A piece that leaves the call with [x] in [s']. *)
Definition gets_to {A} (Q : res A -> option Promise -> AsyncWorld -> Prop) (O : option Promise) (s : AsyncWorld)
    (xs : Run AsyncWorld js_error A * AsyncWorld) : Prop :=
  exists O', moves O s xs.2 O' /\ good xs.2 /\ run_live Q xs.1 O' xs.2.

Definition live {A} (pre : AsyncWorld -> Prop) (O : option Promise) (Q : res A -> option Promise -> AsyncWorld -> Prop)
    (m : P AsyncWorld js_error A) : Prop :=
  forall s, good s -> pre s -> gets_to Q O s (m s).

(** Leaves the debt as it is. *)
Definition steady {A} (O : option Promise) (m : P AsyncWorld js_error A) : Prop :=
  live (fun _ => True) O (fun _ O' _ => O' = O) m.

Lemma moves_refl O s s' : outcomes s' = outcomes s -> moves O s s' O.
Proof.
  intros E. unfold moves, known, unsettled. rewrite E. split; [done|]. intros k Hk.
  destruct (decide (O = Some k)); [by left|by right].
Qed.

Lemma moves_trans O s1 O1 s2 s3 O2 : moves O s1 s2 O1 -> moves O1 s2 s3 O2 -> moves O s1 s3 O2.
Proof.
  intros [H1 H2] [H3 H4]. split; [auto|]. intros k Hk. destruct (H4 k Hk) as [?|[Hk1 Hne]]; [by left|].
  destruct (H2 k Hk1) as [?|?]; [done|by right].
Qed.

Lemma gets_to_move {A} (Q : res A -> option Promise -> AsyncWorld -> Prop) O s O1 s1 xs :
  moves O s s1 O1 -> gets_to Q O1 s1 xs -> gets_to Q O s xs.
Proof. intros Hm (O2 & H1 & H2 & H3). exists O2. split; [by eapply moves_trans|done]. Qed.

Lemma gets_to_bind {A B} (Q1 : A -> option Promise -> AsyncWorld -> Prop) (Q : res B -> option Promise -> AsyncWorld -> Prop)
    (k : A -> P AsyncWorld js_error B) x O s :
  good s ->
  run_live (fun r O s => match r with Ok a => Q1 a O s | Throw e => Q (Throw e) O s end) x O s ->
  (forall a O, live (Q1 a O) O Q (k a)) -> gets_to Q O s (run_bind x k s).
Proof.
  intros Hg Hx Hk. revert O s Hg Hx. induction x as [[a|e]|ready c IH] using run_ind; intros O s Hg Hx; cbn [run_bind run_live] in *.
  - by apply Hk.
  - exists O. by split_and!; [apply moves_refl| |].
  - exists O. split; [by apply moves_refl|]. split; [done|]. destruct Hx as [Hw Hc]. split; [exact Hw|].
    intros s' Hg'. destruct (Hc s' Hg') as (O1 & H1 & H2 & H3). specialize (IH s' O1 (c s').2 H2 H3).
    destruct (c s') as [x' s2]. cbn [fst snd] in *. exact (gets_to_move _ _ _ _ _ _ H1 IH).
Qed.

Lemma live_bind {A B} pre O (Q1 : A -> option Promise -> AsyncWorld -> Prop) (Q : res B -> option Promise -> AsyncWorld -> Prop) m
    (k : A -> P AsyncWorld js_error B) :
  live pre O (fun r O s => match r with Ok a => Q1 a O s | Throw e => Q (Throw e) O s end) m ->
  (forall a O, live (Q1 a O) O Q (k a)) -> live pre O Q (m ≫= k).
Proof.
  intros Hm Hk s Hg Hs. unfold mbind, P_bind. destruct (Hm s Hg Hs) as (O1 & H1 & H2 & H3). destruct (m s) as [x s1].
  eapply gets_to_move; [exact H1|]. by eapply gets_to_bind.
Qed.

Lemma run_live_weaken {A} (Q Q' : res A -> option Promise -> AsyncWorld -> Prop) x O s :
  (forall r O s, Q r O s -> Q' r O s) -> run_live Q x O s -> run_live Q' x O s.
Proof.
  intros HQ. revert O s. induction x as [r|ready c IH] using run_ind; intros O s; [apply HQ|]. cbn [run_live].
  intros [Hw Hc]. split; [done|]. intros s' Hg. destruct (Hc s' Hg) as (O' & H1 & H2 & H3). exists O'. auto.
Qed.

Lemma live_weaken {A} (pre pre' : AsyncWorld -> Prop) O (Q Q' : res A -> option Promise -> AsyncWorld -> Prop) m :
  (forall s, pre s -> pre' s) -> (forall r O s, Q r O s -> Q' r O s) -> live pre' O Q m -> live pre O Q' m.
Proof.
  intros Hp HQ Hm s Hg Hs. destruct (Hm s Hg (Hp s Hs)) as (O' & H1 & H2 & H3). exists O'.
  split; [done|]. split; [done|]. by eapply run_live_weaken.
Qed.

Lemma steady_bind {A B} O (m : P AsyncWorld js_error A) (k : A -> P AsyncWorld js_error B) :
  steady O m -> (forall a, steady O (k a)) -> steady O (m ≫= k).
Proof.
  intros Hm Hk. eapply (live_bind _ _ (fun _ O' _ => O' = O)).
  - apply (live_weaken _ (fun _ => True) _ (fun _ O' _ => O' = O)); [done| |exact Hm]. by intros [a|e] O' s.
  - intros a O' s Hg ->. by apply Hk.
Qed.

Lemma steady_ret {A} O (a : A) : steady O (mret a).
Proof. intros s Hg _. exists O. split; [by apply moves_refl|]. by split. Qed.

(** Keeps [good], and makes and settles no promise. *)
Definition tidy {A} (m : M AsyncWorld js_error A) : Prop :=
  forall s, good s -> good (m s).2 /\ outcomes (m s).2 = outcomes s.

Lemma tidy_bind {A B} (m : M AsyncWorld js_error A) (k : A -> M AsyncWorld js_error B) :
  tidy m -> (forall a, tidy (k a)) -> tidy (m ≫= k).
Proof.
  intros Hm Hk s Hg. unfold mbind, M_bind. destruct (Hm s Hg) as [H1 H2]. destruct (m s) as [[a|e] s1]; cbn [snd] in *; [|done].
  destruct (Hk a s1 H1) as [H3 H4]. split; [done|congruence].
Qed.

Lemma tidy_gets {A} (f : AsyncWorld -> A) : tidy (gets f).
Proof. by intros s Hg. Qed.

Lemma steady_piece {A} O (m : M AsyncWorld js_error A) : tidy m -> steady O (piece m).
Proof.
  intros Hm s Hg _. destruct (Hm s Hg) as [H1 H2]. exists O. unfold piece. destruct (m s) as [r s'].
  split; [by apply moves_refl|]. by split.
Qed.

Lemma steady_wait {A} O ready (m : M AsyncWorld js_error A) :
  (forall s, ready s = true) -> tidy m ->
  steady O (wait_for ready m).
Proof.
  intros Hr Hm s Hg _. exists O. split; [by apply moves_refl|]. split; [done|]. split; [by left|].
  intros s' Hg'. apply (steady_piece O m Hm s' Hg' I).
Qed.

Lemma steady_pause O : steady O pause.
Proof. by apply steady_wait. Qed.

Lemma steady_attempt {A} O (m : P AsyncWorld js_error A) : steady O m -> steady (A := res A) O (attemptP m).
Proof.
  intros Hm s Hg _. destruct (Hm s Hg I) as (O' & H1 & H2 & H3). unfold attemptP. destruct (m s) as [x s1].
  cbn [fst snd] in *. exists O'. split; [done|]. split; [done|]. cbn [fst snd]. clear H1 H2 Hg Hm. revert O' s1 H3.
  induction x as [r|ready c IH] using run_ind; intros O' s1; [done|]. cbn [run_live run_attempt]. intros [Hw Hc].
  split; [done|]. intros s' Hg'. destruct (Hc s' Hg') as (O2 & H1 & H2 & H3). exists O2.
  specialize (IH s' O2 (c s').2 H3). destruct (c s') as [x' s2]. by split_and!.
Qed.

Lemma steady_catch {A} O (m : P AsyncWorld js_error A) h :
  steady O m -> (forall e, steady O (h e)) -> steady O (catchP m h).
Proof.
  intros Hm Hh. unfold catchP. apply steady_bind; [by apply steady_attempt|]. intros [a|e]; [apply steady_ret|apply Hh].
Qed.

(** ** Pieces *)

(** Writes that leave the window and the promises alone. *)
Definition window_view (w : World) : Z := ratchetWindowSize (ws w).

#[export] Instance window_view_frame : Frame_rel (same window_view).
Proof. split; [apply _|reflexivity..]. Qed.

Lemma good_base s w : window_in w -> good s -> good (s <| base := w |>).
Proof. intros Hw [H1 H2]. by split. Qed.

Lemma steady_onW {A} O (m : W A) : (forall w, window_in w -> window_in (m w).2) -> steady O (atW m).
Proof.
  intros Hm. apply steady_piece. intros s Hg. unfold onW, zoom. specialize (Hm (base s) (go_window _ Hg)).
  destruct (m (base s)) as [r w]. split; [by apply good_base|done].
Qed.

Lemma window_kept {A} (m : W A) w : keeps (same window_view) m -> window_in w -> window_in (m w).2.
Proof. intros Hm. unfold window_in. pose proof (Hm w) as E. unfold same, window_view in E. by rewrite E. Qed.

Lemma tidy_onW {A} (m : W A) : keeps (same window_view) m -> tidy (onW m).
Proof.
  intros Hm s Hg. unfold onW, zoom. pose proof (window_kept m (base s) Hm (go_window _ Hg)) as Hw.
  destruct (m (base s)) as [r w]. split; [by apply good_base|done].
Qed.

Lemma steady_atW {A} O (m : W A) : keeps (same window_view) m -> steady O (atW m).
Proof. intros Hm. by apply steady_piece, tidy_onW. Qed.

Lemma steady_getw {A} O (f : WorkerState -> A) : steady O (atW (getw f)).
Proof. apply steady_atW, keeps_gets, _. Qed.

Lemma steady_fail {A} O (r : res A) : steady O (failP r).
Proof. apply steady_piece. intros s Hg. by split. Qed.

Lemma steady_settles {A} O (r : res A) : steady O (settlesP r).
Proof. apply steady_bind; [apply steady_pause|]. intros _. apply steady_ret. Qed.

Lemma steady_if_pause O (b : bool) : steady O (if b then pause else mret tt).
Proof. destruct b; [apply steady_pause|apply steady_ret]. Qed.

(** Bookkeeping other than of promises. *)
Lemma tidy_book (f : AsyncWorld -> AsyncWorld) :
  (forall s, base (f s) = base s /\ promises (f s) = promises s /\ outcomes (f s) = outcomes s) -> tidy (modify f).
Proof.
  intros Hf s [H1 H2]. cbn [modify snd]. destruct (Hf s) as (E1 & E2 & E3).
  split; [|done]. split; [by rewrite E1|]. intros key id. unfold known. rewrite E2, E3. apply H2.
Qed.

Lemma steady_book O (f : AsyncWorld -> AsyncWorld) :
  (forall s, base (f s) = base s /\ promises (f s) = promises s /\ outcomes (f s) = outcomes s) ->
  steady O (atA (modify f)).
Proof. intros Hf. by apply steady_piece, tidy_book. Qed.

Lemma steady_fresh_id O : steady O (atA fresh_id).
Proof. apply steady_piece. by intros s [H1 H2]. Qed.

Lemma steady_entry_object O e : steady O (atA (entry_object e)).
Proof.
  apply steady_piece. intros s Hg. unfold entry_object. rewrite bind_gets. cbn beta.
  destruct (entry_ids s !! e); [by split|]. destruct Hg. by split.
Qed.

Lemma steady_window_object O e p : steady O (atA (window_object e p)).
Proof.
  apply steady_piece. intros s Hg. unfold window_object. rewrite bind_gets. cbn beta.
  destruct (window_ids s !! (e, p)); [by split|]. destruct Hg. by split.
Qed.

Lemma steady_advance_entry O e obj p next st : steady O (atA (advance_entry e obj p next st)).
Proof.
  apply steady_piece. intros s [H1 H2]. unfold advance_entry. rewrite bind_gets. cbn beta.
  destruct (entry_current s e obj); by split.
Qed.

Lemma steady_accept_object O e p obj c : steady O (atA (accept_object e p obj c)).
Proof.
  apply steady_piece. intros s Hg. unfold accept_object. rewrite bind_gets. cbn beta.
  destruct (bool_decide _); [|by split]. destruct Hg. by split.
Qed.

(** ** The retry *)

#[local] Hint Resolve keeps_emit keeps_emitMetric keeps_recordFailure keeps_recordSuccess
  keeps_getReplayWindow keeps_acceptReplay keeps_setFormatCache keeps_with_guard
  keeps_durable_available keeps_durable_check keeps_durable_accept keeps_note_replay
  keeps_note_key_invalid keeps_clearStarve keeps_noteStarveDrop keeps_drain_catch keeps_decode_catch : keeps.

Lemma push_window fid p : keeps (same window_view) (pushToQueue fid p).
Proof. apply pushToQueue_keeps; [apply _|]. reflexivity. Qed.

Lemma frame_window fid d : keeps (same window_view) (set_frame_data fid d).
Proof. apply keeps_modify. reflexivity. Qed.
Hint Resolve push_window frame_window : keeps.

Ltac steady_plain :=
  apply steady_atW; unfold refuse_stale, refuse_replay, refuse_invalid, enqueuePreEpoch, read_header, frame_of; keeps_auto.

Ltac steady_step :=
  lazymatch goal with
  | |- steady _ (mbind _ _) => apply steady_bind; [|intros ?]
  | |- steady _ (catchP _ _) => apply steady_catch; [|intros ?]
  | |- steady _ (attemptP _) => apply steady_attempt
  | |- steady _ (let _ := _ in _) => cbv zeta
  | |- steady _ (if _ then pause else mret tt) => apply steady_if_pause
  | |- steady _ (match ?x with _ => _ end) => destruct x
  | |- steady _ (mret _) => apply steady_ret
  | |- steady _ pause => apply steady_pause
  | |- steady _ (settlesP _) => apply steady_settles
  | |- steady _ (failP _) => apply steady_fail
  | |- steady _ (atW (getw _)) => apply steady_getw
  | |- steady _ (atW _) => solve [steady_plain]
  end.
Ltac steady_auto := repeat (first [steady_step | solve [eauto with steady]]).

(** The bound is tested with more fuel left than the window is wide. *)
Lemma steady_retry_steps O f step buf e obj p a form raw sa :
  (0 < f)%nat -> step + Z.of_nat f = Z.of_nat fuel + 1 ->
  steady O (retry_stepsP f step buf e obj p a form raw sa).
Proof.
  revert step raw. induction f as [|f IH]; intros step raw Hf Hstep; [lia|]. cbn [retry_stepsP].
  apply (live_bind _ _ (fun s O' _ => O' = O /\ 0 <= ratchetWindowSize s < Z.of_nat fuel)).
  - intros s Hg _. exists O. cbn. rewrite base_eta. split; [by apply moves_refl|]. split; [done|].
    split; [done|apply Hg].
  - intros s O'. apply (live_weaken _ (fun _ => O' = O /\ 0 <= ratchetWindowSize s < Z.of_nat fuel) _
      (fun _ O'' _ => O'' = O)); [done|done|]. intros s1 Hg [-> Hwin]. revert s1 Hg.
    enough (steady O (if ratchetWindowSize s <? step
      then atW (emitMetric (m_ratchet_retry e p (ratchetWindowSize s) false));;
           atW (throw (RatchetWindowExhaustedError e p (ratchetWindowSize s)))
      else
        derived ← settlesP (deriveNextSenderKey raw sa e p (suite s) (kidCodec s));
        next ← failP derived;
        s ← atW (getw id);
        opened ← settlesP (sframeDecrypt buf
                   (fun lk => if (lk_epoch lk =? e) && (lk_peerIndex lk =? p)
                              then Some (sframe_key next) else state_resolver s lk)
                   (mkMeta (Some (kidCodec s)) a (Some form)));
        match opened with
        | Ok plaintext =>
            atA (advance_entry e obj p next step);;
            atW (emitMetric (m_ratchet_retry e p step true));;
            mret plaintext
        | Throw _ => retry_stepsP f (step + 1) buf e obj p a form (rawKey next) sa
        end)) as Hs by (intros s1 Hg; by apply Hs).
    destruct (Z.ltb_spec (ratchetWindowSize s) step); [steady_auto|].
    steady_auto; [apply steady_advance_entry|apply IH; lia].
Qed.

Lemma steady_retryLoop O buf e obj p a form : (0 < fuel)%nat -> steady O (retryLoopP fuel buf e obj p a form).
Proof.
  intros Hf. unfold retryLoopP. steady_auto.
  - apply steady_piece. intros s Hg. by split.
  - apply steady_retry_steps; lia.
Qed.

Lemma live_promise_under key :
  live (fun _ => True) None (fun r O s => O = None /\ forall id, r = Ok (Some id) -> known s (key, id)) (promise_under key).
Proof.
  intros s Hg _. exists None. split; [by apply moves_refl|]. split; [done|]. split; [done|].
  intros id [= Hid]. by apply Hg.
Qed.

Lemma live_await key id : live (fun s => known s (key, id)) None (fun _ O _ => O = None) (await_promise key id).
Proof.
  intros s Hg Hk. exists None. split; [by apply moves_refl|]. split; [done|]. split.
  - right. split; [done|]. by exists (key, id).
  - intros s' Hg'. exists None. split; [by apply moves_refl|]. by split.
Qed.

(** Await a promise that was made, then go on. *)
Lemma live_await_bind {B} key id (k : res bytes -> P AsyncWorld js_error B) :
  (forall r, steady None (k r)) ->
  live (fun s => known s (key, id)) None (fun _ O _ => O = None) (await_promise key id ≫= k).
Proof.
  intros Hk. apply (live_bind _ _ (fun _ O _ => O = None)).
  - apply (live_weaken _ (fun s => known s (key, id)) _ (fun _ O _ => O = None)); [done| |apply live_await]. by intros [r|e] O s.
  - intros r O s Hg ->. by apply Hk.
Qed.

(** What a call does with the promise it finds. *)
Lemma steady_found {B} key (k : option nat -> P AsyncWorld js_error B) :
  steady None (k None) -> (forall id, live (fun s => known s (key, id)) None (fun _ O _ => O = None) (k (Some id))) ->
  steady None (promise_under key ≫= k).
Proof.
  intros Hnone Hsome. apply (live_bind _ _ (fun r O s => O = None /\ forall id, r = Some id -> known s (key, id))).
  - eapply live_weaken; [| |apply live_promise_under]; [done|]. intros [r|e] O s [-> Hr]; [|done]. split; [done|].
    intros id ->. by apply Hr.
  - intros [id|] O s Hg [-> Hr]; [|by apply Hnone]. apply Hsome; [done|by apply Hr].
Qed.

Lemma steady_step0 O b a f : steady O (decrypt_step0P b a f).
Proof. unfold decrypt_step0P. steady_auto. Qed.

(** The retry under a promise of its own: made, owed while the loop runs, settled. *)
Lemma steady_runRetryLoop key loop : (forall O, steady O loop) -> steady None (runRetryLoopP key loop).
Proof.
  intros Hl. unfold runRetryLoopP. apply steady_bind; [apply steady_fresh_id|]. intros id.
  apply (live_bind _ _ (fun _ O _ => O = Some (key, id))).
  - intros s [Hw Hk] _. exists (Some (key, id)). cbn. split; [|split; [|done]].
    + split; unfold known, unsettled; cbn; intros k.
      * rewrite lookup_insert_is_Some. intros Hk'. destruct (decide ((key, id) = k)); auto.
      * intros [[<- _]|[_ Hu]]%lookup_insert_Some; [by left|by right].
    + split; [exact Hw|]. unfold known. cbn. intros key' id'. rewrite lookup_insert_is_Some.
      intros [[<- <-]|[_ Hp]]%lookup_insert_Some; [by left|].
      destruct (decide ((key, id) = (key', id'))); [by left|right]. split; [done|by apply Hk].
  - intros _ O s Hg ->. revert s Hg. enough (live (fun _ => True) (Some (key, id)) (fun _ O' _ => O' = None)
      (outcome ← attemptP loop;
       atA (modify (fun s => s <| outcomes ::= <[(key, id) := Some outcome]> |>));;
       pause;;
       atA (modify (fun s => s <| promises ::= delete key |>));;
       atW (modify (fun w => w <| next_promise ::= S |>));;
       failP outcome)) as Hs by (intros s Hg; by apply Hs).
    apply (live_bind _ _ (fun _ O _ => O = Some (key, id))).
    { pose proof (steady_attempt (Some (key, id)) loop (Hl _)) as Ha. intros s Hg _.
      destruct (Ha s Hg I) as (O' & H1 & H2 & H3). exists O'. split; [done|]. split; [done|].
      eapply (run_live_weaken (fun r O'' _ => O'' = Some (key, id) /\ is_ok r = true)); [by intros [r|e] O'' s'' [-> ?]|].
      unfold attemptP in *. destruct (loop s) as [x s1]. cbn [fst snd] in *. clear H1 H2 Ha Hg. revert O' s1 H3.
      induction x as [r|ready c IH] using run_ind; intros O' s1; [by intros ->|]. cbn [run_live run_attempt].
      intros [Hw Hc]. split; [done|]. intros s' Hg'. destruct (Hc s' Hg') as (O2 & H1 & H2 & H3). exists O2.
      specialize (IH s' O2 (c s').2). destruct (c s') as [x' s2]. split; [done|]. split; [done|]. by apply IH. }
    intros outcome O s Hg ->. revert s Hg. enough (live (fun _ => True) (Some (key, id)) (fun _ O' _ => O' = None)
      (atA (modify (fun s => s <| outcomes ::= <[(key, id) := Some outcome]> |>));;
       pause;;
       atA (modify (fun s => s <| promises ::= delete key |>));;
       atW (modify (fun w => w <| next_promise ::= S |>));;
       failP outcome)) as Hs by (intros s Hg; by apply Hs).
    apply (live_bind _ _ (fun _ O _ => O = None)).
    + intros s [Hw Hk] _. exists None. cbn. split; [|split; [|done]].
      * split; unfold known, unsettled; cbn; intros k.
        -- rewrite lookup_insert_is_Some. intros Hk'. destruct (decide ((key, id) = k)); auto.
        -- intros [[_ ?]|[Hne Hu]]%lookup_insert_Some; [done|right]. split; [done|]. congruence.
      * split; [exact Hw|]. unfold known. cbn. intros key' id' Hp. rewrite lookup_insert_is_Some.
        destruct (decide ((key, id) = (key', id'))); [by left|right]. split; [done|by apply Hk].
    + intros _ O s Hg ->. revert s Hg. enough (steady None
        (pause;;
         atA (modify (fun s => s <| promises ::= delete key |>));;
         atW (modify (fun w => w <| next_promise ::= S |>));;
         failP outcome)) as Hs by (intros s Hg; by apply Hs).
      steady_auto; [|apply steady_atW, keeps_modify; reflexivity].
      apply steady_piece. intros s [Hw Hk]. split; [|done]. split; [exact Hw|]. cbn.
      intros key' id' [_ Hp]%lookup_delete_Some. by apply Hk.
Qed.

Lemma steady_tryDecrypt buf e p a form : (0 < fuel)%nat -> steady None (tryDecryptWithRatchetP fuel buf e p a form).
Proof.
  intros Hf. unfold tryDecryptWithRatchetP. apply steady_bind; [apply steady_getw|]. intros s.
  destruct (lookup_key s e p); [|apply steady_fail]. apply steady_bind; [apply steady_entry_object|]. intros entry.
  apply steady_bind; [apply steady_step0|]. intros [pt|err]; [apply steady_ret|].
  apply steady_bind; [apply steady_getw|]. intros size. destruct (_ =? _); [apply steady_fail|]. cbv zeta.
  assert (forall inFlight, steady None (
    second ← after_await (failureKey e p) inFlight;
    or_elseP second (runRetryLoopP (failureKey e p) (retryLoopP fuel buf e entry p a form)))) as Hrest.
  { intros inFlight. apply steady_bind.
    - unfold after_await. apply steady_found; [apply steady_ret|]. intros id. destruct (bool_decide _).
      + eapply live_weaken; [| |apply steady_ret]; done.
      + apply live_await_bind. intros r. apply steady_ret.
    - intros [pt|]; cbn [or_elseP]; [apply steady_ret|]. apply steady_runRetryLoop. intros O. by apply steady_retryLoop. }
  apply steady_found.
  - cbn [after_in_flight]. apply steady_bind; [apply steady_ret|]. intros [pt|]; [apply steady_ret|apply Hrest].
  - intros id. cbn [after_in_flight]. apply (live_bind _ _ (fun _ O _ => O = None)).
    + apply (live_weaken _ (fun s => known s (failureKey e p, id)) _ (fun _ O _ => O = None)); [done|by intros [r|err'] O s'|].
      apply live_await_bind. intros [pt|err']; [|apply steady_ret]. apply steady_bind; [apply steady_step0|].
      intros again. apply steady_ret.
    + intros [pt|] O s' Hg ->; [by apply steady_ret|by apply Hrest].
Qed.

(** ** Calls *)

Section Calls.
Context (fuel_pos : (0 < fuel)%nat).

Lemma steady_probe O payload cs : steady O (probeP payload cs).
Proof. induction cs as [|guess cs IH]; cbn [probeP]; steady_auto. Qed.
Hint Resolve steady_probe : steady.

Lemma steady_resolve O payload kind : steady O (resolveFormatP payload kind).
Proof. unfold resolveFormatP. steady_auto. Qed.
Hint Resolve steady_resolve steady_window_object steady_accept_object : steady.

Lemma steady_deliver fid payload g pr hdr e p obj : steady None (deliverP fuel fid payload g pr hdr e p obj).
Proof. unfold deliverP, openFrameP, durable_acceptP. steady_auto. by apply steady_tryDecrypt. Qed.
Hint Resolve steady_deliver : steady.

Lemma steady_gates fid payload g pr hdr e p : steady None (decode_gatesP fuel fid payload g pr hdr e p).
Proof. unfold decode_gatesP, durable_checkP. steady_auto. Qed.
Hint Resolve steady_gates : steady.

Lemma steady_guarded {A} O l (m : P AsyncWorld js_error A) : steady O m -> steady O (guarded l m).
Proof. intros Hm. unfold guarded. steady_auto. Qed.

Lemma steady_decode fid : steady None (decodeFrameP fuel fid).
Proof. unfold decodeFrameP. steady_auto; apply steady_guarded; steady_auto. Qed.
Hint Resolve steady_decode : steady.

Lemma steady_drain_each pending : steady None (drain_eachP fuel pending).
Proof. induction pending as [|fid pending IH]; cbn [drain_eachP]; [apply steady_ret|]. unfold drain_tryP, durable_checkP. steady_auto. Qed.
Hint Resolve steady_drain_each : steady.

Lemma steady_drain : steady None (drainPreEpochQueueP fuel).
Proof.
  unfold drainPreEpochQueueP. steady_auto; try (apply steady_atW; keeps_auto; apply keeps_modify; reflexivity).
  apply steady_book. by intros s.
Qed.

Lemma steady_encode fid kind : steady None (encodeFrameP fid kind).
Proof.
  unfold encodeFrameP. steady_auto; apply steady_atW; unfold encode_start, encode_finish; keeps_bookkeeping.
Qed.
Hint Resolve steady_encode : steady.

Lemma steady_transform side fid : steady None (transformP fuel side fid).
Proof.
  unfold transformP. steady_auto. apply steady_atW. unfold transform_rest, noteEncryptDrop. keeps_bookkeeping.
Qed.

Lemma install_window e self b : keeps (same window_view) (installEpoch e self b).
Proof. unfold installEpoch. keeps_bookkeeping. Qed.

Lemma steady_install e self b : steady None (atA (installA e self b)).
Proof.
  apply steady_piece. unfold installA. apply tidy_bind; [apply tidy_gets|intros old].
  apply tidy_bind; [apply tidy_onW, install_window|intros _]. apply tidy_book. by intros s.
Qed.

Lemma timer_window e : keeps (same window_view) (fireWipeTimer e).
Proof. unfold fireWipeTimer, wipeEpoch. keeps_bookkeeping. Qed.

Lemma steady_timer e : steady None (atA (timerA e)).
Proof.
  apply steady_piece. unfold timerA. apply tidy_bind; [apply tidy_gets|intros due].
  apply tidy_bind; [apply tidy_gets|intros old]. apply tidy_bind; [apply tidy_onW, timer_window|intros _].
  destruct due; [|by intros s Hg]. apply tidy_bind; [|intros _]; apply tidy_book; by intros s.
Qed.

Lemma steady_teardown : steady None (atA teardownA).
Proof.
  apply steady_piece. intros s [Hw Hk]. unfold teardownA. rewrite !bind_modify. split; [|done].
  split; [exact Hw|]. intros key id. cbn. by intros ?%lookup_empty_Some.
Qed.

Lemma window_set n w :
  Z.max 0 n < Z.of_nat fuel -> window_in w -> window_in (setw (fun s => s <| ratchetWindowSize := Z.max 0 n |>) w).2.
Proof. intros Hn _. split; [apply Z.le_max_l|exact Hn]. Qed.

Lemma steady_message msg : window_below fuel (ev_message msg) -> steady None (onmessageP fuel msg).
Proof.
  intros Hwin. unfold onmessageP. apply steady_catch; [|intros err; apply steady_atW, keeps_emit, _].
  destruct msg; cbn [handleMessageP]; try (apply steady_atW; unfold handleMessage; keeps_bookkeeping).
  - apply steady_bind; [apply steady_install|intros _; apply steady_drain].
  - apply steady_bind; [apply steady_install|intros _; apply steady_drain].
  - apply steady_onW. intros w. by apply window_set.
  - apply steady_bind; [apply steady_atW; unfold handleMessage; keeps_bookkeeping|]. intros _. apply steady_book. by intros s.
  - apply steady_teardown.
Qed.

(** ** Configurations *)

Definition ends_free : res unit -> option Promise -> AsyncWorld -> Prop := fun _ O _ => O = None.

(** Each call with what it owes, and every promise that has not settled is owed. *)
Definition owing (c : Config) (debts : list (option Promise)) : Prop :=
  Forall2 (fun O t => run_live ends_free (t_run t) O (shared c)) debts (tasks c) /\
  forall k, unsettled (shared c) k -> Some k ∈ debts.

Definition live_config (c : Config) : Prop := good (shared c) /\ exists debts, owing c debts.

Lemma waits_mono O ready s s' : (forall k, known s k -> known s' k) -> waits O ready s -> waits O ready s'.
Proof. intros Hk [Hr|(HO & k & Hks & Hr)]; [by left|right]. split; [done|]. exists k. auto. Qed.

Lemma run_live_mono x O s s' :
  (forall k, known s k -> known s' k) -> run_live ends_free x O s -> run_live ends_free x O s'.
Proof. intros Hk. destruct x as [r|ready c]; [done|]. intros [Hw Hc]. split; [by eapply waits_mono|done]. Qed.

Lemma spawn_live pipe m c : steady None m -> live_config c -> live_config (spawn pipe m c).
Proof.
  intros Hm [Hg (debts & Hl & Hu)]. destruct (Hm (shared c) Hg I) as (O & [H1 H2] & H3 & H4). unfold spawn.
  destruct (m (shared c)) as [x s]. cbn [fst snd] in *. split; [exact H3|]. exists (debts ++ [O]). split.
  - apply Forall2_app; [|by constructor]. eapply Forall2_impl; [exact Hl|]. intros O' t. by apply run_live_mono.
  - intros k Hk. apply elem_of_app. destruct (H2 k Hk) as [->|[Hk' _]]; [right; by left|left; by apply Hu].
Qed.

Lemma advance_live i c : live_config c -> live_config (advance i c).
Proof.
  intros [Hg (debts & Hl & Hu)]. unfold advance.
  destruct (tasks c !! i) as [[pipe [r|ready k]]|] eqn:Ei; [by split; [|exists debts]|idtac|by split; [|exists debts]].
  destruct (ready (shared c)); [|by split; [|exists debts]].
  destruct (Forall2_lookup_r _ _ _ _ _ Hl Ei) as (O & HO & _ & Hk). destruct (Hk (shared c) Hg) as (O' & [H1 H2] & H3 & H4).
  destruct (k (shared c)) as [x s]. cbn [fst snd] in *. split; [exact H3|]. exists (<[i := O']> debts). split.
  - apply Forall2_insert; [|exact H4]. eapply Forall2_impl; [exact Hl|]. intros O2 t. by apply run_live_mono.
  - intros k' Hk'. assert (i < length debts)%nat as Hi by (by eapply lookup_lt_Some). destruct (H2 k' Hk') as [->|[Hk2 Hne]].
    + by apply list_elem_of_insert.
    + specialize (Hu k' Hk2). apply list_elem_of_lookup in Hu as [j Hj]. apply (list_elem_of_lookup_2 _ j).
      rewrite list_lookup_insert_ne; [done|]. intros ->. rewrite HO in Hj. congruence.
Qed.

Lemma redrain_live c : live_config c -> live_config (redrain fuel c).
Proof.
  intros [Hg (debts & Hl & Hu)]. unfold redrain. destruct (drain_wanted (shared c)); [|by split; [|exists debts]].
  apply spawn_live; [apply steady_drain|]. split; [by destruct Hg|]. exists debts. split; [|exact Hu].
  eapply Forall2_impl; [exact Hl|]. intros O t. by apply run_live_mono.
Qed.

(** The windows that messages set are below the fuel. *)
Definition race_window_below (ev : RaceEvent) : Prop :=
  match ev with Message msg => window_below fuel (ev_message msg) | _ => True end.

Lemma config_live c ev : race_window_below ev -> live_config c -> live_config (config_step fuel c ev).
Proof.
  intros Hwin Hc. unfold config_step. apply redrain_live. destruct ev as [pipe fid frame|i|msg|side|epoch|ms]; cbn [event_call].
  - destruct (_ !! _) as [side|]; [|exact Hc]. destruct (_ || _); [exact Hc|]. apply spawn_live; [|exact Hc].
    unfold arriveP. apply steady_bind; [apply steady_atW, keeps_modify; reflexivity|]. intros _. apply steady_transform.
  - by apply advance_live.
  - apply spawn_live; [by apply steady_message|exact Hc].
  - apply spawn_live; [|exact Hc]. apply steady_atW. unfold onrtctransform. keeps_bookkeeping.
  - apply spawn_live; [apply steady_timer|exact Hc].
  - apply spawn_live; [|exact Hc]. apply steady_atW, keeps_modify. reflexivity.
Qed.

Lemma race_live c evs : Forall race_window_below evs -> live_config c -> live_config (run_race fuel c evs).
Proof.
  intros Hevs. revert c. induction Hevs as [|ev evs Hev Hevs IH]; intros c Hc; [exact Hc|]. cbn. by apply IH, config_live.
Qed.

(** The call [i] can go on. *)
Definition can_go (c : Config) (i : nat) : Prop :=
  exists pipe ready k, tasks c !! i = Some (mkTask pipe (Waiting ready k)) /\ ready (shared c) = true.

(** A call that waits can go on, or the call that makes what it waits for can. *)
Lemma live_can_go c i t :
  live_config c -> tasks c !! i = Some t -> waiting (t_run t) = true -> can_go c i \/ exists j, can_go c j.
Proof.
  intros [Hg (debts & Hl & Hu)] Hi Hw. destruct t as [pipe [r|ready k]]; [done|].
  destruct (Forall2_lookup_r _ _ _ _ _ Hl Hi) as (O & HO & [Hr|(-> & p & Hp & Hr)] & _); [left; by exists pipe, ready, k|].
  destruct (ready (shared c)) eqn:Er; [left; by exists pipe, ready, k|right]. rewrite Hr in Er.
  apply bool_decide_eq_false in Er. destruct Hp as [o Ho]. destruct o as [r|].
  { destruct Er. unfold settlement. rewrite Ho. by eexists. }
  specialize (Hu p Ho). apply list_elem_of_lookup in Hu as [j Hj].
  destruct (Forall2_lookup_l _ _ _ _ _ Hl Hj) as ([pipe' [r'|ready' k']] & Ht & Hlive); cbn in Hlive; [done|].
  destruct Hlive as [[Hready|[? _]] _]; [|done]. exists j, pipe', ready', k'. by split.
Qed.

End Calls.

(** ** Calls end *)

(** What is left of a call after one more piece. *)
Definition resumes {A} (y x : Run AsyncWorld js_error A) : Prop :=
  exists ready c s, x = Waiting ready c /\ y = (c s).1.

Lemma resumes_acc {A} (x : Run AsyncWorld js_error A) : Acc resumes x.
Proof.
  induction x as [r|ready c IH] using run_ind; constructor; intros y (ready' & c' & s & [= <- <-] & ->). apply IH.
Qed.

(** One of several calls has gone on. *)
Definition one_resumes (l' l : list (Run AsyncWorld js_error unit)) : Prop :=
  exists i x y, l !! i = Some x /\ resumes y x /\ l' = <[i := y]> l.

Lemma one_resumes_cons x l : Acc resumes x -> Acc one_resumes l -> Acc one_resumes (x :: l).
Proof.
  intros Hx. revert l. induction Hx as [x _ IHx]. intros l Hl. induction Hl as [l Hl IHl].
  constructor. intros l' ([|i] & a & b & Hi & Hr & ->); cbn in *.
  - injection Hi as <-. apply IHx; [exact Hr|by constructor].
  - apply IHl. by exists i, a, b.
Qed.

Lemma one_resumes_acc l : Acc one_resumes l.
Proof.
  induction l as [|x l IH]; [|apply one_resumes_cons; [apply resumes_acc|exact IH]].
  constructor. by intros l' (i & a & b & Hi & _).
Qed.

(** The drains that are still to be started. *)
Definition drains_due (s : AsyncWorld) : nat :=
  Nat.b2n (pendingDrain (ws (base s))) + Nat.b2n (drain_wanted s).

Definition due_le : relation AsyncWorld := fun s s' => (drains_due s' <= drains_due s)%nat.

#[export] Instance due_preorder : PreOrder due_le.
Proof. unfold due_le. split; [intros s; lia|intros s1 s2 s3; lia]. Qed.

Lemma guard_same_due s s' : guard_same s s' -> due_le s s'.
Proof. unfold guard_same, same, guard_of, drain_flags, due_le, drains_due. intros [= E1 E2 E3]. by rewrite E2, E3. Qed.

Lemma rest_keeps_due {A} (x : Run AsyncWorld js_error A) : rest_keeps guard_same x -> rest_keeps due_le x.
Proof.
  induction x as [r|ready c IH] using run_ind; [done|]. intros Hx s. destruct (Hx s) as [H1 H2].
  split; [by apply guard_same_due|by apply IH].
Qed.

Lemma keepsP_due {A} (m : P AsyncWorld js_error A) : keepsP guard_same m -> keepsP due_le m.
Proof. intros Hm s. destruct (Hm s) as [H1 H2]. split; [by apply guard_same_due|by apply rest_keeps_due]. Qed.

(** A call may ask for a drain in its first piece only. *)
Definition anyhow : relation AsyncWorld := fun _ _ => True.
Definition asks_first (m : P AsyncWorld js_error unit) : Prop := firstP anyhow due_le m.

Lemma keeps_asks (m : P AsyncWorld js_error unit) : keepsP guard_same m -> asks_first m.
Proof. intros Hm s. destruct (keepsP_due m Hm s). by split. Qed.

Lemma drain_finally_due : keepsP due_le drain_finally.
Proof.
  intros s. rewrite drain_finally_run. split; [|done]. unfold due_le, drains_due. cbn.
  destruct (pendingDrain (ws (base s))) eqn:E; cbn; [|rewrite E]; destruct (drain_wanted s); cbn; lia.
Qed.

Lemma drain_asks : asks_first (drainPreEpochQueueP fuel).
Proof.
  intros s. rewrite drain_run. destruct (draining _); [by split|].
  pose proof (keepsP_due _ (pieces_drain_each (same drain_flags) guard_same fuel (preEpochQueue (ws (base s))))) as Hd.
  destruct (keepsP_bind due_le _ (fun _ => drain_finally) Hd (fun _ => drain_finally_due) (drain_opens s)) as [_ H2].
  by split.
Qed.

Lemma drain_due_rest s : at_rest s -> drain_wanted s = false -> drains_due (drainPreEpochQueueP fuel s).2 = 0%nat.
Proof.
  intros Hr Hw. injection Hr as Hd Hp. rewrite drain_run, Hd.
  pose proof (keepsP_due _ (pieces_drain_each (same drain_flags) guard_same fuel (preEpochQueue (ws (base s))))) as Hk.
  destruct (keepsP_bind due_le _ (fun _ => drain_finally) Hk (fun _ => drain_finally_due) (drain_opens s)) as [H1 _].
  assert (drains_due (drain_opens s) = 0%nat) as E.
  { unfold drains_due, drain_opens. cbn. by rewrite Hp, Hw. }
  unfold due_le in H1. lia.
Qed.

Lemma then_asks (m : M AsyncWorld js_error unit) k : asks_first k -> asks_first (atA m;; k).
Proof.
  intros Hk s. unfold mbind, P_bind, atA, piece. destruct (m s) as [[[]|err] s1]; [|by split].
  destruct (Hk s1). by split.
Qed.

Lemma message_asks msg : asks_first (onmessageP fuel msg).
Proof.
  unfold onmessageP. apply firstP_catch; [apply _|done| |].
  2: { intros err. apply keepsP_due, drain_flags_atW, keeps_emit, _. }
  destruct msg; cbn [handleMessageP].
  2-3: apply then_asks, drain_asks.
  all: try (apply keeps_asks, drain_flags_atW; unfold handleMessage; keeps_bookkeeping).
  - apply keeps_asks. pieces_auto; [apply drain_flags_atW; unfold handleMessage; keeps_bookkeeping|].
    apply keepsP_piece, keeps_modify. by intros s.
  - apply keeps_asks, keepsP_piece, teardown_guard.
Qed.

(** The invariants of a run from a worker at rest. *)
Record running_well (c : Config) : Prop := {
  rw_live : live_config c;
  rw_guarded : guarded_calls c;
  rw_wanted : drain_wanted (shared c) = false;
  rw_due : calls_keep due_le c
}.

Lemma spawn_due pipe m c : asks_first m -> calls_keep due_le c -> calls_keep due_le (spawn pipe m c).
Proof. intros Hm Hc. by apply (spawn_keeps anyhow). Qed.

Lemma redrain_due c : calls_keep due_le c -> calls_keep due_le (redrain fuel c).
Proof. intros Hc. unfold redrain. destruct (drain_wanted _); [|done]. apply spawn_due; [apply drain_asks|exact Hc]. Qed.

Lemma config_due c ev : calls_keep due_le c -> calls_keep due_le (config_step fuel c ev).
Proof.
  intros Hc. unfold config_step. apply redrain_due. destruct ev as [pipe fid frame|i|msg|side|epoch|ms]; cbn [event_call].
  - destruct (_ !! _) as [side|]; [|exact Hc]. destruct (_ || _); [exact Hc|]. apply spawn_due; [|exact Hc].
    apply keeps_asks. unfold arriveP. pieces_auto; [|apply transform_guard]. apply drain_flags_atW, keeps_modify. by intros w.
  - by apply (advance_keeps due_le).
  - apply spawn_due; [apply message_asks|exact Hc].
  - apply spawn_due; [|exact Hc]. apply keeps_asks, drain_flags_atW. unfold onrtctransform. keeps_bookkeeping.
  - apply spawn_due; [|exact Hc]. apply keeps_asks, keepsP_piece, timer_guard.
  - apply spawn_due; [|exact Hc]. apply keeps_asks, drain_flags_atW, keeps_modify. by intros w.
Qed.

Lemma good_fuel s : good s -> (0 < fuel)%nat.
Proof. intros [[H1 H2] _]. lia. Qed.

Lemma config_well c ev : race_window_below ev -> running_well c -> running_well (config_step fuel c ev).
Proof.
  intros Hwin [H1 H2 H3 H4]. destruct (config_guarded fuel c ev H3 H2) as [H5 H6].
  split; [apply config_live; [eapply good_fuel, (proj1 H1)|done..]|done|done|by apply config_due].
Qed.

Lemma race_well c evs : Forall race_window_below evs -> running_well c -> running_well (run_race fuel c evs).
Proof.
  intros Hevs. revert c. induction Hevs as [|ev evs Hev Hevs IH]; intros c Hc; [exact Hc|]. cbn. by apply IH, config_well.
Qed.

Lemma flight_can_go c : running_well c -> flight c = true -> exists i, can_go c i.
Proof.
  intros Hc Hf. apply existsb_exists in Hf as (t & Ht & Hw). apply list_elem_of_In, list_elem_of_lookup in Ht as [i Hi].
  destruct (live_can_go c i t (rw_live _ Hc) Hi Hw) as [?|?]; [by exists i|done].
Qed.

(** Going on uses up a call, or starts a drain that was due. *)
Lemma advance_uses c i :
  running_well c -> can_go c i ->
  let c' := config_step fuel c (Advance i) in
  (drains_due (shared c') < drains_due (shared c))%nat \/
  ((drains_due (shared c') <= drains_due (shared c))%nat /\ one_resumes (map t_run (tasks c')) (map t_run (tasks c))).
Proof.
  intros Hc (pipe & ready & k & Hi & Hr). cbv zeta. unfold config_step.
  destruct (advance_keeps due_le i c (rw_due _ Hc)) as [Hle _].
  pose proof (advance_guarded i c (rw_wanted _ Hc) (rw_guarded _ Hc)) as Hg.
  assert (one_resumes (map t_run (tasks (advance i c))) (map t_run (tasks c))) as Hone.
  { unfold advance. rewrite Hi, Hr. destruct (k (shared c)) as [x s] eqn:Ek. cbn.
    exists i, (Waiting ready k), x. split; [by rewrite list_lookup_fmap, Hi|]. split.
    - exists ready, k, (shared c). by rewrite Ek.
    - by rewrite list_fmap_insert. }
  unfold redrain. destruct (drain_wanted (shared (advance i c))) eqn:Hw; [left|by right].
  destruct Hg as [[Hrest _]|[[_ Hw'] _]]; [|congruence].
  assert (0 < drains_due (shared (advance i c)))%nat as Hpos by (unfold drains_due; rewrite Hw; cbn; lia).
  enough (drains_due (shared (spawn None (drainPreEpochQueueP fuel)
    (mkConfig ((shared (advance i c)) <| drain_wanted := false |>) (tasks (advance i c))))) = 0)%nat as -> by (unfold due_le in Hle; lia).
  unfold spawn. cbn [shared]. set (s1 := _ <| drain_wanted := false |>).
  pose proof (drain_due_rest s1 Hrest eq_refl) as E. by destruct (drainPreEpochQueueP fuel s1).
Qed.

Lemma calls_end n c :
  running_well c -> (drains_due (shared c) <= n)%nat ->
  exists turns, flight (run_race fuel c (map Advance turns)) = false.
Proof.
  revert c. induction n as [n IHn] using lt_wf_ind. intros c. remember (map t_run (tasks c)) as l eqn:El.
  revert c El. induction (one_resumes_acc l) as [l _ IHl]. intros c -> Hc Hn.
  destruct (flight c) eqn:Hf; [|by exists []]. destruct (flight_can_go c Hc Hf) as [i Hi].
  pose proof (config_well c (Advance i) I Hc) as Hc'.
  destruct (advance_uses c i Hc Hi) as [Hlt|[Hle Hone]].
  - destruct (IHn (drains_due (shared (config_step fuel c (Advance i))))) with (c := config_step fuel c (Advance i))
      as [turns Hturns]; [lia|done|done|]. by exists (i :: turns).
  - destruct (IHl _ Hone (config_step fuel c (Advance i)) eq_refl Hc') as [turns Hturns]; [lia|]. by exists (i :: turns).
Qed.

End Progress.

(** ** Properties *)

(** C9. No call waits for ever. From a worker at rest, whatever messages, frames, timers and
    resumptions come, teardowns included, as long as the retry windows stay below the fuel: when
    calls are in flight, one of them can go on (a call that waits for the retry of another waits
    for a promise that a call in flight makes, and that call waits for nobody), and there is an
    order in which the calls in flight, with the drains they still ask for, all come to an end. *)
Theorem no_call_waits_for_ever `{WebCrypto} (fuel : nat) (s : AsyncWorld) (evs : list RaceEvent)
    (Hrest : at_rest s) (Hwanted : drain_wanted s = false) (Hpromises : promises s = ∅ /\ outcomes s = ∅)
    (Hwindow : window_in fuel (base s)) (Hevs : Forall (race_window_below fuel) evs) :
  let c := run_race fuel (mkConfig s []) evs in
  (flight c = true -> exists i, can_go c i) /\
  exists turns, flight (run_race fuel c (map Advance turns)) = false.
Proof.
  cbv zeta. assert (running_well fuel (run_race fuel (mkConfig s []) evs)) as Hc.
  { apply race_well; [done|]. destruct Hpromises as [E1 E2]. split; [|by left; split; [|constructor]|done|constructor].
    split; [split; [done|]|].
    - intros key id. cbn. rewrite E1. by intros ?%lookup_empty_Some.
    - exists []. split; [constructor|]. intros k. unfold unsettled. cbn. rewrite E2. by intros ?%lookup_empty_Some. }
  split; [by apply (flight_can_go fuel)|]. by eapply calls_end.
Qed.

(** Two frames of one sender, both one step ahead; the second waits for the first one's retry. *)
Definition demo_wait_wire : bytes :=
  match lookup_key (ws demo_receiver) 1 0 with
  | Some k0 =>
      match (k1 ← deriveNextSenderKey (rawKey k0) (salt k0) 1 0 (suite (ws demo_receiver)) FIXED_KID_CODEC;
             sframeEncrypt demo_data (sframe_key k1) 7 None aad_header) with
      | Ok b => b
      | Throw _ => []
      end
  | None => []
  end.

Definition demo_waiting : list (RaceEvent (H := toy)) :=
  [Message (EpochMsg 1 1 (demo_bundles 1)); Message (StreamsMsg side_decode None); Message (StreamsMsg side_decode None);
   Arrive 0 0 (mkFrame demo_wait_wire None); Arrive 1 1 (mkFrame demo_wait_wire None)] ++
  replicate 4 (Advance 3) ++ replicate 4 (Advance 4).

Lemma no_call_waits_for_ever_witness :
  let c := run_race 9 (mkConfig (quiet initial_world) []) demo_waiting in
  flight c = true /\ (exists i, can_go c i) /\ exists turns, flight (run_race 9 c (map Advance turns)) = false.
Proof.
  cbv zeta. assert (flight (run_race 9 (mkConfig (quiet initial_world) []) demo_waiting) = true) as Hf
    by (vm_compute; reflexivity).
  destruct (no_call_waits_for_ever 9 (quiet initial_world) demo_waiting) as [Hgo Hend].
  - vm_compute. reflexivity.
  - reflexivity.
  - by split.
  - split; [apply Z.leb_le|apply Z.ltb_lt]; vm_compute; reflexivity.
  - repeat constructor.
  - split; [exact Hf|]. split; [exact (Hgo Hf)|exact Hend].
Defined.
