(* ===== verification/WorkerOverlap.v ===== *)
(** * WorkerOverlap: what overlapping calls of decodeFrame can do (WorkerRace)

    Runs of the event loop in which several pipes carry frames of one sender: the retry that
    returns what another call has opened, and the copy of a frame that passes the replay gate
    because the first has not been accepted yet. *)
From S2P Require Import Prelude StateLogic Async Errors Internal Header Kid WebCrypto Toy Crypto SFrame Codec Replay.
From S2P Require Import WorkerTypes WorkerState WorkerFrame Worker WorkerLogic WorkerRatchet Demo.
From S2P Require Import WorkerAsync WorkerSerial WorkerRace.
From Stdlib Require Import Strings.Byte.
#[local] Open Scope Z_scope.

(** A frame of peer 0 in epoch 1, sealed [step] ratchet steps ahead of the installed key. *)
Definition demo_step_frame (step : nat) (ctr : Z) (data : bytes) : Frame :=
  let wire := match lookup_key (ws demo_receiver) 1 0 with
              | Some k0 => k ← ratchet_key (ws demo_receiver) 1 0 k0 step;
                           sframeEncrypt data (sframe_key k) ctr None aad_header
              | None => Ok []
              end in
  mkFrame (match wire with Ok b => b | Throw _ => [] end) (Some "key"%string).

Definition text_a : bytes := [x61; x61; x61].
Definition text_b : bytes := [x62; x62; x62].
Definition text_c : bytes := [x63; x63; x63].

(** The receiver in epoch 1 with [n] pipes that decode; its calls are 0 to [n]. *)
Definition demo_pipes (n : nat) : list (RaceEvent (H := toy)) :=
  Message (EpochMsg 1 1 (demo_bundles 1)) :: replicate n (Message (StreamsMsg side_decode None)).

Definition demo_run (evs : list (RaceEvent (H := toy))) : Config (H := toy) :=
  run_race 9 (mkConfig (quiet initial_world) []) evs.

Definition advances (i n : nat) : list (RaceEvent (H := toy)) := replicate n (Advance i).

(** What frame [fid] holds. *)
Definition holds (fid : nat) (c : Config (H := toy)) : bytes := data_of fid (base (shared c)).

Definition delivered (c : Config (H := toy)) : list nat := enqueued (base (shared c)).

(** What decodeFrame says of a frame that comes after the run. *)
Definition comes_again (f : Frame) (c : Config (H := toy)) : res unit :=
  (decodeFrame 3 (with_frame 3 (frame_data f) (base (shared c)))).1.

(** Call 4 opens its frame at step 1 while calls 5 and 6 wait for it; both are at step 2, and both
    find the key still short of theirs. Call 5 starts to derive before call 6 looks again. *)
Definition overlap_events : list (RaceEvent (H := toy)) :=
  demo_pipes 3 ++
  [Arrive 0 0 (demo_step_frame 1 7 text_a); Arrive 1 1 (demo_step_frame 2 8 text_b);
   Arrive 2 2 (demo_step_frame 2 9 text_c)] ++
  advances 4 4 ++ advances 5 4 ++ advances 6 4 ++ advances 4 5 ++
  advances 5 2 ++ advances 6 2 ++ advances 5 3 ++ advances 6 1.

(** The format of the sender is known; then the same frame comes on two pipes. *)
Definition copies_events : list (RaceEvent (H := toy)) :=
  demo_pipes 2 ++
  [Arrive 0 0 (demo_step_frame 0 1 text_a)] ++ advances 3 4 ++
  [Arrive 0 1 (demo_step_frame 0 2 text_b); Arrive 1 2 (demo_step_frame 0 2 text_b)] ++
  advances 4 4 ++ advances 5 4.

(** ** Properties *)

(** A frame can be delivered with the contents of another: when three frames of one sender are
    decrypted at once and two of them lie beyond the key that the first one found, the second
    ratchets for itself and the third returns the second one's plaintext as its own
    (tryDecryptWithRatchet returns what the promise of the other call resolved to). Its own counter
    is then taken for seen, so that its real contents are refused as a replay afterwards. *)
Theorem overlapping_retry_mixes_frames :
  let c := demo_run overlap_events in
  delivered c = [0; 1; 2]%nat /\ holds 0 c = text_a /\ holds 1 c = text_b /\
  holds 2 c = text_b /\ text_b <> text_c /\
  comes_again (demo_step_frame 2 9 text_c) c = Throw (ReplayError 1 0 9).
Proof.
  cbv zeta. split; [vm_compute; reflexivity|].
  split; [vm_compute; reflexivity|]. split; [vm_compute; reflexivity|]. split; [vm_compute; reflexivity|].
  split; [discriminate|]. vm_compute. reflexivity.
Qed.

(** A copy that is in flight with its original is delivered too: the replay gate is passed before
    the decryption is awaited and the counter is recorded after it, so the same bytes on two pipes
    both pass, though a copy that comes once they are through is refused. *)
Theorem overlapping_copies_both_delivered :
  let c := demo_run copies_events in
  delivered c = [0; 1; 2]%nat /\ holds 1 c = text_b /\ holds 2 c = text_b /\
  comes_again (demo_step_frame 0 2 text_b) c = Throw (ReplayError 1 0 2).
Proof.
  cbv zeta. split; [vm_compute; reflexivity|]. split; [vm_compute; reflexivity|]. split; vm_compute; reflexivity.
Qed.
