(* ===== verification/Cryptor.v ===== *)
(** * Cryptor: the main-thread side of the frame cryptor (src/frame-cryptor.ts)

    [CryptorWorld] is a [FrameCryptor] with what it reaches: the browser, the transforms installed
    on senders and receivers (named by numbers), what its worker has been sent, in order, and what
    the application was told. The RTCRtpScriptTransform that the browser accepts reaches the worker
    as its [rtctransform] event. [setEpoch] waits for the key derivation; [beginEpoch] is what it
    does before and [postEpoch] what it does after, and between the two [CryptorEvent]s of a run
    any other method may be called. *)
From S2P Require Import Prelude StateLogic Keys Errors Internal Header Kid PeerMap WebCrypto Toy Crypto.
From S2P Require Import SFrame Codec Replay Fips WorkerTypes WorkerState WorkerFrame Worker.
#[local] Open Scope Z_scope.

(** What the browser offers; [endpoint_streams] is [None] where an endpoint has no
    [createEncodedStreams], and otherwise whether the call succeeds. *)
Record Browser := mkBrowser {
  has_script_transform : bool;
  has_encoded_streams : bool;
  accepts_worker : nat -> bool;
  endpoint_streams : nat -> option bool;
  worker_listens : bool
}.

Record SFrameSupport := mkSupport { native : bool; fallback : bool }.

Definition supportsSFrame (b : Browser) : SFrameSupport :=
  {| native := has_script_transform b; fallback := has_encoded_streams b |}.

(** A field of a message from the worker. *)
Inductive jsval :=
| v_undefined
| v_number (n : Z)
| v_string (s : string)
| v_other.

#[export] Instance jsval_eq_dec : EqDecision jsval.
Proof. solve_decision. Defined.

(** [ev.data] *)
Record WorkerData := mkData {
  d_type : jsval;
  d_epoch : jsval;
  d_peerIndex : jsval;
  d_framesDropped : jsval;
  d_sinceMs : jsval;
  d_detail : jsval
}.

(** What the callbacks of the application receive. *)
Inductive Notice :=
| n_epoch_applied (epoch : Z)
| n_decrypt_starved (peerIndex : option Z) (framesDropped sinceMs : Z)
| n_worker_error (detail : string).

(** An entry of [attached]: a native transform to reset, or streams with nothing to do. *)
Inductive Attachment :=
| NativeTransform (endpoint : nat)
| EncodedStreams.

Record FrameCryptorOptions := mkCryptorOptions {
  fo_role : Role;
  fo_peerId : string;
  fo_peerIndex : Z;
  fo_suite : option CipherSuite;
  fo_onEpochApplied : bool;
  fo_onDecryptStarved : bool;
  fo_onWorkerError : bool;
  fo_preEpochQueueCap : option jsnum;
  fo_kidFormat : option KidFormat;
  fo_mlsConfig : option MlsKidConfig;
  fo_allowTransitOnly : bool
}.

Record EpochParams := mkEpochParams {
  ep_epoch : Z;
  ep_peerIndexMap : list (string * Z);
  ep_chainKey : bytes
}.

Record FrameCryptor := mkCryptor {
  fc_opts : FrameCryptorOptions;
  fc_suite : CipherSuite;
  currentPeerIndex : Z;
  attached : list Attachment;
  initialised : bool;
  transitOnly : bool;
  _kidCodec : KidCodec;
  appliedEpoch : Z;
  workerListener : bool
}.

#[export] Instance eta_cryptor : Eta FrameCryptor := fun r =>
  mkCryptor (fc_opts r) (fc_suite r) (currentPeerIndex r) (attached r) (initialised r) (transitOnly r)
    (_kidCodec r) (appliedEpoch r) (workerListener r).

Section Cryptor.
Context `{WebCrypto}.

Record CryptorWorld := mkCryptorWorld {
  fc : FrameCryptor;
  browser : Browser;
  transforms : gmap nat Side;
  to_worker : list Event;
  notices : list Notice;
  fc_console : list string
}.

#[export] Instance eta_cryptor_world : Eta CryptorWorld := fun r =>
  mkCryptorWorld (fc r) (browser r) (transforms r) (to_worker r) (notices r) (fc_console r).

Abbreviation FM := (M CryptorWorld js_error).

Definition setc (f : FrameCryptor -> FrameCryptor) : FM unit := modify (fun w => w <| fc ::= f |>).
Definition optc {A} (f : FrameCryptorOptions -> A) : FM A := gets (fun w => f (fc_opts (fc w))).

Definition to_the_worker (ev : Event) : FM unit := modify (fun w => w <| to_worker ::= fun l => l ++ [ev] |>).
Definition postMessage (msg : InMsg) : FM unit := to_the_worker (ev_message msg).
Definition notify (wanted : FrameCryptorOptions -> bool) (n : Notice) : FM unit :=
  on ← optc wanted;
  if on : bool then modify (fun w => w <| notices ::= fun l => l ++ [n] |>) else mret tt.
Definition log (line : string) : FM unit := modify (fun w => w <| fc_console ::= fun l => l ++ [line] |>).

(** ** Construction *)

Definition newFrameCryptor (active : FipsState) (b : Browser) (opts : FrameCryptorOptions)
    : res CryptorWorld :=
  let suite := default DEFAULT_CIPHER_SUITE (fo_suite opts) in
  assertSuiteAllowed active suite;;
  codec ← makeKidCodec (fo_kidFormat opts) (fo_mlsConfig opts);
  let support := supportsSFrame b in
  let transitOnly := negb (native support) && negb (fallback support) in
  if transitOnly && negb (fo_allowTransitOnly opts)
  then Throw (GenericError "FrameCryptor: SFrame E2E encryption is unavailable") else
  mret {| fc := {| fc_opts := opts; fc_suite := suite; currentPeerIndex := fo_peerIndex opts;
                   attached := []; initialised := false; transitOnly := transitOnly;
                   _kidCodec := codec; appliedEpoch := -1; workerListener := worker_listens b |};
          browser := b; transforms := ∅; to_worker := []; notices := []; fc_console := [] |}.

(** ** Messages of the worker *)

Definition handleWorkerMessage (data : option WorkerData) : FM unit :=
  match data with
  | None => mret tt
  | Some d =>
      if bool_decide (d_type d = v_string "epoch_applied") then
        match d_epoch d with
        | v_number epoch =>
            setc (fun r => r <| appliedEpoch := epoch |>);;
            notify fo_onEpochApplied (n_epoch_applied epoch)
        | _ => mret tt
        end
      else if bool_decide (d_type d = v_string "decrypt_starved") then
        match d_framesDropped d, d_sinceMs d, d_peerIndex d with
        | v_number dropped, v_number since, v_undefined =>
            notify fo_onDecryptStarved (n_decrypt_starved None dropped since)
        | v_number dropped, v_number since, v_number peerIndex =>
            notify fo_onDecryptStarved (n_decrypt_starved (Some peerIndex) dropped since)
        | _, _, _ => mret tt
        end
      else if bool_decide (d_type d = v_string "error") then
        let detail := match d_detail d with v_string s => s | _ => "unknown worker error"%string end in
        log ("[frame-cryptor] worker error " +:+ detail);;
        notify fo_onWorkerError (n_worker_error detail)
      else mret tt
  end.

(** The listener is registered from the constructor to [detach]. *)
Definition workerMessage (data : option WorkerData) : FM unit :=
  listens ← gets (fun w => workerListener (fc w));
  if listens : bool then handleWorkerMessage data else mret tt.

Definition getAppliedEpoch (w : CryptorWorld) : Z := appliedEpoch (fc w).

(** ** Transforms *)

Definition ensureInit : FM unit :=
  done ← gets (fun w => initialised (fc w));
  if done : bool then mret tt else
  r ← gets fc;
  let o := fc_opts r in
  postMessage (InitMsg (fo_role o) (fo_peerId o) (currentPeerIndex r) (Some (fc_suite r))
    (fo_preEpochQueueCap o) (fo_kidFormat o) (fo_mlsConfig o) false None None);;
  setc (fun r => r <| initialised := true |>).

Definition attach_entry (a : Attachment) : FM unit := setc (fun r => r <| attached ::= fun l => l ++ [a] |>).

(** The native path, and whether the browser took it. *)
Definition installNative (endpoint : nat) (side : Side) : FM bool :=
  b ← gets browser;
  if accepts_worker b endpoint then
    to_the_worker (ev_rtctransform (Some side));;
    modify (fun w => w <| transforms ::= <[endpoint := side]> |>);;
    attach_entry (NativeTransform endpoint);;
    mret true
  else
    log "[frame-cryptor] RTCRtpScriptTransform constructor rejected the Worker";;
    mret false.

Definition installTransform (endpoint : nat) (side : Side) : FM unit :=
  b ← gets browser;
  let support := supportsSFrame b in
  installed ← (if native support then installNative endpoint side else mret false);
  if installed : bool then mret tt else
  match (if fallback support then endpoint_streams b endpoint else None) with
  | Some true =>
      postMessage (StreamsMsg side None);;
      attach_entry EncodedStreams
  | Some false => throw DomException
  | None => log "[frame-cryptor] transit-only mode (no SFrame)"
  end.

Definition attach (endpoint : nat) (side : Side) : FM unit :=
  transit ← gets (fun w => transitOnly (fc w));
  if transit : bool then log "[frame-cryptor] transit-only mode, not transformed" else
  ensureInit;;
  installTransform endpoint side.

Definition attachSender (endpoint : nat) : FM unit := attach endpoint side_encode.
Definition attachReceiver (endpoint : nat) : FM unit := attach endpoint side_decode.

(** ** Epochs *)

(** Up to the derivation: this node's index in the new epoch. *)
Definition beginEpoch (params : EpochParams) : FM Z :=
  ensureInit;;
  peerId ← optc fo_peerId;
  match assoc_lookup peerId (ep_peerIndexMap params) with
  | None => throw (GenericError "FrameCryptor: peerIndexMap missing self")
  | Some selfPeerIndex =>
      setc (fun r => r <| currentPeerIndex := selfPeerIndex |>);;
      mret selfPeerIndex
  end.

(** The entries of the table with what the worker is given of them; the worker does not depend on
    their order. *)
Definition bundles_of (table : gmap Z SenderKey) : list (Z * PerSenderKeyBundle) :=
  prod_map id (fun k : SenderKey => mkBundle (cryptoKey k) (salt k) (rawKey k)) <$> map_to_list table.

(** From the derivation on. *)
Definition postEpoch (params : EpochParams) (selfPeerIndex : Z) : FM unit :=
  r ← gets fc;
  table ← lift (deriveEpochKeyTable (ep_chainKey params) (ep_epoch params) (ep_peerIndexMap params)
                  (fc_suite r) (_kidCodec r));
  let bundles := bundles_of table in
  postMessage (EpochMsg (ep_epoch params) selfPeerIndex bundles);;
  role ← optc fo_role;
  match role with
  | sender => postMessage (RotateMsg (ep_epoch params) selfPeerIndex bundles)
  | receiver => mret tt
  end.

Definition setEpoch (params : EpochParams) : FM unit :=
  selfPeerIndex ← beginEpoch params;
  postEpoch params selfPeerIndex.

Definition run_detach (a : Attachment) (m : gmap nat Side) : gmap nat Side :=
  match a with NativeTransform endpoint => delete endpoint m | EncodedStreams => m end.

Definition detach : FM unit :=
  modify (fun w => w <| transforms := foldl (fun m a => run_detach a m) (transforms w) (attached (fc w)) |>);;
  setc (fun r => r <| attached := [] |>);;
  setc (fun r => r <| workerListener := false |>);;
  done ← gets (fun w => initialised (fc w));
  if done : bool then
    postMessage TeardownMsg;;
    setc (fun r => r <| initialised := false |>)
  else mret tt.

(** ** Runs *)

(** The calls of [setEpoch] that wait for their derivation. *)
Record CryptorConfig := mkConfig {
  cryptor : CryptorWorld;
  pending : list (EpochParams * Z)
}.

Inductive CryptorEvent :=
| AttachSender (endpoint : nat)
| AttachReceiver (endpoint : nat)
| CallSetEpoch (params : EpochParams)
| EpochDerived (i : nat)
| Detach
| WorkerSays (data : option WorkerData).

Definition cryptor_step (c : CryptorConfig) (ev : CryptorEvent) : CryptorConfig :=
  let w := cryptor c in
  match ev with
  | AttachSender endpoint => mkConfig (attachSender endpoint w).2 (pending c)
  | AttachReceiver endpoint => mkConfig (attachReceiver endpoint w).2 (pending c)
  | CallSetEpoch params =>
      match beginEpoch params w with
      | (Ok self, w) => mkConfig w (pending c ++ [(params, self)])
      | (Throw _, w) => mkConfig w (pending c)
      end
  | EpochDerived i =>
      match pending c !! i with
      | Some (params, self) => mkConfig (postEpoch params self w).2 (delete i (pending c))
      | None => c
      end
  | Detach => mkConfig (detach w).2 (pending c)
  | WorkerSays data => mkConfig (workerMessage data w).2 (pending c)
  end.

Definition cryptor_run (c : CryptorConfig) (evs : list CryptorEvent) : CryptorConfig :=
  foldl cryptor_step c evs.

End Cryptor.
