(* ===== verification/CryptorProtocol.v ===== *)
(** * CryptorProtocol: what a frame cryptor sends to its worker (src/frame-cryptor.ts)

    Along a run of calls, in which derivations of [setEpoch] finish late, [talks] follows the
    messages to the worker: initialised by [init], until [teardown]. *)
From S2P Require Import Prelude StateLogic Keys Errors Internal Header Kid PeerMap WebCrypto Toy Crypto.
From S2P Require Import SFrame Codec Replay Fips WorkerTypes WorkerState WorkerFrame Worker Cryptor.
#[local] Open Scope Z_scope.

Section Protocol.
Context `{WebCrypto}.
Implicit Types w : CryptorWorld.

(** Whether the worker is initialised after the event, [None] when the event is out of turn.
    [late]: epochs may come to a worker that is torn down. *)
Definition talk (late on : bool) (ev : Event) : option bool :=
  match ev with
  | ev_message (InitMsg _ _ _ _ _ _ _ _ _ _) => if on then None else Some true
  | ev_message (EpochMsg _ _ _) | ev_message (RotateMsg _ _ _) => if on || late then Some on else None
  | ev_message (StreamsMsg _ _) | ev_rtctransform _ => if on then Some true else None
  | ev_message TeardownMsg => if on then Some false else None
  | _ => None
  end.

Fixpoint talks (late on : bool) (evs : list Event) : option bool :=
  match evs with
  | [] => Some on
  | ev :: evs => talk late on ev ≫= fun on => talks late on evs
  end.

Lemma talks_app late on l1 l2 : talks late on (l1 ++ l2) = talks late on l1 ≫= fun on => talks late on l2.
Proof.
  revert on. induction l1 as [|ev l1 IH]; intros on; [done|]. cbn. destruct (talk late on ev); [apply IH|done].
Qed.

(** The content of an event, for a cryptor whose fixed parts are those of [r] and whose calls of
    [setEpoch] satisfy [P]. *)
Definition epoch_sent (P : EpochParams -> Prop) (r : FrameCryptor) (epoch self : Z)
    (keys : list (Z * PerSenderKeyBundle)) : Prop :=
  exists params table, P params /\ ep_epoch params = epoch /\
    assoc_lookup (fo_peerId (fc_opts r)) (ep_peerIndexMap params) = Some self /\
    deriveEpochKeyTable (ep_chainKey params) epoch (ep_peerIndexMap params) (fc_suite r) (_kidCodec r)
      = Ok table /\ keys = bundles_of table.

Definition sent_ok (P : EpochParams -> Prop) (r : FrameCryptor) (ev : Event) : Prop :=
  let o := fc_opts r in
  match ev with
  | ev_message (InitMsg role peerId _ suite cap fmt cfg durable _ _) =>
      role = fo_role o /\ peerId = fo_peerId o /\ suite = Some (fc_suite r) /\
      cap = fo_preEpochQueueCap o /\ fmt = fo_kidFormat o /\ cfg = fo_mlsConfig o /\ durable = false
  | ev_message (EpochMsg epoch self keys) => epoch_sent P r epoch self keys
  | ev_message (RotateMsg epoch self keys) => fo_role o = sender /\ epoch_sent P r epoch self keys
  | ev_message (StreamsMsg _ _) | ev_rtctransform _ => transitOnly r = false
  | ev_message TeardownMsg => True
  | _ => False
  end.

(** The fixed parts. *)
Definition fixed (r : FrameCryptor) := (fc_opts r, fc_suite r, transitOnly r, _kidCodec r).

Lemma sent_ok_fixed P r r' ev : fixed r' = fixed r -> sent_ok P r ev -> sent_ok P r' ev.
Proof. unfold sent_ok, epoch_sent. intros [= -> -> -> ->]. done. Qed.

Record protocol (late : bool) (P : EpochParams -> Prop) (w : CryptorWorld) : Prop := mk_protocol {
  pr_talks : talks late false (to_worker w) = Some (initialised (fc w));
  pr_sent : Forall (sent_ok P (fc w)) (to_worker w);
  pr_native : forall e, is_Some (transforms w !! e) <-> NativeTransform e ∈ attached (fc w)
}.

(** Two worlds that differ in what the protocol does not look at. *)
Definition protocol_view w := (to_worker w, fixed (fc w), initialised (fc w), attached (fc w), transforms w).

Lemma protocol_same late P w w' : protocol_view w' = protocol_view w -> protocol late P w -> protocol late P w'.
Proof.
  unfold protocol_view, fixed. intros [= E1 E2 E3 E4 E5 E6 E7 E8] [Ht Hs Hn].
  split; rewrite ?E1, ?E6, ?E7, ?E8; [done| |done].
  eapply Forall_impl; [done|]. intros ev. apply sent_ok_fixed. unfold fixed. congruence.
Qed.

Lemma view_protocol {A} late P (m : M CryptorWorld js_error A) :
  keeps (same protocol_view) m -> keeps (preserved (protocol late P)) m.
Proof. apply keeps_sub. intros w w' Hv Hw. by apply (protocol_same late P w). Qed.

(** One more event to the worker; [f] is what else changes. *)
Lemma protocol_send late P w ev on f :
  protocol late P w -> talk late (initialised (fc w)) ev = Some on -> sent_ok P (fc w) ev ->
  fixed (f (fc w)) = fixed (fc w) -> initialised (f (fc w)) = on -> attached (f (fc w)) = attached (fc w) ->
  protocol late P (w <| to_worker ::= fun l => l ++ [ev] |> <| fc ::= f |>).
Proof.
  intros [Ht Hs Hn] Hev Hok Hf Hi Ha. split; cbn [to_worker fc transforms set_field].
  - change (talks late false (to_worker w ++ [ev]) = Some (initialised (f (fc w)))).
    rewrite talks_app, Ht. cbn. by rewrite Hev, Hi.
  - change (Forall (sent_ok P (f (fc w))) (to_worker w ++ [ev])).
    apply Forall_app. split; [|constructor; [|done]].
    + eapply Forall_impl; [done|]. intros ev'. by apply sent_ok_fixed.
    + by apply (sent_ok_fixed P (fc w)).
  - intros e. change (is_Some (transforms w !! e) <-> NativeTransform e ∈ attached (f (fc w))).
    by rewrite Ha.
Qed.

Lemma protocol_post late P w ev :
  protocol late P w -> talk late (initialised (fc w)) ev = Some (initialised (fc w)) -> sent_ok P (fc w) ev ->
  protocol late P (w <| to_worker ::= fun l => l ++ [ev] |>).
Proof. intros Hw Hev Hok. by apply (protocol_send late P w ev _ id Hw Hev Hok). Qed.

(** ** The operations *)

(** The worker is initialised from here on. *)
Lemma ensureInit_run late P w :
  protocol late P w -> exists w', ensureInit w = (Ok tt, w') /\ protocol late P w' /\
    initialised (fc w') = true /\ fixed (fc w') = fixed (fc w) /\ browser w' = browser w /\
    currentPeerIndex (fc w') = currentPeerIndex (fc w) /\ transforms w' = transforms w.
Proof.
  intros Hw. unfold ensureInit. rewrite bind_gets. cbn beta.
  destruct (initialised (fc w)) eqn:E; [by exists w|]. rewrite bind_gets.
  eexists. split; [reflexivity|]. split; [|done].
  by apply (protocol_send late P w _ true (fun r => r <| initialised := true |>)); rewrite ?E.
Qed.

Lemma installNative_run late P endpoint side w :
  protocol late P w -> initialised (fc w) = true -> transitOnly (fc w) = false ->
  exists b w', installNative endpoint side w = (Ok b, w') /\ protocol late P w' /\
    initialised (fc w') = true /\ transitOnly (fc w') = false.
Proof.
  intros Hw Hi Ht. unfold installNative. rewrite bind_gets. cbn beta.
  destruct (accepts_worker _ _); [|do 2 eexists; split; [reflexivity|]; split; [by apply (protocol_same late P w)|done]].
  assert (protocol late P (w <| to_worker ::= fun l => l ++ [ev_rtctransform (Some side)] |>)) as [H1 H2 H3].
  { apply protocol_post; [done|by rewrite Hi|done]. }
  do 2 eexists. split; [reflexivity|]. split; [|done]. split; [done..|]. intros e. specialize (H3 e).
  change (is_Some (<[endpoint := side]> (transforms w) !! e) <->
    NativeTransform e ∈ attached (fc w) ++ [NativeTransform endpoint]).
  change (is_Some (transforms w !! e) <-> NativeTransform e ∈ attached (fc w)) in H3.
  rewrite lookup_insert_is_Some', elem_of_app, list_elem_of_singleton, <- H3. naive_solver.
Qed.

Lemma installTransform_keeps late P endpoint side w :
  protocol late P w -> initialised (fc w) = true -> transitOnly (fc w) = false ->
  protocol late P (installTransform endpoint side w).2 /\
  initialised (fc (installTransform endpoint side w).2) = true.
Proof.
  intros Hw Hi Ht. unfold installTransform. rewrite bind_gets. cbn beta zeta.
  set (m := if native _ then _ else _).
  assert (exists b w', m w = (Ok b, w') /\ protocol late P w' /\
    initialised (fc w') = true /\ transitOnly (fc w') = false) as (b & w1 & Hrun & Hw1 & H2 & Ht1).
  { unfold m. destruct (native _); [by apply installNative_run|by exists false, w]. }
  rewrite (bind_Ok _ _ _ _ _ Hrun). destruct b; [done|].
  destruct (if fallback _ then _ else _) as [[]|]; [|done|].
  - split; [|done]. cbn.
    assert (protocol late P (w1 <| to_worker ::= fun l => l ++ [ev_message (StreamsMsg side None)] |>)) as [G1 G2 G3].
    { apply protocol_post; [done|by rewrite H2|done]. }
    split; [done..|]. intros e. specialize (G3 e).
    change (is_Some (transforms w1 !! e) <-> NativeTransform e ∈ attached (fc w1) ++ [EncodedStreams]).
    change (is_Some (transforms w1 !! e) <-> NativeTransform e ∈ attached (fc w1)) in G3.
    rewrite elem_of_app, list_elem_of_singleton, <- G3. naive_solver.
  - split; [by apply (protocol_same late P w1)|done].
Qed.

Lemma attach_keeps late P endpoint side w :
  protocol late P w -> protocol late P (attach endpoint side w).2 /\
  (initialised (fc w) = true -> initialised (fc (attach endpoint side w).2) = true).
Proof.
  intros Hw. unfold attach. rewrite bind_gets. cbn beta.
  destruct (transitOnly (fc w)) eqn:E; [split; [by apply (protocol_same late P w)|done]|].
  destruct (ensureInit_run late P w Hw) as (w1 & Hrun & Hw1 & Hi & Hf & _).
  rewrite (bind_Ok _ _ _ _ _ Hrun). unfold fixed in Hf.
  destruct (installTransform_keeps late P endpoint side w1); [done|done|congruence|done].
Qed.

Lemma beginEpoch_run late P params w :
  protocol late P w -> exists w', (beginEpoch params w).2 = w' /\ protocol late P w' /\
    initialised (fc w') = true /\ fixed (fc w') = fixed (fc w) /\
    (beginEpoch params w).1 = match assoc_lookup (fo_peerId (fc_opts (fc w))) (ep_peerIndexMap params) with
                              | Some self => Ok self
                              | None => Throw (GenericError "FrameCryptor: peerIndexMap missing self")
                              end.
Proof.
  intros Hw. eexists. split; [reflexivity|]. unfold beginEpoch.
  destruct (ensureInit_run late P w Hw) as (w1 & Hrun & Hw1 & Hi & Hf & _).
  rewrite (bind_Ok _ _ _ _ _ Hrun). unfold optc. rewrite bind_gets. cbn beta.
  assert (fc_opts (fc w1) = fc_opts (fc w)) as Ho by (unfold fixed in Hf; congruence). rewrite Ho.
  destruct (assoc_lookup _ _); [|done]. split_and!; [by apply (protocol_same late P w1)|done..].
Qed.

Lemma postEpoch_keeps late P params self w :
  protocol late P w -> initialised (fc w) || late = true -> P params ->
  assoc_lookup (fo_peerId (fc_opts (fc w))) (ep_peerIndexMap params) = Some self ->
  protocol late P (postEpoch params self w).2 /\
  initialised (fc (postEpoch params self w).2) = initialised (fc w) /\
  fixed (fc (postEpoch params self w).2) = fixed (fc w).
Proof.
  intros Hw Hon HP Hself. unfold postEpoch. rewrite bind_gets, bind_lift.
  destruct (deriveEpochKeyTable _ _ _ _ _) as [table|] eqn:Et; [|done]. cbn zeta.
  assert (epoch_sent P (fc w) (ep_epoch params) self (bundles_of table)) as Hsent.
  { by exists params, table. }
  set (m := EpochMsg (ep_epoch params) self (bundles_of table)).
  assert (protocol late P (w <| to_worker ::= fun l => l ++ [ev_message m] |>)) as Hw1.
  { apply protocol_post; [done|cbn; by rewrite Hon|done]. }
  unfold postMessage, to_the_worker, optc. rewrite bind_modify, bind_gets.
  cbn beta. change (fc (w <| to_worker ::= _ |>)) with (fc w).
  destruct (fo_role (fc_opts (fc w))) eqn:Er; [|done]. split; [|done].
  apply protocol_post; [done|cbn; by rewrite Hon|by split].
Qed.

Lemma run_detach_lookup l m e :
  is_Some (foldl (fun m a => run_detach a m) m l !! e) <-> is_Some (m !! e) /\ NativeTransform e ∉ l.
Proof.
  revert m. induction l as [|a l IH]; intros m; cbn [foldl]; [set_solver|]. rewrite IH, not_elem_of_cons.
  destruct a as [e'|]; cbn [run_detach]; [|naive_solver].
  rewrite lookup_delete_is_Some. naive_solver.
Qed.

Lemma detach_run late P w :
  protocol late P w -> protocol late P (detach w).2 /\ (detach w).1 = Ok tt /\
  initialised (fc (detach w).2) = false /\ workerListener (fc (detach w).2) = false /\
  attached (fc (detach w).2) = [] /\ transforms (detach w).2 = ∅ /\ fixed (fc (detach w).2) = fixed (fc w).
Proof.
  intros Hw. assert (foldl (fun m a => run_detach a m) (transforms w) (attached (fc w)) = ∅) as He.
  { apply map_empty. intros e. apply eq_None_not_Some. rewrite run_detach_lookup, (pr_native _ _ _ Hw e). tauto. }
  set (w1 := w <| transforms := foldl (fun m a => run_detach a m) (transforms w) (attached (fc w)) |>
    <| fc ::= fun r => r <| attached := [] |> |> <| fc ::= fun r => r <| workerListener := false |> |>).
  assert (protocol late P w1) as Hw1.
  { destruct Hw as [Ht Hs Hn]. split; [done|exact Hs|]. intros e. unfold w1. cbn -[lookup]. rewrite He.
    rewrite lookup_empty. set_solver. }
  unfold detach, setc. rewrite !bind_modify, bind_gets. fold w1. cbn beta.
  destruct (initialised (fc w1)) eqn:E; [|by split_and!].
  split_and!; [|done..].
  by apply (protocol_send late P w1 (ev_message TeardownMsg) false (fun r => r <| initialised := false |>));
    rewrite ?E.
Qed.

Lemma workerMessage_view data : keeps (same protocol_view) (workerMessage data).
Proof.
  assert (forall f n, keeps (same protocol_view) (notify f n)) as Hn.
  { intros f n. unfold notify, optc. keeps_auto. apply keeps_modify. done. }
  unfold workerMessage, handleWorkerMessage, setc, log.
  keeps_auto; first [apply Hn|apply keeps_modify; done].
Qed.

(** ** Runs *)

Definition fixed_parts w := fixed (fc w).

Lemma attach_fixed endpoint side : keeps (same fixed_parts) (attach endpoint side).
Proof.
  unfold attach, ensureInit, installTransform, installNative, attach_entry, postMessage, to_the_worker, log, setc.
  keeps_auto; apply keeps_modify; done.
Qed.

(** The calls in flight: what they were given, and that the worker is there for them unless
    [detach] took it away. *)
Record conf_ok (late : bool) (P : EpochParams -> Prop) (r : FrameCryptor) (c : CryptorConfig) : Prop := mk_conf_ok {
  co_world : protocol late P (cryptor c);
  co_fixed : fixed (fc (cryptor c)) = fixed r;
  co_pending : Forall (fun t => P t.1 /\
    assoc_lookup (fo_peerId (fc_opts r)) (ep_peerIndexMap t.1) = Some t.2) (pending c);
  co_on : late = false -> pending c <> [] -> initialised (fc (cryptor c)) = true
}.

(** No [detach] while a derivation is in flight. *)
Fixpoint calm (c : CryptorConfig) (evs : list CryptorEvent) : Prop :=
  match evs with
  | [] => True
  | ev :: evs => (ev = Detach -> pending c = []) /\ calm (cryptor_step c ev) evs
  end.

Definition event_ok (late : bool) (P : EpochParams -> Prop) (c : CryptorConfig) (ev : CryptorEvent) : Prop :=
  match ev with
  | CallSetEpoch params => P params
  | Detach => late = false -> pending c = []
  | _ => True
  end.

Lemma attach_conf_ok late P r e side w p :
  conf_ok late P r (mkConfig w p) -> conf_ok late P r (mkConfig (attach e side w).2 p).
Proof.
  intros [Hw Hf Hp Hon]. cbn [cryptor pending] in *. destruct (attach_keeps late P e side w Hw) as [H1 H2].
  split; cbn [cryptor pending]; [done|rewrite <- Hf; apply (attach_fixed e side w)|done|auto].
Qed.

Lemma step_conf_ok late P r c ev : event_ok late P c ev -> conf_ok late P r c -> conf_ok late P r (cryptor_step c ev).
Proof.
  intros Hev Hc. pose proof Hc as [Hw Hf Hp Hon]. destruct c as [w p]. cbn [cryptor pending] in *.
  assert (fc_opts (fc w) = fc_opts r) as Ho by (unfold fixed in Hf; congruence).
  destruct ev as [e|e|params|i| |data]; cbn [cryptor_step event_ok cryptor pending] in *.
  - by apply attach_conf_ok.
  - by apply attach_conf_ok.
  - destruct (beginEpoch_run late P params w Hw) as (w' & E & Hw' & Hi & Hf' & Er).
    destruct (beginEpoch params w) as [x w1]. cbn [fst snd] in *. subst x w1. rewrite Ho in *.
    destruct (assoc_lookup _ _) as [self|] eqn:Es; split; cbn [cryptor pending];
      rewrite ?Hf'; auto using Forall_app_2.
  - destruct (p !! i) as [[params self]|] eqn:Ei; [|by split].
    pose proof (Forall_lookup_1 _ _ _ _ Hp Ei) as [HP Hs]. cbn [fst snd] in *.
    assert (initialised (fc w) || late = true) as Hon'.
    { destruct late; [apply orb_true_r|]. rewrite Hon; [done..|]. by destruct p. }
    rewrite <- Ho in Hs. destruct (postEpoch_keeps late P params self w Hw Hon' HP Hs) as (H1 & H2 & H3).
    split; cbn [cryptor pending]; [done|congruence|by apply Forall_delete|].
    intros Hl _. rewrite H2. apply Hon; [done|]. by destruct p.
  - destruct (detach_run late P w Hw) as (H1 & _ & H2 & _ & _ & _ & H3).
    split; cbn [cryptor pending]; [done|congruence|done|]. intros Hl Hne. by destruct Hne; apply Hev.
  - pose proof (workerMessage_view data w) as Hv. pose proof (protocol_same late P w _ Hv Hw).
    unfold same, protocol_view in Hv. split; cbn [cryptor pending]; [done|congruence|done|].
    intros Hl Hne. assert (initialised (fc (workerMessage data w).2) = initialised (fc w)) as -> by congruence. auto.
Qed.

Lemma run_conf_ok late (P : EpochParams -> Prop) r c evs :
  (forall p, CallSetEpoch p ∈ evs -> P p) -> (late = false -> calm c evs) -> conf_ok late P r c ->
  conf_ok late P r (cryptor_run c evs).
Proof.
  revert c. induction evs as [|ev evs IH]; intros c HP Hcalm Hc; [done|]. cbn.
  apply IH; [set_solver|intros Hl; by apply Hcalm|]. apply step_conf_ok; [|done].
  destruct ev; cbn; try done; [apply HP; set_solver|]. intros Hl. by apply Hcalm.
Qed.

Lemma new_conf_ok late P active b opts w :
  newFrameCryptor active b opts = Ok w -> conf_ok late P (fc w) (mkConfig w []) /\
  fc_opts (fc w) = opts /\ makeKidCodec (fo_kidFormat opts) (fo_mlsConfig opts) = Ok (_kidCodec (fc w)) /\
  fc_suite (fc w) = default DEFAULT_CIPHER_SUITE (fo_suite opts) /\
  transitOnly (fc w) = negb (has_script_transform b) && negb (has_encoded_streams b).
Proof.
  unfold newFrameCryptor. destruct (assertSuiteAllowed _ _) as [[]|]; [|done]. cbn [mbind result_bind].
  destruct (makeKidCodec _ _) as [codec|] eqn:E; [|done]. cbn [mbind result_bind].
  destruct (_ && negb (fo_allowTransitOnly opts)); [done|]. intros Hw.
  apply Ok_inj in Hw as <-. split; [|done]. split; cbn; try done. split; cbn; try done.
  intros e. rewrite lookup_empty. set_solver.
Qed.

End Protocol.

(** ** Properties *)

(** C16. The protocol with the worker: from a constructed cryptor, whatever methods are called and
    whenever the derivations of [setEpoch] finish, [init] comes first and is repeated only after a
    [teardown], streams and transforms reach only an initialised worker, every [init] carries the
    options of the constructor, and every [epoch] and [rotate] the index of this peer and the whole
    key table derived from the arguments of one call of [setEpoch], [rotate] from a sender only. Epochs
    too reach only an initialised worker when no [detach] comes during a derivation. The transforms
    installed are those that [detach] resets. *)
Theorem cryptor_protocol `{WebCrypto} (active : FipsState) (b : Browser) (opts : FrameCryptorOptions)
    (w0 : CryptorWorld) (evs : list CryptorEvent) (Hnew : newFrameCryptor active b opts = Ok w0) :
  let w := cryptor (cryptor_run (mkConfig w0 []) evs) in
  let d := (detach w).2 in
  talks true false (to_worker w) = Some (initialised (fc w)) /\
  (calm (mkConfig w0 []) evs -> talks false false (to_worker w) = Some (initialised (fc w))) /\
  Forall (sent_ok (fun p => CallSetEpoch p ∈ evs) (fc w)) (to_worker w) /\
  (fc_opts (fc w) = opts /\ fc_suite (fc w) = default DEFAULT_CIPHER_SUITE (fo_suite opts) /\
   makeKidCodec (fo_kidFormat opts) (fo_mlsConfig opts) = Ok (_kidCodec (fc w))) /\
  (forall e, is_Some (transforms w !! e) <-> NativeTransform e ∈ attached (fc w)) /\
  (initialised (fc d) = false /\ workerListener (fc d) = false /\ transforms d = ∅).
Proof.
  cbv zeta. destruct (new_conf_ok true (fun p => CallSetEpoch p ∈ evs) _ _ _ _ Hnew) as (Hc & Ho & Hk & Hs & _).
  assert (true = false -> calm (mkConfig w0 []) evs) as Hlate by done.
  destruct (run_conf_ok true _ (fc w0) _ evs (fun p Hp => Hp) Hlate Hc) as [Hw Hf _ _].
  assert (conf_ok false (fun _ => True) (fc w0) (mkConfig w0 [])) as Hc' by (by eapply new_conf_ok).
  set (c := cryptor_run (mkConfig w0 []) evs) in *. unfold fixed in Hf. injection Hf as E1 E2 E3 E4.
  destruct (detach_run _ _ _ Hw) as (_ & _ & D1 & D2 & _ & D3 & _).
  rewrite E1, E2, E4. split_and!; try done; [apply Hw| |apply Hw..].
  intros Hcalm. apply (run_conf_ok false (fun _ => True) (fc w0) _ evs); done.
Qed.

Definition demo_browser : Browser := mkBrowser true true (fun _ => true) (fun _ => None) true.
Definition demo_cryptor_opts (role : Role) (peerId : string) (peerIndex : Z) : FrameCryptorOptions :=
  mkCryptorOptions role peerId peerIndex None true true true None None None false.
Definition demo_params (epoch : Z) : EpochParams :=
  mkEpochParams epoch [("alice", 0); ("bob", 1)]%string demo_chain.

(** Attach, install epoch 1, and detach while epoch 2 is being derived. *)
Definition demo_calls : list CryptorEvent :=
  [AttachSender 0; CallSetEpoch (demo_params 1); EpochDerived 0; CallSetEpoch (demo_params 2);
   Detach; EpochDerived 0].

Lemma cryptor_protocol_witness :
  match newFrameCryptor (H := toy) None demo_browser (demo_cryptor_opts sender "alice" 0) with
  | Ok w0 =>
      let w := cryptor (cryptor_run (mkConfig w0 []) demo_calls) in
      length (to_worker w) = 7%nat /\ talks true false (to_worker w) = Some false /\
      talks false false (to_worker w) = None
  | Throw _ => False
  end.
Proof.
  destruct (is_ok_ex (newFrameCryptor (H := toy) None demo_browser (demo_cryptor_opts sender "alice" 0)))
    as [w0 E]; [vm_compute; reflexivity|]. rewrite E.
  destruct (cryptor_protocol None demo_browser _ w0 demo_calls E) as (Ht & _ & _ & _ & _ & _).
  cbv zeta. pose proof E as E'. apply Ok_inj in E'. subst w0. split_and!.
  - vm_compute. reflexivity.
  - etransitivity; [exact Ht|]. vm_compute. reflexivity.
  - vm_compute. reflexivity.
Defined.
