(* ===== verification/CryptorDrive.v ===== *)
(** * CryptorDrive: a frame cryptor and its worker together (src/frame-cryptor.ts, src/worker.ts)

    The events that a cryptor sends are played by a worker that has just started, and what that
    worker posts is given back to the cryptor. *)
From S2P Require Import Prelude StateLogic Keys Errors Internal Header Kid PeerMap WebCrypto Toy Crypto.
From S2P Require Import SFrame Codec Replay Fips WorkerTypes WorkerState WorkerFrame Worker.
From S2P Require Import WorkerLogic WorkerRatchet WorkerEvents WorkerEpochs WorkerKeys WorkerDrain Cryptor CryptorProtocol.
From S2P Require Durable.
#[local] Open Scope Z_scope.

Section Drive.
Context `{WebCrypto}.

(** A message of the worker as [ev.data]; [show] is [String(err)]. *)
Definition message_data (show : js_error -> string) (m : OutMsg) : WorkerData :=
  let d := mkData v_other v_undefined v_undefined v_undefined v_undefined v_undefined in
  match m with
  | o_epoch_applied epoch => mkData (v_string "epoch_applied") (v_number epoch) v_undefined v_undefined v_undefined v_undefined
  | o_decrypt_starved peerIndex framesDropped sinceMs =>
      mkData (v_string "decrypt_starved") v_undefined (from_option v_number v_undefined peerIndex)
        (v_number framesDropped) (v_number sinceMs) v_undefined
  | o_error err => mkData (v_string "error") v_undefined v_undefined v_undefined v_undefined (v_string (show err))
  | o_spawned => mkData (v_string "spawned") v_undefined v_undefined v_undefined v_undefined v_undefined
  | o_ready => mkData (v_string "ready") v_undefined v_undefined v_undefined v_undefined v_undefined
  | o_metrics _ => mkData (v_string "metrics") v_undefined v_undefined v_undefined v_undefined v_undefined
  | o_decrypt_failure _ _ _ _ _ => mkData (v_string "decrypt_failure") v_undefined v_undefined v_undefined v_undefined v_undefined
  | o_encrypt_failure _ => mkData (v_string "encrypt_failure") v_undefined v_undefined v_undefined v_undefined v_undefined
  end.

(** The messages of the worker, in order, as the cryptor receives them. *)
Definition deliver_all (show : js_error -> string) (w : CryptorWorld) (ms : list OutMsg) : CryptorWorld :=
  foldl (fun w m => (workerMessage (Some (message_data show m)) w).2) w ms.

(** Calls of [setEpoch], each awaited before the next. *)
Fixpoint set_epochs (ps : list EpochParams) : M CryptorWorld js_error unit :=
  match ps with
  | [] => mret tt
  | params :: ps => setEpoch params;; set_epochs ps
  end.

(** ** The worker installs a table *)

Lemma build_keys_fold codec e (l : list (Z * SenderKey)) keys :
  (forall p k, (p, k) ∈ l -> named codec e p k) ->
  build_keys codec e (prod_map id (fun k : SenderKey => mkBundle (cryptoKey k) (salt k) (rawKey k)) <$> l) keys
  = Ok (foldl (fun m x => <[x.1 := x.2]> m) keys l).
Proof.
  revert keys. induction l as [|[p k] l IH]; intros keys Hl; [done|].
  destruct (Hl p k ltac:(set_solver)) as [E1 E2 E3]. cbn. rewrite E3. cbn [mbind result_bind].
  rewrite IH by (intros; apply Hl; set_solver). f_equal. f_equal. f_equal.
  destruct k as [[kid ep pi ck sa] raw]. cbn in *. by subst.
Qed.

Lemma fold_map_to_list (m : gmap Z SenderKey) :
  foldl (fun m x => <[x.1 := x.2]> m) ∅ (map_to_list m) = m.
Proof.
  change (map_of_entries (map_to_list m) = m). apply map_eq. intros i.
  destruct (map_of_entries (map_to_list m) !! i) as [k|] eqn:E.
  - apply map_of_entries_lookup, elem_of_map_to_list in E. done.
  - destruct (m !! i) as [k|] eqn:Em; [|done]. exfalso. apply elem_of_map_to_list in Em.
    assert (is_Some (map_of_entries (map_to_list m) !! i)) as [? Hs]; [|congruence].
    apply map_of_entries_is_Some. apply (list_elem_of_fmap_2 fst) in Em. done.
Qed.

Lemma build_keys_bundles codec e table :
  (forall p k, table !! p = Some k -> named codec e p k) -> build_keys codec e (bundles_of table) ∅ = Ok table.
Proof.
  intros Ht. unfold bundles_of. rewrite build_keys_fold; [by rewrite fold_map_to_list|].
  intros p k Hin. apply Ht. by apply elem_of_map_to_list.
Qed.

(** What installing an epoch leaves alone. *)
Definition idle_view (w : World) :=
  (kidCodec (ws w), preEpochQueue (ws w), draining (ws w), pendingDrain (ws w), metricsEnabled (ws w),
   ratchetPromises (ws w), currentMinValidEpoch (ws w), replayWindows (ws w), replayWindowSize (ws w),
   formatCache (ws w), failureTolerance (ws w), durableReplay (ws w), sifTrailer (ws w), ws_codec (ws w),
   WorkerTypes.suite (ws w), WorkerTypes.role (ws w), frames w).

(** A worker that has received no frame. *)
Definition idle (codec : KidCodec) (suite : CipherSuite) (role : Role) (w : World) : Prop :=
  idle_view w = (codec, [], false, false, false, ∅, 0, ∅, 64, ∅, -1, None, None, None, suite, Some role, ∅).

Lemma installEpoch_idle e self b : keeps (same idle_view) (installEpoch e self b).
Proof.
  assert (forall f, (forall s, idle_view s = idle_view (s <| ws ::= f |>)) -> keeps (same idle_view) (setw f)) as Hset.
  { intros f Hf. apply keeps_modify. intros s. symmetry. apply Hf. }
  assert (forall pis, keeps (same idle_view) (reset_failures e pis)) as Hreset.
  { intros pis. induction pis; cbn [reset_failures]; unfold resetFailureCount; keeps_auto. }
  unfold installEpoch, scheduleWipeOfEpochsBelow, now, emitMetric, emit.
  keeps_auto; first [apply Hreset|by apply Hset|apply keeps_modify; done].
Qed.

(** What installing an epoch sets. *)
Definition installed_view (w : World) := (epochs (ws w), currentEpoch (ws w), selfPeerIndex (ws w), ws_ctr (ws w), posted w).

Lemma installEpoch_effect codec suite role e self table w :
  idle codec suite role w -> (forall p k, table !! p = Some k -> named codec e p k) ->
  installEpoch e self (bundles_of table) w = (Ok tt, (installEpoch e self (bundles_of table) w).2) /\
  installed_view (installEpoch e self (bundles_of table) w).2 =
    (<[e := mkEpochEntry e self table ∅]> (epochs (ws w)),
     if currentEpoch (ws w) <? e then e else currentEpoch (ws w),
     if currentEpoch (ws w) <? e then Some self else selfPeerIndex (ws w),
     if currentEpoch (ws w) <? e then 0 else ws_ctr (ws w),
     posted w ++ (if currentEpoch (ws w) <? e then [o_epoch_applied e] else [])).
Proof.
  intros Hidle Ht. unfold idle, idle_view in Hidle. injection Hidle as Hc _ _ _ Hm _ _ _ _ _ _ _ _ _ _ _ _.
  unfold installEpoch. rewrite bind_getw, Hc. unfold liftr.
  rewrite bind_lift, (build_keys_bundles _ _ _ Ht), bind_setw. set (w1 := w <| ws ::= _ |>).
  assert (returns (reset_failures e (bundles_of table).*1)) as Hret.
  { generalize (bundles_of table).*1. intros pis.
    induction pis; cbn [reset_failures]; unfold resetFailureCount; returns_auto. }
  rewrite (bind_Ok _ _ _ _ _ (returns_run _ w1 Hret)).
  assert (keeps (same (fun w => (installed_view w, metricsEnabled (ws w)))) (reset_failures e (bundles_of table).*1))
    as Hk.
  { generalize (bundles_of table).*1. intros pis.
    induction pis; cbn [reset_failures]; unfold resetFailureCount; keeps_auto. apply keeps_modify. done. }
  specialize (Hk w1). unfold same, installed_view in Hk. injection Hk as E1 E2 E3 E4 E5 E6.
  set (w2 := (reset_failures _ _ w1).2) in *. clearbody w2. rewrite bind_getw, E2.
  change (currentEpoch (ws w1)) with (currentEpoch (ws w)). destruct (currentEpoch (ws w) <? e).
  - rewrite bind_setw. change (metricsEnabled (ws w1)) with (metricsEnabled (ws w)) in E6. rewrite Hm in E6.
    rewrite (bind_Ok _ _ _ _ _ (schedule_run e _)). unfold emit. rewrite bind_modify.
    match goal with |- ?m ?w3 = _ /\ _ => assert (m w3 = (Ok tt, w3)) as Hm3 end.
    { destruct (0 <=? _); [|done]. unfold emitMetric. rewrite bind_getw.
      match goal with |- (if ?b then _ else _) _ = _ => replace b with false by (symmetry; exact E6) end. done. }
    rewrite Hm3. split; [done|]. cbn [snd]. unfold installed_view.
    transitivity (epochs (ws w2), e, Some self, 0, posted w2 ++ [o_epoch_applied e]); [reflexivity|].
    by rewrite E1, E5.
  - split; [done|]. transitivity (installed_view w2); [reflexivity|].
    unfold installed_view. by rewrite E1, E2, E3, E4, E5, app_nil_r.
Qed.

Lemma drain_idle codec suite role w :
  idle codec suite role w -> exists w', drainPreEpochQueue w = (Ok tt, w') /\ idle codec suite role w' /\
    installed_view w' = installed_view w.
Proof.
  intros Hidle. pose proof Hidle as Hv. unfold idle, idle_view in Hv.
  injection Hv as E1 E2 E3 E4 E5 E6 E7 E8 E9 E10 E11 E12 E13 E14 E15 E16 E17.
  destruct (drain_loop_idle 1 w E3 E4) as (Hrun & _). eexists. split; [exact Hrun|].
  unfold drain_pass. rewrite E2. cbv zeta. cbn [drain_each].
  split; [|reflexivity]. unfold idle, idle_view. cbn. by rewrite E1, E4, E5, E6, E7, E8, E9, E10, E11, E12, E13, E14, E15, E16, E17.
Qed.

(** The worker after it has been given the epochs [l], in order, and no frames. *)
Record driven (codec : KidCodec) (suite : CipherSuite) (role : Role) (l : list EpochEntry) (w : World) : Prop := mk_driven {
  dr_idle : idle codec suite role w;
  dr_epochs : epochs (ws w) = map_of_entries ((fun x => (ent_epoch x, x)) <$> l);
  dr_current : currentEpoch (ws w) = default (-1) (ent_epoch <$> last l);
  dr_self : forall x, last l = Some x -> selfPeerIndex (ws w) = Some (ent_selfPeerIndex x);
  dr_ctr : ws_ctr (ws w) = 0;
  dr_posted : posted w = [o_spawned; o_ready] ++ ((fun x => o_epoch_applied (ent_epoch x)) <$> l)
}.

(** An [epoch] or [rotate] message. *)
Lemma install_message codec suite role e self table w :
  idle codec suite role w -> (forall p k, table !! p = Some k -> named codec e p k) ->
  exists w', step (ev_message (EpochMsg e self (bundles_of table))) w = (Ok tt, w') /\
    step (ev_message (RotateMsg e self (bundles_of table))) w = (Ok tt, w') /\
    idle codec suite role w' /\
    installed_view w' = installed_view (installEpoch e self (bundles_of table) w).2.
Proof.
  intros Hi Ht. destruct (installEpoch_effect codec suite role e self table w Hi Ht) as [Hrun _].
  pose proof (installEpoch_idle e self (bundles_of table) w) as Hk.
  set (w1 := (installEpoch _ _ _ w).2) in *.
  assert (idle codec suite role w1) as Hi1 by (unfold idle; by rewrite Hk).
  destruct (drain_idle _ _ _ w1 Hi1) as (w2 & Hd & Hi2 & Hv).
  assert ((installEpoch e self (bundles_of table);; drainPreEpochQueue) w = (Ok tt, w2)) as Hm.
  { by rewrite (bind_Ok _ _ _ _ _ Hrun). }
  exists w2. cbn [step]. unfold onmessage, catch. cbn [handleMessage]. by rewrite Hm.
Qed.

Lemma driven_epoch codec suite role l e self table w :
  driven codec suite role l w -> (forall p k, table !! p = Some k -> named codec e p k) ->
  default (-1) (ent_epoch <$> last l) < e ->
  exists w', step (ev_message (EpochMsg e self (bundles_of table))) w = (Ok tt, w') /\
    driven codec suite role (l ++ [mkEpochEntry e self table ∅]) w'.
Proof.
  intros [Hi He Hc Hs Hct Hp] Ht Hlt.
  destruct (install_message _ _ _ e self table w Hi Ht) as (w' & Hrun & _ & Hi' & Hv).
  destruct (installEpoch_effect _ _ _ e self table w Hi Ht) as [_ Hv'].
  rewrite Hv', Hc, He, Hp, (proj2 (Z.ltb_lt _ _) Hlt) in Hv. unfold installed_view in Hv.
  injection Hv as V1 V2 V3 V4 V5. exists w'. split; [done|]. split; try done.
  - by rewrite V1, fmap_app, list_fmap_singleton, map_of_entries_snoc.
  - by rewrite V2, last_snoc.
  - intros x. rewrite last_snoc. by intros [= <-].
  - by rewrite V5, fmap_app.
Qed.

Lemma driven_rotate codec suite role l e self table w :
  driven codec suite role (l ++ [mkEpochEntry e self table ∅]) w ->
  (forall p k, table !! p = Some k -> named codec e p k) ->
  exists w', step (ev_message (RotateMsg e self (bundles_of table))) w = (Ok tt, w') /\
    driven codec suite role (l ++ [mkEpochEntry e self table ∅]) w'.
Proof.
  intros Hd Ht. pose proof Hd as [Hi He Hc Hs Hct Hp].
  destruct (install_message _ _ _ e self table w Hi Ht) as (w' & _ & Hrun & Hi' & Hv).
  destruct (installEpoch_effect _ _ _ e self table w Hi Ht) as [_ Hv'].
  rewrite last_snoc in Hc. cbn in Hc. rewrite Hv', Hc, Z.ltb_irrefl, app_nil_r in Hv. unfold installed_view in Hv.
  injection Hv as V1 V2 V3 V4 V5. exists w'. split; [done|]. split; try done.
  - rewrite V1, He, fmap_app, list_fmap_singleton, map_of_entries_snoc. cbn [fst snd ent_epoch].
    by rewrite insert_insert_eq.
  - by rewrite V2, last_snoc.
  - intros x Hx. rewrite V3. by apply Hs.
  - by rewrite V4.
  - by rewrite V5.
Qed.

(** The [init] message to a worker that has just started. *)
Lemma driven_init opts codec pi suite :
  makeKidCodec (fo_kidFormat opts) (fo_mlsConfig opts) = Ok codec ->
  exists w', step (ev_message (InitMsg (fo_role opts) (fo_peerId opts) pi (Some suite) (fo_preEpochQueueCap opts)
    (fo_kidFormat opts) (fo_mlsConfig opts) false None None)) initial_world = (Ok tt, w') /\
    driven codec suite (fo_role opts) [] w'.
Proof.
  intros Hk. unfold step, onmessage, catch. destruct opts as [r pid ? ? ? ? ? cap fmt cfg ?].
  cbn [fo_role fo_peerId fo_preEpochQueueCap fo_kidFormat fo_mlsConfig] in *. cbn [handleMessage].
  assert (fmt = None -> codec = FIXED_KID_CODEC) as Hfix.
  { intros ->. by apply Ok_inj in Hk. }
  unfold liftr. destruct fmt as [fmt|]; [rewrite Hk|rewrite Hfix by done];
    (destruct cap as [c|]; [destruct (js_positive c) eqn:Ec|]);
    (eexists; split; [reflexivity|]); (split; [reflexivity..|done|reflexivity|reflexivity]).
Qed.

(** ** The cryptor sends it *)

Definition init_event (w : CryptorWorld) : Event :=
  let o := fc_opts (fc w) in
  ev_message (InitMsg (fo_role o) (fo_peerId o) (currentPeerIndex (fc w)) (Some (fc_suite (fc w)))
    (fo_preEpochQueueCap o) (fo_kidFormat o) (fo_mlsConfig o) false None None).

(** What [setEpoch] sends, from the first call on. *)
Definition epoch_events (w : CryptorWorld) (epoch self : Z) (table : gmap Z SenderKey) : list Event :=
  (if initialised (fc w) then [] else [init_event w]) ++
  [ev_message (EpochMsg epoch self (bundles_of table))] ++
  match fo_role (fc_opts (fc w)) with
  | sender => [ev_message (RotateMsg epoch self (bundles_of table))]
  | receiver => []
  end.

Definition heard (w : CryptorWorld) := (appliedEpoch (fc w), workerListener (fc w), notices w, browser w).

(** The entry of an epoch in a worker, for the arguments of one call. *)
Definition entry_for (r : FrameCryptor) (params : EpochParams) (x : EpochEntry) : Prop :=
  exists self table, assoc_lookup (fo_peerId (fc_opts r)) (ep_peerIndexMap params) = Some self /\
    deriveEpochKeyTable (ep_chainKey params) (ep_epoch params) (ep_peerIndexMap params) (fc_suite r) (_kidCodec r)
      = Ok table /\ x = mkEpochEntry (ep_epoch params) self table ∅.

Lemma entry_for_fixed r r' params x : fixed r' = fixed r -> entry_for r params x -> entry_for r' params x.
Proof. unfold entry_for, fixed. by intros [= -> -> _ ->]. Qed.

Lemma cryptor_setEpoch_run params w self table :
  assoc_lookup (fo_peerId (fc_opts (fc w))) (ep_peerIndexMap params) = Some self ->
  deriveEpochKeyTable (ep_chainKey params) (ep_epoch params) (ep_peerIndexMap params) (fc_suite (fc w))
    (_kidCodec (fc w)) = Ok table ->
  exists w', setEpoch params w = (Ok tt, w') /\
    to_worker w' = to_worker w ++ epoch_events w (ep_epoch params) self table /\
    initialised (fc w') = true /\ fixed (fc w') = fixed (fc w) /\ heard w' = heard w.
Proof.
  intros Hself Ht.
  assert (exists w1, ensureInit w = (Ok tt, w1) /\
    to_worker w1 = to_worker w ++ (if initialised (fc w) then [] else [init_event w]) /\
    initialised (fc w1) = true /\ fixed (fc w1) = fixed (fc w) /\ heard w1 = heard w) as (w2 & Hrun & E1 & E2 & E3 & E4).
  { unfold ensureInit. rewrite bind_gets. cbn beta. destruct (initialised (fc w)) eqn:E.
    - exists w. by rewrite app_nil_r.
    - rewrite bind_gets. by eexists. }
  pose proof E3 as Ef. unfold fixed in Ef. injection Ef as F1 F2 _ F4.
  unfold setEpoch, beginEpoch. rewrite (bind_Ok (ensureInit ≫= _) _ w self
    (w2 <| fc ::= fun r => r <| currentPeerIndex := self |> |>)).
  2: { rewrite (bind_Ok _ _ _ _ _ Hrun). unfold optc. rewrite bind_gets. by rewrite F1, Hself. }
  set (w3 := w2 <| fc ::= _ |>). unfold postEpoch. rewrite bind_gets, bind_lift.
  change (fc_suite (fc w3)) with (fc_suite (fc w2)). change (_kidCodec (fc w3)) with (_kidCodec (fc w2)).
  rewrite F2, F4, Ht. unfold postMessage, to_the_worker, optc. rewrite bind_modify, bind_gets.
  cbn beta. change (fo_role (fc_opts (fc (w3 <| to_worker ::= _ |>)))) with (fo_role (fc_opts (fc w2))).
  unfold epoch_events. rewrite F1, app_assoc, <- E1.
  destruct (fo_role (fc_opts (fc w))); eexists; (split; [reflexivity|]); [|done].
  split; [|done]. by rewrite app_assoc.
Qed.

Lemma run_app w l1 l2 : run w (l1 ++ l2) = run (run w l1) l2.
Proof. apply foldl_app. Qed.

Lemma run_step w ev r w' : step ev w = (r, w') -> run w [ev] = w'.
Proof. cbn. unfold step_world. by intros ->. Qed.

(** The worker of [w], which has been given the epochs [l]. *)
Definition linked (l : list EpochEntry) (w : CryptorWorld) : Prop :=
  let r := fc w in
  makeKidCodec (fo_kidFormat (fc_opts r)) (fo_mlsConfig (fc_opts r)) = Ok (_kidCodec r) /\
  if initialised r
  then driven (_kidCodec r) (fc_suite r) (fo_role (fc_opts r)) l (run initial_world (to_worker w))
  else to_worker w = [] /\ l = [].

(** The worker once it has been initialised. *)
Lemma linked_init l w :
  linked l w -> driven (_kidCodec (fc w)) (fc_suite (fc w)) (fo_role (fc_opts (fc w))) l
    (run initial_world (to_worker w ++ (if initialised (fc w) then [] else [init_event w]))).
Proof.
  intros [Hk Hl]. destruct (initialised (fc w)); [by rewrite app_nil_r|]. destruct Hl as [-> ->].
  destruct (driven_init (fc_opts (fc w)) _ (currentPeerIndex (fc w)) (fc_suite (fc w)) Hk) as (w' & Hs & Hd).
  cbn [app]. unfold init_event. by rewrite (run_step _ _ _ _ Hs).
Qed.

End Drive.

Section DriveLaws.
Context `{WebCryptoLaws}.

Lemma table_named chainKey epoch m suite c table p k :
  deriveEpochKeyTable chainKey epoch m suite c = Ok table -> table !! p = Some k -> named c epoch p k.
Proof.
  intros Ht Hp. apply deriveEpochKeyTable_lookup in Ht as [_ Hk]. apply Hk, deriveSenderKeys_wf in Hp.
  destruct Hp as [[E1 E2 E3 _ _ _] _]. by split.
Qed.

Lemma drive_one params w l x :
  linked l w -> entry_for (fc w) params x -> default (-1) (ent_epoch <$> last l) < ep_epoch params ->
  exists w', setEpoch params w = (Ok tt, w') /\ linked (l ++ [x]) w' /\ initialised (fc w') = true /\
    fixed (fc w') = fixed (fc w) /\ heard w' = heard w.
Proof.
  intros Hl (self & table & Hself & Ht & ->) Hlt.
  destruct (cryptor_setEpoch_run params w self table Hself Ht) as (w' & Hrun & Htw & Hi & Hf & Hh).
  exists w'. split_and!; try done. pose proof (linked_init l w Hl) as Hd.
  pose proof (fun p k => table_named _ _ _ _ _ _ p k Ht) as Hn.
  destruct (driven_epoch _ _ _ l _ self table _ Hd Hn Hlt) as (v & Hs1 & Hd1).
  unfold linked. rewrite Hi. unfold fixed in Hf. injection Hf as -> -> _ ->. split; [apply Hl|].
  rewrite Htw. unfold epoch_events. rewrite app_assoc, run_app, run_app.
  rewrite (run_step _ _ _ _ Hs1). destruct (fo_role (fc_opts (fc w))); [|exact Hd1].
  destruct (driven_rotate _ _ _ l _ self table v Hd1 Hn) as (v' & Hs2 & Hd2).
  by rewrite (run_step _ _ _ _ Hs2).
Qed.

(** Epochs above [prev] that rise from call to call. *)
Fixpoint rising (prev : Z) (ps : list EpochParams) : Prop :=
  match ps with
  | [] => True
  | params :: ps => prev < ep_epoch params /\ rising (ep_epoch params) ps
  end.

(** A call that does not throw: this node is in the map, and every key can be derived. *)
Definition accepted (r : FrameCryptor) (params : EpochParams) : bool :=
  bool_decide (is_Some (assoc_lookup (fo_peerId (fc_opts r)) (ep_peerIndexMap params))) &&
  is_ok (deriveEpochKeyTable (ep_chainKey params) (ep_epoch params) (ep_peerIndexMap params) (fc_suite r) (_kidCodec r)).

Lemma accepted_entry r params : accepted r params = true -> exists x, entry_for r params x /\ ent_epoch x = ep_epoch params.
Proof.
  unfold accepted. intros [[self Hs]%bool_decide_eq_true [table Ht]%is_ok_ex]%andb_true_iff.
  exists (mkEpochEntry (ep_epoch params) self table ∅). split; [|done]. by exists self, table.
Qed.

Lemma drive_all ps l w :
  linked l w -> Forall (fun p => accepted (fc w) p = true) ps -> rising (default (-1) (ent_epoch <$> last l)) ps ->
  exists w' l', set_epochs ps w = (Ok tt, w') /\ Forall2 (entry_for (fc w)) ps l' /\ linked (l ++ l') w' /\
    (ps <> [] -> initialised (fc w') = true) /\ fixed (fc w') = fixed (fc w) /\ heard w' = heard w.
Proof.
  revert l w. induction ps as [|params ps IH]; intros l w Hl Hacc Hr.
  { exists w, []. rewrite app_nil_r. split_and!; first [done|apply Forall2_nil_2|idtac]; done. }
  apply Forall_cons in Hacc as [Ha Hacc]. destruct Hr as [Hlt Hr].
  destruct (accepted_entry _ _ Ha) as (x & Hx & Ex).
  destruct (drive_one params w l x Hl Hx Hlt) as (w1 & Hrun & Hl1 & Hi & Hf & Hh).
  destruct (IH (l ++ [x]) w1) as (w2 & l2 & Hrun2 & H2 & Hl2 & Hi2 & Hf2 & Hh2); [done| | |].
  - eapply Forall_impl; [exact Hacc|]. intros p Hp. unfold accepted, fixed in *.
    injection Hf as -> -> _ ->. exact Hp.
  - rewrite last_snoc. cbn. by rewrite Ex.
  - exists w2, (x :: l2). cbn [set_epochs]. rewrite (bind_Ok _ _ _ _ _ Hrun), <- app_assoc in *.
    split_and!; try congruence; [|done|].
    + constructor; [done|]. eapply Forall2_impl; [exact H2|]. intros p y. by apply entry_for_fixed.
    + intros _. destruct ps as [|p ps]; [|by apply Hi2]. by injection Hrun2 as <-.
Qed.

End DriveLaws.

Lemma rising_above prev ps p : rising prev ps -> p ∈ ps -> prev < ep_epoch p.
Proof.
  revert prev. induction ps as [|q ps IH]; intros prev; [set_solver|]. intros [Hlt Hr] Hin.
  apply elem_of_cons in Hin as [->|Hin]; [done|]. specialize (IH _ Hr Hin). lia.
Qed.

Lemma rising_NoDup prev ps : rising prev ps -> NoDup (ep_epoch <$> ps).
Proof.
  revert prev. induction ps as [|p ps IH]; intros prev; [constructor|]. intros [_ Hr]. cbn. constructor; [|by eapply IH].
  intros (q & E & Hq)%list_elem_of_fmap. pose proof (rising_above _ _ _ Hr Hq). lia.
Qed.

Lemma map_of_entries_NoDup {V} (l : list (Z * V)) k v : NoDup l.*1 -> (k, v) ∈ l -> map_of_entries l !! k = Some v.
Proof.
  intros Hnd Hin. destruct (map_of_entries l !! k) as [v'|] eqn:E.
  - apply map_of_entries_lookup in E. assert ((k, v') = (k, v)) as [= ->]; [|done].
    by apply (NoDup_fmap_inj_in fst l).
  - exfalso. assert (is_Some (map_of_entries l !! k)) as [? Hs]; [|congruence].
    apply map_of_entries_is_Some. by apply (list_elem_of_fmap_2 fst) in Hin.
Qed.

Lemma new_linked `{WebCrypto} active b opts w0 :
  newFrameCryptor active b opts = Ok w0 ->
  linked [] w0 /\ heard w0 = (-1, worker_listens b, [], b) /\
  makeKidCodec (fo_kidFormat opts) (fo_mlsConfig opts) = Ok (_kidCodec (fc w0)) /\
  fc_suite (fc w0) = default DEFAULT_CIPHER_SUITE (fo_suite opts) /\ fc_opts (fc w0) = opts.
Proof.
  intros Hnew. destruct (new_conf_ok true (fun _ => True) _ _ _ _ Hnew) as (_ & Ho & Hk & Hs & _).
  unfold linked. rewrite Ho, Hk. revert Hnew. unfold newFrameCryptor.
  destruct (assertSuiteAllowed _ _) as [[]|]; [|done]. cbn [mbind result_bind].
  destruct (makeKidCodec _ _); [|done]. cbn [mbind result_bind].
  destruct (_ && negb (fo_allowTransitOnly opts)); [done|]. by intros <-%Ok_inj.
Qed.

(** ** The cryptor hears of it *)

Section Deliver.
Context `{WebCrypto}.

Lemma workerMessage_applied show e w :
  workerListener (fc w) = true -> exists w',
    (workerMessage (Some (message_data show (o_epoch_applied e))) w).2 = w' /\
    workerListener (fc w') = true /\ appliedEpoch (fc w') = e /\ fc_opts (fc w') = fc_opts (fc w) /\
    notices w' = notices w ++ (if fo_onEpochApplied (fc_opts (fc w)) then [n_epoch_applied e] else []).
Proof.
  intros Hl. eexists. split; [reflexivity|]. set (w1 := w <| fc ::= fun r => r <| appliedEpoch := e |> |>).
  assert (workerMessage (Some (message_data show (o_epoch_applied e))) w =
    notify fo_onEpochApplied (n_epoch_applied e) w1) as ->.
  { unfold workerMessage. rewrite bind_gets. cbn beta. by rewrite Hl. }
  unfold notify, optc. rewrite bind_gets. cbn beta. change (fc_opts (fc w1)) with (fc_opts (fc w)).
  destruct (fo_onEpochApplied _); [done|]. split_and!; try done. by rewrite app_nil_r.
Qed.

Lemma deliver_applied show es w :
  workerListener (fc w) = true ->
  let w' := deliver_all show w (o_epoch_applied <$> es) in
  getAppliedEpoch w' = default (appliedEpoch (fc w)) (last es) /\
  notices w' = notices w ++ (if fo_onEpochApplied (fc_opts (fc w)) then n_epoch_applied <$> es else []).
Proof.
  cbv zeta. revert w. induction es as [|e es IH]; intros w Hl.
  { cbn. by destruct (fo_onEpochApplied _); rewrite app_nil_r. }
  rewrite !fmap_cons.
  destruct (workerMessage_applied show e w Hl) as (w' & E & H1 & H2 & H3 & H4).
  change (deliver_all show w (o_epoch_applied e :: (o_epoch_applied <$> es))) with
    (deliver_all show (workerMessage (Some (message_data show (o_epoch_applied e))) w).2 (o_epoch_applied <$> es)).
  rewrite E. destruct (IH w' H1) as [IH1 IH2]. rewrite IH1, IH2, H2, H3, H4.
  rewrite last_cons. split; [by destruct (last es)|].
  destruct (fo_onEpochApplied _); by rewrite ?app_nil_r, <- ?app_assoc.
Qed.

Lemma deliver_started show es w :
  deliver_all show w ([o_spawned; o_ready] ++ es) = deliver_all show w es.
Proof.
  unfold deliver_all. cbn [app foldl].
  assert (forall m, m = o_spawned \/ m = o_ready -> forall w, (workerMessage (Some (message_data show m)) w).2 = w) as Hm.
  { intros m Hm w'. unfold workerMessage. rewrite bind_gets. cbn beta.
    destruct (workerListener _); [|done]. by destruct Hm as [-> | ->]. }
  rewrite !Hm; auto.
Qed.

End Deliver.

(** ** Properties *)

(** C6. The cryptor and its worker agree: a cryptor just constructed is given epochs that rise, and
    its messages are played by a worker just started. Every call returns; the worker then holds each
    of these epochs with exactly the key table that the main thread derived and this node's index,
    the last of them is current and the counter is at 0; and once the worker's messages are
    delivered, [getAppliedEpoch] is the last epoch and the application was told of each, in order. *)
Theorem cryptor_drives_worker `{WebCryptoLaws} (active : FipsState) (b : Browser)
    (opts : FrameCryptorOptions) (w0 : CryptorWorld) (ps : list EpochParams) (last_epoch : Z)
    (show : js_error -> string)
    (Hnew : newFrameCryptor active b opts = Ok w0)
    (Hacc : Forall (fun p => accepted (fc w0) p = true) ps) (Hrise : rising (-1) ps)
    (Hlast : ep_epoch <$> last ps = Some last_epoch) :
  exists w1, set_epochs ps w0 = (Ok tt, w1) /\
    let worker := run initial_world (to_worker w1) in
    let w2 := deliver_all show w1 (posted worker) in
    (forall params, params ∈ ps -> exists x, entry_for (fc w0) params x /\
       epochs (ws worker) !! ep_epoch params = Some x) /\
    (forall e, is_Some (epochs (ws worker) !! e) -> e ∈ ep_epoch <$> ps) /\
    currentEpoch (ws worker) = last_epoch /\ ws_ctr (ws worker) = 0 /\
    (worker_listens b = true -> getAppliedEpoch w2 = last_epoch /\
       notices w2 = if fo_onEpochApplied opts then n_epoch_applied <$> (ep_epoch <$> ps) else []).
Proof.
  destruct (new_linked _ _ _ _ Hnew) as (Hl0 & Hh0 & _ & _ & Ho).
  destruct (drive_all ps [] w0 Hl0 Hacc Hrise) as (w1 & l & Hrun & Hent & [_ Hd] & Hi & Hf & Hh).
  exists w1. split; [done|]. cbv zeta. set (worker := run _ _) in *.
  rewrite (Hi ltac:(by intros ->)) in Hd. rewrite app_nil_l in Hd.
  destruct Hd as [_ De Dc _ Dct Dp].
  assert (ent_epoch <$> l = ep_epoch <$> ps) as El.
  { clear -Hent. induction Hent as [|p x ps l (self & table & _ & _ & ->) _ IH]; [done|]. cbn. by rewrite IH. }
  assert (NoDup (ent_epoch <$> l)) as Hnd by (rewrite El; by apply (rising_NoDup (-1))).
  split_and!.
  - intros params Hp. apply list_elem_of_lookup in Hp as [i Hp].
    destruct (Forall2_lookup_l _ _ _ _ _ Hent Hp) as (x & Hx & Hpx). exists x. split; [done|].
    rewrite De. apply map_of_entries_NoDup.
    + by rewrite <- list_fmap_compose.
    + apply list_elem_of_fmap. exists x. split; [|by eapply list_elem_of_lookup_2].
      by destruct Hpx as (self & table & _ & _ & ->).
  - intros e. rewrite De, map_of_entries_is_Some, <- list_fmap_compose, <- El. done.
  - rewrite Dc, <- fmap_last, El, fmap_last, Hlast. done.
  - done.
  - intros Hlis. rewrite Dp. rewrite Hh0 in Hh. unfold heard in Hh. injection Hh as H1 H2 H3 _.
    unfold fixed in Hf. injection Hf as F1 _ _ _. rewrite deliver_started.
    change ((fun x : EpochEntry => o_epoch_applied (ent_epoch x)) <$> l) with ((o_epoch_applied ∘ ent_epoch) <$> l).
    rewrite list_fmap_compose, El. rewrite Hlis in H2.
    destruct (deliver_applied show (ep_epoch <$> ps) w1 H2) as [G1 G2]. cbv zeta in G1, G2.
    rewrite G1, G2, H3, F1, Ho, fmap_last, Hlast. done.
Qed.

(** Alice, a sender, is given the epochs 1 and 3. *)
Definition demo_cryptor (role : Role) (peerId : string) (peerIndex : Z) : res (CryptorWorld (H := toy)) :=
  newFrameCryptor None demo_browser (demo_cryptor_opts role peerId peerIndex).

Lemma cryptor_drives_worker_witness :
  match demo_cryptor sender "alice" 0 with
  | Ok w0 => exists w1, set_epochs [demo_params 1; demo_params 3] w0 = (Ok tt, w1) /\
      let worker := run initial_world (to_worker w1) in
      currentEpoch (ws worker) = 3 /\
      getAppliedEpoch (deliver_all (fun _ => ""%string) w1 (posted worker)) = 3
  | Throw _ => False
  end.
Proof.
  destruct (is_ok_ex (demo_cryptor sender "alice" 0)) as [w0 E]; [vm_compute; reflexivity|]. rewrite E.
  assert (forallb (accepted (fc w0)) [demo_params 1; demo_params 3] = true) as Hacc.
  { pose proof E as E'. apply Ok_inj in E'. subst w0. vm_compute. reflexivity. }
  apply andb_true_iff in Hacc as [Ha1 Hacc]. apply andb_true_iff in Hacc as [Ha2 _].
  destruct (cryptor_drives_worker None demo_browser _ w0 [demo_params 1; demo_params 3] 3 (fun _ => ""%string) E)
    as (w1 & Hrun & _ & _ & Hc & _ & Hh).
  - constructor; [exact Ha1|constructor; [exact Ha2|constructor]].
  - split; [reflexivity|split; [reflexivity|exact I]].
  - reflexivity.
  - exists w1. split; [exact Hrun|]. split; [exact Hc|]. apply Hh. reflexivity.
Defined.
