(* ===== verification/CryptorE2E.v ===== *)
(** * CryptorE2E: from the sending application to the receiving one

    Two frame cryptors, their workers, and a stream of frames between them. *)
From S2P Require Import Prelude StateLogic Keys Errors Internal Header Kid PeerMap WebCrypto Toy Crypto.
From S2P Require Import SFrame Codec Replay Fips WorkerTypes WorkerState WorkerFrame Worker Demo.
From S2P Require Import WorkerLogic WorkerRatchet WorkerEvents WorkerEpochs WorkerSend WorkerGates WorkerE2E WorkerStream.
From S2P Require Import WorkerKeys Cryptor CryptorProtocol CryptorDrive.
From Stdlib Require Import Strings.Byte.
From S2P Require Durable.
#[local] Open Scope Z_scope.

Section E2E.
Context `{WebCryptoLaws}.

(** The worker of a cryptor that was given [ps], the last of them [params]. *)
Lemma driven_worker ps params w :
  linked [] w -> Forall (fun p => accepted (fc w) p = true) ps -> rising (-1) ps -> last ps = Some params ->
  exists w' l x, set_epochs ps w = (Ok tt, w') /\ entry_for (fc w) params x /\
    driven (_kidCodec (fc w)) (fc_suite (fc w)) (fo_role (fc_opts (fc w))) (l ++ [x]) (run initial_world (to_worker w')).
Proof.
  intros Hl Hacc Hr Hlast. destruct (drive_all ps [] w Hl Hacc Hr) as (w' & l & Hrun & Hent & [_ Hd] & Hi & Hf & _).
  rewrite (Hi ltac:(by intros ->)), app_nil_l in Hd. unfold fixed in Hf. injection Hf as E1 E2 _ E4.
  rewrite E1, E2, E4 in Hd.
  apply last_Some in Hlast as [ps' ->]. apply Forall2_app_inv_l in Hent as (l1 & l2 & _ & H2 & ->).
  apply Forall2_cons_inv_l in H2 as (x & l3 & Hx & H3 & ->). apply Forall2_nil_inv_l in H3 as ->.
  by exists w', l1, x.
Qed.

Lemma driven_last codec suite role l x v :
  driven codec suite role (l ++ [x]) v ->
  epochs (ws v) !! ent_epoch x = Some x /\ currentEpoch (ws v) = ent_epoch x.
Proof.
  intros [_ De Dc _ _ _]. rewrite last_snoc in Dc. split; [|exact Dc].
  by rewrite De, fmap_app, list_fmap_singleton, map_of_entries_snoc, lookup_insert_eq.
Qed.

Lemma driven_sending codec suite role l e self table (k : SenderKey) v :
  driven codec suite role (l ++ [mkEpochEntry e self table ∅]) v -> table !! self = Some k ->
  sending k None None 0 v.
Proof.
  intros Hd Hk. destruct (driven_last _ _ _ _ _ _ Hd) as [He Hc]. cbn [ent_epoch] in *.
  pose proof (dr_idle _ _ _ _ _ Hd) as Hi. unfold idle, idle_view in Hi. injection Hi as _ _ _ _ _ _ _ _ _ _ _ _ I13 I14 _ _ _.
  split; [|exact I14|exact I13|by apply Hd]. unfold send_key. by rewrite Hc, He.
Qed.

Lemma driven_receiving codec suite role l e self p table (k : SenderKey) v :
  driven codec suite role (l ++ [mkEpochEntry e self table ∅]) v -> KidCodecLaws codec ->
  table !! p = Some k -> encode codec e p = Ok (key_kid k) -> receiving k None None e p [] v.
Proof.
  intros Hd Hlaws Hk Henc. destruct (driven_last _ _ _ _ _ _ Hd) as [He Hc]. cbn [ent_epoch] in *.
  pose proof (codec_range _ _ _ Henc) as (_ & Hpos & _).
  pose proof (dr_idle _ _ _ _ _ Hd) as Hi. unfold idle, idle_view in Hi.
  injection Hi as I1 _ _ _ _ I6 I7 I8 I9 I10 I11 I12 I13 I14 _ _ _.
  assert (window_of (ws v) e p = newReplayWindow 64) as Hw.
  { unfold window_of, nested_lookup. by rewrite I8, I9. }
  split; try done.
  - lia.
  - lia.
  - lia.
  - rewrite I1. by apply codec_roundtrip.
  - exists k. split; [|done]. unfold lookup_key. by rewrite He.
  - intros g. unfold getFormatCache. by rewrite I10.
  - rewrite Hw. split_and!; [apply wf_new|done|]. intros x. set_solver.
Qed.

(** Two cryptors that are given the same epochs, and a stream of frames between their workers. *)
Lemma linked_talk w1 w2 ps fs js :
  linked [] w1 -> linked [] w2 -> _kidCodec (fc w1) = _kidCodec (fc w2) -> fc_suite (fc w1) = fc_suite (fc w2) ->
  ps <> [] -> rising (-1) ps ->
  Forall (fun p => accepted (fc w1) p = true) ps -> Forall (fun p => accepted (fc w2) p = true) ps ->
  Forall (fun f => Z.of_nat (length (frame_data f)) < 2 ^ 36 - 32) fs -> Z.of_nat (length fs) <= 2 ^ 64 ->
  NoDup js -> Forall (fun j => (j < length fs)%nat) js ->
  exists v1 v2, set_epochs ps w1 = (Ok tt, v1) /\ set_epochs ps w2 = (Ok tt, v2) /\
    let wires := pass side_encode (run initial_world (to_worker v1)) fs in
    length wires = length fs /\
    pass side_decode (run initial_world (to_worker v2)) (omap (fun j => wires !! j) js) = omap (fun j => fs !! j) js.
Proof.
  intros Hl1 Hl2 Hk1 Hs1 Hps Hrise Hacc1 Hacc2 Hsize Hmax Hjs Hin.
  destruct (last ps) as [params|] eqn:Hlast; [|by apply last_None in Hlast].
  destruct (driven_worker ps params w1 Hl1 Hacc1 Hrise Hlast) as (v1 & l1 & x1 & Hrun1 & Hx1 & Hd1).
  destruct (driven_worker ps params w2 Hl2 Hacc2 Hrise Hlast) as (v2 & l2 & x2 & Hrun2 & Hx2 & Hd2).
  exists v1, v2. split; [done|]. split; [done|]. cbv zeta.
  destruct Hx1 as (self1 & table & Hself1 & Ht1 & ->), Hx2 as (self2 & table2 & Hself2 & Ht2 & ->).
  rewrite Hk1, Hs1, Ht2 in Ht1. apply Ok_inj in Ht1 as <-.
  pose proof (deriveEpochKeyTable_lookup _ _ _ _ _ _ Ht2) as [Hdom Hder].
  destruct (proj2 (Hdom self1)) as [k Hk].
  { apply assoc_lookup_elem, (list_elem_of_fmap_2 snd) in Hself1. done. }
  pose proof (deriveSenderKeys_wf _ _ _ _ _ _ (Hder _ _ Hk)) as Hwf. destruct Hwf as [[E1 _ _ _ _ E6] _].
  pose proof (makeKidCodec_laws _ _ _ (proj1 Hl2)) as Hlaws.
  pose proof (codec_range _ _ _ E1) as (Hkid & _).
  pose proof (driven_sending _ _ _ _ _ _ _ k _ Hd1 Hk) as Ha.
  pose proof (driven_receiving _ _ _ _ _ _ self1 _ k _ Hd2 Hlaws Hk E1) as Hb.
  assert (Forall (fun f => (clear_bytes None <= length (frame_data f))%nat) fs) as Hlen.
  { apply Forall_true. intros f. unfold clear_bytes. cbn. lia. }
  split.
  - apply (pass_length k None None 0); try done. by apply seals_all.
  - by apply (stream_delivers k None None 0 (ep_epoch params) self1 []).
Qed.

End E2E.

(** ** Properties *)

(** C2. End to end, from application to application: two frame cryptors with the same suite and KID
    format are constructed and given the same epochs in the same order, their messages are played by
    two workers just started, and any frames go through the sender's worker. Every frame is put out;
    and whatever part of the wires reaches the receiver's worker, in whatever order, each at most
    once, it puts out exactly those frames, in that order, with the contents and the type the
    sending application gave. *)
Theorem cryptors_talk `{WebCryptoLaws} (f1 f2 : FipsState) (b1 b2 : Browser) (o1 o2 : FrameCryptorOptions)
    (w1 w2 : CryptorWorld) (ps : list EpochParams) (fs : list Frame) (js : list nat)
    (Hnew1 : newFrameCryptor f1 b1 o1 = Ok w1) (Hnew2 : newFrameCryptor f2 b2 o2 = Ok w2)
    (Hsuite : fo_suite o1 = fo_suite o2) (Hfmt : fo_kidFormat o1 = fo_kidFormat o2)
    (Hcfg : fo_mlsConfig o1 = fo_mlsConfig o2)
    (Hps : ps <> []) (Hrise : rising (-1) ps)
    (Hacc1 : Forall (fun p => accepted (fc w1) p = true) ps)
    (Hacc2 : Forall (fun p => accepted (fc w2) p = true) ps)
    (Hsize : Forall (fun f => Z.of_nat (length (frame_data f)) < 2 ^ 36 - 32) fs)
    (Hmax : Z.of_nat (length fs) <= 2 ^ 64)
    (Hjs : NoDup js) (Hin : Forall (fun j => (j < length fs)%nat) js) :
  exists v1 v2, set_epochs ps w1 = (Ok tt, v1) /\ set_epochs ps w2 = (Ok tt, v2) /\
    let sender_worker := run initial_world (to_worker v1) in
    let receiver_worker := run initial_world (to_worker v2) in
    let wires := pass side_encode sender_worker fs in
    length wires = length fs /\
    pass side_decode receiver_worker (omap (fun j => wires !! j) js) = omap (fun j => fs !! j) js.
Proof.
  destruct (new_linked _ _ _ _ Hnew1) as (Hl1 & _ & Hk1 & Hs1 & _).
  destruct (new_linked _ _ _ _ Hnew2) as (Hl2 & _ & Hk2 & Hs2 & _).
  rewrite Hfmt, Hcfg, Hk2 in Hk1. apply Ok_inj in Hk1. rewrite Hsuite, <- Hs2 in Hs1.
  by apply linked_talk.
Qed.

(** Alice sends three frames; Bob's worker gets the third and then the first. *)
Definition demo_stream : list Frame :=
  [mkFrame demo_data (Some "key"%string); mkFrame [] (Some "delta"%string); mkFrame [x01; x02] None].

Lemma cryptors_talk_witness :
  match demo_cryptor sender "alice" 0, demo_cryptor receiver "bob" 1 with
  | Ok w1, Ok w2 => exists v1 v2,
      set_epochs [demo_params 1; demo_params 3] w1 = (Ok tt, v1) /\
      set_epochs [demo_params 1; demo_params 3] w2 = (Ok tt, v2) /\
      pass side_decode (run initial_world (to_worker v2))
        (omap (fun j => pass side_encode (run initial_world (to_worker v1)) demo_stream !! j) [2%nat; 0%nat])
      = [mkFrame [x01; x02] None; mkFrame demo_data (Some "key"%string)]
  | _, _ => False
  end.
Proof.
  destruct (is_ok_ex (demo_cryptor sender "alice" 0)) as [w1 E1]; [vm_compute; reflexivity|].
  destruct (is_ok_ex (demo_cryptor receiver "bob" 1)) as [w2 E2]; [vm_compute; reflexivity|].
  rewrite E1, E2.
  assert (forallb (accepted (fc w1)) [demo_params 1; demo_params 3] = true) as Hacc1.
  { pose proof E1 as E. apply Ok_inj in E. subst w1. vm_compute. reflexivity. }
  assert (forallb (accepted (fc w2)) [demo_params 1; demo_params 3] = true) as Hacc2.
  { pose proof E2 as E. apply Ok_inj in E. subst w2. vm_compute. reflexivity. }
  apply andb_true_iff in Hacc1 as [A1 Hacc1]. apply andb_true_iff in Hacc1 as [A2 _].
  apply andb_true_iff in Hacc2 as [B1 Hacc2]. apply andb_true_iff in Hacc2 as [B2 _].
  destruct (cryptors_talk None None demo_browser demo_browser _ _ w1 w2 [demo_params 1; demo_params 3]
    demo_stream [2%nat; 0%nat] E1 E2 eq_refl eq_refl eq_refl) as (v1 & v2 & H1 & H2 & _ & Hpass).
  - discriminate.
  - split; [reflexivity|split; [reflexivity|exact I]].
  - constructor; [exact A1|constructor; [exact A2|constructor]].
  - constructor; [exact B1|constructor; [exact B2|constructor]].
  - repeat constructor.
  - discriminate.
  - apply (bool_decide_unpack _). vm_compute. reflexivity.
  - apply (bool_decide_unpack _). vm_compute. reflexivity.
  - exists v1, v2. split; [exact H1|split; [exact H2|exact Hpass]].
Defined.
