(* ===== verification/MlsEpoch.v ===== *)
(** * MlsEpoch: epochs from an MLS group (src/mls/index.ts)

    The ts-mls package is the class [TsMls]; [TsMlsLaws] is what its documentation promises of the
    functions this file calls. A [ProviderWorld] is a provider with the frame cryptor it drives, the
    chain-key buffers it was handed by the exporter, in order, and what it told the application. A
    call of [applyEpoch] runs to its end. *)
From S2P Require Import Prelude StateLogic Keys Errors Internal Header Kid PeerMap WebCrypto Toy Crypto.
From S2P Require Import SFrame Codec Replay Fips WorkerTypes WorkerState WorkerFrame Worker Demo.
From S2P Require Import WorkerKeys WorkerStream Cryptor CryptorProtocol CryptorDrive CryptorE2E.
From Stdlib Require Import Strings.Byte.
From stdpp Require Import sorting.
From S2P Require Room.
From S2P Require RoomE2E.
#[local] Open Scope Z_scope.

(** ** The interface of ts-mls *)

Class TsMls := {
  ClientState : Type;
  CiphersuiteImpl : Type;
  LeafNode : Type;
  (** [groupContext.epoch], a bigint; [keySchedule.exporterSecret] and [.epochAuthenticator] *)
  groupEpoch : ClientState -> Z;
  exporterSecret : ClientState -> bytes;
  epochAuthenticator : ClientState -> bytes;
  getGroupMembers : ClientState -> list LeafNode;
  (** [credential.credentialType] where it is a number, [credential.identity], [signaturePublicKey] *)
  credentialType : LeafNode -> option Z;
  identity : LeafNode -> bytes;
  signaturePublicKey : LeafNode -> bytes;
  (** [defaultCredentialTypes.basic] *)
  basic : Z;
  bytesToBase64 : bytes -> string;
  (** exporter secret, label, context, length, ciphersuite *)
  mlsExporter : bytes -> string -> bytes -> Z -> CiphersuiteImpl -> res bytes;
  zeroOutUint8Array : bytes -> bytes
}.

Class TsMlsLaws `{TsMls} : Prop := {
  base64_inj a b : bytesToBase64 a = bytesToBase64 b -> a = b;
  (** the alphabet of base64 has no underscore *)
  base64_no_underscore bs : bytesToBase64 bs <> "__proto__"%string;
  mlsExporter_length secret label context n cs out :
    mlsExporter secret label context n cs = Ok out -> Z.of_nat (length out) = n;
  zeroOut_zeros bs : zeroOutUint8Array bs = zeros (length bs)
}.

Definition MLS_EXPORTER_LABEL : string := "sframe-ratchet/epoch".

Definition suiteByte (suite : CipherSuite) : Z :=
  match suite with AES_128_GCM_SHA256 => 4 | AES_256_GCM_SHA512 => 5 end.

Section Mls.
Context `{WebCrypto} `{TsMls}.

Definition defaultCredentialToPeerId (leaf : LeafNode) : string :=
  match credentialType leaf with
  | Some t => if t =? basic then bytesToBase64 (identity leaf) else bytesToBase64 (signaturePublicKey leaf)
  | None => bytesToBase64 (signaturePublicKey leaf)
  end.

(** ** Epoch material *)

Record MlsEpochMaterial := mkMaterial {
  em_epoch : Z;
  em_peerIndexMap : list (string * jsnum);
  em_chainKey : bytes;
  em_epochAuthenticator : bytes
}.

(** [groupId || suiteByte] in a fresh buffer. *)
Definition exporter_context (suite : CipherSuite) (groupId : bytes) : res bytes :=
  context ← u8_set (zeros (length groupId + 1)) 0 groupId;
  mret (<[length groupId := z2b (suiteByte suite)]> context).

(** The answer of [validatePeerIndexMap], which does not throw, is not used. *)
Definition deriveMlsEpochMaterial (state : ClientState) (cs : CiphersuiteImpl) (suite : CipherSuite)
    (groupId : bytes) (maxEpoch : option jsnum) (credentialToPeerId : option (LeafNode -> string))
    : res MlsEpochMaterial :=
  let maxEpoch := default (JsInt 0xFFFF) maxEpoch in
  let credentialToPeerId := default defaultCredentialToPeerId credentialToPeerId in
  let epoch := f64_round (groupEpoch state) in
  if js_floor maxEpoch <? epoch
  then Throw (RangeError "deriveMlsEpochMaterial: MLS epoch exceeds maxEpoch") else
  let members := getGroupMembers state in
  if (length members =? 0)%nat
  then Throw (GenericError "deriveMlsEpochMaterial: MLS group has no members") else
  let peerIds := credentialToPeerId <$> members in
  let peerIndexMap := buildPeerIndexMap peerIds in
  let _ := validatePeerIndexMap peerIndexMap in
  context ← exporter_context suite groupId;
  chainKey ← mlsExporter (exporterSecret state) MLS_EXPORTER_LABEL context (chainKeyBytes (suiteParams suite)) cs;
  mret (mkMaterial epoch peerIndexMap chainKey (epochAuthenticator state)).

(** ** The provider *)

(** [MlsRatchetProviderOptions]; the two flags say whether a callback is given. *)
Record MlsRatchetProviderOptions := mkProviderOptions {
  po_suite : CipherSuite;
  po_groupId : bytes;
  po_maxEpoch : option jsnum;
  po_nEpochBits : option jsnum;
  po_credentialToPeerId : option (LeafNode -> string);
  po_onEpochApplied : bool;
  po_onEpochAuthenticator : bool
}.

Inductive Told :=
| told_authenticator (authenticator : bytes)
| told_applied (epoch : Z) (peerIndexMap : list (string * jsnum)).

Record ProviderWorld := mkProviderWorld {
  pv_opts : MlsRatchetProviderOptions;
  pv_maxEpoch : jsnum;
  disposed : bool;
  frameCryptor : CryptorWorld;
  chain_keys : list bytes;
  told : list Told
}.

#[export] Instance eta_provider_world : Eta ProviderWorld := fun r =>
  mkProviderWorld (pv_opts r) (pv_maxEpoch r) (disposed r) (frameCryptor r) (chain_keys r) (told r).

(** ToInt32 truncates towards zero. *)
Definition js_trunc (n : jsnum) : Z :=
  match n with JsInt z => z | JsFrac f => if f <? 0 then f + 1 else f end.

Definition effective_maxEpoch (opts : MlsRatchetProviderOptions) : jsnum :=
  match po_maxEpoch opts, po_nEpochBits opts with
  | Some maxEpoch, _ => maxEpoch
  | None, Some nEpochBits => JsInt (js_shl 1 (js_trunc nEpochBits) - 1)
  | None, None => JsInt 0xFFFF
  end.

Definition createMlsRatchetProvider (frameCryptor : CryptorWorld) (opts : MlsRatchetProviderOptions)
    : ProviderWorld :=
  {| pv_opts := opts; pv_maxEpoch := effective_maxEpoch opts; disposed := false;
     frameCryptor := frameCryptor; chain_keys := []; told := [] |}.

Abbreviation PM := (M ProviderWorld js_error).

Definition callback (wanted : MlsRatchetProviderOptions -> bool) (t : Told) : PM unit :=
  on ← gets (fun w => wanted (pv_opts w));
  if on : bool then modify (fun w => w <| told ::= fun l => l ++ [t] |>) else mret tt.

Definition applyEpoch (state : ClientState) (cs : CiphersuiteImpl) : PM unit :=
  gone ← gets disposed;
  if gone : bool then throw (GenericError "MlsRatchetProvider: disposed") else
  w ← gets id;
  let o := pv_opts w in
  material ← lift (deriveMlsEpochMaterial state cs (po_suite o) (po_groupId o) (Some (pv_maxEpoch w))
                     (po_credentialToPeerId o));
  chainKey ← gets (fun w => length (chain_keys w));
  modify (fun w => w <| chain_keys ::= fun l => l ++ [em_chainKey material] |>);;
  zoom frameCryptor (fun c w => w <| frameCryptor := c |>)
    (Cryptor.setEpoch (mkEpochParams (em_epoch material) (Room.indices (em_peerIndexMap material))
                         (em_chainKey material)));;
  callback po_onEpochAuthenticator (told_authenticator (em_epochAuthenticator material));;
  callback po_onEpochApplied (told_applied (em_epoch material) (em_peerIndexMap material));;
  modify (fun w => w <| chain_keys ::= alter zeroOutUint8Array chainKey |>).

Definition getEpochAuthenticator (state : ClientState) : bytes := epochAuthenticator state.

Definition dispose : PM unit := modify (fun w => w <| disposed := true |>).

(** Calls of [applyEpoch], each awaited before the next. *)
Fixpoint apply_epochs (states : list ClientState) (cs : CiphersuiteImpl) : PM unit :=
  match states with
  | [] => mret tt
  | state :: states => applyEpoch state cs;; apply_epochs states cs
  end.

End Mls.

(** ** Lemmas: the exporter's context *)

Lemma exporter_context_run suite groupId :
  exporter_context suite groupId = Ok (groupId ++ [z2b (suiteByte suite)]).
Proof.
  unfold exporter_context. rewrite zeros_app.
  pose proof (u8_set_mid [] (zeros (length groupId)) (zeros 1) 0 groupId) as Hs. simpl app in Hs.
  rewrite Hs; [|done|by rewrite length_zeros]. cbn [mbind result_bind]. unfold mret, result_ret. f_equal.
  rewrite <- (Nat.add_0_r (length groupId)) at 1. by rewrite insert_app_r.
Qed.

Lemma suiteByte_inj s1 s2 : z2b (suiteByte s1) = z2b (suiteByte s2) -> s1 = s2.
Proof. destruct s1, s2; [done|by vm_compute|by vm_compute|done]. Qed.

Lemma exporter_context_inj s1 s2 g1 g2 :
  exporter_context s1 g1 = exporter_context s2 g2 -> s1 = s2 /\ g1 = g2.
Proof.
  rewrite !exporter_context_run. intros [Hg Hs]%Ok_inj%app_inj_tail. split; [by apply suiteByte_inj|done].
Qed.

(** ** Lemmas: one call of the provider *)

Section Lemmas.
Context `{WebCryptoLaws} `{TsMlsLaws}.

(** The identifiers of the members, by the mapping of the provider. *)
Definition member_ids (o : MlsRatchetProviderOptions) (state : ClientState) : list string :=
  default defaultCredentialToPeerId (po_credentialToPeerId o) <$> getGroupMembers state.

(** What the exporter is asked for. *)
Definition exported (o : MlsRatchetProviderOptions) (state : ClientState) (cs : CiphersuiteImpl) : res bytes :=
  mlsExporter (exporterSecret state) MLS_EXPORTER_LABEL (po_groupId o ++ [z2b (suiteByte (po_suite o))])
    (chainKeyBytes (suiteParams (po_suite o))) cs.

Lemma derive_run o state cs maxEpoch :
  deriveMlsEpochMaterial state cs (po_suite o) (po_groupId o) (Some maxEpoch) (po_credentialToPeerId o) =
  if js_floor maxEpoch <? f64_round (groupEpoch state)
  then Throw (RangeError "deriveMlsEpochMaterial: MLS epoch exceeds maxEpoch") else
  if (length (getGroupMembers state) =? 0)%nat
  then Throw (GenericError "deriveMlsEpochMaterial: MLS group has no members") else
  match exported o state cs with
  | Ok chainKey => Ok (mkMaterial (f64_round (groupEpoch state)) (buildPeerIndexMap (member_ids o state)) chainKey
                         (epochAuthenticator state))
  | Throw e => Throw e
  end.
Proof.
  unfold deriveMlsEpochMaterial. cbn [default]. destruct (_ <? _); [done|]. destruct (_ =? _)%nat; [done|].
  cbv zeta. rewrite exporter_context_run. cbn [mbind result_bind]. unfold exported. by destruct (mlsExporter _ _ _ _ _).
Qed.

(** What the provider gives its frame cryptor for a state. *)
Definition params_of (o : MlsRatchetProviderOptions) (state : ClientState) (chainKey : bytes) : EpochParams :=
  mkEpochParams (f64_round (groupEpoch state)) (Room.indices (buildPeerIndexMap (member_ids o state))) chainKey.

Lemma callback_run wanted t w :
  callback wanted t w = (Ok tt, mkProviderWorld (pv_opts w) (pv_maxEpoch w) (disposed w) (frameCryptor w)
    (chain_keys w) (told w ++ if wanted (pv_opts w) then [t] else [])).
Proof.
  unfold callback. rewrite bind_gets. cbn beta. destruct (wanted _); [by destruct w|].
  rewrite app_nil_r. by destruct w.
Qed.

(** What the application is told of a state. *)
Definition told_of (o : MlsRatchetProviderOptions) (state : ClientState) : list Told :=
  (if po_onEpochAuthenticator o then [told_authenticator (epochAuthenticator state)] else []) ++
  (if po_onEpochApplied o
   then [told_applied (f64_round (groupEpoch state)) (buildPeerIndexMap (member_ids o state))] else []).

(** A call of [applyEpoch], by what the derivation and the frame cryptor answer. *)
Lemma applyEpoch_run state cs w :
  disposed w = false ->
  let o := pv_opts w in
  applyEpoch state cs w =
  match deriveMlsEpochMaterial state cs (po_suite o) (po_groupId o) (Some (pv_maxEpoch w)) (po_credentialToPeerId o) with
  | Throw e => (Throw e, w)
  | Ok m =>
      let call := Cryptor.setEpoch (params_of o state (em_chainKey m)) (frameCryptor w) in
      match call.1 with
      | Ok _ => (Ok tt, mkProviderWorld o (pv_maxEpoch w) false call.2
                          (chain_keys w ++ [zeros (length (em_chainKey m))]) (told w ++ told_of o state))
      | Throw e => (Throw e, mkProviderWorld o (pv_maxEpoch w) false call.2
                               (chain_keys w ++ [em_chainKey m]) (told w))
      end
  end.
Proof.
  intros Hd. cbv zeta. destruct w as [o mx d fc0 cks tl]. cbn [pv_opts pv_maxEpoch frameCryptor chain_keys told disposed] in *.
  subst d. unfold applyEpoch. rewrite bind_gets. cbn [disposed]. rewrite bind_gets. cbn [id pv_opts pv_maxEpoch].
  rewrite bind_lift, derive_run. destruct (_ <? _); [done|]. destruct (_ =? _)%nat; [done|].
  destruct (exported o state cs) as [ck|e]; [|done]. rewrite bind_gets, bind_modify. cbn [chain_keys em_chainKey em_epoch em_peerIndexMap em_epochAuthenticator].
  change ((mkProviderWorld o mx false fc0 cks tl) <| chain_keys ::= fun l => l ++ [ck] |>)
    with (mkProviderWorld o mx false fc0 (cks ++ [ck]) tl).
  fold (params_of o state ck). destruct (Cryptor.setEpoch (params_of o state ck) fc0) as [[[]|e] c] eqn:E; cbn [fst snd].
  - erewrite bind_Ok by (apply zoom_run; exact E). rewrite (bind_Ok _ _ _ _ _ (callback_run _ _ _)).
    rewrite (bind_Ok _ _ _ _ _ (callback_run _ _ _)). unfold modify. f_equal.
    transitivity (mkProviderWorld o mx false c (alter zeroOutUint8Array (length cks) (cks ++ [ck])) (tl ++ told_of o state)).
    + unfold told_of. by rewrite app_assoc.
    + rewrite alter_app_r_alt, Nat.sub_diag by lia. cbn. by rewrite zeroOut_zeros.
  - erewrite bind_Throw by (apply zoom_run; exact E). done.
Qed.

Lemma assoc_lookup_is_Some {V} (k : string) (l : list (string * V)) : is_Some (assoc_lookup k l) <-> k ∈ l.*1.
Proof.
  induction l as [|[k' v] l IH]; csimpl; [split; [by intros [? ?]|set_solver]|]. case_decide; [set_solver|].
  rewrite IH. set_solver.
Qed.

(** A node that the index map leaves out. *)
Lemma setEpoch_not_member params c :
  fo_peerId (fc_opts (fc c)) ∉ (ep_peerIndexMap params).*1 ->
  (Cryptor.setEpoch params c).1 = Throw (GenericError "FrameCryptor: peerIndexMap missing self").
Proof.
  intros Hn. assert (assoc_lookup (fo_peerId (fc_opts (fc c))) (ep_peerIndexMap params) = None) as E.
  { apply eq_None_not_Some. by rewrite assoc_lookup_is_Some. }
  unfold Cryptor.setEpoch, beginEpoch, ensureInit, optc.
  destruct (initialised (fc c)) eqn:Ei.
  - erewrite bind_Throw; [reflexivity|]. erewrite bind_Ok by (rewrite bind_gets, Ei; reflexivity).
    by rewrite bind_gets, E.
  - erewrite bind_Throw; [reflexivity|]. erewrite bind_Ok by (rewrite bind_gets, Ei; reflexivity).
    rewrite bind_gets. cbn beta.
    match goal with |- context [fo_peerId (fc_opts (fc ?c'))] => change (fo_peerId (fc_opts (fc c'))) with (fo_peerId (fc_opts (fc c))) end.
    by rewrite E.
Qed.

(** ** Lemmas: epochs that the frame cryptor takes *)

(** What the provider gives its frame cryptor for a state, where the exporter answers. *)
Definition params_at (o : MlsRatchetProviderOptions) (cs : CiphersuiteImpl) (state : ClientState) : EpochParams :=
  params_of o state (match exported o state cs with Ok chainKey => chainKey | Throw _ => [] end).

(** A state whose epoch a frame cryptor can be given: the provider's bound and the KID format admit
    the epoch and every index, the exporter answers, and the identifiers of the members differ, this
    node's among them. *)
Record deliverable (o : MlsRatchetProviderOptions) (c : FrameCryptor) (cs : CiphersuiteImpl) (state : ClientState)
    : Prop := {
  dv_epoch : f64_round (groupEpoch state) <= js_floor (effective_maxEpoch o);
  dv_export : is_ok (exported o state cs) = true;
  dv_ids : NoDup (member_ids o state);
  dv_proto : "__proto__"%string ∉ member_ids o state;
  dv_self : fo_peerId (fc_opts c) ∈ member_ids o state;
  dv_size : Z.of_nat (length (member_ids o state)) <= 2 ^ 16;
  dv_kids : forall i, 0 <= i < Z.of_nat (length (member_ids o state)) ->
    is_ok (encode (_kidCodec c) (f64_round (groupEpoch state)) i) = true
}.

Lemma deliverable_derives o c cs state :
  deliverable o c cs state -> exists chainKey, exported o state cs = Ok chainKey /\
    deriveMlsEpochMaterial state cs (po_suite o) (po_groupId o) (Some (effective_maxEpoch o)) (po_credentialToPeerId o) =
    Ok (mkMaterial (f64_round (groupEpoch state)) (buildPeerIndexMap (member_ids o state)) chainKey
          (epochAuthenticator state)).
Proof.
  intros [He Hx _ _ Hs _ _]. apply is_ok_ex in Hx as [ck Hx]. exists ck. split; [done|].
  rewrite derive_run, Hx, (proj2 (Z.ltb_ge _ _)) by done.
  unfold member_ids in Hs. destruct (getGroupMembers state); [|done]. by apply not_elem_of_nil in Hs.
Qed.

Lemma indices_values ids :
  NoDup ids -> "__proto__"%string ∉ ids ->
  (Room.indices (buildPeerIndexMap ids)).*2 = seqZ 0 (Z.of_nat (length ids)).
Proof.
  intros Hnd Hp. rewrite buildPeerIndexMap_NoDup by done. unfold Room.indices.
  rewrite <- list_fmap_compose. change (snd ∘ prod_map id js_floor) with (js_floor ∘ (@snd string jsnum)).
  rewrite list_fmap_compose, snd_zip, <- list_fmap_compose, list_fmap_id; [done|].
  rewrite length_fmap, length_seqZ, (Permutation_length (merge_sort_Permutation string_le ids)). lia.
Qed.

(** The fixed KID format admits 16-bit epochs. *)
Lemma fixed_kids e n i : 0 <= e <= 0xffff -> n <= 2 ^ 16 -> 0 <= i < n -> is_ok (encode FIXED_KID_CODEC e i) = true.
Proof. intros He Hn Hi. cbn [encode FIXED_KID_CODEC]. rewrite makeKid_value; [done|done|lia]. Qed.

Lemma deriveEntries_total chainKey epoch values suite c :
  Z.of_nat (length chainKey) = chainKeyBytes (suiteParams suite) ->
  Forall (fun i => 0 <= i <= 0xffff /\ is_ok (encode c epoch i) = true) values ->
  exists l, deriveEntries chainKey epoch values suite c = Ok l.
Proof.
  intros Hl. induction 1 as [|i values [Hi Hk] _ [l IH]]; [by eexists|].
  apply is_ok_ex in Hk as [kid Hk].
  destruct (deriveSenderKeys_total chainKey epoch i suite c kid Hl Hi Hk) as [k E].
  cbn [deriveEntries]. rewrite E. cbn [mbind result_bind]. rewrite IH. by eexists.
Qed.

Lemma deliverable_accepted o c cs state :
  deliverable o c cs state -> fc_suite c = po_suite o -> accepted c (params_at o cs state) = true.
Proof.
  intros Hd Hs. destruct (deliverable_derives _ _ _ _ Hd) as (ck & Hx & _).
  destruct Hd as [_ _ Hnd Hp Hself Hsize Hk]. unfold accepted, params_at. rewrite Hx. cbn [params_of ep_peerIndexMap ep_chainKey ep_epoch].
  apply andb_true_iff. split.
  - apply bool_decide_eq_true, assoc_lookup_is_Some. by rewrite RoomE2E.indices_keys, (buildPeerIndexMap_keys _ Hnd Hp).
  - unfold deriveEpochKeyTable. rewrite indices_values by done.
    destruct (deriveEntries_total ck (f64_round (groupEpoch state)) (seqZ 0 (Z.of_nat (length (member_ids o state))))
      (fc_suite c) (_kidCodec c)) as [l ->]; [|  |done].
    + rewrite Hs. by eapply mlsExporter_length.
    + apply Forall_forall. intros i Hi%elem_of_seqZ. split; [lia|]. apply Hk. lia.
Qed.

(** Calls of [applyEpoch] are calls of [setEpoch], with a zeroed buffer each. *)
Lemma apply_epochs_run o cs states w c' :
  pv_opts w = o -> pv_maxEpoch w = effective_maxEpoch o -> disposed w = false ->
  (forall state, state ∈ states -> exists c, deliverable o c cs state) ->
  set_epochs (params_at o cs <$> states) (frameCryptor w) = (Ok tt, c') ->
  apply_epochs states cs w =
    (Ok tt, mkProviderWorld o (effective_maxEpoch o) false c'
       (chain_keys w ++ replicate (length states) (zeros (Z.to_nat (chainKeyBytes (suiteParams (po_suite o))))))
       (told w ++ concat (told_of o <$> states))).
Proof.
  revert w. induction states as [|state states IH]; intros w Ho Hm Hd Hdel Hset.
  { cbn in Hset. injection Hset as <-. cbn. destruct w. cbn in *. subst. by rewrite !app_nil_r. }
  destruct (Hdel state) as [c Hs]; [set_solver|].
  destruct (deliverable_derives _ _ _ _ Hs) as (ck & Hx & Hder).
  rewrite fmap_cons in Hset. cbn [set_epochs] in Hset. apply bind_inv in Hset as ([] & c1 & Hset1 & Hset).
  unfold params_at in Hset1. rewrite Hx in Hset1.
  cbn [apply_epochs]. erewrite bind_Ok.
  2: { rewrite (applyEpoch_run state cs w Hd), Ho, Hm, Hder. cbv zeta. cbn [em_chainKey].
       rewrite Hset1. cbn [fst snd]. reflexivity. }
  rewrite IH with (w := mkProviderWorld o (effective_maxEpoch o) false c1
    (chain_keys w ++ [zeros (length ck)]) (told w ++ told_of o state)); [|done..|set_solver|done].
  cbn [chain_keys told length replicate fmap list_fmap concat]. rewrite <- !app_assoc.
  apply mlsExporter_length in Hx. by rewrite <- Hx, Nat2Z.id.
Qed.

(** Two members' views of one epoch of a group: only the order of the members may differ. *)
Definition same_epoch (s1 s2 : ClientState) : Prop :=
  groupEpoch s1 = groupEpoch s2 /\ exporterSecret s1 = exporterSecret s2 /\ getGroupMembers s1 ≡ₚ getGroupMembers s2.

(** Two providers of the same group. *)
Definition same_group (o1 o2 : MlsRatchetProviderOptions) : Prop :=
  po_suite o1 = po_suite o2 /\ po_groupId o1 = po_groupId o2 /\ po_credentialToPeerId o1 = po_credentialToPeerId o2.

Lemma same_params o1 o2 cs s1 s2 : same_group o1 o2 -> same_epoch s1 s2 -> params_at o1 cs s1 = params_at o2 cs s2.
Proof.
  intros (Es & Eg & Ec) (Ee & Ex & Em). unfold params_at, params_of, exported. rewrite Es, Eg, Ee, Ex.
  do 2 f_equal. unfold buildPeerIndexMap, member_ids. rewrite Ec.
  assert (forall l l', l ≡ₚ l' -> merge_sort string_le l = merge_sort string_le l') as Hs by apply sort_Permutation.
  by rewrite (Hs _ _ (Permutation_map _ Em)).
Qed.

Lemma same_params_all o1 o2 cs l1 l2 :
  same_group o1 o2 -> Forall2 same_epoch l1 l2 -> params_at o1 cs <$> l1 = params_at o2 cs <$> l2.
Proof.
  intros Hg. induction 1 as [|s1 s2 l1 l2 Hs _ IH]; [done|]. rewrite !fmap_cons, IH. f_equal. by apply same_params.
Qed.

Lemma all_accepted o c cs states :
  fc_suite c = po_suite o -> Forall (deliverable o c cs) states ->
  Forall (fun p => accepted c p = true) (params_at o cs <$> states).
Proof.
  intros Hs Hd. apply Forall_fmap. eapply Forall_impl; [exact Hd|]. intros state Hst. by apply deliverable_accepted.
Qed.

End Lemmas.

(** ** Lemmas: the default bound *)

Lemma default_bound_small `{TsMls} o n :
  po_maxEpoch o = None -> po_nEpochBits o = Some (JsInt n) -> 0 <= n <= 30 ->
  effective_maxEpoch o = JsInt (2 ^ n - 1).
Proof.
  intros Hm Hb Hn. unfold effective_maxEpoch. rewrite Hm, Hb. do 2 f_equal. cbn [js_trunc].
  unfold js_shl. change (to_int32 1) with 1. rewrite Z.mod_small, Z.shiftl_1_l by lia.
  apply to_int32_small. split; [transitivity 0; [lia|apply Z.pow_nonneg; lia]|]. apply Z.pow_lt_mono_r; lia.
Qed.

Lemma default_bound_large `{TsMls} o n :
  po_maxEpoch o = None -> po_nEpochBits o = Some (JsInt n) -> 31 <= n <= 62 ->
  js_floor (effective_maxEpoch o) < (if n =? 31 then 0 else 2 ^ (n - 32)).
Proof.
  intros Hm Hb Hn. unfold effective_maxEpoch. rewrite Hm, Hb. cbn [js_trunc js_floor].
  unfold js_shl. change (to_int32 1) with 1. destruct (Z.eqb_spec n 31) as [->|]; [done|].
  replace (n mod 32) with (n - 32) by (apply Z.mod_unique with 1; lia).
  rewrite Z.shiftl_1_l, to_int32_small; [lia|].
  split; [transitivity 0; [lia|apply Z.pow_nonneg; lia]|]. apply Z.pow_lt_mono_r; lia.
Qed.

Lemma encodeMlsKid_zero e n :
  1 <= n <= 62 -> 0 <= e ->
  is_ok (encodeMlsKid (JsInt e) (JsInt 0) (mkMlsKidConfig (JsInt n) (JsInt 1) 0)) = bool_decide (e < 2 ^ n).
Proof.
  intros Hn He. apply eq_true_iff_eq. rewrite bool_decide_eq_true. split.
  - intros [kid Hk]%is_ok_ex. apply encodeMlsKid_spec in Hk as (E & S' & e' & i & HE & _ & _ & _ & He' & _ & Hr & _).
    injection HE as <-. injection He' as <-. lia.
  - intros Hlt. destruct (encodeMlsKid _ _ _) as [kid|err] eqn:E; [done|]. exfalso.
    assert (encodeMlsKid (JsInt e) (JsInt 0) (mkMlsKidConfig (JsInt n) (JsInt 1) 0) = Ok e) as Hok; [|congruence].
    apply encodeMlsKid_spec. exists n, 1, e, 0. cbn [nEpochBits nIndexBits contextId].
    split_and!; try done; lia.
Qed.

(** ** Lemmas: identifiers *)

Lemma default_ids_proto `{TsMlsLaws} (leaves : list LeafNode) : "__proto__"%string ∉ defaultCredentialToPeerId <$> leaves.
Proof.
  intros (leaf & E & _)%list_elem_of_fmap. unfold defaultCredentialToPeerId in E.
  destruct (credentialType leaf) as [t|]; [destruct (t =? basic)|]; by apply (eq_sym), base64_no_underscore in E.
Qed.

Lemma basic_ids `{TsMlsLaws} (leaves : list LeafNode) :
  Forall (fun leaf => credentialType leaf = Some basic) leaves ->
  defaultCredentialToPeerId <$> leaves = bytesToBase64 <$> (identity <$> leaves).
Proof.
  induction 1 as [|leaf leaves Hl _ IH]; [done|]. cbn. rewrite IH. f_equal.
  unfold defaultCredentialToPeerId. by rewrite Hl, Z.eqb_refl.
Qed.

Lemma base64_NoDup `{TsMlsLaws} (l : list bytes) : NoDup (bytesToBase64 <$> l) <-> NoDup l.
Proof.
  split; [apply NoDup_fmap_1|]. apply NoDup_fmap_2. intros a b. apply base64_inj.
Qed.

(** ** An instance of ts-mls for the witnesses

    A state is what the provider reads of it; base64 is the letter b followed by the bytes, the
    exporter the checksum of its arguments. *)

Record ToyState := mkToyState {
  toy_epoch : Z;
  toy_secret : bytes;
  toy_members : list (option Z * bytes * bytes)
}.

#[export] Instance toy_mls : TsMls := {|
  ClientState := ToyState;
  CiphersuiteImpl := unit;
  LeafNode := option Z * bytes * bytes;
  groupEpoch := toy_epoch;
  exporterSecret := toy_secret;
  epochAuthenticator := fun s => be_bytes 32 (checksum [toy_secret s]);
  getGroupMembers := toy_members;
  credentialType := fun leaf => leaf.1.1;
  identity := fun leaf => leaf.1.2;
  signaturePublicKey := fun leaf => leaf.2;
  basic := 1;
  bytesToBase64 := fun bs => ("b" +:+ String.string_of_list_byte bs)%string;
  mlsExporter := fun secret label context n _ =>
    if n <? 0 then Throw DomException
    else Ok (be_bytes (Z.to_nat n) (checksum [secret; textEncode label; context]));
  zeroOutUint8Array := fun bs => zeros (length bs)
|}.

#[export] Instance toy_mls_laws : TsMlsLaws.
Proof.
  split; cbn [bytesToBase64 mlsExporter zeroOutUint8Array toy_mls].
  - intros a b [= E]. change (String.string_of_list_byte a = String.string_of_list_byte b) in E. rewrite <- (String.list_byte_of_string_of_list_byte a), E.
    apply String.list_byte_of_string_of_list_byte.
  - done.
  - intros secret label context n cs out. destruct (Z.ltb_spec n 0); [done|]. intros <-%Ok_inj.
    rewrite length_be_bytes. lia.
  - done.
Qed.

(** Alice and Bob, in the order that each has them. *)
Definition leaf_of (name : string) : option Z * bytes * bytes := (Some 1, textEncode name, textEncode ("pk-" +:+ name)).
Definition demo_state (names : list string) (epoch : Z) : @ClientState toy_mls :=
  mkToyState epoch (demo_bytes 32 (epoch + 5)) (leaf_of <$> names).
Definition demo_provider : MlsRatchetProviderOptions :=
  mkProviderOptions AES_128_GCM_SHA256 (textEncode "group") None None None true true.
Definition mls_node (role : Role) (name : string) : res (CryptorWorld (H := toy)) :=
  newFrameCryptor None demo_browser (demo_cryptor_opts role ("b" +:+ name) 0).

Lemma demo_deliverable role name w names e :
  mls_node role name = Ok w -> 0 <= e <= 0xffff ->
  bool_decide (NoDup (member_ids demo_provider (demo_state names e))) = true ->
  bool_decide ("b" +:+ name ∈ member_ids demo_provider (demo_state names e)) = true ->
  Z.of_nat (length (member_ids demo_provider (demo_state names e))) <=? 2 ^ 16 = true ->
  deliverable demo_provider (fc w) tt (demo_state names e).
Proof.
  intros Hnew He Hnd Hself Hsize. destruct (new_linked _ _ _ _ Hnew) as (_ & _ & Hk & _ & Ho).
  apply Ok_inj in Hk. assert (f64_round e = e) as Ee by (apply f64_round_small; assert (2 ^ 16 < 2 ^ 53) by done; lia).
  split.
  - change (f64_round e <= 0xffff). lia.
  - done.
  - by apply bool_decide_eq_true in Hnd.
  - apply default_ids_proto.
  - rewrite Ho. by apply bool_decide_eq_true in Hself.
  - lia.
  - intros i Hi. rewrite <- Hk. change (is_ok (encode FIXED_KID_CODEC (f64_round e) i) = true). rewrite Ee.
    eapply fixed_kids; [done| |exact Hi]. lia.
Qed.

(** ** Properties *)

(** C1. From MLS group to media: two members of an MLS group each have a provider over a frame
    cryptor just constructed with the same suite and KID format. They apply the same epochs of the
    group, in order; their ts-mls states may list the members in different orders. If the
    provider's bound and the KID format admit each epoch, every call returns, the application is told
    of each epoch, every chain key handed out by the exporter is zeroed; and whatever part of the
    frames that one member's worker puts out reaches the other's, in whatever order, each at most
    once, is restored there, in that order. *)
Theorem mls_members_talk `{WebCryptoLaws} `{TsMlsLaws} (f1 f2 : FipsState) (b1 b2 : Browser)
    (c1 c2 : FrameCryptorOptions) (w1 w2 : CryptorWorld) (o1 o2 : MlsRatchetProviderOptions)
    (cs : CiphersuiteImpl) (states1 states2 : list ClientState) (fs : list Frame) (js : list nat)
    (Hnew1 : newFrameCryptor f1 b1 c1 = Ok w1) (Hnew2 : newFrameCryptor f2 b2 c2 = Ok w2)
    (Hfmt : fo_kidFormat c1 = fo_kidFormat c2) (Hcfg : fo_mlsConfig c1 = fo_mlsConfig c2)
    (Hsuite1 : fc_suite (fc w1) = po_suite o1) (Hsuite2 : fc_suite (fc w2) = po_suite o2)
    (Hgroup : same_group o1 o2) (Hsame : Forall2 same_epoch states1 states2)
    (Hne : states1 <> []) (Hrise : rising (-1) (params_at o1 cs <$> states1))
    (Hdel1 : Forall (deliverable o1 (fc w1) cs) states1) (Hdel2 : Forall (deliverable o2 (fc w2) cs) states2)
    (Hsize : Forall (fun f => Z.of_nat (length (frame_data f)) < 2 ^ 36 - 32) fs)
    (Hmax : Z.of_nat (length fs) <= 2 ^ 64)
    (Hjs : NoDup js) (Hin : Forall (fun j => (j < length fs)%nat) js) :
  exists v1 v2, apply_epochs states1 cs (createMlsRatchetProvider w1 o1) = (Ok tt, v1) /\
    apply_epochs states2 cs (createMlsRatchetProvider w2 o2) = (Ok tt, v2) /\
    told v1 = concat (told_of o1 <$> states1) /\ told v2 = concat (told_of o2 <$> states2) /\
    (forall key, key ∈ chain_keys v1 ++ chain_keys v2 -> exists n, key = zeros n) /\
    let sender_worker := run initial_world (to_worker (frameCryptor v1)) in
    let receiver_worker := run initial_world (to_worker (frameCryptor v2)) in
    let wires := pass side_encode sender_worker fs in
    length wires = length fs /\
    pass side_decode receiver_worker (omap (fun j => wires !! j) js) = omap (fun j => fs !! j) js.
Proof.
  destruct (new_linked _ _ _ _ Hnew1) as (Hl1 & _ & Hk1 & _), (new_linked _ _ _ _ Hnew2) as (Hl2 & _ & Hk2 & _).
  rewrite Hfmt, Hcfg, Hk2 in Hk1. apply Ok_inj in Hk1. pose proof (same_params_all _ _ cs _ _ Hgroup Hsame) as Heq.
  pose proof (all_accepted _ _ _ _ Hsuite1 Hdel1) as Hacc1.
  pose proof (all_accepted _ _ _ _ Hsuite2 Hdel2) as Hacc2. rewrite <- Heq in Hacc2.
  rewrite (proj1 Hgroup), <- Hsuite2 in Hsuite1.
  destruct (linked_talk w1 w2 (params_at o1 cs <$> states1) fs js) as (u1 & u2 & Hrun1 & Hrun2 & Hpass); try done.
  { by intros ->%fmap_nil_inv. }
  assert (forall (o : MlsRatchetProviderOptions) (c : FrameCryptor) states,
    Forall (deliverable o c cs) states -> forall state, state ∈ states -> exists c, deliverable o c cs state) as Hex.
  { intros o c states Hd state Hs. exists c. by apply (proj1 (Forall_forall _ _) Hd). }
  rewrite Heq in Hrun2.
  eexists _, _. split; [by apply apply_epochs_run; [..|by eapply Hex|]|].
  split; [by apply apply_epochs_run; [..|by eapply Hex|]|]. split; [done|]. split; [done|]. split; [|exact Hpass].
  intros key. cbn [chain_keys createMlsRatchetProvider]. rewrite !app_nil_l, elem_of_app, !elem_of_replicate.
  intros [[-> _]|[-> _]]; by eexists.
Qed.

Lemma mls_members_talk_witness :
  match mls_node sender "alice", mls_node receiver "bob" with
  | Ok w1, Ok w2 => exists v1 v2,
      apply_epochs (demo_state ["alice"; "bob"] <$> [1; 3]) tt (createMlsRatchetProvider w1 demo_provider) = (Ok tt, v1) /\
      apply_epochs (demo_state ["bob"; "alice"] <$> [1; 3]) tt (createMlsRatchetProvider w2 demo_provider) = (Ok tt, v2) /\
      pass side_decode (run initial_world (to_worker (frameCryptor v2)))
        (omap (fun j => pass side_encode (run initial_world (to_worker (frameCryptor v1))) demo_stream !! j) [2%nat; 0%nat])
      = [mkFrame [x01; x02] None; mkFrame demo_data (Some "key"%string)]
  | _, _ => False
  end.
Proof.
  destruct (is_ok_ex (mls_node sender "alice")) as [w1 E1]; [vm_compute; reflexivity|].
  destruct (is_ok_ex (mls_node receiver "bob")) as [w2 E2]; [vm_compute; reflexivity|].
  rewrite E1, E2.
  destruct (mls_members_talk None None demo_browser demo_browser _ _ w1 w2 demo_provider demo_provider tt
    (demo_state ["alice"; "bob"]%string <$> [1; 3]) (demo_state ["bob"; "alice"]%string <$> [1; 3]) demo_stream
    [2%nat; 0%nat] E1 E2 eq_refl eq_refl) as (v1 & v2 & H1 & H2 & _ & _ & _ & _ & Hpass).
  - destruct (new_linked _ _ _ _ E1) as (_ & _ & _ & Hs & _). exact Hs.
  - destruct (new_linked _ _ _ _ E2) as (_ & _ & _ & Hs & _). exact Hs.
  - repeat split.
  - repeat constructor.
  - discriminate.
  - split; [vm_compute; reflexivity|split; [vm_compute; reflexivity|exact I]].
  - constructor; [|constructor; [|constructor]]; (apply (demo_deliverable _ _ _ _ _ E1); [split; discriminate|by vm_compute..]).
  - constructor; [|constructor; [|constructor]]; (apply (demo_deliverable _ _ _ _ _ E2); [split; discriminate|by vm_compute..]).
  - repeat constructor.
  - discriminate.
  - apply (bool_decide_unpack _). vm_compute. reflexivity.
  - apply (bool_decide_unpack _). vm_compute. reflexivity.
  - exists v1, v2. split; [exact H1|split; [exact H2|exact Hpass]].
Defined.

(** C21. Where the chain key goes: a disposed provider refuses and changes nothing; a call that
    returns leaves the buffer of this epoch's chain key zeroed; a call that throws tells the
    application nothing. Once the exporter has answered with a chain key, the call ends as [setEpoch]
    of the frame cryptor does: if that returns the buffer is zeroed, and whatever it throws, the
    chain key stays in memory as it is. It throws, for one, when this node is not among the members. *)
Theorem applyEpoch_chain_key `{WebCryptoLaws} `{TsMlsLaws} (state : ClientState) (cs : CiphersuiteImpl)
    (w w' : ProviderWorld) (r : res unit) (Hrun : applyEpoch state cs w = (r, w')) :
  let o := pv_opts w in
  let max := js_floor (pv_maxEpoch w) in
  (disposed w = true -> r = Throw (GenericError "MlsRatchetProvider: disposed") /\ w' = w) /\
  (r = Ok tt -> chain_keys w' = chain_keys w ++ [zeros (Z.to_nat (chainKeyBytes (suiteParams (po_suite o))))] /\
     told w' = told w ++ told_of o state) /\
  (forall e, r = Throw e -> told w' = told w /\ disposed w' = disposed w) /\
  (forall ck, disposed w = false -> f64_round (groupEpoch state) <= max -> getGroupMembers state <> [] ->
     exported o state cs = Ok ck ->
     r = (Cryptor.setEpoch (params_of o state ck) (frameCryptor w)).1 /\
     (r = Ok tt -> chain_keys w' = chain_keys w ++ [zeros (length ck)]) /\
     (forall e, r = Throw e -> chain_keys w' = chain_keys w ++ [ck]) /\
     (fo_peerId (fc_opts (fc (frameCryptor w))) ∉ (buildPeerIndexMap (member_ids o state)).*1 ->
      r = Throw (GenericError "FrameCryptor: peerIndexMap missing self"))).
Proof.
  cbv zeta. destruct (disposed w) eqn:Hd.
  { unfold applyEpoch in Hrun. rewrite bind_gets, Hd in Hrun. injection Hrun as <- <-. by rewrite Hd. }
  rewrite (applyEpoch_run state cs w Hd), derive_run in Hrun. cbv zeta in Hrun. split; [done|].
  destruct (Z.ltb_spec (js_floor (pv_maxEpoch w)) (f64_round (groupEpoch state))).
  { injection Hrun as <- <-. split_and!; try done. intros; lia. }
  destruct (Nat.eqb_spec (length (getGroupMembers state)) 0) as [E|E].
  { injection Hrun as <- <-. split_and!; try done. intros ck _ _ Hm. by apply nil_length_inv in E. }
  destruct (exported (pv_opts w) state cs) as [ck|e] eqn:Hx.
  2: { injection Hrun as <- <-. by split_and!. }
  cbn [em_chainKey] in Hrun.
  assert (length ck = Z.to_nat (chainKeyBytes (suiteParams (po_suite (pv_opts w))))) as Hlen.
  { apply mlsExporter_length in Hx. by rewrite <- Hx, Nat2Z.id. }
  assert (fo_peerId (fc_opts (fc (frameCryptor w))) ∉ (buildPeerIndexMap (member_ids (pv_opts w) state)).*1 ->
    (Cryptor.setEpoch (params_of (pv_opts w) state ck) (frameCryptor w)).1 =
      Throw (GenericError "FrameCryptor: peerIndexMap missing self")) as Hself.
  { intros Hin. apply setEpoch_not_member. cbn [params_of ep_peerIndexMap]. by rewrite RoomE2E.indices_keys. }
  destruct (Cryptor.setEpoch (params_of (pv_opts w) state ck) (frameCryptor w)) as [[[]|e] c] eqn:Ec;
    cbn [fst snd] in Hrun, Hself; injection Hrun as <- <-; cbn [chain_keys told disposed].
  - rewrite Hlen. split_and!; try done. intros ck' _ _ _ [= <-]%Ok_inj. rewrite Ec, Hlen. by split_and!.
  - split_and!; try done. intros ck' _ _ _ [= <-]%Ok_inj. rewrite Ec. by split_and!.
Qed.

(** Alice applies an epoch of which she is not a member. *)
Lemma applyEpoch_chain_key_witness :
  match mls_node sender "alice" with
  | Ok w => exists ck, exported demo_provider (demo_state ["bob"; "carol"] 1) tt = Ok ck /\
      bool_decide (ck = zeros 32) = false /\
      chain_keys (applyEpoch (demo_state ["bob"; "carol"] 1) tt (createMlsRatchetProvider w demo_provider)).2 = [ck]
  | Throw _ => False
  end.
Proof.
  destruct (is_ok_ex (mls_node sender "alice")) as [w E]; [vm_compute; reflexivity|]. rewrite E.
  destruct (is_ok_ex (exported demo_provider (demo_state ["bob"; "carol"]%string 1) tt)) as [ck Hck];
    [vm_compute; reflexivity|].
  exists ck. split; [exact Hck|]. split.
  { pose proof Hck as H'. apply Ok_inj in H'. subst ck. vm_compute. reflexivity. }
  destruct (applyEpoch_chain_key (demo_state ["bob"; "carol"]%string 1) tt (createMlsRatchetProvider w demo_provider)
    _ _ (surjective_pairing _)) as (_ & _ & _ & Hfail).
  destruct (Hfail ck) as (_ & _ & Hkept & Hself); [reflexivity|by apply (bool_decide_unpack _)|discriminate|exact Hck|].
  eapply Hkept, Hself. destruct (new_linked _ _ _ _ E) as (_ & _ & _ & _ & Ho).
  change (fc (frameCryptor (createMlsRatchetProvider w demo_provider))) with (fc w). rewrite Ho.
  apply (bool_decide_unpack _). vm_compute. reflexivity.
Defined.

(** The epoch material: the bound on the epoch, the empty group and the exporter are tried in that
    order; the exporter is asked for the suite's chain key under a context that names the group and
    the suite and no other pair; the index map does not depend on the order of the members. With
    the default identifiers the map is valid exactly when no two members share one, as for basic
    credentials with distinct identities; material with an invalid map is returned like any other. *)
Theorem deriveMlsEpochMaterial_spec `{TsMlsLaws} (state : ClientState) (cs : CiphersuiteImpl)
    (suite : CipherSuite) (groupId : bytes) (maxEpoch : jsnum) (r : res MlsEpochMaterial)
    (Hr : deriveMlsEpochMaterial state cs suite groupId (Some maxEpoch) None = r) :
  let ids := defaultCredentialToPeerId <$> getGroupMembers state in
  (js_floor maxEpoch < f64_round (groupEpoch state) ->
   r = Throw (RangeError "deriveMlsEpochMaterial: MLS epoch exceeds maxEpoch")) /\
  (f64_round (groupEpoch state) <= js_floor maxEpoch -> getGroupMembers state = [] ->
   r = Throw (GenericError "deriveMlsEpochMaterial: MLS group has no members")) /\
  (forall suite' groupId', exporter_context suite groupId = exporter_context suite' groupId' ->
   suite = suite' /\ groupId = groupId') /\
  (forall m, r = Ok m ->
   em_epoch m <= js_floor maxEpoch /\ Z.of_nat (length (em_chainKey m)) = chainKeyBytes (suiteParams suite) /\
   (forall ids', ids' ≡ₚ ids -> em_peerIndexMap m = buildPeerIndexMap ids') /\
   (validatePeerIndexMap (em_peerIndexMap m) = valid <-> NoDup ids) /\
   (Forall (fun leaf => credentialType leaf = Some basic) (getGroupMembers state) ->
    NoDup ids <-> NoDup (identity <$> getGroupMembers state))).
Proof.
  cbv zeta. set (o := mkProviderOptions suite groupId None None None false false).
  change (deriveMlsEpochMaterial state cs (po_suite o) (po_groupId o) (Some maxEpoch) (po_credentialToPeerId o) = r) in Hr.
  rewrite derive_run in Hr. change (member_ids o state) with (defaultCredentialToPeerId <$> getGroupMembers state) in Hr.
  set (ids := defaultCredentialToPeerId <$> _) in *. split_and!.
  - intros Hlt. by rewrite (proj2 (Z.ltb_lt _ _) Hlt) in Hr.
  - intros Hle Hm. by rewrite (proj2 (Z.ltb_ge _ _) Hle), Hm in Hr.
  - intros suite' groupId'. apply exporter_context_inj.
  - intros m ->. destruct (Z.ltb_spec (js_floor maxEpoch) (f64_round (groupEpoch state))); [done|].
    destruct (Nat.eqb_spec (length (getGroupMembers state)) 0) as [|Hne]; [done|].
    destruct (exported o state cs) as [ck|] eqn:Hx; [|done]. apply Ok_inj in Hr as <-.
    cbn [em_epoch em_chainKey em_peerIndexMap]. pose proof (default_ids_proto (getGroupMembers state)) as Hp.
    split_and!; [done|by eapply mlsExporter_length| | |].
    + intros ids' HP. unfold buildPeerIndexMap. by rewrite (sort_Permutation _ _ HP).
    + split; [by intros [_ Hnd]%valid_NoDup|]. intros Hnd. apply buildPeerIndexMap_valid; try done.
      intros E%fmap_nil_inv. apply Hne. by rewrite E.
    + intros Hb. unfold ids. by rewrite (basic_ids _ Hb), base64_NoDup.
Qed.

(** Two leaves of one identity: the map has one entry, numbered 1. *)
Lemma deriveMlsEpochMaterial_spec_witness :
  exists m, deriveMlsEpochMaterial (demo_state ["bob"; "bob"] 1) tt AES_128_GCM_SHA256 [] (Some (JsInt 7)) None = Ok m /\
    validatePeerIndexMap (em_peerIndexMap m) <> valid.
Proof.
  destruct (is_ok_ex (deriveMlsEpochMaterial (demo_state ["bob"; "bob"]%string 1) tt AES_128_GCM_SHA256 []
    (Some (JsInt 7)) None)) as [m E]; [vm_compute; reflexivity|].
  exists m. split; [exact E|].
  destruct (deriveMlsEpochMaterial_spec _ _ _ _ _ _ E) as (_ & _ & _ & Hm).
  destruct (Hm m eq_refl) as (_ & _ & _ & Hv & _). rewrite Hv. apply (bool_decide_unpack _). vm_compute. reflexivity.
Defined.

(** The default bound of the provider against the KID layout it is meant for: with
    [nEpochBits] = n up to 30 the epochs that give material are exactly those that a KID can carry;
    from 31 on, the layout carries in 32 bits an epoch that the provider refuses, since [1 << n] is
    computed on 32-bit integers. *)
Theorem mls_default_maxEpoch `{WebCrypto} `{TsMlsLaws} (n : Z) (o : MlsRatchetProviderOptions)
    (Hn : 1 <= n <= 62) (Hmax : po_maxEpoch o = None) (Hbits : po_nEpochBits o = Some (JsInt n)) :
  let config := mkMlsKidConfig (JsInt n) (JsInt 1) 0 in
  (n <= 30 -> forall state cs, 0 <= groupEpoch state -> getGroupMembers state <> [] ->
     is_ok (exported o state cs) = true ->
     is_ok (deriveMlsEpochMaterial state cs (po_suite o) (po_groupId o) (Some (effective_maxEpoch o))
              (po_credentialToPeerId o)) =
     is_ok (encodeMlsKid (JsInt (f64_round (groupEpoch state))) (JsInt 0) config)) /\
  (31 <= n -> exists e, is_ok (encode (mls_codec config) e 0) = true /\
     forall fc state cs, groupEpoch state = e ->
     (applyEpoch state cs (createMlsRatchetProvider fc o)).1 =
       Throw (RangeError "deriveMlsEpochMaterial: MLS epoch exceeds maxEpoch")).
Proof.
  cbv zeta. split.
  - intros Hsmall state cs He Hne Hx. rewrite derive_run, (default_bound_small o n) by (done || lia). cbn [js_floor].
    rewrite encodeMlsKid_zero by (done || by apply f64_round_nonneg).
    apply is_ok_ex in Hx as [ck ->]. destruct (Z.ltb_spec (2 ^ n - 1) (f64_round (groupEpoch state))).
    { rewrite bool_decide_eq_false_2 by lia. done. }
    rewrite bool_decide_eq_true_2 by lia. by destruct (getGroupMembers state).
  - intros Hbig. pose proof (default_bound_large o n Hmax Hbits ltac:(lia)) as Hlt.
    exists (if n =? 31 then 0 else 2 ^ (n - 32)). set (e := if n =? 31 then 0 else 2 ^ (n - 32)) in *.
    assert (0 <= e < 2 ^ 31) as He.
    { unfold e. destruct (Z.eqb_spec n 31); [lia|]. split; [apply Z.pow_nonneg; lia|apply Z.pow_lt_mono_r; lia]. }
    split.
    + cbn [encode mls_codec]. pose proof (encodeMlsKid_zero e n Hn (proj1 He)) as Hok.
      rewrite bool_decide_eq_true_2 in Hok by (assert (2 ^ 31 <= 2 ^ n) by (apply Z.pow_le_mono_r; lia); lia).
      apply is_ok_ex in Hok as [kid Hk]. rewrite Hk. cbn [mbind result_bind].
      apply encodeMlsKid_spec in Hk as (E & S' & e' & i & _ & _ & _ & _ & He' & Hi & _ & _ & _ & ->).
      injection He' as <-. injection Hi as <-. cbn [contextId]. rewrite (proj2 (Z.ltb_ge _ _)) by lia. done.
    + intros fc0 state cs Hs. rewrite applyEpoch_run by done. cbv zeta.
      change (pv_opts (createMlsRatchetProvider fc0 o)) with o.
      change (pv_maxEpoch (createMlsRatchetProvider fc0 o)) with (effective_maxEpoch o).
      rewrite derive_run, Hs, f64_round_small by (assert (2 ^ 31 < 2 ^ 53) by done; lia).
      by rewrite (proj2 (Z.ltb_lt _ _) Hlt).
Qed.

Definition wide_provider : MlsRatchetProviderOptions :=
  mkProviderOptions AES_128_GCM_SHA256 (textEncode "group") None (Some (JsInt 31)) None false false.

(** With 31 epoch bits the bound is negative, and no state can be applied. *)
Lemma mls_default_maxEpoch_witness :
  match mls_node sender "alice" with
  | Ok w => exists e, forall names, groupEpoch (demo_state names e) = e /\
      (applyEpoch (demo_state names e) tt (createMlsRatchetProvider w wide_provider)).1 =
        Throw (RangeError "deriveMlsEpochMaterial: MLS epoch exceeds maxEpoch")
  | Throw _ => False
  end.
Proof.
  destruct (is_ok_ex (mls_node sender "alice")) as [w E]; [vm_compute; reflexivity|]. rewrite E.
  destruct (mls_default_maxEpoch 31 wide_provider ltac:(lia) eq_refl eq_refl) as [_ Hbig].
  destruct (Hbig ltac:(lia)) as (e & _ & He). exists e. intros names. split; [reflexivity|]. by apply He.
Defined.
