(* ===== verification/MeshDemo.v ===== *)
(** * MeshDemo: the browser example (examples/02-mesh-browser/src/main.js)

    Two peers in one page, with the keys of a [SimpleKex]: peer A seals a message on every tick of
    an interval and posts it, peer B opens what arrives. A tick waits for its encryption, an arrival
    for its decryption, and the button that turns the encryption off may be clicked in between. A
    [LogEntry] is a line of one of the two logs, with the bytes of a text instead of their decoding;
    the badges, the time stamps and the DOM are left out. *)
From S2P Require Import Prelude StateLogic Async Errors Internal Header Kid WebCrypto Toy Crypto SFrame Fips Sas Kex.

Definition SHARED_PASSWORD : string := "demo-password-not-for-production".
Definition EPOCH : Z := 0.
Definition PEER_INDEX_A : Z := 0.
Definition PEER_INDEX_B : Z := 1.
Definition HEX_TRUNCATE : nat := 24.

Definition MESSAGES : list string :=
  ["hello from peer A"; "sframe is working"; "RFC 9605 AES-GCM"; "epoch ratchet active"; "forward secrecy demo"]%string.

Definition hex_digit (n : Z) : string := default "" (String.get (Z.to_nat n) "0123456789abcdef" ≫= fun c => Some (String c "")).

(** [b.toString(16).padStart(2, '0')] *)
Definition hex_byte (b : Byte.byte) : string := hex_digit (b2z b / 16) +:+ hex_digit (b2z b mod 16).

Definition toHex (bs : bytes) : string :=
  let hex := foldr (fun b s => hex_byte b +:+ s) ""%string bs in
  if (HEX_TRUNCATE * 2 <? String.length hex)%nat then String.substring 0 (HEX_TRUNCATE * 2) hex +:+ "…" else hex.

(** What follows the hex: a text, the message of an error, or [(passthrough)]. *)
Inductive Shown := ShownText (text : bytes) | ShownError (e : js_error) | Passthrough.

Record LogEntry := mkEntry { le_label : string; le_cipherHex : string; le_shown : Shown }.

Section Mesh.
Context `{WebCrypto, NobleHashes}.

Record MeshKeys := mkMeshKeys {
  keyA_sender : SenderKey;
  keyA_receiver : SenderKey;
  keyB_sender : SenderKey;
  keyB_receiver : SenderKey
}.

(** The awaits at the top of the module. *)
Definition mesh_keys (active : FipsState) : M (list string) js_error MeshKeys :=
  let config := mkKexConfig SHARED_PASSWORD None None None false in
  kexA ← newSimpleKex active config;
  kexB ← newSimpleKex active config;
  ckA ← lift (initialEpoch kexA);
  ckB ← lift (initialEpoch kexB);
  keyA_sender ← lift (deriveSenderKeys ckA EPOCH PEER_INDEX_A DEFAULT_CIPHER_SUITE FIXED_KID_CODEC);
  keyA_receiver ← lift (deriveSenderKeys ckB EPOCH PEER_INDEX_A DEFAULT_CIPHER_SUITE FIXED_KID_CODEC);
  keyB_sender ← lift (deriveSenderKeys ckB EPOCH PEER_INDEX_B DEFAULT_CIPHER_SUITE FIXED_KID_CODEC);
  keyB_receiver ← lift (deriveSenderKeys ckA EPOCH PEER_INDEX_B DEFAULT_CIPHER_SUITE FIXED_KID_CODEC);
  mret (mkMeshKeys keyA_sender keyA_receiver keyB_sender keyB_receiver).

(** [channelAtoB]: what was posted and has not arrived. *)
Record Mesh := mkMesh {
  e2eeEnabled : bool;
  ctrA : Z;
  frameIndex : nat;
  channelAtoB : list bytes;
  logA : list LogEntry;
  logB : list LogEntry
}.

#[export] Instance eta_mesh : Eta Mesh := fun r =>
  mkMesh (e2eeEnabled r) (ctrA r) (frameIndex r) (channelAtoB r) (logA r) (logB r).

Definition mesh_start : Mesh := mkMesh true 0 0 [] [] [].

Abbreviation DP := (P Mesh js_error).

Definition appendLogA (e : LogEntry) : DP unit := piece (modify (fun s => s <| logA ::= fun l => l ++ [e] |>)).
Definition appendLogB (e : LogEntry) : DP unit := piece (modify (fun s => s <| logB ::= fun l => l ++ [e] |>)).
Definition post (bs : bytes) : DP unit := piece (modify (fun s => s <| channelAtoB ::= fun l => l ++ [bs] |>)).

(** The callback of the interval. *)
Definition interval_callback (keys : MeshKeys) : DP unit :=
  n ← piece (gets frameIndex);
  let text := default ""%string (MESSAGES !! (n mod length MESSAGES)%nat) in
  piece (modify (fun s => s <| frameIndex ::= S |>));;
  on ← piece (gets e2eeEnabled);
  if negb on then
    let plain := textEncode text in
    appendLogA (mkEntry "send raw:" (toHex plain) (ShownText (textEncode text)));;
    post plain
  else
    let plaintext := textEncode text in
    ctr ← piece (gets ctrA);
    pause;;
    ciphertext ← piece (lift (sframeEncrypt plaintext (sframe_key (keyA_sender keys)) ctr None aad_prefix));
    piece (modify (fun s => s <| ctrA ::= fun c => c + 1 |>));;
    appendLogA (mkEntry "send:" (toHex ciphertext) (ShownText (textEncode text)));;
    post ciphertext.

Definition resolve_peer (keys : MeshKeys) (l : SFrameKeyLookup) : option SFrameKey :=
  if lk_peerIndex l =? PEER_INDEX_A then Some (sframe_key (keyA_receiver keys)) else None.

(** [channelAtoB.port2.onmessage] *)
Definition port2_onmessage (keys : MeshKeys) (data : bytes) : DP unit :=
  on ← piece (gets e2eeEnabled);
  if negb on then appendLogB (mkEntry "recv raw:" (toHex data) Passthrough) else
  catchP
    (pause;;
     decrypted ← piece (lift (sframeDecrypt data (resolve_peer keys) (mkMeta None None None)));
     appendLogB (mkEntry "recv:" (toHex data) (ShownText decrypted)))
    (fun err => appendLogB (mkEntry "recv ERR:" (toHex data) (ShownError err))).

(** ** The page *)

(** [sealed_with]: the counters given to [sframeEncrypt], in order. *)
Record Page := mkPage {
  mesh : Mesh;
  under_way : list (Run Mesh js_error unit);
  sealed_with : list Z
}.

(** [Arrive]: the oldest message of the channel reaches peer B. *)
Inductive PageEvent := Tick | Toggle | Arrive | GoOn (n : nat).
#[export] Instance page_event_eq_dec : EqDecision PageEvent.
Proof. solve_decision. Defined.

Definition begin_call (p : Page) (x : Run Mesh js_error unit * Mesh) (used : list Z) : Page :=
  mkPage x.2 (under_way p ++ [x.1]) (sealed_with p ++ used).

Definition page_step (keys : MeshKeys) (p : Page) (ev : PageEvent) : Page :=
  match ev with
  | Tick => begin_call p (interval_callback keys (mesh p)) (if e2eeEnabled (mesh p) then [ctrA (mesh p)] else [])
  | Toggle => mkPage ((mesh p) <| e2eeEnabled ::= negb |>) (under_way p) (sealed_with p)
  | Arrive =>
      match channelAtoB (mesh p) with
      | data :: rest => begin_call p (port2_onmessage keys data ((mesh p) <| channelAtoB := rest |>)) []
      | [] => p
      end
  | GoOn n =>
      match under_way p !! n with
      | Some (Waiting ready k) =>
          if ready (mesh p) then let '(x, s) := k (mesh p) in mkPage s (<[n := x]> (under_way p)) (sealed_with p)
          else p
      | _ => p
      end
  end.

Definition run_page (keys : MeshKeys) (evs : list PageEvent) : Page :=
  foldl (page_step keys) (mkPage mesh_start [] []) evs.

End Mesh.

(** ** Lemmas *)

Section MeshLemmas.
Context `{WebCryptoLaws, NobleHashes}.

(** Both peers derive the same keys. *)
Lemma mesh_keys_agree active console keys console' :
  mesh_keys active console = (Ok keys, console') ->
  keyA_receiver keys = keyA_sender keys /\ key_wf FIXED_KID_CODEC DEFAULT_CIPHER_SUITE 0 0 (keyA_sender keys).
Proof.
  unfold mesh_keys. intros (kexA & c1 & EA & E)%bind_inv. apply bind_inv in E as (kexB & c2 & EB & E).
  assert (kexB = kexA) as ->.
  { unfold newSimpleKex in EA, EB. unfold lift, throw, modify, mbind, M_bind, mret, M_ret in EA, EB. cbn in EA, EB.
    destruct (assertNotSimpleKex active) as [[]|]; [|done]. injection EA as <- _. by injection EB as <- _. }
  apply bind_inv in E as (ckA & c3 & E3 & E). apply bind_inv in E as (ckB & c4 & E4 & E).
  unfold lift in E3, E4. destruct (initialEpoch kexA) as [ck|]; [|done]. injection E3 as -> ->. injection E4 as -> ->.
  apply bind_inv in E as (k1 & c5 & E5 & E). apply bind_inv in E as (k2 & c6 & E6 & E).
  apply bind_inv in E as (k3 & c7 & E7 & E). apply bind_inv in E as (k4 & c8 & E8 & E). injection E as <- _.
  unfold lift in E5, E6. destruct (deriveSenderKeys ckB EPOCH PEER_INDEX_A _ _) as [k|] eqn:Ek; [|done].
  injection E5 as <- _. injection E6 as <- _. split; [done|]. by apply deriveSenderKeys_wf in Ek as [? _].
Qed.

(** A frame that peer B opens to a message. *)
Definition opens (keys : MeshKeys) (data : bytes) : Prop :=
  exists m, m ∈ MESSAGES /\ sframeDecrypt data (resolve_peer keys) (mkMeta None None None) = Ok (textEncode m).

Definition restored (e : LogEntry) : Prop :=
  le_label e = "recv:"%string /\ exists m, m ∈ MESSAGES /\ le_shown e = ShownText (textEncode m).

Record intact (keys : MeshKeys) (s : Mesh) : Prop := mk_intact {
  it_on : e2eeEnabled s = true;
  it_channel : Forall (opens keys) (channelAtoB s);
  it_logB : Forall restored (logB s)
}.

Definition agree (keys : MeshKeys) : Prop :=
  keyA_receiver keys = keyA_sender keys /\ key_wf FIXED_KID_CODEC DEFAULT_CIPHER_SUITE 0 0 (keyA_sender keys).

Lemma sealed_opens keys m ctr w :
  agree keys -> m ∈ MESSAGES ->
  sframeEncrypt (textEncode m) (sframe_key (keyA_sender keys)) ctr None aad_prefix = Ok w -> opens keys w.
Proof.
  intros [Hr Hwf] Hm Hw. exists m. split; [done|].
  apply (sframe_open (textEncode m) (sframe_key (keyA_sender keys)) ctr None aad_prefix w FIXED_KID_CODEC
    (resolve_peer keys) 0 0 Hw); [exact (codec_roundtrip _ _ _ (kw_kid _ _ _ _ _ Hwf))|].
  unfold resolve_peer. cbn. by rewrite Hr.
Qed.

Lemma message_at n : default ""%string (MESSAGES !! (n mod length MESSAGES)%nat) ∈ MESSAGES.
Proof.
  destruct (lookup_lt_is_Some_2 MESSAGES (n mod length MESSAGES)) as [m Hm]; [by apply Nat.mod_upper_bound|].
  rewrite Hm. by eapply list_elem_of_lookup_2.
Qed.

Lemma tick_intact keys : agree keys -> hoare (intact keys) (intact keys) (fun _ => intact keys) (interval_callback keys).
Proof.
  intros Hk. unfold interval_callback. apply (hoare_bind _ _ (fun _ => intact keys)); [by apply hoare_piece|]. intros n.
  pose proof (message_at n) as Hm. set (text := default _ _) in *.
  apply (hoare_bind _ _ (fun _ => intact keys)); [apply hoare_piece; by intros s []|]. intros _.
  apply (hoare_bind _ _ (fun on s => intact keys s /\ on = true)).
  { apply hoare_piece. intros s Hs. split; [done|apply Hs]. }
  intros on s [Hs ->]. revert s Hs. cbn [negb].
  apply (hoare_bind _ _ (fun _ => intact keys)); [by apply hoare_piece|]. intros ctr.
  apply (hoare_bind _ _ (fun _ => intact keys)); [by apply hoare_pause|]. intros _.
  apply (hoare_bind _ _ (fun w s => intact keys s /\ opens keys w)).
  { apply hoare_piece. intros s Hs. unfold lift. cbn [fst snd].
    destruct (sframeEncrypt _ _ _ _ _) as [w|] eqn:Ew; [|done].
    split; [done|by eapply sealed_opens]. }
  intros w s [Hs Hw]. revert s Hs.
  apply (hoare_bind _ _ (fun _ => intact keys)); [apply hoare_piece; by intros s []|]. intros _.
  apply (hoare_bind _ _ (fun _ => intact keys)); [apply hoare_piece; by intros s []|]. intros _.
  apply hoare_piece. intros s [Hon Hch Hlog]. split; [done| |done]. cbn. apply Forall_app. by repeat constructor.
Qed.

Lemma onmessage_intact keys data :
  opens keys data -> hoare (intact keys) (intact keys) (fun _ => intact keys) (port2_onmessage keys data).
Proof.
  intros (m & Hm & Hd). unfold port2_onmessage. apply (hoare_bind _ _ (fun on s => intact keys s /\ on = true)).
  { apply hoare_piece. intros s Hs. split; [done|apply Hs]. }
  intros on s [Hs ->]. revert s Hs. cbn [negb]. apply hoare_catch.
  apply (hoare_bind _ _ (fun _ => intact keys)); [by apply hoare_pause|]. intros _.
  apply (hoare_bind _ _ (fun d s => intact keys s /\ d = textEncode m)).
  { apply hoare_piece. intros s Hs. unfold lift. cbn [fst snd]. by rewrite Hd. }
  intros d s [Hs ->]. revert s Hs. apply hoare_piece. intros s [Hon Hch Hlog]. split; [done|done|]. cbn.
  apply Forall_app. split; [done|]. constructor; [|constructor]. split; [done|]. by exists m.
Qed.

Record page_intact (keys : MeshKeys) (p : Page) : Prop := mk_page_intact {
  pi_mesh : intact keys (mesh p);
  pi_calls n x : under_way p !! n = Some x -> run_post (intact keys) (fun _ => intact keys) x (mesh p)
}.

(** A call that waits has not been disturbed, since the invariant holds. *)
Lemma run_post_other keys (x : Run Mesh js_error unit) s s' :
  intact keys s' -> run_post (intact keys) (fun _ => intact keys) x s -> run_post (intact keys) (fun _ => intact keys) x s'.
Proof. destruct x as [r|ready k]; [done|]. by intros Hs [_ Hc]. Qed.

Lemma run_post_done keys (x : Run Mesh js_error unit) s :
  run_post (intact keys) (fun _ => intact keys) x s -> intact keys s.
Proof. destruct x as [r|ready k]; [done|]. by intros [Hs _]. Qed.

Lemma begin_intact keys p x used :
  page_intact keys p -> run_post (intact keys) (fun _ => intact keys) x.1 x.2 -> page_intact keys (begin_call p x used).
Proof.
  intros [Hm Hc] Hx. pose proof (run_post_done _ _ _ Hx) as Hx'. split; [done|]. cbn. intros n y Hn.
  apply lookup_app_Some in Hn as [Hn|[_ Hn]]; [eapply run_post_other; [done|by eapply Hc]|].
  by apply list_lookup_singleton_Some in Hn as [_ <-].
Qed.

Lemma page_step_intact keys p ev :
  agree keys -> ev <> Toggle -> page_intact keys p -> page_intact keys (page_step keys p ev).
Proof.
  intros Hk Hev Hp. pose proof Hp as [Hm Hc]. destruct ev as [| | |n]; cbn [page_step]; [|done| |].
  - apply begin_intact; [done|]. by apply tick_intact.
  - destruct (channelAtoB (mesh p)) as [|data rest] eqn:Ech; [done|]. destruct Hm as [Hon Hch Hlog]. rewrite Ech in Hch.
    apply Forall_cons in Hch as [Hd Hrest]. apply begin_intact; [done|]. by apply onmessage_intact.
  - destruct (under_way p !! n) as [[r|ready k]|] eqn:En; [done| |done]. destruct (ready (mesh p)) eqn:Er; [|done].
    destruct (Hc _ _ En) as [_ Hk']. specialize (Hk' (mesh p) Er Hm). destruct (k (mesh p)) as [x s].
    pose proof (run_post_done _ _ _ Hk') as Hs. split; [done|]. cbn.
    intros n' y [(<- & <- & _)|[_ Hn]]%list_lookup_insert_Some; [done|]. eapply run_post_other; [done|by eapply Hc].
Qed.

End MeshLemmas.

(** ** Lemmas: the counter *)

Section Counter.
Context `{WebCryptoLaws, NobleHashes} (keys : MeshKeys).
Hypothesis (Hkeys : agree keys).

(** A tick from its wait on. *)
Definition send_rest (text : bytes) (ctr : Z) : P Mesh js_error unit :=
  pause;;
  ciphertext ← piece (lift (sframeEncrypt text (sframe_key (keyA_sender keys)) ctr None aad_prefix));
  piece (modify (fun s => s <| ctrA ::= fun c => c + 1 |>));;
  appendLogA (mkEntry "send:" (toHex ciphertext) (ShownText text));;
  post ciphertext.

Definition text_of (s : Mesh) : bytes := textEncode (default "" (MESSAGES !! (frameIndex s mod length MESSAGES)%nat)).

Lemma tick_on s :
  e2eeEnabled s = true -> interval_callback keys s = ((send_rest (text_of s) (ctrA s) s).1, s <| frameIndex ::= S |>).
Proof. destruct s as [on c n ch la lb]. by intros [= ->]. Qed.

Lemma tick_off s : e2eeEnabled s = false -> exists s', interval_callback keys s = (Finished (Ok tt), s') /\ ctrA s' = ctrA s.
Proof. destruct s as [on c n ch la lb]. intros [= ->]. exists (interval_callback keys (mkMesh false c n ch la lb)).2. by split. Qed.

(** The wait of a tick; when it goes on the counter is advanced. *)
Lemma send_goes_on text ctr s0 :
  0 <= ctr < 2 ^ 64 -> Z.of_nat (length text) < 2 ^ 36 - 32 ->
  exists k, (send_rest text ctr s0).1 = Waiting (fun _ => true) k /\
    forall s, exists s', k s = (Finished (Ok tt), s') /\ ctrA s' = ctrA s + 1.
Proof.
  intros Hc Ht. destruct Hkeys as [_ [Hkid _ _ _ _ Hsalt]].
  destruct (sframeEncrypt_total text (sframe_key (keyA_sender keys)) ctr None aad_prefix) as [w Hw];
    [done|by destruct (codec_range _ _ _ Hkid)|done|done|done|].
  eexists. split; [done|]. intros s. cbn -[sframeEncrypt]. rewrite Hw. by eexists.
Qed.

Lemma text_short s : Z.of_nat (length (text_of s)) < 2 ^ 36 - 32.
Proof.
  unfold text_of. pose proof (message_at (frameIndex s)) as Hm. set (m := default _ _) in *. clearbody m.
  unfold MESSAGES in Hm. repeat (apply elem_of_cons in Hm as [->|Hm]; [done|]). by apply not_elem_of_nil in Hm.
Qed.

Lemma onmessage_keeps data : keepsP (same ctrA) (port2_onmessage keys data).
Proof.
  unfold port2_onmessage. apply keepsP_bind; [apply _|apply keepsP_piece; apply keeps_gets, _|]. intros on.
  destruct (negb on); [by apply keepsP_piece, keeps_modify|]. apply keepsP_catch; [apply _| |].
  - apply keepsP_bind; [apply _|apply keepsP_pause, _|]. intros _.
    apply keepsP_bind; [apply _|apply keepsP_piece; apply keeps_lift, _|]. intros d. by apply keepsP_piece, keeps_modify.
  - intros e. by apply keepsP_piece, keeps_modify.
Qed.

(** [n] counters are used up, and at most one more, by the call [pending]. *)
Record counted (p : Page) (n : nat) (pending : option nat) : Prop := mk_counted {
  cn_ctr : ctrA (mesh p) = Z.of_nat n;
  cn_used : sealed_with p = Z.of_nat <$> seq 0 (n + if pending then 1 else 0);
  cn_pending i : pending = Some i -> exists s, under_way p !! i = Some (send_rest (text_of s) (Z.of_nat n) s).1;
  cn_others i x : under_way p !! i = Some x -> pending <> Some i -> rest_keeps (same ctrA) x
}.

Definition settled_run {S E A} (x : Run S E A) : bool := match x with Finished _ => true | Waiting _ _ => false end.

(** No tick comes while a call is under way. *)
Fixpoint unhurried (p : Page) (evs : list PageEvent) : bool :=
  match evs with
  | [] => true
  | ev :: evs =>
      match ev with Tick => forallb settled_run (under_way p) | _ => true end && unhurried (page_step keys p ev) evs
  end.

Lemma counted_begin p n pending x s :
  counted p n pending -> rest_keeps (same ctrA) x -> ctrA s = ctrA (mesh p) -> counted (begin_call p (x, s) []) n pending.
Proof.
  intros [Hc Hu Hp Ho] Hx Hs. split; cbn.
  - by rewrite Hs.
  - by rewrite app_nil_r.
  - intros i Hi. destruct (Hp i Hi) as [s0 Hs0]. exists s0. by apply lookup_app_l_Some.
  - intros i y Hy Hi. apply lookup_app_Some in Hy as [Hy|[_ Hy]]; [by eapply Ho|].
    by apply list_lookup_singleton_Some in Hy as [_ <-].
Qed.

Lemma counted_step p n pending ev :
  counted p n pending -> Z.of_nat n + 1 < 2 ^ 64 -> (ev = Tick -> forallb settled_run (under_way p) = true) ->
  exists n' pending', counted (page_step keys p ev) n' pending' /\ (n' <= n + 1)%nat.
Proof.
  intros Hp Hn Hev. pose proof Hp as [Hc Hu Hpd Ho]. destruct ev as [| | |i]; cbn [page_step].
  - assert (pending = None) as ->.
    { destruct pending as [i|]; [|done]. destruct (Hpd i eq_refl) as [s0 Hi]. specialize (Hev eq_refl).
      rewrite forallb_forall in Hev. specialize (Hev _ (proj1 (list_elem_of_In _ _) (list_elem_of_lookup_2 _ _ _ Hi))). done. }
    destruct (e2eeEnabled (mesh p)) eqn:Eon.
    + exists n, (Some (length (under_way p))). split; [|lia]. rewrite tick_on by done. rewrite Hc. split; cbn.
      * done.
      * rewrite Hu, Nat.add_0_r, Nat.add_1_r, seq_S, fmap_app. done.
      * intros i [= <-]. exists (mesh p). rewrite lookup_app_r, Nat.sub_diag by lia. done.
      * intros i x Hi Hne. apply lookup_app_Some in Hi as [Hi|[Hle Hi]]; [by eapply Ho|].
        apply list_lookup_singleton_Some in Hi as [Hi _]. exfalso. apply Hne. f_equal. lia.
    + exists n, None. split; [|lia]. destruct (tick_off (mesh p) Eon) as (s' & -> & Hs'). by apply counted_begin.
  - exists n, pending. split; [|lia]. by split.
  - exists n, pending. split; [|lia]. destruct (channelAtoB (mesh p)) as [|data rest]; [done|].
    destruct (onmessage_keeps data ((mesh p) <| channelAtoB := rest |>)) as [Hx1 Hx2].
    destruct (port2_onmessage keys data _) as [x s]. by apply counted_begin.
  - destruct (under_way p !! i) as [[r|ready k]|] eqn:Ei; [by exists n, pending; split; [|lia]| |by exists n, pending; split; [|lia]].
    destruct (ready (mesh p)) eqn:Er; [|by exists n, pending; split; [|lia]].
    destruct (decide (pending = Some i)) as [->|Hne].
    + destruct (Hpd i eq_refl) as [s0 Hi]. rewrite Ei in Hi.
      destruct (send_goes_on (text_of s0) (Z.of_nat n) s0) as (k' & Hk & Hgo); [lia|apply text_short|].
      rewrite Hk in Hi. injection Hi as -> ->. destruct (Hgo (mesh p)) as (s' & -> & Hs'). exists (S n), None.
      split; [|lia]. split; cbn [mesh sealed_with under_way].
      * lia.
      * rewrite Hu. f_equal. f_equal. lia.
      * done.
      * intros j x [(<- & <- & _)|[Hne Hj]]%list_lookup_insert_Some _; [done|]. eapply Ho; [done|congruence].
    + exists n, pending. split; [|lia]. pose proof (Ho i _ Ei Hne) as Hx. destruct (Hx (mesh p)) as [Hx1 Hx2].
      destruct (k (mesh p)) as [x s]. cbn in Hx1, Hx2. split; cbn.
      * by rewrite Hx1.
      * done.
      * intros j Hj. destruct (Hpd j Hj) as [s0 Hs0]. exists s0. rewrite list_lookup_insert_ne; [done|congruence].
      * intros j y [(<- & <- & _)|[_ Hj]]%list_lookup_insert_Some Hy; [done|by eapply Ho].
Qed.

Lemma counted_run p n pending evs :
  counted p n pending -> Z.of_nat n + Z.of_nat (length evs) < 2 ^ 64 -> unhurried p evs = true ->
  exists n' pending', counted (foldl (page_step keys) p evs) n' pending'.
Proof.
  revert p n pending. induction evs as [|ev evs IH]; intros p n pending Hp Hn Hu; [by exists n, pending|].
  cbn [unhurried length] in *. apply andb_true_iff in Hu as [Hev Hu].
  destruct (counted_step p n pending ev) as (n' & pending' & Hp' & Hle); [done|lia|by intros ->|].
  apply (IH _ n' pending'); [done|lia|done].
Qed.

End Counter.

(** ** Properties *)

(** While the encryption stays on, peer B restores what peer A sent: whatever ticks, arrivals and
    calls to the browser overlap, its log has nothing but the messages that were sealed. *)
Theorem mesh_restores `{WebCryptoLaws, NobleHashes} (active : FipsState) (console console' : list string)
    (keys : MeshKeys) (evs : list PageEvent)
    (Hkeys : mesh_keys active console = (Ok keys, console')) (Hon : Toggle ∉ evs) :
  Forall restored (logB (mesh (run_page keys evs))).
Proof.
  apply mesh_keys_agree in Hkeys. unfold run_page.
  assert (page_intact keys (mkPage mesh_start [] [])) as Hp by (split; [by repeat constructor|done]).
  revert Hp. generalize (mkPage mesh_start [] []). induction evs as [|ev evs IH]; intros p Hp; [apply Hp|].
  apply not_elem_of_cons in Hon as [Hev Hevs]. apply (IH Hevs). by apply page_step_intact.
Qed.

Definition demo_mesh_keys : MeshKeys (H := toy) :=
  match (mesh_keys (H := toy) None []).1 with
  | Ok keys => keys
  | Throw _ => let k := mkSenderKey (H := toy) (mkSFrameKey (H := toy) 0 0 0 [] []) [] in mkMeshKeys k k k k
  end.

Definition demo_page : list PageEvent := [Tick; GoOn 0; Arrive; GoOn 1; Tick; GoOn 2; Arrive; GoOn 3].

Definition texts (l : list LogEntry) : list (string * option bytes) :=
  (fun e => (le_label e, match le_shown e with ShownText t => Some t | _ => None end)) <$> l.

Lemma mesh_restores_witness :
  Forall restored (logB (mesh (run_page demo_mesh_keys demo_page))) /\
  texts (logB (mesh (run_page demo_mesh_keys demo_page))) =
    [("recv:", Some (textEncode "hello from peer A")); ("recv:", Some (textEncode "sframe is working"))]%string.
Proof.
  split; [|vm_compute; reflexivity].
  apply (mesh_restores None [] (mesh_keys (H := toy) None []).2 demo_mesh_keys demo_page); [reflexivity|].
  apply (bool_decide_unpack _). vm_compute. exact I.
Defined.

(** As long as no tick comes while a call is under way, the counters that frames are sealed with are
    0, 1, 2 and so on, so that no nonce is used twice. *)
Theorem mesh_counters_consecutive `{WebCryptoLaws, NobleHashes} (active : FipsState) (console console' : list string)
    (keys : MeshKeys) (evs : list PageEvent)
    (Hkeys : mesh_keys active console = (Ok keys, console')) (Hlen : Z.of_nat (length evs) < 2 ^ 64)
    (Hslow : unhurried keys (mkPage mesh_start [] []) evs = true) :
  let used := sealed_with (run_page keys evs) in
  used = Z.of_nat <$> seq 0 (length used) /\ NoDup used.
Proof.
  apply mesh_keys_agree in Hkeys. intros used.
  destruct (counted_run keys Hkeys (mkPage mesh_start [] []) 0 None evs) as (n & pending & [_ Hu _ _]);
    [by split|lia|done|].
  assert (used = Z.of_nat <$> seq 0 (length used)) as E.
  { unfold used, run_page. rewrite Hu at 2. rewrite length_fmap, length_seq. exact Hu. }
  split; [done|]. rewrite E. apply NoDup_fmap_2; [apply _|apply NoDup_seq].
Qed.

Lemma mesh_counters_consecutive_witness : sealed_with (run_page demo_mesh_keys demo_page) = [0; 1] /\ NoDup [0; 1].
Proof.
  destruct (mesh_counters_consecutive None [] (mesh_keys (H := toy) None []).2 demo_mesh_keys demo_page) as [_ H].
  - reflexivity.
  - reflexivity.
  - vm_compute. reflexivity.
  - split; [vm_compute; reflexivity|exact H].
Defined.

(** But the counter is advanced after the encryption has been awaited: when a tick comes before the
    frame of the last one is sealed, both are sealed under the same key and counter, and so with the
    same nonce. *)
Theorem mesh_hurried_ticks_share_a_nonce :
  let p := run_page demo_mesh_keys [Tick; Tick; GoOn 0; GoOn 1] in
  sealed_with p = [0; 0] /\ length (channelAtoB (mesh p)) = 2%nat /\ NoDup (channelAtoB (mesh p)) /\
  ((fun w => Header.ctr <$> (match parseHeader w with Ok h => Some h | Throw _ => None end)) <$> channelAtoB (mesh p)) =
    [Some 0; Some 0].
Proof.
  split; [vm_compute; reflexivity|]. split; [vm_compute; reflexivity|].
  split; [apply (bool_decide_unpack _); vm_compute; exact I|vm_compute; reflexivity].
Qed.
